(* ===== verification/_CoqProject ===== *)
-Q . S2P
Prelude.v
Arc.v
Wire.v
Fabric.v
RegionCache.v
Operands.v
PeerAddresses.v
Config.v
Endpoint.v
PassiveTarget.v
Client.v
Stream.v
Reply.v
Pool.v
Worker.v
Initiators.v
Margin.v
FabricTransport.v
Service.v
Leases.v
Lifecycle.v
Rest.v
Targets.v
Addressed.v
Asynchronous.v
Futures.v
Wrapping.v
Start.v
Memory.v
DataCommands.v
Devices.v
Answers.v
Entry.v
Advertised.v
Exposed.v
