(* ===== verification/Prelude.v ===== *)
(** * vdma: a verification development

    vdma moves values between a valkey server and its clients by RDMA.  A client sends
    [DMA.SET] or [DMA.GET] with an advertisement of its own buffer; the module blocks the
    client, hands a transfer to a fabric worker thread, and answers when the transfer has
    completed.  This library models the program's four crates (paths are below
    [src/crates/]) as Rocq functions and step relations and proves what makes each part,
    and their composition, correct.

    ** The parts, from the wire to the command

    - [Prelude]: bytes, [result] and the [?] notation, 64 bit arithmetic, list lemmas.
    - [Arc]: [std::sync::Arc] and [Weak] as a counted heap: clone, drop, upgrade.
    - [Wire] ([dma-libfabric-protocol]: [advertisement.rs], [error.rs]): hex and decimal
      fields, [Advertisement::from_fields], the errors and their texts.
    - [Fabric]: libfabric itself, as a class of answers to the calls made so far (a
      [trace]); the promises the code relies on are classes beside it.
    - [RegionCache] ([dma-libfabric/src/region_cache.rs]): the process wide registry of
      registrations: [track], [covering], [invalidate], [clear_domain].  A lock's critical
      section is one step, the drops after it another, and threads interleave between.
    - [Operands] ([operands.rs], [local_regions.rs], [memory_region.rs], [error.rs]): how a
      buffer becomes an operand with a descriptor and a lease, pinned regions, [MemoryRegion].
    - [PeerAddresses] ([peer_addresses.rs]): address vector entries shared by clients, the
      weak index that finds them again, its sweep.
    - [Config] ([configuration.rs] and the [configuration] crate).
    - [Endpoint] ([endpoint.rs], [connection.rs], [devices.rs], [error.rs]): opening an
      endpoint step by step and undoing it, posting, reaping, describing, closing.
    - [Reply] ([reply.rs]) and [Pool] ([pool.rs]): the one shot answer and the job pool.
    - [Worker] ([server_dma_worker.rs]): one worker's state and each function of its loop;
      [pass] is one turn of the loop, [shutdown] what follows it.  The endpoint reaches it
      through the class [Transport], with laws [TransportLaws].
    - [FabricTransport]: [Endpoint], [Operands] and [PeerAddresses] make a [Transport], and
      its laws follow from libfabric's promises about completions.
    - [Service] ([server.rs]): the handle callers hold, and the step relation in which
      callers' operations and the worker's passes interleave.
    - [Leases] (the leases of [server_dma_worker.rs]): every lease on a registration
      followed through the worker, the pool and the process's other threads.
    - [Lifecycle]: the specification of a transfer's life, and the service as one of its
      implementations.
    - [Rest]: runs of the worker thread left to itself, to where it sleeps or has left.
    - [Targets]: a record of everything the worker asks the fabric for, against the
      requests; [Addressed]: the calls libfabric gets, against the record.
    - [Asynchronous] ([asynchronous.rs]): transfers as futures over wrapped contexts, one
      transfer's cell at a time; [Futures]: all of them over the service and its worker;
      [Wrapping]: that service against the plain one.
    - [Start] ([server.rs], [server_dma_worker.rs]): how a service comes up, or does not.
    - [Memory] ([module/src/memory/]): jemalloc's arenas and the extent hooks that
      deregister bytes before they are reclaimed; the step relation in which threads that
      resolve operands or pin regions meet arenas that reclaim.
    - [DataCommands] ([module/src/transfer.rs], [valkey_error.rs]): operand tokens, device
      choice, the data commands, completion batches, and the step relation of the whole
      module: commands, workers' turns and keyspace changes in any order.  [Devices]: what
      holds of every device's service, and the workers left to themselves.  [Answers]: the
      module and the checksum pool ([Pool]) together, whose threads run the batches handed
      to it.
    - [Entry] ([module/src/entry.rs], [session.rs], [static_state.rs], [valkey_logger.rs],
      [observability.rs]): [init], argument parsing and the commands as valkey calls them.
    - [Advertised]: the process with its devices, from a command's arguments down to what is
      asked of the fabric.
    - The other end, in [dma-libfabric/examples/]: [PassiveTarget] ([passive_target/mod.rs]),
      the client's half in raw libfabric: opening, exposing a buffer, polling, dropping;
      [Client] ([common/mod.rs], [one_target.rs]), the advertisement printed and read back,
      the command lines, the wait for the bytes; [Initiators] ([one_transfer.rs],
      [async_transfer.rs], [read_from_peer.rs], [registered_arena.rs]); [Stream] and [Margin]
      ([delivery_margin.rs]), two programs that talk over tcp, as trees of what each writes
      and waits for, and the step relation in which they meet.
    - [Exposed]: a target's buffer, its advertisement, the commands that carry it and the posts
      of every device.

    A definition is named as the code's function or type where Rocq allows it; a Rust
    [&mut self] is a state passed in and out, a panic or a broken [unwrap] is [None], and
    an error is the [Err] of a [result].

    ** What the theorems show

    - Transfers: each one submitted comes back once, whatever fails and however callers
      and the worker interleave, as a success only if the fabric completed that very
      operation successfully ([Lifecycle], which the service refines); the worker's bookkeeping (boxes, counts,
      queues) never lets it get stuck and its counts are exact; whatever it posts is a
      request's own transfer, to the peer and place the request names ([Targets]), within
      the buffer a command's arguments named, under a handle that stands for the address
      they named, every integer a [u64] ([Advertised]); it sleeps or leaves only with nothing
      owed, and left to itself it does ([Rest]); a peer's address goes when its client has
      no operation left ([Service]).
    - Commands: every blocked client is answered once, and in the end is, by a worker or by a
      thread of the pool ([Answers]);
      [DMA.SET] stores only what arrived and verified; a command either answers or blocks;
      arguments parse exactly in their shape; devices are chosen by load ([DataCommands],
      [Entry]).
    - Memory: a registration is open exactly while it is cached or leased; an operand's
      descriptor is that of an open registration over it; whatever the fabric was given is
      under one until it completes, and no lease outlives its operation; no cached
      registration covers bytes an arena has reclaimed ([RegionCache], [Operands], [Leases],
      [Memory]).  The registry and the peer addresses refine finite maps.
    - Resources: opening, failing to start and closing leak no libfabric object, in the
      order the objects require ([Endpoint], [Start], [Entry]).
    - Threads: replies, pool jobs and futures lose no wakeup and no value ([Reply],
      [Pool], [Asynchronous]), and every future resolves with its own context ([Futures]);
      the asynchronous service is the plain one, contexts unwrapped ([Wrapping]).
    - Fields: hex and decimal parsing, exactly ([Wire]); what a target prints is what an
      initiator reads ([Client]).
    - Clients: a buffer whose advertisement the commands carry is touched only inside, under
      its key and with access it was registered with ([Exposed]); a target closes what it
      opened, in reverse ([PassiveTarget]); each initiator asks for one transfer of the
      buffer advertised, and one from a registered arena registers nothing ([Initiators]);
      the two ends of the delivery test come to their end together in every order of their
      turns, and its stamps bracket the landing they time ([Stream], [Margin]).

    Every numbered theorem with a hypothesis has a witness after it that discharges the hypotheses
    on concrete values; the examples run real scripts through the whole worker.

    ** Bounds and fuel

    [usize] and [u64] are 64 bits wide and kept in [Z]; additions that the code checks,
    wraps or saturates are [checked_add], [wrapping_add] and [saturating_sub].  No model of the
    module or its libraries is cut off by fuel: loops that libfabric or a queue drives recur on
    what they consume, and [reap_delivers] proves that reaping's measure, the completions still wanted, ends it, and
    [Rest] that the worker's passes come to an end, by what is left to do for each transfer.
    The printer of hexadecimal numbers has fuel for 64 bits, which its numbers fit.  The
    examples' loops that a clock ends, or the other end of a stream, have fuel: as many turns
    as the clock reads before its deadline and words to look at ([await_transfer_ends],
    [watch_loop_ends], [watch_brackets]), one more batch than sizes ([sessions_agree]).

    ** What is outside

    libfabric, jemalloc, valkey's module API, [toml], the checksum ([crc-fast]) and the
    clock are parameters; so are what threads spawn, files hold and heaps return.  Tracing
    spans and a request's [parent_id], which only names one, are left out, with the
    [Debug] instances of state.  In [Service] and [DataCommands] a worker has the
    registration cache to itself between its own calls; in [Leases] the process's other
    threads are at the registry before each of them, in [RegionCache] at every critical
    section, and in [Memory] also at every call between them.  An operation handed to the pool takes its lease with it, and
    the pool's thread drops it: [Leases] says when, the other files leave it with the job.
    Poisoned locks are taken, as the code takes them.  Of the examples, the tcp connection,
    binding a thread to a core, and the quantiles with their printing and csv file are left
    out: they are system calls, floating point and text; a write to a stream whose reader has
    left is taken by the system, and the arithmetic on generations does not overflow in the
    runs the theorems are about.  The checksum's wrapper, the bindings, the re-exports and the
    build script are not modelled. *)

From stdpp Require Export gmap gmultiset strings list fin_maps pretty.
From Stdlib Require Export ZArith Lia.
From Stdlib Require Import Strings.Byte.

#[global] Set Default Goal Selector "!".

(** ** Bytes *)

Abbreviation u8 := Init.Byte.byte.

#[export] Instance u8_eq_dec : EqDecision u8 := Byte.byte_eq_dec.

#[export] Program Instance u8_countable : Countable u8 :=
  inj_countable Byte.to_N Byte.of_N _.
Next Obligation. intros b. apply Byte.of_to_N. Qed.

(** ** [Result] *)

Inductive result (A E : Type) : Type :=
  | Ok (a : A)
  | Err (e : E).
Arguments Ok {A E} a.
Arguments Err {A E} e.

#[export] Instance result_eq_dec `{EqDecision A, EqDecision E} : EqDecision (result A E).
Proof. solve_decision. Defined.

Declare Scope rust_scope.
Delimit Scope rust_scope with rust.
Open Scope rust_scope.

(** The [?] operator. *)
Notation "'let?' x ':=' e 'in' k" :=
  (match e with Ok x => k | Err err => Err err end)
  (at level 10, x pattern, e at level 100, k at level 200) : rust_scope.

Definition is_ok {A E} (r : result A E) : bool :=
  match r with Ok _ => true | Err _ => false end.

Definition ok_or {A E} (o : option A) (e : E) : result A E :=
  match o with Some a => Ok a | None => Err e end.

Definition result_map {A B E} (f : A → B) (r : result A E) : result B E :=
  match r with Ok a => Ok (f a) | Err e => Err e end.

Lemma ok_or_Ok {A E} (o : option A) (e : E) a : ok_or o e = Ok a ↔ o = Some a.
Proof. destruct o; naive_solver. Qed.

Lemma ok_or_Err {A E} (o : option A) (e e' : E) :
  ok_or o e = Err e' ↔ o = None ∧ e' = e.
Proof. destruct o; naive_solver. Qed.

(** ** Machine integers: [usize] and [u64] are both 64 bits wide. *)

Definition u64_end : Z := 2 ^ 64.

Definition in_u64 (z : Z) : Prop := (0 ≤ z < u64_end)%Z.

Definition checked_add (a b : Z) : option Z :=
  if (a + b <? u64_end)%Z then Some (a + b)%Z else None.

Definition wrapping_add (a b : Z) : Z := ((a + b) mod u64_end)%Z.

Definition saturating_sub (a b : Z) : Z := Z.max 0 (a - b).

Lemma u64_end_pos : (0 < u64_end)%Z.
Proof. done. Qed.

Lemma checked_add_Some a b c :
  checked_add a b = Some c ↔ c = (a + b)%Z ∧ (a + b < u64_end)%Z.
Proof.
  unfold checked_add. destruct (Z.ltb_spec (a + b) u64_end); naive_solver lia.
Qed.

Lemma checked_add_None a b : checked_add a b = None ↔ (u64_end ≤ a + b)%Z.
Proof.
  unfold checked_add. destruct (Z.ltb_spec (a + b) u64_end); naive_solver lia.
Qed.

Lemma wrapping_add_small a b :
  (0 ≤ a + b < u64_end)%Z → wrapping_add a b = (a + b)%Z.
Proof. intros. by apply Z.mod_small. Qed.

Lemma saturating_sub_le a b : (b ≤ a)%Z → saturating_sub a b = (a - b)%Z.
Proof. unfold saturating_sub. lia. Qed.

(** ** Weighted sums

    Conservation laws are stated for every weight function at once: two lists
    with the same total under every weight are permutations of one another. *)

Lemma sum_list_with_Permutation {A} (f : A → nat) (l1 l2 : list A) :
  l1 ≡ₚ l2 → sum_list_with f l1 = sum_list_with f l2.
Proof. induction 1; simpl; lia. Qed.

Lemma sum_list_with_ext {A} (f g : A → nat) (l : list A) :
  (∀ x, x ∈ l → f x = g x) → sum_list_with f l = sum_list_with g l.
Proof.
  induction l as [|x l IH]; intros H; [done|]. simpl.
  rewrite (H x) by set_solver. rewrite IH; [done|]. set_solver.
Qed.

Lemma sum_list_with_0 {A} (f : A → nat) (l : list A) :
  sum_list_with f l = 0 ↔ ∀ x, x ∈ l → f x = 0.
Proof.
  induction l as [|x l IH]; simpl; [set_solver|].
  rewrite Nat.eq_add_0, IH. setoid_rewrite elem_of_cons. naive_solver.
Qed.

Lemma sum_list_with_elem {A} (f : A → nat) (l : list A) x :
  x ∈ l → f x ≤ sum_list_with f l.
Proof. induction 1; simpl; lia. Qed.

Lemma sum_list_with_fmap {A B} (g : A → B) (f : B → nat) (l : list A) :
  sum_list_with f (g <$> l) = sum_list_with (f ∘ g) l.
Proof. induction l as [|x l IH]; csimpl; [done|]. by rewrite IH. Qed.

Lemma sum_list_with_const_1 {A} (l : list A) : sum_list_with (λ _, 1) l = length l.
Proof. induction l; simpl; congruence. Qed.

Lemma weights_Permutation `{EqDecision A} (l1 l2 : list A) :
  (∀ f : A → nat, sum_list_with f l1 = sum_list_with f l2) → l1 ≡ₚ l2.
Proof.
  revert l2. induction l1 as [|x l1 IH]; intros l2 H.
  - specialize (H (λ _, 1)). rewrite sum_list_with_const_1 in H.
    simpl in H. by destruct l2.
  - assert (x ∈ l2) as Hx.
    { destruct (decide (x ∈ l2)) as [|Hn]; [done|].
      specialize (H (λ y, if decide (y = x) then 1 else 0)). simpl in H.
      rewrite decide_True in H by done.
      replace (sum_list_with _ l2) with 0 in H; [lia|]. symmetry.
      apply sum_list_with_0. intros y Hy. by rewrite decide_False by set_solver. }
    apply elem_of_Permutation in Hx as [l2' Hl2]. rewrite Hl2. constructor.
    apply IH. intros f. specialize (H f).
    rewrite (sum_list_with_Permutation _ _ _ Hl2) in H. simpl in H. lia.
Qed.

(** ** [BTreeMap] range queries

    [m.range(..=k).next_back()]: the entry with the greatest key not above [k]. *)

Definition later_key {V} (k : Z) (i : Z) (v : V) (acc : option (Z * V)) : option (Z * V) :=
  if (i <=? k)%Z then
    match acc with
    | Some (j, _) => if (j <? i)%Z then Some (i, v) else acc
    | None => Some (i, v)
    end
  else acc.

Definition range_to_incl_next_back {V} (k : Z) (m : gmap Z V) : option (Z * V) :=
  map_fold (later_key k) None m.

Definition last_at_most {V} (k : Z) (m : gmap Z V) (r : option (Z * V)) : Prop :=
  match r with
  | Some (i, v) => m !! i = Some v ∧ (i ≤ k)%Z ∧
                   ∀ j w, m !! j = Some w → (j ≤ k)%Z → (j ≤ i)%Z
  | None => ∀ j w, m !! j = Some w → (k < j)%Z
  end.

Lemma range_to_incl_next_back_spec {V} k (m : gmap Z V) :
  last_at_most k m (range_to_incl_next_back k m).
Proof.
  unfold range_to_incl_next_back.
  apply (map_fold_weak_ind (λ r m, last_at_most k m r)).
  { intros j w Hj. by rewrite lookup_empty in Hj. }
  intros i v m' r Hi Hr. unfold later_key.
  assert (∀ j w, <[i:=v]> m' !! j = Some w → (j = i ∧ w = v) ∨ m' !! j = Some w) as Hins.
  { intros j w. rewrite lookup_insert_Some. naive_solver. }
  destruct (Z.leb_spec i k) as [Hik|Hik].
  - destruct r as [[j w]|]; simpl in *.
    + destruct Hr as (Hj & Hjk & Hmax).
      destruct (Z.ltb_spec j i); simpl.
      * rewrite lookup_insert_eq. split_and!; [done..|].
        intros j' w' [[-> ->]|Hj']%Hins Hle; [lia|]. specialize (Hmax _ _ Hj' Hle). lia.
      * rewrite lookup_insert_ne by naive_solver. split_and!; [done..|].
        intros j' w' [[-> ->]|Hj']%Hins Hle; [lia|]. eauto.
    + rewrite lookup_insert_eq. split_and!; [done..|].
      intros j' w' [[-> ->]|Hj']%Hins Hle; [lia|]. specialize (Hr _ _ Hj'). lia.
  - destruct r as [[j w]|]; simpl in *.
    + destruct Hr as (Hj & Hjk & Hmax).
      rewrite lookup_insert_ne by naive_solver lia. split_and!; [done..|].
      intros j' w' [[-> ->]|Hj']%Hins Hle; [lia|]. eauto.
    + intros j' w' [[-> ->]|Hj']%Hins; [lia|]. eauto.
Qed.

Lemma range_to_incl_next_back_Some {V} k (m : gmap Z V) i v :
  range_to_incl_next_back k m = Some (i, v) →
  m !! i = Some v ∧ (i ≤ k)%Z ∧ ∀ j w, m !! j = Some w → (j ≤ k)%Z → (j ≤ i)%Z.
Proof. intros H. pose proof (range_to_incl_next_back_spec k m) as Hs. by rewrite H in Hs. Qed.

Lemma range_to_incl_next_back_lookup {V} k (m : gmap Z V) i v :
  m !! i = Some v → (i ≤ k)%Z →
  (∀ j w, m !! j = Some w → (j ≤ k)%Z → (j ≤ i)%Z) →
  range_to_incl_next_back k m = Some (i, v).
Proof.
  intros Hi Hik Hmax. pose proof (range_to_incl_next_back_spec k m) as Hs.
  destruct (range_to_incl_next_back k m) as [[j w]|]; simpl in Hs.
  - destruct Hs as (Hj & Hjk & Hmax').
    assert (i = j) as -> by (specialize (Hmax _ _ Hj Hjk); specialize (Hmax' _ _ Hi Hik); lia).
    naive_solver.
  - specialize (Hs _ _ Hi). lia.
Qed.

(** ** Association-list search: [iter().position] and [iter().find]. *)

Lemma list_find_delete_ne {A} (P : A → Prop) `{!∀ x, Decision (P x)} (l : list A) i x y :
  list_find P l = Some (i, x) → y ∈ l → ¬ P y → y ∈ delete i l.
Proof.
  intros (Hi & HP & _)%list_find_Some Hy HnP.
  apply list_elem_of_lookup in Hy as [j Hj].
  assert (i ≠ j) by naive_solver.
  apply list_elem_of_lookup. destruct (decide (j < i)).
  - exists j. by rewrite list_lookup_delete_lt.
  - exists (pred j). rewrite list_lookup_delete_ge by lia.
    by replace (S (pred j)) with j by lia.
Qed.

(** ** Filters that keep all or nothing *)

Lemma filter_keeps_all {A} (P : A → Prop) `{∀ x, Decision (P x)} l : Forall P l → filter P l = l.
Proof. induction 1 as [|x l Hx _ IH]; [done|]. by rewrite filter_cons_True, IH. Qed.

Lemma filter_keeps_none {A} (P : A → Prop) `{∀ x, Decision (P x)} l : Forall (λ x, ¬ P x) l → filter P l = [].
Proof. induction 1 as [|x l Hx _ IH]; [done|]. by rewrite filter_cons_False, IH. Qed.

(** ** Relations whose order of steps does not matter *)

(** A run that ended in a state nothing moves bounds every run: each can be carried on to the
    same state, in the turns the first one had left. *)
Lemma diamond_runs {X : Type} (R : relation X) :
  (∀ x a b, R x a → R x b → a = b ∨ ∃ c, R a c ∧ R b c) →
  ∀ n x y, nsteps R n x y → nf R y → ∀ k z, nsteps R k x z → k ≤ n ∧ nsteps R (n - k) z y.
Proof.
  intros Hd n x y Hn Hy k z Hk. revert n Hn. induction Hk as [x|k x a z Hxa _ IH]; intros n Hn.
  { rewrite Nat.sub_0_r. by split; [lia|]. }
  enough (∃ n', n = S n' ∧ nsteps R n' a y) as (n' & -> & Ha).
  { destruct (IH _ Ha). split; [lia|done]. }
  clear IH z k. revert x a Hxa Hn. induction n as [|n IH]; intros x a Hxa Hn; inversion Hn as [|? ? b ? Hxb Hb]; subst.
  - destruct Hy. by exists a.
  - exists n. split; [done|]. destruct (Hd _ _ _ Hxa Hxb) as [->|(c & Hac & Hbc)]; [done|].
    destruct (IH _ _ Hbc Hb) as (n' & -> & Hc). by econstructor.
Qed.

(** ** Formatting: [{:02}] *)

Definition two_digits (n : nat) : string := (if n <? 10 then "0" else "") +:+ pretty n.

(** ** Triples *)

Lemma surjective_triple {A B C} (x : A * B * C) : x = (x.1.1, x.1.2, x.2).
Proof. by destruct x as [[??]?]. Qed.

(** ** Automation shared by the components *)

Create HintDb vdma.
#[export] Hint Resolve u64_end_pos : vdma.

(** Case analysis on every boolean or decidable test of the goal. *)
Ltac case_tests :=
  repeat match goal with
  | |- context [decide ?P] => destruct (decide P)
  | |- context [(?a <? ?b)%Z] => destruct (Z.ltb_spec a b)
  | |- context [(?a <=? ?b)%Z] => destruct (Z.leb_spec a b)
  | |- context [(?a =? ?b)%Z] => destruct (Z.eqb_spec a b)
  | |- context [?a <? ?b] => destruct (Nat.ltb_spec a b)
  | |- context [?a <=? ?b] => destruct (Nat.leb_spec a b)
  | |- context [?a =? ?b] => destruct (Nat.eqb_spec a b)
  end.

(** Split the equation of a [let?] chain into its successive answers. *)
Ltac split_result H :=
  repeat match type of H with
  | context [match ?e with Ok _ => _ | Err _ => _ end] =>
      let E := fresh "E" in destruct e eqn:E; simplify_eq
  end.
