(* ===== verification/Arc.v ===== *)
(** * Reference counting: [std::sync::Arc] and [std::sync::Weak]

    The language's shared ownership, as the crate uses it: an address vector
    entry, a memory registration and a future's cell all live exactly as long as
    some [Arc] to them does, and their [Drop] runs once, with the last one.  An
    allocation is a number; [strong_count] counts its live [Arc]s; a [Weak] is the
    number alone.  [finalized] records whose [Drop] has run, in order. *)

From S2P Require Import Prelude.

Record heap (V : Type) := Heap {
  cells : gmap nat (V * nat);
  fresh_id : nat;
  finalized : list nat;
}.
Arguments Heap {V} _ _ _.
Arguments cells {V} _.
Arguments fresh_id {V} _.
Arguments finalized {V} _.

Section arc.
  Context {V : Type}.
  Implicit Types (h : heap V) (v : V) (i j : nat) (X : gmultiset nat).

Definition empty_heap : heap V := Heap ∅ 0 [].

Definition strong_count i h : nat :=
  match cells h !! i with Some (_, n) => n | None => 0 end.

Definition arc_value i h : option V := fst <$> cells h !! i.

(** [Arc::new] *)
Definition arc_new v h : nat * heap V :=
  (fresh_id h, Heap (<[fresh_id h := (v, 1)]> (cells h)) (S (fresh_id h)) (finalized h)).

(** [Arc::clone] *)
Definition arc_clone i h : heap V :=
  Heap (alter (λ '(v, n), (v, S n)) i (cells h)) (fresh_id h) (finalized h).

(** Dropping one [Arc]: the value comes back when it was the last, for its own
    [Drop] to run on. *)
Definition arc_drop i h : heap V * option V :=
  match cells h !! i with
  | Some (v, 1) =>
      (Heap (<[i := (v, 0)]> (cells h)) (fresh_id h) (finalized h ++ [i]), Some v)
  | Some (v, S n) => (Heap (<[i := (v, n)]> (cells h)) (fresh_id h) (finalized h), None)
  | _ => (h, None)
  end.

(** [Weak::upgrade] *)
Definition weak_upgrade i h : option (nat * heap V) :=
  if 0 <? strong_count i h then Some (i, arc_clone i h) else None.

(** Dropping a whole collection, in order. *)
Fixpoint arc_drop_all (ids : list nat) h : heap V * list V :=
  match ids with
  | [] => (h, [])
  | i :: ids =>
      let '(h, last) := arc_drop i h in
      let '(h, rest) := arc_drop_all ids h in
      (h, option_list last ++ rest)
  end.

(** ** Accounting: who holds what

    [owns h X]: the multiset [X] of outstanding [Arc]s is exactly what the counts
    say, every allocation is below [fresh_id], and the finalized allocations are,
    each once, those whose count is back at zero. *)
Record owns h X : Prop := {
  owns_count : ∀ i, strong_count i h = multiplicity i X;
  owns_fresh : ∀ i, is_Some (cells h !! i) → i < fresh_id h;
  owns_dead : ∀ i, i ∈ finalized h ↔ is_Some (cells h !! i) ∧ strong_count i h = 0;
  owns_once : NoDup (finalized h);
}.

Lemma empty_owns : owns empty_heap ∅.
Proof.
  split; simpl.
  - intros i. by rewrite multiplicity_empty.
  - intros i [? ?]; done.
  - intros i. split; [set_solver|]. intros [[? ?] _]; done.
  - constructor.
Qed.

Lemma owns_allocated h X i : owns h X → i ∈ X → is_Some (cells h !! i).
Proof.
  intros Ho Hi. rewrite elem_of_multiplicity, <-(owns_count _ _ Ho) in Hi.
  unfold strong_count in Hi. destruct (cells h !! i) as [[v n]|]; [eauto|lia].
Qed.

Lemma owns_live h X i : owns h X → i ∈ X → i ∉ finalized h.
Proof.
  intros Ho Hi [_ H0]%(owns_dead _ _ Ho). rewrite elem_of_multiplicity in Hi.
  rewrite <-(owns_count _ _ Ho) in Hi. lia.
Qed.

Lemma arc_value_is_Some h i : is_Some (cells h !! i) ↔ is_Some (arc_value i h).
Proof. unfold arc_value. by rewrite fmap_is_Some. Qed.

Lemma owns_value h X i : owns h X → i ∈ X → is_Some (arc_value i h).
Proof. intros Ho Hi. apply fmap_is_Some. eapply owns_allocated; eauto. Qed.

Lemma owns_fresh_count h X : owns h X → strong_count (fresh_id h) h = 0.
Proof.
  intros Ho. unfold strong_count. destruct (cells h !! fresh_id h) eqn:E; [|done].
  pose proof (owns_fresh _ _ Ho _ (mk_is_Some _ _ E)). lia.
Qed.

Lemma owns_fresh_not_in h X : owns h X → fresh_id h ∉ X.
Proof.
  intros Ho. rewrite not_elem_of_multiplicity, <-(owns_count _ _ Ho).
  by eapply owns_fresh_count.
Qed.

Lemma owns_fresh_None h X : owns h X → cells h !! fresh_id h = None.
Proof.
  intros Ho. destruct (cells h !! fresh_id h) eqn:E; [|done].
  pose proof (owns_fresh _ _ Ho _ (mk_is_Some _ _ E)). lia.
Qed.

Lemma owns_upgrade h X i : owns h X → (0 <? strong_count i h) = true ↔ i ∈ X.
Proof.
  intros Ho. rewrite Nat.ltb_lt, (owns_count _ _ Ho). symmetry. apply elem_of_multiplicity.
Qed.

Lemma arc_new_owns v h X :
  owns h X → owns (arc_new v h).2 (X ⊎ {[+ (arc_new v h).1 +]}).
Proof.
  intros Ho. pose proof (owns_fresh_None _ _ Ho) as Hf.
  pose proof (owns_fresh_count _ _ Ho) as Hf0.
  assert (fresh_id h ∉ finalized h) as Hnf.
  { intros [[? Hs] _]%(owns_dead _ _ Ho). naive_solver. }
  split; simpl.
  - intros i. rewrite multiplicity_disj_union, multiplicity_singleton.
    unfold strong_count; simpl. rewrite lookup_insert. repeat case_decide; subst; try done.
    + rewrite <-(owns_count _ _ Ho), Hf0. done.
    + rewrite <-(owns_count _ _ Ho). unfold strong_count. lia.
  - intros i. rewrite lookup_insert. case_decide; [lia|].
    intros Hi. pose proof (owns_fresh _ _ Ho _ Hi). lia.
  - intros i. rewrite (owns_dead _ _ Ho). unfold strong_count; simpl.
    rewrite lookup_insert. case_decide; subst; [|done].
    split; [|naive_solver]. rewrite Hf. intros [[? ?] _]. done.
  - apply (owns_once _ _ Ho).
Qed.

Lemma arc_new_value v h i :
  arc_value i (arc_new v h).2 = if decide (i = fresh_id h) then Some v else arc_value i h.
Proof.
  unfold arc_value. simpl. rewrite lookup_insert. repeat case_decide; naive_solver.
Qed.

Lemma strong_count_clone i j h :
  is_Some (cells h !! i) →
  strong_count j (arc_clone i h) = strong_count j h + (if decide (i = j) then 1 else 0).
Proof.
  intros [[v n] Hi]. unfold strong_count; simpl. rewrite lookup_alter.
  case_decide; subst; [|lia]. rewrite Hi. simpl. lia.
Qed.

Lemma arc_clone_is_Some i j h : is_Some (cells (arc_clone i h) !! j) ↔ is_Some (cells h !! j).
Proof. simpl. rewrite lookup_alter. case_decide; subst; [by rewrite fmap_is_Some|done]. Qed.

Lemma arc_clone_value i j h : arc_value j (arc_clone i h) = arc_value j h.
Proof.
  unfold arc_value; simpl. rewrite lookup_alter. case_decide; [|done]. subst.
  by destruct (cells h !! j) as [[??]|].
Qed.

Lemma arc_clone_owns i h X : owns h X → i ∈ X → owns (arc_clone i h) (X ⊎ {[+ i +]}).
Proof.
  intros Ho Hi. pose proof (owns_allocated _ _ _ Ho Hi) as Hs.
  split.
  - intros j. rewrite strong_count_clone by done.
    rewrite multiplicity_disj_union, multiplicity_singleton, (owns_count _ _ Ho).
    repeat case_decide; subst; try done.
  - intros j. rewrite arc_clone_is_Some. apply (owns_fresh _ _ Ho).
  - intros j. change (finalized (arc_clone i h)) with (finalized h).
    rewrite (owns_dead _ _ Ho), arc_clone_is_Some, strong_count_clone by done.
    case_decide; subst; [|by rewrite Nat.add_0_r].
    rewrite elem_of_multiplicity in Hi. rewrite (owns_count _ _ Ho). lia.
  - apply (owns_once _ _ Ho).
Qed.

(** What one drop does to the counts, in one place. *)
Lemma arc_drop_spec i h :
  0 < strong_count i h →
  (∀ j, strong_count j (arc_drop i h).1 = strong_count j h - (if decide (i = j) then 1 else 0)) ∧
  (∀ j, is_Some (cells (arc_drop i h).1 !! j) ↔ is_Some (cells h !! j)) ∧
  (∀ j, arc_value j (arc_drop i h).1 = arc_value j h) ∧
  fresh_id (arc_drop i h).1 = fresh_id h ∧
  finalized (arc_drop i h).1 =
    finalized h ++ (if decide (strong_count i h = 1) then [i] else []) ∧
  (arc_drop i h).2 = (if decide (strong_count i h = 1) then arc_value i h else None).
Proof.
  unfold strong_count at 1, arc_drop.
  destruct (cells h !! i) as [[v n]|] eqn:Hi; [|lia]. intros Hn.
  assert (strong_count i h = n) as Hc by (unfold strong_count; by rewrite Hi).
  assert (∀ j, strong_count j h - (if decide (i = j) then 1 else 0) =
               if decide (i = j) then n - 1 else strong_count j h) as Hsub.
  { intros j. case_decide; subst; lia. }
  destruct n as [|[|n]]; [lia|..]; simpl.
  all: split_and!; intros; rewrite ?Hc, ?Hsub, ?app_nil_r; try done.
  all: unfold strong_count, arc_value; simpl; rewrite ?lookup_insert, ?Hi.
  all: repeat case_decide; subst; rewrite ?Hi; naive_solver.
Qed.

Lemma arc_drop_owns i h X : owns h (X ⊎ {[+ i +]}) → owns (arc_drop i h).1 X.
Proof.
  intros Ho.
  assert (0 < strong_count i h) as Hpos.
  { rewrite (owns_count _ _ Ho), multiplicity_disj_union, multiplicity_singleton_eq. lia. }
  destruct (arc_drop_spec i h Hpos) as (Hc & Hs & Hv & Hf & Hfin & _).
  split.
  - intros j. rewrite Hc, (owns_count _ _ Ho), multiplicity_disj_union, multiplicity_singleton.
    repeat case_decide; subst; try done; lia.
  - intros j. rewrite Hs, Hf. apply (owns_fresh _ _ Ho).
  - intros j. rewrite Hfin, elem_of_app, Hs, Hc, (owns_dead _ _ Ho).
    pose proof (owns_allocated _ _ i Ho ltac:(multiset_solver)).
    repeat case_decide; subst; set_solver by lia.
  - rewrite Hfin. case_decide; [|rewrite app_nil_r; apply (owns_once _ _ Ho)].
    apply NoDup_app. split_and!; [apply (owns_once _ _ Ho)| |apply NoDup_singleton].
    intros j Hj. rewrite (owns_dead _ _ Ho) in Hj. intros ->%list_elem_of_singleton. lia.
Qed.

(** The value's [Drop] runs exactly when no other [Arc] is left. *)
Lemma arc_drop_last i h X :
  owns h (X ⊎ {[+ i +]}) →
  (arc_drop i h).2 = if decide (i ∈ X) then None else arc_value i h.
Proof.
  intros Ho.
  assert (strong_count i h = S (multiplicity i X)) as Hc.
  { rewrite (owns_count _ _ Ho), multiplicity_disj_union, multiplicity_singleton_eq. lia. }
  destruct (arc_drop_spec i h ltac:(lia)) as (_ & _ & _ & _ & _ & ->). rewrite Hc.
  destruct (decide (i ∈ X)) as [Hi|Hi].
  - rewrite elem_of_multiplicity in Hi. by rewrite decide_False by lia.
  - rewrite not_elem_of_multiplicity in Hi. by rewrite decide_True by lia.
Qed.

Lemma arc_drop_finalized i h X :
  owns h (X ⊎ {[+ i +]}) →
  finalized (arc_drop i h).1 = finalized h ++ (if decide (i ∈ X) then [] else [i]).
Proof.
  intros Ho.
  assert (strong_count i h = S (multiplicity i X)) as Hc.
  { rewrite (owns_count _ _ Ho), multiplicity_disj_union, multiplicity_singleton_eq. lia. }
  destruct (arc_drop_spec i h ltac:(lia)) as (_ & _ & _ & _ & -> & _). rewrite Hc.
  destruct (decide (i ∈ X)) as [Hi|Hi].
  - rewrite elem_of_multiplicity in Hi. by rewrite decide_False by lia.
  - rewrite not_elem_of_multiplicity in Hi. by rewrite decide_True by lia.
Qed.

Lemma arc_drop_value i j h X :
  owns h (X ⊎ {[+ i +]}) → arc_value j (arc_drop i h).1 = arc_value j h.
Proof.
  intros Ho. apply arc_drop_spec.
  rewrite (owns_count _ _ Ho), multiplicity_disj_union, multiplicity_singleton_eq. lia.
Qed.

Lemma arc_drop_all_owns ids h X :
  owns h (X ⊎ list_to_set_disj ids) → owns (arc_drop_all ids h).1 X.
Proof.
  revert h. induction ids as [|i ids IH]; intros h Ho; simpl in *.
  { by rewrite (right_id_L ∅ (⊎)) in Ho. }
  rewrite (comm_L (⊎) {[+ i +]}), (assoc_L (⊎)) in Ho. pose proof (arc_drop_owns _ _ _ Ho) as Ho'.
  destruct (arc_drop i h) as [h' last]; simpl in *. specialize (IH _ Ho').
  by destruct (arc_drop_all ids h').
Qed.

Lemma arc_drop_all_value ids j h X :
  owns h (X ⊎ list_to_set_disj ids) → arc_value j (arc_drop_all ids h).1 = arc_value j h.
Proof.
  revert h. induction ids as [|i ids IH]; intros h Ho; simpl in *; [done|].
  rewrite (comm_L (⊎) {[+ i +]}), (assoc_L (⊎)) in Ho. pose proof (arc_drop_owns _ _ _ Ho) as Ho'.
  pose proof (arc_drop_value i j h _ Ho) as Hv.
  destruct (arc_drop i h) as [h' last]; simpl in *. specialize (IH _ Ho').
  destruct (arc_drop_all ids h'); simpl in *. congruence.
Qed.

End arc.

(** ** The [Arc]s a map's values hold, with multiplicity *)

Section held_ids.
  Context `{Countable K} {A : Type} (f : A → nat).
  Implicit Types (m : gmap K A).

Definition held_ids m : gmultiset nat := map_fold (λ _ a X, {[+ f a +]} ⊎ X) ∅ m.

Lemma held_ids_empty : held_ids ∅ = ∅.
Proof. apply map_fold_empty. Qed.

Lemma held_ids_insert m k a :
  m !! k = None → held_ids (<[k := a]> m) = {[+ f a +]} ⊎ held_ids m.
Proof.
  intros Hk. unfold held_ids. rewrite map_fold_insert_L; [done| |done].
  intros. multiset_solver.
Qed.

Lemma held_ids_singleton k a : held_ids {[k := a]} = {[+ f a +]}.
Proof. unfold held_ids. rewrite map_fold_singleton. multiset_solver. Qed.

Lemma held_ids_delete m k a :
  m !! k = Some a → held_ids m = {[+ f a +]} ⊎ held_ids (delete k m).
Proof.
  intros Hk. rewrite <-(insert_delete_id m k a) at 1 by done.
  apply held_ids_insert. apply lookup_delete_eq.
Qed.

Lemma held_ids_insert_replaced m k a :
  held_ids (<[k := a]> m) ⊎ list_to_set_disj (f <$> option_list (m !! k)) =
  {[+ f a +]} ⊎ held_ids m.
Proof.
  rewrite <-insert_delete_eq, held_ids_insert by apply lookup_delete_eq.
  destruct (m !! k) as [a'|] eqn:E; simpl.
  - rewrite (held_ids_delete m k a') by done. multiset_solver.
  - rewrite delete_id by done. multiset_solver.
Qed.

Lemma held_ids_removed m k :
  held_ids m = held_ids (delete k m) ⊎ list_to_set_disj (f <$> option_list (m !! k)).
Proof.
  destruct (m !! k) as [a|] eqn:E; simpl.
  - rewrite (held_ids_delete m k a) by done. multiset_solver.
  - rewrite delete_id by done. multiset_solver.
Qed.

Lemma elem_of_held_ids i m : i ∈ held_ids m ↔ ∃ k a, m !! k = Some a ∧ f a = i.
Proof.
  induction m as [|k a m Hk IH] using map_ind.
  - rewrite held_ids_empty. split; [multiset_solver|]. intros (? & ? & Hl & _). done.
  - rewrite held_ids_insert, gmultiset_elem_of_disj_union,
      gmultiset_elem_of_singleton, IH by done.
    setoid_rewrite lookup_insert_Some. split; [|naive_solver].
    intros [->|(k' & a' & Hl & <-)]; [naive_solver|].
    exists k', a'. split; [|done]. right. split; [congruence|done].
Qed.

Lemma held_ids_list m : held_ids m = list_to_set_disj (f <$> (map_to_list m).*2).
Proof.
  induction m as [|k a m Hk IH] using map_ind.
  { by rewrite held_ids_empty, map_to_list_empty. }
  rewrite held_ids_insert, map_to_list_insert, IH by done. done.
Qed.

(** [retain]: what stays and what is dropped. *)
Lemma held_ids_filter (P : K * A → Prop) `{!∀ x, Decision (P x)} m :
  held_ids m = held_ids (filter P m) ⊎
               list_to_set_disj (f <$> (map_to_list (filter (λ x, ¬ P x) m)).*2).
Proof.
  induction m as [|k a m Hk IH] using map_ind.
  { rewrite !map_filter_empty, held_ids_empty, map_to_list_empty. simpl. multiset_solver. }
  rewrite held_ids_insert, IH by done. destruct (decide (P (k, a))) as [HP|HP].
  - rewrite map_filter_insert_True by done.
    rewrite held_ids_insert by (apply map_lookup_filter_None; naive_solver).
    rewrite (map_filter_insert_False (λ x, ¬ P x)) by naive_solver.
    rewrite delete_id by done. multiset_solver.
  - rewrite (map_filter_insert_False P) by done. rewrite delete_id by done.
    rewrite (map_filter_insert_True (λ x, ¬ P x)) by done.
    rewrite map_to_list_insert by (apply map_lookup_filter_None; naive_solver).
    csimpl. multiset_solver.
Qed.

End held_ids.

#[export] Hint Resolve empty_owns arc_new_owns arc_clone_owns arc_drop_owns : vdma.
