(* ===== verification/Wire.v ===== *)
(** * The wire vocabulary: crate [dma-libfabric-protocol]

    [advertisement.rs]: the hex and decimal encodings of a command's transport
    fields and [Advertisement::from_fields]; [error.rs]: [DmaError].  The checksum
    of [checksum.rs] is a call into the [crc-fast] package and is a parameter of
    its users.  RESP arguments are byte strings; [str::from_utf8], [str::parse],
    [char::to_digit] and [char::from_digit] are the standard library's. *)

From S2P Require Import Prelude.
From Stdlib Require Import Strings.Byte.

(** [error.rs] *)
Inductive DmaError : Type :=
  | Transfer (message : string)
  | Fabric (message : string).

#[export] Instance DmaError_eq_dec : EqDecision DmaError.
Proof. solve_decision. Defined.

(** [impl Display for DmaError], by [thiserror]'s [#[error]] attributes. *)
Definition DmaError_display (error : DmaError) : string :=
  match error with
  | Transfer message => "transfer failed: " +:+ message
  | Fabric message => "fabric error: " +:+ message
  end.

Inductive AdvertisementError : Type := Arity | Hex | Integer.

#[export] Instance AdvertisementError_eq_dec : EqDecision AdvertisementError.
Proof. solve_decision. Defined.

Definition AdvertisementError_display (error : AdvertisementError) : string :=
  match error with
  | Arity => "expected: address rkey remote-address"
  | Hex => "invalid hex in address"
  | Integer => "invalid integer in advertisement"
  end.

Record Advertisement := {
  address : list u8;
  remote_key : Z;
  remote_address : Z;
}.

#[export] Instance Advertisement_eq_dec : EqDecision Advertisement.
Proof. solve_decision. Defined.

(** [Advertisement::ARG_COUNT] *)
Definition ARG_COUNT : nat := 3.

(** ** The standard library's text functions *)

Definition byte_of (n : N) : u8 := default x00 (Byte.of_N (n mod 256)).

Definition between (lo hi : N) (b : u8) : bool :=
  (lo <=? Byte.to_N b)%N && (Byte.to_N b <=? hi)%N.

Definition continuation : u8 → bool := between 0x80 0xBF.

(** [str::from_utf8]: well-formed UTF-8, with no overlong form and no surrogate. *)
Fixpoint utf8_valid (raw : list u8) : bool :=
  match raw with
  | [] => true
  | a :: rest =>
      if between 0 0x7F a then utf8_valid rest
      else
        match rest with
        | b :: rest =>
            if between 0xC2 0xDF a then continuation b && utf8_valid rest
            else
              match rest with
              | c :: rest =>
                  if between 0xE0 0xEF a then
                    (if bool_decide (a = xe0) then between 0xA0 0xBF b
                     else if bool_decide (a = xed) then between 0x80 0x9F b
                     else continuation b) && continuation c && utf8_valid rest
                  else
                    match rest with
                    | d :: rest =>
                        between 0xF0 0xF4 a &&
                        (if bool_decide (a = xf0) then between 0x90 0xBF b
                         else if bool_decide (a = xf4) then between 0x80 0x8F b
                         else continuation b) && continuation c && continuation d &&
                        utf8_valid rest
                    | [] => false
                    end
              | [] => false
              end
        | [] => false
        end
  end.

(** [char::to_digit(radix)] of a byte's character, for the two radixes in use. *)
Definition to_digit (radix : N) (b : u8) : option N :=
  let n := Byte.to_N b in
  let d :=
    if between 0x30 0x39 b then Some (n - 0x30)%N
    else if between 0x61 0x7A b then Some (n - 0x61 + 10)%N
    else if between 0x41 0x5A b then Some (n - 0x41 + 10)%N
    else None in
  d ≫= λ d, if (d <? radix)%N then Some d else None.

(** [char::from_digit(num, 16)], as an ASCII byte. *)
Definition from_digit16 (n : N) : option u8 :=
  if (n <? 10)%N then Some (byte_of (0x30 + n))
  else if (n <? 16)%N then Some (byte_of (0x61 + (n - 10)))
  else None.

(** [str::parse] for an unsigned type whose greatest value is [max]: an optional
    plus sign, at least one digit, and every partial value in range. *)
Fixpoint parse_digits (max acc : Z) (raw : list u8) : option Z :=
  match raw with
  | [] => Some acc
  | b :: raw =>
      d ← to_digit 10 b;
      if (acc * 10 + Z.of_N d <=? max)%Z then parse_digits max (acc * 10 + Z.of_N d) raw
      else None
  end.

Definition parse_unsigned (max : Z) (raw : list u8) : option Z :=
  match raw with
  | [] => None
  | b :: digits =>
      let digits := if bool_decide (b = x2b) then digits else b :: digits in
      match digits with
      | [] => None
      | _ => parse_digits max 0 digits
      end
  end.

Definition u64_max : Z := 2 ^ 64 - 1.
Definition usize_max : Z := 2 ^ 64 - 1.
Definition u32_max : Z := 2 ^ 32 - 1.

(** ** [advertisement.rs] *)

(** [parse_ascii::<T>], by [T]'s greatest value. *)
Definition parse_ascii (max : Z) (raw : list u8) : option Z :=
  if utf8_valid raw then parse_unsigned max raw else None.

Definition encode_byte (b : u8) : list u8 :=
  [default x30 (from_digit16 (N.shiftr (Byte.to_N b) 4));
   default x30 (from_digit16 (N.land (Byte.to_N b) 0x0f))].

Definition encode_hex (bytes : list u8) : list u8 := bytes ≫= encode_byte.

Definition decode_pair (high low : u8) : result u8 AdvertisementError :=
  let? high := ok_or (to_digit 16 high) Hex in
  let? low := ok_or (to_digit 16 low) Hex in
  Ok (byte_of (N.lor (N.shiftl high 4) low)).

(** [text.as_chunks::<2>().0.iter().map(..).collect()]: the first failing pair is
    the error, and an odd byte left over is ignored. *)
Fixpoint decode_chunks (text : list u8) : result (list u8) AdvertisementError :=
  match text with
  | high :: low :: text =>
      let? b := decode_pair high low in
      let? bs := decode_chunks text in
      Ok (b :: bs)
  | _ => Ok []
  end.

Definition decode_hex (text : list u8) : result (list u8) AdvertisementError :=
  if negb (Nat.even (length text)) then Err Hex else decode_chunks text.

(** [Advertisement::from_fields] *)
Definition from_fields (fields : list (list u8)) : result Advertisement AdvertisementError :=
  match fields with
  | [addr; rkey; raddr] =>
      let? a := decode_hex addr in
      let? k := ok_or (parse_ascii u64_max rkey) Integer in
      let? r := ok_or (parse_ascii u64_max raddr) Integer in
      Ok {| address := a; remote_key := k; remote_address := r |}
  | _ => Err Arity
  end.

(** ASCII text as bytes. *)
Definition ascii (s : string) : list u8 := String.list_byte_of_string s.


(** ** Lemmas *)

Definition is_decimal (b : u8) : bool := between 0x30 0x39 b.

Definition decimal_value : list u8 → Z :=
  foldl (λ acc b, (acc * 10 + Z.of_N (Byte.to_N b - 0x30))%Z) 0%Z.

(** The lower-case form of an ASCII letter. *)
Definition to_ascii_lowercase (b : u8) : u8 :=
  if between 0x41 0x5A b then byte_of (Byte.to_N b + 32) else b.

(** Facts about every byte, by one evaluation. *)
Definition all_bytes : list u8 := omap Byte.of_N (N.of_nat <$> seq 0 256).

Lemma elem_of_all_bytes b : b ∈ all_bytes.
Proof.
  apply list_elem_of_omap. exists (Byte.to_N b). split; [|apply Byte.of_to_N].
  apply list_elem_of_fmap. exists (N.to_nat (Byte.to_N b)).
  rewrite N2Nat.id, elem_of_seq. pose proof (Byte.to_N_bounded b). split; [done|lia].
Qed.

Lemma byte_forall (P : u8 → bool) : forallb P all_bytes = true → ∀ b, P b = true.
Proof.
  rewrite forallb_forall. intros H b. apply H. apply list_elem_of_In, elem_of_all_bytes.
Qed.

Lemma decode_pair_encode_byte b : ∃ h l, encode_byte b = [h; l] ∧ decode_pair h l = Ok b.
Proof.
  pose proof (byte_forall (λ b,
    match encode_byte b with
    | [h; l] => match decode_pair h l with Ok b' => Byte.eqb b b' | _ => false end
    | _ => false
    end) ltac:(vm_compute; reflexivity) b) as H. cbv beta in H.
  destruct (encode_byte b) as [|h [|l [|]]]; try done. exists h, l. split; [done|].
  destruct (decode_pair h l); [|done]. f_equal. symmetry. by apply Byte.byte_dec_bl.
Qed.

(** A digit's two spellings. *)
Lemma to_digit16_from b n :
  to_digit 16 b = Some n → (n < 16)%N ∧ from_digit16 n = Some (to_ascii_lowercase b).
Proof.
  intros Hn. pose proof (byte_forall (λ b,
    match to_digit 16 b with
    | Some n => (n <? 16)%N &&
                match from_digit16 n with
                | Some c => Byte.eqb c (to_ascii_lowercase b)
                | None => false
                end
    | None => true
    end) ltac:(vm_compute; reflexivity) b) as H. cbv beta in H. rewrite Hn in H.
  apply andb_true_iff in H as [Hlt H]. apply N.ltb_lt in Hlt. split; [done|].
  destruct (from_digit16 n); [|done]. f_equal. by apply Byte.byte_dec_bl.
Qed.

Lemma nibbles (h l : N) :
  (h < 16)%N → (l < 16)%N →
  let b := byte_of (N.lor (N.shiftl h 4) l) in
  N.shiftr (Byte.to_N b) 4 = h ∧ N.land (Byte.to_N b) 0x0f = l.
Proof.
  assert (∀ n, (n < 16)%N → In n [0;1;2;3;4;5;6;7;8;9;10;11;12;13;14;15]%N) as Hall.
  { intros n Hn. simpl. lia. }
  intros Hh%Hall Hl%Hall. clear Hall. simpl in Hh, Hl.
  repeat destruct Hh as [<-|Hh]; try done; repeat destruct Hl as [<-|Hl]; done.
Qed.

Lemma decode_pair_Ok h l b :
  decode_pair h l = Ok b →
  encode_byte b = [to_ascii_lowercase h; to_ascii_lowercase l].
Proof.
  unfold decode_pair. intros H.
  destruct (to_digit 16 h) as [dh|] eqn:Eh; simpl in H; [|done].
  destruct (to_digit 16 l) as [dl|] eqn:El; simpl in H; [|done].
  injection H as <-.
  apply to_digit16_from in Eh as [Hh Eh]. apply to_digit16_from in El as [Hl El].
  unfold encode_byte. destruct (nibbles dh dl Hh Hl) as [-> ->]. by rewrite Eh, El.
Qed.

Lemma encode_hex_cons b bytes : encode_hex (b :: bytes) = encode_byte b ++ encode_hex bytes.
Proof. done. Qed.

Lemma encode_hex_length bytes : length (encode_hex bytes) = 2 * length bytes.
Proof.
  induction bytes as [|b bytes IH]; [done|].
  rewrite encode_hex_cons, length_app, IH. simpl. lia.
Qed.

Lemma decode_chunks_encode_hex bytes : decode_chunks (encode_hex bytes) = Ok bytes.
Proof.
  induction bytes as [|b bytes IH]; [done|].
  rewrite encode_hex_cons. destruct (decode_pair_encode_byte b) as (h & l & -> & Hd).
  cbn. by rewrite Hd, IH.
Qed.

(** Two steps at a time. *)
Lemma pair_ind {A} (P : list A → Prop) :
  P [] → (∀ x, P [x]) → (∀ x y l, P l → P (x :: y :: l)) → ∀ l, P l.
Proof.
  intros H0 H1 H2. fix IH 1. intros [|x [|y l]]; [done|done|]. by apply H2, IH.
Qed.

Lemma decode_chunks_Ok text bytes :
  Nat.even (length text) = true → decode_chunks text = Ok bytes →
  encode_hex bytes = to_ascii_lowercase <$> text.
Proof.
  revert bytes. induction text as [|x|h l text IH] using pair_ind; intros bytes Hev H.
  - by simplify_eq/=.
  - done.
  - simpl in H. destruct (decode_pair h l) as [b|] eqn:Hp; [|done].
    destruct (decode_chunks text) as [bs|]; [|done]. simplify_eq.
    rewrite encode_hex_cons, (decode_pair_Ok _ _ _ Hp), (IH bs); done.
Qed.

Lemma to_digit10_Some b d :
  to_digit 10 b = Some d ↔ is_decimal b = true ∧ d = (Byte.to_N b - 0x30)%N.
Proof.
  split.
  - destruct b; vm_compute; intros [= <-]; done.
  - intros [H ->]. destruct b; vm_compute in H |- *; done.
Qed.

Lemma is_decimal_digit b : is_decimal b = true → (0 ≤ Z.of_N (Byte.to_N b - 0x30) ≤ 9)%Z.
Proof. destruct b; vm_compute; intros; done. Qed.

Lemma decimal_value_from_ge raw acc :
  (0 ≤ acc)%Z →
  (acc ≤ foldl (λ acc b, (acc * 10 + Z.of_N (Byte.to_N b - 0x30))%Z) acc raw)%Z.
Proof.
  revert acc. induction raw as [|b raw IH]; intros acc Hacc; simpl; [done|].
  etrans; [|apply IH]; lia.
Qed.

Lemma parse_digits_Some max raw acc n :
  (0 ≤ acc ≤ max)%Z →
  parse_digits max acc raw = Some n ↔
  forallb is_decimal raw = true ∧
  n = foldl (λ acc b, (acc * 10 + Z.of_N (Byte.to_N b - 0x30))%Z) acc raw ∧ (n ≤ max)%Z.
Proof.
  revert acc. induction raw as [|b raw IH]; intros acc Hacc; simpl.
  { split; [intros [= <-]; split_and!; [done|done|lia] | naive_solver]. }
  rewrite andb_true_iff. destruct (to_digit 10 b) as [d|] eqn:Hd.
  - apply to_digit10_Some in Hd as [Hb ->]. pose proof (is_decimal_digit _ Hb). simpl.
    set (acc' := (acc * 10 + _)%Z). destruct (Z.leb_spec acc' max).
    + rewrite IH by lia. naive_solver.
    + split; [done|]. intros (_ & -> & Hle).
      pose proof (decimal_value_from_ge raw acc' ltac:(lia)). lia.
  - split; [done|]. intros ([Hb _] & _). exfalso.
    assert (to_digit 10 b = Some (Byte.to_N b - 0x30)%N) as Hd' by by apply to_digit10_Some.
    by rewrite Hd in Hd'.
Qed.

(** Text that parses is ASCII, so the UTF-8 check never rejects it. *)
Lemma ascii_utf8_valid raw : forallb (between 0 0x7F) raw = true → utf8_valid raw = true.
Proof.
  induction raw as [|b raw IH]; [done|]. simpl. rewrite andb_true_iff. intros [-> H]. auto.
Qed.

Lemma is_decimal_ascii b : is_decimal b = true → between 0 0x7F b = true.
Proof. by destruct b. Qed.

Lemma to_digit_lowercase b : to_digit 16 (to_ascii_lowercase b) = to_digit 16 b.
Proof.
  pose proof (byte_forall (λ b,
    match to_digit 16 (to_ascii_lowercase b), to_digit 16 b with
    | Some m, Some n => (m =? n)%N
    | None, None => true
    | _, _ => false
    end) ltac:(vm_compute; reflexivity) b) as H. cbv beta in H.
  destruct (to_digit 16 (to_ascii_lowercase b)), (to_digit 16 b); try done.
  by apply N.eqb_eq in H as ->.
Qed.

Lemma decode_chunks_lowercase text :
  decode_chunks (to_ascii_lowercase <$> text) = decode_chunks text.
Proof.
  induction text as [|x|h l text IH] using pair_ind; [done|done|]. csimpl.
  unfold decode_pair. by rewrite !to_digit_lowercase, IH.
Qed.

Lemma parse_unsigned_Some max raw n :
  (0 ≤ max)%Z →
  parse_unsigned max raw = Some n ↔
  ∃ digits, (raw = digits ∨ raw = x2b :: digits) ∧ digits ≠ [] ∧
    forallb is_decimal digits = true ∧ n = decimal_value digits ∧ (n ≤ max)%Z.
Proof.
  intros Hmax. unfold parse_unsigned, decimal_value. destruct raw as [|b raw].
  { split; [done|]. intros (digits & [->|?] & ? & _); congruence. }
  destruct (bool_decide_reflect (b = x2b)) as [->|Hb].
  - destruct raw as [|c raw].
    + split; [done|]. intros (digits & [<-|?] & Hne' & Hd & _); simplify_eq; done.
    + cbv beta iota zeta; rewrite parse_digits_Some by (done || lia). split.
      * intros (Hd & Hn). exists (c :: raw). naive_solver.
      * intros (digits & [<-|?] & _ & Hd & Hn); simplify_eq; done.
  - cbv beta iota zeta; rewrite parse_digits_Some by (done || lia). split.
    + intros (Hd & Hn). exists (b :: raw). naive_solver.
    + intros (digits & [<-|?] & _ & Hd & Hn); simplify_eq; done.
Qed.

Lemma decimal_value_nonneg digits : (0 ≤ decimal_value digits)%Z.
Proof. by apply decimal_value_from_ge. Qed.

Lemma parse_ascii_u64 raw n : parse_ascii u64_max raw = Some n → in_u64 n.
Proof.
  unfold parse_ascii. destruct (utf8_valid raw); [|done].
  intros (digits & _ & _ & _ & -> & H)%parse_unsigned_Some; [|done].
  pose proof (decimal_value_nonneg digits). unfold u64_max in H. unfold in_u64, u64_end. lia.
Qed.

(** ** What the two peers rely on *)

(** C39: Hex round trip, both ways round.  [decode_hex] undoes [encode_hex], whose
    output is two characters a byte; and a text decodes to some bytes exactly when,
    letter case aside, it is those bytes' encoding, so nothing else is accepted and
    the address a client sends has one meaning. *)
Theorem decode_hex_iff text bytes :
  (decode_hex text = Ok bytes ↔ (to_ascii_lowercase <$> text) = encode_hex bytes) ∧
  decode_hex (encode_hex bytes) = Ok bytes ∧
  length (encode_hex bytes) = 2 * length bytes.
Proof.
  assert (∀ bs, Nat.even (length (encode_hex bs)) = true) as Heven.
  { intros bs. rewrite encode_hex_length. apply Nat.even_spec. by exists (length bs). }
  assert (decode_hex (encode_hex bytes) = Ok bytes) as Hround.
  { unfold decode_hex. rewrite Heven. apply decode_chunks_encode_hex. }
  split_and!; [|done|apply encode_hex_length]. unfold decode_hex. split.
  - destruct (Nat.even (length text)) eqn:Hev; [|done]. simpl.
    intros H. symmetry. by apply decode_chunks_Ok.
  - intros H. rewrite <-(length_fmap to_ascii_lowercase text), H, Heven. simpl.
    rewrite <-decode_chunks_lowercase, H. apply decode_chunks_encode_hex.
Qed.

(** C40: Decimal fields.  [parse_ascii] yields [n] exactly for an optional plus sign
    and a non-empty run of decimal digits whose value is [n] and fits the target
    type: no sign, space, other radix or wrapped value gets through, and the UTF-8
    check rejects nothing that would have parsed. *)
Theorem parse_ascii_iff max raw n (Hmax : (0 ≤ max)%Z) :
  parse_ascii max raw = Some n ↔
  ∃ digits, (raw = digits ∨ raw = x2b :: digits) ∧ digits ≠ [] ∧
    forallb is_decimal digits = true ∧ n = decimal_value digits ∧ (0 ≤ n ≤ max)%Z.
Proof.
  unfold parse_ascii. destruct (utf8_valid raw) eqn:Hutf.
  - rewrite parse_unsigned_Some by done. split; intros (digits & H); exists digits;
      pose proof (decimal_value_nonneg digits); naive_solver.
  - split; [done|]. intros (digits & Hraw & _ & Hdig & _).
    assert (forallb (between 0 0x7F) digits = true) as Hascii.
    { rewrite forallb_forall in *. eauto using is_decimal_ascii. }
    rewrite ascii_utf8_valid in Hutf; [done|].
    destruct Hraw as [->| ->]; [done|]. simpl. by rewrite Hascii.
Qed.

Lemma parse_ascii_iff_witness :
  (0 ≤ u64_max)%Z ∧ parse_ascii u64_max (ascii "+18446744073709551615") = Some u64_max.
Proof.
  split; [done|]. apply (parse_ascii_iff u64_max (ascii "+18446744073709551615")); [done|].
  exists (ascii "18446744073709551615"). vm_compute. split_and!; auto; done.
Defined.

(** [Advertisement::from_fields] is total on the field list: three fields that
    each decode give the advertisement with those values, and otherwise the error
    names the first thing wrong: the count, then the hex, then either integer. *)
Lemma from_fields_cases fields :
  match from_fields fields with
  | Ok a =>
      ∃ addr rkey raddr, fields = [addr; rkey; raddr] ∧
        decode_hex addr = Ok (address a) ∧
        parse_ascii u64_max rkey = Some (remote_key a) ∧
        parse_ascii u64_max raddr = Some (remote_address a) ∧
        in_u64 (remote_key a) ∧ in_u64 (remote_address a)
  | Err Arity => length fields ≠ ARG_COUNT
  | Err Hex => ∃ addr rest, fields = addr :: rest ∧ length rest = 2 ∧ decode_hex addr = Err Hex
  | Err Integer =>
      ∃ addr rkey raddr, fields = [addr; rkey; raddr] ∧ is_ok (decode_hex addr) = true ∧
        (parse_ascii u64_max rkey = None ∨ parse_ascii u64_max raddr = None)
  end.
Proof.
  pose proof parse_ascii_u64 as Hrange.
  assert (∀ addr e, decode_hex addr = Err e → e = Hex) as Herr.
  { intros addr e. unfold decode_hex. destruct (Nat.even _); simpl; [|naive_solver].
    induction addr as [|x|h l text IH] using pair_ind; [done|done|]. simpl. unfold decode_pair.
    destruct (to_digit 16 h), (to_digit 16 l); simpl; try naive_solver.
    destruct (decode_chunks text); naive_solver. }
  unfold from_fields.
  destruct fields as [|addr [|rkey [|raddr [|]]]]; simpl; try done.
  destruct (decode_hex addr) as [a|e] eqn:Ha; simpl.
  - destruct (parse_ascii u64_max rkey) as [k|] eqn:Hk; simpl;
      [destruct (parse_ascii u64_max raddr) as [r|] eqn:Hr; simpl|].
    + exists addr, rkey, raddr. split_and!; eauto.
    + exists addr, rkey, raddr. rewrite Ha. naive_solver.
    + exists addr, rkey, raddr. rewrite Ha. naive_solver.
  - pose proof (Herr _ _ Ha) as ->. exists addr, [rkey; raddr]. done.
Qed.
