(* ===== verification/Fabric.v ===== *)
(** * libfabric, as the crate sees it

    libfabric is not part of the repository, so every answer it gives is a
    parameter: a function of the whole history of calls made so far, which lets it
    be any stateful provider.  The history itself, [trace], is threaded through
    every definition that makes a call; a theorem about the order of calls is a
    theorem about the trace.  Pointers, keys, handles and return codes are integers. *)

From S2P Require Import Prelude Wire.

Inductive fabric_call : Type :=
  | MrReg (domain base length : Z)
  | MrClose (memory_region : Z)
  | AvInsert (address_vector : Z) (address : list u8)
  | AvRemove (address_vector peer : Z)
  | WriteMsg (endpoint base length descriptor peer remote_address remote_key context flags : Z)
  | Read (endpoint base length descriptor peer remote_address remote_key context : Z)
  | CqRead (queue : Z) (want : nat)
  | CqReadErr (queue : Z)
  | Close (object : Z).

Abbreviation trace := (list fabric_call).

(** An error entry of a completion queue: [fi_cq_err_entry], with the provider's
    text for it as [fi_cq_strerror] decodes it. *)
Record cq_err_entry := {
  err_context : Z;
  err : Z;
  prov_errno : Z;
  provider_text : string;
}.

Class Libfabric := {
  (** Code and, on success, the region. *)
  fi_mr_reg : trace → Z → Z → Z → Z * Z;
  fi_mr_desc : Z → Z;
  (** Number inserted and, when 1, the handle. *)
  fi_av_insert : trace → Z → list u8 → Z * Z;
  fi_writemsg : trace → Z;
  fi_read : trace → Z;
  (** Return value and the contexts written to the entry array. *)
  fi_cq_read : trace → nat → Z * list Z;
  fi_cq_readerr : trace → Z * cq_err_entry;
  fi_strerror : Z → string;
  (** The header constants the crate uses. *)
  FI_EAGAIN : Z;
  FI_EAVAIL : Z;
  FI_ADDR_EFA : Z;
  FI_MR_LOCAL : Z;
  FI_MR_VIRT_ADDR : Z;
  FI_DELIVERY_COMPLETE : Z;
}.

(** What the headers guarantee of the codes: positive and distinct errnos. *)
Class LibfabricLaws `{Libfabric} : Prop := {
  FI_EAGAIN_pos : (0 < FI_EAGAIN)%Z;
  FI_EAVAIL_pos : (0 < FI_EAVAIL)%Z;
  FI_EAGAIN_EAVAIL : FI_EAGAIN ≠ FI_EAVAIL;
}.


(** A provider for the witnesses: every call succeeds, handles count up with the
    history, and a completion is ready for the oldest operation not yet read. *)
Definition example_posts (tr : trace) : list Z :=
  omap (λ call, match call with
                | WriteMsg _ _ _ _ _ _ _ context _ => Some context
                | Read _ _ _ _ _ _ _ context => Some context
                | _ => None
                end) tr.

(** How many operations were posted and how many completions read: each read gives up
    one, if one is asked for and there. *)
Definition example_step (counts : nat * nat) (call : fabric_call) : nat * nat :=
  match call with
  | WriteMsg _ _ _ _ _ _ _ _ _ | Read _ _ _ _ _ _ _ _ => (S counts.1, counts.2)
  | CqRead _ want => (counts.1, counts.1 `min` (counts.2 + want `min` 1))
  | _ => counts
  end.

Definition example_reads (tr : trace) : nat := (foldl example_step (0, 0) tr).2.

Definition example_libfabric : Libfabric := {|
  fi_mr_reg tr _ _ _ := (0%Z, (1 + Z.of_nat (length tr))%Z);
  fi_mr_desc mr := mr;
  fi_av_insert tr _ _ := (1%Z, (1 + Z.of_nat (length tr))%Z);
  fi_writemsg _ := 0%Z;
  fi_read _ := 0%Z;
  fi_cq_read tr want :=
    let ready := take (want `min` 1) (drop (example_reads tr) (example_posts tr)) in
    (if decide (ready = []) then (-11)%Z else Z.of_nat (length ready), ready);
  fi_cq_readerr _ := ((-11)%Z, {| err_context := 0; err := 0; prov_errno := 0; provider_text := "" |});
  fi_strerror _ := "error";
  FI_EAGAIN := 11; FI_EAVAIL := 259; FI_ADDR_EFA := 19;
  FI_MR_LOCAL := 4; FI_MR_VIRT_ADDR := 16; FI_DELIVERY_COMPLETE := 268435456;
|}.

#[export] Instance example_libfabric_laws : @LibfabricLaws example_libfabric.
Proof. by split. Qed.
