(* ===== verification/RegionCache.v ===== *)
(** * The registration cache: [region_cache.rs]

    The process-global [REGISTRY] of memory registrations, grouped by domain, and
    the [Arc<Registration>] leases on them.  Each operation is split where the code
    releases the mutex: the [_locked] half runs under it and yields what it retired,
    and dropping that happens afterwards, so other threads' operations can fall in
    between.  [cache_step] is that interleaving. *)

From stdpp Require Import sorting.
From S2P Require Import Prelude Arc Wire Fabric.

(** [struct RegionEntry], its registration by its [Arc]. *)
Record RegionEntry := { re_end : Z; registration : nat }.

(** [struct DomainRegions], whose [BTreeMap] is keyed by base address. *)
Record DomainRegions := { domain : Z; regions : gmap Z RegionEntry }.

(** [REGISTRY], and the [Registration] allocations: a [fid_mr] each. *)
Record cache := Cache {
  registry : list DomainRegions;
  registrations : heap Z;
}.

Definition empty_cache : cache := Cache [] empty_heap.

(** [Registration::new] *)
Definition registration_new (memory_region : Z) (c : cache) : nat * cache :=
  let '(id, h) := arc_new memory_region (registrations c) in
  (id, Cache (registry c) h).

(** [impl Drop for Registration], for each lease dropped last. *)
Definition release (ids : list nat) (c : cache) (tr : trace) : cache * trace :=
  let '(h, closed) := arc_drop_all ids (registrations c) in
  (Cache (registry c) h, tr ++ (MrClose <$> closed)).

Definition position (d : Z) (rs : list DomainRegions) : option nat :=
  fst <$> list_find (λ dr, domain dr = d) rs.

(** [domain_regions]: the index of the domain's regions, made if there were none. *)
Definition domain_regions (rs : list DomainRegions) (d : Z) : nat * list DomainRegions :=
  match position d rs with
  | Some index => (index, rs)
  | None => (length rs, rs ++ [{| domain := d; regions := ∅ |}])
  end.

Definition insert_region (base : Z) (e : RegionEntry) (dr : DomainRegions) : DomainRegions :=
  {| domain := domain dr; regions := <[base := e]> (regions dr) |}.

(** [track], up to the release of the lock: the entry it superseded is left over. *)
Definition track_locked (base end_ d : Z) (id : nat) (c : cache) : list nat * cache :=
  let '(index, rs) := domain_regions (registry c) d in
  let replaced := rs !! index ≫= λ dr, regions dr !! base in
  (registration <$> option_list replaced,
   Cache (alter (insert_region base {| re_end := end_; registration := id |}) index rs)
         (arc_clone id (registrations c))).

Definition track (base end_ d : Z) (id : nat) (c : cache) (tr : trace) : cache * trace :=
  let '(replaced, c) := track_locked base end_ d id c in release replaced c tr.

(** The registration [covering] finds. *)
Definition find_covering (start end_ d : Z) (rs : list DomainRegions) : option nat :=
  '(_, dr) ← list_find (λ dr, domain dr = d) rs;
  '(base, e) ← range_to_incl_next_back start (regions dr);
  if (base <=? start)%Z && (end_ <=? re_end e)%Z then Some (registration e) else None.

(** [covering]: a new lease on it. *)
Definition covering (start end_ d : Z) (c : cache) : option nat * cache :=
  match find_covering start end_ d (registry c) with
  | Some id => (Some id, Cache (registry c) (arc_clone id (registrations c)))
  | None => (None, c)
  end.

Definition overlaps (start end_ : Z) (be : Z * RegionEntry) : Prop :=
  (be.1 < end_)%Z ∧ (start < re_end be.2)%Z.

#[export] Instance overlaps_dec start end_ be : Decision (overlaps start end_ be).
Proof. apply _. Defined.

(** The bases [invalidate] collects from one domain, in key order. *)
Definition overlapping_bases (start end_ : Z) (m : gmap Z RegionEntry) : list Z :=
  merge_sort Z.le (map_to_list (filter (overlaps start end_) m)).*1.

Fixpoint remove_bases (bases : list Z) (m : gmap Z RegionEntry) : list nat * gmap Z RegionEntry :=
  match bases with
  | [] => ([], m)
  | base :: bases =>
      match m !! base with
      | Some e =>
          let '(retired, m) := remove_bases bases (delete base m) in
          (registration e :: retired, m)
      | None => remove_bases bases m
      end
  end.

Fixpoint retire_overlapping (start end_ : Z) (rs : list DomainRegions) : list nat * list DomainRegions :=
  match rs with
  | [] => ([], [])
  | dr :: rs =>
      let '(retired, m) :=
        remove_bases (overlapping_bases start end_ (regions dr)) (regions dr) in
      let '(more, rs) := retire_overlapping start end_ rs in
      (retired ++ more, {| domain := domain dr; regions := m |} :: rs)
  end.

(** [invalidate], up to the release of the lock. *)
Definition invalidate_locked (start end_ : Z) (c : cache) : list nat * cache :=
  let '(retired, rs) := retire_overlapping start end_ (registry c) in
  (retired, Cache rs (registrations c)).

Definition invalidate (start end_ : Z) (c : cache) (tr : trace) : cache * trace :=
  let '(retired, c) := invalidate_locked start end_ c in release retired c tr.

(** [regions.into_values()], in key order. *)
Definition into_values (m : gmap Z RegionEntry) : list nat :=
  (remove_bases (merge_sort Z.le (map_to_list m).*1) m).1.

(** [clear_domain], up to the release of the lock. *)
Definition clear_domain_locked (d : Z) (c : cache) : list nat * cache :=
  match position d (registry c) with
  | Some index =>
      (match registry c !! index with Some dr => into_values (regions dr) | None => [] end,
       Cache (delete index (registry c)) (registrations c))
  | None => ([], c)
  end.

Definition clear_domain (d : Z) (c : cache) (tr : trace) : cache * trace :=
  let '(retired, c) := clear_domain_locked d c in release retired c tr.

(** ** What the registry holds *)

(** An entry of the registry, as a fact. *)
Definition tracked (rs : list DomainRegions) (d base : Z) (e : RegionEntry) : Prop :=
  ∃ dr, dr ∈ rs ∧ domain dr = d ∧ regions dr !! base = Some e.

(** The registry's leases, with multiplicity. *)
Definition region_ids (m : gmap Z RegionEntry) : gmultiset nat :=
  held_ids registration m.

Fixpoint registry_ids (rs : list DomainRegions) : gmultiset nat :=
  match rs with
  | [] => ∅
  | dr :: rs => region_ids (regions dr) ⊎ registry_ids rs
  end.

(** The registry as the map it stands for: from a domain and a base address. *)
Fixpoint view (rs : list DomainRegions) (d base : Z) : option RegionEntry :=
  match rs with
  | [] => None
  | dr :: rs => if decide (domain dr = d) then regions dr !! base else view rs d base
  end.

Definition distinct_domains (rs : list DomainRegions) : Prop := NoDup (domain <$> rs).

(** ** Interleaving

    The state of the process as far as registrations go: the cache, the leases held
    outside it (by operands, in-flight operations, and retired entries on their way
    to being dropped), and the calls made. *)
Record process := Process {
  cached : cache;
  leases : gmultiset nat;
  calls : trace;
}.

Definition start_process : process := Process empty_cache ∅ [].

Inductive cache_step : process → process → Prop :=
  | step_register mr id c c' L tr :
      registration_new mr c = (id, c') →
      cache_step (Process c L tr) (Process c' (L ⊎ {[+ id +]}) tr)
  | step_track base end_ d id replaced c c' L tr :
      id ∈ L →
      track_locked base end_ d id c = (replaced, c') →
      cache_step (Process c L tr) (Process c' (L ⊎ list_to_set_disj replaced) tr)
  | step_covering start end_ d found c c' L tr :
      covering start end_ d c = (found, c') →
      cache_step (Process c L tr)
                 (Process c' (L ⊎ list_to_set_disj (option_list found)) tr)
  | step_invalidate start end_ retired c c' L tr :
      invalidate_locked start end_ c = (retired, c') →
      cache_step (Process c L tr) (Process c' (L ⊎ list_to_set_disj retired) tr)
  | step_clear_domain d retired c c' L tr :
      clear_domain_locked d c = (retired, c') →
      cache_step (Process c L tr) (Process c' (L ⊎ list_to_set_disj retired) tr)
  | step_clone id c L tr :
      id ∈ L →
      cache_step (Process c L tr)
                 (Process (Cache (registry c) (arc_clone id (registrations c)))
                          (L ⊎ {[+ id +]}) tr)
  | step_drop id c c' L tr tr' :
      release [id] c tr = (c', tr') →
      cache_step (Process c (L ⊎ {[+ id +]}) tr) (Process c' L tr').

(** The regions closed so far. *)
Definition closes (tr : trace) : list Z :=
  omap (λ call, match call with MrClose mr => Some mr | _ => None end) tr.

Record process_ok (p : process) : Prop := {
  ok_owns : owns (registrations (cached p)) (registry_ids (registry (cached p)) ⊎ leases p);
  ok_domains : distinct_domains (registry (cached p));
  ok_closes : Some <$> closes (calls p) =
              (λ id, arc_value id (registrations (cached p))) <$>
                finalized (registrations (cached p));
}.

(** ** Lemmas: multisets of leases *)

Lemma remove_bases_ids bases m :
  region_ids m = region_ids (remove_bases bases m).2 ⊎ list_to_set_disj (remove_bases bases m).1.
Proof.
  revert m. induction bases as [|base bases IH]; intros m; simpl; [multiset_solver|].
  destruct (m !! base) as [e|] eqn:E; [|done].
  unfold region_ids in *. rewrite (held_ids_delete _ m base e E), (IH (delete base m)).
  destruct (remove_bases bases (delete base m)); simpl. multiset_solver.
Qed.

Lemma remove_bases_lookup bases m base :
  (remove_bases bases m).2 !! base = if decide (base ∈ bases) then None else m !! base.
Proof.
  revert m. induction bases as [|b bases IH]; intros m; [done|]. cbn [remove_bases].
  destruct (m !! b) as [e|] eqn:E.
  - specialize (IH (delete b m)). destruct (remove_bases bases (delete b m)). cbn [snd] in *.
    rewrite IH. destruct (decide (base = b)) as [->|].
    + rewrite lookup_delete_eq. repeat case_decide; set_solver.
    + rewrite lookup_delete_ne by done. repeat case_decide; set_solver.
  - rewrite IH. repeat case_decide; set_solver.
Qed.

Lemma elem_of_overlapping_bases start end_ m base :
  base ∈ overlapping_bases start end_ m ↔
  ∃ e, m !! base = Some e ∧ overlaps start end_ (base, e).
Proof.
  unfold overlapping_bases. rewrite merge_sort_Permutation, list_elem_of_fmap.
  split.
  - intros ([b e] & -> & H). apply elem_of_map_to_list, map_lookup_filter_Some in H. naive_solver.
  - intros (e & H1 & H2). exists (base, e). split; [done|].
    by apply elem_of_map_to_list, map_lookup_filter_Some.
Qed.

Lemma into_values_ids m : region_ids m = list_to_set_disj (into_values m).
Proof.
  unfold into_values. set (bases := merge_sort _ _).
  assert ((remove_bases bases m).2 = ∅) as He.
  { apply map_eq. intros base. rewrite remove_bases_lookup, lookup_empty.
    case_decide as Hb; [done|]. destruct (m !! base) as [e|] eqn:E; [|done].
    exfalso. apply Hb. unfold bases. rewrite merge_sort_Permutation.
    apply list_elem_of_fmap. exists (base, e). by rewrite elem_of_map_to_list. }
  rewrite (remove_bases_ids bases m), He. apply (left_id_L ∅ (⊎)).
Qed.

Lemma retire_overlapping_ids start end_ rs :
  registry_ids rs = registry_ids (retire_overlapping start end_ rs).2 ⊎
                    list_to_set_disj (retire_overlapping start end_ rs).1.
Proof.
  induction rs as [|dr rs IH]; simpl; [multiset_solver|].
  rewrite IH, (remove_bases_ids (overlapping_bases start end_ (regions dr)) (regions dr)).
  destruct (remove_bases _ _), (retire_overlapping _ _ _); simpl.
  rewrite list_to_set_disj_app. multiset_solver.
Qed.

Lemma retire_overlapping_domains start end_ rs :
  domain <$> (retire_overlapping start end_ rs).2 = domain <$> rs.
Proof.
  induction rs as [|dr rs IH]; simpl; [done|].
  destruct (remove_bases _ _), (retire_overlapping _ _ _); csimpl in *. congruence.
Qed.

Lemma registry_ids_delete rs index dr :
  rs !! index = Some dr → registry_ids rs = region_ids (regions dr) ⊎ registry_ids (delete index rs).
Proof.
  revert index. induction rs as [|dr' rs IH]; intros [|index] H; simplify_eq/=; [done|].
  rewrite (IH _ H). multiset_solver.
Qed.

Lemma registry_ids_app rs1 rs2 : registry_ids (rs1 ++ rs2) = registry_ids rs1 ⊎ registry_ids rs2.
Proof. induction rs1 as [|dr rs1 IH]; simpl; [multiset_solver|]. rewrite IH. multiset_solver. Qed.

Lemma registry_ids_alter rs index dr base e :
  rs !! index = Some dr →
  registry_ids (alter (insert_region base e) index rs) ⊎
    list_to_set_disj (registration <$> option_list (regions dr !! base)) =
  {[+ registration e +]} ⊎ registry_ids rs.
Proof.
  revert index. induction rs as [|dr' rs IH]; intros [|index] H; simplify_eq/=.
  - pose proof (held_ids_insert_replaced registration (regions dr) base e) as Hr. unfold region_ids.
    rewrite (comm_L (⊎) (held_ids _ _)), <-(assoc_L (⊎)), Hr. multiset_solver.
  - specialize (IH _ H). rewrite <-(assoc_L (⊎)), IH. multiset_solver.
Qed.

Lemma elem_of_registry_ids id rs :
  id ∈ registry_ids rs ↔ ∃ d base e, tracked rs d base e ∧ registration e = id.
Proof.
  assert (∀ m : gmap Z RegionEntry, id ∈ region_ids m ↔
    ∃ base e, m !! base = Some e ∧ registration e = id) as Hm by (intros; apply elem_of_held_ids).
  induction rs as [|dr rs IH]; simpl.
  - split; [multiset_solver|]. intros (? & ? & ? & (? & ? & _) & _). set_solver.
  - rewrite gmultiset_elem_of_disj_union, IH, Hm. unfold tracked.
    setoid_rewrite elem_of_cons. split.
    + intros [(b & e & ? & ?)|(d & b & e & (dr' & ? & ? & ?) & ?)]; [by eauto 10|].
      exists d, b, e. naive_solver.
    + intros (d & b & e & (dr' & [->|?] & ? & ?) & ?); [by eauto 10|]. right. eauto 10.
Qed.

(** ** Lemmas: the registry as a map *)

Lemma view_list_find rs d base :
  view rs d base =
  ('(_, dr) ← list_find (λ dr, domain dr = d) rs; regions dr !! base).
Proof.
  induction rs as [|dr rs IH]; simpl; [done|]. case_decide; [done|]. rewrite IH.
  by destruct (list_find _ rs) as [[??]|].
Qed.

Lemma tracked_view rs d base e :
  distinct_domains rs → tracked rs d base e ↔ view rs d base = Some e.
Proof.
  unfold distinct_domains, tracked. induction rs as [|dr rs IH]; csimpl; intros Hnd.
  { split; [|done]. intros (dr & ? & _). set_solver. }
  apply NoDup_cons in Hnd as [Hni Hnd]. setoid_rewrite elem_of_cons. case_decide as Hd.
  - subst d. split; [|naive_solver].
    intros (dr' & [->|Hin] & Hdr' & ?); [done|]. exfalso. apply Hni.
    rewrite <-Hdr'. by apply list_elem_of_fmap_2.
  - rewrite <-IH by done. naive_solver.
Qed.

Lemma list_find_domain_None rs d :
  list_find (λ dr, domain dr = d) rs = None → d ∉ domain <$> rs.
Proof.
  rewrite list_find_None, Forall_forall. intros H (dr & -> & Hin)%list_elem_of_fmap.
  by apply (H dr).
Qed.

Lemma view_alter rs i dr base e d d' base' :
  list_find (λ dr, domain dr = d) rs = Some (i, dr) →
  view (alter (insert_region base e) i rs) d' base' =
  if decide (d' = d ∧ base' = base) then Some e else view rs d' base'.
Proof.
  revert i. induction rs as [|dr' rs IH]; intros i H; simpl in *; [done|].
  case_decide as Hd; simplify_eq/=.
  - destruct (decide (domain dr = d')) as [<-|]; [|by rewrite decide_False by naive_solver].
    rewrite lookup_insert. repeat case_decide; naive_solver.
  - destruct (list_find _ rs) as [[i' ?]|]; simplify_eq/=.
    destruct (decide (domain dr' = d')) as [<-|]; [by rewrite decide_False by naive_solver|].
    by apply IH.
Qed.

Lemma view_app_new rs d d' base :
  view (rs ++ [{| domain := d; regions := ∅ |}]) d' base = view rs d' base.
Proof.
  induction rs as [|dr rs IH]; simpl; [by case_decide|]. by case_decide.
Qed.

Lemma list_find_app_new rs d :
  list_find (λ dr, domain dr = d) rs = None →
  list_find (λ dr, domain dr = d) (rs ++ [{| domain := d; regions := ∅ |}]) =
  Some (length rs, {| domain := d; regions := ∅ |}).
Proof.
  induction rs as [|dr rs IH]; simpl; intros H; [by rewrite decide_True|].
  case_decide; [done|]. destruct (list_find _ rs) as [[??]|]; [done|]. by rewrite IH.
Qed.

Lemma domain_regions_spec rs d :
  ∃ dr, list_find (λ dr, domain dr = d) (domain_regions rs d).2 =
          Some ((domain_regions rs d).1, dr) ∧
        (∀ d' base, view (domain_regions rs d).2 d' base = view rs d' base) ∧
        registry_ids (domain_regions rs d).2 = registry_ids rs ∧
        (distinct_domains rs → distinct_domains (domain_regions rs d).2).
Proof.
  unfold domain_regions, position.
  destruct (list_find _ rs) as [[i dr]|] eqn:E; simpl; [by exists dr|].
  exists {| domain := d; regions := ∅ |}. split_and!.
  - by apply list_find_app_new.
  - intros. apply view_app_new.
  - rewrite registry_ids_app. simpl. unfold region_ids. rewrite held_ids_empty. multiset_solver.
  - unfold distinct_domains. intros Hnd. rewrite fmap_app. apply NoDup_app. simpl.
    split_and!; [done| |apply NoDup_singleton].
    intros d' Hd' ->%list_elem_of_singleton. by eapply list_find_domain_None.
Qed.

Lemma alter_domains (rs : list DomainRegions) (i : nat) base e : domain <$> alter (insert_region base e) i rs = domain <$> rs.
Proof. revert i. induction rs as [|dr rs IH]; intros [|i]; csimpl; by rewrite ?IH. Qed.

Lemma track_locked_spec base end_ d id c replaced c' :
  track_locked base end_ d id c = (replaced, c') →
  registrations c' = arc_clone id (registrations c) ∧
  registry_ids (registry c') ⊎ list_to_set_disj replaced =
    {[+ id +]} ⊎ registry_ids (registry c) ∧
  (∀ d' base', view (registry c') d' base' =
     if decide (d' = d ∧ base' = base) then Some {| re_end := end_; registration := id |}
     else view (registry c) d' base') ∧
  (distinct_domains (registry c) → distinct_domains (registry c')).
Proof.
  unfold track_locked. destruct (domain_regions_spec (registry c) d) as (dr & Hf & Hv & Hids & Hd).
  destruct (domain_regions (registry c) d) as [i rs]; simpl in *. intros [= <- <-]; simpl.
  pose proof Hf as (Hi & _)%list_find_Some. rewrite Hi. simpl. split_and!; [done|..].
  - rewrite <-Hids. exact (registry_ids_alter rs i dr base {| re_end := end_; registration := id |} Hi).
  - intros d' base'. by rewrite (view_alter _ _ _ _ _ _ _ _ Hf), Hv.
  - unfold distinct_domains in *. by rewrite alter_domains.
Qed.

Lemma view_retire_overlapping start end_ rs d base :
  view (retire_overlapping start end_ rs).2 d base =
  (e ← view rs d base; if decide (overlaps start end_ (base, e)) then None else Some e).
Proof.
  induction rs as [|dr rs IH]; simpl; [done|].
  pose proof (remove_bases_lookup (overlapping_bases start end_ (regions dr)) (regions dr) base) as Hl.
  destruct (remove_bases _ _) as [retired m], (retire_overlapping _ _ _) as [more rs'].
  cbn [fst snd view domain regions] in *. destruct (decide (domain dr = d)); [|done]. rewrite Hl.
  destruct (decide (base ∈ _)) as [Hin|Hin].
  - apply elem_of_overlapping_bases in Hin as (e' & -> & ?). cbn. by rewrite decide_True.
  - rewrite elem_of_overlapping_bases in Hin.
    destruct (regions dr !! base) as [e'|]; [|done]. cbn. rewrite decide_False; [done|].
    naive_solver.
Qed.

Lemma view_delete rs i dr d d' base :
  distinct_domains rs → list_find (λ dr, domain dr = d) rs = Some (i, dr) →
  view (delete i rs) d' base = if decide (d' = d) then None else view rs d' base.
Proof.
  unfold distinct_domains. revert i.
  induction rs as [|dr' rs IH]; intros i Hnd H; simpl in *; [done|].
  apply NoDup_cons in Hnd as [Hni Hnd].
  case_decide as Hd; simplify_eq/=.
  - destruct (decide (domain dr = d')) as [<-|]; [|by rewrite decide_False by done].
    rewrite decide_True by done.
    destruct (view rs (domain dr) base) as [e|] eqn:E; [|done].
    apply tracked_view in E as (dr' & ? & Hdr' & _); [|done]. exfalso. apply Hni.
    rewrite <-Hdr'. by apply list_elem_of_fmap_2.
  - destruct (list_find _ rs) as [[i' ?]|]; simplify_eq/=.
    destruct (decide (domain dr' = d')) as [<-|]; [by rewrite decide_False|]. by apply IH.
Qed.

Lemma clear_domain_locked_spec d c retired c' :
  distinct_domains (registry c) →
  clear_domain_locked d c = (retired, c') →
  registrations c' = registrations c ∧
  registry_ids (registry c) = registry_ids (registry c') ⊎ list_to_set_disj retired ∧
  (∀ d' base, view (registry c') d' base =
     if decide (d' = d) then None else view (registry c) d' base) ∧
  distinct_domains (registry c').
Proof.
  unfold clear_domain_locked, position. intros Hnd.
  destruct (list_find _ _) as [[i dr]|] eqn:E; simpl; intros [= <- <-]; simpl.
  - pose proof E as (Hi & _)%list_find_Some. rewrite Hi. split_and!; [done|..].
    + rewrite (registry_ids_delete _ _ _ Hi), into_values_ids. multiset_solver.
    + intros. by eapply view_delete.
    + unfold distinct_domains in *. eapply sublist_NoDup; [done|].
      apply fmap_sublist, sublist_delete.
  - split_and!; [done|multiset_solver| |done]. intros d' base. case_decide; [|done]. subst.
    apply list_find_domain_None in E. destruct (view (registry c) d base) eqn:Ev; [|done].
    apply tracked_view in Ev as (dr & ? & <- & _); [|done]. exfalso. apply E.
    by apply list_elem_of_fmap_2.
Qed.

(** ** Lemmas: the interleaving preserves [process_ok] *)

Lemma start_process_ok : process_ok start_process.
Proof.
  split; simpl; [|by constructor|done]. rewrite (left_id_L ∅ (⊎)). apply empty_owns.
Qed.

Lemma closes_app tr1 tr2 : closes (tr1 ++ tr2) = closes tr1 ++ closes tr2.
Proof. apply omap_app. Qed.

Lemma closes_MrClose mrs : closes (MrClose <$> mrs) = mrs.
Proof. unfold closes. induction mrs; csimpl; congruence. Qed.

(** The allocations change, the closed ones keep their regions. *)
Lemma closed_values_ext (h h' : heap Z) X tr :
  owns h X → finalized h' = finalized h →
  (∀ i, is_Some (cells h !! i) → arc_value i h' = arc_value i h) →
  Some <$> closes tr = (λ id, arc_value id h) <$> finalized h →
  Some <$> closes tr = (λ id, arc_value id h') <$> finalized h'.
Proof.
  intros Ho Hfin Hv ->. rewrite Hfin. apply list_fmap_ext. intros i x Hx. symmetry. apply Hv.
  apply (owns_dead _ _ Ho). by apply list_elem_of_lookup_2 in Hx.
Qed.

Lemma release_one_ok id c c' L tr tr' :
  process_ok (Process c (L ⊎ {[+ id +]}) tr) → release [id] c tr = (c', tr') →
  process_ok (Process c' L tr').
Proof.
  intros [Ho Hd Hc] Hr. cbn [cached leases calls] in *.
  rewrite (assoc_L (⊎)) in Ho.
  pose proof (arc_drop_owns _ _ _ Ho) as Ho'. pose proof (arc_drop_last _ _ _ Ho) as Hl.
  pose proof (arc_drop_finalized _ _ _ Ho) as Hf.
  assert (∀ j, arc_value j (arc_drop id (registrations c)).1 = arc_value j (registrations c)) as Hv
    by (intros; by eapply arc_drop_value).
  unfold release in Hr. cbn [arc_drop_all] in Hr.
  destruct (arc_drop id (registrations c)) as [h last]; simpl in *. simplify_eq/=.
  split; simpl; [done|done|]. rewrite app_nil_r, closes_app, closes_MrClose, Hf, !fmap_app, Hc.
  f_equal.
  - apply list_fmap_ext. intros. by rewrite Hv.
  - case_decide; simpl; [done|]. rewrite Hv.
    destruct (owns_value _ _ id Ho ltac:(multiset_solver)) as [mr ->]. done.
Qed.

Lemma clone_process_ok id c L tr :
  process_ok (Process c L tr) → id ∈ registry_ids (registry c) ⊎ L →
  process_ok (Process (Cache (registry c) (arc_clone id (registrations c))) (L ⊎ {[+ id +]}) tr).
Proof.
  intros [Ho Hd Hc] Hid. cbn [cached leases calls] in *. split; simpl; [|done|].
  - rewrite (assoc_L (⊎)). by apply arc_clone_owns.
  - eapply (closed_values_ext _ (arc_clone id (registrations c))); [apply Ho|done| |done].
    intros. apply arc_clone_value.
Qed.

(** Only the registry changes: its leases moved to the other holders. *)
Lemma move_process_ok c c' L L' tr :
  process_ok (Process c L tr) → registrations c' = registrations c →
  registry_ids (registry c) ⊎ L = registry_ids (registry c') ⊎ L' →
  (distinct_domains (registry c) → distinct_domains (registry c')) →
  process_ok (Process c' L' tr).
Proof.
  intros [Ho Hd Hc] Hh Hids Hnd. cbn [cached leases calls] in *.
  split; simpl; rewrite ?Hh, <-?Hids; auto.
Qed.

Lemma invalidate_locked_spec start end_ c retired c' :
  invalidate_locked start end_ c = (retired, c') →
  registrations c' = registrations c ∧
  registry_ids (registry c) = registry_ids (registry c') ⊎ list_to_set_disj retired ∧
  (∀ d base, view (registry c') d base =
     (e ← view (registry c) d base;
      if decide (overlaps start end_ (base, e)) then None else Some e)) ∧
  (distinct_domains (registry c) → distinct_domains (registry c')).
Proof.
  unfold invalidate_locked, distinct_domains.
  pose proof (retire_overlapping_ids start end_ (registry c)) as Hids.
  pose proof (view_retire_overlapping start end_ (registry c)) as Hv.
  rewrite <-(retire_overlapping_domains start end_ (registry c)).
  destruct (retire_overlapping _ _ _) as [r rs]. intros [= <- <-]. cbn. auto.
Qed.

Lemma find_covering_in_registry start end_ d rs id :
  find_covering start end_ d rs = Some id → id ∈ registry_ids rs.
Proof.
  unfold find_covering. intros H. apply bind_Some in H as ([i dr] & Hf & H).
  apply bind_Some in H as ([base e] & Hr & H).
  case_match; simplify_eq. apply list_find_Some in Hf as (Hi & Hd & _).
  apply range_to_incl_next_back_Some in Hr as (Hb & _ & _).
  apply elem_of_registry_ids. exists d, base, e. split; [|done].
  exists dr. split_and!; [by eapply list_elem_of_lookup_2|done|done].
Qed.

Lemma cache_step_ok p p' : cache_step p p' → process_ok p → process_ok p'.
Proof.
  intros Hs Hok. destruct Hs as [mr id c c' L tr E|base end_ d id repl c c' L tr Hid E
    |s e d found c c' L tr E|s e ret c c' L tr E|d ret c c' L tr E|id c L tr Hid|id c c' L tr tr' E].
  - unfold registration_new in E. simplify_eq/=. destruct Hok as [Ho Hd Hc].
    cbn [cached leases calls] in *. split; simpl; [|done|].
    + rewrite (assoc_L (⊎)). apply (arc_new_owns mr _ _ Ho).
    + eapply (closed_values_ext _ (arc_new mr (registrations c)).2); [apply Ho|done| |done].
      intros i Hi.
      rewrite arc_new_value.
      rewrite decide_False; [done|]. pose proof (owns_fresh _ _ Ho _ Hi). lia.
  - apply track_locked_spec in E as (Hh & Hids & _ & Hd).
    pose proof (clone_process_ok id c L tr Hok ltac:(multiset_solver)) as Hok'.
    eapply move_process_ok; [apply Hok'|done| |exact Hd]. simpl.
    rewrite !(assoc_L (⊎)), <-(assoc_L (⊎) (registry_ids (registry c'))),
      (comm_L (⊎) L), (assoc_L (⊎)), Hids. multiset_solver.
  - unfold covering in E. destruct (find_covering s e d (registry c)) as [id|] eqn:Hf; simplify_eq/=.
    + rewrite (right_id_L ∅ (⊎)). apply clone_process_ok; [done|].
      apply find_covering_in_registry in Hf. multiset_solver.
    + by rewrite (right_id_L ∅ (⊎)).
  - apply invalidate_locked_spec in E as (Hh & Hids & _ & Hd).
    eapply move_process_ok; [apply Hok|done| |exact Hd]. rewrite Hids. multiset_solver.
  - pose proof (ok_domains _ Hok) as Hnd.
    apply clear_domain_locked_spec in E as (Hh & Hids & _ & Hd); [|done].
    eapply move_process_ok; [apply Hok|done| |done]. rewrite Hids. multiset_solver.
  - apply clone_process_ok; [done|]. multiset_solver.
  - by eapply release_one_ok.
Qed.

Lemma cache_steps_ok p : rtc cache_step start_process p → process_ok p.
Proof.
  intros H. remember start_process as q. assert (process_ok q) as Hq.
  { subst. apply start_process_ok. }
  clear Heqq. induction H; eauto using cache_step_ok.
Qed.

Lemma find_covering_sound rs d start end_ id :
  find_covering start end_ d rs = Some id →
  ∃ base e, view rs d base = Some e ∧ registration e = id ∧
            (base ≤ start)%Z ∧ (end_ ≤ re_end e)%Z.
Proof.
  unfold find_covering. setoid_rewrite view_list_find. intros H.
  apply bind_Some in H as ([i dr] & -> & H). apply bind_Some in H as ([base e] & Hr & H).
  apply range_to_incl_next_back_Some in Hr as (Hb & Hle & _). exists base, e.
  destruct (Z.leb_spec base start), (Z.leb_spec end_ (re_end e)); naive_solver.
Qed.

Lemma find_covering_complete rs d start end_ base e :
  view rs d base = Some e → (base ≤ start)%Z → (end_ ≤ re_end e)%Z →
  (∀ base' e', view rs d base' = Some e' → (base < base' ≤ start)%Z → False) →
  find_covering start end_ d rs = Some (registration e).
Proof.
  unfold find_covering. setoid_rewrite view_list_find. intros H Hb He Hno.
  destruct (list_find _ rs) as [[i dr]|]; simpl in *; [|done].
  rewrite (range_to_incl_next_back_lookup start (regions dr) base e); simpl; [|done|done|].
  - apply Z.leb_le in Hb as ->. by apply Z.leb_le in He as ->.
  - intros j w Hj Hjs. destruct (Z.le_gt_cases j base); [done|].
    exfalso. apply (Hno j w Hj). lia.
Qed.

(** [find_covering] looks at one extent only. *)
Lemma find_covering_iff start end_ d rs id :
  find_covering start end_ d rs = Some id ↔
  ∃ base e, view rs d base = Some e ∧ (base ≤ start)%Z ∧
    (∀ base' e', view rs d base' = Some e' → (base' ≤ start)%Z → (base' ≤ base)%Z) ∧
    (end_ ≤ re_end e)%Z ∧ registration e = id.
Proof.
  split.
  - unfold find_covering. setoid_rewrite view_list_find. intros H.
    apply bind_Some in H as ([i dr] & -> & H). apply bind_Some in H as ([base e] & Hr & H).
    apply range_to_incl_next_back_Some in Hr as (Hb & Hle & Hmax). exists base, e.
    destruct (Z.leb_spec base start), (Z.leb_spec end_ (re_end e)); simplify_eq/=.
    by split_and!.
  - intros (base & e & Hv & Hb & Hmax & He & <-). eapply find_covering_complete; [done..|].
    intros base' e' Hv' ?. specialize (Hmax _ _ Hv'). lia.
Qed.

(** [track] hands over the entry it replaced. *)
Lemma track_locked_replaced base end_ d id c replaced c' :
  track_locked base end_ d id c = (replaced, c') →
  replaced = registration <$> option_list (view (registry c) d base).
Proof.
  unfold track_locked. destruct (domain_regions_spec (registry c) d) as (dr & Hf & Hv & _).
  destruct (domain_regions (registry c) d) as [i rs]; simpl in *. intros [= <- _].
  pose proof Hf as (Hi & _)%list_find_Some. rewrite Hi, <-Hv, view_list_find, Hf. done.
Qed.

(** ** What the cache promises *)

(** C15: A registration is closed exactly when its last lease goes, whatever the
    interleaving of threads resolving operands, tracking, reclaiming pages, tearing
    down domains and finishing transfers.  In every reachable state a registration
    that is cached or leased is open, one that is neither is closed, and the
    [fi_close] calls made are exactly one for each of the latter: no descriptor of a
    leased operand is ever deregistered underneath its transfer, none is closed
    twice, none leaks. *)
Theorem leased_registrations_stay_open p (Hp : rtc cache_step start_process p) :
  let h := registrations (cached p) in
  let held := registry_ids (registry (cached p)) ⊎ leases p in
  (∀ id, is_Some (arc_value id h) → id ∈ finalized h ↔ id ∉ held) ∧
  NoDup (finalized h) ∧
  Some <$> closes (calls p) = (λ id, arc_value id h) <$> finalized h.
Proof.
  pose proof (cache_steps_ok p Hp) as [Ho _ Hc]. split_and!; [|apply Ho|done].
  intros id Hid%fmap_is_Some. rewrite (owns_dead _ _ Ho), (owns_count _ _ Ho).
  rewrite not_elem_of_multiplicity. naive_solver.
Qed.

(** C24: The registry is a finite map from domain and base address, and its
    operations are the map's.  [track] overwrites one key and hands over what it
    replaced; [invalidate] keeps, on every domain, exactly the extents that end at or
    before the range or start at or after its end; [clear_domain] deletes exactly one
    domain; both hand over the leases that left.  [covering] changes no entry and
    answers from the extent with the greatest base not above the operand, if that one
    reaches the operand's end (an extent with a smaller base that would contain the
    operand is not looked at), with one more lease on it.  Domains stay distinct. *)
Theorem registry_refines_map c (Hd : distinct_domains (registry c)) :
  (∀ base end_ d id replaced c', track_locked base end_ d id c = (replaced, c') →
     (∀ d' base', view (registry c') d' base' =
        if decide (d' = d ∧ base' = base) then Some {| re_end := end_; registration := id |}
        else view (registry c) d' base') ∧
     replaced = registration <$> option_list (view (registry c) d base) ∧
     distinct_domains (registry c')) ∧
  (∀ start end_ retired c', invalidate_locked start end_ c = (retired, c') →
     (∀ d base e, view (registry c') d base = Some e ↔
        view (registry c) d base = Some e ∧ (end_ ≤ base ∨ re_end e ≤ start)%Z) ∧
     registry_ids (registry c) = registry_ids (registry c') ⊎ list_to_set_disj retired ∧
     distinct_domains (registry c')) ∧
  (∀ d retired c', clear_domain_locked d c = (retired, c') →
     (∀ d' base, view (registry c') d' base =
        if decide (d' = d) then None else view (registry c) d' base) ∧
     registry_ids (registry c) = registry_ids (registry c') ⊎ list_to_set_disj retired ∧
     distinct_domains (registry c')) ∧
  (∀ start end_ d found c', covering start end_ d c = (found, c') →
     (∀ id, found = Some id ↔ ∃ base e, view (registry c) d base = Some e ∧ (base ≤ start)%Z ∧
        (∀ base' e', view (registry c) d base' = Some e' → (base' ≤ start)%Z → (base' ≤ base)%Z) ∧
        (end_ ≤ re_end e)%Z ∧ registration e = id) ∧
     registry c' = registry c ∧
     registrations c' = foldr arc_clone (registrations c) (option_list found)).
Proof.
  split_and!.
  - intros * E. pose proof (track_locked_spec _ _ _ _ _ _ _ E) as (_ & _ & Hv & Hd').
    split_and!; [done|by eapply track_locked_replaced|auto].
  - intros * E. pose proof (invalidate_locked_spec _ _ _ _ _ E) as (_ & ? & Hv & Hd').
    split_and!; [|done|auto]. intros d base e. rewrite Hv, bind_Some. unfold overlaps. split.
    + intros (e' & He & Hout). case_decide; simplify_eq/=. split; [done|]. lia.
    + intros [He ?]. exists e. split; [done|]. apply decide_False. simpl. lia.
  - intros * E. apply clear_domain_locked_spec in E as (_ & ? & ? & ?); done.
  - intros start end_ d found c' E.
    assert (found = find_covering start end_ d (registry c) ∧ registry c' = registry c ∧
      registrations c' = foldr arc_clone (registrations c) (option_list found)) as (-> & Hr & Hh).
    { unfold covering in E. destruct (find_covering _ _ _ _); by simplify_eq/=. }
    split_and!; [|done|done]. intros id. apply find_covering_iff.
Qed.

(** What [covering] answers.  A registration it finds is cached on that domain
    and contains the whole operand; and if some cached extent contains the operand
    and no other extent of the domain starts between that extent's base and the
    operand, [covering] finds that one. *)
Lemma covering_sound_complete rs d start end_ :
  (∀ id, find_covering start end_ d rs = Some id →
     ∃ base e, view rs d base = Some e ∧ registration e = id ∧
               (base ≤ start)%Z ∧ (end_ ≤ re_end e)%Z) ∧
  (∀ base e, view rs d base = Some e → (base ≤ start)%Z → (end_ ≤ re_end e)%Z →
     (∀ base' e', view rs d base' = Some e' → (base < base' ≤ start)%Z → False) →
     find_covering start end_ d rs = Some (registration e)).
Proof. split; eauto using find_covering_sound, find_covering_complete. Qed.

(** After a reclaim is reported nothing can bind to the reclaimed pages: on no
    domain does [covering] answer for an operand that has a byte in the range
    [invalidate] was given. *)
Lemma invalidated_pages_never_covered start end_ c retired c' s e d
  (Hi : invalidate_locked start end_ c = (retired, c'))
  (Hne : (s < e)%Z) (Hoverlap : (s < end_)%Z ∧ (start < e)%Z) :
  find_covering s e d (registry c') = None.
Proof.
  apply invalidate_locked_spec in Hi as (_ & _ & Hv & _).
  destruct (find_covering s e d (registry c')) as [id|] eqn:E; [|done].
  apply find_covering_sound in E as (base & en & Hen & _ & Hb & He).
  rewrite Hv in Hen. apply bind_Some in Hen as (en' & _ & Hen).
  case_decide as Ho; simplify_eq. exfalso. apply Ho. split; simpl; lia.
Qed.

(** The bound on completeness in [covering_sound_complete] is needed: [covering]
    looks only at the last extent starting at or before the operand, so a shorter
    extent inside a longer one hides the longer one from the operands after it. *)
Definition shadowed_registry : list DomainRegions :=
  [{| domain := 1;
      regions := <[0%Z := {| re_end := 100; registration := 0 |}]>
                   (<[10%Z := {| re_end := 20; registration := 1 |}]> ∅) |}].

Lemma covering_misses_shadowed_extent :
  view shadowed_registry 1 0 = Some {| re_end := 100; registration := 0 |} ∧
  (0 ≤ 50)%Z ∧ (60 ≤ 100)%Z ∧ find_covering 50 60 1 shadowed_registry = None.
Proof. by vm_compute. Qed.

(** A run for the witnesses: an extent is registered, cached, leased by an operand
    and dropped by its registrar; then its pages are reclaimed, with the operand's
    transfer still in flight, and the retired entry is dropped. *)
Lemma reclaim_under_a_lease :
  ∃ p, rtc cache_step start_process p ∧ leases p = {[+ 0 +]} ∧
       view (registry (cached p)) 7 4096 = None ∧ closes (calls p) = [].
Proof.
  eexists. split.
  { eapply rtc_l; [by apply (step_register 99)|].
    eapply rtc_l; [apply (step_track 4096 8192 7 0); [set_solver|by vm_compute]|].
    eapply rtc_l; [by apply (step_covering 5000 6000 7)|].
    eapply rtc_l; [by apply (step_invalidate 4096 8192)|].
    match goal with |- rtc _ (Process ?c ?L ?tr) _ =>
      replace L with (({[+ 0 +]} ⊎ {[+ 0 +]}) ⊎ {[+ 0 +]} : gmultiset nat)
        by (vm_compute; reflexivity)
    end.
    eapply rtc_l; [by apply (step_drop 0)|].
    eapply rtc_l; [by apply (step_drop 0)|]. apply rtc_refl. }
  by vm_compute.
Qed.

Lemma leased_registrations_stay_open_witness :
  ∃ p, rtc cache_step start_process p ∧ NoDup (finalized (registrations (cached p))).
Proof.
  destruct reclaim_under_a_lease as (p & Hp & _). exists p. split; [exact Hp|].
  apply (leased_registrations_stay_open p Hp).
Defined.

Definition one_extent : cache :=
  Cache [{| domain := 7; regions := {[4096%Z := {| re_end := 8192; registration := 0 |}]} |}]
        (Heap {[0 := (99%Z, 1)]} 1 []).

Lemma one_extent_distinct : distinct_domains (registry one_extent).
Proof. apply NoDup_singleton. Qed.

Lemma registry_refines_map_witness :
  distinct_domains (registry one_extent) ∧
  (view (registry (invalidate_locked 8192 9000 one_extent).2) 7 4096 =
     Some {| re_end := 8192; registration := 0 |}) ∧
  view (registry (invalidate_locked 8191 9000 one_extent).2) 7 4096 ≠ Some {| re_end := 8192; registration := 0 |} ∧
  (covering 5000 6000 7 one_extent).1 = Some 0.
Proof.
  split; [apply one_extent_distinct|].
  destruct (registry_refines_map one_extent one_extent_distinct) as (_ & Hi & _ & Hc).
  split_and!.
  - destruct (invalidate_locked 8192 9000 one_extent) as [r c'] eqn:E.
    destruct (Hi _ _ _ _ E) as [Hv _]. apply Hv. split; [reflexivity|right; simpl; lia].
  - destruct (invalidate_locked 8191 9000 one_extent) as [r c'] eqn:E.
    destruct (Hi _ _ _ _ E) as [Hv _]. intros [_ Hout]%Hv. simpl in Hout. lia.
  - destruct (covering 5000 6000 7 one_extent) as [found c'] eqn:E.
    destruct (Hc _ _ _ _ _ E) as [Hf _]. apply Hf. exists 4096%Z, {| re_end := 8192; registration := 0 |}.
    split_and!; try done. intros base' e'. simpl. rewrite lookup_singleton_Some. lia.
Defined.

