(* ===== verification/Operands.v ===== *)
(** * Local operands and their registrations

    [operands.rs]: the caller's [Operands] and [CacheableSpan]; [error.rs]:
    [check] and [fabric_error]; [local_regions.rs]: [LocalRegions], which resolves an
    operand to a registered descriptor through the cache of [RegionCache];
    [memory_region.rs]: a caller's pinned [MemoryRegion]. *)

From S2P Require Import Prelude Arc Wire Fabric RegionCache.

(** ** [operands.rs] *)

Record CacheableSpan := { base : Z; end_ : Z }.

#[export] Instance CacheableSpan_eq_dec : EqDecision CacheableSpan.
Proof. solve_decision. Defined.

(** [CacheableSpan::new] *)
Definition span_new (base length : Z) : option CacheableSpan :=
  checked_add base length ≫= λ end_, Some {| base := base; end_ := end_ |}.

Definition contains (span : CacheableSpan) (start limit : Z) : bool :=
  (base span <=? start)%Z && (limit <=? end_ span)%Z.

(** A borrowed byte slice: where it is and how long. *)
Record slice := Slice { pointer : Z; len : Z }.

(** [trait Operands].  [allocate] takes [&mut self], so it gives back the context it
    leaves behind. *)
Class Operands (T : Type) := {
  source : T → option slice;
  allocate : Z → T → option slice * T;
  cacheable_span : T → option CacheableSpan;
}.

(** The trait's default methods. *)
Definition default_source {T} (_ : T) : option slice := None.
Definition default_allocate {T} (_ : Z) (t : T) : option slice * T := (None, t).
Definition default_cacheable_span {T} (_ : T) : option CacheableSpan := None.

(** What the worker relies on: a slice lies in the address space, and filling in a
    landing buffer does not change which transfer the context belongs to. *)
Class OperandsLaws (T K : Type) `{Operands T} (ident : T → K) : Prop := {
  allocate_ident : ∀ length t, ident (allocate length t).2 = ident t;
}.

(** [impl Operands for Vec<u8>]: a vector is its buffer's address and its bytes, and
    the allocator places the buffer again when it is resized. *)
Record vec := { buffer : Z; bytes : list u8 }.

Section vec_operands.
  Variable reallocate : vec → Z → Z.

Definition vec_source (v : vec) : option slice :=
  Some (Slice (buffer v) (Z.of_nat (length (bytes v)))).

Definition vec_allocate (length : Z) (v : vec) : option slice * vec :=
  let v := {| buffer := reallocate v length;
              bytes := resize (Z.to_nat length) Byte.x00 (bytes v) |} in
  (Some (Slice (buffer v) (Z.of_nat (List.length (bytes v)))), v).

Definition vec_operands : Operands vec :=
  {| source := vec_source; allocate := vec_allocate; cacheable_span := default_cacheable_span |}.

End vec_operands.

(** ** [error.rs] *)

Section local_regions.
  Context `{Libfabric}.

(** Callers with an [isize] cast it to [i32]; libfabric's codes are small and stay the same. *)
Definition fabric_error (code : Z) (what : string) : DmaError :=
  Fabric (what +:+ ": " +:+ fi_strerror (- code) +:+ " (" +:+ pretty code +:+ ")").

Definition check (code : Z) (what : string) : result () DmaError :=
  if (0 =? code)%Z then Ok () else Err (fabric_error code what).

(** ** [local_regions.rs] *)

Record LocalOperand := { descriptor : Z; lease : option nat }.

(** [LocalRegions::register], on the domain the [LocalRegions] holds. *)
Definition register (d ptr length : Z) (tr : trace) : result Z DmaError * trace :=
  let '(code, memory_region) := fi_mr_reg tr d ptr length in
  (let? _ := check code "fi_mr_reg(operand)" in Ok memory_region,
   tr ++ [MrReg d ptr length]).

(** The registration attempts of a cache miss: the whole span, and the operand's own
    extent when a widened span could not be registered. *)
Definition register_span (d start limit : Z) (span : option CacheableSpan) (tr : trace) :
    result (Z * Z * Z) DmaError * trace :=
  let '(b, l) := match span with Some s => (base s, end_ s) | None => (start, limit) end in
  match register d b (l - b) tr with
  | (Ok mr, tr) => (Ok (b, l, mr), tr)
  | (Err error, tr) =>
      if decide ((b, l) ≠ (start, limit)) then
        let '(r, tr) := register d start (limit - start) tr in
        (let? mr := r in Ok (start, limit, mr), tr)
      else (Err error, tr)
  end.

(** [LocalRegions::operand].  [cacheable] is the closure's answer, looked at only on
    a cache miss. *)
Definition operand (d ptr length : Z) (cacheable : option CacheableSpan)
    (c : cache) (tr : trace) : result LocalOperand DmaError * cache * trace :=
  match checked_add ptr length with
  | None => (Err (Fabric "local operand range overflows"), c, tr)
  | Some limit =>
      let start := ptr in
      match covering start limit d c with
      | (Some id, c) =>
          (Ok {| descriptor := default 0%Z (fi_mr_desc <$> arc_value id (registrations c));
                 lease := Some id |}, c, tr)
      | (None, c) =>
          let cacheable :=
            cacheable ≫= λ span, if contains span start limit then Some span else None in
          let '(region, tr) := register_span d start limit cacheable tr in
          match region with
          | Err error => (Err error, c, tr)
          | Ok (b, l, mr) =>
              let '(id, c) := registration_new mr c in
              let desc := default 0%Z (fi_mr_desc <$> arc_value id (registrations c)) in
              let '(c, tr) :=
                match cacheable with Some _ => track b l d id c tr | None => (c, tr) end in
              (Ok {| descriptor := desc; lease := Some id |}, c, tr)
          end
      end
  end.

(** [LocalRegions::pin]: its own lease is dropped on return, leaving the registry's. *)
Definition pin (d b length : Z) (c : cache) (tr : trace) : result () DmaError * cache * trace :=
  match checked_add b length with
  | None => (Err (Fabric "pinned region range overflows"), c, tr)
  | Some limit =>
      let '(r, tr) := register d b length tr in
      match r with
      | Err error => (Err error, c, tr)
      | Ok mr =>
          let '(id, c) := registration_new mr c in
          let '(c, tr) := track b limit d id c tr in
          let '(c, tr) := release [id] c tr in
          (Ok (), c, tr)
      end
  end.

(** [LocalRegions::clear] *)
Definition clear (d : Z) (c : cache) (tr : trace) : cache * trace := clear_domain d c tr.

(** ** [memory_region.rs] *)

(** [struct Region<S>]: the boxed storage is named by its address. *)
Record Region := { storage : Z; r_base : Z; r_end : Z }.

(** [MemoryRegion::new]: one [Arc] on the region. *)
Definition memory_region_new (storage b limit : Z) (h : heap Region) : nat * heap Region :=
  arc_new {| storage := storage; r_base := b; r_end := limit |} h.

Definition memory_region_length (region : Region) : Z := r_end region - r_base region.

(** What freeing a value does, in order. *)
Inductive teardown : Type :=
  | FabricCalls (calls : trace)
  | FreeStorage (storage : Z).

(** Dropping one [MemoryRegion]; with the last one [Region]'s [Drop] runs, then its
    fields drop. *)
Definition memory_region_drop (i : nat) (h : heap Region) (c : cache) (tr : trace) :
    heap Region * cache * list teardown :=
  match arc_drop i h with
  | (h, Some region) =>
      let '(c, tr') := invalidate (r_base region) (r_end region) c tr in
      (h, c, [FabricCalls (drop (length tr) tr'); FreeStorage (storage region)])
  | (h, None) => (h, c, [])
  end.

(** ** What is registered, and for which memory *)

(** Registration [id] was made by a successful [fi_mr_reg] of [[b, l)] on domain [d]. *)
Definition registered_as (tr : trace) (h : heap Z) (id : nat) (d b l : Z) : Prop :=
  ∃ tr1 tr2 mr, tr = tr1 ++ MrReg d b (l - b) :: tr2 ∧
    fi_mr_reg tr1 d b (l - b) = (0%Z, mr) ∧ arc_value id h = Some mr.

(** Every cached extent is the range its registration was made for. *)
Definition extents_registered (c : cache) (tr : trace) : Prop :=
  ∀ d b e, view (registry c) d b = Some e →
    registered_as tr (registrations c) (registration e) d b (re_end e).

(** The cache as one thread finds it, [L] being the leases held outside it. *)
Record cache_ok (c : cache) (L : gmultiset nat) (tr : trace) : Prop := {
  cache_process : process_ok (Process c L tr);
  cache_extents : extents_registered c tr;
}.

(** ** Lemmas *)

Lemma registered_as_ext tr tr' h h' id d b l :
  registered_as tr h id d b l →
  (∃ tr2, tr' = tr ++ tr2) → arc_value id h' = arc_value id h →
  registered_as tr' h' id d b l.
Proof.
  intros (tr1 & tr2 & mr & -> & Hr & Hv) [tr3 ->] Hv'.
  exists tr1, (tr2 ++ tr3), mr. rewrite <-(assoc_L (++)), Hv'. done.
Qed.

Lemma registry_live c L tr d b e :
  process_ok (Process c L tr) → view (registry c) d b = Some e →
  registration e ∈ registry_ids (registry c).
Proof.
  intros Hok Hv. apply elem_of_registry_ids. exists d, b, e. split; [|done].
  apply tracked_view; [apply Hok|done].
Qed.

(** Values survive the operations on counts. *)
Lemma release_spec ids c c' tr tr' L :
  process_ok (Process c (L ⊎ list_to_set_disj ids) tr) → release ids c tr = (c', tr') →
  process_ok (Process c' L tr') ∧ registry c' = registry c ∧
  (∃ tr2, tr' = tr ++ tr2) ∧
  (∀ id, arc_value id (registrations c') = arc_value id (registrations c)).
Proof.
  revert c tr. induction ids as [|id ids IH]; intros c tr Hok Hr.
  { unfold release in Hr. simplify_eq/=. rewrite (right_id_L ∅ (⊎)) in Hok.
    split_and!; [by rewrite app_nil_r; destruct c|done|by eexists|done]. }
  assert (∃ c1 tr1, release [id] c tr = (c1, tr1) ∧ release ids c1 tr1 = (c', tr'))
    as (c1 & tr1 & H1 & H2).
  { unfold release in Hr |- *. cbn [arc_drop_all] in *.
    destruct (arc_drop id (registrations c)) as [h last].
    eexists _, _. split; [done|]. cbn [registrations registry].
    destruct (arc_drop_all ids h). simplify_eq. by rewrite app_nil_r, fmap_app, (assoc_L (++)). }
  simpl in Hok. rewrite (comm_L (⊎) {[+ id +]}), (assoc_L (⊎)) in Hok.
  pose proof (release_one_ok _ _ _ _ _ _ Hok H1) as Hok1.
  destruct (IH _ _ Hok1 H2) as (Hok2 & Hreg & [tr2 ->] & Hv).
  assert (registry c1 = registry c ∧ (∃ tr2, tr1 = tr ++ tr2) ∧
    ∀ i, arc_value i (registrations c1) = arc_value i (registrations c)) as (Hreg1 & [tr3 ->] & Hv1).
  { destruct Hok as [Ho _ _]. cbn [cached leases] in Ho. rewrite (assoc_L (⊎)) in Ho.
    pose proof (λ j, arc_drop_value id j _ _ Ho) as Hd.
    unfold release in H1. cbn [arc_drop_all] in H1.
    destruct (arc_drop id (registrations c)) as [h last]. simplify_eq/=. eauto. }
  split_and!; [done|congruence|by exists (tr3 ++ tr2); rewrite (assoc_L (++))|].
  intros i. by rewrite Hv, Hv1.
Qed.

Lemma trace_grows_refl (tr : trace) : ∃ tr2, tr = tr ++ tr2.
Proof. exists []. by rewrite app_nil_r. Qed.

Lemma trace_grows_trans (tr1 tr2 tr3 : trace) :
  (∃ t, tr2 = tr1 ++ t) → (∃ t, tr3 = tr2 ++ t) → ∃ t, tr3 = tr1 ++ t.
Proof. intros [t1 ->] [t2 ->]. exists (t1 ++ t2). by rewrite (assoc_L (++)). Qed.

#[local] Hint Resolve trace_grows_refl trace_grows_trans : vdma.

Lemma registration_new_ok mr c c' id L tr :
  cache_ok c L tr → registration_new mr c = (id, c') →
  cache_ok c' (L ⊎ {[+ id +]}) tr ∧ registry c' = registry c ∧
  arc_value id (registrations c') = Some mr.
Proof.
  intros [Hok Hex] E. pose proof (cache_step_ok _ _ (step_register _ _ _ _ L tr E) Hok) as Hok'.
  assert (c' = Cache (registry c) (arc_new mr (registrations c)).2 ∧
          id = fresh_id (registrations c)) as [-> ->]
    by (unfold registration_new in E; by simplify_eq/=).
  split_and!; [split; [done|]|done|].
  - intros d b e He. cbn [registry registrations] in *.
    destruct (Hex _ _ _ He) as (tr1 & tr2 & m & ? & ? & Hv).
    exists tr1, tr2, m. split_and!; [done|done|]. rewrite arc_new_value, decide_False; [done|].
    intros Heq. rewrite Heq in Hv. destruct Hok as [Ho _ _]. cbn in Ho.
    unfold arc_value in Hv. by rewrite (owns_fresh_None _ _ Ho) in Hv.
  - cbn [registrations]. by rewrite arc_new_value, decide_True.
Qed.

Lemma clone_cache_ok id c L tr :
  cache_ok c L tr → id ∈ registry_ids (registry c) ⊎ L →
  cache_ok (Cache (registry c) (arc_clone id (registrations c))) (L ⊎ {[+ id +]}) tr.
Proof.
  intros [Hok Hex] Hid. split; [by apply clone_process_ok|].
  intros d b e He. eapply registered_as_ext; [by apply Hex|eauto with vdma|].
  apply arc_clone_value.
Qed.

Lemma release_cache_ok ids c c' L tr tr' :
  cache_ok c (L ⊎ list_to_set_disj ids) tr → release ids c tr = (c', tr') →
  cache_ok c' L tr' ∧ registry c' = registry c ∧ (∃ tr2, tr' = tr ++ tr2) ∧
  (∀ i, arc_value i (registrations c') = arc_value i (registrations c)).
Proof.
  intros [Hok Hex] E. destruct (release_spec _ _ _ _ _ _ Hok E) as (Hok' & Hreg & Htr & Hv).
  split_and!; [|done|done|done]. split; [done|].
  intros d b e He. rewrite Hreg in He. eapply registered_as_ext; eauto.
Qed.

Lemma track_ok b l d id c c' L tr tr' :
  cache_ok c L tr → id ∈ L → registered_as tr (registrations c) id d b l →
  track b l d id c tr = (c', tr') →
  cache_ok c' L tr' ∧ (∃ tr2, tr' = tr ++ tr2) ∧
  (∀ i, arc_value i (registrations c') = arc_value i (registrations c)) ∧
  (∀ d' b', view (registry c') d' b' =
     if decide (d' = d ∧ b' = b) then Some {| re_end := l; registration := id |}
     else view (registry c) d' b').
Proof.
  intros [Hok Hex] Hid Hreg. unfold track.
  destruct (track_locked b l d id c) as [replaced c1] eqn:E. intros Er.
  pose proof (cache_step_ok _ _ (step_track _ _ _ _ _ _ _ _ tr Hid E) Hok) as Hok1.
  apply track_locked_spec in E as (Hh & _ & Hview & _).
  assert (∀ i, arc_value i (registrations c1) = arc_value i (registrations c)) as Hv1.
  { intros i. rewrite Hh. apply arc_clone_value. }
  assert (cache_ok c1 (L ⊎ list_to_set_disj replaced) tr) as Hc1.
  { split; [done|]. intros d' b' e He. rewrite Hview in He. case_decide as Hkey; simplify_eq/=.
    - destruct Hkey as [-> ->]. eapply registered_as_ext; eauto with vdma.
    - eapply registered_as_ext; eauto with vdma. }
  destruct (release_cache_ok _ _ _ _ _ _ Hc1 Er) as (Hc' & Hrg & Htr & Hv).
  split_and!; [done|done| |].
  - intros i. by rewrite Hv, Hv1.
  - intros. by rewrite Hrg, Hview.
Qed.

Lemma register_Ok d ptr length tr mr tr' :
  register d ptr length tr = (Ok mr, tr') →
  tr' = tr ++ [MrReg d ptr length] ∧ fi_mr_reg tr d ptr length = (0%Z, mr).
Proof.
  unfold register, check. destruct (fi_mr_reg tr d ptr length) as [code m] eqn:E.
  destruct (Z.eqb_spec 0 code) as [<-|]; simpl; intros; simplify_eq. done.
Qed.

(** A registration that [tr] records, for memory from [b] to [l]. *)
Definition just_registered (tr tr' : trace) (d b l mr : Z) : Prop :=
  (∃ tr2, tr' = tr ++ tr2) ∧
  ∃ tr1 tr2, tr' = tr1 ++ MrReg d b (l - b) :: tr2 ∧ fi_mr_reg tr1 d b (l - b) = (0%Z, mr).

Lemma register_span_Ok d start limit span tr b l mr tr' :
  register_span d start limit span tr = (Ok (b, l, mr), tr') →
  just_registered tr tr' d b l mr ∧
  (b = start ∧ l = limit ∨ ∃ s, span = Some s ∧ b = base s ∧ l = end_ s).
Proof.
  unfold register_span. intros H1.
  destruct (match span with Some s => (base s, end_ s) | None => (start, limit) end)
    as [b0 l0] eqn:Hbl.
  destruct (register d b0 (l0 - b0) tr) as [[mr0|err0] tr0] eqn:E.
  - simplify_eq. apply register_Ok in E as [-> Hr]. split.
    + split; [by eexists|]. by exists tr, [].
    + destruct span; simplify_eq; eauto.
  - case_decide; [|by simplify_eq].
    destruct (register d start (limit - start) tr0) as [[mr1|err1] tr1] eqn:E1; simplify_eq.
    apply register_Ok in E1 as [-> Hr]. split; [|by left].
    assert (tr0 = tr ++ [MrReg d b0 (l0 - b0)]) as ->.
    { unfold register in E. destruct (fi_mr_reg _ _ _ _). by simplify_eq. }
    split; [exists [MrReg d b0 (l0 - b0); MrReg d b (l - b)]; by rewrite <-(assoc_L (++))|].
    by exists (tr ++ [MrReg d b0 (l0 - b0)]), [].
Qed.

Lemma register_span_grows d start limit span tr r tr' :
  register_span d start limit span tr = (r, tr') → ∃ tr2, tr' = tr ++ tr2.
Proof.
  unfold register_span, register. destruct (match span with Some _ => _ | None => _ end).
  destruct (fi_mr_reg tr _ _ _) as [code mr]. unfold check.
  destruct (0 =? code)%Z; intros; simplify_eq; [by eexists|].
  case_decide; [|simplify_eq; by eexists].
  destruct (fi_mr_reg _ _ _ _) as [code' mr']. simplify_eq. eexists. by rewrite <-(assoc_L (++)).
Qed.

Lemma registered_as_new tr tr' d b l mr c id c' L :
  cache_ok c L tr' → just_registered tr tr' d b l mr →
  registration_new mr c = (id, c') → registered_as tr' (registrations c') id d b l.
Proof.
  intros Hc [_ (tr1 & tr2 & Htr & Hr)] E.
  destruct (registration_new_ok _ _ _ _ _ _ Hc E) as (_ & _ & Hv). by exists tr1, tr2, mr.
Qed.

Lemma cache_ok_grows c L tr tr' :
  cache_ok c L tr → (∃ tr2, tr' = tr ++ tr2 ∧ closes tr2 = []) → cache_ok c L tr'.
Proof.
  intros [[Ho Hd Hc] Hex] (tr2 & -> & Htr2). split; [split; [done|done|]|].
  - cbn in *. by rewrite closes_app, Htr2, app_nil_r.
  - intros d b e He. eapply registered_as_ext; [by apply Hex|by eexists|done].
Qed.

Lemma register_span_no_close d start limit span tr r tr' :
  register_span d start limit span tr = (r, tr') → ∃ tr2, tr' = tr ++ tr2 ∧ closes tr2 = [].
Proof.
  unfold register_span, register. destruct (match span with Some _ => _ | None => _ end).
  destruct (fi_mr_reg tr _ _ _) as [code mr]. unfold check.
  destruct (0 =? code)%Z; intros; simplify_eq; [by eexists|].
  case_decide; [|simplify_eq; by eexists].
  destruct (fi_mr_reg _ _ _ _) as [code' mr']. simplify_eq.
  eexists. rewrite <-(assoc_L (++)). split; [done|done].
Qed.

(** What one resolved operand owes and is owed. *)
Record operand_resolved (d start limit : Z) (op : LocalOperand) (c : cache) (L : gmultiset nat)
    (tr : trace) : Prop := {
  resolved : ∃ id b l mr, lease op = Some id ∧
    cache_ok c (L ⊎ {[+ id +]}) tr ∧
    arc_value id (registrations c) = Some mr ∧ descriptor op = fi_mr_desc mr ∧
    registered_as tr (registrations c) id d b l ∧ (b ≤ start)%Z ∧ (limit ≤ l)%Z;
}.

Lemma operand_hit d start limit c L tr id c' :
  cache_ok c L tr → covering start limit d c = (Some id, c') →
  operand_resolved d start limit
    {| descriptor := default 0%Z (fi_mr_desc <$> arc_value id (registrations c'));
       lease := Some id |} c' L tr ∧ registry c' = registry c.
Proof.
  intros Hc E. unfold covering in E.
  destruct (find_covering start limit d (registry c)) as [id'|] eqn:Hf; simplify_eq/=.
  split; [|done]. pose proof (find_covering_in_registry _ _ _ _ _ Hf) as Hin.
  apply find_covering_sound in Hf as (b & e & Hv & <- & Hb & He).
  pose proof (clone_cache_ok (registration e) c L tr Hc ltac:(multiset_solver)) as Hc'.
  pose proof (cache_extents _ _ _ Hc _ _ _ Hv) as (tr1 & tr2 & mr & Htr & Hr & Hval).
  constructor. exists (registration e), b, (re_end e), mr. simpl.
  rewrite arc_clone_value, Hval. split_and!; [done|done|done|done| |done|done].
  exists tr1, tr2, mr. by rewrite arc_clone_value.
Qed.

Lemma operand_miss_track d start limit span b l mr c L tr tr' id c1 c' tr'' :
  cache_ok c L tr' → just_registered tr tr' d b l mr →
  registration_new mr c = (id, c1) → (b ≤ start)%Z → (limit ≤ l)%Z →
  match span with Some _ => track b l d id c1 tr' | None => (c1, tr') end = (c', tr'') →
  operand_resolved d start limit
    {| descriptor := default 0%Z (fi_mr_desc <$> arc_value id (registrations c1));
       lease := Some id |} c' L tr'' ∧ (∃ t, tr'' = tr' ++ t) ∧
  (∀ d' b', view (registry c') d' b' =
     if decide (is_Some (span : option CacheableSpan) ∧ d' = d ∧ b' = b)
     then Some {| re_end := l; registration := id |} else view (registry c) d' b').
Proof.
  intros Hc Hj E Hb Hl Ht.
  destruct (registration_new_ok _ _ _ _ _ _ Hc E) as (Hc1 & Hreg & Hv).
  pose proof (registered_as_new _ _ _ _ _ _ _ _ _ _ Hc Hj E) as Hras. rewrite Hv.
  destruct span as [s|]; simplify_eq.
  - assert (id ∈ L ⊎ {[+ id +]}) as Hin by multiset_solver.
    destruct (track_ok _ _ _ _ _ _ _ _ _ Hc1 Hin Hras Ht)
      as (Hc2 & Hgrow & Hvals & Hview).
    split_and!; [|done|].
    + constructor. exists id, b, l, mr. rewrite Hvals, Hv.
      split_and!; [done|done|done|done| |done|done].
      eapply registered_as_ext; [apply Hras|done|apply Hvals].
    + intros d' b'. rewrite Hview, Hreg. repeat case_decide; naive_solver.
  - split_and!; [|eauto with vdma|].
    + constructor. exists id, b, l, mr. by split_and!.
    + intros d' b'. rewrite Hreg, decide_False; [done|]. intros [[? ?] _]; done.
Qed.

(** What [operand] does on each of its branches. *)
Lemma operand_cases d ptr length cacheable c L tr r c' tr' :
  cache_ok c L tr → operand d ptr length cacheable c tr = (r, c', tr') →
  match r with
  | Ok op =>
      operand_resolved d ptr (ptr + length) op c' L tr' ∧
      (∀ id c1, covering ptr (ptr + length) d c = (Some id, c1) →
         lease op = Some id ∧ c' = c1 ∧ tr' = tr) ∧
      (∀ d' b' e, view (registry c') d' b' = Some e →
         view (registry c) d' b' = Some e ∨
         ∃ s, cacheable = Some s ∧ d' = d ∧ (base s ≤ b')%Z ∧ (re_end e ≤ end_ s)%Z ∧
              (base s ≤ ptr)%Z ∧ (ptr + length ≤ end_ s)%Z)
  | Err _ => c' = c ∧ cache_ok c L tr'
  end ∧ ∃ t, tr' = tr ++ t.
Proof.
  intros Hc. unfold operand. destruct (checked_add ptr length) as [limit|] eqn:Hadd; cycle 1.
  { intros. simplify_eq. eauto with vdma. }
  apply checked_add_Some in Hadd as [-> _].
  destruct (covering ptr (ptr + length) d c) as [[id|] c0] eqn:Hcov.
  - intros. simplify_eq. destruct (operand_hit _ _ _ _ _ _ _ _ Hc Hcov) as [Hr Hreg].
    split; [|eauto with vdma]. split_and!; [done|naive_solver|]. rewrite Hreg. eauto.
  - assert (c0 = c) as -> by (unfold covering in Hcov; case_match; naive_solver).
    set (span := cacheable ≫= _).
    destruct (register_span d ptr (ptr + length) span tr) as [region tr1] eqn:Hs.
    pose proof (register_span_no_close _ _ _ _ _ _ _ Hs) as Hgrow.
    pose proof (cache_ok_grows _ _ _ _ Hc Hgrow) as Hc1.
    assert (∃ t, tr1 = tr ++ t) as Hg by (destruct Hgrow as (t & -> & _); by eexists).
    destruct region as [[[b l] mr]|error]; [|intros; by simplify_eq].
    destruct (registration_new mr c) as [id c2] eqn:Hn.
    destruct (match span with Some _ => _ | None => _ end) as [c3 tr3] eqn:Ht.
    intros. simplify_eq. apply register_span_Ok in Hs as [Hj Hbl].
    assert (∀ s, span = Some s → cacheable = Some s ∧ (base s ≤ ptr)%Z ∧ (ptr + length ≤ end_ s)%Z)
      as Hspan.
    { intros s. unfold span, contains. destruct cacheable as [s'|]; simpl; [|done].
      destruct (Z.leb_spec (base s') ptr), (Z.leb_spec (ptr + length) (end_ s')); naive_solver. }
    assert ((b ≤ ptr)%Z ∧ (ptr + length ≤ l)%Z) as [Hb Hl].
    { destruct Hbl as [[-> ->]|(s & Hs & -> & ->)]; [lia|]. apply Hspan in Hs. lia. }
    destruct (operand_miss_track d ptr (ptr + length) span b l mr c L tr tr1 id c2 c' tr'
                Hc1 Hj Hn Hb Hl Ht) as (Hres & Hg' & Hview).
    split; [|eauto with vdma]. split_and!; [done|naive_solver|].
    intros d' b' e. rewrite Hview. case_decide as Hkey; [|by left].
    intros [= <-]. destruct Hkey as ([s Hs] & -> & ->). right.
    destruct (Hspan _ Hs) as (-> & ? & ?). exists s. simpl.
    destruct Hbl as [[-> ->]|(s' & Hs' & -> & ->)]; [split_and!; done || lia|].
    simplify_eq. split_and!; done || lia.
Qed.

Lemma release_finalized ids c c' tr tr' L :
  process_ok (Process c (L ⊎ list_to_set_disj ids) tr) → release ids c tr = (c', tr') →
  ∃ more, finalized (registrations c') = finalized (registrations c) ++ more.
Proof.
  intros [Ho _ _]. cbn in Ho. unfold release. generalize (registrations c) Ho. clear Ho.
  intros h. rewrite (assoc_L (⊎)).
  destruct (arc_drop_all ids h) as [h' mrs] eqn:E. intros Ho [= <- <-]. simpl.
  revert h Ho h' mrs E. induction ids as [|id ids IH]; intros h Ho h' mrs E; simpl in *.
  { simplify_eq. exists []. by rewrite app_nil_r. }
  rewrite (comm_L (⊎) {[+ id +]}), (assoc_L (⊎)) in Ho.
  pose proof (arc_drop_owns _ _ _ Ho) as Ho1. pose proof (arc_drop_finalized _ _ _ Ho) as Hf.
  destruct (arc_drop id h) as [h1 last]; simpl in *.
  destruct (arc_drop_all ids h1) as [h2 rest] eqn:E2. simplify_eq.
  destruct (IH h1 Ho1 _ _ E2) as [more ->]. rewrite Hf, <-(assoc_L (++)). by eexists.
Qed.

(** A retired registration nobody else holds is closed by the drop that follows. *)
Lemma release_closes ids c c' L tr tr' id mr :
  process_ok (Process c (L ⊎ list_to_set_disj ids) tr) → release ids c tr = (c', tr') →
  id ∈ ids → id ∉ registry_ids (registry c) ⊎ L → arc_value id (registrations c) = Some mr →
  ∃ tr2, tr' = tr ++ tr2 ∧ mr ∈ closes tr2.
Proof.
  intros Hok E Hid Hnot Hmr.
  destruct (release_finalized _ _ _ _ _ _ Hok E) as [more Hfin].
  destruct (release_spec _ _ _ _ _ _ Hok E) as (Hok' & Hreg & [tr2 ->] & Hv).
  exists tr2. split; [done|].
  pose proof (ok_closes _ Hok) as Hc. pose proof (ok_closes _ Hok') as Hc'. cbn [cached calls] in Hc, Hc'.
  rewrite Hfin, closes_app, !fmap_app in Hc'.
  rewrite (list_fmap_ext _ (λ id, arc_value id (registrations c)) (finalized (registrations c)))
    in Hc' by (intros; apply Hv).
  rewrite Hc in Hc'. apply app_inv_head in Hc'.
  assert (id ∈ finalized (registrations c')) as Hin.
  { apply (owns_dead _ _ (ok_owns _ Hok')). cbn. split.
    - apply arc_value_is_Some. rewrite Hv, Hmr. by eexists.
    - rewrite (owns_count _ _ (ok_owns _ Hok')). cbn. rewrite Hreg.
      by apply not_elem_of_multiplicity. }
  rewrite Hfin in Hin. apply elem_of_app in Hin as [Hin|Hin].
  - exfalso. eapply (owns_live _ _ id (ok_owns _ Hok)); [|exact Hin]. cbn.
    apply gmultiset_elem_of_disj_union. right. apply gmultiset_elem_of_disj_union. right.
    by apply elem_of_list_to_set_disj.
  - assert (Some mr ∈ Some <$> closes tr2) as Hs.
    { rewrite Hc'. apply list_elem_of_fmap. exists id. by rewrite Hv. }
    apply list_elem_of_fmap in Hs as (? & [= <-] & ?). done.
Qed.

(** ** What resolving an operand promises *)

(** C17: A resolved operand can be posted.  Its descriptor is that of a registration
    that [fi_mr_reg] made on this endpoint's domain, for a range containing the whole
    operand; the operand holds a lease on it, accounted for in the cache's state, so
    it is open now and, by the interleaving theorem, until that lease is dropped. *)
Theorem operand_descriptor_registered d ptr length cacheable c L tr op c' tr'
  (Hc : cache_ok c L tr)
  (Hop : operand d ptr length cacheable c tr = (Ok op, c', tr')) :
  ∃ id b l mr, lease op = Some id ∧ descriptor op = fi_mr_desc mr ∧
    registered_as tr' (registrations c') id d b l ∧ (b ≤ ptr ∧ ptr + length ≤ l)%Z ∧
    arc_value id (registrations c') = Some mr ∧ ¬ id ∈ finalized (registrations c') ∧
    cache_ok c' (L ⊎ {[+ id +]}) tr'.
Proof.
  destruct (operand_cases _ _ _ _ _ _ _ _ _ _ Hc Hop) as [([(id & b & l & mr & H1)] & _ & _) _].
  destruct H1 as (? & Hc' & ? & ? & ? & ? & ?). exists id, b, l, mr. split_and!; try done.
  eapply owns_live; [apply Hc'|]. cbn. multiset_solver.
Qed.

(** Only what the caller promised to report is cached.  Resolving an operand adds
    at most extents inside the span the caller offered for it, and only when that span
    contains the operand; with no span, or on an error, the cache is as before, and a
    cache hit makes no call and changes no entry whatever span is offered. *)
Lemma operand_caches_only_promised d ptr length cacheable c L tr r c' tr'
  (Hc : cache_ok c L tr)
  (Hop : operand d ptr length cacheable c tr = (r, c', tr')) :
  (∀ d' b' e, view (registry c') d' b' = Some e →
     view (registry c) d' b' = Some e ∨
     ∃ s, cacheable = Some s ∧ d' = d ∧ (base s ≤ b')%Z ∧ (re_end e ≤ end_ s)%Z ∧
          (base s ≤ ptr)%Z ∧ (ptr + length ≤ end_ s)%Z) ∧
  (is_ok r = false → c' = c) ∧
  (∀ id c1, is_ok r = true → covering ptr (ptr + length) d c = (Some id, c1) →
     c' = c1 ∧ registry c1 = registry c ∧ tr' = tr).
Proof.
  destruct (operand_cases _ _ _ _ _ _ _ _ _ _ Hc Hop) as [Hr _].
  destruct r as [op|error]; simpl.
  - destruct Hr as (_ & Hhit & Hview). split_and!; [done|done|].
    intros id c1 _ Hcov. destruct (Hhit _ _ Hcov) as (_ & -> & ->). split_and!; [done| |done].
    unfold covering in Hcov. case_match; by simplify_eq.
  - destruct Hr as [-> _]. split_and!; [by left|done|done].
Qed.

(** What [pin] leaves behind: one more extent, over the pinned span. *)
Lemma pin_ok d b length c L tr c1 tr1 :
  cache_ok c L tr → pin d b length c tr = (Ok (), c1, tr1) →
  cache_ok c1 L tr1 ∧
  ∃ e, re_end e = (b + length)%Z ∧
    ∀ d' b', view (registry c1) d' b' =
      if decide (d' = d ∧ b' = b) then Some e else view (registry c) d' b'.
Proof.
  intros Hc Hpin. unfold pin in Hpin. destruct (checked_add b length) as [limit|] eqn:Hadd; [|by simplify_eq].
  apply checked_add_Some in Hadd as [-> _].
  destruct (register d b length tr) as [[mr|] tr0] eqn:Hr; [|by simplify_eq].
  apply register_Ok in Hr as [-> Hr].
  destruct (registration_new mr c) as [id c0] eqn:Hn0.
  destruct (track b (b + length) d id c0 _) as [ct trt] eqn:Ht.
  destruct (release [id] ct trt) as [cr trr] eqn:Hrel. simplify_eq.
  assert (cache_ok c L (tr ++ [MrReg d b length])) as Hc0.
  { eapply cache_ok_grows; [done|]. by eexists. }
  assert (just_registered tr (tr ++ [MrReg d b length]) d b (b + length) mr) as Hj.
  { replace length with (b + length - b)%Z at 1 by lia. split; [by eexists|].
    exists tr, []. by replace (b + length - b)%Z with length by lia. }
  destruct (registration_new_ok _ _ _ _ _ _ Hc0 Hn0) as (Hc1 & Hreg & Hv).
  pose proof (registered_as_new _ _ _ _ _ _ _ _ _ _ Hc0 Hj Hn0) as Hras.
  assert (id ∈ L ⊎ {[+ id +]}) as Hid by multiset_solver.
  destruct (track_ok _ _ _ _ _ _ _ _ _ Hc1 Hid Hras Ht) as (Hc2 & _ & _ & Hview).
  assert (cache_ok ct (L ⊎ list_to_set_disj [id]) trt) as Hc2'.
  { simpl. by rewrite (right_id_L ∅ (⊎)). }
  destruct (release_cache_ok _ _ _ _ _ _ Hc2' Hrel) as (Hc3 & Hreg3 & _ & _).
  split; [done|]. exists {| re_end := b + length; registration := id |}. split; [done|].
  intros d' b'. by rewrite Hreg3, Hview, Hreg.
Qed.

(** What [clear] leaves: nothing of its domain, and everything else. *)
Lemma clear_cache_ok d c L tr c' tr' :
  cache_ok c L tr → clear d c tr = (c', tr') →
  cache_ok c' L tr' ∧ (∃ mrs, tr' = tr ++ (MrClose <$> mrs)) ∧
  ∀ d' b, view (registry c') d' b = if decide (d' = d) then None else view (registry c) d' b.
Proof.
  intros Hc Hcl. unfold clear, clear_domain in Hcl.
  destruct (clear_domain_locked d c) as [retired c1] eqn:E1.
  apply clear_domain_locked_spec in E1 as (Hr & Hids & Hview & Hd); [|apply Hc].
  assert (cache_ok c1 (L ⊎ list_to_set_disj retired) tr) as Hc1.
  { destruct Hc as [[Ho _ Hcl'] Hex]. split; [split; cbn in *|].
    - rewrite Hr. rewrite Hids in Ho. by replace (registry_ids (registry c1) ⊎ (L ⊎ list_to_set_disj retired))
        with (registry_ids (registry c1) ⊎ list_to_set_disj retired ⊎ L) by multiset_solver.
    - done.
    - by rewrite Hr.
    - intros d' b e He. rewrite Hview in He. case_decide; [done|]. apply Hex in He. by rewrite Hr. }
  destruct (release_cache_ok _ _ _ _ _ _ Hc1 Hcl) as (Hc' & Hreg & _ & _).
  split; [done|]. split; [|by rewrite Hreg].
  unfold release in Hcl. destruct (arc_drop_all _ _) as [h gone]. simplify_eq. by exists gone.
Qed.

(** What [invalidate] leaves: every extent that does not overlap the range. *)
Lemma invalidate_cache_ok start limit c L tr c' tr' :
  cache_ok c L tr → invalidate start limit c tr = (c', tr') →
  cache_ok c' L tr' ∧ (∃ mrs, tr' = tr ++ (MrClose <$> mrs)) ∧
  ∀ d b e, view (registry c') d b = Some e ↔
    view (registry c) d b = Some e ∧ ¬ overlaps start limit (b, e).
Proof.
  intros Hc. unfold invalidate. destruct (invalidate_locked start limit c) as [retired c1] eqn:E1.
  apply invalidate_locked_spec in E1 as (Hr & Hids & Hview & Hd). intros Hrel.
  assert (∀ d b e, view (registry c1) d b = Some e ↔
    view (registry c) d b = Some e ∧ ¬ overlaps start limit (b, e)) as Hv.
  { intros d b e. rewrite Hview, bind_Some. split.
    - intros (e' & He & Hx). case_decide; by simplify_eq.
    - intros [He Hn]. exists e. split; [done|]. by rewrite decide_False. }
  assert (cache_ok c1 (L ⊎ list_to_set_disj retired) tr) as Hc1.
  { destruct Hc as [[Ho Hdd Hcl'] Hex]. split; [split; cbn in *|].
    - rewrite Hr. rewrite Hids in Ho. by replace (registry_ids (registry c1) ⊎ (L ⊎ list_to_set_disj retired))
        with (registry_ids (registry c1) ⊎ list_to_set_disj retired ⊎ L) by multiset_solver.
    - by apply Hd.
    - by rewrite Hr.
    - intros d' b e [He _]%Hv. rewrite Hr. by apply Hex. }
  destruct (release_cache_ok _ _ _ _ _ _ Hc1 Hrel) as (Hc' & Hreg & _ & _).
  split; [done|]. split; [|by rewrite Hreg].
  unfold release in Hrel. destruct (arc_drop_all _ _) as [h gone]. simplify_eq. by exists gone.
Qed.

(** An operand inside a cached extent that none starts later in is served by it. *)
Lemma operand_served d b e ptr n cacheable c tr :
  view (registry c) d b = Some e → (b ≤ ptr)%Z → (ptr + n ≤ re_end e)%Z → (ptr + n < u64_end)%Z →
  (∀ b' e', view (registry c) d b' = Some e' → (b < b' ≤ ptr)%Z → False) →
  ∃ op c2, operand d ptr n cacheable c tr = (Ok op, c2, tr) ∧ lease op = Some (registration e).
Proof.
  intros Hv Hb He Hn Hshadow. unfold operand.
  rewrite (proj2 (checked_add_Some ptr n (ptr + n)%Z)) by done.
  unfold covering. rewrite (find_covering_complete _ d ptr (ptr + n) b e); [eauto|done..|].
  intros b' e' Hv'. specialize (Hshadow _ _ Hv'). lia.
Qed.

(** A pinned region serves the operands inside it.  Once [pin] succeeds, an
    operand inside the span resolves to the pinned registration with no further
    [fi_mr_reg] and without consulting the caller's span, unless a cached extent of
    the same domain starts between the pinned base and the operand. *)
Lemma pinned_span_serves_operands d b length c L tr c1 tr1 ptr n cacheable
  (Hc : cache_ok c L tr)
  (Hpin : pin d b length c tr = (Ok (), c1, tr1))
  (Hin : (b ≤ ptr)%Z ∧ (ptr + n ≤ b + length)%Z)
  (Hn : (ptr + n < u64_end)%Z)
  (Hshadow : ∀ b' e, view (registry c) d b' = Some e → (b < b' ≤ ptr)%Z → False) :
  cache_ok c1 L tr1 ∧
  ∃ e op c2, view (registry c1) d b = Some e ∧ re_end e = (b + length)%Z ∧
    operand d ptr n cacheable c1 tr1 = (Ok op, c2, tr1) ∧ lease op = Some (registration e).
Proof.
  destruct (pin_ok _ _ _ _ _ _ _ _ Hc Hpin) as (Hc1 & e & He & Hview).
  assert (view (registry c1) d b = Some e) as Hv by (by rewrite Hview, decide_True).
  destruct (operand_served d b e ptr n cacheable c1 tr1 Hv) as (op & c2 & Hop & Hl);
    [lia|rewrite He; lia|done| |by eauto 10].
  intros b' e' Hv' Hb'. rewrite Hview, decide_False in Hv' by lia. by eapply Hshadow.
Qed.

(** Dropping a [MemoryRegion] deregisters before it frees.  While another clone
    lives nothing happens; with the last one every cached extent overlapping the span
    leaves the cache, each of their registrations that nothing else holds is closed,
    and only then is the storage freed. *)
Lemma memory_region_drop_order i h c L tr h' c' actions
  (Hc : process_ok (Process c L tr))
  (Hdrop : memory_region_drop i h c tr = (h', c', actions)) :
  match (arc_drop i h).2 with
  | None => c' = c ∧ actions = []
  | Some region =>
      ∃ calls, actions = [FabricCalls calls; FreeStorage (storage region)] ∧
        process_ok (Process c' L (tr ++ calls)) ∧
        (∀ d b e, view (registry c') d b = Some e → ¬ overlaps (r_base region) (r_end region) (b, e)) ∧
        (∀ d b e mr, view (registry c) d b = Some e →
           overlaps (r_base region) (r_end region) (b, e) →
           registration e ∉ registry_ids (registry c') ⊎ L →
           arc_value (registration e) (registrations c) = Some mr → mr ∈ closes calls)
  end.
Proof.
  unfold memory_region_drop in Hdrop. destruct (arc_drop i h) as [h1 [region|]]; simpl; [|by simplify_eq].
  unfold invalidate in Hdrop. destruct (invalidate_locked _ _ c) as [retired c1] eqn:Hi.
  destruct (release retired c1 tr) as [c2 tr2] eqn:Hr. simplify_eq.
  pose proof (cache_step_ok _ _ (step_invalidate _ _ _ _ _ L tr Hi) Hc) as Hok1.
  apply invalidate_locked_spec in Hi as (Hh & Hids & Hview & _).
  destruct (release_spec _ _ _ _ _ _ Hok1 Hr) as (Hok2 & Hreg & [calls ->] & _).
  exists calls. rewrite drop_app_length. split_and!; [done|done| |].
  - intros d b e. rewrite Hreg, Hview. intros (e' & _ & He)%bind_Some.
    case_decide; by simplify_eq.
  - intros d b e mr He Hov Hnot Hmr. rewrite Hreg in Hnot.
    assert (registration e ∈ retired) as Hin.
    { pose proof (registry_live _ _ _ _ _ _ Hc He) as Hlive. rewrite Hids in Hlive.
      apply gmultiset_elem_of_disj_union in Hlive as [?|Hlive]; [multiset_solver|].
      by apply elem_of_list_to_set_disj in Hlive. }
    destruct (release_closes _ _ _ _ _ _ _ mr Hok1 Hr Hin Hnot) as (tr2 & Heq & ?).
    { by rewrite Hh. }
    by apply app_inv_head in Heq as ->.
Qed.

End local_regions.

(** ** Witnesses *)

Lemma empty_cache_ok `{Libfabric} : cache_ok empty_cache ∅ [].
Proof. split; [apply start_process_ok|]. by intros d b e. Qed.

Lemma operand_descriptor_registered_witness :
  ∃ op c' tr', @operand example_libfabric 7 5000 1000 (span_new 4096 4096) empty_cache [] =
                 (Ok op, c', tr') ∧ lease op = Some 0 ∧ descriptor op = 1%Z.
Proof.
  eexists _, _, _. split; [by vm_compute|].
  edestruct (@operand_descriptor_registered example_libfabric 7 5000 1000 (span_new 4096 4096)
    empty_cache ∅ []) as (id & b & l & mr & Hl & Hd & _); [apply empty_cache_ok|by vm_compute|].
  split; [|reflexivity]. reflexivity.
Defined.
