(* ===== verification/PeerAddresses.v ===== *)
(** * The address vector entries of an endpoint

    [peer_addresses.rs]: clients that advertise one address share one entry of the
    address vector; the entry leaves the vector with its last holder.  The index
    [by_address] is keyed by what identifies the endpoint slot and holds [Weak]
    references only.  [av_slots] is the specification: what the calls made so far put
    in the vector, defined only for histories that respect libfabric's contract. *)

From S2P Require Import Prelude Arc Wire Fabric.

Definition MINIMUM_SWEEP : nat := 64.
Definition EFA_ADDRESS_LEN : nat := 32.
Definition EFA_IDENTITY_LEN : nat := 18.

Inductive AddressFormat : Type := Efa | Opaque.

(** [AddressFormat::identity_len] *)
Definition identity_len (format : AddressFormat) (bytes : list u8) : result nat DmaError :=
  match format with
  | Efa =>
      if decide (EFA_ADDRESS_LEN = length bytes) then Ok EFA_IDENTITY_LEN
      else Err (Fabric ("efa address is " +:+ pretty (Z.of_nat (length bytes)) +:+
                        " bytes, not " +:+ pretty (Z.of_nat EFA_ADDRESS_LEN)))
  | Opaque => Ok (length bytes)
  end.

Record PeerAddress := { pa_bytes : list u8; pa_identity_len : nat }.

(** [PeerAddress::new] *)
Definition peer_address_new (format : AddressFormat) (bytes : list u8) :
    result PeerAddress DmaError :=
  let? n := identity_len format bytes in Ok {| pa_bytes := bytes; pa_identity_len := n |}.

(** [PeerAddress::identity], what equality, hashing and lookups go by. *)
Definition identity (a : PeerAddress) : list u8 := take (pa_identity_len a) (pa_bytes a).

(** [struct RegisteredAddress], the value behind each [Arc]. *)
Record RegisteredAddress := { entry_vector : Z; peer : Z }.

(** [struct PeerAddresses], with the entries its [Arc]s and [Weak]s point to.  The index is
    keyed by [identity], as [Borrow], [Eq] and [Hash] make it. *)
Record PeerAddresses := {
  address_vector : Z;
  format : AddressFormat;
  by_address : gmap (list u8) (PeerAddress * nat);
  by_client : gmap Z nat;
  sweep_at : nat;
  entries : heap RegisteredAddress;
}.

(** [PeerAddresses::new] *)
Definition peers_new (av : Z) (format : AddressFormat) : PeerAddresses :=
  {| address_vector := av; format := format; by_address := ∅; by_client := ∅;
     sweep_at := MINIMUM_SWEEP; entries := empty_heap |}.

Definition with_entries (h : heap RegisteredAddress) (p : PeerAddresses) : PeerAddresses :=
  {| address_vector := address_vector p; format := format p; by_address := by_address p;
     by_client := by_client p; sweep_at := sweep_at p; entries := h |}.
Definition with_by_client (m : gmap Z nat) (p : PeerAddresses) : PeerAddresses :=
  {| address_vector := address_vector p; format := format p; by_address := by_address p;
     by_client := m; sweep_at := sweep_at p; entries := entries p |}.
Definition with_by_address (m : gmap (list u8) (PeerAddress * nat)) (p : PeerAddresses) :
    PeerAddresses :=
  {| address_vector := address_vector p; format := format p; by_address := m;
     by_client := by_client p; sweep_at := sweep_at p; entries := entries p |}.
Definition with_sweep_at (n : nat) (p : PeerAddresses) : PeerAddresses :=
  {| address_vector := address_vector p; format := format p; by_address := by_address p;
     by_client := by_client p; sweep_at := n; entries := entries p |}.

(** [impl Drop for RegisteredAddress], for each entry of [ids] dropped last. *)
Definition drop_entries (ids : list nat) (p : PeerAddresses) (tr : trace) : PeerAddresses * trace :=
  let '(h, last) := arc_drop_all ids (entries p) in
  (with_entries h p, tr ++ ((λ r, AvRemove (entry_vector r) (peer r)) <$> last)).

(** [HashMap::insert] of a client's [Arc]; the one it replaces is dropped. *)
Definition client_insert (client : Z) (i : nat) (p : PeerAddresses) (tr : trace) :
    PeerAddresses * trace :=
  let replaced := option_list (by_client p !! client) in
  drop_entries replaced (with_by_client (<[client := i]> (by_client p)) p) tr.

Definition client_remove (client : Z) (p : PeerAddresses) (tr : trace) : PeerAddresses * trace :=
  let removed := option_list (by_client p !! client) in
  drop_entries removed (with_by_client (delete client (by_client p)) p) tr.

(** What is held for a slot: whether it is this very address, and a new [Arc] to it. *)
Definition held_for (slot address : list u8) (p : PeerAddresses) : option (bool * nat * PeerAddresses) :=
  '(known, weak) ← by_address p !! slot;
  '(i, h) ← weak_upgrade weak (entries p);
  Some (bool_decide (pa_bytes known = address), i, with_entries h p).

(** Every client of a superseded entry lets go of it, and the last [Arc] with them.
    The map's order is unspecified, and no call depends on it: these are all clones
    of one entry. *)
Definition evict (stale : nat) (p : PeerAddresses) (tr : trace) : PeerAddresses * trace :=
  let evicted := (map_to_list (filter (λ '(_, i), ¬ i ≠ stale) (by_client p))).*2 in
  drop_entries (evicted ++ [stale])
    (with_by_client (filter (λ '(_, i), i ≠ stale) (by_client p)) p) tr.

(** [PeerAddresses::sweep] *)
Definition sweep (p : PeerAddresses) : PeerAddresses :=
  if size (by_address p) <? sweep_at p then p
  else
    let p := with_by_address
      (filter (λ '(_, (_, weak)), 0 < strong_count weak (entries p)) (by_address p)) p in
    with_sweep_at (MINIMUM_SWEEP `max` (size (by_address p) * 2)) p.

Section peers.
  Context `{Libfabric}.

Definition from_fi (addr_format : Z) : AddressFormat :=
  if (FI_ADDR_EFA =? addr_format)%Z then Efa else Opaque.

(** [PeerAddresses::insert] *)
Definition insert (p : PeerAddresses) (address : list u8) (tr : trace) : result Z DmaError * trace :=
  let '(inserted, handle) := fi_av_insert tr (address_vector p) address in
  (if (1 =? inserted)%Z then Ok handle
   else Err (Fabric ("fi_av_insert inserted " +:+ pretty inserted +:+ " of 1 addresses")),
   tr ++ [AvInsert (address_vector p) address]).

(** The rest of [handle], where nothing held could be shared. *)
Definition handle_insert (client : Z) (slot address : list u8) (p : PeerAddresses) (tr : trace) :
    result nat DmaError * PeerAddresses * trace :=
  let '(p, tr) := client_remove client p tr in
  let p := with_by_address (delete slot (by_address p)) p in
  match peer_address_new (format p) address with
  | Err error => (Err error, p, tr)
  | Ok key =>
      let '(inserted, tr) := insert p (pa_bytes key) tr in
      match inserted with
      | Err error => (Err error, p, tr)
      | Ok handle =>
          let '(i, h) := arc_new {| entry_vector := address_vector p; peer := handle |} (entries p) in
          let p := sweep (with_entries h p) in
          let p := with_by_address (<[identity key := (key, i)]> (by_address p)) p in
          let '(p, tr) := client_insert client i (with_entries (arc_clone i (entries p)) p) tr in
          (Ok i, p, tr)
      end
  end.

(** [PeerAddresses::handle] *)
Definition handle (client : Z) (address : list u8) (p : PeerAddresses) (tr : trace) :
    result nat DmaError * PeerAddresses * trace :=
  match identity_len (format p) address with
  | Err error => (Err error, p, tr)
  | Ok n =>
      let slot := take n address in
      match held_for slot address p with
      | Some (true, i, p) =>
          let '(p, tr) := client_insert client i (with_entries (arc_clone i (entries p)) p) tr in
          (Ok i, p, tr)
      | Some (false, stale, p) =>
          let '(p, tr) := evict stale p tr in handle_insert client slot address p tr
      | None => handle_insert client slot address p tr
      end
  end.

(** [PeerAddresses::release] *)
Definition release (client : Z) (p : PeerAddresses) (tr : trace) : PeerAddresses * trace :=
  client_remove client p tr.

(** [PeerAddresses::clear], in some order of the map. *)
Definition clear (p : PeerAddresses) (tr : trace) : PeerAddresses * trace :=
  let '(q, tr) := drop_entries (map_to_list (by_client p)).*2 (with_by_client ∅ p) tr in
  (with_by_address ∅ q, tr).

(** ** The vector the calls describe *)

(** The bytes that name an address's endpoint slot. *)
Definition slot_of (format : AddressFormat) (address : list u8) : list u8 :=
  match format with Efa => take EFA_IDENTITY_LEN address | Opaque => address end.

Definition slot_free (format : AddressFormat) (address : list u8) (slots : gmap Z (list u8)) : Prop :=
  ∀ h a, slots !! h = Some a → slot_of format a ≠ slot_of format address.

Definition other_call (av : Z) (call : fabric_call) : Prop :=
  match call with
  | AvInsert av' _ | AvRemove av' _ => av' ≠ av
  | Close object => object ≠ av
  | _ => True
  end.

Inductive av_slots (av : Z) (format : AddressFormat) : trace → gmap Z (list u8) → Prop :=
  | av_opened : av_slots av format [] ∅
  | av_other tr call slots :
      av_slots av format tr slots → other_call av call →
      av_slots av format (tr ++ [call]) slots
  | av_refused tr address slots :
      av_slots av format tr slots → (fi_av_insert tr av address).1 ≠ 1%Z →
      av_slots av format (tr ++ [AvInsert av address]) slots
  | av_inserted tr address h slots :
      av_slots av format tr slots → fi_av_insert tr av address = (1%Z, h) →
      slots !! h = None → slot_free format address slots →
      av_slots av format (tr ++ [AvInsert av address]) (<[h := address]> slots)
  | av_removed tr h slots :
      av_slots av format tr slots → is_Some (slots !! h) →
      av_slots av format (tr ++ [AvRemove av h]) (delete h slots).

End peers.

(** What libfabric promises of a vector: the handle of a newly inserted endpoint is
    not that of an entry still in it. *)
Class AddressVectorLaws `{Libfabric} (format : AddressFormat) : Prop := {
  fresh_handle av tr slots address h :
    av_slots av format tr slots → slot_free format address slots →
    fi_av_insert tr av address = (1%Z, h) → slots !! h = None;
}.

(** ** The invariant *)

Section invariant.
  Context `{Libfabric}.

(** The slots of the vector are those of the held entries, at the address each was
    indexed under. *)
Definition in_vector (p : PeerAddresses) (X : gmultiset nat) (slots : gmap Z (list u8)) : Prop :=
  ∀ h a, slots !! h = Some a ↔
    ∃ i k known, i ∈ X ∧ by_address p !! k = Some (known, i) ∧ pa_bytes known = a ∧
      arc_value i (entries p) = Some {| entry_vector := address_vector p; peer := h |}.

(** [X]: every outstanding [Arc], in [by_client] or elsewhere. *)
Record entries_ok (p : PeerAddresses) (X : gmultiset nat) (tr : trace) : Prop := {
  eo_owns : owns (entries p) X;
  eo_index k known i : by_address p !! k = Some (known, i) →
    identity known = k ∧ slot_of (format p) (pa_bytes known) = k ∧
    is_Some (cells (entries p) !! i);
  eo_inj k1 k2 known1 known2 i :
    by_address p !! k1 = Some (known1, i) → by_address p !! k2 = Some (known2, i) → k1 = k2;
  eo_indexed i : i ∈ X → ∃ k known, by_address p !! k = Some (known, i);
  eo_vector i v : i ∈ X → arc_value i (entries p) = Some v → entry_vector v = address_vector p;
  eo_distinct i j v : i ∈ X → j ∈ X →
    arc_value i (entries p) = Some v → arc_value j (entries p) = Some v → i = j;
  eo_slots : ∃ slots, av_slots (address_vector p) (format p) tr slots ∧ in_vector p X slots;
}.

Record peers_ok (p : PeerAddresses) (L : gmultiset nat) (tr : trace) : Prop := {
  po_entries : entries_ok p (held_ids id (by_client p) ⊎ L) tr;
  po_sweep : size (by_address p) ≤ sweep_at p;
  po_minimum : MINIMUM_SWEEP ≤ sweep_at p;
}.

Lemma peers_new_ok av fmt : peers_ok (peers_new av fmt) ∅ [].
Proof.
  split; [|cbn; rewrite map_size_empty; lia|done].
  cbn. rewrite held_ids_empty, (left_id_L ∅ (⊎)). split; cbn.
  - apply empty_owns.
  - intros ???. by rewrite lookup_empty.
  - intros ?????. by rewrite lookup_empty.
  - multiset_solver.
  - multiset_solver.
  - multiset_solver.
  - exists ∅. split; [constructor|]. intros h a. rewrite lookup_empty.
    split; [done|]. intros (i & _ & _ & Hi & _). multiset_solver.
Qed.

Lemma entries_ok_eq p X Y tr : X = Y → entries_ok p X tr → entries_ok p Y tr.
Proof. by intros ->. Qed.

Lemma entries_ok_by_client p m X tr : entries_ok p X tr → entries_ok (with_by_client m p) X tr.
Proof. intros []; by split. Qed.

Lemma entries_ok_sweep_at p n X tr : entries_ok p X tr → entries_ok (with_sweep_at n p) X tr.
Proof. intros []; by split. Qed.

(** Nothing but the entries' counts and the history changes. *)
Lemma drop_entries_fields ids p tr p' tr' :
  drop_entries ids p tr = (p', tr') →
  address_vector p' = address_vector p ∧ format p' = format p ∧ by_address p' = by_address p ∧
  by_client p' = by_client p ∧ sweep_at p' = sweep_at p.
Proof. unfold drop_entries. destruct (arc_drop_all _ _). intros; by simplify_eq. Qed.

Lemma drop_entries_cons i ids p tr :
  drop_entries (i :: ids) p tr =
  let '(p, tr) := drop_entries [i] p tr in drop_entries ids p tr.
Proof.
  unfold drop_entries. simpl. destruct (arc_drop i (entries p)) as [h last]. simpl.
  destruct (arc_drop_all ids h) as [h' rest].
  destruct last; simpl; by rewrite ?app_nil_r, <-?(assoc_L (++)).
Qed.

Lemma drop_entry_ok i p X tr p' tr' :
  entries_ok p (X ⊎ {[+ i +]}) tr → drop_entries [i] p tr = (p', tr') → entries_ok p' X tr'.
Proof.
  intros Hok. unfold drop_entries. simpl.
  pose proof (eo_owns _ _ _ Hok) as Ho. pose proof (arc_drop_last _ _ _ Ho) as Hl.
  pose proof (arc_drop_owns _ _ _ Ho) as Ho'.
  pose proof (λ j, arc_drop_value i j _ _ Ho) as Hv.
  destruct (arc_drop i (entries p)) as [h last]. simpl in *. subst last. intros ?; simplify_eq.
  assert (∀ j, j ∈ X → j ∈ X ⊎ {[+ i +]}) as Hsub by (intros; multiset_solver).
  destruct (eo_slots _ _ _ Hok) as (slots & Hslots & Hin).
  split; cbn.
  - done.
  - intros k known j Hk. destruct (eo_index _ _ _ Hok _ _ _ Hk) as (? & ? & ?).
    split_and!; [done..|]. by rewrite arc_value_is_Some, Hv, <-arc_value_is_Some.
  - apply (eo_inj _ _ _ Hok).
  - intros j Hj. apply (eo_indexed _ _ _ Hok), Hsub, Hj.
  - intros j v Hj. rewrite Hv. apply (eo_vector _ _ _ Hok), Hsub, Hj.
  - intros j j' v Hj Hj'. rewrite !Hv. apply (eo_distinct _ _ _ Hok); auto.
  - destruct (decide (i ∈ X)) as [Hi|Hi].
    { simpl. rewrite app_nil_r. exists slots. split; [done|]. intros hh a. rewrite (Hin hh a). cbn.
      setoid_rewrite Hv. split; intros (j & k & known & Hj & Hr); exists j, k, known; [|set_solver].
      split; [|done]. rewrite gmultiset_elem_of_disj_union, gmultiset_elem_of_singleton in Hj.
      naive_solver. }
    assert (i ∈ X ⊎ {[+ i +]}) as Hi' by multiset_solver.
    destruct (owns_value _ _ _ Ho Hi') as [[av ph] Hval]. rewrite Hval. simpl.
    pose proof (eo_vector _ _ _ Hok _ _ Hi' Hval) as Hav. simpl in Hav. subst av.
    destruct (eo_indexed _ _ _ Hok _ Hi') as (k & known & Hk).
    exists (delete ph slots). split.
    { constructor; [done|]. exists (pa_bytes known). apply Hin. eauto 10. }
    intros hh a. rewrite lookup_delete_Some, (Hin hh a). cbn. setoid_rewrite Hv. split.
    + intros (Hne & j & k' & known' & Hj & Hk' & Ha & Hjv). exists j, k', known'.
      split_and!; try done. rewrite gmultiset_elem_of_disj_union, gmultiset_elem_of_singleton in Hj.
      destruct Hj as [|<-]; [done|]. congruence.
    + intros (j & k' & known' & Hj & Hk' & Ha & Hjv). split; [|eauto 10].
      intros ->. assert (j = i) as -> by (eapply (eo_distinct _ _ _ Hok); eauto). done.
Qed.

Lemma drop_entries_ok ids p X tr p' tr' :
  entries_ok p (X ⊎ list_to_set_disj ids) tr → drop_entries ids p tr = (p', tr') →
  entries_ok p' X tr'.
Proof.
  revert p tr. induction ids as [|i ids IH]; intros p tr Hok.
  { unfold drop_entries. simpl. intros ?; simplify_eq. rewrite app_nil_r.
    simpl in Hok. rewrite (right_id_L ∅ (⊎)) in Hok. by destruct p. }
  rewrite drop_entries_cons. destruct (drop_entries [i] p tr) as [p1 tr1] eqn:E.
  apply IH. eapply drop_entry_ok; [|done]. eapply entries_ok_eq; [|done]. simpl. multiset_solver.
Qed.

(** Dropping an [Arc] that is not the last of its entry removes nothing. *)
Lemma drop_held_silent i p X tr p' tr' :
  entries_ok p (X ⊎ {[+ i +]}) tr → i ∈ X → drop_entries [i] p tr = (p', tr') → tr' = tr.
Proof.
  intros Hok Hi. unfold drop_entries. simpl.
  pose proof (arc_drop_last _ _ _ (eo_owns _ _ _ Hok)) as Hl.
  destruct (arc_drop i (entries p)) as [h last]. simpl in *. rewrite decide_True in Hl by done.
  subst. intros ?; simplify_eq/=. by rewrite app_nil_r.
Qed.

Lemma clone_ok i p X tr :
  entries_ok p X tr → i ∈ X →
  entries_ok (with_entries (arc_clone i (entries p)) p) (X ⊎ {[+ i +]}) tr.
Proof.
  intros Hok Hi. destruct (eo_slots _ _ _ Hok) as (slots & Hslots & Hin).
  assert (∀ j, j ∈ X ⊎ {[+ i +]} ↔ j ∈ X) as Heq.
  { intros j. rewrite gmultiset_elem_of_disj_union, gmultiset_elem_of_singleton. naive_solver. }
  split; cbn [entries by_address address_vector format with_entries].
  - apply arc_clone_owns; [apply Hok|done].
  - setoid_rewrite arc_clone_is_Some. apply Hok.
  - apply Hok.
  - intros j Hj%Heq. by apply Hok.
  - intros j v Hj%Heq. rewrite arc_clone_value. by apply Hok.
  - intros j j' v Hj%Heq Hj'%Heq. rewrite !arc_clone_value. by apply Hok.
  - exists slots. split; [done|]. intros h a. rewrite (Hin h a). cbn.
    setoid_rewrite arc_clone_value. by setoid_rewrite Heq.
Qed.

Lemma client_insert_ok client i p L tr p' tr' :
  entries_ok p (held_ids id (by_client p) ⊎ L ⊎ {[+ i +]}) tr →
  client_insert client i p tr = (p', tr') →
  entries_ok p' (held_ids id (by_client p') ⊎ L) tr' ∧
  by_client p' = <[client := i]> (by_client p) ∧ by_address p' = by_address p ∧
  sweep_at p' = sweep_at p ∧ format p' = format p ∧ address_vector p' = address_vector p.
Proof.
  intros Hok Hins. unfold client_insert in Hins.
  pose proof (drop_entries_fields _ _ _ _ _ Hins) as (Hav & Hf & Ha & Hc & Hs). cbn in *.
  split_and!; try done. rewrite Hc. eapply drop_entries_ok; [|exact Hins].
  apply entries_ok_by_client. eapply entries_ok_eq; [|exact Hok].
  pose proof (held_ids_insert_replaced id (by_client p) client i) as Hr.
  rewrite list_fmap_id in Hr. change (id i) with i in Hr. multiset_solver.
Qed.

Lemma client_remove_ok client p L tr p' tr' :
  entries_ok p (held_ids id (by_client p) ⊎ L) tr →
  client_remove client p tr = (p', tr') →
  entries_ok p' (held_ids id (by_client p') ⊎ L) tr' ∧
  by_client p' = delete client (by_client p) ∧ by_address p' = by_address p ∧
  sweep_at p' = sweep_at p ∧ format p' = format p ∧ address_vector p' = address_vector p.
Proof.
  intros Hok Hins. unfold client_remove in Hins.
  pose proof (drop_entries_fields _ _ _ _ _ Hins) as (Hav & Hf & Ha & Hc & Hs). cbn in *.
  split_and!; try done. rewrite Hc. eapply drop_entries_ok; [|exact Hins].
  apply entries_ok_by_client. eapply entries_ok_eq; [|exact Hok].
  rewrite (held_ids_removed id (by_client p) client), list_fmap_id. multiset_solver.
Qed.

Lemma evict_ok stale p L tr p' tr' :
  entries_ok p (held_ids id (by_client p) ⊎ L ⊎ {[+ stale +]}) tr →
  evict stale p tr = (p', tr') →
  entries_ok p' (held_ids id (by_client p') ⊎ L) tr' ∧
  by_client p' = filter (λ '(_, i), i ≠ stale) (by_client p) ∧ by_address p' = by_address p ∧
  sweep_at p' = sweep_at p ∧ format p' = format p ∧ address_vector p' = address_vector p.
Proof.
  intros Hok Hins. unfold evict in Hins.
  pose proof (drop_entries_fields _ _ _ _ _ Hins) as (Hav & Hf & Ha & Hc & Hs). cbn in *.
  split_and!; try done. rewrite Hc. eapply drop_entries_ok; [|exact Hins].
  apply entries_ok_by_client. eapply entries_ok_eq; [|exact Hok].
  rewrite (held_ids_filter id (λ '(_, i), i ≠ stale) (by_client p)), list_fmap_id.
  rewrite list_to_set_disj_app. simpl.
  replace (filter (λ x : Z * nat, ¬ (let '(_, i) := x in i ≠ stale)) (by_client p))
    with (filter (λ '(_, i), ¬ i ≠ stale) (by_client p)); [multiset_solver|].
  apply map_filter_ext. intros k x _. done.
Qed.

Lemma sweep_fields p :
  entries (sweep p) = entries p ∧ by_client (sweep p) = by_client p ∧
  address_vector (sweep p) = address_vector p ∧ format (sweep p) = format p.
Proof. unfold sweep. by destruct (_ <? _). Qed.

Lemma sweep_lookup p k known i :
  by_address (sweep p) !! k = Some (known, i) → by_address p !! k = Some (known, i).
Proof.
  unfold sweep. destruct (_ <? _); [done|]. cbn. by rewrite map_lookup_filter_Some; intros [].
Qed.

Lemma sweep_keeps p k known i :
  by_address p !! k = Some (known, i) → 0 < strong_count i (entries p) →
  by_address (sweep p) !! k = Some (known, i).
Proof.
  intros Hk Hi. unfold sweep. destruct (_ <? _); [done|]. cbn. by rewrite map_lookup_filter_Some.
Qed.

Lemma identity_len_slot fmt address n :
  identity_len fmt address = Ok n → take n address = slot_of fmt address.
Proof.
  destruct fmt; simpl; [case_decide; intros; by simplify_eq|].
  intros; simplify_eq. apply take_ge. lia.
Qed.

Lemma unheld_slot_ok p X tr slot :
  entries_ok p X tr →
  (∀ known i, by_address p !! slot = Some (known, i) → i ∉ X) →
  entries_ok (with_by_address (delete slot (by_address p)) p) X tr.
Proof.
  intros Hok Hslot. destruct (eo_slots _ _ _ Hok) as (slots & Hslots & Hin).
  assert (∀ k known i, i ∈ X → by_address p !! k = Some (known, i) →
    delete slot (by_address p) !! k = Some (known, i)) as Hkeep.
  { intros k known i Hi Hk. rewrite lookup_delete_Some. split; [|done]. naive_solver. }
  split; cbn [entries by_address address_vector format with_by_address]; try apply Hok.
  - intros k known i [_ Hk]%lookup_delete_Some. by apply Hok.
  - intros k1 k2 n1 n2 i [_ H1]%lookup_delete_Some [_ H2]%lookup_delete_Some.
    by eapply (eo_inj _ _ _ Hok).
  - intros i Hi. destruct (eo_indexed _ _ _ Hok _ Hi) as (k & known & Hk). eauto.
  - exists slots. split; [done|]. intros h a. rewrite (Hin h a). cbn. split.
    + intros (i & k & known & ? & ? & ?). eauto 10.
    + intros (i & k & known & ? & [_ ?]%lookup_delete_Some & ?). eauto 10.
Qed.

Lemma refused_ok p X tr address :
  entries_ok p X tr → (fi_av_insert tr (address_vector p) address).1 ≠ 1%Z →
  entries_ok p X (tr ++ [AvInsert (address_vector p) address]).
Proof.
  intros Hok Hr. destruct (eo_slots _ _ _ Hok) as (slots & Hslots & Hin).
  split; try apply Hok. exists slots. split; [|done]. by constructor.
Qed.

(** The slots in the vector, told apart by what names them. *)
Lemma unindexed_slot_free p X slots address :
  (∀ k known i, by_address p !! k = Some (known, i) → slot_of (format p) (pa_bytes known) = k) →
  in_vector p X slots →
  by_address p !! slot_of (format p) address = None →
  slot_free (format p) address slots.
Proof.
  intros Hidx Hin Hnone h a Ha Heq. apply Hin in Ha as (i & k & known & _ & Hk & <- & _).
  rewrite <-Heq, (Hidx _ _ _ Hk), Hk in Hnone. done.
Qed.

Lemma registered_ok `{!AddressVectorLaws fmt} p X tr address n h :
  format p = fmt →
  entries_ok p X tr → identity_len fmt address = Ok n →
  by_address p !! take n address = None →
  fi_av_insert tr (address_vector p) address = (1%Z, h) →
  let '(i, hp) := arc_new {| entry_vector := address_vector p; peer := h |} (entries p) in
  let q := sweep (with_entries hp p) in
  entries_ok
    (with_by_address (<[take n address := ({| pa_bytes := address; pa_identity_len := n |}, i)]>
                        (by_address q)) q)
    (X ⊎ {[+ i +]}) (tr ++ [AvInsert (address_vector p) address]).
Proof.
  intros <- Hok Hn Hnone Hins. cbn [arc_new].
  pose proof (eo_owns _ _ _ Hok) as Ho.
  pose proof (arc_new_owns {| entry_vector := address_vector p; peer := h |} _ _ Ho) as Ho'.
  pose proof (arc_new_value {| entry_vector := address_vector p; peer := h |} (entries p)) as Hval.
  pose proof (owns_fresh_not_in _ _ Ho) as HnX.
  cbn [arc_new fst snd] in *. set (i := fresh_id (entries p)) in *.
  set (hp := Heap _ _ _) in *. set (q := sweep (with_entries hp p)).
  destruct (sweep_fields (with_entries hp p)) as (He & _ & Hav & Hf). fold q in He, Hav, Hf. cbn in He, Hav, Hf.
  pose proof (identity_len_slot _ _ _ Hn) as Hslot.
  assert (∀ k known j, by_address q !! k = Some (known, j) → by_address p !! k = Some (known, j)) as Hq1.
  { intros k known j Hk. by apply sweep_lookup in Hk. }
  assert (∀ k known j, j ∈ X → by_address p !! k = Some (known, j) →
    by_address q !! k = Some (known, j)) as Hq2.
  { intros k known j Hj Hk. apply sweep_keeps; [done|]. cbn.
    apply Nat.ltb_lt, (owns_upgrade _ _ _ Ho'). multiset_solver. }
  assert (∀ k known j, by_address p !! k = Some (known, j) → j ≠ i ∧ k ≠ take n address) as Hold.
  { intros k known j Hk. split; [|by intros ->; rewrite Hnone in Hk].
    destruct (eo_index _ _ _ Hok _ _ _ Hk) as (_ & _ & Hc).
    pose proof (owns_fresh _ _ Ho _ Hc). unfold i. lia. }
  assert (∀ j, j ∈ X ⊎ {[+ i +]} ↔ j = i ∨ j ∈ X) as HX.
  { intros j. rewrite gmultiset_elem_of_disj_union, gmultiset_elem_of_singleton. naive_solver. }
  assert (∀ k known j, <[take n address := ({| pa_bytes := address; pa_identity_len := n |}, i)]>
      (by_address q) !! k = Some (known, j) →
    (k = take n address ∧ known = {| pa_bytes := address; pa_identity_len := n |} ∧ j = i) ∨
    by_address p !! k = Some (known, j)) as Hlook.
  { intros k known j [[<- ?]|[_ Hk]]%lookup_insert_Some; simplify_eq; eauto. }
  destruct (eo_slots _ _ _ Hok) as (slots & Hslots & Hin).
  assert (slot_free (format p) address slots) as Hfree.
  { eapply unindexed_slot_free; [|done|by rewrite <-Hslot].
    intros k known j Hk. by apply (eo_index _ _ _ Hok _ _ _ Hk). }
  pose proof (fresh_handle _ _ _ _ _ Hslots Hfree Hins) as Hnew.
  assert (∀ j v, j ∈ X → arc_value j hp = Some v → arc_value j (entries p) = Some v ∧ peer v ≠ h) as Hpeer.
  { intros j v Hj Hv. rewrite Hval, decide_False in Hv by (intros ->; done). split; [done|].
    intros <-. pose proof (eo_vector _ _ _ Hok _ _ Hj Hv) as Hjv.
    destruct (eo_indexed _ _ _ Hok _ Hj) as (k & known & Hk).
    enough (slots !! peer v = Some (pa_bytes known)) by congruence.
    apply Hin. exists j, k, known. split_and!; try done. rewrite Hv, <-Hjv. by destruct v. }
  assert (arc_value i hp = Some {| entry_vector := address_vector p; peer := h |}) as Hvi
    by (rewrite Hval; by rewrite decide_True).
  split; cbn [entries by_address address_vector format with_by_address]; rewrite ?He, ?Hav, ?Hf.
  - done.
  - intros k known j [(-> & -> & ->)|Hk]%Hlook.
    + split_and!; [done|by rewrite Hslot|]. apply arc_value_is_Some. by rewrite Hvi.
    + destruct (eo_index _ _ _ Hok _ _ _ Hk) as (? & ? & Hc). split_and!; [done..|].
      rewrite arc_value_is_Some, Hval, decide_False by (by eapply Hold). by apply arc_value_is_Some.
  - intros k1 k2 n1 n2 j [(-> & _ & ->)|H1]%Hlook [(-> & _ & Hj)|H2]%Hlook; try done.
    + by apply Hold in H2 as [].
    + by apply Hold in H1 as [].
    + by eapply (eo_inj _ _ _ Hok).
  - intros j [->|Hj]%HX; [eexists _, _; apply lookup_insert_eq|].
    destruct (eo_indexed _ _ _ Hok _ Hj) as (k & known & Hk). exists k, known.
    rewrite lookup_insert_ne by (by apply Hold in Hk as []). auto.
  - intros j v [->|Hj]%HX Hv; [by simplify_eq|]. apply Hpeer in Hv as [? _]; [|done].
    by eapply (eo_vector _ _ _ Hok).
  - intros j j' v [->|Hj]%HX [->|Hj']%HX Hv Hv'; [done|..].
    + rewrite Hvi in Hv. simplify_eq. by apply Hpeer in Hv' as [].
    + rewrite Hvi in Hv'. simplify_eq. by apply Hpeer in Hv as [].
    + apply Hpeer in Hv as [Hv _]; [|done]. apply Hpeer in Hv' as [Hv' _]; [|done].
      by eapply (eo_distinct _ _ _ Hok).
  - exists (<[h := address]> slots). split; [by constructor|]. intros h' a. cbn.
    rewrite He, Hav, lookup_insert_Some, (Hin h' a). split.
    + intros [[<- <-]|(Hne & j & k & known & Hj & Hk & Ha & Hjv)].
      * eexists i, _, _. split_and!; [apply HX; by left|apply lookup_insert_eq|done|done].
      * exists j, k, known. split_and!; [apply HX; by right| |done|].
        -- rewrite lookup_insert_ne by (by apply Hold in Hk as []). auto.
        -- rewrite Hval, decide_False by (by apply Hold in Hk as []). done.
    + intros (j & k & known & [->|Hj]%HX & Hk & <- & Hjv).
      * rewrite Hvi in Hjv. simplify_eq. left. split; [done|].
        apply Hlook in Hk as [(_ & -> & _)|Hk]; [done|]. by apply Hold in Hk as [].
      * apply Hpeer in Hjv as [Hjv Hne]; [|done]. right. split; [by intros <-|].
        apply Hlook in Hk as [(_ & _ & ->)|Hk]; [done|]. eauto 10.
Qed.

(** Live index entries are told apart by the [Arc]s they point to. *)
Lemma live_index_size p X tr :
  entries_ok p X tr →
  size (filter (λ '(_, (_, weak)), 0 < strong_count weak (entries p)) (by_address p)) ≤ size X.
Proof.
  intros Hok. pose proof (eo_owns _ _ _ Hok) as Ho.
  set (live := filter _ (by_address p)).
  assert (∀ k known i, live !! k = Some (known, i) → by_address p !! k = Some (known, i) ∧ i ∈ X) as Hlive.
  { intros k known i [Hk Hc]%map_lookup_filter_Some. split; [done|].
    apply (owns_upgrade _ _ _ Ho). by apply Nat.ltb_lt. }
  rewrite <-length_map_to_list, <-(length_fmap (λ x, x.2.2) (map_to_list live)).
  unfold size, gmultiset_size. simpl. apply submseteq_length, NoDup_submseteq; cycle 1.
  - intros i. rewrite list_elem_of_fmap.
    intros ([k [known i']] & -> & Hk%elem_of_map_to_list). simpl.
    apply gmultiset_elem_of_elements. by apply Hlive in Hk as [].
  - apply NoDup_fmap_2_strong; [|apply NoDup_map_to_list].
    intros [k1 [n1 i1]] [k2 [n2 i2]] H1%elem_of_map_to_list H2%elem_of_map_to_list. simpl. intros <-.
    assert (k1 = k2) as <-.
    { apply Hlive in H1 as [H1 _]. apply Hlive in H2 as [H2 _]. by eapply (eo_inj _ _ _ Hok). }
    by simplify_eq.
Qed.

Lemma size_held_ids (m : gmap Z nat) : size (held_ids id m) = size m.
Proof.
  induction m as [|k i m Hk IH] using map_ind.
  { rewrite held_ids_empty, gmultiset_size_empty, map_size_empty. done. }
  rewrite held_ids_insert, gmultiset_size_disj_union, gmultiset_size_singleton, IH by done.
  rewrite map_size_insert_None by done. lia.
Qed.

Lemma sweep_size p :
  MINIMUM_SWEEP ≤ sweep_at p →
  size (by_address (sweep p)) < sweep_at (sweep p) ∧ MINIMUM_SWEEP ≤ sweep_at (sweep p) ∧
  (sweep_at (sweep p) = sweep_at p ∨
   sweep_at (sweep p) = MINIMUM_SWEEP `max`
     (size (filter (λ '(_, (_, weak)), 0 < strong_count weak (entries p)) (by_address p)) * 2)).
Proof.
  intros Hm. unfold sweep. destruct (Nat.ltb_spec (size (by_address p)) (sweep_at p)); cbn; [auto|].
  unfold MINIMUM_SWEEP in *. split_and!; [lia..|auto].
Qed.

(** An [Arc] cloned into [by_client], the original going to the caller. *)
Lemma client_share_ok client i p L tr p' tr' :
  entries_ok p (held_ids id (by_client p) ⊎ L ⊎ {[+ i +]}) tr →
  client_insert client i (with_entries (arc_clone i (entries p)) p) tr = (p', tr') →
  entries_ok p' (held_ids id (by_client p') ⊎ (L ⊎ {[+ i +]})) tr' ∧
  by_client p' = <[client := i]> (by_client p) ∧ by_address p' = by_address p ∧
  sweep_at p' = sweep_at p ∧ format p' = format p ∧ address_vector p' = address_vector p ∧
  (by_client p !! client = None → tr' = tr).
Proof.
  intros Hok Hins. pose proof (clone_ok i _ _ _ Hok ltac:(multiset_solver)) as Hcl.
  destruct (client_insert_ok client i _ (L ⊎ {[+ i +]}) _ _ _
    ltac:(eapply entries_ok_eq; [|exact Hcl]; cbn; multiset_solver) Hins) as (? & ? & ? & ? & ? & ?).
  split_and!; try done. intros Hnone. unfold client_insert, drop_entries in Hins.
  cbn [by_client with_entries] in Hins. rewrite Hnone in Hins. simpl in Hins. simplify_eq.
  by rewrite app_nil_r.
Qed.

(** Everything [handle] does once no entry can be shared. *)
Lemma handle_insert_spec `{!AddressVectorLaws fmt} client address n p L tr r p' tr' :
  format p = fmt →
  peers_ok p L tr → identity_len fmt address = Ok n →
  (∀ known i, by_address p !! take n address = Some (known, i) → i ∉ held_ids id (by_client p) ⊎ L) →
  handle_insert client (take n address) address p tr = (r, p', tr') →
  (∃ p1 tr1, client_remove client p tr = (p1, tr1) ∧
     tr' = tr1 ++ [AvInsert (address_vector p) address]) ∧
  format p' = fmt ∧ address_vector p' = address_vector p ∧
  (sweep_at p' = sweep_at p ∨
   sweep_at p' ≤ MINIMUM_SWEEP `max` (2 * (size (by_client p) + size L))) ∧
  (∀ k known j, by_address p' !! k = Some (known, j) →
     j ∈ held_ids id (delete client (by_client p)) ⊎ L → by_address p !! k = Some (known, j)) ∧
  match r with
  | Ok i => peers_ok p' (L ⊎ {[+ i +]}) tr' ∧ by_client p' = <[client := i]> (by_client p) ∧
            by_address p' !! take n address = Some ({| pa_bytes := address; pa_identity_len := n |}, i)
  | Err _ => peers_ok p' L tr' ∧ by_client p' = delete client (by_client p) ∧
             by_address p' !! take n address = None
  end.
Proof.
  intros <- [Hent Hs Hm] Hn Hun Hh. unfold handle_insert in Hh.
  destruct (client_remove client p tr) as [p1 tr1] eqn:Erm.
  pose proof Hent as Hent0.
  destruct (client_remove_ok _ _ _ _ _ _ Hent Erm) as (Hok1 & Hc1 & Ha1 & Hs1 & Hf1 & Hav1).
  assert (∀ known i, by_address p1 !! take n address = Some (known, i) →
    i ∉ held_ids id (by_client p1) ⊎ L) as Hun1.
  { intros known i Hk Hi. rewrite Ha1 in Hk. apply (Hun _ _ Hk). rewrite Hc1 in Hi.
    rewrite (held_ids_removed id (by_client p) client). multiset_solver. }
  pose proof (unheld_slot_ok _ _ _ _ Hok1 Hun1) as Hok2.
  set (p2 := with_by_address _ p1) in *.
  assert (format p2 = format p ∧ address_vector p2 = address_vector p ∧ by_client p2 = by_client p1 ∧
    sweep_at p2 = sweep_at p ∧ by_address p2 = delete (take n address) (by_address p)) as
    (Hf2 & Hav2 & Hc2 & Hs2 & Ha2) by (subst p2; cbn; by rewrite Hf1, Hav1, Hs1, Ha1).
  assert (by_address p2 !! take n address = None) as Hnone by (by rewrite Ha2, lookup_delete_eq).
  assert (size (by_address p2) ≤ size (by_address p)) as Hle2.
  { rewrite Ha2. apply map_subseteq_size, delete_subseteq. }
  unfold peer_address_new in Hh. rewrite Hf2, Hn in Hh. cbn [pa_bytes] in Hh.
  unfold insert in Hh. rewrite Hav2 in Hh.
  destruct (fi_av_insert tr1 (address_vector p) address) as [inserted h] eqn:Eins.
  rewrite <-Hav2 in Hh, Eins. rewrite <-Hav2, <-Hf2.
  destruct (Z.eqb_spec 1 inserted) as [<-|Hne].
  - pose proof (registered_ok p2 _ tr1 address n h Hf2 Hok2 Hn Hnone Eins) as Hreg.
    cbn [arc_new] in Hreg, Hh. set (hp := Heap _ _ _) in *.
    pose proof (sweep_size (with_entries hp p2)) as Hsw.
    destruct (sweep_fields (with_entries hp p2)) as (_ & Hc3 & Hav3 & Hf3).
    cbn [with_entries by_client address_vector format entries by_address sweep_at] in Hsw, Hc3, Hav3, Hf3.
    rewrite Hs2 in Hsw. destruct (Hsw Hm) as (Hsz & Hmin & Hat).
    change (identity _) with (take n address) in Hh.
    set (p3 := sweep (with_entries hp p2)) in *. set (p4 := with_by_address _ p3) in *.
    change (address_vector p3) with (address_vector p4) in Hav3.
    change (by_client p3) with (by_client p4) in Hc3.
    change (format p3) with (format p4) in Hf3.
    change (sweep_at p3) with (sweep_at p4) in *.
    destruct (client_insert client _ _ _) as [p5 tr5] eqn:Eci. simplify_eq.
    rewrite Hc2 in Hc3. rewrite <-Hc3 in Hreg.
    destruct (client_share_ok _ _ _ _ _ _ _ Hreg Eci) as (Hok5 & Hc5 & Ha5 & Hs5 & Hf5 & Hav5 & Htr5).
    rewrite Hc3, Hc1, lookup_delete_eq in Htr5. specialize (Htr5 eq_refl) as ->.
    rewrite Hc3, Hc1, insert_delete_eq in Hc5.
    split_and!; try congruence; [by eauto| | |split|].
    + rewrite Hs5. destruct Hat as [Hat|Hat]; [by left|right].
      rewrite Hat. pose proof (live_index_size _ _ _ Hok2) as Hlive.
      rewrite gmultiset_size_disj_union, size_held_ids, Hc1 in Hlive.
      assert (size (delete client (by_client p)) ≤ size (by_client p))
        by apply map_subseteq_size, delete_subseteq.
      enough (size (filter (λ '(_, (_, weak)), 0 < strong_count weak hp) (by_address p2)) =
              size (filter (λ '(_, (_, weak)), 0 < strong_count weak (entries p2)) (by_address p2)))
        by lia.
      f_equal. apply map_filter_ext. intros k [known i] Hk.
      destruct (eo_index _ _ _ Hok2 _ _ _ Hk) as (_ & _ & Hc).
      pose proof (owns_fresh _ _ (eo_owns _ _ _ Hok2) _ Hc). unfold strong_count. subst hp.
      cbn [cells]. by rewrite lookup_insert_ne by lia.
    + intros k known j Hk Hj. rewrite Ha5 in Hk. subst p4. cbn in Hk.
      rewrite <-Hc1 in Hj. pose proof (owns_fresh_not_in _ _ (eo_owns _ _ _ Hok2)) as Hfr.
      apply lookup_insert_Some in Hk as [[_ Hk]|[_ Hk]]; [simplify_eq; by destruct Hfr|].
      apply sweep_lookup in Hk. cbn in Hk. rewrite Ha1 in Hk. by apply lookup_delete_Some in Hk as [].
    + done.
    + rewrite Ha5, Hs5. subst p4. cbn in Hsz |- *.
      rewrite map_size_insert. destruct (by_address p3 !! take n address); cbn; lia.
    + by rewrite Hs5.
    + rewrite Ha5. subst p4. cbn. apply lookup_insert_eq.
  - simplify_eq. rewrite Hc2. split_and!; try done; [by eauto|by left|..].
    { intros k known j Hk _. rewrite Ha2 in Hk. by apply lookup_delete_Some in Hk as []. }
    split; [|lia|lia]. rewrite Hc2. apply refused_ok; [done|]. rewrite Eins. simpl. congruence.
Qed.

(** The three cases of [handle] on a well-formed address. *)
Inductive handle_case (p : PeerAddresses) (address slot : list u8) (r : result nat DmaError) :
    gmap Z nat → Prop :=
  | handle_shared known i :
      by_address p !! slot = Some (known, i) → i ∈ held_ids id (by_client p) →
      pa_bytes known = address → r = Ok i → handle_case p address slot r (by_client p)
  | handle_stale known stale :
      by_address p !! slot = Some (known, stale) → stale ∈ held_ids id (by_client p) →
      pa_bytes known ≠ address →
      handle_case p address slot r (filter (λ '(_, i), i ≠ stale) (by_client p))
  | handle_new :
      (∀ known i, by_address p !! slot = Some (known, i) → i ∉ held_ids id (by_client p)) →
      handle_case p address slot r (by_client p).

Record handled (p : PeerAddresses) (client : Z) (address slot : list u8) (r : result nat DmaError)
    (p' : PeerAddresses) (tr tr' : trace) (base : gmap Z nat) : Prop := {
  h_case : handle_case p address slot r base;
  h_format : format p' = format p;
  h_vector : address_vector p' = address_vector p;
  h_sweep : sweep_at p' = sweep_at p ∨ sweep_at p' ≤ MINIMUM_SWEEP `max` (2 * size (by_client p));
  h_index k known j : by_address p' !! k = Some (known, j) →
    j ∈ held_ids id (delete client base) → by_address p !! k = Some (known, j);
  h_result :
    match r with
    | Ok i => peers_ok p' {[+ i +]} tr' ∧ by_client p' = <[client := i]> base ∧
              ∃ known, by_address p' !! slot = Some (known, i) ∧ pa_bytes known = address
    | Err _ => peers_ok p' ∅ tr' ∧ by_client p' = delete client base ∧ by_address p' !! slot = None
    end;
}.

Lemma held_for_spec slot address p X :
  owns (entries p) X →
  match held_for slot address p with
  | Some (same, i, q) =>
      ∃ known, by_address p !! slot = Some (known, i) ∧ i ∈ X ∧
        same = bool_decide (pa_bytes known = address) ∧
        q = with_entries (arc_clone i (entries p)) p
  | None => ∀ known i, by_address p !! slot = Some (known, i) → i ∉ X
  end.
Proof.
  intros Ho. unfold held_for. destruct (by_address p !! slot) as [[known i]|] eqn:Hk; simpl; [|done].
  unfold weak_upgrade. destruct (0 <? strong_count i (entries p)) eqn:Hc; simpl.
  - exists known. split_and!; try done. by apply (owns_upgrade _ _ _ Ho).
  - intros ?? ? Hi. simplify_eq. apply (owns_upgrade _ _ _ Ho) in Hi. congruence.
Qed.

Lemma handle_spec `{!AddressVectorLaws fmt} client address p tr r p' tr' :
  format p = fmt → peers_ok p ∅ tr →
  handle client address p tr = (r, p', tr') →
  match identity_len fmt address with
  | Err error => r = Err error ∧ p' = p ∧ tr' = tr
  | Ok n => ∃ base, handled p client address (take n address) r p' tr tr' base
  end.
Proof.
  intros Hfmt Hok Hh. unfold handle in Hh. rewrite Hfmt in Hh.
  destruct (identity_len fmt address) as [n|error] eqn:Hn; [|by simplify_eq].
  pose proof (po_entries _ _ _ Hok) as Hent. rewrite (right_id_L ∅ (⊎)) in Hent.
  pose proof (held_for_spec (take n address) address _ _ (eo_owns _ _ _ Hent)) as Hheld.
  destruct (held_for _ _ _) as [[[[] i] q]|].
  - destruct Hheld as (known & Hk & Hi & Hsame & ->). symmetry in Hsame.
    apply bool_decide_eq_true in Hsame. pose proof (clone_ok _ _ _ _ Hent Hi) as Hcl.
    destruct (client_insert _ _ _ _) as [p1 tr1] eqn:Eci. simplify_eq.
    destruct (client_share_ok client i _ ∅ _ _ _
      ltac:(eapply entries_ok_eq; [|exact Hcl]; cbn; by rewrite (right_id_L ∅ (⊎))) Eci)
      as (Hok' & Hc' & Ha' & Hs' & Hf' & Hav' & _). cbn [by_address by_client sweep_at format address_vector with_entries] in *.
    exists (by_client p). split; try done.
    + by eapply handle_shared.
    + by left.
    + intros k known' j Hk' _. by rewrite Ha' in Hk'.
    + split; [split; rewrite ?Ha', ?Hs'; [|apply Hok..]|].
      * by rewrite (left_id_L ∅ (⊎)) in Hok'.
      * rewrite Ha'. eauto.
  - destruct Hheld as (known & Hk & Hi & Hsame & ->). symmetry in Hsame.
    apply bool_decide_eq_false in Hsame. pose proof (clone_ok _ _ _ _ Hent Hi) as Hcl.
    destruct (evict _ _ _) as [p1 tr1] eqn:Eev.
    destruct (evict_ok i _ ∅ _ _ _
      ltac:(eapply entries_ok_eq; [|exact Hcl]; cbn; by rewrite (right_id_L ∅ (⊎))) Eev)
      as (Hok1 & Hc1 & Ha1 & Hs1 & Hf1 & Hav1). cbn [by_address by_client sweep_at format address_vector with_entries] in *.
    assert (peers_ok p1 ∅ tr1) as Hp1.
    { split; [done|..]; rewrite ?Ha1, ?Hs1; apply Hok. }
    destruct (handle_insert_spec client address n p1 ∅ tr1 r p' tr' (eq_trans Hf1 Hfmt) Hp1 Hn)
      as (_ & Hf' & Hav' & Hsw & Hidx & Hr); [|done|].
    { intros known' j Hj Hj'. rewrite Ha1, Hk in Hj. simplify_eq.
      rewrite Hc1, (right_id_L ∅ (⊎)) in Hj'. apply elem_of_held_ids in Hj' as (c & j' & Hc & <-).
      apply map_lookup_filter_Some in Hc as [_ Hc]. done. }
    exists (by_client p1). rewrite Hc1 in *. split; try congruence.
    + by eapply handle_stale.
    + destruct Hsw as [Hsw|Hsw]; [left; congruence|right].
      change (size ∅) with 0 in Hsw.
      pose proof (map_size_filter (λ '(_, i0), i0 ≠ i) (by_client p)). lia.
    + intros k known' j Hk' Hj. rewrite <-Ha1. apply Hidx; [done|]. by rewrite (right_id_L ∅ (⊎)).
    + destruct r as [i'|]; [|done]. rewrite (left_id_L ∅ (⊎)) in Hr.
      destruct Hr as (? & ? & ?). split_and!; eauto.
  - destruct (handle_insert_spec client address n p ∅ tr r p' tr' Hfmt Hok Hn)
      as (_ & Hf' & Hav' & Hsw & Hidx & Hr); [|done|].
    { intros known j Hj. rewrite (right_id_L ∅ (⊎)). eauto. }
    exists (by_client p). split; try congruence.
    + by apply handle_new.
    + change (size ∅) with 0 in Hsw. by rewrite Nat.add_0_r in Hsw.
    + intros k known' j Hk' Hj. apply Hidx; [done|]. by rewrite (right_id_L ∅ (⊎)).
    + destruct r as [i'|]; [|done]. rewrite (left_id_L ∅ (⊎)) in Hr.
      destruct Hr as (? & ? & ?). split_and!; eauto.
Qed.

(** ** Specification: which client is on which address *)

Definition address_of (p : PeerAddresses) (i : nat) : option (list u8) :=
  (λ x, pa_bytes x.2.2.1) <$> list_find (λ x, x.2.2 = i) (map_to_list (by_address p)).

Definition clients (p : PeerAddresses) : gmap Z (list u8) := omap (address_of p) (by_client p).

(** A client advertises an address: whoever is on other bytes of the same slot is put
    off it, and the client moves to the address if the vector takes it. *)
Definition spec_handle (fmt : AddressFormat) (client : Z) (address : list u8) (inserted : bool)
    (m : gmap Z (list u8)) : gmap Z (list u8) :=
  let m := filter (λ '(_, a), slot_of fmt a = slot_of fmt address → a = address) m in
  if inserted then <[client := address]> m else delete client m.

(** What the worker does with a peer.  The four places that call [insert_peer] let go of the
    entry [handle] gave them before the next call (two of them at once, two once they have
    posted), so no [Arc] outside [by_client] is there when another operation starts; and a
    client that left is released. *)
Inductive peer_op : Type :=
  | InsertPeer (client : Z) (address : list u8)
  | ReleasePeer (client : Z).

Definition peer_step (s : PeerAddresses * trace) (op : peer_op) : PeerAddresses * trace :=
  let '(p, tr) := s in
  match op with
  | InsertPeer client address =>
      match handle client address p tr with
      | (Ok i, p, tr) => drop_entries [i] p tr
      | (Err _, p, tr) => (p, tr)
      end
  | ReleasePeer client => release client p tr
  end.

Definition peer_run (av : Z) (fmt : AddressFormat) (ops : list peer_op) : PeerAddresses * trace :=
  foldl peer_step (peers_new av fmt, []) ops.

Lemma address_of_Some p X tr i a :
  entries_ok p X tr →
  address_of p i = Some a ↔ ∃ k known, by_address p !! k = Some (known, i) ∧ pa_bytes known = a.
Proof.
  intros Hok. unfold address_of. split.
  - intros ([j [k [known i']]] & Hf & ->)%fmap_Some. apply list_find_Some in Hf as (Hk & Hi & _).
    simpl in Hi. subst i'. apply list_elem_of_lookup_2, elem_of_map_to_list in Hk. simpl. eauto.
  - intros (k & known & Hk & <-).
    destruct (list_find _ _) as [[j [k' [known' i']]]|] eqn:Hf.
    + simpl. apply list_find_Some in Hf as (Hj & Hi & _). simpl in Hi. subst i'.
      apply list_elem_of_lookup_2, elem_of_map_to_list in Hj.
      assert (k' = k) as -> by (by eapply (eo_inj _ _ _ Hok)). by simplify_eq.
    + apply list_find_None in Hf. apply elem_of_map_to_list in Hk.
      eapply Forall_forall in Hf; [|done]. done.
Qed.

Lemma clients_lookup p X tr c a :
  entries_ok p X tr →
  clients p !! c = Some a ↔
  ∃ i k known, by_client p !! c = Some i ∧ by_address p !! k = Some (known, i) ∧ pa_bytes known = a.
Proof.
  intros Hok. unfold clients. rewrite lookup_omap, bind_Some.
  setoid_rewrite (address_of_Some _ _ _ _ _ Hok). naive_solver.
Qed.

Lemma clients_eq p X tr m :
  entries_ok p X tr →
  (∀ c a, m !! c = Some a ↔ ∃ i k known, by_client p !! c = Some i ∧
     by_address p !! k = Some (known, i) ∧ pa_bytes known = a) →
  clients p = m.
Proof.
  intros Hok Hm. apply map_eq. intros c. apply option_eq. intros a.
  by rewrite (clients_lookup _ _ _ _ _ Hok), Hm.
Qed.

Lemma in_by_client p c i : by_client p !! c = Some i → i ∈ held_ids id (by_client p).
Proof. intros Hc. apply elem_of_held_ids. eauto. Qed.

(** The bases the three cases leave, as sets of clients. *)
Lemma handle_case_clients p X tr address slot r base c i k known :
  entries_ok p X tr → slot = slot_of (format p) address →
  handle_case p address slot r base →
  by_client p !! c = Some i → by_address p !! k = Some (known, i) →
  base !! c = Some i ↔ (slot_of (format p) (pa_bytes known) = slot → pa_bytes known = address).
Proof.
  intros Hok -> Hcase Hc Hk. destruct (eo_index _ _ _ Hok _ _ _ Hk) as (_ & Hslot & _).
  rewrite Hslot. destruct Hcase as [known' i' Hk' Hi' Ha ->|known' st Hk' Hst Hne|Hnew].
  - split; [|done]. intros _ ->. by rewrite Hk in Hk'; simplify_eq.
  - rewrite map_lookup_filter_Some. split.
    + intros [_ Hni] ->. by rewrite Hk in Hk'; simplify_eq.
    + intros Heq. split; [done|]. intros ->.
      assert (k = slot_of (format p) address) as -> by (by eapply (eo_inj _ _ _ Hok)).
      by rewrite Hk in Hk'; simplify_eq; apply Hne, Heq.
  - split; [|done]. intros _ ->. destruct (Hnew _ _ Hk). by eapply in_by_client.
Qed.

Lemma handle_case_base p address slot r base c i :
  handle_case p address slot r base → base !! c = Some i → by_client p !! c = Some i.
Proof. destruct 1; [done|by intros []%map_lookup_filter_Some|done]. Qed.

Lemma handled_clients p client address n r p' tr tr' base :
  peers_ok p ∅ tr → identity_len (format p) address = Ok n →
  handled p client address (take n address) r p' tr tr' base →
  clients p' = spec_handle (format p) client address (is_ok r) (clients p).
Proof.
  intros Hp Hn Hh. pose proof (po_entries _ _ _ Hp) as Hok.
  pose proof (identity_len_slot _ _ _ Hn) as Hslot.
  assert (∃ X, entries_ok p' X tr' ∧ ∀ c i, by_client p' !! c = Some i → i ∈ X) as (X & Hok' & HX).
  { pose proof (h_result _ _ _ _ _ _ _ _ _ Hh) as Hr.
    destruct r; destruct Hr as [Hr _]; eexists; (split; [apply (po_entries _ _ _ Hr)|]);
      intros c i Hc%in_by_client; multiset_solver. }
  eapply clients_eq; [done|]. intros c a.
  assert (∀ i k known, by_client p !! c = Some i → by_address p !! k = Some (known, i) →
    base !! c = Some i ↔
    (slot_of (format p) (pa_bytes known) = slot_of (format p) address → pa_bytes known = address)) as Hcase.
  { intros i k known Hc Hk. rewrite <-Hslot.
    apply (handle_case_clients p _ _ _ _ _ _ _ _ _ _ Hok Hslot (h_case _ _ _ _ _ _ _ _ _ Hh) Hc Hk). }
  assert (∀ i k known, c ≠ client → base !! c = Some i → by_client p' !! c = Some i →
    by_address p !! k = Some (known, i) ↔ by_address p' !! k = Some (known, i)) as Hsame.
  { intros i k known Hne Hb Hc'.
    assert (∀ k known, by_address p' !! k = Some (known, i) → by_address p !! k = Some (known, i)) as Hback.
    { intros ?? Hk'. apply (h_index _ _ _ _ _ _ _ _ _ Hh _ _ _ Hk'), elem_of_held_ids.
      exists c, i. by rewrite lookup_delete_ne. }
    split; [|auto]. intros Hk. destruct (eo_indexed _ _ _ Hok' i) as (k' & known' & Hk'); [eauto|].
    pose proof (Hback _ _ Hk') as Hk2.
    assert (k' = k) as -> by (by eapply (eo_inj _ _ _ Hok)). by rewrite Hk in Hk2; simplify_eq. }
  assert (c ≠ client → by_client p' !! c = base !! c) as Hc'.
  { intros Hne. pose proof (h_result _ _ _ _ _ _ _ _ _ Hh) as Hr.
    destruct r; destruct Hr as (_ & -> & _); by simplify_map_eq. }
  assert (c ≠ client → filter (λ '(_, a), slot_of (format p) a = slot_of (format p) address → a = address)
      (clients p) !! c = Some a ↔ ∃ i k known, by_client p' !! c = Some i ∧
        by_address p' !! k = Some (known, i) ∧ pa_bytes known = a) as Hother.
  { intros Hne. rewrite map_lookup_filter_Some, (clients_lookup _ _ _ _ _ Hok). rewrite (Hc' Hne). split.
    - intros [(i & k & known & Hc & Hk & <-) Hs]. exists i, k, known.
      assert (base !! c = Some i) as Hb by (by apply (Hcase i k known)).
      split_and!; [done| |done]. apply Hsame; [done..|by rewrite Hc'|done].
    - intros (i & k & known & Hb & Hk & <-).
      pose proof (handle_case_base _ _ _ _ _ _ _ (h_case _ _ _ _ _ _ _ _ _ Hh) Hb) as Hc.
      apply Hsame in Hk; [|done..|by rewrite Hc']. split; [by eauto 10|].
      by apply (Hcase i k known). }
  unfold spec_handle. pose proof (h_result _ _ _ _ _ _ _ _ _ Hh) as Hr.
  destruct (decide (c = client)) as [->|Hne].
  - destruct r as [i|e]; simpl; destruct Hr as (_ & Hc & Hk).
    + rewrite lookup_insert_eq, Hc. setoid_rewrite lookup_insert_eq. destruct Hk as (known & Hk & <-).
      split; [intros; simplify_eq; eauto 10|]. intros (i' & k & known' & ? & Hk' & <-). simplify_eq.
      assert (k = take n (pa_bytes known)) as -> by (by eapply (eo_inj _ _ _ Hok')). by simplify_eq.
    + rewrite Hc, !lookup_delete_eq. naive_solver.
  - rewrite <-(Hother Hne). destruct r; simpl; by simplify_map_eq.
Qed.

(** The entry [handle] returns is the vector's for exactly the bytes advertised. *)
Lemma handled_entry p client address slot i p' tr tr' base :
  handled p client address slot (Ok i) p' tr tr' base →
  ∃ slots h, av_slots (address_vector p) (format p) tr' slots ∧ slots !! h = Some address ∧
    arc_value i (entries p') = Some {| entry_vector := address_vector p; peer := h |}.
Proof.
  intros Hd. destruct (h_result _ _ _ _ _ _ _ _ _ Hd) as (Hp' & Hc & known & Hk & <-).
  pose proof (po_entries _ _ _ Hp') as Hok'.
  destruct (eo_slots _ _ _ Hok') as (slots & Hslots & Hin).
  destruct (owns_value _ _ i (eo_owns _ _ _ Hok')) as [[av' h] Hv]; [multiset_solver|].
  pose proof (eo_vector _ _ _ Hok' i _ ltac:(multiset_solver) Hv) as Hav. simpl in Hav. subst av'.
  rewrite (h_format _ _ _ _ _ _ _ _ _ Hd), (h_vector _ _ _ _ _ _ _ _ _ Hd) in *.
  exists slots, h. split_and!; [done| |done]. apply Hin.
  exists i, slot, known. split_and!; [multiset_solver|done..|]. by rewrite (h_vector _ _ _ _ _ _ _ _ _ Hd).
Qed.

(** Calls that concern no vector change nothing. *)
Lemma other_calls_ok p L tr calls :
  Forall (other_call (address_vector p)) calls → peers_ok p L tr → peers_ok p L (tr ++ calls).
Proof.
  intros Hc Hp. split; [|apply Hp..]. destruct Hp as [[? ? ? ? ? ? (slots & Hs & Hin)] _ _]. split; try done.
  exists slots. split; [|done]. clear Hin. revert tr Hs. induction Hc as [|call calls Hcall _ IH]; intros tr Hs.
  - by rewrite app_nil_r.
  - rewrite cons_middle, (assoc_L (++)). by apply IH, av_other.
Qed.

Lemma returned_dropped p i tr p' tr' :
  peers_ok p {[+ i +]} tr → drop_entries [i] p tr = (p', tr') →
  peers_ok p' ∅ tr' ∧ clients p' = clients p ∧ format p' = format p ∧
  address_vector p' = address_vector p ∧ by_client p' = by_client p ∧
  by_address p' = by_address p ∧ sweep_at p' = sweep_at p.
Proof.
  intros Hp Hd. destruct (drop_entries_fields _ _ _ _ _ Hd) as (Hav & Hf & Ha & Hc & Hs).
  split_and!; try done.
  - split; rewrite ?Ha, ?Hs; try apply Hp. rewrite Hc.
    eapply drop_entries_ok; [|done]. eapply entries_ok_eq; [|apply Hp]. simpl. multiset_solver.
  - unfold clients, address_of. by rewrite Hc, Ha.
Qed.

Lemma release_ok p client L tr p' tr' :
  peers_ok p L tr → release client p tr = (p', tr') →
  peers_ok p' L tr' ∧ format p' = format p ∧ address_vector p' = address_vector p ∧
  by_client p' = delete client (by_client p) ∧ by_address p' = by_address p ∧
  sweep_at p' = sweep_at p ∧ clients p' = delete client (clients p).
Proof.
  intros Hp Hr. destruct (client_remove_ok _ _ _ _ _ _ (po_entries _ _ _ Hp) Hr)
    as (Hok & Hc & Ha & Hs & Hf & Hav).
  split_and!; try done.
  - split; [done|..]; rewrite ?Ha, ?Hs; apply Hp.
  - unfold clients, address_of. rewrite Hc, Ha. apply omap_delete.
Qed.

Record peer_step_spec (fmt : AddressFormat) (p p' : PeerAddresses) (tr' : trace) (op : peer_op) : Prop := {
  ps_ok : peers_ok p' ∅ tr';
  ps_format : format p' = fmt;
  ps_vector : address_vector p' = address_vector p;
  ps_sweep : sweep_at p' = sweep_at p ∨ sweep_at p' ≤ MINIMUM_SWEEP `max` (2 * size (by_client p));
}.

Lemma peer_step_ok `{!AddressVectorLaws fmt} p tr op p' tr' :
  format p = fmt → peers_ok p ∅ tr → peer_step (p, tr) op = (p', tr') →
  peer_step_spec fmt p p' tr' op.
Proof.
  intros Hf Hp Hstep. destruct op as [client address|client]; simpl in Hstep.
  - destruct (handle client address p tr) as [[r p1] tr1] eqn:Eh.
    pose proof (handle_spec _ _ _ _ _ _ _ Hf Hp Eh) as Hh.
    destruct (identity_len fmt address) as [n|e].
    2:{ destruct Hh as (-> & -> & ->). simplify_eq. split; try done. by left. }
    destruct Hh as (base & Hh).
    pose proof (h_result _ _ _ _ _ _ _ _ _ Hh) as Hr. pose proof (h_sweep _ _ _ _ _ _ _ _ _ Hh) as Hsw.
    pose proof (h_format _ _ _ _ _ _ _ _ _ Hh) as Hf1. pose proof (h_vector _ _ _ _ _ _ _ _ _ Hh) as Hv1.
    destruct r as [i|e]; destruct Hr as [Hp1 _].
    + destruct (returned_dropped _ _ _ _ _ Hp1 Hstep) as (? & ? & ? & ? & ? & ? & Hs').
      split; [done|congruence..|]. by rewrite Hs'.
    + simplify_eq. by split.
  - destruct (release_ok _ _ _ _ _ _ Hp Hstep) as (? & ? & ? & ? & ? & ? & ?).
    split; [done|congruence..|by left].
Qed.

Lemma peer_run_ok `{!AddressVectorLaws fmt} av ops p tr :
  peer_run av fmt ops = (p, tr) → peers_ok p ∅ tr ∧ format p = fmt ∧ address_vector p = av.
Proof.
  revert p tr. unfold peer_run. induction ops as [|op ops IH] using rev_ind; intros p tr Hrun.
  { simpl in Hrun. simplify_eq. split; [apply peers_new_ok|done]. }
  rewrite foldl_app in Hrun. simpl in Hrun.
  destruct (foldl _ _ ops) as [p1 tr1]. destruct (IH _ _ eq_refl) as (Hp & Hf & Hv).
  destruct (peer_step_ok _ _ _ _ _ Hf Hp Hrun). split_and!; [done..|congruence].
Qed.

(** The vector the calls describe holds the addresses clients are on, each endpoint slot once. *)
Definition mirrors (p : PeerAddresses) (tr : trace) : Prop :=
  ∃ slots, av_slots (address_vector p) (format p) tr slots ∧
    (∀ a, (∃ h, slots !! h = Some a) ↔ ∃ client, clients p !! client = Some a) ∧
    (∀ h1 h2 a1 a2, slots !! h1 = Some a1 → slots !! h2 = Some a2 →
       slot_of (format p) a1 = slot_of (format p) a2 → h1 = h2).

Lemma in_vector_clients p X tr slots a :
  entries_ok p X tr → in_vector p X slots → (∀ i, i ∈ X ↔ i ∈ held_ids id (by_client p)) →
  (∃ h, slots !! h = Some a) ↔ ∃ c, clients p !! c = Some a.
Proof.
  intros Hok Hin HX.
  setoid_rewrite (clients_lookup _ _ _ _ _ Hok). split.
  - intros (h & (i & k & known & Hi%HX & Hk & <- & _)%Hin).
    apply elem_of_held_ids in Hi as (c & i' & Hc & Hid). simpl in Hid. subst. eauto 10.
  - intros (c & i & k & known & Hc & Hk & <-). pose proof (in_by_client _ _ _ Hc) as Hi%HX.
    destruct (owns_value _ _ i (eo_owns _ _ _ Hok) Hi) as [[av h] Hv].
    pose proof (eo_vector _ _ _ Hok i _ Hi Hv) as Hav. simpl in Hav. subst.
    exists h. apply Hin. eauto 10.
Qed.

(** It does so whenever the callers hold no entry but the clients'. *)
Lemma peers_mirror p L tr :
  peers_ok p L tr → (∀ i, i ∈ L → i ∈ held_ids id (by_client p)) → mirrors p tr.
Proof.
  intros Hp HL. pose proof (po_entries _ _ _ Hp) as Hok.
  destruct (eo_slots _ _ _ Hok) as (slots & Hslots & Hin). exists slots. split_and!; [done|..].
  - intros a. eapply in_vector_clients; [done..|]. intros i. rewrite gmultiset_elem_of_disj_union. naive_solver.
  - intros h1 h2 a1 a2 (i1 & k1 & n1 & Hi1 & Hk1 & <- & Hv1)%Hin (i2 & k2 & n2 & Hi2 & Hk2 & <- & Hv2)%Hin.
    destruct (eo_index _ _ _ Hok _ _ _ Hk1) as (_ & -> & _).
    destruct (eo_index _ _ _ Hok _ _ _ Hk2) as (_ & -> & _). intros <-. by simplify_eq.
Qed.

(** C20: The address vector holds exactly the addresses some client is on.  Whatever
    clients come, advertise again and go, every call respects libfabric's contract (no
    handle removed twice, no two entries for one endpoint slot, a superseded address
    removed before its successor is inserted), an address shared by several clients is
    in the vector once, and one nobody is on is not in it.  That is so between the
    worker's operations, when no caller holds an entry, and also while a caller still
    holds the entry [handle] gave it. *)
Theorem vector_mirrors_clients `{!AddressVectorLaws fmt} av ops p tr
  (Hrun : peer_run av fmt ops = (p, tr)) :
  address_vector p = av ∧ format p = fmt ∧ mirrors p tr ∧
  ∀ client address r p' tr', handle client address p tr = (r, p', tr') →
    address_vector p' = av ∧ format p' = fmt ∧ mirrors p' tr' ∧
    ∀ i, r = Ok i → by_client p' !! client = Some i ∧ clients p' !! client = Some address.
Proof.
  destruct (peer_run_ok _ _ _ _ Hrun) as (Hp & <- & <-). split_and!; [done..| |].
  { eapply peers_mirror; [done|]. multiset_solver. }
  intros client address r p' tr' Hh. pose proof (handle_spec _ _ _ _ _ _ _ eq_refl Hp Hh) as Hspec.
  destruct (identity_len (format p) address) as [n|e] eqn:Hn; cycle 1.
  { destruct Hspec as (-> & -> & ->). split_and!; [done..| |done]. eapply peers_mirror; [done|]. multiset_solver. }
  destruct Hspec as (base & Hd). pose proof (h_result _ _ _ _ _ _ _ _ _ Hd) as Hr.
  split; [by eapply h_vector|]. split; [by eapply h_format|]. destruct r as [i|e].
  - destruct Hr as (Hp' & Hc & _). split; [|intros ? [= <-]; rewrite Hc, lookup_insert_eq; split; [done|]].
    + eapply peers_mirror; [done|]. intros j ->%gmultiset_elem_of_singleton.
      apply (in_by_client _ client). by rewrite Hc, lookup_insert_eq.
    + rewrite (handled_clients _ _ _ _ _ _ _ _ _ Hp Hn Hd). unfold spec_handle. simpl. by rewrite lookup_insert_eq.
  - destruct Hr as (Hp' & _). split; [|done]. eapply peers_mirror; [done|]. multiset_solver.
Qed.

(** C23: [handle] does to the clients what the specification says: it moves the client
    to the address and puts off it the clients of a dead epoch of the same slot; a
    malformed address changes nothing and makes no call; an address some client is on
    already succeeds without inserting; and the entry returned is the vector's entry
    for exactly the bytes advertised. *)
Theorem handle_refines_clients `{!AddressVectorLaws fmt} av ops p tr client address r p' tr'
  (Hrun : peer_run av fmt ops = (p, tr))
  (Hh : handle client address p tr = (r, p', tr')) :
  match identity_len fmt address with
  | Err error => r = Err error ∧ p' = p ∧ tr' = tr
  | Ok _ =>
      clients p' = spec_handle fmt client address (is_ok r) (clients p) ∧
      ((∃ c, clients p !! c = Some address) → is_ok r = true) ∧
      (∀ i, r = Ok i → ∃ slots h, av_slots av fmt tr' slots ∧ slots !! h = Some address ∧
         arc_value i (entries p') = Some {| entry_vector := av; peer := h |})
  end.
Proof.
  destruct (peer_run_ok _ _ _ _ Hrun) as (Hp & Hf & <-).
  pose proof (handle_spec _ _ _ _ _ _ _ Hf Hp Hh) as Hspec.
  destruct (identity_len fmt address) as [n|e] eqn:Hn; [|done].
  destruct Hspec as (base & Hd). rewrite <-Hf in *.
  pose proof (po_entries _ _ _ Hp) as Hok. split_and!.
  - by eapply handled_clients.
  - intros (c & (i & k & known & Hc & Hk & <-)%(clients_lookup _ _ _ _ _ Hok)).
    destruct (eo_index _ _ _ Hok _ _ _ Hk) as (_ & Hslot & _).
    rewrite (identity_len_slot _ _ _ Hn), Hslot in Hd.
    destruct (h_case _ _ _ _ _ _ _ _ _ Hd) as [|known' st Hk'|Hnew]; [by subst r|..].
    + rewrite Hk in Hk'. by simplify_eq.
    + destruct (Hnew _ _ Hk). by eapply in_by_client.
  - intros i ->. by eapply handled_entry.
Qed.

(** The last client out removes the entry.  Releasing a client takes it, and only
    it, off its address, and makes one [fi_av_remove], of that address's handle, exactly
    when no other client is on the address. *)
Lemma release_last_client_out `{!AddressVectorLaws fmt} av ops p tr client p' tr'
  (Hrun : peer_run av fmt ops = (p, tr))
  (Hr : release client p tr = (p', tr')) :
  clients p' = delete client (clients p) ∧
  match clients p !! client with
  | None => tr' = tr
  | Some a =>
      ((∃ c, c ≠ client ∧ clients p !! c = Some a) ∧ tr' = tr) ∨
      ((∀ c, c ≠ client → clients p !! c ≠ Some a) ∧
       ∃ h slots, tr' = tr ++ [AvRemove av h] ∧ av_slots av fmt tr slots ∧ slots !! h = Some a)
  end.
Proof.
  destruct (peer_run_ok _ _ _ _ Hrun) as (Hp & <- & <-).
  split; [by eapply release_ok|]. pose proof (po_entries _ _ _ Hp) as Hok.
  rewrite (right_id_L ∅ (⊎)) in Hok.
  unfold release, client_remove, drop_entries in Hr. cbn in Hr.
  destruct (by_client p !! client) as [i|] eqn:Hc; simpl in Hr.
  2:{ simplify_eq. unfold clients. rewrite lookup_omap, Hc. simpl. apply app_nil_r. }
  pose proof (in_by_client _ _ _ Hc) as Hi.
  destruct (eo_indexed _ _ _ Hok _ Hi) as (k & known & Hk).
  assert (clients p !! client = Some (pa_bytes known)) as -> by (apply (clients_lookup _ _ _ _ _ Hok); eauto 10).
  pose proof (eo_owns _ _ _ Hok) as Ho. rewrite (held_ids_delete id _ _ _ Hc) in Ho.
  rewrite (comm_L (⊎)) in Ho. pose proof (arc_drop_last _ _ _ Ho) as Hl.
  destruct (arc_drop (id i) (entries p)) as [h last] eqn:Ed. change (id i) with i in *.
  rewrite Ed in Hr. simpl in Hl, Hr. subst last.
  assert (∀ c, clients p !! c = Some (pa_bytes known) ↔ by_client p !! c = Some i) as Hsame.
  { intros c. rewrite (clients_lookup _ _ _ _ _ Hok). split; [|eauto 10].
    intros (i' & k' & known' & Hc' & Hk' & Heq).
    destruct (eo_index _ _ _ Hok _ _ _ Hk) as (_ & Hs & _).
    destruct (eo_index _ _ _ Hok _ _ _ Hk') as (_ & Hs' & _). rewrite Heq, Hs in Hs'. subst k'. by simplify_eq. }
  case_decide as Hd; simpl in Hr; simplify_eq.
  - left. rewrite app_nil_r. split; [|done].
    apply elem_of_held_ids in Hd as (c & i' & [Hne Hc']%lookup_delete_Some & Hid). simpl in Hid. subst i'.
    exists c. split; [done|]. by apply Hsame.
  - right. split.
    + intros c Hne Hc'%Hsame. apply Hd, elem_of_held_ids. exists c, i. by rewrite lookup_delete_ne.
    + destruct (owns_value _ _ i (eo_owns _ _ _ Hok) Hi) as [[av h'] Hv]. rewrite Hv. simpl.
      pose proof (eo_vector _ _ _ Hok _ _ Hi Hv) as Hav. simpl in Hav. subst av.
      destruct (eo_slots _ _ _ Hok) as (slots & Hslots & Hin). exists h', slots.
      split_and!; [done..|]. apply Hin. eauto 10.
Qed.

(** C38: The index does not grow with the hosts ever met: if no more than [peak] clients
    were ever connected at once, it never holds more than 64 addresses or twice [peak],
    whichever is greater, however many of them are dead. *)
Theorem peer_index_bounded `{!AddressVectorLaws fmt} av ops peak
  (Hpeak : ∀ ops1 ops2, ops = ops1 ++ ops2 → size (by_client (peer_run av fmt ops1).1) ≤ peak) :
  size (by_address (peer_run av fmt ops).1) ≤ MINIMUM_SWEEP `max` (2 * peak).
Proof.
  enough (sweep_at (peer_run av fmt ops).1 ≤ MINIMUM_SWEEP `max` (2 * peak)) as Hs.
  { destruct (peer_run av fmt ops) as [p tr] eqn:Hrun.
    destruct (peer_run_ok _ _ _ _ Hrun) as (Hp & _). pose proof (po_sweep _ _ _ Hp). simpl in *. lia. }
  induction ops as [|op ops IH] using rev_ind; [simpl; lia|].
  assert (sweep_at (peer_run av fmt ops).1 ≤ MINIMUM_SWEEP `max` (2 * peak)) as IH'.
  { apply IH. intros ops1 ops2 ->. apply (Hpeak ops1 (ops2 ++ [op])). by rewrite (assoc_L (++)). }
  specialize (Hpeak ops [op] eq_refl). unfold peer_run in *. rewrite foldl_app. simpl.
  destruct (foldl _ _ ops) as [p tr] eqn:Hrun. simpl in Hpeak, IH'.
  destruct (peer_run_ok _ _ _ _ Hrun) as (Hp & Hf & _).
  destruct (peer_step (p, tr) op) as [p' tr'] eqn:Hstep.
  destruct (peer_step_ok _ _ _ _ _ Hf Hp Hstep) as [_ _ _ [Heq|Hle]]; simpl; lia.
Qed.

Lemma clear_ok p tr p' tr' :
  peers_ok p ∅ tr → clear p tr = (p', tr') →
  av_slots (address_vector p) (format p) tr' ∅ ∧ by_client p' = ∅ ∧ by_address p' = ∅.
Proof.
  intros Hp Hc. unfold clear in Hc.
  destruct (drop_entries _ _ _) as [q tr1] eqn:Ed. simplify_eq.
  destruct (drop_entries_fields _ _ _ _ _ Ed) as (Hav & Hf & _ & Hbc & _).
  assert (entries_ok q ∅ tr') as Hok.
  { eapply drop_entries_ok; [|done]. apply entries_ok_by_client. eapply entries_ok_eq; [|apply Hp].
    rewrite (right_id_L ∅ (⊎)), (left_id_L ∅ (⊎)).
    by rewrite (held_ids_list id), list_fmap_id. }
  split_and!; [|done|done].
  destruct (eo_slots _ _ _ Hok) as (slots & Hslots & Hin). rewrite Hav, Hf in Hslots.
  replace ∅ with slots; [done|]. apply map_empty. intros h. apply eq_None_not_Some.
  intros [a (i & _ & _ & Hi & _)%Hin]. multiset_solver.
Qed.

(** [clear] empties the vector, so that the endpoint can close it: every entry is
    removed, once, and the index and the clients are gone. *)
Theorem clear_empties_vector `{!AddressVectorLaws fmt} av ops p tr p' tr'
  (Hrun : peer_run av fmt ops = (p, tr)) (Hc : clear p tr = (p', tr')) :
  av_slots av fmt tr' ∅ ∧ by_client p' = ∅ ∧ by_address p' = ∅.
Proof. destruct (peer_run_ok _ _ _ _ Hrun) as (Hp & <- & <-). by eapply clear_ok. Qed.

End invariant.

(** ** Witnesses *)

#[local] Existing Instance example_libfabric.

Lemma example_handles_small av fmt tr slots h a :
  av_slots av fmt tr slots → slots !! h = Some a → (h ≤ Z.of_nat (length tr))%Z.
Proof.
  intros Hs. revert h a. induction Hs as [|tr c slots _ IH _|tr a' slots _ IH _
    |tr a' h' slots _ IH Hins _ _|tr h' slots _ IH _]; intros h a Hl; rewrite ?length_app; simpl.
  - done.
  - specialize (IH _ _ Hl). lia.
  - specialize (IH _ _ Hl). lia.
  - apply lookup_insert_Some in Hl as [[<- _]|[_ Hl]]; [cbn in Hins; simplify_eq; lia|].
    specialize (IH _ _ Hl). lia.
  - apply lookup_delete_Some in Hl as [_ Hl]. specialize (IH _ _ Hl). lia.
Qed.

#[export] Instance example_address_vector fmt : @AddressVectorLaws example_libfabric fmt.
Proof.
  split. intros av tr slots address h Hs _ Hins. cbn in Hins. simplify_eq.
  destruct (slots !! _) eqn:Hl; [|done]. pose proof (example_handles_small _ _ _ _ _ _ Hs Hl). lia.
Qed.

(** An efa address: [gid] stands for the GID and QPN, [qkey] for the rest. *)
Definition efa_address (gid qkey : u8) : list u8 := replicate 18 gid ++ replicate 14 qkey.

Definition two_clients : list peer_op :=
  [InsertPeer 1 (efa_address Byte.x01 Byte.x01); InsertPeer 2 (efa_address Byte.x01 Byte.x01)].

Lemma vector_mirrors_clients_witness :
  let s := peer_run 7 Efa two_clients in
  let x := handle 3 (efa_address Byte.x01 Byte.x02) s.1 s.2 in
  map_to_list (clients s.1) = [(2%Z, efa_address Byte.x01 Byte.x01); (1%Z, efa_address Byte.x01 Byte.x01)] ∧
  s.2 = [AvInsert 7 (efa_address Byte.x01 Byte.x01)] ∧ mirrors s.1 s.2 ∧
  map_to_list (clients x.1.2) = [(3%Z, efa_address Byte.x01 Byte.x02)] ∧ mirrors x.1.2 x.2.
Proof.
  split; [by vm_compute|]. split; [by vm_compute|].
  destruct (vector_mirrors_clients (fmt := Efa) 7 two_clients _ _ (surjective_pairing _)) as (_ & _ & Hm & Hh).
  split; [exact Hm|]. split; [by vm_compute|]. exact (proj1 (proj2 (proj2 (Hh 3%Z _ _ _ _ (surjective_triple _))))).
Defined.

Lemma handle_refines_clients_witness :
  let s := peer_run 7 Efa two_clients in
  let x := handle 3 (efa_address Byte.x01 Byte.x02) s.1 s.2 in
  map_to_list (clients x.1.2) = [(3%Z, efa_address Byte.x01 Byte.x02)] ∧
  x.2 = s.2 ++ [AvRemove 7 1; AvInsert 7 (efa_address Byte.x01 Byte.x02)] ∧
  clients x.1.2 =
    spec_handle Efa 3 (efa_address Byte.x01 Byte.x02) (is_ok x.1.1) (clients s.1).
Proof.
  split; [by vm_compute|]. split; [by vm_compute|].
  exact (proj1 (handle_refines_clients (fmt := Efa) 7 two_clients _ _ 3
    (efa_address Byte.x01 Byte.x02) _ _ _ (surjective_pairing _) (surjective_triple _))).
Defined.

(** Hosts that come and go, one at a time, each with an address of its own. *)
Definition passing_hosts (n : nat) : list peer_op :=
  seq 0 n ≫= λ k, [InsertPeer (Z.of_nat k) [default Byte.x00 (Byte.of_nat k)]; ReleasePeer (Z.of_nat k)].

(** The sixty-fifth host finds an index of sixty-four dead entries, which its sweep drops. *)
Lemma peer_index_bounded_witness :
  size (by_address (peer_run 7 Opaque (passing_hosts 64)).1) = 64 ∧
  size (by_address (peer_run 7 Opaque (passing_hosts 65)).1) = 1 ∧
  size (by_address (peer_run 7 Opaque (passing_hosts 65)).1) ≤ MINIMUM_SWEEP `max` (2 * 1).
Proof.
  split; [vm_compute; reflexivity|]. split; [vm_compute; reflexivity|].
  apply (peer_index_bounded 7). intros ops1 ops2 Heq.
  assert (forallb (λ n, size (by_client (peer_run 7 Opaque (take n (passing_hosts 65))).1) <=? 1)
    (seq 0 (S (length (passing_hosts 65)))) = true) as Hall by (vm_compute; reflexivity).
  rewrite forallb_forall in Hall. specialize (Hall (length ops1)). rewrite Heq, take_app_length in Hall.
  apply Nat.leb_le, Hall, in_seq. rewrite length_app. lia.
Defined.
