(* ===== verification/Config.v ===== *)
(** * Configuration

    [dma-libfabric/src/configuration.rs] and the [configuration] crate.  TOML parsing
    is the [toml] and [serde] packages': a section reaches this model as the record of
    the keys a document set, and the [#[serde(default)]] attributes and the [Default]
    instances are definitions. *)

From S2P Require Import Prelude Wire.

(** Header constants named by the configuration and the endpoint's hints. *)
Class LibfabricFlags := {
  FI_CONTEXT2 : Z;
  FI_RX_CQ_DATA : Z;
  FI_MSG : Z;
  FI_RMA : Z;
  FI_READ : Z;
  FI_WRITE : Z;
  FI_REMOTE_READ : Z;
  FI_REMOTE_WRITE : Z;
  FI_SOURCE : Z;
  FI_TRANSMIT : Z;
  FI_RECV : Z;
  FI_MR_ALLOCATED : Z;
  FI_MR_PROV_KEY : Z;
  FI_MR_ENDPOINT : Z;
  FI_MR_HMEM : Z;
}.

(** ** [dma-libfabric/src/configuration.rs] *)

Inductive Provider : Type := Tcp | EfaDirect.

#[export] Instance Provider_eq_dec : EqDecision Provider.
Proof. solve_decision. Defined.

(** The names [serde] gives the variants. *)
Definition provider_of_text (text : string) : option Provider :=
  if decide (text = "tcp") then Some Tcp
  else if decide (text = "efa-direct") then Some EfaDirect
  else None.

Definition as_str (p : Provider) : string :=
  match p with Tcp => "tcp" | EfaDirect => "efa" end.

Definition fabric_name (p : Provider) : option string :=
  match p with EfaDirect => Some "efa-direct" | _ => None end.

Definition required_mode `{LibfabricFlags} (p : Provider) : Z :=
  match p with Tcp => 0 | EfaDirect => Z.lor FI_CONTEXT2 FI_RX_CQ_DATA end.

(** A [Duration] is its nanoseconds. *)
Definition from_secs (n : Z) : Z := n * 1000000000.

Record Configuration := {
  providers : list Provider;
  interfaces : list string;
  bind : option string;
  max_in_flight : option Z;
  crc_pool_threads : option Z;
  progress_deadline : Z;
  quiesce_writes : bool;
}.

Definition default_progress_deadline : Z := from_secs 1.
Definition default_providers : list Provider := [Tcp].

(** [Configuration::default] *)
Definition default_configuration : Configuration :=
  {| providers := default_providers; interfaces := []; bind := None; max_in_flight := None;
     crc_pool_threads := None; progress_deadline := default_progress_deadline;
     quiesce_writes := false |}.

(** The [[dma-libfabric]] section of a document: the keys it sets.  [None] for an
    [Option] field is the key's absence. *)
Record libfabric_section := {
  s_providers : option (list Provider);
  s_interfaces : option (list string);
  s_bind : option string;
  s_max_in_flight : option Z;
  s_crc_pool_threads : option Z;
  s_progress_deadline : option Z;
  s_quiesce_writes : option bool;
}.

Definition libfabric_of_section (s : libfabric_section) : Configuration :=
  {| providers := default default_providers (s_providers s);
     interfaces := default [] (s_interfaces s);
     bind := s_bind s;
     max_in_flight := s_max_in_flight s;
     crc_pool_threads := s_crc_pool_threads s;
     progress_deadline := default default_progress_deadline (s_progress_deadline s);
     quiesce_writes := default false (s_quiesce_writes s) |}.

(** ** [configuration/src/jemalloc.rs] *)

Record JemallocConfiguration := {
  huge_arena_decay_ms : Z;
  huge_arena_oversize_threshold : Z;
}.

Definition default_huge_arena_decay_ms : Z := 1000.
Definition default_huge_arena_oversize_threshold : Z := 512 * 1024 * 1024.

Definition default_jemalloc : JemallocConfiguration :=
  {| huge_arena_decay_ms := default_huge_arena_decay_ms;
     huge_arena_oversize_threshold := default_huge_arena_oversize_threshold |}.

Record jemalloc_section := {
  s_huge_arena_decay_ms : option Z;
  s_huge_arena_oversize_threshold : option Z;
}.

Definition jemalloc_of_section (s : jemalloc_section) : JemallocConfiguration :=
  {| huge_arena_decay_ms := default default_huge_arena_decay_ms (s_huge_arena_decay_ms s);
     huge_arena_oversize_threshold :=
       default default_huge_arena_oversize_threshold (s_huge_arena_oversize_threshold s) |}.

(** ** [configuration/src/observability.rs] *)

(** [SocketAddr], for the IPv4 addresses the defaults use. *)
Record SocketAddr := { ip : list Z; port : Z }.

Definition default_listen : SocketAddr := {| ip := [127%Z; 0%Z; 0%Z; 1%Z]; port := 7777 |}.

Record ConsoleHostConfiguration := { listen : SocketAddr }.

Definition default_console_host : ConsoleHostConfiguration := {| listen := default_listen |}.

Record ObservabilityConfiguration := { console_host : option ConsoleHostConfiguration }.

Record observability_section := {
  (** The [console-host] section, when present, and its [listen] key. *)
  s_console_host : option (option SocketAddr);
}.

Definition observability_of_section (s : observability_section) : ObservabilityConfiguration :=
  {| console_host :=
       (λ l, {| listen := default default_listen l |}) <$> s_console_host s |}.

(** ** [configuration/src/config.rs] *)

(** The configuration root. *)
Record RootConfiguration := {
  dma_libfabric : Configuration;
  jemalloc : JemallocConfiguration;
  observability : ObservabilityConfiguration;
}.

Definition default_root : RootConfiguration :=
  {| dma_libfabric := default_configuration; jemalloc := default_jemalloc;
     observability := {| console_host := None |} |}.

Record document := {
  s_dma_libfabric : option libfabric_section;
  s_jemalloc : option jemalloc_section;
  s_observability : option observability_section;
}.

Definition root_of_document (d : document) : RootConfiguration :=
  {| dma_libfabric := default default_configuration (libfabric_of_section <$> s_dma_libfabric d);
     jemalloc := default default_jemalloc (jemalloc_of_section <$> s_jemalloc d);
     observability :=
       default {| console_host := None |} (observability_of_section <$> s_observability d) |}.

Inductive ConfigurationError : Type := Parse (message : string).

Definition ConfigurationError_display (error : ConfigurationError) : string :=
  match error with Parse message => "failed to parse configuration: " +:+ message end.

(** [Configuration::from_toml].  [toml_parse] is [toml::from_str] up to the sections a
    document sets: unknown keys and ill-typed values are its errors. *)
Definition from_toml (toml_parse : string → result document string) (text : string) :
    result RootConfiguration ConfigurationError :=
  match toml_parse text with
  | Ok d => Ok (root_of_document d)
  | Err error => Err (Parse error)
  end.

(** A section that is there and sets nothing is the same as no section. *)
Definition empty_libfabric : libfabric_section := Build_libfabric_section None None None None None None None.
Definition empty_jemalloc : jemalloc_section := Build_jemalloc_section None None.

Lemma empty_sections_are_defaults d :
  (s_dma_libfabric d = None ∨ s_dma_libfabric d = Some empty_libfabric) →
  (s_jemalloc d = None ∨ s_jemalloc d = Some empty_jemalloc) →
  (s_observability d = None ∨ s_observability d = Some {| s_console_host := None |}) →
  root_of_document d = default_root.
Proof.
  destruct d as [l j o]; simpl. intros [-> | ->] [-> | ->] [-> | ->]; done.
Qed.
