(* ===== verification/Endpoint.v ===== *)
(** * The libfabric endpoint

    [endpoint.rs], [connection.rs], [devices.rs] and [completion_error] of
    [error.rs]: opening the fabric objects and closing them in reverse, reaping the
    completion queue, the operations the worker calls, and posting one-sided reads and
    writes.  Opening and closing are recorded as [setup_event]s, whose answers are
    parameters; the data path is recorded in the [trace] of [Fabric]. *)

From S2P Require Import Prelude Arc Wire Fabric RegionCache Operands PeerAddresses Config.

(** ** Setup *)

(** What a provider entry of [fi_getinfo] says of itself, as far as the crate reads
    it.  A null name is [None]. *)
Record fi_info := {
  info_domain_name : option string;
  info_prov_name : option string;
  info_addr_format : Z;
  info_mr_mode : Z;
  info_caps : Z;
  info_tx_size : Z;
}.

Record Hints := {
  h_caps : Z;
  h_mr_mode : Z;
  h_prov_name : string;
  h_fabric_name : option string;
  h_mode : Z;
  h_node : option string;
  h_flags : Z;
}.

Inductive object_kind : Type := FidFabric | FidDomain | FidAv | FidCq | FidEndpoint.

(** [GetInfo] notes whether the call handed over a list, which [FreeList] frees: one that
    fails allocates none. *)
Inductive setup_event : Type :=
  | AllocHints
  | GetInfo (hints : Hints) (listed : bool)
  | FreeHints
  | FreeList
  | DupInfo (chosen : fi_info)
  | Open (kind : object_kind) (parent object : Z)
  | OpenFailed (kind : object_kind) (parent : Z)
  | Bind (ep object flags : Z)
  | Enable (ep : Z)
  | ClearRegions (domain : Z)
  | ClearPeers (av : Z)
  | CloseFid (object : Z)
  | FreeInfo.

Class FabricSetup := {
  fi_allocinfo : list setup_event → bool;
  fi_getinfo : list setup_event → Hints → Z * list fi_info;
  fi_dupinfo : list setup_event → fi_info → option fi_info;
  (** Code and, on success, the object. *)
  fi_open : list setup_event → object_kind → Z → Z * Z;
  fi_ep_bind : list setup_event → Z → Z → Z → Z;
  fi_enable : list setup_event → Z → Z;
  (** The length the first [fi_getname] reports, then code, bytes and final length. *)
  fi_getname_length : Z → Z;
  fi_getname : Z → Z → Z * list u8 * Z;
}.

(** [CString::new]: refused for an interior NUL. *)
Definition cstring_new (s : string) : option string :=
  if decide (Byte.x00 ∈ ascii s) then None else Some s.

(** [CStr::to_str] *)
Definition to_str (s : string) : option string := if utf8_valid (ascii s) then Some s else None.

(** A string's [{:?}], for ASCII text: quoted, with [char::escape_debug]'s escapes. *)
Definition escape_debug (b : u8) : list u8 :=
  if bool_decide (b = Byte.x22 ∨ b = Byte.x5c) then [Byte.x5c; b]
  else if bool_decide (b = Byte.x0a) then [Byte.x5c; Byte.x6e]
  else if bool_decide (b = Byte.x0d) then [Byte.x5c; Byte.x72]
  else if bool_decide (b = Byte.x09) then [Byte.x5c; Byte.x74]
  else if bool_decide (b = Byte.x00) then [Byte.x5c; Byte.x30]
  else if between 0x01 0x1f b || bool_decide (b = Byte.x7f) then
    let digits := encode_byte b in
    [Byte.x5c; Byte.x75; Byte.x7b] ++
      (if bool_decide (head digits = Some Byte.x30) then tail digits else digits) ++ [Byte.x7d]
  else [b].

Definition debug_text (s : string) : string :=
  String.string_of_list_byte ([Byte.x22] ++ (ascii s ≫= escape_debug) ++ [Byte.x22]).

(** [struct LibfabricEndpoint]; a null pointer is 0. *)
Record Endpoint := {
  endpoint : Z;
  completion_queue : Z;
  av : Z;
  e_domain : Z;
  fabric : Z;
  info : option fi_info;
  requires_local_mr : bool;
  uses_virtual_addressing : bool;
  max_tx : Z;
  local_regions : Z;
  peer_addresses : PeerAddresses;
}.

Section setup.
  Context `{Libfabric, LibfabricFlags, FabricSetup}.

(** Whether [fi_getinfo] handed over a list. *)
Definition hands_over (code : Z) (info : list fi_info) : bool :=
  (0 =? code)%Z && negb (bool_decide (info = [])).

(** [query_info] *)
Definition query_info (configuration : Configuration) (source_node : option string)
    (ev : list setup_event) : result (list fi_info) DmaError * list setup_event :=
  let primary := default Tcp (head (providers configuration)) in
  match cstring_new (as_str primary) with
  | None => (Err (Fabric "invalid provider name"), ev)
  | Some provider =>
  match (match fabric_name primary with
         | Some name => match cstring_new name with
                        | Some name => Ok (Some name)
                        | None => Err (Fabric "invalid fabric name")
                        end
         | None => Ok None
         end) with
  | Err error => (Err error, ev)
  | Ok fabric_name =>
  match (match source_node with
         | Some node => match cstring_new node with
                        | Some node => Ok (Some node)
                        | None => Err (Fabric "invalid source node")
                        end
         | None => Ok None
         end) with
  | Err error => (Err error, ev)
  | Ok node =>
      if negb (fi_allocinfo ev) then (Err (Fabric "fi_allocinfo failed"), ev)
      else
        let hints := {|
          h_caps := foldr Z.lor 0 [FI_MSG; FI_RMA; FI_READ; FI_WRITE; FI_REMOTE_READ; FI_REMOTE_WRITE];
          h_mr_mode := foldr Z.lor 0 [FI_MR_LOCAL; FI_MR_ALLOCATED; FI_MR_PROV_KEY; FI_MR_VIRT_ADDR];
          h_prov_name := provider; h_fabric_name := fabric_name;
          h_mode := required_mode primary; h_node := node;
          h_flags := match node with Some _ => FI_SOURCE | None => 0 end |}%Z in
        let ev := ev ++ [AllocHints] in
        let '(code, info) := fi_getinfo ev hints in
        let ev := ev ++ [GetInfo hints (hands_over code info); FreeHints] in
        match check code "fi_getinfo" with
        | Err error => (Err error, ev)
        | Ok _ =>
            match info with
            | [] => (Err (Fabric "no provider matched"), ev)
            | _ => (Ok info, ev)
            end
        end
  end end end.

(** [select_domain]: the first entry with that domain name, from the list or later. *)
Definition select_domain (list_ : list fi_info) (want : string) : option fi_info :=
  snd <$> list_find (λ i, info_domain_name i ≫= to_str = Some want) list_.

(** ** [open] *)

Definition no_endpoint : Endpoint :=
  {| endpoint := 0; completion_queue := 0; av := 0; e_domain := 0; fabric := 0; info := None;
     requires_local_mr := false; uses_virtual_addressing := false; max_tx := 0;
     local_regions := 0; peer_addresses := peers_new 0 Opaque |}.

(** [impl Drop for LibfabricEndpoint]: the registrations and the peers go first, then
    every object that opened, in reverse. *)
Definition endpoint_drop (e : Endpoint) (ev : list setup_event) : list setup_event :=
  let close object := if decide (object ≠ 0%Z) then [CloseFid object] else [] in
  ev ++ [ClearRegions (local_regions e); ClearPeers (av e)] ++
    close (endpoint e) ++ close (completion_queue e) ++ close (av e) ++
    close (e_domain e) ++ close (fabric e) ++
    match info e with Some _ => [FreeInfo] | None => [] end.

(** A step of [open]: the endpoint built so far and the events so far. *)
Definition building : Type := Endpoint * list setup_event.

Definition open_object (kind : object_kind) (parent : Z) (what : string)
    (ev : list setup_event) : result Z DmaError * list setup_event :=
  let '(code, object) := fi_open ev kind parent in
  match check code what with
  | Ok _ => (Ok object, ev ++ [Open kind parent object])
  | Err error => (Err error, ev ++ [OpenFailed kind parent])
  end.

(** [mr_mode & FI_MR_.. != 0] *)
Definition has_flag (mask flag : Z) : bool := negb (Z.land mask flag =? 0)%Z.

(** The selected provider's requirements. *)
Definition with_info (i : fi_info) (e : Endpoint) : Endpoint :=
  {| endpoint := endpoint e; completion_queue := completion_queue e; av := av e;
     e_domain := e_domain e; fabric := fabric e; info := Some i;
     requires_local_mr := has_flag (info_mr_mode i) FI_MR_LOCAL;
     uses_virtual_addressing := has_flag (info_mr_mode i) FI_MR_VIRT_ADDR;
     max_tx := info_tx_size i; local_regions := local_regions e;
     peer_addresses := peer_addresses e |}.

Definition with_fabric (f : Z) (e : Endpoint) : Endpoint :=
  {| endpoint := endpoint e; completion_queue := completion_queue e; av := av e;
     e_domain := e_domain e; fabric := f; info := info e;
     requires_local_mr := requires_local_mr e; uses_virtual_addressing := uses_virtual_addressing e;
     max_tx := max_tx e; local_regions := local_regions e; peer_addresses := peer_addresses e |}.

Definition with_domain (d : Z) (e : Endpoint) : Endpoint :=
  {| endpoint := endpoint e; completion_queue := completion_queue e; av := av e;
     e_domain := d; fabric := fabric e; info := info e;
     requires_local_mr := requires_local_mr e; uses_virtual_addressing := uses_virtual_addressing e;
     max_tx := max_tx e; local_regions := d; peer_addresses := peer_addresses e |}.

Definition with_av (a : Z) (format : AddressFormat) (e : Endpoint) : Endpoint :=
  {| endpoint := endpoint e; completion_queue := completion_queue e; av := a;
     e_domain := e_domain e; fabric := fabric e; info := info e;
     requires_local_mr := requires_local_mr e; uses_virtual_addressing := uses_virtual_addressing e;
     max_tx := max_tx e; local_regions := local_regions e; peer_addresses := peers_new a format |}.

Definition with_cq (q : Z) (e : Endpoint) : Endpoint :=
  {| endpoint := endpoint e; completion_queue := q; av := av e;
     e_domain := e_domain e; fabric := fabric e; info := info e;
     requires_local_mr := requires_local_mr e; uses_virtual_addressing := uses_virtual_addressing e;
     max_tx := max_tx e; local_regions := local_regions e; peer_addresses := peer_addresses e |}.

Definition with_endpoint (p : Z) (e : Endpoint) : Endpoint :=
  {| endpoint := p; completion_queue := completion_queue e; av := av e;
     e_domain := e_domain e; fabric := fabric e; info := info e;
     requires_local_mr := requires_local_mr e; uses_virtual_addressing := uses_virtual_addressing e;
     max_tx := max_tx e; local_regions := local_regions e; peer_addresses := peer_addresses e |}.

(** Choosing the domain: everything up to [endpoint.info] being the chosen entry. *)
Definition choose_info (configuration : Configuration) (source_node : option string)
    (ev : list setup_event) : result Endpoint DmaError * building :=
  match query_info configuration source_node ev with
  | (Err error, ev) => (Err error, (no_endpoint, ev))
  | (Ok list_, ev) =>
      let wanted := head (interfaces configuration) in
      let chosen := match wanted with
                    | Some name => select_domain list_ name
                    | None => head list_
                    end in
      match chosen with
      | None =>
          (Err (Fabric ("no fabric domain named " +:+ debug_text (default EmptyString wanted))),
           (no_endpoint, ev ++ [FreeList]))
      | Some chosen =>
          match fi_dupinfo ev chosen with
          | None => (Err (Fabric "fi_dupinfo failed"), (no_endpoint, ev ++ [FreeList]))
          | Some i =>
              let e := with_info i no_endpoint in
              (Ok e, (e, ev ++ [DupInfo chosen; FreeList]))
          end
      end
  end.

(** The fabric, domain, address vector and completion queue, in that order. *)
Definition open_domain_objects (i : fi_info) (e : Endpoint) (ev : list setup_event) :
    result () DmaError * building :=
  match open_object FidFabric 0 "fi_fabric" ev with
  | (Err error, ev) => (Err error, (e, ev))
  | (Ok f, ev) =>
  let e := with_fabric f e in
  match open_object FidDomain f "fi_domain" ev with
  | (Err error, ev) => (Err error, (e, ev))
  | (Ok d, ev) =>
  let e := with_domain d e in
  match open_object FidAv d "fi_av_open" ev with
  | (Err error, ev) => (Err error, (e, ev))
  | (Ok a, ev) =>
  let e := with_av a (from_fi (info_addr_format i)) e in
  match open_object FidCq d "fi_cq_open" ev with
  | (Err error, ev) => (Err error, (e, ev))
  | (Ok q, ev) => (Ok tt, (with_cq q e, ev))
  end end end end.

(** The endpoint itself, bound to its vector and its queue, and enabled. *)
Definition enable_endpoint (e : Endpoint) (ev : list setup_event) : result () DmaError * building :=
  match open_object FidEndpoint (e_domain e) "fi_endpoint" ev with
  | (Err error, ev) => (Err error, (e, ev))
  | (Ok p, ev) =>
  let e := with_endpoint p e in
  let code := fi_ep_bind ev p (av e) 0 in
  let ev := ev ++ [Bind p (av e) 0] in
  match check code "fi_ep_bind(av)" with
  | Err error => (Err error, (e, ev))
  | Ok _ =>
  let flags := Z.lor FI_TRANSMIT FI_RECV in
  let code := fi_ep_bind ev p (completion_queue e) flags in
  let ev := ev ++ [Bind p (completion_queue e) flags] in
  match check code "fi_ep_bind(cq)" with
  | Err error => (Err error, (e, ev))
  | Ok _ =>
  let code := fi_enable ev p in
  let ev := ev ++ [Enable p] in
  match check code "fi_enable" with
  | Err error => (Err error, (e, ev))
  | Ok _ => (Ok tt, (e, ev))
  end end end end.

(** [LibfabricEndpoint::open]; every early return drops what was built. *)
Definition open (configuration : Configuration) (source_node : option string)
    (ev : list setup_event) : result Endpoint DmaError * list setup_event :=
  match choose_info configuration source_node ev with
  | (Err error, (e, ev)) => (Err error, endpoint_drop e ev)
  | (Ok e, (_, ev)) =>
  match info e with
  | None => (Err (Fabric "fi_dupinfo failed"), endpoint_drop e ev)
  | Some i =>
  match open_domain_objects i e ev with
  | (Err error, (e, ev)) => (Err error, endpoint_drop e ev)
  | (Ok _, (e, ev)) =>
  match enable_endpoint e ev with
  | (Err error, (e, ev)) => (Err error, endpoint_drop e ev)
  | (Ok _, (e, ev)) => (Ok e, ev)
  end end end end.

(** [discover_domains]: the names in order, each once. *)
Fixpoint collect_names (list_ : list fi_info) (names : list string) : list string :=
  match list_ with
  | [] => names
  | i :: list_ =>
      match info_domain_name i ≫= to_str with
      | None => collect_names list_ names
      | Some name =>
          collect_names list_ (if decide (name ∈ names) then names else names ++ [name])
      end
  end.

Definition discover_domains (configuration : Configuration) (ev : list setup_event) :
    result (list string) DmaError * list setup_event :=
  match query_info configuration None ev with
  | (Err error, ev) => (Err error, ev)
  | (Ok list_, ev) => (Ok (collect_names list_ []), ev ++ [FreeList])
  end.

(** [local_address] *)
Definition local_address (e : Endpoint) : result (list u8) DmaError :=
  let length := fi_getname_length (endpoint e) in
  if (0 =? length)%Z then Err (Fabric "fi_getname returned zero length")
  else
    let '(code, address, length) := fi_getname (endpoint e) length in
    let? _ := check code "fi_getname" in
    Ok (take (Z.to_nat length) address).

(** ** [describe] *)

Record EndpointInfo := {
  provider : string;
  addr_format : Z;
  mr_mode : Z;
  caps : Z;
  i_requires_local_mr : bool;
  i_uses_virtual_addressing : bool;
}.

Definition describe (i : fi_info) (e : Endpoint) : EndpointInfo :=
  {| provider := default EmptyString (info_prov_name i); addr_format := info_addr_format i;
     mr_mode := info_mr_mode i; caps := info_caps i;
     i_requires_local_mr := requires_local_mr e;
     i_uses_virtual_addressing := uses_virtual_addressing e |}.

Definition mr_mode_flags : list (Z * string) :=
  [(FI_MR_LOCAL, "LOCAL"); (FI_MR_VIRT_ADDR, "VIRT_ADDR"); (FI_MR_ALLOCATED, "ALLOCATED");
   (FI_MR_PROV_KEY, "PROV_KEY"); (FI_MR_ENDPOINT, "ENDPOINT"); (FI_MR_HMEM, "HMEM")].

Definition caps_flags : list (Z * string) :=
  [(FI_MSG, "MSG"); (FI_RMA, "RMA"); (FI_READ, "READ"); (FI_WRITE, "WRITE");
   (FI_REMOTE_READ, "REMOTE_READ"); (FI_REMOTE_WRITE, "REMOTE_WRITE")].

Definition decode_flags (flags : list (Z * string)) (mask : Z) : string :=
  String.concat "|" (omap (λ '(bit, name), if has_flag mask bit then Some name else None) flags).

Definition decode_mr_mode (mask : Z) : string := decode_flags mr_mode_flags mask.
Definition decode_caps (mask : Z) : string := decode_flags caps_flags mask.

Definition bool_text (b : bool) : string := if b then "true" else "false".

(** [{:x}]; the numbers are unsigned. *)
Fixpoint hex_digits (fuel : nat) (n : N) (acc : string) : string :=
  match fuel with
  | O => acc
  | S fuel =>
      let acc := String.string_of_list_byte [default Byte.x30 (from_digit16 (n mod 16))] +:+ acc in
      if decide (n / 16 = 0)%N then acc else hex_digits fuel (n / 16) acc
  end.

Definition hex_text (n : Z) : string := hex_digits 16 (Z.to_N n) "".

Definition lines (i : EndpointInfo) : list string :=
  ["provider: " +:+ provider i;
   "addr_format: " +:+ pretty (addr_format i);
   "mr_mode: 0x" +:+ hex_text (mr_mode i) +:+ " [" +:+ decode_mr_mode (mr_mode i) +:+ "]";
   "caps: 0x" +:+ hex_text (caps i) +:+ " [" +:+ decode_caps (caps i) +:+ "]";
   "requires_local_mr: " +:+ bool_text (i_requires_local_mr i);
   "uses_virtual_addressing: " +:+ bool_text (i_uses_virtual_addressing i)].

End setup.

(** ** The data path *)

Section data_path.
  Context `{Libfabric}.

(** [completion_error] of [error.rs] *)
Definition completion_error (entry : cq_err_entry) : DmaError :=
  Transfer ("completion error: " +:+ fi_strerror (err entry) +:+ " (err=" +:+ pretty (err entry) +:+
            "); provider: " +:+ provider_text entry +:+
            " (prov_errno=" +:+ pretty (prov_errno entry) +:+ ")").

Definition non_null_context (context : Z) : result Z DmaError :=
  if decide (context = 0%Z) then Err (Fabric "completion carried a null op_context") else Ok context.

Definition completion : Type := (Z * result () DmaError)%type.

Definition BATCH : nat := 16.

(** [read_error] *)
Definition read_error (queue : Z) (tr : trace) : result completion DmaError * trace :=
  let '(read, entry) := fi_cq_readerr tr in
  let tr := tr ++ [CqReadErr queue] in
  if (read <=? 0)%Z then (Err (fabric_error read "fi_cq_readerr"), tr)
  else (Ok (err_context entry, Err (completion_error entry)), tr).

(** Pushing a batch's entries, up to the first null context. *)
Fixpoint push_entries (entries : list Z) (out : list completion) :
    result () DmaError * list completion :=
  match entries with
  | [] => (Ok tt, out)
  | context :: entries =>
      match non_null_context context with
      | Err error => (Err error, out)
      | Ok context => push_entries entries (out ++ [(context, Ok tt)])
      end
  end.

(** The entry array after [fi_cq_read]: what it wrote, over nulls. *)
Definition entries_read (read : Z) (contexts : list Z) : list Z :=
  take (Z.to_nat read) (take BATCH contexts ++ replicate BATCH 0%Z).

(** One turn of [reap]'s loop; [None] goes round again. *)
Definition reap_turn (queue : Z) (max : nat) (out : list completion) (tr : trace) :
    option (result () DmaError) * list completion * trace :=
  let want := BATCH `min` (max - length out) in
  let '(read, contexts) := fi_cq_read tr want in
  let tr := tr ++ [CqRead queue want] in
  if (0 <? read)%Z then
    match push_entries (entries_read read contexts) out with
    | (Ok _, out) => (None, out, tr)
    | (Err error, out) => (Some (Err error), out, tr)
    end
  else if (read =? - FI_EAGAIN)%Z then (Some (Ok tt), out, tr)
  else if (read =? - FI_EAVAIL)%Z then
    match read_error queue tr with
    | (Err error, tr) => (Some (Err error), out, tr)
    | (Ok (context, r), tr) =>
        match non_null_context context with
        | Err error => (Some (Err error), out, tr)
        | Ok context => (None, out ++ [(context, r)], tr)
        end
    end
  else (Some (Err (fabric_error read "fi_cq_read")), out, tr).

(** [reap]: every turn that goes round again has appended, so [max] turns are enough. *)
Fixpoint reap_loop (fuel : nat) (queue : Z) (max : nat) (out : list completion) (tr : trace) :
    option (result () DmaError * list completion * trace) :=
  if length out <? max then
    match fuel with
    | O => None
    | S fuel =>
        match reap_turn queue max out tr with
        | (Some r, out, tr) => Some (r, out, tr)
        | (None, out, tr) => reap_loop fuel queue max out tr
        end
    end
  else Some (Ok tt, out, tr).

Definition reap (queue : Z) (max : nat) (out : list completion) (tr : trace) :
    option (result () DmaError * list completion * trace) :=
  reap_loop max queue max out tr.

(** ** What the worker calls *)

Definition with_peers (p : PeerAddresses) (e : Endpoint) : Endpoint :=
  {| endpoint := endpoint e; completion_queue := completion_queue e; av := av e;
     e_domain := e_domain e; fabric := fabric e; info := info e;
     requires_local_mr := requires_local_mr e; uses_virtual_addressing := uses_virtual_addressing e;
     max_tx := max_tx e; local_regions := local_regions e; peer_addresses := p |}.

(** [insert_peer]: an [Arc] on the entry to post against. *)
Definition insert_peer (client : Z) (address : list u8) (e : Endpoint) (tr : trace) :
    result nat DmaError * Endpoint * trace :=
  let '(r, p, tr) := handle client address (peer_addresses e) tr in (r, with_peers p e, tr).

Definition release_peer (client : Z) (e : Endpoint) (tr : trace) : Endpoint * trace :=
  let '(p, tr) := PeerAddresses.release client (peer_addresses e) tr in (with_peers p e, tr).

(** The [Arc] from [insert_peer] going out of scope. *)
Definition drop_peer (i : nat) (e : Endpoint) (tr : trace) : Endpoint * trace :=
  let '(p, tr) := drop_entries [i] (peer_addresses e) tr in (with_peers p e, tr).

Definition pin_region (b length : Z) (e : Endpoint) (c : cache) (tr : trace) :
    result () DmaError * cache * trace :=
  if negb (requires_local_mr e) then (Ok tt, c, tr) else pin (local_regions e) b length c tr.

Definition local_operand (ptr length : Z) (cacheable : option CacheableSpan)
    (e : Endpoint) (c : cache) (tr : trace) : result LocalOperand DmaError * cache * trace :=
  if negb (requires_local_mr e) then (Ok {| descriptor := 0; lease := None |}, c, tr)
  else operand (local_regions e) ptr length cacheable c tr.

(** ** [connection.rs] *)

Record LibfabricConnection := {
  c_endpoint : Z;
  c_peer : Z;
  c_remote_key : Z;
  c_remote_address : Z;
}.

(** [LibfabricConnection::new] *)
Definition connection_new (endpoint peer remote_key remote_address : Z) : LibfabricConnection :=
  {| c_endpoint := endpoint; c_peer := peer; c_remote_key := remote_key; c_remote_address := remote_address |}.

(** [LibfabricEndpoint::connection], to the entry [i]. *)
Definition connection (i : nat) (remote_key remote_address : Z) (e : Endpoint) : LibfabricConnection :=
  connection_new (endpoint e) (default 0%Z (peer <$> arc_value i (entries (peer_addresses e)))) remote_key remote_address.

Definition post_out (c : LibfabricConnection) (bytes : slice) (descriptor context : Z) (tr : trace) :
    Z * trace :=
  (fi_writemsg tr,
   tr ++ [WriteMsg (c_endpoint c) (pointer bytes) (len bytes) descriptor (c_peer c)
            (c_remote_address c) (c_remote_key c) context FI_DELIVERY_COMPLETE]).

Definition post_in (c : LibfabricConnection) (bytes : slice) (descriptor context : Z) (tr : trace) :
    Z * trace :=
  (fi_read tr,
   tr ++ [Read (c_endpoint c) (pointer bytes) (len bytes) descriptor (c_peer c)
            (c_remote_address c) (c_remote_key c) context]).

End data_path.

(** [impl Drop for LibfabricEndpoint] once in service: registrations, then peers, then
    the objects, on the calls the data path makes. *)
Section close.
  Context `{Libfabric}.

Definition close_objects (e : Endpoint) : trace :=
  let close object := if decide (object ≠ 0%Z) then [Close object] else [] in
  close (endpoint e) ++ close (completion_queue e) ++ close (av e) ++
  close (e_domain e) ++ close (fabric e).

Definition endpoint_close (e : Endpoint) (c : cache) (tr : trace) : Endpoint * cache * trace :=
  let '(c, tr) := Operands.clear (local_regions e) c tr in
  let '(p, tr) := PeerAddresses.clear (peer_addresses e) tr in
  (with_peers p e, c, tr ++ close_objects e).

End close.

(** ** Opening and closing *)

Definition opened (ev : list setup_event) : list Z :=
  omap (λ x, match x with Open _ _ object => Some object | _ => None end) ev.

Definition closed (ev : list setup_event) : list Z :=
  omap (λ x, match x with CloseFid object => Some object | _ => None end) ev.

(** How many [fi_info]s, hints and lists of [fi_getinfo] are allocated and not yet freed. *)
Definition infos (ev : list setup_event) : Z :=
  foldr (λ x n, match x with DupInfo _ => 1 + n | FreeInfo => n - 1 | _ => n end)%Z 0%Z ev.
Definition hints_live (ev : list setup_event) : Z :=
  foldr (λ x n, match x with AllocHints => 1 + n | FreeHints => n - 1 | _ => n end)%Z 0%Z ev.
Definition lists_live (ev : list setup_event) : Z :=
  foldr (λ x n, match x with GetInfo _ true => 1 + n | FreeList => n - 1 | _ => n end)%Z 0%Z ev.

Lemma opened_app ev1 ev2 : opened (ev1 ++ ev2) = opened ev1 ++ opened ev2.
Proof. apply omap_app. Qed.
Lemma closed_app ev1 ev2 : closed (ev1 ++ ev2) = closed ev1 ++ closed ev2.
Proof. apply omap_app. Qed.
Lemma infos_app ev1 ev2 : infos (ev1 ++ ev2) = (infos ev1 + infos ev2)%Z.
Proof. induction ev1 as [|[] ev1 IH]; simpl; lia. Qed.
Lemma hints_app ev1 ev2 : hints_live (ev1 ++ ev2) = (hints_live ev1 + hints_live ev2)%Z.
Proof. induction ev1 as [|[] ev1 IH]; simpl; lia. Qed.
Lemma lists_app ev1 ev2 : lists_live (ev1 ++ ev2) = (lists_live ev1 + lists_live ev2)%Z.
Proof. induction ev1 as [|[| ? []| | | | | | | | | | | ] ev1 IH]; simpl; lia. Qed.

Definition holdings (e : Endpoint) : list Z :=
  filter (λ o, o ≠ 0%Z) [fabric e; e_domain e; av e; completion_queue e; endpoint e].

Section opening.
  Context `{Libfabric, LibfabricFlags, FabricSetup}.

(** What an endpoint under construction holds is what was opened for it since [before]. *)
Record built_from (before : list setup_event) (e : Endpoint) (ev : list setup_event) : Prop := {
  b_opened : opened ev = opened before ++ holdings e;
  b_closed : closed ev = closed before;
  b_infos : infos ev = (infos before + match info e with Some _ => 1 | None => 0 end)%Z;
  b_hints : hints_live ev = hints_live before;
  b_lists : lists_live ev = lists_live before;
}.
Abbreviation built := (built_from []).

Lemma endpoint_drop_from before e ev :
  built_from before e ev →
  closed (endpoint_drop e ev) = closed before ++ reverse (holdings e) ∧
  opened (endpoint_drop e ev) = opened before ++ holdings e ∧
  infos (endpoint_drop e ev) = infos before ∧ hints_live (endpoint_drop e ev) = hints_live before ∧
  lists_live (endpoint_drop e ev) = lists_live before.
Proof.
  intros [Ho Hc Hi Hh Hl]. unfold endpoint_drop.
  rewrite !opened_app, !closed_app, !infos_app, !hints_app, !lists_app, Ho, Hc, Hi, Hh, Hl. unfold holdings.
  rewrite !filter_cons, filter_nil.
  repeat case_decide; destruct (info e); simpl; rewrite ?app_nil_r; split_and!; try done; lia.
Qed.

Lemma endpoint_drop_built e ev :
  built e ev →
  closed (endpoint_drop e ev) = reverse (opened (endpoint_drop e ev)) ∧
  opened (endpoint_drop e ev) = opened ev ∧
  infos (endpoint_drop e ev) = 0%Z ∧ hints_live (endpoint_drop e ev) = 0%Z ∧ lists_live (endpoint_drop e ev) = 0%Z.
Proof.
  intros Hb. destruct (endpoint_drop_from [] _ _ Hb) as (Hc & Ho & Hi & Hh & Hl).
  rewrite Hc, Ho, Hi, Hh, Hl, (b_opened _ _ _ Hb). done.
Qed.

Lemma built_quiet before e ev ev' :
  built_from before e ev → opened ev' = [] → closed ev' = [] → infos ev' = 0%Z → hints_live ev' = 0%Z →
  lists_live ev' = 0%Z → built_from before e (ev ++ ev').
Proof.
  intros [Ho Hc Hi Hh Hl] H2 H3 ???. split; rewrite ?opened_app, ?closed_app, ?infos_app, ?hints_app, ?lists_app;
    rewrite ?Ho, ?Hc, ?Hi, ?Hh, ?Hl.
  - by rewrite H2, app_nil_r.
  - by rewrite H3, app_nil_r.
  - destruct (info e); lia.
  - lia.
  - lia.
Qed.

Lemma query_info_quiet configuration node ev r ev' :
  query_info configuration node ev = (r, ev') →
  ∃ more, ev' = ev ++ more ∧ opened more = [] ∧ closed more = [] ∧ infos more = 0%Z ∧ hints_live more = 0%Z ∧
    lists_live more = (if is_ok r then 1 else 0)%Z.
Proof.
  unfold query_info. intros Hq.
  assert (∀ more, opened more = [] → closed more = [] → infos more = 0%Z → hints_live more = 0%Z →
    lists_live more = (if is_ok r then 1 else 0)%Z →
    ev' = ev ++ more → ∃ more, ev' = ev ++ more ∧ opened more = [] ∧ closed more = [] ∧
      infos more = 0%Z ∧ hints_live more = 0%Z ∧ lists_live more = (if is_ok r then 1 else 0)%Z) as Hsome by eauto 10.
  unfold hands_over, check in Hq.
  repeat (case_match; simplify_eq; try (by apply (Hsome []); rewrite ?app_nil_r)).
  all: eapply Hsome; [..|by rewrite <-?(assoc_L (++))]; done.
Qed.

Lemma choose_info_built configuration node before r e ev :
  choose_info configuration node before = (r, (e, ev)) →
  built_from before e ev ∧ fabric e = 0%Z ∧ e_domain e = 0%Z ∧ av e = 0%Z ∧ completion_queue e = 0%Z ∧ endpoint e = 0%Z ∧
  match r with Ok e' => e' = e ∧ ∃ i, e = with_info i no_endpoint | Err _ => True end.
Proof.
  unfold choose_info. destruct (query_info _ _ _) as [q ev1] eqn:Hq.
  apply query_info_quiet in Hq as (more & -> & H2 & H3 & H4 & H5 & H6). simpl in *.
  assert (∀ i tail, opened tail = [] → closed tail = [] → hints_live tail = 0%Z →
    lists_live tail = (- if is_ok q then 1 else 0)%Z →
    infos tail = (match info i with Some _ => 1 | None => 0 end)%Z → holdings i = [] →
    built_from before i ((before ++ more) ++ tail)) as Hb.
  { intros i tail Ht1 Ht2 Ht3 Ht6 Ht4 Ht5.
    split; rewrite ?opened_app, ?closed_app, ?infos_app, ?hints_app, ?lists_app, ?H2, ?H3, ?H4, ?H5, ?H6,
      ?Ht1, ?Ht2, ?Ht3, ?Ht4, ?Ht5, ?Ht6, ?app_nil_r; try done; [destruct (info i)| |]; lia. }
  destruct q as [list_|error].
  - destruct (match head (interfaces configuration) with Some _ => _ | None => _ end) as [chosen|];
      [destruct (fi_dupinfo _ chosen) as [i|]|]; intros Hr; simplify_eq; split_and!; try done;
      try (by apply Hb). eauto.
  - intros Hr. simplify_eq. split; [|done]. rewrite <-(app_nil_r (before ++ more)). by apply Hb.
Qed.

Lemma built_open before e e' ev kind parent object :
  built_from before e ev → holdings e' = holdings e ++ [object] → info e' = info e →
  built_from before e' (ev ++ [Open kind parent object]).
Proof.
  intros [Ho Hc Hi Hh Hl] He' Hi'.
  split; rewrite ?opened_app, ?closed_app, ?infos_app, ?hints_app, ?lists_app, ?Ho, ?Hc, ?Hi, ?Hh, ?Hl, ?He', ?Hi';
    simpl; rewrite ?app_nil_r, ?(assoc_L (++)); try done; lia.
Qed.

Lemma built_quiet1 before e ev x :
  built_from before e ev → opened [x] = [] → closed [x] = [] → infos [x] = 0%Z → hints_live [x] = 0%Z →
  lists_live [x] = 0%Z → built_from before e (ev ++ [x]).
Proof. intros. by apply built_quiet. Qed.

Lemma open_object_cases kind parent what ev r ev' :
  open_object kind parent what ev = (r, ev') →
  match r with
  | Ok object => ev' = ev ++ [Open kind parent object] ∧ fi_open ev kind parent = (0%Z, object)
  | Err _ => ev' = ev ++ [OpenFailed kind parent]
  end.
Proof.
  unfold open_object, check. destruct (fi_open ev kind parent) as [code object].
  destruct (Z.eqb_spec 0 code) as [<-|]; intros; by simplify_eq.
Qed.

Lemma failed_built before e ev kind parent :
  built_from before e ev → built_from before e (ev ++ [OpenFailed kind parent]).
Proof. intros. by apply built_quiet1. Qed.

(** Which fields of an endpoint are filled in, by how far [open] got. *)
Lemma open_domain_objects_built before i e ev r e' ev' :
  (∀ ev kind parent object, fi_open ev kind parent = (0%Z, object) → object ≠ 0%Z) →
  built_from before e ev → e = with_info i no_endpoint →
  open_domain_objects i e ev = (r, (e', ev')) →
  built_from before e' ev' ∧
  (is_ok r = true → endpoint e' = 0%Z ∧
     (fabric e' ≠ 0 ∧ e_domain e' ≠ 0 ∧ av e' ≠ 0 ∧ completion_queue e' ≠ 0)%Z ∧
     e' = with_cq (completion_queue e') (with_av (av e') (from_fi (info_addr_format i))
            (with_domain (e_domain e') (with_fabric (fabric e') e)))).
Proof.
  intros Hnull Hb -> Ho. unfold open_domain_objects in Ho.
  destruct (open_object FidFabric _ _ _) as [[f|] ev1] eqn:E1; apply open_object_cases in E1;
    [destruct E1 as [-> Hf%Hnull]|subst ev1; simplify_eq; split; [by apply failed_built|done]].
  apply (built_open _ _ (with_fabric f (with_info i no_endpoint)) _ FidFabric 0%Z f) in Hb;
    [|unfold holdings; simpl; rewrite !filter_cons, filter_nil; by repeat case_decide|done].
  destruct (open_object FidDomain _ _ _) as [[d|] ev2] eqn:E2; apply open_object_cases in E2;
    [destruct E2 as [-> Hd%Hnull]|subst ev2; simplify_eq; split; [by apply failed_built|done]].
  apply (built_open _ _ (with_domain d (with_fabric f (with_info i no_endpoint))) _ FidDomain f d) in Hb;
    [|unfold holdings; simpl; rewrite !filter_cons, filter_nil; by repeat case_decide|done].
  destruct (open_object FidAv _ _ _) as [[a|] ev3] eqn:E3; apply open_object_cases in E3;
    [destruct E3 as [-> Ha%Hnull]|subst ev3; simplify_eq; split; [by apply failed_built|done]].
  apply (built_open _ _ (with_av a (from_fi (info_addr_format i)) (with_domain d (with_fabric f (with_info i no_endpoint)))) _ FidAv d a) in Hb;
    [|unfold holdings; simpl; rewrite !filter_cons, filter_nil; by repeat case_decide|done].
  destruct (open_object FidCq _ _ _) as [[q|] ev4] eqn:E4; apply open_object_cases in E4;
    [destruct E4 as [-> Hq%Hnull]|subst ev4; simplify_eq; split; [by apply failed_built|done]].
  apply (built_open _ _ (with_cq q (with_av a (from_fi (info_addr_format i)) (with_domain d (with_fabric f (with_info i no_endpoint))))) _ FidCq d q) in Hb;
    [|unfold holdings; simpl; rewrite !filter_cons, filter_nil; by repeat case_decide|done].
  simplify_eq. split; [exact Hb|]. intros _. split_and!; try done.
Qed.

Lemma enable_endpoint_built before e ev r e' ev' :
  (∀ ev kind parent object, fi_open ev kind parent = (0%Z, object) → object ≠ 0%Z) →
  built_from before e ev → endpoint e = 0%Z →
  enable_endpoint e ev = (r, (e', ev')) →
  built_from before e' ev' ∧
  (is_ok r = true → endpoint e' ≠ 0%Z ∧ e' = with_endpoint (endpoint e') e).
Proof.
  intros Hnull Hb He Ho. unfold enable_endpoint in Ho.
  destruct (open_object _ _ _ _) as [[p|] ev1] eqn:E1; apply open_object_cases in E1;
    [destruct E1 as [-> Hp%Hnull]|subst ev1; simplify_eq; split; [by apply failed_built|done]].
  apply (built_open _ _ (with_endpoint p e) _ FidEndpoint (e_domain e) p) in Hb;
    [|unfold holdings; simpl; rewrite He, !filter_cons, filter_nil; by repeat case_decide|done].
  destruct (check _ _); simplify_eq; [|split; [by apply built_quiet1|done]].
  destruct (check _ _); simplify_eq; [|split; [do 2 (apply built_quiet1; [|done..]); done|done]].
  destruct (check _ _); simplify_eq; split; try (do 3 (apply built_quiet1; [|done..]); done); done.
Qed.

(** What [open] leaves, whichever way it ends. *)
Lemma open_cases configuration node before r ev :
  (∀ ev kind parent object, fi_open ev kind parent = (0%Z, object) → object ≠ 0%Z) →
  open configuration node before = (r, ev) →
  match r with
  | Err _ => ∃ e ev0, built_from before e ev0 ∧ ev = endpoint_drop e ev0
  | Ok e =>
      built_from before e ev ∧ holdings e = [fabric e; e_domain e; av e; completion_queue e; endpoint e] ∧
      ∃ i, e = with_endpoint (endpoint e) (with_cq (completion_queue e)
             (with_av (av e) (from_fi (info_addr_format i))
                (with_domain (e_domain e) (with_fabric (fabric e) (with_info i no_endpoint)))))
  end.
Proof.
  intros Hnull Ho. unfold open in Ho.
  destruct (choose_info _ _ _) as [[e0|] [e1 ev1]] eqn:E1; apply choose_info_built in E1;
    destruct E1 as (Hb & _ & _ & _ & _ & _ & E1); [|simplify_eq; eauto].
  destruct E1 as (-> & i & ->). simpl in Ho.
  destruct (open_domain_objects _ _ _) as [r2 [e2 ev2]] eqn:E2.
  apply (open_domain_objects_built before) in E2 as (Hb2 & E2); [|done..].
  destruct r2 as [[]|]; [|simplify_eq; eauto]. destruct E2 as (Hz & (Hf & Hd & Ha & Hq) & He2); [done|].
  destruct (enable_endpoint _ _) as [r3 [e3 ev3]] eqn:E3.
  apply (enable_endpoint_built before) in E3 as (Hb3 & E3); [|done..].
  destruct r3 as [[]|]; [|simplify_eq; eauto]. destruct E3 as (Hp & He3); [done|]. simplify_eq.
  split; [done|]. split; [|exists i; by rewrite He3, He2].
  rewrite He3, He2. unfold holdings. simpl. rewrite !filter_cons, filter_nil. repeat case_decide; done.
Qed.

(** C25: Opening an endpoint leaks nothing.  Whichever step fails, every object opened
    before it is closed once, in reverse order of opening, and the hints, the list
    [fi_getinfo] handed over and the chosen entry's copy are freed; and once all steps
    succeed, hints and list are freed too, the endpoint holds the five objects,
    its registrations and peers name its own domain and vector, its requirements are
    those of the chosen entry, and dropping it closes all five in reverse. *)
Theorem open_leaks_nothing configuration node
  (Hnull : ∀ ev kind parent object, fi_open ev kind parent = (0%Z, object) → object ≠ 0%Z) :
  let '(r, ev) := open configuration node [] in
  match r with
  | Err _ => closed ev = reverse (opened ev) ∧ infos ev = 0%Z ∧ hints_live ev = 0%Z ∧ lists_live ev = 0%Z
  | Ok e =>
      opened ev = [fabric e; e_domain e; av e; completion_queue e; endpoint e] ∧ closed ev = [] ∧
      closed (endpoint_drop e ev) = reverse (opened ev) ∧
      infos ev = 1%Z ∧ infos (endpoint_drop e ev) = 0%Z ∧ hints_live ev = 0%Z ∧ lists_live ev = 0%Z ∧
      local_regions e = e_domain e ∧ address_vector (peer_addresses e) = av e ∧
      ∃ i, info e = Some i ∧ max_tx e = info_tx_size i ∧
        requires_local_mr e = has_flag (info_mr_mode i) FI_MR_LOCAL ∧
        format (peer_addresses e) = from_fi (info_addr_format i)
  end.
Proof.
  destruct (open configuration node []) as [r ev] eqn:Ho. apply open_cases in Ho; [|done].
  destruct r as [e|].
  - destruct Ho as (Hb & Hh & i & He). destruct (endpoint_drop_built _ _ Hb) as (Hc & Hopen & Hi & _).
    rewrite Hopen in Hc.
    split_and!; try done; [by rewrite (b_opened _ _ _ Hb)|apply Hb|by rewrite (b_infos _ _ _ Hb), He|apply Hb|apply Hb|by rewrite He..|].
    exists i. by rewrite He.
  - destruct Ho as (e0 & ev0 & Hb & ->). by destruct (endpoint_drop_built _ _ Hb) as (? & ? & ? & ? & ?).
Qed.

End opening.

(** ** Reaping *)

Section reaping.
  Context `{Libfabric}.

(** The completions a call to the queue yields, given the calls before it. *)
Definition cq_answer (before : trace) (call : fabric_call) : list completion :=
  match call with
  | CqRead _ want =>
      let '(read, contexts) := fi_cq_read before want in
      if (0 <? read)%Z then (λ context, (context, Ok tt)) <$> entries_read read contexts else []
  | CqReadErr _ =>
      let '(read, entry) := fi_cq_readerr before in
      if (read <=? 0)%Z then [] else [(err_context entry, Err (completion_error entry))]
  | _ => []
  end.

Fixpoint cq_completions (before calls : trace) : list completion :=
  match calls with
  | [] => []
  | call :: calls => cq_answer before call ++ cq_completions (before ++ [call]) calls
  end.

Lemma cq_completions_app before calls1 calls2 :
  cq_completions before (calls1 ++ calls2) =
  cq_completions before calls1 ++ cq_completions (before ++ calls1) calls2.
Proof.
  revert before. induction calls1 as [|c calls1 IH]; intros before; simpl; [by rewrite app_nil_r|].
  by rewrite IH, <-!(assoc_L (++)).
Qed.

(** What a pass over the queue delivers and what, on an error, it drops: nothing, or
    a null context and whatever was read behind it. *)
Definition reap_post (tr : trace) (out : list completion) (r : result () DmaError)
    (out' : list completion) (tr' : trace) : Prop :=
  ∃ calls delivered lost, tr' = tr ++ calls ∧ out' = out ++ delivered ∧
    cq_completions tr calls = delivered ++ lost ∧ Forall (λ x, x.1 ≠ 0%Z) delivered ∧
    (is_ok r = true → lost = []) ∧ (lost ≠ [] → ∃ x rest, lost = x :: rest ∧ x.1 = 0%Z).

Lemma push_entries_spec entries out r out' :
  push_entries entries out = (r, out') →
  ∃ done_ lost, entries = done_ ++ lost ∧ out' = out ++ ((λ c, (c, Ok tt)) <$> done_) ∧
    Forall (λ c, c ≠ 0%Z) done_ ∧ (is_ok r = true → lost = []) ∧
    (is_ok r = false → ∃ rest, lost = 0%Z :: rest).
Proof.
  revert out. induction entries as [|c entries IH]; intros out Hp; simpl in Hp.
  { simplify_eq. exists [], []. csimpl. rewrite app_nil_r. naive_solver. }
  unfold non_null_context in Hp. case_decide as Hc.
  - simplify_eq. exists [], (0%Z :: entries). rewrite app_nil_r. naive_solver.
  - apply IH in Hp as (d & l & -> & -> & Hd & Hok & Herr). exists (c :: d), l.
    split_and!; [done| |by constructor|done|done]. csimpl. by rewrite <-(assoc_L (++)).
Qed.

Lemma reap_turn_spec queue max out tr r out' tr' :
  length out < max →
  reap_turn queue max out tr = (r, out', tr') →
  reap_post tr out (default (Ok tt) r) out' tr' ∧ (r = None → length out < length out') ∧
  (r = Some (Ok tt) → ∃ tr0 want, tr' = tr0 ++ [CqRead queue want] ∧ (fi_cq_read tr0 want).1 = (- FI_EAGAIN)%Z).
Proof.
  intros Hlen. unfold reap_turn. set (want := BATCH `min` (max - length out)).
  destruct (fi_cq_read tr want) as [read contexts] eqn:Er. destruct (Z.ltb_spec 0 read) as [Hr|Hr].
  - destruct (push_entries _ _) as [q out1] eqn:Ep.
    apply push_entries_spec in Ep as (d & l & Hd & -> & Hnn & Hok & Herr).
    assert (cq_completions tr [CqRead queue want] = ((λ c, (c, Ok tt)) <$> d) ++ ((λ c, (c, Ok tt)) <$> l)) as Hcq.
    { simpl. rewrite Er, app_nil_r. destruct (Z.ltb_spec 0 read); [|lia]. by rewrite Hd, fmap_app. }
    assert (Forall (λ x : completion, x.1 ≠ 0%Z) ((λ c, (c, Ok tt)) <$> d)) as Hnn'.
    { apply Forall_fmap. eapply Forall_impl; [done|]. done. }
    destruct q as [[]|e]; intros; simplify_eq; (split; [|split; [|done]]).
    + specialize (Hok eq_refl) as ->. exists [CqRead queue want], ((λ c, (c, Ok tt)) <$> d), [].
      split_and!; done.
    + intros _. specialize (Hok eq_refl) as ->. rewrite app_nil_r in Hd. subst d.
      rewrite length_app, length_fmap. unfold entries_read. rewrite length_take.
      rewrite length_app, length_replicate. unfold BATCH. lia.
    + destruct (Herr eq_refl) as [rest ->].
      exists [CqRead queue want], ((λ c, (c, Ok tt)) <$> d), ((λ c, (c, Ok tt)) <$> (0%Z :: rest)).
      split_and!; [done..|]. intros _. csimpl. eauto.
    + done.
  - assert (cq_answer tr (CqRead queue want) = []) as Hnil.
    { simpl. rewrite Er. destruct (Z.ltb_spec 0 read); [lia|done]. }
    destruct (Z.eqb_spec read (- FI_EAGAIN)) as [->|]; [|destruct (Z.eqb_spec read (- FI_EAVAIL)) as [->|]].
    + intros; simplify_eq. split; [|split; [done|]].
      * exists [CqRead queue want], [], []. rewrite app_nil_r. cbn [cq_completions]. by rewrite Hnil.
      * intros _. exists tr, want. by rewrite Er.
    + unfold read_error. destruct (fi_cq_readerr _) as [code entry] eqn:Ee.
      destruct (Z.leb_spec code 0); simpl.
      * intros; simplify_eq. split; [|done].
        exists [CqRead queue want; CqReadErr queue], [], []. rewrite app_nil_r. cbn [cq_completions].
        rewrite Hnil. simpl. rewrite Ee. destruct (Z.leb_spec code 0); [|lia].
        by rewrite <-(assoc_L (++)).
      * assert (cq_completions tr [CqRead queue want; CqReadErr queue] =
                [(err_context entry, Err (completion_error entry))]) as Hcq.
        { cbn [cq_completions]. rewrite Hnil. simpl. rewrite Ee. destruct (Z.leb_spec code 0); [lia|done]. }
        unfold non_null_context. case_decide as Hc; intros; simplify_eq; split_and!; try done.
        -- exists [CqRead queue want; CqReadErr queue], [], [(err_context entry, Err (completion_error entry))].
           rewrite app_nil_r, <-(assoc_L (++)). split_and!; [done..|]. intros _. eauto.
        -- exists [CqRead queue want; CqReadErr queue], [(err_context entry, Err (completion_error entry))], [].
           rewrite <-(assoc_L (++)). split_and!; try done. by repeat constructor.
        -- intros _. rewrite length_app. simpl. lia.
    + intros; simplify_eq. split; [|done]. exists [CqRead queue want], [], [].
      rewrite app_nil_r. cbn [cq_completions]. by rewrite Hnil.
Qed.

Lemma reap_post_trans tr out out1 tr1 r out2 tr2 :
  reap_post tr out (Ok tt) out1 tr1 → reap_post tr1 out1 r out2 tr2 → reap_post tr out r out2 tr2.
Proof.
  intros (c1 & d1 & l1 & -> & -> & Hc1 & Hn1 & Hok1 & _) (c2 & d2 & l2 & -> & -> & Hc2 & Hn2 & Hok2 & Hl2).
  specialize (Hok1 eq_refl) as ->. exists (c1 ++ c2), (d1 ++ d2), l2.
  rewrite cq_completions_app, Hc1, Hc2, app_nil_r, <-!(assoc_L (++)).
  split_and!; try done. by apply Forall_app.
Qed.

Lemma reap_loop_spec fuel queue max out tr :
  max - length out ≤ fuel →
  ∃ r out' tr', reap_loop fuel queue max out tr = Some (r, out', tr') ∧
    reap_post tr out r out' tr' ∧
    (r = Ok tt → max ≤ length out' ∨
       ∃ tr0 want, tr' = tr0 ++ [CqRead queue want] ∧ (fi_cq_read tr0 want).1 = (- FI_EAGAIN)%Z).
Proof.
  assert (∀ out tr, reap_post tr out (Ok tt) out tr) as Hrefl.
  { intros out0 tr0. exists [], [], []. by rewrite !app_nil_r. }
  revert out tr. induction fuel as [|fuel IH]; intros out tr Hf; simpl;
    destruct (Nat.ltb_spec (length out) max) as [Hlt|Hge]; try lia.
  - eexists _, _, _. split; [done|]. auto.
  - destruct (reap_turn queue max out tr) as [[[r|] out1] tr1] eqn:Et;
      apply reap_turn_spec in Et as (Hpost & Hgrow & Hagain); try done.
    + eexists _, _, _. split; [done|]. split; [done|]. intros ->. auto.
    + specialize (Hgrow eq_refl). destruct (IH out1 tr1) as (r & out' & tr' & -> & Hp & Hr); [lia|].
      eexists _, _, _. split; [done|]. split; [|done]. by eapply reap_post_trans.
  - eexists _, _, _. split; [done|]. auto.
Qed.

(** The queue is all a reap touches. *)
Definition queue_call (call : fabric_call) : Prop :=
  match call with CqRead _ _ | CqReadErr _ => True | _ => False end.

Lemma reap_turn_calls queue max out tr r out' tr' :
  reap_turn queue max out tr = (r, out', tr') → ∃ calls, tr' = tr ++ calls ∧ Forall queue_call calls.
Proof.
  unfold reap_turn, read_error. intros Ht.
  assert (∀ n, ∃ calls, tr ++ [CqRead queue n] = tr ++ calls ∧ Forall queue_call calls) as H1.
  { intros n. eexists. split; [done|]. by repeat constructor. }
  assert (∀ n, ∃ calls, (tr ++ [CqRead queue n]) ++ [CqReadErr queue] = tr ++ calls ∧ Forall queue_call calls) as H2.
  { intros n. eexists. split; [by rewrite <-(assoc_L (++))|]. by repeat constructor. }
  repeat case_match; simplify_eq; auto.
Qed.

Lemma reap_loop_calls fuel queue max out tr r out' tr' :
  reap_loop fuel queue max out tr = Some (r, out', tr') →
  ∃ calls, tr' = tr ++ calls ∧ Forall queue_call calls.
Proof.
  revert out tr. induction fuel as [|fuel IH]; intros out tr; simpl; destruct (_ <? _); intros Hr;
    simplify_eq; try (exists []; by rewrite app_nil_r).
  destruct (reap_turn _ _ _ _) as [[[q|] out1] tr1] eqn:Ht; apply reap_turn_calls in Ht as (c1 & -> & Hc1).
  - simplify_eq. eauto.
  - apply IH in Hr as (c2 & -> & Hc2). exists (c1 ++ c2). rewrite (assoc_L (++)). split; [done|].
    by apply Forall_app.
Qed.

(** C37: Reaping loses nothing but what sits behind a null context.  [reap] always
    returns; every context it appends is non-null; when it succeeds it has appended all
    the completions the queue gave up, in order, successes and errors alike, and it
    stopped because it has [max] or the queue was empty; when it fails, the completions
    it read are those it appended, followed at most by one with a null context and the
    rest of that batch. *)
Theorem reap_delivers queue max out tr :
  ∃ r out' tr', reap queue max out tr = Some (r, out', tr') ∧
  ∃ calls delivered lost, tr' = tr ++ calls ∧ out' = out ++ delivered ∧
    cq_completions tr calls = delivered ++ lost ∧ Forall (λ x, x.1 ≠ 0%Z) delivered ∧
    (lost ≠ [] → ∃ x rest, lost = x :: rest ∧ x.1 = 0%Z) ∧
    (r = Ok tt → lost = [] ∧ (max ≤ length out' ∨
       ∃ tr0 want, tr' = tr0 ++ [CqRead queue want] ∧ (fi_cq_read tr0 want).1 = (- FI_EAGAIN)%Z)).
Proof.
  destruct (reap_loop_spec max queue max out tr) as (r & out' & tr' & Hreap & Hpost & Hr); [lia|].
  exists r, out', tr'. split; [done|].
  destruct Hpost as (calls & d & l & ? & ? & ? & ? & Hok & ?). exists calls, d, l.
  split_and!; try done. intros ->. split; [by apply Hok|by apply Hr].
Qed.

(** Closing an endpoint in service closes nothing too early.  Its domain's cached
    registrations leave the cache and every entry of its address vector is removed
    before the first object closes, the objects close in reverse order of opening, and
    other domains' registrations stay cached. *)
Lemma endpoint_close_order `{!AddressVectorLaws fmt} e c L tr e' c' tr'
  (Hc : process_ok (Process c L tr))
  (Hp : peers_ok (peer_addresses e) ∅ (clear_domain (local_regions e) c tr).2)
  (Hf : format (peer_addresses e) = fmt)
  (He : endpoint_close e c tr = (e', c', tr')) :
  ∃ tr1, tr' = tr1 ++ close_objects e ∧
    av_slots (address_vector (peer_addresses e)) fmt tr1 ∅ ∧
    (∀ d b, view (registry c') d b =
       if decide (d = local_regions e) then None else view (registry c) d b).
Proof.
  unfold endpoint_close, Operands.clear in He. unfold clear_domain in *.
  destruct (clear_domain_locked _ c) as [retired c1] eqn:Ec.
  apply clear_domain_locked_spec in Ec as (_ & _ & Hv & _); [|apply Hc].
  unfold RegionCache.release in *. destruct (arc_drop_all retired _) as [h gone]. simpl in Hp.
  destruct (PeerAddresses.clear _ _) as [p tr1] eqn:Ep. simplify_eq.
  destruct (clear_ok _ _ _ _ Hp Ep) as (Hs & _ & _). by exists tr1.
Qed.

End reaping.

(** ** Witnesses *)

#[local] Existing Instance example_libfabric.

Definition example_flags : LibfabricFlags := {|
  FI_CONTEXT2 := 2 ^ 58; FI_RX_CQ_DATA := 2 ^ 56; FI_MSG := 2; FI_RMA := 4; FI_READ := 256;
  FI_WRITE := 512; FI_REMOTE_READ := 4096; FI_REMOTE_WRITE := 8192; FI_SOURCE := 2 ^ 57;
  FI_TRANSMIT := 2048; FI_RECV := 1024; FI_MR_ALLOCATED := 32; FI_MR_PROV_KEY := 64;
  FI_MR_ENDPOINT := 512; FI_MR_HMEM := 1024 |}.

Definition example_info : fi_info :=
  {| info_domain_name := Some "rdmap83s0-rdm"; info_prov_name := Some "efa"; info_addr_format := 19;
     info_mr_mode := 20; info_caps := 6; info_tx_size := 256 |}.

(** Everything opens, and then enabling the endpoint fails with [enabled]. *)
Definition example_setup (enabled : Z) : FabricSetup := {|
  fi_allocinfo _ := true;
  fi_getinfo _ _ := (0%Z, [example_info]);
  fi_dupinfo _ i := Some i;
  fi_open ev _ _ := (0%Z, 1 + Z.of_nat (length ev))%Z;
  fi_ep_bind _ _ _ _ := 0%Z;
  fi_enable _ _ := enabled;
  fi_getname_length _ := 2%Z;
  fi_getname _ _ := (0%Z, [Byte.x01; Byte.x02], 2%Z) |}.

Lemma open_leaks_nothing_witness :
  let '(r, ev) := @open _ example_flags (example_setup (-22)) default_configuration None [] in
  is_ok r = false ∧ opened ev = [6; 7; 8; 9; 10]%Z ∧ closed ev = [10; 9; 8; 7; 6]%Z.
Proof.
  pose proof (@open_leaks_nothing _ example_flags (example_setup (-22)) default_configuration None
    ltac:(intros ev ? ? o Ho; cbn in Ho; simplify_eq; lia)) as Hleak.
  vm_compute in Hleak. vm_compute. split; [done|]. split; [done|]. apply Hleak.
Defined.

