(* ===== verification/PassiveTarget.v ===== *)
(** * The passive target

    [examples/passive_target/mod.rs]: the client half, in raw libfabric.  A target opens an
    endpoint as the server does, registers a buffer for remote access, and from then on only
    polls: the server reads and writes the buffer by itself.  [design/Client.md] is the
    contract it follows. *)

From S2P Require Import Prelude Wire Fabric RegionCache Operands PeerAddresses Config Endpoint.

(** ** State *)

(** [struct Target]: every handle, null when never opened, and the list [fi_getinfo] gave,
    whose first entry is the one used. *)
Record Target := {
  t_memory_region : Z;
  t_endpoint : Z;
  t_completion_queue : Z;
  t_address_vector : Z;
  t_domain : Z;
  t_fabric : Z;
  t_info : list fi_info;
}.

Definition target_null : Target :=
  {| t_memory_region := 0; t_endpoint := 0; t_completion_queue := 0; t_address_vector := 0; t_domain := 0;
     t_fabric := 0; t_info := [] |}.

Definition set_info (l : list fi_info) (t : Target) : Target :=
  {| t_memory_region := t_memory_region t; t_endpoint := t_endpoint t; t_completion_queue := t_completion_queue t;
     t_address_vector := t_address_vector t; t_domain := t_domain t; t_fabric := t_fabric t; t_info := l |}.
Definition set_fabric (o : Z) (t : Target) : Target :=
  {| t_memory_region := t_memory_region t; t_endpoint := t_endpoint t; t_completion_queue := t_completion_queue t;
     t_address_vector := t_address_vector t; t_domain := t_domain t; t_fabric := o; t_info := t_info t |}.
Definition set_domain (o : Z) (t : Target) : Target :=
  {| t_memory_region := t_memory_region t; t_endpoint := t_endpoint t; t_completion_queue := t_completion_queue t;
     t_address_vector := t_address_vector t; t_domain := o; t_fabric := t_fabric t; t_info := t_info t |}.
Definition set_address_vector (o : Z) (t : Target) : Target :=
  {| t_memory_region := t_memory_region t; t_endpoint := t_endpoint t; t_completion_queue := t_completion_queue t;
     t_address_vector := o; t_domain := t_domain t; t_fabric := t_fabric t; t_info := t_info t |}.
Definition set_completion_queue (o : Z) (t : Target) : Target :=
  {| t_memory_region := t_memory_region t; t_endpoint := t_endpoint t; t_completion_queue := o;
     t_address_vector := t_address_vector t; t_domain := t_domain t; t_fabric := t_fabric t; t_info := t_info t |}.
Definition set_endpoint (o : Z) (t : Target) : Target :=
  {| t_memory_region := t_memory_region t; t_endpoint := o; t_completion_queue := t_completion_queue t;
     t_address_vector := t_address_vector t; t_domain := t_domain t; t_fabric := t_fabric t; t_info := t_info t |}.
Definition set_memory_region (o : Z) (t : Target) : Target :=
  {| t_memory_region := o; t_endpoint := t_endpoint t; t_completion_queue := t_completion_queue t;
     t_address_vector := t_address_vector t; t_domain := t_domain t; t_fabric := t_fabric t; t_info := t_info t |}.

(** [struct Exposed] *)
Record Exposed := { exposed_key : Z; exposed_address : Z }.

(** What a target calls once it is open. *)
Inductive target_call : Type :=
  | RegisterRemote (domain pointer length access : Z)
  | InsertPeer (address_vector : Z) (address : list u8)
  | PollQueue (queue : Z).

Class TargetFabric := {
  (** [fi_mr_reg]: the code and, on success, the region. *)
  remote_mr_reg : list target_call → Z → Z → Z → Z → Z * Z;
  fi_mr_key : Z → Z;
  (** [fi_av_insert] of one address: how many were inserted. *)
  insert_one : list target_call → Z → list u8 → Z;
}.

(** [check]: the errors are texts here. *)
Definition target_check (code : Z) (what : string) : result () string :=
  if (0 =? code)%Z then Ok tt else Err (what +:+ " failed: " +:+ pretty code).

(** [impl Drop for Target]: each handle that is there, in this order, and the list. *)
Definition target_drop (t : Target) (ev : list setup_event) : list setup_event :=
  let close fid := if decide (fid ≠ 0%Z) then [CloseFid fid] else [] in
  ev ++ close (t_memory_region t) ++ close (t_endpoint t) ++ close (t_completion_queue t) ++
    close (t_address_vector t) ++ close (t_domain t) ++ close (t_fabric t) ++
    match t_info t with [] => [] | _ => [FreeList] end.

Section target.
  Context `{Libfabric, LibfabricFlags, FabricSetup, TargetFabric}.

(** ** [open] *)

(** What [open] builds: the target so far and the calls so far.  A step that fails leaves
    through [?]. *)
Definition construction : Type := Target * list setup_event.
Definition step : Type := construction → result () string * construction.

Definition and_then (m n : step) : step := λ s,
  match m s with
  | (Ok _, s) => n s
  | (Err error, s) => (Err error, s)
  end.
#[local] Infix ">>" := and_then (at level 60, right associativity).

(** Opening one object below another and storing it. *)
Definition acquire (kind : object_kind) (parent : Target → Z) (store : Z → Target → Target) (what : string) : step :=
  λ '(t, ev),
    let '(code, object) := fi_open ev kind (parent t) in
    match target_check code what with
    | Ok _ => (Ok tt, (store object t, ev ++ [Open kind (parent t) object]))
    | Err error => (Err error, (t, ev ++ [OpenFailed kind (parent t)]))
    end.

(** A call on the endpoint. *)
Definition on_endpoint (call : list setup_event → Target → Z) (event : Target → setup_event) (what : string) : step :=
  λ '(t, ev), (target_check (call ev t) what, (t, ev ++ [event t])).

(** The hints of the query. *)
Definition target_hints (use_efa : bool) (node : option string) : Hints := {|
  h_caps := foldr Z.lor 0 [FI_MSG; FI_RMA; FI_READ; FI_WRITE; FI_REMOTE_READ; FI_REMOTE_WRITE];
  h_mr_mode := foldr Z.lor 0 [FI_MR_LOCAL; FI_MR_ALLOCATED; FI_MR_PROV_KEY; FI_MR_VIRT_ADDR];
  h_prov_name := if use_efa then "efa" else "tcp";
  h_fabric_name := if use_efa then Some "efa-direct" else None;
  h_mode := if use_efa then FI_CONTEXT2 else 0;
  h_node := node;
  h_flags := match node with Some _ => FI_SOURCE | None => 0 end |}%Z.

(** The query: its hints are freed whatever it answers. *)
Definition target_query (use_efa : bool) (node : option string) : step := λ '(t, ev),
  if negb (fi_allocinfo ev) then (Err "fi_allocinfo failed", (t, ev))
  else
    let hints := target_hints use_efa node in
    let ev := ev ++ [AllocHints] in
    let '(code, info) := fi_getinfo ev hints in
    let t := set_info info t in
    let ev := ev ++ [GetInfo hints (hands_over code info); FreeHints] in
    match target_check code "fi_getinfo" with
    | Err error => (Err error, (t, ev))
    | Ok _ => match info with [] => (Err "no provider matched", (t, ev)) | _ => (Ok tt, (t, ev)) end
    end.

(** The objects, in order, and the endpoint's bindings. *)
Definition target_objects : step :=
  acquire FidFabric (λ _, 0%Z) set_fabric "fi_fabric" >>
  acquire FidDomain t_fabric set_domain "fi_domain" >>
  acquire FidAv t_domain set_address_vector "fi_av_open" >>
  acquire FidCq t_domain set_completion_queue "fi_cq_open" >>
  acquire FidEndpoint t_domain set_endpoint "fi_endpoint".

Definition target_enable : step :=
  let flags := Z.lor FI_TRANSMIT FI_RECV in
  on_endpoint (λ ev t, fi_ep_bind ev (t_endpoint t) (t_address_vector t) 0)
    (λ t, Bind (t_endpoint t) (t_address_vector t) 0) "fi_ep_bind(av)" >>
  on_endpoint (λ ev t, fi_ep_bind ev (t_endpoint t) (t_completion_queue t) flags)
    (λ t, Bind (t_endpoint t) (t_completion_queue t) flags) "fi_ep_bind(cq)" >>
  on_endpoint (λ ev t, fi_enable ev (t_endpoint t)) (λ t, Enable (t_endpoint t)) "fi_enable".

(** [Target::open]; an early return drops the target.  The two names it makes itself hold no
    NUL; the address to bind to may. *)
Definition target_open (use_efa : bool) (bind : option string) (ev : list setup_event) :
    result Target string * list setup_event :=
  match (match bind with
         | Some bind => match cstring_new bind with
                        | Some node => Ok (Some node)
                        | None => Err "bind address"
                        end
         | None => Ok None
         end) with
  | Err error => (Err error, target_drop target_null ev)
  | Ok node =>
      match (target_query use_efa node >> target_objects >> target_enable) (target_null, ev) with
      | (Ok _, (t, ev)) => (Ok t, ev)
      | (Err error, (t, ev)) => (Err error, target_drop t ev)
      end
  end.

(** ** In service *)

(** The provider addresses buffers by where they are, not by an offset. *)
Definition virtual_addressing (t : Target) : bool :=
  has_flag (default 0%Z (info_mr_mode <$> head (t_info t))) FI_MR_VIRT_ADDR.

(** The access a buffer is registered with. *)
Definition exposed_access (remote_read : bool) : Z :=
  let remote := if remote_read then Z.lor FI_REMOTE_READ FI_REMOTE_WRITE else FI_REMOTE_WRITE in
  Z.lor (Z.lor remote FI_READ) FI_WRITE.

(** [Target::expose] *)
Definition target_expose (pointer length : Z) (remote_read : bool) (t : Target) (tr : list target_call) :
    result Exposed string * Target * list target_call :=
  let access := exposed_access remote_read in
  let '(code, region) := remote_mr_reg tr (t_domain t) pointer length access in
  let tr := tr ++ [RegisterRemote (t_domain t) pointer length access] in
  match target_check code "fi_mr_reg" with
  | Err error => (Err error, t, tr)
  | Ok _ =>
      let t := set_memory_region region t in
      (Ok {| exposed_key := fi_mr_key (t_memory_region t);
             exposed_address := if virtual_addressing t then pointer else 0 |}, t, tr)
  end.

(** [Target::address] *)
Definition target_address (t : Target) : result (list u8) string :=
  let length := fi_getname_length (t_endpoint t) in
  let '(code, address, length) := fi_getname (t_endpoint t) length in
  let? _ := target_check code "fi_getname" in
  Ok (take (Z.to_nat length) address).

(** [Target::insert_initiator] *)
Definition insert_initiator (address : list u8) (t : Target) (tr : list target_call) :
    result () string * list target_call :=
  let inserted := insert_one tr (t_address_vector t) address in
  let tr := tr ++ [InsertPeer (t_address_vector t) address] in
  (if (1 =? inserted)%Z then Ok tt else Err ("fi_av_insert inserted " +:+ pretty inserted +:+ " of 1"), tr).

(** [Target::progress]: what it reads is thrown away. *)
Definition target_progress (t : Target) (tr : list target_call) : list target_call :=
  tr ++ [PollQueue (t_completion_queue t)].

End target.

(** ** Nothing leaks *)

Section lifetime.
  Context `{Libfabric, LibfabricFlags, FabricSetup, TargetFabric}.

(** The objects [open] fills in, in its order. *)
Definition target_slots (t : Target) : list Z :=
  [t_fabric t; t_domain t; t_address_vector t; t_completion_queue t; t_endpoint t].

#[local] Arguments target_slots : simpl never.

(** The first [k] objects are there, were opened for this target and nothing was closed. *)
Record raised (k : nat) (s : construction) : Prop := {
  ra_there : Forall (λ o, o ≠ 0%Z) (take k (target_slots s.1));
  ra_null : Forall (λ o, o = 0%Z) (drop k (target_slots s.1));
  ra_opened : opened s.2 = take k (target_slots s.1);
  ra_closed : closed s.2 = [];
  ra_region : t_memory_region s.1 = 0%Z;
  ra_hints : hints_live s.2 = 0%Z;
}.

(** A step raises what it opens, or leaves everything as it was. *)
Definition raises (k k' : nat) (m : step) : Prop :=
  ∀ s r s', raised k s → m s = (r, s') → (is_ok r = true → raised k' s') ∧ ∃ j, raised j s'.

Lemma raises_then k k1 k2 m n : raises k k1 m → raises k1 k2 n → raises k k2 (and_then m n).
Proof.
  intros Hm Hn s r s' Hs. unfold and_then. destruct (m s) as [[u|error] s1] eqn:Em;
    destruct (Hm _ _ _ Hs Em) as [Hok Hj].
  - by apply Hn, Hok.
  - by intros [= <- <-].
Qed.

Lemma target_check_Ok code what : is_ok (target_check code what) = true → code = 0%Z.
Proof. unfold target_check. destruct (Z.eqb_spec 0 code); [done|]. by destruct code. Qed.

Lemma raised_quiet k t ev x :
  raised k (t, ev) → opened [x] = [] → closed [x] = [] → hints_live [x] = 0%Z → raised k (t, ev ++ [x]).
Proof.
  intros [] Ho Hc Hh. split; cbn [fst snd] in *; rewrite ?opened_app, ?closed_app, ?hints_app, ?Ho, ?Hc, ?Hh, ?app_nil_r;
    try done. lia.
Qed.

Lemma on_endpoint_raises k call event what :
  (∀ t, opened [event t] = [] ∧ closed [event t] = [] ∧ hints_live [event t] = 0%Z) →
  raises k k (on_endpoint call event what).
Proof.
  intros He [t ev] r s' Hs [= <- <-]. destruct (He t) as (? & ? & ?).
  assert (raised k (t, ev ++ [event t])) as Hr by by apply raised_quiet. eauto.
Qed.

(** Opening the [k]th object. *)
Lemma acquire_raises k kind parent store what :
  (∀ ev kind parent object, fi_open ev kind parent = (0%Z, object) → object ≠ 0%Z) →
  (∀ o t, take k (target_slots (store o t)) = take k (target_slots t)) →
  (∀ o t, drop k (target_slots (store o t)) = o :: drop (S k) (target_slots t)) →
  (∀ o t, t_memory_region (store o t) = t_memory_region t) →
  raises k (S k) (acquire kind parent store what).
Proof.
  intros Hnull Hbelow Habove Hregion [t ev] r s' Hs. unfold acquire. destruct (fi_open _ _ _) as [code object] eqn:Ef.
  destruct (target_check code what) as [u|error] eqn:Ec; intros [= <- <-].
  - assert (code = 0%Z) as -> by (apply (target_check_Ok _ what); by rewrite Ec). apply Hnull in Ef.
    assert (take (S k) (target_slots (store object t)) = take k (target_slots t) ++ [object]) as Htake.
    { rewrite <-(take_drop k (target_slots (store object t))), Hbelow, Habove.
      assert (length (take k (target_slots t)) = k) as Hk.
      { rewrite length_take. pose proof (Habove object t) as Hd. apply (f_equal length) in Hd.
        rewrite length_drop in Hd. simpl in Hd |- *. lia. }
      rewrite take_app_ge, Hk by (rewrite Hk; lia). by replace (S k - k) with 1 by lia. }
    assert (drop (S k) (target_slots (store object t)) = drop (S k) (target_slots t)) as Hdrop.
    { pose proof (f_equal (drop 1) (Habove object t)) as Hd. rewrite drop_drop, Nat.add_1_r in Hd. by rewrite Hd. }
    assert (raised (S k) (store object t, ev ++ [Open kind (parent t) object])) as Hr; [|by eauto].
    destruct Hs as [Ht Hn Ho Hc Hm Hh]. simpl in *. split; simpl; rewrite ?Htake, ?Hdrop, ?Hregion; try done.
    + apply Forall_app. auto.
    + apply Forall_drop with (n := 1) in Hn. by rewrite drop_drop, Nat.add_1_r in Hn.
    + by rewrite opened_app, Ho.
    + by rewrite closed_app, Hc.
    + rewrite hints_app, Hh. done.
  - split; [done|]. exists k. by apply raised_quiet.
Qed.

Lemma target_query_raises use_efa node : raises 0 0 (target_query use_efa node).
Proof.
  intros [t ev] r s' Hs. unfold target_query.
  assert (∀ info hints given, raised 0 (set_info info t, (ev ++ [AllocHints]) ++ [GetInfo hints given; FreeHints])) as Hr.
  { intros info hints given. destruct Hs as [Ht Hn Ho Hc Hm Hh]. simpl in *.
    split; cbn [fst snd]; rewrite ?opened_app, ?closed_app, ?hints_app, ?Ho, ?Hc, ?Hh; try done. }
  destruct (fi_allocinfo ev); simpl; [|intros [= <- <-]; eauto].
  destruct (fi_getinfo _ _) as [code info]. specialize (Hr info).
  destruct (target_check _ _); [destruct info|]; intros [= <- <-]; eauto.
Qed.

Lemma target_open_raises :
  (∀ ev kind parent object, fi_open ev kind parent = (0%Z, object) → object ≠ 0%Z) →
  ∀ use_efa node, raises 0 5 (and_then (target_query use_efa node) (and_then target_objects target_enable)).
Proof.
  intros Hnull use_efa node. eapply raises_then; [apply target_query_raises|].
  eapply raises_then with (k1 := 5).
  - repeat (eapply raises_then; [by apply acquire_raises|]). by apply acquire_raises.
  - repeat (eapply raises_then; [by apply on_endpoint_raises|]). by apply on_endpoint_raises.
Qed.

Lemma raised_drop k t ev :
  raised k (t, ev) →
  opened (target_drop t ev) = opened ev ∧ closed (target_drop t ev) = reverse (opened ev) ∧
  hints_live (target_drop t ev) = 0%Z.
Proof.
  intros [Ht Hn Ho Hc Hm Hh]. simpl in *.
  assert (filter (λ o, o ≠ 0%Z) (target_slots t) = opened ev) as Hf.
  { rewrite <-(take_drop k (target_slots t)), filter_app, Ho.
    rewrite (filter_keeps_all _ (take _ _)), (filter_keeps_none _ (drop _ _)), app_nil_r; [done| |done].
    eapply Forall_impl; [exact Hn|]. simpl. tauto. }
  unfold target_drop. rewrite Hm, decide_False by tauto.
  rewrite !opened_app, !closed_app, !hints_app, Hc, Hh, <-Hf. unfold target_slots. rewrite !filter_cons, filter_nil.
  repeat case_decide; destruct (t_info t); simpl; rewrite ?app_nil_r; done.
Qed.

(** However far [open] gets, what it opened is closed in reverse order and its hints are
    freed; and a target that opens has all five objects. *)
Lemma target_open_cases use_efa bind r ev :
  (∀ ev kind parent object, fi_open ev kind parent = (0%Z, object) → object ≠ 0%Z) →
  target_open use_efa bind [] = (r, ev) →
  match r with
  | Ok t => raised 5 (t, ev)
  | Err _ => closed ev = reverse (opened ev) ∧ hints_live ev = 0%Z
  end.
Proof.
  intros Hnull. unfold target_open. destruct (match bind with Some _ => _ | None => _ end) as [node|error];
    [|by intros [= <- <-]].
  assert (raised 0 (target_null, [])) as Hs by by split; repeat constructor.
  destruct (and_then _ _ _) as [r1 [t ev1]] eqn:Em.
  destruct (target_open_raises Hnull _ _ _ _ _ Hs Em) as [Hok [j Hj]].
  destruct r1 as [u|error]; intros [= <- <-]; [by apply Hok|].
  by destruct (raised_drop _ _ _ Hj) as (-> & -> & ->).
Qed.

(** ** The hints, and the server's *)

(** The target's query is the server's [query_info], the mode on efa apart: the server also
    asks for [FI_RX_CQ_DATA]. *)
Lemma hints_compared p configuration node hints given ev r :
  head (providers configuration) = Some p → query_info configuration node [] = (r, ev) → GetInfo hints given ∈ ev →
  let mine := target_hints (bool_decide (p = EfaDirect)) node in
  h_caps hints = h_caps mine ∧ h_mr_mode hints = h_mr_mode mine ∧ h_prov_name hints = h_prov_name mine ∧
  h_fabric_name hints = h_fabric_name mine ∧ h_node hints = h_node mine ∧ h_flags hints = h_flags mine ∧
  h_mode hints = (if decide (p = EfaDirect) then Z.lor (h_mode mine) FI_RX_CQ_DATA else h_mode mine).
Proof.
  intros Hp. unfold query_info. rewrite Hp. intros Hq Hin.
  assert (∀ s s', cstring_new s = Some s' → s' = s) as Hc.
  { intros s s'. unfold cstring_new. case_decide; naive_solver. }
  destruct p; cbn -[cstring_new ascii] in Hq.
  all: repeat (case_match; simplify_eq/=); repeat match goal with H : cstring_new _ = Some _ |- _ => apply Hc in H as -> end.
  all: rewrite ?elem_of_app, ?elem_of_cons, ?elem_of_nil in Hin; naive_solver.
Qed.

End lifetime.
