(* ===== verification/Client.v ===== *)
(** * The client's half

    [examples/one_target.rs] advertises a buffer and waits for the server to fill or fetch
    it; [examples/common/mod.rs] is how an initiator's command line and its stdin give that
    advertisement back.  What one prints the other parses, and the module as well. *)

From S2P Require Import Prelude Wire Fabric Operands Config Endpoint PassiveTarget.
From Stdlib Require Import Strings.Byte.

(** ** [examples/common/mod.rs] *)

(** How many bytes long the character a text starts with is, if it is [char::is_whitespace]:
    ASCII's six, U+0085, U+00A0, U+1680, U+2000 to U+200A, U+2028, U+2029, U+202F, U+205F and
    U+3000. *)
Definition whitespace_len (text : list u8) : option nat :=
  match text with
  | a :: rest =>
      if between 0x09 0x0D a || bool_decide (a = x20) then Some 1
      else
        match rest with
        | b :: rest =>
            if bool_decide (a = xc2) && (bool_decide (b = x85) || bool_decide (b = xa0)) then Some 2
            else
              match rest with
              | c :: _ =>
                  if (bool_decide (a = xe1) && bool_decide (b = x9a) && bool_decide (c = x80)) ||
                     (bool_decide (a = xe2) && bool_decide (b = x80) &&
                        (between 0x80 0x8A c || bool_decide (c = xa8) || bool_decide (c = xa9) || bool_decide (c = xaf))) ||
                     (bool_decide (a = xe2) && bool_decide (b = x81) && bool_decide (c = x9f)) ||
                     (bool_decide (a = xe3) && bool_decide (b = x80) && bool_decide (c = x80))
                  then Some 3 else None
              | [] => None
              end
        | [] => None
        end
  | [] => None
  end.

(** [str::split_whitespace] of text in UTF-8: [skip] bytes of a separator are left, and [word]
    is the field so far. *)
Fixpoint split_fields (skip : nat) (word : list u8) (text : list u8) : list (list u8) :=
  let close := match word with [] => [] | _ => [word] end in
  match text with
  | [] => close
  | b :: rest =>
      match skip with
      | S skip => split_fields skip word rest
      | O =>
          match whitespace_len text with
          | Some n => close ++ split_fields (n - 1) [] rest
          | None => split_fields 0 (word ++ [b]) rest
          end
      end
  end.

Definition split_whitespace (text : list u8) : list (list u8) := split_fields 0 [] text.

(** [advertisement]: [None] unless there are exactly three fields. *)
Definition advertisement_of (fields : list (list u8)) : option (result Advertisement DmaError) :=
  match fields with
  | [address; remote_key; remote_address] =>
      Some (match from_fields [address; remote_key; remote_address] with
            | Ok a => Ok a
            | Err error => Err (Fabric (AdvertisementError_display error))
            end)
  | _ => None
  end.

(** [peer_from_stdin], by what [read_line] gave. *)
Definition peer_from_stdin (line : result (list u8) string) : result Advertisement DmaError :=
  match line with
  | Err error => Err (Fabric ("reading the advertisement: " +:+ error))
  | Ok line =>
      let fields := split_whitespace line in
      match advertisement_of fields with
      | Some peer => peer
      | None => Err (Fabric ("expected <address-hex> <rkey> <remote-addr>, got " +:+
                             pretty (List.length fields) +:+ " fields"))
      end
  end.

Record Arguments := { a_configuration : Configuration; a_peer : option Advertisement }.

(** An argument that is a flag. *)
Definition is_flag (argument : string) : bool := String.prefix "--" argument.

(** [parse], of the arguments after the program's name. *)
Definition parse (arguments : list string) : result Arguments DmaError :=
  let flags := filter (λ a, is_flag a = true) arguments in
  let positional := filter (λ a, is_flag a = false) arguments in
  let efa := bool_decide ("--efa" ∈ flags) in
  let '(bind, positional) := if efa then (None, positional) else (head positional, tail positional) in
  let configuration := {|
    providers := [if efa then EfaDirect else Tcp]; interfaces := interfaces default_configuration; bind := bind;
    max_in_flight := max_in_flight default_configuration;
    crc_pool_threads := crc_pool_threads default_configuration;
    progress_deadline := progress_deadline default_configuration;
    quiesce_writes := quiesce_writes default_configuration |} in
  match advertisement_of (ascii <$> positional) with
  | Some (Err error) => Err error
  | Some (Ok peer) => Ok {| a_configuration := configuration; a_peer := Some peer |}
  | None => Ok {| a_configuration := configuration; a_peer := None |}
  end.

(** What becomes of a transfer an example asks for: the worker refuses it, is gone before it
    completes, or completes it. *)
Inductive attempt (A : Type) : Type := Refused | WorkerExited | Completed (outcome : A).
#[global] Arguments Refused {A}.
#[global] Arguments WorkerExited {A}.
#[global] Arguments Completed {A} _.

(** ** [examples/one_target.rs] *)

Definition BUFFER_LEN : Z := 4096.
Definition PATTERN : u8 := xab.

(** The line [main] prints, but for its label: the three fields an initiator is given. *)
Definition advertisement_fields (address : list u8) (exposed : Exposed) : list (list u8) :=
  [encode_hex address; ascii (pretty (exposed_key exposed)); ascii (pretty (exposed_address exposed))].

Definition advertisement_line (address : list u8) (exposed : Exposed) : list u8 :=
  match advertisement_fields address exposed with
  | [a; k; r] => a ++ [x20] ++ k ++ [x20] ++ r
  | _ => []
  end.

Section one_target.
  Context `{Libfabric, LibfabricFlags, FabricSetup, TargetFabric}.

(** [main] up to the advertisement, which is printed after its label; whatever fails drops
    the target.  [pointer] is where the buffer is. *)
Definition one_target_advertise (use_efa : bool) (bind initiator : option string) (pointer : Z)
    (ev : list setup_event) (tr : list target_call) :
    result (Target * list u8) string * list setup_event * list target_call :=
  match target_open use_efa bind ev with
  | (Err error, ev) => (Err error, ev, tr)
  | (Ok t, ev) =>
      let '(exposed, t, tr) := target_expose pointer BUFFER_LEN true t tr in
      match exposed with
      | Err error => (Err error, target_drop t ev, tr)
      | Ok exposed =>
          match target_address t with
          | Err error => (Err error, target_drop t ev, tr)
          | Ok address =>
              let printed := ascii "advertisement: " ++ advertisement_line address exposed in
              match initiator with
              | None => (Ok (t, printed), ev, tr)
              | Some initiator =>
                  match decode_hex (ascii initiator) with
                  | Err error => (Err (AdvertisementError_display error), target_drop t ev, tr)
                  | Ok bytes =>
                      match insert_initiator bytes t tr with
                      | (Err error, tr) => (Err error, target_drop t ev, tr)
                      | (Ok _, tr) => (Ok (t, printed), ev, tr)
                      end
                  end
              end
          end
      end
  end.

(** [main]'s command line: whether to serve a read, whether on efa, what to bind to and the
    initiator's address. *)
Definition one_target_arguments (arguments : list string) : bool * bool * option string * option string :=
  let flags := filter (λ a, is_flag a = true) arguments in
  let positional := filter (λ a, is_flag a = false) arguments in
  let serve_read := bool_decide ("--read" ∈ flags) in
  let use_efa := bool_decide ("--efa" ∈ flags) in
  let '(bind, positional) := if use_efa then (None, positional) else (head positional, tail positional) in
  (serve_read, use_efa, bind, head positional).

(** The deadline, from when the wait begins. *)
Definition one_target_window : Z := from_secs 300.

(** The wait: [clock] is what each reading of the clock gives, the deadline's first, and
    [memory] the buffer as each turn reads it.  [fuel] turns are tried. *)
Fixpoint await_transfer (fuel turn : nat) (serve_read : bool) (deadline : Z) (clock : nat → Z) (memory : nat → list u8)
    (t : Target) (tr : list target_call) : option (result () string * list target_call) :=
  if (clock (S turn) <? deadline)%Z then
    match fuel with
    | O => None
    | S fuel =>
        let tr := target_progress t tr in
        if negb serve_read && forallb (Byte.eqb PATTERN) (memory turn) then Some (Ok tt, tr)
        else await_transfer fuel (S turn) serve_read deadline clock memory t tr
    end
  else Some (if serve_read then Ok tt else Err "timed out waiting for a transfer", tr).

Definition one_target_wait (fuel : nat) (serve_read : bool) (clock : nat → Z) (memory : nat → list u8)
    (t : Target) (tr : list target_call) : option (result () string * list target_call) :=
  await_transfer fuel 0 serve_read (clock 0 + one_target_window) clock memory t tr.

End one_target.

(** ** What is printed is what is parsed *)

Definition value_from (acc : Z) (digits : list u8) : Z :=
  foldl (λ acc b, (acc * 10 + Z.of_N (Byte.to_N b - 0x30))%Z) acc digits.

Lemma ascii_String c s : ascii (String.String c s) = Ascii.byte_of_ascii c :: ascii s.
Proof. done. Qed.

Lemma ascii_app s1 s2 : ascii (s1 +:+ s2) = ascii s1 ++ ascii s2.
Proof. unfold ascii, String.list_byte_of_string. induction s1 as [|c s1 IH]; [done|]. simpl. by rewrite IH. Qed.

Lemma digit_byte n :
  (n < 10)%N → is_decimal (Ascii.byte_of_ascii (pretty_N_char n)) = true ∧
  (Byte.to_N (Ascii.byte_of_ascii (pretty_N_char n)) - 0x30 = n)%N.
Proof.
  intros Hn. destruct n as [|p]; [done|]. do 4 (try destruct p as [p|p|]); try done; lia.
Qed.

Lemma pretty_go_decimal x s :
  ∃ digits, ascii (pretty_N_go x s) = digits ++ ascii s ∧ forallb is_decimal digits = true ∧
    value_from 0 digits = Z.of_N x ∧ (digits = [] → x = 0%N).
Proof.
  revert s. induction (N.lt_wf_0 x) as [x _ IH]; intros s.
  destruct (decide (x = 0)%N) as [->|Hx]; [exists []; by rewrite pretty_N_go_0|].
  rewrite pretty_N_go_step by lia.
  destruct (IH (x `div` 10)%N (N.div_lt x 10 ltac:(lia) eq_refl) (String.String (pretty_N_char (x `mod` 10)) s))
    as (digits & -> & Hd & Hv & _).
  destruct (digit_byte (x `mod` 10)%N ltac:(by apply N.mod_lt)) as [Hb Hn].
  exists (digits ++ [Ascii.byte_of_ascii (pretty_N_char (x `mod` 10))]). split_and!.
  - by rewrite ascii_String, <-(assoc_L (++)).
  - rewrite forallb_app, Hd. simpl. by rewrite Hb.
  - unfold value_from in *. rewrite foldl_app, Hv. simpl. rewrite Hn. rewrite (N.div_mod x 10) at 3 by done. lia.
  - intros Hnil%(f_equal length). rewrite length_app in Hnil. simpl in Hnil. lia.
Qed.

(** A number's text is decimal digits of its value. *)
Lemma pretty_decimal n :
  (0 ≤ n)%Z → ascii (pretty n) ≠ [] ∧ forallb is_decimal (ascii (pretty n)) = true ∧ decimal_value (ascii (pretty n)) = n.
Proof.
  intros Hn. destruct n as [|p|p]; [done| |lia].
  change (pretty (Z.pos p)) with (pretty_N_go (N.pos p) "").
  destruct (pretty_go_decimal (N.pos p) "") as (digits & -> & Hd & Hv & Hne).
  rewrite app_nil_r. split_and!; [naive_solver|done|]. exact Hv.
Qed.

Lemma parse_ascii_pretty n : in_u64 n → parse_ascii u64_max (ascii (pretty n)) = Some n.
Proof.
  intros [Hn Hlt]. destruct (pretty_decimal n Hn) as (Hne & Hd & Hv).
  assert (utf8_valid (ascii (pretty n)) = true) as Hutf.
  { apply ascii_utf8_valid. rewrite forallb_forall in *. eauto using is_decimal_ascii. }
  unfold parse_ascii. rewrite Hutf. apply parse_unsigned_Some; [done|].
  exists (ascii (pretty n)). split_and!; [by left|done|done|done|]. unfold u64_max, u64_end in *. lia.
Qed.

Lemma from_fields_advertised address exposed :
  in_u64 (exposed_key exposed) → in_u64 (exposed_address exposed) →
  from_fields (advertisement_fields address exposed) =
    Ok {| Wire.address := address; remote_key := exposed_key exposed; remote_address := exposed_address exposed |}.
Proof.
  intros Hk Hr. unfold advertisement_fields, from_fields. rewrite !parse_ascii_pretty by done.
  assert (decode_hex (encode_hex address) = Ok address) as ->; [|done].
  unfold decode_hex. rewrite encode_hex_length.
  assert (Nat.even (2 * length address) = true) as -> by (apply Nat.even_spec; by exists (length address)).
  apply decode_chunks_encode_hex.
Qed.

(** ** Fields of a line *)

(** A byte that starts no whitespace and continues none. *)
Definition graphic (b : u8) : bool := between 0x21 0x7E b.

Lemma graphic_not_space b text : graphic b = true → whitespace_len (b :: text) = None.
Proof.
  intros Hb. destruct b; try discriminate Hb; by destruct text as [|? []].
Qed.

Lemma split_fields_word word field text :
  forallb graphic field = true → split_fields 0 word (field ++ text) = split_fields 0 (word ++ field) text.
Proof.
  revert word. induction field as [|b field IH]; intros word; [by rewrite app_nil_r|].
  cbn [forallb app]. rewrite andb_true_iff. intros [Hb Hf]. cbn [split_fields]. rewrite graphic_not_space by done.
  by rewrite IH, <-(assoc_L (++)).
Qed.

(** A field before a space, or before the end of the line. *)
Lemma split_fields_space field text :
  field ≠ [] → split_fields 0 field (x20 :: text) = field :: split_fields 0 [] text.
Proof. intros Hne. by destruct field. Qed.

Lemma split_fields_newline field : field ≠ [] → split_fields 0 field [x0a] = [field].
Proof. intros Hne. by destruct field. Qed.

Lemma hex_graphic bytes : forallb graphic (encode_hex bytes) = true.
Proof.
  apply forallb_forall. intros b (byte & Hb & _)%list_elem_of_In%list_elem_of_bind.
  assert (forallb graphic (encode_byte byte) = true) as H by by destruct byte.
  rewrite forallb_forall in H. apply H. by apply list_elem_of_In.
Qed.

Lemma decimal_graphic digits : forallb is_decimal digits = true → forallb graphic digits = true.
Proof. rewrite !forallb_forall. intros H b Hb%H. by destruct b. Qed.

(** The line, read back. *)
Lemma peer_from_advertised address exposed :
  address ≠ [] → in_u64 (exposed_key exposed) → in_u64 (exposed_address exposed) →
  peer_from_stdin (Ok (advertisement_line address exposed ++ [x0a])) =
    Ok {| Wire.address := address; remote_key := exposed_key exposed; remote_address := exposed_address exposed |}.
Proof.
  intros Ha Hk Hr. pose proof (from_fields_advertised address exposed Hk Hr) as Hfields.
  destruct (pretty_decimal (exposed_key exposed) ltac:(apply Hk)) as (Hkn & Hkd%decimal_graphic & _).
  destruct (pretty_decimal (exposed_address exposed) ltac:(apply Hr)) as (Hrn & Hrd%decimal_graphic & _).
  assert (encode_hex address ≠ []) as Hhn by (by destruct address).
  unfold peer_from_stdin, split_whitespace, advertisement_line. cbn [advertisement_fields]. rewrite <-!(assoc_L (++)).
  rewrite (split_fields_word [] _ _ (hex_graphic address)). cbn [app]. rewrite split_fields_space by done.
  rewrite (split_fields_word [] _ _ Hkd). cbn [app]. rewrite split_fields_space by done.
  rewrite (split_fields_word [] _ _ Hrd). cbn [app]. rewrite split_fields_newline by done.
  cbn [advertisement_of]. unfold advertisement_fields in Hfields. by rewrite Hfields.
Qed.

(** C34: What a target prints, an initiator reads.  The three fields of the advertisement,
    as arguments of a command or pasted into an initiator's stdin as one line, parse to the
    address, key and remote address the target has, for every address and every [u64]. *)
Theorem advertisement_round_trip address exposed
  (Ha : address ≠ []) (Hk : in_u64 (exposed_key exposed)) (Hr : in_u64 (exposed_address exposed)) :
  let peer := {| Wire.address := address; remote_key := exposed_key exposed; remote_address := exposed_address exposed |} in
  from_fields (advertisement_fields address exposed) = Ok peer ∧
  peer_from_stdin (Ok (advertisement_line address exposed ++ [x0a])) = Ok peer.
Proof. split; [by apply from_fields_advertised|by apply peer_from_advertised]. Qed.

(** ** The wait ends *)

Section wait.
  Implicit Types (clock : nat → Z) (memory : nat → list u8) (t : Target).

(** The turn it ends at: the first whose reading of the clock is past the deadline, or whose
    buffer is full. *)
Lemma await_transfer_ends fuel turn serve_read deadline clock memory t tr :
  (deadline ≤ clock (S (turn + fuel)))%Z →
  ∃ r n, await_transfer fuel turn serve_read deadline clock memory t tr =
      Some (r, tr ++ replicate n (PollQueue (t_completion_queue t))) ∧
    match r with
    | Ok _ => serve_read = true ∨ ∃ i, turn ≤ i ∧ (clock (S i) < deadline)%Z ∧ Forall (λ b, b = PATTERN) (memory i)
    | Err _ => serve_read = false ∧ ∀ i, turn ≤ i < turn + n → ¬ Forall (λ b, b = PATTERN) (memory i)
    end.
Proof.
  revert turn tr. induction fuel as [|fuel IH]; intros turn tr Hd; cbn [await_transfer].
  - rewrite Nat.add_0_r in Hd. destruct (Z.ltb_spec (clock (S turn)) deadline); [lia|].
    exists (if serve_read then Ok tt else Err "timed out waiting for a transfer"), 0. rewrite app_nil_r.
    split; [done|]. destruct serve_read; [by left|]. split; [done|lia].
  - destruct (Z.ltb_spec (clock (S turn)) deadline) as [Hlt|].
    2:{ exists (if serve_read then Ok tt else Err "timed out waiting for a transfer"), 0. rewrite app_nil_r.
        split; [done|]. destruct serve_read; [by left|]. split; [done|lia]. }
    assert (forallb (Byte.eqb PATTERN) (memory turn) = true ↔ Forall (λ b, b = PATTERN) (memory turn)) as Hall.
    { rewrite forallb_forall, Forall_forall. setoid_rewrite list_elem_of_In. split; intros Hb b Hin.
      - symmetry. by apply Byte.byte_dec_bl, Hb.
      - rewrite (Hb b Hin). by apply Byte.byte_dec_lb. }
    destruct (negb serve_read && forallb _ _) eqn:Hfull.
    + apply andb_true_iff in Hfull as [_ Hfull%Hall]. exists (Ok tt), 1. split; [done|]. right. by exists turn.
    + destruct (IH (S turn) (target_progress t tr)) as (r & n & -> & Hr).
      { by rewrite Nat.add_succ_comm. }
      exists r, (S n). unfold target_progress. rewrite <-(assoc_L (++)). split; [done|].
      destruct r as [u|error]; [destruct Hr as [|(i & ? & ?)]; [by left|right; exists i; split; [lia|done]]|].
      destruct Hr as [-> Hr]. split; [done|]. intros i Hi Hf. destruct (decide (i = turn)) as [->|Hne].
      * apply Hall in Hf. by rewrite Hf in Hfull.
      * apply (Hr i); [lia|done].
Qed.

End wait.

(** ** Witness *)

Lemma advertisement_round_trip_witness :
  advertisement_line [Byte.x01; Byte.xff] {| exposed_key := 9; exposed_address := 65536 |} = ascii "01ff 9 65536" ∧
  peer_from_stdin (Ok (advertisement_line [Byte.x01; Byte.xff] {| exposed_key := 9; exposed_address := 65536 |} ++ [x0a])) =
    Ok {| Wire.address := [Byte.x01; Byte.xff]; remote_key := 9; remote_address := 65536 |}.
Proof.
  split; [vm_compute; reflexivity|].
  apply (advertisement_round_trip [Byte.x01; Byte.xff] {| exposed_key := 9; exposed_address := 65536 |}); [done|by vm_compute|by vm_compute].
Defined.
