(* ===== verification/Stream.v ===== *)
(** * Two ends of a stream

    The helpers of [examples/delivery_margin.rs] that talk over tcp, as trees of the bytes an
    end writes and waits for, and two such ends run against each other: either may move
    whenever it can, so what is proved of one order of their turns is proved of all. *)

From S2P Require Import Prelude Wire Fabric.
From Stdlib Require Import Logic.FunctionalExtensionality.

Definition WORD : Z := 8.

(** ** Conversations *)

(** What an end does with the stream, up to the result it leaves with. *)
Inductive conversation (A : Type) : Type :=
  | Done (outcome : result A string)
  | Write (bytes : list u8) (next : conversation A)
  | Read (n : nat) (what : string) (next : list u8 → conversation A).
#[global] Arguments Done {A} _.
#[global] Arguments Write {A} _ _.
#[global] Arguments Read {A} _ _ _.

Definition conv_ret {A} (a : A) : conversation A := Done (Ok a).
Definition conv_fail {A} (error : string) : conversation A := Done (Err error).

(** A result from elsewhere, under [?]. *)
Definition conv_of {A} (r : result A string) : conversation A := Done r.

Fixpoint conv_bind {A B} (m : conversation A) (f : A → conversation B) : conversation B :=
  match m with
  | Done (Ok a) => f a
  | Done (Err error) => Done (Err error)
  | Write bytes next => Write bytes (conv_bind next f)
  | Read n what next => Read n what (λ bytes, conv_bind (next bytes) f)
  end.

Declare Scope stream_scope.
Delimit Scope stream_scope with stream.
#[local] Open Scope stream_scope.
Notation "'let!' x ':=' m 'in' f" := (conv_bind m (λ x, f)) (at level 10, x binder, f at level 200) : stream_scope.

(** [write_all] and [read_exact] *)
Definition write_all (bytes : list u8) : conversation () := Write bytes (conv_ret tt).
Definition read_exact (n : nat) (what : string) : conversation (list u8) := Read n what conv_ret.

(** [u64::to_le_bytes] and back, by the number of bytes. *)
Fixpoint to_le_bytes (n : nat) (value : Z) : list u8 :=
  match n with
  | O => []
  | S n => byte_of (Z.to_N (value mod 256)) :: to_le_bytes n (value / 256)
  end.

Fixpoint from_le_bytes (bytes : list u8) : Z :=
  match bytes with
  | [] => 0
  | b :: bytes => Z.of_N (Byte.to_N b) + 256 * from_le_bytes bytes
  end.

Definition write_u64 (value : Z) : conversation () := write_all (to_le_bytes (Z.to_nat WORD) value).

Definition read_u64 : conversation Z :=
  let! bytes := read_exact (Z.to_nat WORD) "read" in conv_ret (from_le_bytes bytes).

Definition write_bytes (bytes : list u8) : conversation () :=
  let! _ := write_u64 (Z.of_nat (length bytes)) in write_all bytes.

Definition read_bytes : conversation (list u8) :=
  let! length := read_u64 in read_exact (Z.to_nat length) "read".

Definition ack : conversation () := write_all [Byte.x01].

Definition await_ack : conversation () := let! _ := read_exact 1 "await ack" in conv_ret tt.

(** ** Two ends *)

Definition ended {A} (m : conversation A) : bool := match m with Done _ => true | _ => false end.

(** One turn of an end, with the bytes that wait for it: the end, the bytes left and those it
    sent.  [gone] is whether the other end has left, upon which what was sent is all there is;
    a write to it is still taken by the system. *)
Definition turn {A} (gone : bool) (m : conversation A) (inbox : list u8) :
    option (conversation A * list u8 * list u8) :=
  match m with
  | Done _ => None
  | Write bytes next => Some (next, inbox, bytes)
  | Read n what next =>
      if n <=? length inbox then Some (next (take n inbox), drop n inbox, [])
      else if gone then Some (Done (Err (what +:+ ": failed to fill whole buffer")), [], [])
      else None
  end.

(** Two ends, each with its inbox. *)
Record meeting (A B : Type) := {
  here : conversation A; to_here : list u8;
  there : conversation B; to_there : list u8;
}.
#[global] Arguments Build_meeting {A B} _ _ _ _.
#[global] Arguments here {A B} _.
#[global] Arguments to_here {A B} _.
#[global] Arguments there {A B} _.
#[global] Arguments to_there {A B} _.

Inductive meets {A B} : meeting A B → meeting A B → Prop :=
  | meets_here m p i out :
      turn (ended (there m)) (here m) (to_here m) = Some (p, i, out) →
      meets m {| here := p; to_here := i; there := there m; to_there := to_there m ++ out |}
  | meets_there m q i out :
      turn (ended (here m)) (there m) (to_there m) = Some (q, i, out) →
      meets m {| here := here m; to_here := to_here m ++ out; there := q; to_there := i |}.

Definition meeting_new {A B} (p : conversation A) (q : conversation B) : meeting A B :=
  {| here := p; to_here := []; there := q; to_there := [] |}.

(** ** The order of turns does not matter *)

Lemma conv_bind_assoc {A B C} (m : conversation A) (f : A → conversation B) (g : B → conversation C) :
  conv_bind (conv_bind m f) g = conv_bind m (λ a, conv_bind (f a) g).
Proof.
  induction m as [[a|error]|bytes next IH|n what next IH]; [done|done|simpl; by rewrite IH|].
  simpl. f_equal. by apply functional_extensionality.
Qed.

Lemma turn_ended {A} gone (m : conversation A) inbox x : turn gone m inbox = Some x → ended m = false.
Proof. by destruct m. Qed.

(** A turn taken while the other end is there is still the turn when more has come in. *)
Lemma turn_later {A} gone (m : conversation A) inbox p i out more :
  turn false m inbox = Some (p, i, out) → turn gone m (inbox ++ more) = Some (p, i ++ more, out).
Proof.
  destruct m as [|bytes next|n what next]; simpl; [done|by intros [= -> -> ->]|].
  destruct (n <=? length inbox) eqn:Hn; [|done]. intros [= <- <- <-]. apply Nat.leb_le in Hn.
  rewrite length_app, (proj2 (Nat.leb_le n _)) by lia. by rewrite take_app_le, drop_app_le.
Qed.

Lemma meets_diamond {A B} (m a b : meeting A B) :
  meets m a → meets m b → a = b ∨ ∃ c, meets a c ∧ meets b c.
Proof.
  assert (∀ p i out q j out', turn (ended (there m)) (here m) (to_here m) = Some (p, i, out) →
    turn (ended (here m)) (there m) (to_there m) = Some (q, j, out') →
    ∃ c, meets {| here := p; to_here := i; there := there m; to_there := to_there m ++ out |} c ∧
         meets {| here := here m; to_here := to_here m ++ out'; there := q; to_there := j |} c) as Hboth.
  { intros p i out q j out' Hp Hq. pose proof (turn_ended _ _ _ _ Hp) as Ep. pose proof (turn_ended _ _ _ _ Hq) as Eq.
    rewrite Eq in Hp. rewrite Ep in Hq. exists {| here := p; to_here := i ++ out'; there := q; to_there := j ++ out |}. split.
    - apply (meets_there {| here := p; to_here := i; there := there m; to_there := to_there m ++ out |}). by apply turn_later.
    - apply (meets_here {| here := here m; to_here := to_here m ++ out'; there := q; to_there := j |}). by apply turn_later. }
  destruct 1 as [m p i out Hp|m q j out Hq]; intros Hb; inversion Hb as [? p' i' out' Hp'|? q' j' out' Hq']; subst; simplify_eq.
  - by left.
  - right. eauto.
  - right. destruct (Hboth _ _ _ _ _ _ Hp' Hq) as (c & ? & ?). eauto.
  - by left.
Qed.

Lemma ended_nf {A B} (a : result A string) (b : result B string) i j :
  nf meets {| here := Done a; to_here := i; there := Done b; to_there := j |}.
Proof. intros [m Hm]. inversion Hm; simplify_eq/=. Qed.

(** Every run of the two ends comes, in so many turns, to these results. *)
Definition comes_to {A B} (m : meeting A B) (a : result A string) (b : result B string) : Prop :=
  ∃ turns, ∀ n x, nsteps meets n m x → n ≤ turns ∧ nsteps meets (turns - n) x (meeting_new (Done a) (Done b)).

Lemma one_run_suffices {A B} (m : meeting A B) a b : rtc meets m (meeting_new (Done a) (Done b)) → comes_to m a b.
Proof.
  intros [n Hn]%rtc_nsteps. exists n. intros k x Hk.
  exact (diamond_runs meets meets_diamond n _ _ Hn (ended_nf a b [] []) k x Hk).
Qed.

(** An end whose other end has left does not wait for ever: whatever it does, it comes to leave. *)
Lemma left_alone_ends {A B} (r : result A string) (q : conversation B) i j :
  ∃ i' r' j', rtc meets {| here := Done r; to_here := i; there := q; to_there := j |}
                        {| here := Done r; to_here := i'; there := Done r'; to_there := j' |}.
Proof.
  revert i j. induction q as [r'|bytes next IH|n what next IH]; intros i j; [by exists i, r', j|..].
  - destruct (IH (i ++ bytes) j) as (i' & r' & j' & Hr). exists i', r', j'. eapply rtc_l; [|exact Hr]. by apply meets_there.
  - destruct (n <=? length j) eqn:Hn.
    + destruct (IH (take n j) (i ++ []) (drop n j)) as (i' & r' & j' & Hr). exists i', r', j'.
      eapply rtc_l; [|exact Hr]. apply meets_there. cbn. by rewrite Hn.
    + eexists (i ++ []), _, []. apply rtc_once, meets_there. cbn. by rewrite Hn.
Qed.

(** ** What is written is read *)

Lemma length_to_le_bytes n value : length (to_le_bytes n value) = n.
Proof. revert value. induction n as [|n IH]; intros value; [done|]. simpl. by rewrite IH. Qed.

Lemma to_N_byte_of n : (n < 256)%N → Byte.to_N (byte_of n) = n.
Proof.
  intros Hn. unfold byte_of. rewrite N.mod_small by done. destruct (Byte.of_N n) as [b|] eqn:Hb; [by apply Byte.to_of_N|].
  apply Byte.of_N_None_iff in Hb. lia.
Qed.

Lemma from_to_le_bytes n value : from_le_bytes (to_le_bytes n value) = (value mod 256 ^ Z.of_nat n)%Z.
Proof.
  revert value. induction n as [|n IH]; intros value; cbn [to_le_bytes from_le_bytes]; [by rewrite Z.mod_1_r|].
  rewrite IH, to_N_byte_of, Nat2Z.inj_succ, Z.pow_succ_r by (pose proof (Z.mod_pos_bound value 256); lia).
  rewrite Z2N.id by (apply Z.mod_pos_bound; lia). rewrite Z.rem_mul_r by lia. lia.
Qed.

(** Between turns of the other end's, an end's inbox is empty: it is in step. *)
Abbreviation in_step := meeting_new.

Section handing.
  Context {A B : Type}.
  Implicit Types (p : conversation A) (q : conversation B).

(** The bytes one end writes are the bytes the other waits for. *)
Lemma hand_there p bytes n what (q : list u8 → conversation B) :
  n = length bytes → rtc meets (in_step (Write bytes p) (Read n what q)) (in_step p (q bytes)).
Proof.
  intros ->. eapply rtc_l; [by apply meets_here|]. cbn. eapply rtc_once.
  change (in_step p (q bytes)) with {| here := p; to_here := [] ++ []; there := q bytes; to_there := [] |}.
  apply meets_there. cbn. rewrite Nat.leb_refl. by rewrite take_ge, drop_ge.
Qed.

Lemma hand_here (p : list u8 → conversation A) bytes n what q :
  n = length bytes → rtc meets (in_step (Read n what p) (Write bytes q)) (in_step (p bytes) q).
Proof.
  intros ->. eapply rtc_l; [by apply meets_there|]. cbn. eapply rtc_once.
  change (in_step (p bytes) q) with {| here := p bytes; to_here := []; there := q; to_there := [] ++ [] |}.
  apply meets_here. cbn. rewrite Nat.leb_refl. by rewrite take_ge, drop_ge.
Qed.

Lemma u64_of_bytes value : in_u64 value → from_le_bytes (to_le_bytes (Z.to_nat WORD) value) = value.
Proof. intros Hv. rewrite from_to_le_bytes. by apply Z.mod_small. Qed.

Lemma u64_there value p (q : Z → conversation B) :
  in_u64 value → rtc meets (in_step (let! _ := write_u64 value in p) (let! x := read_u64 in q x)) (in_step p (q value)).
Proof.
  intros Hv. etrans; [apply hand_there; by rewrite length_to_le_bytes|]. cbn beta iota delta [conv_bind conv_ret].
  by rewrite u64_of_bytes.
Qed.

Lemma u64_here value (p : Z → conversation A) q :
  in_u64 value → rtc meets (in_step (let! x := read_u64 in p x) (let! _ := write_u64 value in q)) (in_step (p value) q).
Proof.
  intros Hv. etrans; [apply hand_here; by rewrite length_to_le_bytes|]. cbn beta iota delta [conv_bind conv_ret].
  by rewrite u64_of_bytes.
Qed.

Lemma bytes_there bytes p (q : list u8 → conversation B) :
  in_u64 (Z.of_nat (length bytes)) →
  rtc meets (in_step (let! _ := write_bytes bytes in p) (let! x := read_bytes in q x)) (in_step p (q bytes)).
Proof.
  intros Hl. etrans; [apply hand_there; by rewrite length_to_le_bytes|]. cbn beta iota delta [conv_bind conv_ret].
  rewrite u64_of_bytes by done. apply hand_there. lia.
Qed.

Lemma bytes_here bytes (p : list u8 → conversation A) q :
  in_u64 (Z.of_nat (length bytes)) →
  rtc meets (in_step (let! x := read_bytes in p x) (let! _ := write_bytes bytes in q)) (in_step (p bytes) q).
Proof.
  intros Hl. etrans; [apply hand_here; by rewrite length_to_le_bytes|]. cbn beta iota delta [conv_bind conv_ret].
  rewrite u64_of_bytes by done. apply hand_here. lia.
Qed.

Lemma ack_here p q : rtc meets (in_step (let! _ := await_ack in p) (let! _ := ack in q)) (in_step p q).
Proof. by apply (hand_here (λ _, p)). Qed.

End handing.
