(* ===== verification/Reply.v ===== *)
(** * One-shot replies

    [reply.rs]: a slot under a mutex with a condition variable, an [Answer] end that is
    sent or dropped once and a [Waiting] end that blocks until it is.  Each critical
    section is one step; the two ends' steps interleave in any order, and the condition
    variable may also wake the waiter for no reason. *)

From S2P Require Import Prelude.

(** [State] *)
Inductive State (T : Type) : Type :=
  | Pending
  | Answered (value : T)
  | Abandoned.
Arguments Pending {T}.
Arguments Answered {T} _.
Arguments Abandoned {T}.

(** Where each end is in its code.  [send] settles the slot, notifies outside the lock,
    and then drops the answer, which looks at the slot once more. *)
Inductive answerer : Type := Holding | Settled | Notified | Dropped.

(** [wait]: about to take the lock, in the condition variable's queue, or returned. *)
Inductive waiter (T : Type) : Type :=
  | Locking
  | Blocked
  | Returned (answer : option T).
Arguments Locking {T}.
Arguments Blocked {T}.
Arguments Returned {T} _.

(** The slot and its two ends; [sent] is what [send] was called with. *)
Record slot (T : Type) := {
  state : State T;
  answer : answerer;
  waiting : waiter T;
  sent : option T;
}.
Arguments Build_slot {T} _ _ _ _.
Arguments state {T} _.
Arguments answer {T} _.
Arguments waiting {T} _.
Arguments sent {T} _.

Section reply.
  Context {T : Type}.
  Implicit Types (s : slot T).

(** [reply] *)
Definition reply : slot T := Build_slot Pending Holding Locking None.

(** [Condvar::notify_one]: the waiter, if it is in the queue, goes for the lock. *)
Definition notify_one (w : waiter T) : waiter T :=
  match w with Blocked => Locking | _ => w end.

(** [settle]'s critical section, in [Answer::send]. *)
Definition send (value : T) s : option (slot T) :=
  match answer s with
  | Holding => Some (Build_slot (Answered value) Settled (waiting s) (Some value))
  | _ => None
  end.

(** [settle]'s notification, after the lock is released. *)
Definition settle_notify s : option (slot T) :=
  match answer s with
  | Settled => Some (Build_slot (state s) Notified (notify_one (waiting s)) (sent s))
  | _ => None
  end.

(** [Drop for Answer], at the end of [send] or instead of it. *)
Definition drop_answer s : option (slot T) :=
  match answer s with
  | Holding | Notified =>
      Some match state s with
           | Pending => Build_slot Abandoned Dropped (notify_one (waiting s)) (sent s)
           | _ => Build_slot (state s) Dropped (waiting s) (sent s)
           end
  | _ => None
  end.

(** A turn of [Waiting::wait]'s loop, lock held. *)
Definition wait_turn s : option (slot T) :=
  match waiting s with
  | Locking =>
      Some match state s with
           | Answered value => Build_slot Pending (answer s) (Returned (Some value)) (sent s)
           | Abandoned => Build_slot Pending (answer s) (Returned None) (sent s)
           | Pending => Build_slot Pending (answer s) Blocked (sent s)
           end
  | _ => None
  end.

(** The condition variable waking its waiter unasked. *)
Definition spurious_wake s : option (slot T) :=
  match waiting s with
  | Blocked => Some (Build_slot (state s) (answer s) Locking (sent s))
  | _ => None
  end.

Inductive move : Type :=
  | Send (value : T)
  | SettleNotify
  | DropAnswer
  | WaitTurn
  | SpuriousWake.

Definition reply_step (m : move) s : option (slot T) :=
  match m with
  | Send value => send value s
  | SettleNotify => settle_notify s
  | DropAnswer => drop_answer s
  | WaitTurn => wait_turn s
  | SpuriousWake => spurious_wake s
  end.

Fixpoint reply_run (moves : list move) s : option (slot T) :=
  match moves with
  | [] => Some s
  | m :: moves => s ← reply_step m s; reply_run moves s
  end.

(** ** What every interleaving keeps *)

Inductive reply_ok : slot T → Prop :=
  | ok_holding w : (∀ r, w ≠ Returned r) → reply_ok (Build_slot Pending Holding w None)
  | ok_answered v a w :
      a ≠ Holding → w = Locking ∨ (w = Blocked ∧ a = Settled) →
      reply_ok (Build_slot (Answered v) a w (Some v))
  | ok_taken v st a :
      a ≠ Holding → st = Pending ∨ (st = Abandoned ∧ a = Dropped) →
      reply_ok (Build_slot st a (Returned (Some v)) (Some v))
  | ok_abandoned : reply_ok (Build_slot Abandoned Dropped Locking None)
  | ok_given_up : reply_ok (Build_slot Pending Dropped (Returned None) None).

Lemma reply_start_ok : reply_ok reply.
Proof. by constructor. Qed.

Lemma reply_step_ok m s s' : reply_ok s → reply_step m s = Some s' → reply_ok s'.
Proof.
  intros Hok. destruct m; simpl; unfold send, settle_notify, drop_answer, wait_turn, spurious_wake;
    destruct Hok as [w Hw|v a w Ha Hw|v st a Ha Hst| |]; simpl in *; intros;
    try destruct w; repeat case_match; simplify_eq/=;
    first [apply ok_holding; naive_solver | apply ok_abandoned
          | apply ok_given_up | apply ok_taken; naive_solver
          | apply ok_answered; naive_solver | naive_solver].
Qed.

Lemma reply_run_ok moves s s' : reply_ok s → reply_run moves s = Some s' → reply_ok s'.
Proof.
  revert s. induction moves as [|m moves IH]; simpl; intros s Hs Hr; simplify_eq; [done|].
  destruct (reply_step m s) as [s1|] eqn:E1; simpl in Hr; [|done].
  eapply IH; [by eapply reply_step_ok|done].
Qed.

(** Steps left to the two ends, spurious wakeups apart. *)
Definition reply_measure s : nat :=
  2 * match answer s with Holding => 3 | Settled => 2 | Notified => 1 | Dropped => 0 end +
  match waiting s with Locking => 1 | _ => 0 end.

Definition spurious (m : move) : nat := match m with SpuriousWake => 1 | _ => 0 end.

Lemma reply_step_measure m s s' :
  reply_step m s = Some s' → reply_measure s' < reply_measure s + 2 * spurious m.
Proof.
  destruct m; simpl; unfold send, settle_notify, drop_answer, wait_turn, spurious_wake, reply_measure;
    intros; repeat case_match; simplify_eq/=; repeat case_match; simplify_eq/=; try lia.
Qed.

Lemma reply_run_measure moves s s' :
  reply_run moves s = Some s' →
  length moves + reply_measure s' ≤ reply_measure s + 2 * sum_list_with spurious moves.
Proof.
  revert s. induction moves as [|m moves IH]; simpl; intros s Hr; simplify_eq; [lia|].
  destruct (reply_step m s) as [s1|] eqn:E1; simpl in Hr; [|done].
  apply reply_step_measure in E1. apply IH in Hr. lia.
Qed.

(** C28: The caller gets what the worker sent, and is never left blocked.  In every
    interleaving of the two ends, spurious wakeups included: what [wait] returned is what
    was sent, [None] exactly when the answer was dropped unsent; a waiter blocked after
    the answer was given has its notification still to come; and once the answer end is
    gone the waiter has returned, or returns the answer in its next turn. *)
Theorem reply_never_lost moves s (Hr : reply_run moves reply = Some s) :
  (∀ r, waiting s = Returned r → answer s ≠ Holding ∧ r = sent s) ∧
  (waiting s = Blocked → answer s ≠ Holding → answer s = Settled) ∧
  (answer s = Dropped →
     waiting s = Returned (sent s) ∨
     ∃ s', wait_turn s = Some s' ∧ waiting s' = Returned (sent s)).
Proof.
  apply reply_run_ok in Hr; [|apply reply_start_ok].
  destruct Hr; simpl in *; (split_and!; [naive_solver..|]); intros; simplify_eq; eauto; naive_solver.
Qed.

(** An exchange is over in a bounded number of steps: besides spurious wakeups, each
    of which costs one more turn of the waiter's loop, the two ends take at most 7. *)
Lemma reply_bounded moves s (Hr : reply_run moves reply = Some s) :
  length moves ≤ 7 + 2 * sum_list_with spurious moves.
Proof. apply reply_run_measure in Hr. change (reply_measure reply) with 7 in Hr. lia. Qed.

End reply.

(** ** Witnesses *)

(** The waiter blocks, is woken for nothing, blocks again, and then gets its answer. *)
Definition woken_moves : list (move (T := nat)) :=
  [WaitTurn; SpuriousWake; WaitTurn; Send 7; SettleNotify; WaitTurn; DropAnswer].

Lemma reply_never_lost_witness :
  ∃ s, reply_run woken_moves reply = Some s ∧ waiting s = Returned (Some 7).
Proof.
  eexists. split; [reflexivity|].
  destruct (reply_never_lost woken_moves _ eq_refl) as (_ & _ & [Hw|Hw]); [done|exact Hw|].
  destruct Hw as (s' & Hs' & _). discriminate Hs'.
Defined.
