(* ===== verification/Pool.v ===== *)
(** * The completion pool

    [pool.rs]: a fixed set of threads, each draining its own channel, that jobs are
    handed to round robin.  A pool is a transition system: callers submit, workers run
    jobs and leave, and dropping the pool closes every channel, in any order. *)

From S2P Require Import Prelude.

(** A worker thread: the jobs on its channel, those it has run, and whether it has
    left its loop. *)
Record pool_worker (J : Type) := {
  name : string;
  channel : list J;
  ran : list J;
  exited : bool;
}.
Arguments Build_pool_worker {J} _ _ _ _.
Arguments name {J} _.
Arguments channel {J} _.
Arguments ran {J} _.
Arguments exited {J} _.

(** [Pool]: how many senders there are (none once dropped), the counter, the workers.
    [submitted] records, for the theorems, the jobs [submit] was given. *)
Record Pool (J : Type) := {
  senders : nat;
  next : Z;
  workers : list (pool_worker J);
  submitted : list J;
}.
Arguments Build_Pool {J} _ _ _ _.
Arguments senders {J} _.
Arguments next {J} _.
Arguments workers {J} _.
Arguments submitted {J} _.

Section pool.
  Context {J : Type}.
  Implicit Types (p : Pool J).

(** [format!("f-pool-{index:02}")] *)
Definition worker_name (index : nat) : string := "f-pool-" +:+ two_digits index.

(** [Pool::new].  [spawn] answers for each thread by its index; the threads already
    running when one fails find their channels closed and end. *)
Fixpoint spawn_workers {X : Type} (spawn : nat → result () X) (index count : nat) :
    result (list (pool_worker J)) X :=
  match count with
  | O => Ok []
  | S count =>
      let? _ := spawn index in
      let? rest := spawn_workers spawn (S index) count in
      Ok (Build_pool_worker (worker_name index) [] [] false :: rest)
  end.

Definition pool_new {X : Type} (spawn : nat → result () X) (threads : nat) : result (Pool J) X :=
  let threads := threads `max` 1 in
  let? workers := spawn_workers spawn 0 threads in
  Ok (Build_Pool threads 0 workers []).

(** A sent job joins its worker's channel; a worker that has left drops it. *)
Definition enqueue (job : J) (w : pool_worker J) : pool_worker J :=
  if exited w then w else Build_pool_worker (name w) (channel w ++ [job]) (ran w) (exited w).

(** [Pool::submit]; [None] is the panic of a remainder by zero. *)
Definition submit (job : J) p : option (Pool J) :=
  if senders p =? 0 then None
  else
    let index := Z.to_nat (next p mod Z.of_nat (senders p))%Z in
    Some (Build_Pool (senders p) (wrapping_add (next p) 1) (alter (enqueue job) index (workers p))
            (submitted p ++ [job])).

(** The worker's loop: a job off the channel is run, and whether it panics or not the
    worker goes on; with no job and the channel closed it leaves. *)
Definition worker_turn (open : bool) (w : pool_worker J) : option (pool_worker J) :=
  if exited w then None
  else match channel w with
       | job :: rest => Some (Build_pool_worker (name w) rest (ran w ++ [job]) false)
       | [] => if open then None else Some (Build_pool_worker (name w) [] (ran w) true)
       end.

(** [Drop for Pool]: every channel closes; the joins wait for every worker to leave. *)
Definition pool_drop p : Pool J := Build_Pool 0 (next p) (workers p) (submitted p).

Definition joined p : bool := forallb exited (workers p).

(** One step of the worker at [index]. *)
Definition pool_turn (index : nat) p : option (Pool J) :=
  w ← workers p !! index;
  w ← worker_turn (0 <? senders p) w;
  Some (Build_Pool (senders p) (next p) (<[index := w]> (workers p)) (submitted p)).

Inductive pool_step : Pool J → Pool J → Prop :=
  | step_submit job p p' : submit job p = Some p' → pool_step p p'
  | step_turn index p p' : pool_turn index p = Some p' → pool_step p p'
  | step_drop p : pool_step p (pool_drop p).

(** ** What every worker is handed *)

(** The jobs the counter sends to the worker at [index] of [n]: every [n]th of them. *)
Fixpoint share (n index : nat) (counter : Z) (jobs : list J) : list J :=
  match jobs with
  | [] => []
  | job :: jobs =>
      (if (counter mod Z.of_nat n =? Z.of_nat index)%Z then [job] else []) ++
      share n index (wrapping_add counter 1) jobs
  end.

Definition counter_after (k : nat) : Z := (Z.of_nat k mod u64_end)%Z.

Lemma counter_after_S k : wrapping_add (counter_after k) 1 = counter_after (S k).
Proof.
  unfold wrapping_add, counter_after. rewrite Zplus_mod_idemp_l. f_equal. lia.
Qed.

Lemma share_app n index c jobs1 jobs2 k :
  c = counter_after k →
  share n index c (jobs1 ++ jobs2) =
  share n index c jobs1 ++ share n index (counter_after (k + length jobs1)) jobs2.
Proof.
  revert c k. induction jobs1 as [|job jobs1 IH]; intros c k ->; simpl.
  - by rewrite Nat.add_0_r.
  - rewrite (IH _ (S k)) by apply counter_after_S. rewrite <-(assoc_L (++)).
    by replace (k + S (length jobs1)) with (S k + length jobs1) by lia.
Qed.

(** The pool, [n] being the number of its workers. *)
Record pool_ok (n : nat) p : Prop := {
  po_workers : length (workers p) = n;
  po_positive : 0 < n;
  po_senders : senders p = n ∨ senders p = 0;
  po_next : next p = counter_after (length (submitted p));
  po_share index w : workers p !! index = Some w →
    ran w ++ channel w = share n index (counter_after 0) (submitted p);
  po_exited w : w ∈ workers p → exited w = true → channel w = [] ∧ senders p = 0;
}.

Lemma spawn_workers_spec {X} (spawn : nat → result () X) index count ws :
  spawn_workers spawn index count = Ok ws →
  ws = (λ i, Build_pool_worker (worker_name i) [] [] false) <$> seq index count.
Proof.
  revert index ws. induction count as [|count IH]; intros index ws; simpl; [naive_solver|].
  destruct (spawn index); [|done]. destruct (spawn_workers _ _ _) as [rest|] eqn:E; [|done].
  apply IH in E. naive_solver.
Qed.

Lemma pool_new_ok {X} (spawn : nat → result () X) threads p :
  pool_new spawn threads = Ok p → pool_ok (threads `max` 1) p.
Proof.
  unfold pool_new. destruct (spawn_workers _ _ _) as [ws|] eqn:E; [|done].
  apply spawn_workers_spec in E as ->. intros [= <-]. split; simpl; try done; [|lia|auto| |].
  - by rewrite length_fmap, length_seq.
  - intros index w. rewrite list_lookup_fmap. by intros (i & _ & ->)%fmap_Some.
  - intros w (i & -> & _)%list_elem_of_fmap. done.
Qed.

Lemma pool_submit_ok n job p p' : pool_ok n p → submit job p = Some p' → pool_ok n p'.
Proof.
  intros [Hw Hn Hs Hx Hsh He]. unfold submit. destruct (Nat.eqb_spec (senders p) 0) as [|Hne]; [done|].
  intros [= <-]. destruct Hs as [Hs|Hs]; [|done].
  assert (0 ≤ next p mod Z.of_nat n < Z.of_nat n)%Z as Hm by (apply Z.mod_pos_bound; lia).
  rewrite Hs in *. split; simpl; try done; auto.
  - by rewrite length_alter.
  - rewrite Hx, counter_after_S, length_app. simpl. f_equal. lia.
  - intros index w Hl. rewrite (share_app _ _ _ _ _ 0) by done. simpl. rewrite app_nil_r.
    rewrite <-Hx. destruct (decide (index = Z.to_nat (next p mod Z.of_nat n))) as [->|Hd].
    + rewrite list_lookup_alter_eq in Hl. apply fmap_Some in Hl as (w0 & Hw0 & ->).
      rewrite (proj2 (Z.eqb_eq _ _)) by lia. unfold enqueue. destruct (exited w0) eqn:Hex.
      * apply list_elem_of_lookup_2 in Hw0. naive_solver lia.
      * simpl. rewrite (assoc_L (++)). f_equal. by apply Hsh.
    + rewrite list_lookup_alter_ne in Hl by done. apply Hsh in Hl.
      rewrite (proj2 (Z.eqb_neq _ _)) by lia. by rewrite app_nil_r.
  - intros w Hin Hex. exfalso. apply list_elem_of_lookup in Hin as [i Hi].
    rewrite list_lookup_alter in Hi. case_decide.
    + apply fmap_Some in Hi as (w0 & Hw0%list_elem_of_lookup_2 & ->). unfold enqueue in Hex.
      destruct (exited w0) eqn:Hx0; [|naive_solver]. apply He in Hx0 as [_ ?]; [lia|done].
    + apply list_elem_of_lookup_2 in Hi. apply He in Hex as [_ ?]; [lia|done].
Qed.

Lemma pool_turn_ok n index p p' : pool_ok n p → pool_turn index p = Some p' → pool_ok n p'.
Proof.
  intros [Hw Hn Hs Hx Hsh He]. unfold pool_turn.
  destruct (workers p !! index) as [w|] eqn:Hi; simpl; [|done].
  destruct (worker_turn _ w) as [w'|] eqn:Ht; simpl; [|done]. intros [= <-].
  assert (ran w' ++ channel w' = ran w ++ channel w ∧
          (exited w' = true → channel w' = [] ∧ senders p = 0)) as [Hsame Hex'].
  { unfold worker_turn in Ht. destruct (exited w); [done|]. destruct (channel w) as [|job rest].
    - destruct (Nat.ltb_spec 0 (senders p)); simplify_eq/=. split; [done|]. split; [done|lia].
    - simplify_eq/=. by rewrite <-(assoc_L (++)). }
  split; simpl; try done.
  - by rewrite length_insert.
  - intros i w0. rewrite list_lookup_insert_Some. intros [(-> & <- & _)|(_ & Hl)]; [|by apply Hsh].
    rewrite Hsame. by apply Hsh.
  - intros w0 Hin. apply list_elem_of_lookup in Hin as [i Hl].
    rewrite list_lookup_insert_Some in Hl. destruct Hl as [(-> & <- & _)|(_ & Hl)]; [done|].
    apply He. by eapply list_elem_of_lookup_2.
Qed.

Lemma pool_step_ok n p p' : pool_ok n p → pool_step p p' → pool_ok n p'.
Proof.
  intros Hok Hstep. destruct Hstep as [job p1 p2 Hs|index p1 p2 Ht|p1]; [by eapply pool_submit_ok|by eapply pool_turn_ok|].
  destruct Hok as [? ? ? ? ? He]. split; simpl; auto. intros w Hw Hx. by destruct (He w Hw Hx).
Qed.

Lemma pool_reachable {X} (spawn : nat → result () X) threads p0 p :
  pool_new spawn threads = Ok p0 → rtc pool_step p0 p → pool_ok (threads `max` 1) p.
Proof.
  intros H0%pool_new_ok Hs. induction Hs as [|p1 p2 p3 Hstep _ IH]; [done|].
  apply IH. by eapply pool_step_ok.
Qed.

(** ** The shares divide the jobs *)

Lemma share_sum n c jobs (f : J → nat) :
  0 < n →
  sum_list_with f jobs = sum_list_with (λ i, sum_list_with f (share n i c jobs)) (seq 0 n).
Proof.
  intros Hn. revert c. induction jobs as [|job jobs IH]; intros c; simpl.
  { symmetry. by apply sum_list_with_0. }
  rewrite (IH (wrapping_add c 1)).
  assert (∀ m r, r < m → sum_list_with (λ i, if (Z.of_nat r =? Z.of_nat i)%Z then f job else 0) (seq 0 m) = f job) as Hone.
  { intros m r Hr. replace m with (r + S (m - S r)) by lia.
    rewrite seq_app, sum_list_with_app. simpl. rewrite Z.eqb_refl.
    rewrite !(proj2 (sum_list_with_0 _ _)); [lia|..]; intros i Hi%elem_of_seq;
      by rewrite (proj2 (Z.eqb_neq _ _)) by lia. }
  assert (0 ≤ c mod Z.of_nat n < Z.of_nat n)%Z as Hm by (apply Z.mod_pos_bound; lia).
  rewrite <-(Hone n (Z.to_nat (c mod Z.of_nat n))) at 1 by lia. rewrite Z2Nat.id by lia.
  clear IH Hone. induction (seq 0 n) as [|i l IHl]; simpl; [done|].
  rewrite sum_list_with_app. destruct (_ =? _)%Z; simpl; lia.
Qed.

(** How many of the first [k] jobs, the counter not wrapping, are the share of [index]. *)
Lemma share_length n index jobs :
  index < n → (Z.of_nat (length jobs) ≤ u64_end)%Z →
  length (share n index (counter_after 0) jobs) = (length jobs + n - 1 - index) / n.
Proof.
  intros Hi. induction jobs as [|job jobs IH] using rev_ind; intros Hlen.
  { simpl. rewrite Nat.div_small; lia. }
  rewrite length_app in Hlen. simpl in Hlen. rewrite (share_app _ _ _ _ _ 0), !length_app by done.
  rewrite IH by lia. simpl. rewrite app_nil_r.
  unfold counter_after. rewrite (Z.mod_small (Z.of_nat (length jobs))) by lia.
  rewrite <-Nat2Z.inj_mod. set (k := length jobs).
  pose proof (Nat.div_mod k n ltac:(lia)) as Hk. pose proof (Nat.mod_upper_bound k n ltac:(lia)) as Hr.
  set (q := k / n) in *. set (r := k mod n) in *.
  assert (∀ a b, b < n → (n * a + b) / n = a) as Hdiv.
  { intros a b Hb. symmetry. by apply (Nat.div_unique _ n a b). }
  destruct (Z.eqb_spec (Z.of_nat r) (Z.of_nat index)) as [He|Hne]; simpl.
  - replace (k + n - 1 - index) with (n * q + (n - 1)) by lia.
    replace (k + 1 + n - 1 - index) with (n * (q + 1) + 0) by lia. rewrite !Hdiv by lia. lia.
  - destruct (decide (r < index)).
    + replace (k + n - 1 - index) with (n * q + (r + n - 1 - index)) by lia.
      replace (k + 1 + n - 1 - index) with (n * q + (r + n - index)) by lia. rewrite !Hdiv by lia. lia.
    + replace (k + n - 1 - index) with (n * (q + 1) + (r - 1 - index)) by lia.
      replace (k + 1 + n - 1 - index) with (n * (q + 1) + (r - index)) by lia. rewrite !Hdiv by lia. lia.
Qed.

(** Every job a worker has been handed, and has run. *)
Definition handed p : list J := concat ((λ w, ran w ++ channel w) <$> workers p).
Definition jobs_run p : list J := concat (ran <$> workers p).

Lemma sum_list_with_concat {A} (f : A → nat) (ll : list (list A)) :
  sum_list_with f (concat ll) = sum_list_with (sum_list_with f) ll.
Proof. induction ll as [|l ll IH]; simpl; [done|]. by rewrite sum_list_with_app, IH. Qed.

Lemma list_as_seq {A} (l : list A) (g : A → nat) (h : nat → nat) (k : nat) :
  (∀ i x, l !! i = Some x → g x = h (k + i)) → sum_list_with g l = sum_list_with h (seq k (length l)).
Proof.
  revert k. induction l as [|x l IH]; intros k Hg; simpl; [done|].
  rewrite (Hg 0 x) by done. rewrite Nat.add_0_r. f_equal. apply IH. intros i y Hy.
  rewrite (Hg (S i) y) by done. f_equal. lia.
Qed.

Lemma handed_submitted `{!EqDecision J} n p : pool_ok n p → submitted p ≡ₚ handed p.
Proof.
  intros [Hw Hn _ _ Hsh _]. apply weights_Permutation. intros f. unfold handed.
  rewrite sum_list_with_concat, sum_list_with_fmap. unfold compose.
  rewrite (share_sum n (counter_after 0) (submitted p) f Hn), <-Hw. symmetry.
  apply (list_as_seq _ _ (λ i, sum_list_with f (share (length (workers p)) i (counter_after 0) (submitted p)))).
  intros i w Hi. simpl. rewrite Hw. by rewrite (Hsh i w Hi).
Qed.

(** Jobs still queued and workers still there: what is left to do once the pool drops. *)
Definition pool_measure p : nat :=
  sum_list_with (λ w, length (channel w) + if exited w then 0 else 1) (workers p).

Lemma sum_list_with_insert {A} (f : A → nat) (l : list A) i x y :
  l !! i = Some x → sum_list_with f (<[i := y]> l) + f x = sum_list_with f l + f y.
Proof.
  revert i. induction l as [|z l IH]; intros [|i]; simpl; intros Hi; simplify_eq; [lia|].
  specialize (IH i Hi). lia.
Qed.

(** With every channel closed a pool not yet joined has a worker that can step. *)
Lemma pool_turn_progress n p :
  pool_ok n p → senders p = 0 → joined p = false →
  ∃ index p', pool_turn index p = Some p' ∧ senders p' = 0 ∧ pool_measure p' < pool_measure p.
Proof.
  intros _ Hs Hj. unfold joined in Hj.
  assert (∃ w, w ∈ workers p ∧ exited w = false) as (w & Hin & Hex).
  { revert Hj. induction (workers p) as [|w l IH]; simpl; [done|].
    destruct (exited w) eqn:Hx; simpl; [|set_solver]. intros (w' & ? & ?)%IH. set_solver. }
  apply list_elem_of_lookup in Hin as [index Hi]. exists index. unfold pool_turn, worker_turn.
  rewrite Hi, Hs. simpl. rewrite Hex.
  assert (∀ w', length (channel w') + (if exited w' then 0 else 1) < length (channel w) + 1 →
    ∃ p', Some (Build_Pool 0 (next p) (<[index:=w']> (workers p)) (submitted p)) = Some p' ∧
      senders p' = 0 ∧ pool_measure p' < pool_measure p) as Hstep.
  { intros w' Hw'. eexists. split; [done|]. split; [done|]. unfold pool_measure. simpl.
    pose proof (sum_list_with_insert (λ w, length (channel w) + if exited w then 0 else 1)
      (workers p) index w w' Hi) as Hsum. simpl in Hsum. rewrite Hex in Hsum. lia. }
  destruct (channel w) as [|job rest]; simpl; apply Hstep; simpl; lia.
Qed.

Lemma pool_drains n p :
  pool_ok n p → senders p = 0 →
  ∃ p', rtc (λ p p', ∃ index, pool_turn index p = Some p') p p' ∧ joined p' = true.
Proof.
  remember (pool_measure p) as m eqn:Hm. revert p Hm.
  induction (lt_wf m) as [m _ IH]. intros p -> Hok Hs.
  destruct (joined p) eqn:Hj; [by exists p|].
  destruct (pool_turn_progress n p Hok Hs Hj) as (index & p1 & Ht & Hs1 & Hlt).
  destruct (IH _ Hlt p1 eq_refl) as (p' & Hp' & Hj'); [by eapply pool_turn_ok|done|].
  exists p'. split; [|done]. eapply rtc_l; [|exact Hp']. by exists index.
Qed.

(** C29: The pool loses no job and runs none twice.  However callers and workers
    interleave, each worker's jobs, run and queued, are exactly every [n]th job submitted
    and in that order; together the workers hold each submitted job once; and when a
    dropped pool's joins return, every submitted job has been run.  A dropped pool's
    workers do all return. *)
Theorem pool_runs_each_job_once `{!EqDecision J} {X} (spawn : nat → result () X) threads p0 p
  (Hnew : pool_new spawn threads = Ok p0) (Hs : rtc pool_step p0 p) :
  (∀ index w, workers p !! index = Some w →
     ran w ++ channel w = share (threads `max` 1) index (counter_after 0) (submitted p)) ∧
  submitted p ≡ₚ handed p ∧
  (joined p = true → submitted p ≡ₚ jobs_run p) ∧
  (senders p = 0 → ∃ p', rtc (λ p p', ∃ index, pool_turn index p = Some p') p p' ∧ joined p' = true).
Proof.
  pose proof (pool_reachable spawn threads p0 p Hnew Hs) as Hok.
  split_and!; [by apply Hok|by eapply handed_submitted| |by apply (pool_drains _ p Hok)].
  intros Hj. rewrite (handed_submitted _ p Hok). unfold handed, jobs_run.
  replace ((λ w, ran w ++ channel w) <$> workers p) with (ran <$> workers p); [done|].
  apply list_fmap_ext. intros i w Hi. apply list_elem_of_lookup_2 in Hi.
  unfold joined in Hj. rewrite forallb_forall in Hj. apply list_elem_of_In in Hi as Hin.
  apply Hj, (po_exited _ _ Hok w Hi) in Hin as [-> _]. by rewrite app_nil_r.
Qed.

(** Round robin is even.  [submit] never panics before the drop, and until 2^64 jobs
    have been submitted the worker at [index] of [n] has been handed exactly
    ⌈(submitted - index) / n⌉ of them, so no two workers differ by more than one. *)
Theorem pool_round_robin {X} (spawn : nat → result () X) threads p0 p
  (Hnew : pool_new spawn threads = Ok p0) (Hs : rtc pool_step p0 p) :
  let n := threads `max` 1 in
  (∀ job, senders p ≠ 0 → is_Some (submit job p)) ∧
  ((Z.of_nat (length (submitted p)) ≤ u64_end)%Z →
   ∀ index w, workers p !! index = Some w →
     length (ran w ++ channel w) = (length (submitted p) + n - 1 - index) / n).
Proof.
  intros n. pose proof (pool_reachable spawn threads p0 p Hnew Hs) as Hok. split.
  - intros job Hne. unfold submit. destruct (Nat.eqb_spec (senders p) 0); [done|eauto].
  - intros Hlen index w Hw. rewrite (po_share _ _ Hok index w Hw). apply share_length; [|done].
    apply lookup_lt_Some in Hw. by rewrite (po_workers _ _ Hok) in Hw.
Qed.

(** ** Left to its workers, an open pool runs what it was given *)

(** Handing over several jobs, one after the other. *)
Fixpoint submit_all (jobs : list J) p : option (Pool J) :=
  match jobs with
  | [] => Some p
  | job :: jobs => p ← submit job p; submit_all jobs p
  end.

Lemma submit_all_spec jobs p p' :
  submit_all jobs p = Some p' →
  rtc pool_step p p' ∧ submitted p' = submitted p ++ jobs ∧ senders p' = senders p.
Proof.
  revert p. induction jobs as [|job jobs IH]; intros p; simpl.
  { intros [= <-]. by rewrite app_nil_r. }
  intros H. apply bind_Some in H as (p1 & H1 & (Hs & Hj & Hse)%IH).
  split; [eapply rtc_l; [by eapply step_submit|done]|]. rewrite Hj, Hse. unfold submit in H1.
  destruct (senders p =? 0); [done|]. injection H1 as <-. simpl. by rewrite <-(assoc_L (++)).
Qed.

Lemma submit_all_open jobs p : senders p ≠ 0 → is_Some (submit_all jobs p).
Proof.
  revert p. induction jobs as [|job jobs IH]; intros p Hs; simpl; [by eexists|].
  unfold submit at 1. destruct (Nat.eqb_spec (senders p) 0); [done|]. by apply IH.
Qed.

Definition queued p : nat := sum_list_with (λ w, length (channel w)) (workers p).

Lemma pool_turn_kept index p p' :
  pool_turn index p = Some p' → submitted p' = submitted p ∧ senders p' = senders p.
Proof. unfold pool_turn. intros H. apply bind_Some in H as (w & _ & H). by apply bind_Some in H as (w' & _ & [= <-]). Qed.

(** With its channel open a worker's turn is a job run. *)
Lemma pool_turn_runs index p p' :
  senders p ≠ 0 → pool_turn index p = Some p' → queued p = S (queued p').
Proof.
  unfold pool_turn, worker_turn. intros Hs H. apply bind_Some in H as (w & Hw & H).
  apply bind_Some in H as (w' & H & [= <-]). destruct (exited w); [done|].
  destruct (channel w) as [|job rest] eqn:Hch.
  { assert ((0 <? senders p) = true) as Ho by (apply Nat.ltb_lt; lia). by rewrite Ho in H. }
  injection H as <-. unfold queued. simpl.
  pose proof (sum_list_with_insert (λ w, length (channel w)) (workers p) index w
    (Build_pool_worker (name w) rest (ran w ++ [job]) false) Hw) as Hsum.
  simpl in Hsum. rewrite Hch in Hsum. simpl in Hsum. lia.
Qed.

(** And with a job waiting some worker has a turn to take. *)
Lemma queued_turn n p :
  pool_ok n p → senders p ≠ 0 → queued p ≠ 0 → ∃ index, index < n ∧ is_Some (pool_turn index p).
Proof.
  intros Hok Hs Hq.
  assert (∃ w, w ∈ workers p ∧ channel w ≠ []) as (w & Hin & Hch).
  { revert Hq. unfold queued. clear. induction (workers p) as [|w l IH]; simpl; [done|]. intros Hq.
    destruct (channel w) eqn:Hw; [|exists w; rewrite Hw; by split; [left|]].
    destruct IH as (w' & ? & ?); [done|]. exists w'. by split; [right|]. }
  destruct (exited w) eqn:Hx; [by destruct (po_exited _ _ Hok w Hin Hx)|].
  apply list_elem_of_lookup in Hin as [index Hi]. exists index.
  split; [rewrite <-(po_workers _ _ Hok); by eapply lookup_lt_Some|].
  unfold pool_turn, worker_turn. rewrite Hi. simpl. rewrite Hx. by destruct (channel w).
Qed.

Lemma drained_ran `{!EqDecision J} n p : pool_ok n p → queued p = 0 → submitted p ≡ₚ jobs_run p.
Proof.
  intros Hok Hq. rewrite (handed_submitted _ p Hok). unfold handed, jobs_run, queued in *.
  replace ((λ w, ran w ++ channel w) <$> workers p) with (ran <$> workers p); [done|].
  apply list_fmap_ext. intros i w Hi. apply list_elem_of_lookup_2 in Hi.
  pose proof (proj1 (sum_list_with_0 _ _) Hq w Hi) as Hw. simpl in Hw.
  destruct (channel w); [by rewrite app_nil_r|done].
Qed.

(** A run of an open pool in which nothing more is submitted and no worker is left out for
    ever. *)
Section draining.
  Variables (n : nat) (run : nat → Pool J).
  Hypothesis open : ∀ i, pool_ok n (run i) ∧ senders (run i) ≠ 0.
  Hypothesis quiet : ∀ i, run (S i) = run i ∨ ∃ index, pool_turn index (run i) = Some (run (S i)).
  Hypothesis fair : ∀ i index, index < n → ∃ d, run (S (d + i)) = default (run (d + i)) (pool_turn index (run (d + i))).

Lemma same_or_fewer d i : run (d + i) = run i ∨ queued (run (d + i)) < queued (run i).
Proof.
  induction d as [|d IH]; [by left|]. simpl. destruct (quiet (d + i)) as [->|[index Ht]]; [done|].
  apply pool_turn_runs in Ht; [|apply open]. destruct IH as [IH|IH]; [rewrite IH in Ht|]; right; lia.
Qed.

Lemma open_pool_drains : ∃ N, ∀ i, N ≤ i → queued (run i) = 0.
Proof.
  assert (∀ m i, queued (run i) ≤ m → ∃ N, queued (run N) = 0) as Hdown.
  { intros m. induction m as [|m IH]; intros i Hm; [exists i; lia|].
    destruct (decide (queued (run i) = 0)) as [|Hne]; [by exists i|]. destruct (open i) as [Hok Hs].
    destruct (queued_turn n (run i) Hok Hs Hne) as (index & Hlt & [p' Hp']). destruct (fair i index Hlt) as [d Hd].
    destruct (same_or_fewer d i) as [Heq|?]; [|apply (IH (d + i)); lia].
    rewrite Heq, Hp' in Hd. apply pool_turn_runs in Hp'; [|done]. apply (IH (S (d + i))). rewrite Hd. simpl. lia. }
  destruct (Hdown (queued (run 0)) 0 (le_n _)) as [N HN]. exists N. intros i Hi.
  replace i with (i - N + N) by lia. destruct (same_or_fewer (i - N) N) as [->|?]; [done|lia].
Qed.

End draining.

End pool.

(** ** Witnesses: three jobs on two workers, the pool then dropped and joined *)

Definition two_workers : Pool nat :=
  match pool_new (λ _, Ok (E := ()) tt) 2 with Ok p => p | Err _ => Build_Pool 0 0 [] [] end.

(** A turn that cannot be taken is none. *)
Definition turns (l : list nat) (p : Pool nat) : Pool nat :=
  foldl (λ p i, default p (pool_turn i p)) p l.

Definition submits (l : list nat) (p : Pool nat) : Pool nat :=
  foldl (λ p j, default p (submit j p)) p l.

Lemma turns_steps l p : rtc pool_step p (turns l p).
Proof.
  revert p. induction l as [|i l IH]; intros p; simpl; [done|].
  destruct (pool_turn i p) as [p'|] eqn:E; simpl; [|done].
  eapply rtc_l; [by eapply step_turn|done].
Qed.

Lemma submits_steps l p : rtc pool_step p (submits l p).
Proof.
  revert p. induction l as [|j l IH]; intros p; simpl; [done|].
  destruct (submit j p) as [p'|] eqn:E; simpl; [|done].
  eapply rtc_l; [by eapply step_submit|done].
Qed.

Definition busy_pool : Pool nat := submits [12] (turns [1] (submits [10; 11] two_workers)).
Definition dropped_pool : Pool nat := turns [0; 0; 0; 1] (pool_drop busy_pool).

Lemma busy_pool_steps : rtc pool_step two_workers busy_pool.
Proof.
  etrans; [apply submits_steps|]. etrans; [apply turns_steps|apply submits_steps].
Qed.

Lemma dropped_pool_steps : rtc pool_step two_workers dropped_pool.
Proof.
  etrans; [apply busy_pool_steps|]. eapply rtc_l; [apply step_drop|apply turns_steps].
Qed.

Lemma pool_runs_each_job_once_witness :
  joined dropped_pool = true ∧ ran <$> workers dropped_pool = [[10; 12]; [11]] ∧
  [10; 11; 12] ≡ₚ jobs_run dropped_pool.
Proof.
  split; [reflexivity|]. split; [reflexivity|].
  apply (pool_runs_each_job_once (λ _, Ok (E := ()) tt) 2 two_workers dropped_pool eq_refl dropped_pool_steps).
  reflexivity.
Defined.

