(* ===== verification/Worker.v ===== *)
(** * The fabric worker

    [server_dma_worker.rs]: the thread that owns an endpoint, takes submitted
    transfers off its channel, posts them up to a cap, reaps completions, follows writes
    with quiesce reads, and hands outcomes back in batches.  The request and completion
    types are [server.rs]'s.  An [InFlight] box is an address in [boxes]: a raw
    [op_context] and the [Box] reclaimed from it are that address, and using one that is
    not allocated is undefined behaviour, [None].  The endpoint is an interface,
    [Transport], which [FabricTransport] implements with [Endpoint].  Tracing spans are left
    out: nothing reads them. *)

From S2P Require Import Prelude Arc Wire Operands.

(** ** Requests and completions, of [server.rs] *)

Inductive Direction : Type :=
  | ToPeer
  | FromPeer (length : Z).

Record TransferDone := { done_bytes : Z; checksum : option Z }.

Definition Outcome : Type := result TransferDone DmaError.

Record Completion (T : Type) := { completed_context : T; outcome : Outcome }.
Arguments Build_Completion {T} _ _.
Arguments completed_context {T} _.
Arguments outcome {T} _.

Record TransferRequest (T : Type) := {
  client_id : Z;
  peer_address : list u8;
  remote_key : Z;
  remote_address : Z;
  direction : Direction;
  request_want_checksum : bool;
  request_context : T;
}.
Arguments Build_TransferRequest {T} _ _ _ _ _ _ _.
Arguments client_id {T} _.
Arguments peer_address {T} _.
Arguments remote_key {T} _.
Arguments remote_address {T} _.
Arguments direction {T} _.
Arguments request_want_checksum {T} _.
Arguments request_context {T} _.

(** An [Answer] is named by its slot. *)
Inductive WorkerMessage (T : Type) : Type :=
  | Transfer (request : TransferRequest T)
  | AddPeer (client : Z) (address : list u8) (reply : nat)
  | RemovePeer (client : Z)
  | Register (base length : Z) (reply : nat).
Arguments Transfer {T} _.
Arguments AddPeer {T} _ _ _.
Arguments RemovePeer {T} _.
Arguments Register {T} _ _ _.

(** ** What the worker asks of its endpoint *)

Class Transport (E : Type) := {
  t_insert_peer : Z → list u8 → E → result nat DmaError * E;
  t_drop_peer : nat → E → E;
  t_release_peer : Z → E → E;
  t_pin_region : Z → Z → E → result () DmaError * E;
  t_local_operand : Z → Z → option CacheableSpan → E → result LocalOperand DmaError * E;
  t_drop_lease : option nat → E → E;
  (** Peer, remote key and address, local bytes, descriptor, context. *)
  t_post_out : nat → Z → Z → slice → Z → Z → E → Z * E;
  t_post_in : nat → Z → Z → slice → Z → Z → E → Z * E;
  t_reap : nat → E → result () DmaError * list (Z * result () DmaError) * E;
  t_max_tx : E → Z;
  t_again : Z;
  t_error : Z → string → DmaError;
}.

(** What the endpoint promises: only a post that answers 0 puts an operation in flight,
    a reap hands back contexts in flight, each once, and nothing else touches them. *)
Class TransportLaws (E : Type) `{Transport E} := {
  posted : E → list Z;
  insert_peer_posted client address e : posted (t_insert_peer client address e).2 = posted e;
  drop_peer_posted i e : posted (t_drop_peer i e) = posted e;
  release_peer_posted client e : posted (t_release_peer client e) = posted e;
  pin_region_posted b l e : posted (t_pin_region b l e).2 = posted e;
  local_operand_posted ptr l span e : posted (t_local_operand ptr l span e).2 = posted e;
  drop_lease_posted lease e : posted (t_drop_lease lease e) = posted e;
  post_out_posted i k a s d context e code e' :
    t_post_out i k a s d context e = (code, e') →
    posted e' ≡ₚ (if decide (code = 0%Z) then [context] else []) ++ posted e;
  post_in_posted i k a s d context e code e' :
    t_post_in i k a s d context e = (code, e') →
    posted e' ≡ₚ (if decide (code = 0%Z) then [context] else []) ++ posted e;
  reap_posted max e r out e' :
    t_reap max e = (r, out, e') → Forall (λ context, context ≠ 0%Z) (posted e) →
    posted e ≡ₚ out.*1 ++ posted e';
}.

(** ** Operations *)

Record QuiesceRead := { q_address : list u8; q_remote_key : Z; q_remote_address : Z }.

Record InFlight (T : Type) := {
  caller_context : T;
  if_client : Z;
  if_length : Z;
  want_checksum : bool;
  buffer_pointer : Z;
  local_lease : option nat;
  quiesce : option QuiesceRead;
}.
Arguments Build_InFlight {T} _ _ _ _ _ _ _.
Arguments caller_context {T} _.
Arguments if_client {T} _.
Arguments if_length {T} _.
Arguments want_checksum {T} _.
Arguments buffer_pointer {T} _.
Arguments local_lease {T} _.
Arguments quiesce {T} _.

Definition with_lease {T} (lease : option nat) (op : InFlight T) : InFlight T :=
  {| caller_context := caller_context op; if_client := if_client op; if_length := if_length op;
     want_checksum := want_checksum op; buffer_pointer := buffer_pointer op;
     local_lease := lease; quiesce := quiesce op |}.

Definition with_quiesce {T} (q : option QuiesceRead) (op : InFlight T) : InFlight T :=
  {| caller_context := caller_context op; if_client := if_client op; if_length := if_length op;
     want_checksum := want_checksum op; buffer_pointer := buffer_pointer op;
     local_lease := local_lease op; quiesce := q |}.

(** A request whose box is built, and what it takes to post it. *)
Record Prepared := {
  context : Z;
  p_client : Z;
  p_address : list u8;
  p_remote_key : Z;
  p_remote_address : Z;
  p_pointer : Z;
  p_length : Z;
  p_direction : Direction;
  stalled_since : option Z;
}.

Definition with_stalled (since : option Z) (p : Prepared) : Prepared :=
  {| context := context p; p_client := p_client p; p_address := p_address p;
     p_remote_key := p_remote_key p; p_remote_address := p_remote_address p;
     p_pointer := p_pointer p; p_length := p_length p; p_direction := p_direction p;
     stalled_since := since |}.

(** A completed write waiting to post its quiesce read. *)
Record Quiescing := { q_inflight : Z; read : QuiesceRead; q_stalled_since : option Z }.

Definition TARGET_COMPLETIONS : nat := 10.

(** A [Duration]'s [{:?}]: in the greatest unit it reaches, with the fraction's digits
    down to the last that is not zero. *)
Fixpoint fraction_digits (fuel : nat) (fraction divisor : Z) : string :=
  match fuel with
  | O => EmptyString
  | S fuel =>
      if (fraction =? 0)%Z then EmptyString
      else pretty (fraction / divisor)%Z +:+
           fraction_digits fuel (fraction mod divisor)%Z (divisor / 10)%Z
  end.

Definition duration_text (d : Z) : string :=
  let '(unit, suffix) :=
    if (1000000000 <=? d)%Z then (1000000000%Z, "s")
    else if (1000000 <=? d)%Z then (1000000%Z, "ms")
    else if (1000 <=? d)%Z then (1000%Z, "µs")
    else (1%Z, "ns") in
  let fraction := (d mod unit)%Z in
  pretty (d / unit)%Z +:+
  (if (fraction =? 0)%Z then EmptyString else "." +:+ fraction_digits 9 fraction (unit / 10)) +:+
  suffix.

Example duration_text_examples :
  duration_text (1000000000) = "1s" ∧ duration_text (1500000000) = "1.5s" ∧
  duration_text (20050000) = "20.05ms".
Proof. by vm_compute. Qed.

(** What the worker does that others see, and the two ends of its bookkeeping. *)
Inductive effect (T : Type) : Type :=
  | Accepted (client : Z)
  | Finished (client : Z)
  | Released (client : Z)
  | CompleteBatch (batch : list (Completion T))
  | PoolJob (batch : list (InFlight T * result () DmaError))
  | Replied (reply : nat) (answer : result () DmaError).
Arguments Accepted {T} _.
Arguments Finished {T} _.
Arguments Released {T} _.
Arguments CompleteBatch {T} _.
Arguments PoolJob {T} _.
Arguments Replied {T} _ _.

(** [in_flight_cap] *)
Definition in_flight_cap (max_tx : Z) (configured : option Z) : Z :=
  let requested := Z.max (default 64%Z configured) 1 in
  if (max_tx =? 0)%Z then requested else Z.min requested max_tx.

(** [should_flush_crc] *)
Definition should_flush_crc (batched posted : nat) (reaped_any about_to_park : bool) : bool :=
  (0 <? batched) &&
  ((TARGET_COMPLETIONS <=? batched) || ((0 =? posted) && negb reaped_any) || about_to_park).

(** [into_completion].  [crc] is the checksum of the bytes at a place in memory. *)
Definition into_completion {T} (crc : slice → Z) (op : InFlight T) (r : result () DmaError) :
    Completion T :=
  {| completed_context := caller_context op;
     outcome :=
       result_map (λ _, {| done_bytes := if_length op;
                           checksum := if want_checksum op
                                       then Some (crc (Slice (buffer_pointer op) (if_length op)))
                                       else None |}) r |}.

(** The job [submit_crc_batch] hands to the pool. *)
Definition crc_job {T} (crc : slice → Z) (batch : list (InFlight T * result () DmaError)) :
    list (Completion T) :=
  (λ '(op, r), into_completion crc op r) <$> batch.

(** ** The worker's state *)

(** What [finish_op] and [remove_or_defer] share by reference. *)
Record accounts (E T : Type) := {
  transport : E;
  outstanding_by_client : gmap Z nat;
  pending_removal : gset Z;
  outstanding : nat;
  log : list (effect T);
}.
Arguments Build_accounts {E T} _ _ _ _ _.
Arguments transport {E T} _.
Arguments outstanding_by_client {E T} _.
Arguments pending_removal {E T} _.
Arguments outstanding {E T} _.
Arguments log {E T} _.

Record worker (E T : Type) := {
  acc : accounts E T;
  boxes : gmap Z (InFlight T);
  pending : list Prepared;
  quiescing : list Quiescing;
  in_flight : nat;
  completions : list (Completion T);
  crc_pending : list (Z * result () DmaError);
  drain_spins : nat;
  disconnected : bool;
  ticks : nat;
}.
Arguments Build_worker {E T} _ _ _ _ _ _ _ _ _ _.
Arguments acc {E T} _.
Arguments boxes {E T} _.
Arguments pending {E T} _.
Arguments quiescing {E T} _.
Arguments in_flight {E T} _.
Arguments completions {E T} _.
Arguments crc_pending {E T} _.
Arguments drain_spins {E T} _.
Arguments disconnected {E T} _.
Arguments ticks {E T} _.

Section setters.
  Context {E T : Type}.
  Implicit Types (w : worker E T) (a : accounts E T).

Definition with_transport (e : E) a : accounts E T :=
  Build_accounts e (outstanding_by_client a) (pending_removal a) (outstanding a) (log a).
Definition with_counts (m : gmap Z nat) a : accounts E T :=
  Build_accounts (transport a) m (pending_removal a) (outstanding a) (log a).
Definition with_removal (X : gset Z) a : accounts E T :=
  Build_accounts (transport a) (outstanding_by_client a) X (outstanding a) (log a).
Definition with_outstanding (n : nat) a : accounts E T :=
  Build_accounts (transport a) (outstanding_by_client a) (pending_removal a) n (log a).
Definition emit (x : effect T) a : accounts E T :=
  Build_accounts (transport a) (outstanding_by_client a) (pending_removal a) (outstanding a)
    (log a ++ [x]).

Definition with_acc a w : worker E T :=
  Build_worker a (boxes w) (pending w) (quiescing w) (in_flight w) (completions w)
    (crc_pending w) (drain_spins w) (disconnected w) (ticks w).
Definition with_boxes (m : gmap Z (InFlight T)) w : worker E T :=
  Build_worker (acc w) m (pending w) (quiescing w) (in_flight w) (completions w)
    (crc_pending w) (drain_spins w) (disconnected w) (ticks w).
Definition with_pending (l : list Prepared) w : worker E T :=
  Build_worker (acc w) (boxes w) l (quiescing w) (in_flight w) (completions w)
    (crc_pending w) (drain_spins w) (disconnected w) (ticks w).
Definition with_quiescing (l : list Quiescing) w : worker E T :=
  Build_worker (acc w) (boxes w) (pending w) l (in_flight w) (completions w)
    (crc_pending w) (drain_spins w) (disconnected w) (ticks w).
Definition with_in_flight (n : nat) w : worker E T :=
  Build_worker (acc w) (boxes w) (pending w) (quiescing w) n (completions w)
    (crc_pending w) (drain_spins w) (disconnected w) (ticks w).
Definition with_completions (l : list (Completion T)) w : worker E T :=
  Build_worker (acc w) (boxes w) (pending w) (quiescing w) (in_flight w) l
    (crc_pending w) (drain_spins w) (disconnected w) (ticks w).
Definition with_crc_pending (l : list (Z * result () DmaError)) w : worker E T :=
  Build_worker (acc w) (boxes w) (pending w) (quiescing w) (in_flight w) (completions w)
    l (drain_spins w) (disconnected w) (ticks w).
Definition with_drain_spins (n : nat) w : worker E T :=
  Build_worker (acc w) (boxes w) (pending w) (quiescing w) (in_flight w) (completions w)
    (crc_pending w) n (disconnected w) (ticks w).
Definition with_disconnected (b : bool) w : worker E T :=
  Build_worker (acc w) (boxes w) (pending w) (quiescing w) (in_flight w) (completions w)
    (crc_pending w) (drain_spins w) b (ticks w).
Definition with_ticks (n : nat) w : worker E T :=
  Build_worker (acc w) (boxes w) (pending w) (quiescing w) (in_flight w) (completions w)
    (crc_pending w) (drain_spins w) (disconnected w) n.

(** The endpoint inside the worker. *)
Definition endpoint_of w : E := transport (acc w).
Definition with_endpoint (e : E) w : worker E T := with_acc (with_transport e (acc w)) w.

(** Before the first message. *)
Definition worker_new (e : E) (outstanding : nat) : worker E T :=
  Build_worker (Build_accounts e ∅ ∅ outstanding []) ∅ [] [] 0 [] [] 0 false 0.

End setters.

Section operations.
  Context {E T : Type} `{!Transport E, !Operands T}.
  (** Configuration: [quiesce_writes], [progress_deadline] and the cap. *)
  Variables (quiesce_writes : bool) (progress_deadline : Z) (cap : nat).
  (** Where the worker's quiesce buffer is. *)
  Variable (quiesce_pointer : Z).
  (** [Instant::now], by how many readings were made before; [Box::new]'s address, given
      the boxes there are; the checksum of the bytes at a place. *)
  Variables (clock : nat → Z) (place : gmap Z (InFlight T) → Z) (crc : slice → Z).
  Implicit Types (w : worker E T) (a : accounts E T).

Definition now w : Z * worker E T := (clock (ticks w), with_ticks (S (ticks w)) w).

(** [Box::from_raw] on an [op_context]. *)
Definition reclaim (context : Z) w : option (InFlight T) := boxes w !! context.

(** [into_completion] on a box: the box and its lease go. *)
Definition complete (box : Z) (r : result () DmaError) w : option (Completion T * worker E T) :=
  op ← reclaim box w;
  Some (into_completion crc op r,
        with_boxes (delete box (boxes w))
          (with_endpoint (t_drop_lease (local_lease op) (endpoint_of w)) w)).

(** [prepare]'s choice of the local operand, out of the context in the box. *)
Definition resolve_operand (direction : Direction) (context : T) :
    result (Z * Z) DmaError * T :=
  match direction with
  | ToPeer =>
      (match source context with
       | Some bytes => Ok (pointer bytes, len bytes)
       | None => Err (Fabric "the caller context supplied no source bytes for a ToPeer transfer")
       end, context)
  | FromPeer length =>
      let '(landing, context) := allocate length context in
      (match landing with
       | Some landing =>
           if (len landing <? length)%Z then
             Err (Fabric ("the caller context allocated " +:+ pretty (len landing) +:+
                          " bytes for a " +:+ pretty length +:+ " byte FromPeer transfer"))
           else Ok (pointer landing, length)
       | None => Err (Fabric "the caller context allocated no landing buffer for a FromPeer transfer")
       end, context)
  end.

(** The quiesce read of a write, if it is to have one. *)
Definition quiesce_read (request : TransferRequest T) (length : Z) :
    result (option QuiesceRead) DmaError :=
  match direction request with
  | ToPeer =>
      if quiesce_writes && (0 <? length)%Z then
        match checked_add (remote_address request) (length - 1) with
        | None => Err (Fabric "the peer's buffer range overflows")
        | Some last => Ok (Some {| q_address := []; q_remote_key := remote_key request;
                                   q_remote_address := last |})
        end
      else Ok None
  | FromPeer _ => Ok None
  end.

(** [prepare] *)
Definition prepare (request : TransferRequest T) (m : gmap Z (InFlight T)) :
    result Prepared (Completion T) * gmap Z (InFlight T) :=
  let '(operand, ctx) := resolve_operand (direction request) (request_context request) in
  match operand with
  | Err error => (Err {| completed_context := ctx; outcome := Err error |}, m)
  | Ok (pointer, length) =>
      match quiesce_read request length with
      | Err error => (Err {| completed_context := ctx; outcome := Err error |}, m)
      | Ok read =>
          let box := place m in
          (Ok {| context := box; p_client := client_id request; p_address := peer_address request;
                 p_remote_key := remote_key request; p_remote_address := remote_address request;
                 p_pointer := pointer; p_length := length; p_direction := direction request;
                 stalled_since := None |},
           <[box := {| caller_context := ctx; if_client := client_id request; if_length := length;
                       want_checksum := request_want_checksum request; buffer_pointer := pointer;
                       local_lease := None; quiesce := read |}]> m)
      end
  end.

(** [release_outstanding] *)
Definition release_outstanding a : accounts E T := with_outstanding (outstanding a - 1) a.

(** [accept] *)
Definition accept (request : TransferRequest T) w : worker E T :=
  match prepare request (boxes w) with
  | (Ok p, m) =>
      let counts := outstanding_by_client (acc w) in
      let n := default 0 (counts !! p_client p) in
      with_pending (pending w ++ [p])
        (with_acc (emit (Accepted (p_client p)) (with_counts (<[p_client p := S n]> counts) (acc w)))
           (with_boxes m w))
  | (Err completion, m) =>
      with_completions (completions w ++ [completion])
        (with_acc (release_outstanding (acc w)) (with_boxes m w))
  end.

(** [endpoint.release_peer] *)
Definition release_peer (client : Z) a : accounts E T :=
  emit (Released client) (with_transport (t_release_peer client (transport a)) a).

(** [remove_or_defer] *)
Definition remove_or_defer (client : Z) a : accounts E T :=
  if decide (default 0 (outstanding_by_client a !! client) = 0) then release_peer client a
  else with_removal ({[client]} ∪ pending_removal a) a.

(** [finish_op]; [None] is the overflow of [*count -= 1]. *)
Definition finish_op (client : Z) a : option (accounts E T) :=
  let a := emit (Finished client) (release_outstanding a) in
  '(remaining, a) ← match outstanding_by_client a !! client with
                    | Some 0 => None
                    | Some (S n) => Some (n, with_counts (<[client := n]> (outstanding_by_client a)) a)
                    | None => Some (0, a)
                    end;
  if decide (remaining = 0) then
    let a := with_counts (delete client (outstanding_by_client a)) a in
    if decide (client ∈ pending_removal a) then
      Some (release_peer client (with_removal (pending_removal a ∖ {[client]}) a))
    else Some a
  else Some a.

(** [finish_unreaped] *)
Definition finish_unreaped (box : Z) (error : DmaError) w : option (worker E T) :=
  op ← reclaim box w;
  '(completion, w) ← complete box (Err error) w;
  a ← finish_op (if_client op) (acc w);
  Some (with_acc a (with_completions (completions w ++ [completion]) w)).

(** ** Posting *)

(** The connection and the post of [post], the operand having resolved.  The box's lease is
    assigned, so what it held goes. *)
Definition post_resolved (p : Prepared) (peer : nat) (op : LocalOperand) w : option (Z * worker E T) :=
  let bytes := Slice (p_pointer p) (p_length p) in
  let '(code, e) :=
    match p_direction p with
    | ToPeer => t_post_out peer (p_remote_key p) (p_remote_address p) bytes (descriptor op)
                  (context p) (endpoint_of w)
    | FromPeer _ => t_post_in peer (p_remote_key p) (p_remote_address p) bytes (descriptor op)
                      (context p) (endpoint_of w)
    end in
  let w := with_endpoint e w in
  if (code =? 0)%Z then
    inflight ← reclaim (context p) w;
    let w := with_endpoint (t_drop_lease (local_lease inflight) (endpoint_of w)) w in
    let inflight := with_lease (lease op) inflight in
    let inflight :=
      with_quiesce ((λ q, {| q_address := p_address p; q_remote_key := q_remote_key q;
                             q_remote_address := q_remote_address q |}) <$> quiesce inflight) inflight in
    Some (code, with_endpoint (t_drop_peer peer (endpoint_of w))
                  (with_boxes (<[context p := inflight]> (boxes w)) w))
  else
    Some (code, with_endpoint (t_drop_peer peer (t_drop_lease (lease op) (endpoint_of w))) w).

(** [post] *)
Definition post (p : Prepared) w : option (result Z DmaError * worker E T) :=
  let '(peer, e) := t_insert_peer (p_client p) (p_address p) (endpoint_of w) in
  let w := with_endpoint e w in
  match peer with
  | Err error => Some (Err error, w)
  | Ok peer =>
      inflight ← reclaim (context p) w;
      let '(operand, e) := t_local_operand (p_pointer p) (p_length p)
                             (cacheable_span (caller_context inflight)) (endpoint_of w) in
      let w := with_endpoint e w in
      match operand with
      | Err error => Some (Err error, with_endpoint (t_drop_peer peer (endpoint_of w)) w)
      | Ok op =>
          '(code, w) ← post_resolved p peer op w;
          Some (Ok code, w)
      end
  end.

(** [-FI_EAGAIN]: stalled since the first such answer, and failed once the deadline has
    passed. *)
Definition stalled (since : option Z) w : Z * bool * worker E T :=
  let '(since, w) := match since with Some t => (t, w) | None => now w end in
  let '(t, w) := now w in
  (since, (Z.max 0 (t - since) <? progress_deadline)%Z, w).

Definition no_progress : DmaError :=
  Wire.Transfer ("no progress posting for " +:+ duration_text progress_deadline +:+
                ": peer unreachable or transmit queue stuck").

(** One turn of the posting loop: the worker and how many were posted. *)
Definition post_one w : option (worker E T * nat) :=
  match pending w with
  | [] => Some (w, 0)
  | p :: rest =>
      let w := with_pending rest w in
      '(r, w) ← post p w;
      match r with
      | Ok code =>
          if (code =? 0)%Z then Some (with_in_flight (S (in_flight w)) w, 1)
          else if (code =? t_again)%Z then
            let '(since, wait, w) := stalled (stalled_since p) w in
            if wait : bool then Some (with_pending (pending w ++ [with_stalled (Some since) p]) w, 0)
            else w ← finish_unreaped (context p) no_progress w; Some (w, 0)
          else w ← finish_unreaped (context p) (t_error code "post") w; Some (w, 0)
      | Err error => w ← finish_unreaped (context p) error w; Some (w, 0)
      end
  end.

Fixpoint post_loop (attempts : nat) w : option (worker E T * nat) :=
  match attempts with
  | O => Some (w, 0)
  | S attempts =>
      if in_flight w <? cap then
        '(w, n) ← post_one w;
        '(w, m) ← post_loop attempts w;
        Some (w, n + m)
      else Some (w, 0)
  end.

(** ** Reaping *)

(** One reaped context: a write that is to be quiesced waits for its read; anything else
    is finished, its completion deferred if it wants a checksum. *)
Definition reap_one (c : Z * result () DmaError) w : option (worker E T) :=
  let '(box, r) := c in
  op ← reclaim box w;
  match (if is_ok r then quiesce op else None) with
  | Some read =>
      Some (with_quiescing (quiescing w ++ [{| q_inflight := box; read := read; q_stalled_since := None |}])
              (with_boxes (<[box := with_quiesce None op]> (boxes w)) w))
  | None =>
      a ← finish_op (if_client op) (acc w);
      let w := with_acc a w in
      if want_checksum op then Some (with_crc_pending (crc_pending w ++ [(box, r)]) w)
      else
        '(completion, w) ← complete box r w;
        Some (with_completions (completions w ++ [completion]) w)
  end.

Fixpoint reap_each (reaped : list (Z * result () DmaError)) w : option (worker E T) :=
  match reaped with
  | [] => Some w
  | c :: reaped => w ← reap_one c w; reap_each reaped w
  end.

(** The reap of a pass.  An error names no operation and is only logged. *)
Definition reap_pass w : option (worker E T * bool) :=
  let '(_, reaped, e) := t_reap TARGET_COMPLETIONS (endpoint_of w) in
  let w := with_in_flight (in_flight w - length reaped) (with_endpoint e w) in
  w ← reap_each reaped w;
  Some (w, bool_decide (reaped ≠ [])).

(** ** Quiesce reads *)

Inductive QuiescePost : Type :=
  | Posted
  | Again (waiting : Quiescing)
  | Failed (box : Z) (error : DmaError).

(** [post_quiesce] *)
Definition post_quiesce (waiting : Quiescing) w : option (QuiescePost * worker E T) :=
  let box := q_inflight waiting in
  inflight ← reclaim box w;
  let '(peer, e) := t_insert_peer (if_client inflight) (q_address (read waiting)) (endpoint_of w) in
  let w := with_endpoint e w in
  match peer with
  | Err error => Some (Failed box error, w)
  | Ok peer =>
      let '(operand, e) := t_local_operand quiesce_pointer 1 None (endpoint_of w) in
      let w := with_endpoint e w in
      match operand with
      | Err error => Some (Failed box error, with_endpoint (t_drop_peer peer (endpoint_of w)) w)
      | Ok op =>
          let w := with_boxes (<[box := with_lease (lease op) inflight]> (boxes w))
                     (with_endpoint (t_drop_lease (local_lease inflight) (endpoint_of w)) w) in
          let '(code, e) := t_post_in peer (q_remote_key (read waiting)) (q_remote_address (read waiting))
                              (Slice quiesce_pointer 1) (descriptor op) box (endpoint_of w) in
          let w := with_endpoint (t_drop_peer peer e) w in
          if (code =? 0)%Z then Some (Posted, w)
          else if (code =? t_again)%Z then Some (Again waiting, w)
          else Some (Failed box (t_error code "quiesce read"), w)
      end
  end.

Definition no_quiesce_progress : DmaError :=
  Wire.Transfer ("no progress posting the quiesce read for " +:+ duration_text progress_deadline +:+
                 ": peer unreachable or transmit queue stuck").

Definition quiesce_one w : option (worker E T * nat) :=
  match quiescing w with
  | [] => Some (w, 0)
  | waiting :: rest =>
      let w := with_quiescing rest w in
      '(p, w) ← post_quiesce waiting w;
      match p with
      | Posted => Some (with_in_flight (S (in_flight w)) w, 1)
      | Again waiting =>
          let '(since, wait, w) := stalled (q_stalled_since waiting) w in
          if wait : bool then
            Some (with_quiescing (quiescing w ++
                    [{| q_inflight := q_inflight waiting; read := read waiting;
                        q_stalled_since := Some since |}]) w, 0)
          else w ← finish_unreaped (q_inflight waiting) no_quiesce_progress w; Some (w, 0)
      | Failed box error => w ← finish_unreaped box error w; Some (w, 0)
      end
  end.

Fixpoint quiesce_loop (attempts : nat) w : option (worker E T * nat) :=
  match attempts with
  | O => Some (w, 0)
  | S attempts =>
      '(w, n) ← quiesce_one w;
      '(w, m) ← quiesce_loop attempts w;
      Some (w, n + m)
  end.

(** ** The loop *)

(** Taking each deferred operation out of its box, for the pool. *)
Fixpoint take_boxes (l : list (Z * result () DmaError)) w :
    option (list (InFlight T * result () DmaError) * worker E T) :=
  match l with
  | [] => Some ([], w)
  | (box, r) :: l =>
      op ← reclaim box w;
      '(ops, w) ← take_boxes l (with_boxes (delete box (boxes w)) w);
      Some ((op, r) :: ops, w)
  end.

(** [submit_crc_batch] of the accumulated operations. *)
Definition submit_crc_batch w : option (worker E T) :=
  '(ops, w) ← take_boxes (crc_pending w) (with_crc_pending [] w);
  Some (with_acc (emit (PoolJob ops) (acc w)) w).

Definition idle w : bool :=
  bool_decide (pending w = []) && bool_decide (quiescing w = []) && (in_flight w =? 0).

(** One message off the channel. *)
Definition receive (message : WorkerMessage T) w : worker E T :=
  match message with
  | Transfer request => accept request w
  | AddPeer client address reply =>
      let '(r, e) := t_insert_peer client address (endpoint_of w) in
      let w := with_endpoint e w in
      let w := match r with Ok peer => with_endpoint (t_drop_peer peer (endpoint_of w)) w | Err _ => w end in
      with_acc (emit (Replied reply (result_map (λ _, tt) r)) (acc w)) w
  | RemovePeer client => with_acc (remove_or_defer client (acc w)) w
  | Register base length reply =>
      let '(r, e) := t_pin_region base length (endpoint_of w) in
      let w := with_endpoint e w in
      with_acc (emit (Replied reply r) (acc w)) w
  end.

(** Intake: what [try_recv] yields this pass, and whether the channel then proved to be
    disconnected. *)
Definition intake (messages : list (WorkerMessage T)) (closed : bool) w : worker E T :=
  let w := foldl (λ w m, receive m w) w messages in
  if closed then with_disconnected true w else w.

(** Posting, reaping and quiescing: how many were posted and whether any was reaped. *)
Definition progress w : option (worker E T * nat * bool) :=
  '(w, posted) ← post_loop (length (pending w)) w;
  '(w, reaped_any) ← reap_pass w;
  '(w, reads) ← quiesce_loop (length (quiescing w)) w;
  Some (w, posted + reads, reaped_any).

(** How a pass ends: round again, block on the channel, or leave the loop. *)
Inductive turn : Type := Spin | Park | Leave.

Definition flush_completions w : worker E T :=
  with_completions [] (with_drain_spins 0
    (with_acc (emit (CompleteBatch (completions w)) (acc w)) w)).

Definition after_progress (posted : nat) (reaped_any : bool) w : option (worker E T * turn) :=
  let idle := idle w in
  w ← (if should_flush_crc (length (crc_pending w)) posted reaped_any idle
       then submit_crc_batch w else Some w);
  if bool_decide (completions w ≠ []) && (length (completions w) <? TARGET_COMPLETIONS)
     && (drain_spins w <? 10) then
    Some (with_drain_spins (S (drain_spins w)) w, Spin)
  else
    let w := if bool_decide (completions w ≠ []) then flush_completions w else w in
    Some (w, if disconnected w && idle then Leave else if idle then Park else Spin).

(** One pass of the loop, up to the blocking receive. *)
Definition pass (messages : list (WorkerMessage T)) (closed : bool) w : option (worker E T * turn) :=
  '(w, posted, reaped_any) ← progress (intake messages closed w);
  after_progress posted reaped_any w.

(** Failing what was never posted and finishing the deferred, when the loop is left. *)
Fixpoint complete_all (l : list (Z * result () DmaError)) w : option (list (Completion T) * worker E T) :=
  match l with
  | [] => Some ([], w)
  | (box, r) :: l =>
      '(completion, w) ← complete box r w;
      '(rest, w) ← complete_all l w;
      Some (completion :: rest, w)
  end.

Definition shutdown w : option (worker E T) :=
  let unposted := (λ p, (context p, Err (Fabric "fabric worker is gone"))) <$> pending w in
  '(leftover, w) ← complete_all (unposted ++ crc_pending w) (with_crc_pending [] (with_pending [] w));
  Some (if bool_decide (leftover ≠ [])
        then with_acc (emit (CompleteBatch leftover) (acc w)) w else w).

(** Where the worker thread is: in a pass, blocked on its channel, or returned. *)
Inductive worker_status : Type := Running | Parked | Gone.
#[export] Instance worker_status_eq_dec : EqDecision worker_status.
Proof. solve_decision. Defined.

End operations.

(** ** The books

    What the worker's bookkeeping amounts to, apart from how it is laid out: the boxes
    with the client and the identity of each, which boxes belong to unfinished
    operations ([active]) and which only wait for their checksum ([deferred]), the
    accounts, and what is still to be handed back. *)

(** Field access through the accounts' setters. *)
Ltac simpl_acc :=
  cbn [emit release_outstanding release_peer with_outstanding with_counts with_removal with_transport
       transport outstanding_by_client pending_removal outstanding log].

(** And through the worker's. *)
Ltac simpl_worker :=
  cbn [acc boxes pending quiescing in_flight completions crc_pending drain_spins disconnected ticks
       with_acc with_boxes with_pending with_quiescing with_in_flight with_completions
       with_crc_pending with_drain_spins with_disconnected with_ticks with_endpoint
       transport with_transport].

Section books.
  Context {E T K : Type} `{!Transport E, !TransportLaws E, !Operands T} {ident : T → K}.
  Implicit Types (a : accounts E T) (S : gmap Z (Z * K)) (A D : list Z) (rec comps : list K).

Definition client_weight S (c b : Z) : nat :=
  match S !! b with Some (c', _) => if decide (c' = c) then 1 else 0 | None => 0 end.

Definition client_count S (c : Z) (A : list Z) : nat := sum_list_with (client_weight S c) A.

(** The identities an effect hands back. *)
Definition handed (x : effect T) : list K :=
  match x with
  | CompleteBatch batch => (λ c, ident (completed_context c)) <$> batch
  | PoolJob batch => (λ x, ident (caller_context x.1)) <$> batch
  | _ => []
  end.

Definition delivered (l : list (effect T)) : list K := l ≫= handed.

Definition accepted (c : Z) (l : list (effect T)) : nat :=
  sum_list_with (λ x, match x with Accepted c' => if decide (c' = c) then 1 else 0 | _ => 0 end) l.
Definition finished (c : Z) (l : list (effect T)) : nat :=
  sum_list_with (λ x, match x with Finished c' => if decide (c' = c) then 1 else 0 | _ => 0 end) l.

(** Every release of a client finds all it had accepted finished. *)
Definition released_drained (l : list (effect T)) : Prop :=
  ∀ l1 c l2, l = l1 ++ Released c :: l2 → accepted c l1 = finished c l1.

Record books S A D a comps rec (queued : nat) : Prop := {
  bk_owners : A ++ D ≡ₚ (map_to_list S).*1;
  bk_nonnull : S !! 0%Z = None;
  bk_counts c : default 0 (outstanding_by_client a !! c) = client_count S c A;
  bk_positive c n : outstanding_by_client a !! c = Some n → 0 < n;
  bk_outstanding : outstanding a = queued + length A;
  bk_removal c : c ∈ pending_removal a → 0 < default 0 (outstanding_by_client a !! c);
  bk_conserve (f : K → nat) :
    sum_list_with f rec =
    sum_list_with (f ∘ snd) (map_to_list S).*2 + sum_list_with f comps +
    sum_list_with f (delivered (log a));
  bk_ledger c : accepted c (log a) = finished c (log a) + default 0 (outstanding_by_client a !! c);
  bk_released : released_drained (log a);
}.

Lemma accepted_app c l1 l2 : accepted c (l1 ++ l2) = accepted c l1 + accepted c l2.
Proof. apply sum_list_with_app. Qed.
Lemma finished_app c l1 l2 : finished c (l1 ++ l2) = finished c l1 + finished c l2.
Proof. apply sum_list_with_app. Qed.
Lemma delivered_app l1 l2 : delivered (l1 ++ l2) = delivered l1 ++ delivered l2.
Proof. apply bind_app. Qed.

Lemma released_drained_snoc l x :
  released_drained l → (∀ c, x = Released c → accepted c l = finished c l) →
  released_drained (l ++ [x]).
Proof.
  intros Hl Hx l1 c l2 Heq. destruct l2 as [|y l2 _] using rev_ind.
  - apply app_inj_tail in Heq as [-> ->]. by apply Hx.
  - rewrite app_comm_cons, (assoc_L (++)) in Heq. apply app_inj_tail in Heq as [-> _].
    by apply (Hl l1 c l2).
Qed.

Lemma books_perm S A A' D D' a comps comps' rec q :
  A ≡ₚ A' → D ≡ₚ D' → comps ≡ₚ comps' →
  books S A D a comps rec q → books S A' D' a comps' rec q.
Proof.
  intros HA HD Hc []. split; try done.
  - by rewrite <-HA, <-HD.
  - intros c. rewrite bk_counts0. apply sum_list_with_Permutation, HA.
  - by rewrite <-HA.
  - intros f. rewrite bk_conserve0. by rewrite (sum_list_with_Permutation f _ _ Hc).
Qed.

Lemma books_transport S A D a e comps rec q :
  books S A D a comps rec q → books S A D (with_transport e a) comps rec q.
Proof. intros []. by split. Qed.

Lemma books_owned S A D a comps rec q b :
  books S A D a comps rec q → b ∈ A ++ D → is_Some (S !! b).
Proof.
  intros Hb Hin. rewrite (bk_owners _ _ _ _ _ _ _ Hb) in Hin.
  apply list_elem_of_fmap in Hin as ([b' v] & -> & Hin). apply elem_of_map_to_list in Hin. eauto.
Qed.

Lemma books_NoDup S A D a comps rec q : books S A D a comps rec q → NoDup (A ++ D).
Proof. intros Hb. rewrite (bk_owners _ _ _ _ _ _ _ Hb). apply NoDup_fst_map_to_list. Qed.

Lemma client_count_insert S c b c' k A :
  b ∉ A → client_count (<[b := (c', k)]> S) c A = client_count S c A.
Proof.
  intros Hb. apply sum_list_with_ext. intros x Hx. unfold client_weight.
  rewrite lookup_insert_ne; [done|]. intros ->. done.
Qed.

Lemma client_count_delete S c b A : b ∉ A → client_count (delete b S) c A = client_count S c A.
Proof.
  intros Hb. apply sum_list_with_ext. intros x Hx. unfold client_weight.
  rewrite lookup_delete_ne; [done|]. intros ->. done.
Qed.

(** A transfer's box is made and its client charged. *)
Lemma books_accept S A D a comps rec q b c k :
  S !! b = None → b ≠ 0%Z → books S A D a comps rec (1 + q) →
  books (<[b := (c, k)]> S) (b :: A) D
    (emit (Accepted c)
       (with_counts (<[c := Datatypes.S (default 0 (outstanding_by_client a !! c))]>
                       (outstanding_by_client a)) a))
    comps (rec ++ [k]) q.
Proof.
  intros Hb Hz Hbk.
  assert (b ∉ A ++ D) as Hn by (intros Hin; apply (books_owned _ _ _ _ _ _ _ _ Hbk) in Hin as [? ?]; congruence).
  assert (∀ c', default 0 (<[c := Datatypes.S (default 0 (outstanding_by_client a !! c))]>
      (outstanding_by_client a) !! c') =
    default 0 (outstanding_by_client a !! c') + (if decide (c = c') then 1 else 0)) as Hcount.
  { intros c'. rewrite lookup_insert. case_decide; subst; simpl; lia. }
  destruct Hbk. split; simpl_acc.
  - rewrite map_to_list_insert by done. simpl. by rewrite <-bk_owners0.
  - by rewrite lookup_insert_ne by done.
  - intros c'. rewrite Hcount, bk_counts0. unfold client_count at 2. simpl.
    rewrite <-(client_count_insert S c' b c k A) by set_solver.
    unfold client_weight at 1. rewrite lookup_insert_eq. unfold client_count. case_decide; lia.
  - intros c' n. rewrite lookup_insert_Some. intros [[_ <-]|[_ Hc']]; [lia|by eapply bk_positive0].
  - rewrite bk_outstanding0. simpl. lia.
  - intros c' Hc'%bk_removal0. rewrite Hcount. lia.
  - intros f. rewrite sum_list_with_app, bk_conserve0, delivered_app, sum_list_with_app.
    rewrite (sum_list_with_Permutation _ (map_to_list (<[b:=(c, k)]> S)).*2 ((c, k) :: (map_to_list S).*2)).
    { simpl. lia. }
    by rewrite map_to_list_insert.
  - intros c'. rewrite accepted_app, finished_app, Hcount, bk_ledger0. simpl. case_decide; lia.
  - by apply released_drained_snoc.
Qed.

(** A transfer refused at intake goes straight to the completions. *)
Lemma books_reject S A D a comps rec q k :
  books S A D a comps rec (1 + q) →
  books S A D (release_outstanding a) (comps ++ [k]) (rec ++ [k]) q.
Proof.
  intros []. split; simpl_acc; try done.
  - rewrite bk_outstanding0. lia.
  - intros f. rewrite !sum_list_with_app, bk_conserve0. simpl. lia.
Qed.

Lemma books_release S A D a comps rec q c :
  client_count S c A = 0 → books S A D a comps rec q → books S A D (release_peer c a) comps rec q.
Proof.
  intros Hc []. split; simpl_acc; try done.
  - intros f. rewrite delivered_app, app_nil_r. apply bk_conserve0.
  - intros c'. by rewrite accepted_app, finished_app, !Nat.add_0_r.
  - apply released_drained_snoc; [done|]. intros ? [= <-].
    rewrite bk_ledger0, bk_counts0, Hc. lia.
Qed.

Lemma books_remove_or_defer S A D a comps rec q c :
  books S A D a comps rec q → books S A D (remove_or_defer c a) comps rec q.
Proof.
  intros Hbk. unfold remove_or_defer. case_decide as Hc.
  - apply books_release; [|done]. by rewrite <-(bk_counts _ _ _ _ _ _ _ Hbk).
  - destruct Hbk. split; simpl_acc; try done. intros c'.
    rewrite elem_of_union, elem_of_singleton. intros [->|]; [lia|auto].
Qed.

(** An operation finishes: its client is credited, and a deferred removal whose last
    operation this was is performed. *)
Lemma books_finish S A D a comps rec q b c k :
  S !! b = Some (c, k) → books S (b :: A) D a comps rec q →
  ∃ a', finish_op c a = Some a' ∧ books S A (b :: D) a' comps rec q ∧
        posted (transport a') = posted (transport a).
Proof.
  intros Hb Hbk. unfold finish_op.
  simpl_acc.
  pose proof (bk_counts _ _ _ _ _ _ _ Hbk) as Hcounts.
  assert (∀ c', client_count S c' (b :: A) = (if decide (c = c') then 1 else 0) + client_count S c' A) as Hcons.
  { intros c'. unfold client_count. simpl. unfold client_weight at 1. by rewrite Hb. }
  assert (∃ n, outstanding_by_client a !! c = Some (Datatypes.S n) ∧ n = client_count S c A) as (n & Hn & HnA).
  { specialize (Hcounts c). rewrite Hcons, decide_True in Hcounts by done.
    destruct (outstanding_by_client a !! c) as [[|n]|]; simpl in Hcounts; [lia| |lia].
    exists n. split; [done|lia]. }
  rewrite Hn. simpl.
  set (a1 := with_counts _ _).
  assert (∀ counts, (∀ c', default 0 (counts !! c') = default 0 (<[c := n]> (outstanding_by_client a) !! c')) →
    (∀ c' m, counts !! c' = Some m → 0 < m) →
    (n = 0 → c ∉ pending_removal a) →
    books S A (b :: D) (with_counts counts a1) comps rec q) as Hgen.
  { intros counts Hc Hpos Hrem. destruct Hbk.
    assert (∀ c', default 0 (counts !! c') = client_count S c' A) as Hc2.
    { intros c'. rewrite Hc, lookup_insert. case_decide as Hd; [by subst|].
      rewrite Hcounts, Hcons. by rewrite decide_False by done. }
    subst a1. split; simpl_acc; try done.
    - rewrite <-bk_owners0. simpl. by rewrite Permutation_middle.
    - rewrite bk_outstanding0. simpl. lia.
    - intros c' Hc'. rewrite Hc, lookup_insert. case_decide as Hd; [subst c'|by apply bk_removal0].
      simpl. destruct n; [|lia]. by destruct (Hrem eq_refl).
    - intros f. rewrite delivered_app, app_nil_r. apply bk_conserve0.
    - intros c'. rewrite accepted_app, finished_app, bk_ledger0, Hc2, Hcounts, Hcons. simpl.
      case_decide; lia.
    - by apply released_drained_snoc. }
  destruct (decide (n = 0)) as [Hn0|Hn0].
  - assert (∀ c' m, delete c (<[c := n]> (outstanding_by_client a)) !! c' = Some m → 0 < m) as Hpos.
    { intros c' m. rewrite delete_insert_eq, lookup_delete_Some. intros [_ ?].
      by eapply (bk_positive _ _ _ _ _ _ _ Hbk). }
    assert (∀ c', default 0 (delete c (<[c := n]> (outstanding_by_client a)) !! c') =
                  default 0 (<[c := n]> (outstanding_by_client a) !! c')) as Hsame.
    { intros c'. rewrite lookup_delete, lookup_insert. repeat case_decide; naive_solver. }
    case_decide as Hrem.
    + eexists. split; [done|]. split; [|cbn; by rewrite release_peer_posted].
      apply books_release; [congruence|].
      (* the removal leaves the deferred set first *)
      assert (books S A (b :: D) (with_counts (delete c (<[c:=n]> (outstanding_by_client a)))
        (with_removal (pending_removal a ∖ {[c]}) a1)) comps rec q) as Hdone.
      { destruct Hbk. assert (∀ c', default 0 (delete c (<[c := n]> (outstanding_by_client a)) !! c') =
          client_count S c' A) as Hc2.
        { intros c'. rewrite Hsame, lookup_insert. case_decide as Hd; [by subst|].
          rewrite Hcounts, Hcons. by rewrite decide_False by done. }
        subst a1. split; simpl_acc; try done.
        - rewrite <-bk_owners0. simpl. by rewrite Permutation_middle.
        - rewrite bk_outstanding0. simpl. lia.
        - intros c' [Hc' Hne]%elem_of_difference. apply bk_removal0 in Hc'.
          rewrite lookup_delete_ne, lookup_insert_ne by set_solver. done.
        - intros f. rewrite delivered_app, app_nil_r. apply bk_conserve0.
        - intros c'. rewrite accepted_app, finished_app, bk_ledger0, Hc2, Hcounts, Hcons. simpl.
          case_decide; lia.
        - by apply released_drained_snoc. }
      exact Hdone.
    + eexists. split; [done|]. split; [by apply Hgen|done].
  - eexists. split; [done|]. split; [|done].
    apply (Hgen (<[c := n]> (outstanding_by_client a))); [done| |done].
    intros c' m. rewrite lookup_insert_Some. intros [[_ <-]|[_ ?]]; [lia|].
    by eapply (bk_positive _ _ _ _ _ _ _ Hbk).
Qed.

(** A finished box becomes a completion. *)
Lemma books_complete S A D a comps rec q b c k :
  S !! b = Some (c, k) → books S A (b :: D) a comps rec q →
  books (delete b S) A D a (comps ++ [k]) rec q.
Proof.
  intros Hb Hbk. pose proof (books_NoDup _ _ _ _ _ _ _ Hbk) as Hnd. destruct Hbk.
  rewrite <-Permutation_middle in Hnd. apply NoDup_cons in Hnd as [Hnb _].
  assert (map_to_list S ≡ₚ (b, (c, k)) :: map_to_list (delete b S)) as Hlist
    by (symmetry; by apply map_to_list_delete).
  split; try done.
  - rewrite Hlist in bk_owners0. simpl in bk_owners0. rewrite <-Permutation_middle in bk_owners0.
    by apply Permutation_cons_inv in bk_owners0.
  - rewrite lookup_delete_None. auto.
  - intros c'. rewrite bk_counts0, client_count_delete; [done|]. set_solver.
  - intros f. rewrite bk_conserve0, sum_list_with_app.
    rewrite (sum_list_with_Permutation _ (map_to_list S).*2 ((c, k) :: (map_to_list (delete b S)).*2));
      [simpl; lia|]. by rewrite Hlist.
Qed.

Lemma books_replied S A D a comps rec q reply r :
  books S A D a comps rec q → books S A D (emit (Replied reply r) a) comps rec q.
Proof.
  intros []. split; simpl_acc; try done.
  - intros f. rewrite delivered_app, app_nil_r. apply bk_conserve0.
  - intros c'. by rewrite accepted_app, finished_app, !Nat.add_0_r.
  - by apply released_drained_snoc.
Qed.

(** Handing back a batch of completions. *)
Lemma books_batch S A D a batch rec q :
  books S A D a ((λ c, ident (completed_context c)) <$> batch) rec q →
  books S A D (emit (CompleteBatch batch) a) [] rec q.
Proof.
  intros []. split; simpl_acc; try done.
  - intros f. rewrite delivered_app, sum_list_with_app, bk_conserve0. simpl. rewrite app_nil_r. lia.
  - intros c'. by rewrite accepted_app, finished_app, !Nat.add_0_r.
  - by apply released_drained_snoc.
Qed.

(** Handing deferred operations to the pool. *)
Lemma books_pool S A D a comps ops rec q :
  books S A D a (comps ++ ((λ x, ident (caller_context x.1)) <$> ops)) rec q →
  books S A D (emit (PoolJob ops) a) comps rec q.
Proof.
  intros []. split; simpl_acc; try done.
  - intros f. rewrite delivered_app, sum_list_with_app, bk_conserve0, sum_list_with_app.
    simpl. rewrite app_nil_r. lia.
  - intros c'. by rewrite accepted_app, finished_app, !Nat.add_0_r.
  - by apply released_drained_snoc.
Qed.

(** With no operation anywhere, everything received has been handed back. *)
Lemma books_settled `{!EqDecision K} S a rec q :
  books S [] [] a [] rec q →
  S = ∅ ∧ rec ≡ₚ delivered (log a) ∧ outstanding a = q ∧
  outstanding_by_client a = ∅ ∧ pending_removal a = ∅.
Proof.
  intros Hbk. destruct Hbk. simpl in bk_owners0. apply Permutation_nil in bk_owners0.
  apply fmap_nil_inv, map_to_list_empty_iff in bk_owners0. subst S.
  assert (outstanding_by_client a = ∅) as He.
  { apply map_empty. intros c. specialize (bk_counts0 c). specialize (bk_positive0 c).
    destruct (outstanding_by_client a !! c) as [n|]; [|done]. simpl in bk_counts0.
    specialize (bk_positive0 _ eq_refl). lia. }
  split_and!; try done.
  - apply weights_Permutation. intros f. rewrite bk_conserve0, map_to_list_empty. simpl. lia.
  - by rewrite bk_outstanding0, Nat.add_0_r.
  - apply set_eq. intros c. split; [|set_solver]. intros Hc%bk_removal0.
    rewrite He, lookup_empty in Hc. simpl in Hc. lia.
Qed.

End books.

(** ** Every step keeps the books *)

Section steps.
  Context {E T K : Type} `{!Transport E, !TransportLaws E, !Operands T} (ident : T → K)
    `{!OperandsLaws T K ident}.
  Variables (quiesce_writes : bool) (progress_deadline : Z) (cap : nat) (quiesce_pointer : Z).
  Variables (clock : nat → Z) (place : gmap Z (InFlight T) → Z) (crc : slice → Z).
  Hypothesis place_fresh : ∀ m, m !! place m = None.
  Hypothesis place_nonnull : ∀ m, place m ≠ 0%Z.
  Implicit Types (w : worker E T) (X Y : list Z) (rec : list K).

Definition shape (m : gmap Z (InFlight T)) : gmap Z (Z * K) :=
  (λ op, (if_client op, ident (caller_context op))) <$> m.

Definition active w : list Z :=
  (context <$> pending w) ++ posted (endpoint_of w) ++ (q_inflight <$> quiescing w).

(** The books of a worker, [X] and [Y] being boxes in local variables. *)
Definition books_of w X Y rec (queued : nat) : Prop :=
  books (ident := ident) (shape (boxes w)) (active w ++ X) ((crc_pending w).*1 ++ Y) (acc w)
    ((λ c, ident (completed_context c)) <$> completions w) rec queued.

Definition flight w : Prop := in_flight w = length (posted (endpoint_of w)).

(** A write that its quiesce read is to follow. *)
Definition owes (op : InFlight T) : bool := match quiesce op with Some _ => true | None => false end.

(** Nothing changed but the endpoint, the clock and the insides of the boxes. *)
Record framed w w' : Prop := {
  fr_shape : shape (boxes w') = shape (boxes w);
  fr_owes : owes <$> boxes w' = owes <$> boxes w;
  fr_pending : pending w' = pending w;
  fr_quiescing : quiescing w' = quiescing w;
  fr_in_flight : in_flight w' = in_flight w;
  fr_completions : completions w' = completions w;
  fr_crc : crc_pending w' = crc_pending w;
  fr_acc : ∃ e, acc w' = with_transport e (acc w);
}.

Lemma framed_refl w : framed w w.
Proof. split; try done. exists (endpoint_of w). by destruct w as [[]]. Qed.

Lemma framed_trans w1 w2 w3 : framed w1 w2 → framed w2 w3 → framed w1 w3.
Proof. intros [???????[e1 Ha1]] [???????[e2 Ha2]]. split; try congruence. exists e2. by rewrite Ha2, Ha1. Qed.

Lemma framed_endpoint e w : framed w (with_endpoint e w).
Proof. split; try done. by exists e. Qed.

Lemma framed_ticks n w : framed w (with_ticks n w).
Proof. split; try done. exists (endpoint_of w). by destruct w as [[]]. Qed.

Lemma shape_lookup m b : shape m !! b = (λ op, (if_client op, ident (caller_context op))) <$> m !! b.
Proof. apply lookup_fmap. Qed.

Lemma shape_insert_same m b op op' :
  m !! b = Some op → if_client op' = if_client op → caller_context op' = caller_context op →
  shape (<[b := op']> m) = shape m.
Proof.
  intros Hb Hc Hk. unfold shape. rewrite fmap_insert. apply insert_id.
  by rewrite lookup_fmap, Hb, Hc, Hk.
Qed.

Lemma framed_box w b op op' :
  boxes w !! b = Some op → if_client op' = if_client op → caller_context op' = caller_context op →
  owes op' = owes op → framed w (with_boxes (<[b := op']> (boxes w)) w).
Proof.
  intros Hb ?? Ho. split; try done; [by eapply shape_insert_same| |].
  - simpl. rewrite fmap_insert. apply insert_id. rewrite lookup_fmap, Hb. simpl. by rewrite Ho.
  - exists (endpoint_of w). by destruct w as [[]].
Qed.

Lemma books_of_framed w w' new X Y rec q :
  framed w w' → posted (endpoint_of w') ≡ₚ new ++ posted (endpoint_of w) →
  books_of w (new ++ X) Y rec q → books_of w' X Y rec q.
Proof.
  intros Hf Hp Hbk. unfold books_of, active in *.
  rewrite (fr_shape _ _ Hf), (fr_pending _ _ Hf), (fr_quiescing _ _ Hf), (fr_crc _ _ Hf),
    (fr_completions _ _ Hf).
  destruct (fr_acc _ _ Hf) as [e ->]. apply books_transport.
  eapply books_perm; [..|exact Hbk]; try done. rewrite Hp. solve_Permutation.
Qed.

Lemma owned_box w X Y rec q b :
  books_of w X Y rec q → b ∈ (active w ++ X) ++ (crc_pending w).*1 ++ Y → ∃ op, boxes w !! b = Some op.
Proof.
  intros Hbk Hb. destruct (books_owned _ _ _ _ _ _ _ _ Hbk Hb) as [v Hv].
  rewrite shape_lookup in Hv. destruct (boxes w !! b); [eauto|done].
Qed.

(** A box in a local variable is nowhere else. *)
Lemma local_elsewhere w b X Y rec q :
  books_of w (b :: X) Y rec q → (b ∉ active w) ∧ (b ∉ X) ∧ (b ∉ (crc_pending w).*1).
Proof.
  intros Hbk. apply books_NoDup in Hbk. rewrite <-Permutation_middle in Hbk. simpl in Hbk.
  apply NoDup_cons in Hbk as [Hn _]. rewrite !elem_of_app in Hn. clear -Hn. tauto.
Qed.

(** Finishing a box held in a local variable, and handing back its completion. *)
Lemma finish_unreaped_ok w b error X Y rec q :
  books_of w (b :: X) Y rec q →
  ∃ w', finish_unreaped crc b error w = Some w' ∧ books_of w' X Y rec q ∧
    posted (endpoint_of w') = posted (endpoint_of w) ∧ in_flight w' = in_flight w ∧
    pending w' = pending w ∧ quiescing w' = quiescing w.
Proof.
  intros Hbk. destruct (owned_box _ _ _ _ _ b Hbk) as [op Hop]; [set_solver|].
  unfold finish_unreaped, complete, reclaim. rewrite Hop. simpl.
  set (e := t_drop_lease _ _).
  assert (shape (boxes w) !! b = Some (if_client op, ident (caller_context op))) as Hs
    by (by rewrite shape_lookup, Hop).
  assert (books (ident := ident) (shape (boxes w)) (b :: active w ++ X) ((crc_pending w).*1 ++ Y)
    (with_transport e (acc w)) ((λ c, ident (completed_context c)) <$> completions w) rec q) as Hbk1.
  { apply books_transport. eapply books_perm; [..|exact Hbk]; try done. solve_Permutation. }
  destruct (books_finish _ _ _ _ _ _ _ _ _ _ Hs Hbk1) as (a' & Hfin & Hbk2 & Hp).
  change (acc (with_boxes _ _)) with (with_transport e (acc w)). rewrite Hfin.  simpl. eexists. split; [done|].
  assert (posted (transport a') = posted (endpoint_of w)) as Hp' by (rewrite Hp; apply drop_lease_posted).
  split_and!; try done. unfold books_of, active, endpoint_of in *. simpl_worker. rewrite Hp'.
  eapply books_complete in Hbk2; [|exact Hs].
  unfold shape in *. by rewrite fmap_delete, fmap_app.
Qed.

(** Posting touches the box only, and puts it in flight exactly when it answers 0. *)
Lemma post_resolved_ok p peer op w inflight :
  boxes w !! context p = Some inflight →
  ∃ code w', post_resolved p peer op w = Some (code, w') ∧ framed w w' ∧
    posted (endpoint_of w') ≡ₚ
      (if decide (code = 0%Z) then [context p] else []) ++ posted (endpoint_of w).
Proof.
  intros Hb. unfold post_resolved.
  destruct (match p_direction p with ToPeer => _ | FromPeer _ => _ end) as [code e] eqn:Hpost.
  assert (posted e ≡ₚ (if decide (code = 0%Z) then [context p] else []) ++ posted (endpoint_of w)) as Hp.
  { destruct (p_direction p); [by eapply post_out_posted|by eapply post_in_posted]. }
  destruct (Z.eqb_spec code 0) as [->|Hne].
  - unfold reclaim. simpl_worker. rewrite Hb. simpl. eexists _, _. split; [done|]. split.
    + eapply framed_trans; [|apply framed_endpoint].
      eapply framed_trans; [apply (framed_endpoint e)|].
      eapply framed_trans; [apply (framed_endpoint (t_drop_lease (local_lease inflight) e))|].
      apply (framed_box (with_endpoint (t_drop_lease (local_lease inflight) e) (with_endpoint e w))
               (context p) inflight); [done..|]. unfold owes. by destruct inflight as [?????? []].
    + unfold endpoint_of in *. simpl_worker. by rewrite drop_peer_posted, drop_lease_posted.
  - eexists _, _. split; [done|]. split.
    + eapply framed_trans; apply framed_endpoint.
    + unfold endpoint_of in *. simpl_worker. by rewrite drop_peer_posted, drop_lease_posted.
Qed.

Lemma post_ok p w inflight :
  boxes w !! context p = Some inflight →
  ∃ r w', post p w = Some (r, w') ∧ framed w w' ∧
    posted (endpoint_of w') ≡ₚ
      (if decide (r = Ok 0%Z) then [context p] else []) ++ posted (endpoint_of w).
Proof.
  intros Hb. unfold post.
  pose proof (insert_peer_posted (p_client p) (p_address p) (endpoint_of w)) as Hp1.
  destruct (t_insert_peer _ _ _) as [[peer|error] e1]; simpl in Hp1.
  2:{ eexists _, _. split; [done|]. split; [apply framed_endpoint|].
      unfold endpoint_of in *. simpl_worker. by rewrite Hp1. }
  unfold reclaim at 1. simpl_worker. rewrite Hb. simpl.
  change (endpoint_of (with_endpoint e1 w)) with e1.
  pose proof (local_operand_posted (p_pointer p) (p_length p)
    (cacheable_span (caller_context inflight)) e1) as Hp2.
  destruct (t_local_operand _ _ _ _) as [[op|error] e2]; simpl in Hp2.
  - destruct (post_resolved_ok p peer op (with_endpoint e2 (with_endpoint e1 w)) inflight Hb)
      as (code & w' & Hpr & Hf & Hp). rewrite Hpr. simpl. eexists _, _. split; [done|]. split.
    + eapply framed_trans; [|exact Hf]. eapply framed_trans; apply framed_endpoint.
    + rewrite Hp. unfold endpoint_of at 1. simpl_worker. rewrite Hp2, Hp1.
      by repeat case_decide; simplify_eq.
  - eexists _, _. split; [done|]. split; [eapply framed_trans; apply framed_endpoint|].
    unfold endpoint_of in *. simpl_worker. by rewrite drop_peer_posted, Hp2, Hp1.
Qed.

Lemma stalled_ok since w s wait w' :
  stalled progress_deadline clock since w = (s, wait, w') → framed w w' ∧ endpoint_of w' = endpoint_of w.
Proof.
  unfold stalled, now. destruct since; intros; simplify_eq/=; split; try done.
  - apply framed_ticks.
  - eapply framed_trans; apply framed_ticks.
Qed.

Lemma flight_framed w w' n :
  framed w w' → length (posted (endpoint_of w')) = n + length (posted (endpoint_of w)) →
  flight w → length (posted (endpoint_of w')) = n + in_flight w'.
Proof. intros Hf Hp Hfl. by rewrite Hp, (fr_in_flight _ _ Hf), Hfl. Qed.

(** Taking the next prepared transfer off the queue. *)
Lemma books_of_pop_pending w p rest X Y rec q :
  pending w = p :: rest → books_of w X Y rec q → books_of (with_pending rest w) (context p :: X) Y rec q.
Proof.
  intros Hp Hbk. unfold books_of, active, endpoint_of in *. simpl_worker. rewrite Hp in Hbk.
  eapply books_perm; [..|exact Hbk]; try done. csimpl. solve_Permutation.
Qed.

Lemma books_of_push_pending w p X Y rec q :
  books_of w (context p :: X) Y rec q → books_of (with_pending (pending w ++ [p]) w) X Y rec q.
Proof.
  intros Hbk. unfold books_of, active, endpoint_of in *. simpl_worker. rewrite fmap_app.
  eapply books_perm; [..|exact Hbk]; try done. csimpl. solve_Permutation.
Qed.

Lemma post_one_ok w rec q :
  books_of w [] [] rec q → flight w →
  ∃ w' n, post_one progress_deadline clock crc w = Some (w', n) ∧ books_of w' [] [] rec q ∧ flight w' ∧
    in_flight w' = n + in_flight w ∧ n ≤ 1 ∧ quiescing w' = quiescing w.
Proof.
  intros Hbk Hfl. unfold post_one. destruct (pending w) as [|p rest] eqn:Hpend.
  { eexists _, 0. split; [done|]. by split_and!; try lia. }
  apply (books_of_pop_pending _ _ _ _ _ _ _ Hpend) in Hbk.
  set (w1 := with_pending rest w) in *. change (flight w1) in Hfl.
  destruct (owned_box _ _ _ _ _ (context p) Hbk) as [inflight Hb]; [set_solver|].
  destruct (post_ok p w1 inflight Hb) as (r & w2 & Hpost & Hf & Hp). rewrite Hpost. simpl.
  assert (∀ error w3, framed w1 w3 → posted (endpoint_of w3) ≡ₚ posted (endpoint_of w1) →
    ∃ w' n, (w4 ← finish_unreaped crc (context p) error w3; Some (w4, 0)) = Some (w', n) ∧
      books_of w' [] [] rec q ∧ flight w' ∧ in_flight w' = n + in_flight w ∧ n ≤ 1 ∧
      quiescing w' = quiescing w) as Hfail.
  { intros error w3 Hf3 Hp3.
    destruct (finish_unreaped_ok w3 (context p) error [] [] rec q) as (w4 & -> & Hbk4 & Hpo & Hif & _ & Hq).
    { by apply (books_of_framed w1 w3 []). }
    eexists w4, 0. split; [done|]. split_and!; [done| | |lia|].
    - unfold flight. by rewrite Hif, Hpo, (fr_in_flight _ _ Hf3), Hp3.
    - by rewrite Hif, (fr_in_flight _ _ Hf3).
    - by rewrite Hq, (fr_quiescing _ _ Hf3). }
  destruct r as [code|error].
  - destruct (Z.eqb_spec code 0) as [->|Hne].
    { rewrite decide_True in Hp by done. eexists _, 1. split; [done|].
      split_and!; [| | |lia|exact (fr_quiescing _ _ Hf)].
      - apply (books_of_framed w1 w2 [context p]); [done..|]. by rewrite app_nil_r.
      - unfold flight, endpoint_of in *. simpl_worker. rewrite Hp. simpl.
        by rewrite (fr_in_flight _ _ Hf), Hfl.
      - simpl_worker. by rewrite (fr_in_flight _ _ Hf). }
    rewrite decide_False in Hp by congruence. simpl in Hp.
    destruct (code =? t_again)%Z; [|by apply Hfail].
    destruct (stalled _ _ _ _) as [[since wait] w3] eqn:Hst. apply stalled_ok in Hst as [Hf3 He3].
    assert (framed w1 w3) as Hf13 by (by eapply framed_trans).
    destruct wait; [|apply Hfail; [done|by rewrite He3]].
    eexists _, 0. split; [done|]. split_and!; [| | |lia|exact (fr_quiescing _ _ Hf13)].
    + apply books_of_push_pending. apply (books_of_framed w1 w3 []); [done|by rewrite He3|done].
    + unfold flight. change (endpoint_of _) with (endpoint_of w3). simpl_worker.
      by rewrite (fr_in_flight _ _ Hf13), He3, Hp, Hfl.
    + simpl_worker. by rewrite (fr_in_flight _ _ Hf13).
  - rewrite decide_False in Hp by congruence. by apply Hfail.
Qed.

Lemma post_loop_ok attempts w rec q :
  books_of w [] [] rec q → flight w →
  ∃ w' n, post_loop progress_deadline cap clock crc attempts w = Some (w', n) ∧ books_of w' [] [] rec q ∧ flight w' ∧
    in_flight w' = n + in_flight w ∧ in_flight w' ≤ in_flight w `max` cap ∧ quiescing w' = quiescing w.
Proof.
  revert w. induction attempts as [|attempts IH]; intros w Hbk Hfl; simpl.
  { eexists _, 0. split; [done|]. split_and!; try done. lia. }
  destruct (Nat.ltb_spec (in_flight w) cap) as [Hlt|].
  - destruct (post_one_ok w rec q Hbk Hfl) as (w1 & n & -> & Hbk1 & Hfl1 & Hn & Hle & Hq). simpl.
    destruct (IH w1 Hbk1 Hfl1) as (w2 & m & -> & Hbk2 & Hfl2 & Hm & Hle2 & Hq2). simpl.
    eexists _, _. split; [done|]. split_and!; try done; [lia|lia|by rewrite Hq2].
  - eexists _, 0. split; [done|]. split_and!; try done. lia.
Qed.

Lemma reap_one_ok b r w X rec q :
  books_of w (b :: X) [] rec q →
  ∃ w', reap_one crc (b, r) w = Some w' ∧ books_of w' X [] rec q ∧
    posted (endpoint_of w') = posted (endpoint_of w) ∧ in_flight w' = in_flight w ∧
    pending w' = pending w.
Proof.
  intros Hbk. destruct (owned_box _ _ _ _ _ b Hbk) as [op Hop]; [set_solver|].
  unfold reap_one, reclaim. rewrite Hop. simpl.
  destruct (if is_ok r then quiesce op else None) as [read|].
  { eexists. split; [done|]. split_and!; try done.
    unfold books_of, active, endpoint_of in *. simpl_worker. rewrite fmap_app.
    rewrite (shape_insert_same _ _ op) by done.
    eapply books_perm; [..|exact Hbk]; try done. csimpl. solve_Permutation. }
  assert (shape (boxes w) !! b = Some (if_client op, ident (caller_context op))) as Hs
    by (by rewrite shape_lookup, Hop).
  assert (books (ident := ident) (shape (boxes w)) (b :: active w ++ X) ((crc_pending w).*1 ++ [])
    (acc w) ((λ c, ident (completed_context c)) <$> completions w) rec q) as Hbk1.
  { eapply books_perm; [..|exact Hbk]; try done. solve_Permutation. }
  destruct (books_finish _ _ _ _ _ _ _ _ _ _ Hs Hbk1) as (a' & -> & Hbk2 & Hp). simpl.
  destruct (want_checksum op).
  - eexists. split; [done|]. split_and!; try done.
    unfold books_of, active, endpoint_of in *. simpl_worker. rewrite fmap_app, Hp.
    eapply books_perm; [..|exact Hbk2]; try done. csimpl. solve_Permutation.
  - unfold complete, reclaim. simpl_worker. rewrite Hop. simpl. eexists. split; [done|].
    assert (posted (t_drop_lease (local_lease op) (transport a')) = posted (endpoint_of w)) as Hp'
      by (rewrite drop_lease_posted; exact Hp).
    split_and!; try done. unfold books_of, active, endpoint_of in *. simpl_worker. rewrite Hp'.
    eapply books_complete in Hbk2; [|exact Hs].
    unfold shape in *. rewrite fmap_delete, fmap_app. by apply books_transport.
Qed.

Lemma reap_each_ok reaped w rec q :
  books_of w reaped.*1 [] rec q →
  ∃ w', reap_each crc reaped w = Some w' ∧ books_of w' [] [] rec q ∧
    posted (endpoint_of w') = posted (endpoint_of w) ∧ in_flight w' = in_flight w ∧
    pending w' = pending w.
Proof.
  revert w. induction reaped as [|[b r] reaped IH]; intros w Hbk; csimpl in Hbk; cbn [reap_each].
  { eexists. by split_and!. }
  destruct (reap_one_ok b r w _ rec q Hbk) as (w1 & -> & Hbk1 & Hp1 & Hi1 & Hpe1). simpl.
  destruct (IH w1 Hbk1) as (w2 & -> & Hbk2 & Hp2 & Hi2 & Hpe2).
  eexists. split; [done|]. split_and!; congruence.
Qed.

Lemma posted_nonnull w X Y rec q :
  books_of w X Y rec q → Forall (λ b, b ≠ 0%Z) (posted (endpoint_of w)).
Proof.
  intros Hbk. apply Forall_forall. intros b Hb ->.
  destruct (books_owned _ _ _ _ _ _ _ 0%Z Hbk) as [v Hv]; [unfold active; set_solver|].
  rewrite (bk_nonnull _ _ _ _ _ _ _ Hbk) in Hv. done.
Qed.

Lemma reap_pass_ok w rec q :
  books_of w [] [] rec q → flight w →
  ∃ w' any, reap_pass crc w = Some (w', any) ∧ books_of w' [] [] rec q ∧ flight w' ∧
    in_flight w' ≤ in_flight w.
Proof.
  intros Hbk Hfl. unfold reap_pass.
  destruct (t_reap _ _) as [[r reaped] e] eqn:Hr.
  pose proof (reap_posted _ _ _ _ _ Hr (posted_nonnull _ _ _ _ _ Hbk)) as Hp.
  set (w1 := with_in_flight _ _).
  assert (books_of w1 reaped.*1 [] rec q) as Hbk1.
  { unfold w1, books_of, active, endpoint_of in *. simpl_worker. apply books_transport.
    eapply books_perm; [..|exact Hbk]; try done. rewrite Hp. solve_Permutation. }
  destruct (reap_each_ok _ _ _ _ Hbk1) as (w2 & -> & Hbk2 & Hp2 & Hi2 & _). simpl.
  assert (in_flight w1 = length (posted e)) as Hi1.
  { unfold w1. simpl_worker. rewrite Hfl, Hp, length_app, length_fmap. lia. }
  eexists _, _. split; [done|]. split_and!; [done| |].
  - unfold flight. by rewrite Hi2, Hp2, Hi1.
  - rewrite Hi2. unfold w1. simpl_worker. lia.
Qed.

(** ** Quiesce reads *)

Lemma post_quiesce_ok waiting w inflight :
  boxes w !! q_inflight waiting = Some inflight →
  ∃ p w', post_quiesce quiesce_pointer waiting w = Some (p, w') ∧ framed w w' ∧
    match p with
    | Posted => posted (endpoint_of w') ≡ₚ q_inflight waiting :: posted (endpoint_of w)
    | Again waiting' => waiting' = waiting ∧ posted (endpoint_of w') ≡ₚ posted (endpoint_of w)
    | Failed box _ => box = q_inflight waiting ∧ posted (endpoint_of w') ≡ₚ posted (endpoint_of w)
    end.
Proof.
  intros Hb. unfold post_quiesce, reclaim. rewrite Hb. simpl.
  pose proof (insert_peer_posted (if_client inflight) (q_address (read waiting)) (endpoint_of w)) as Hp1.
  destruct (t_insert_peer _ _ _) as [[peer|error] e1]; simpl in Hp1.
  2:{ eexists _, _. split; [done|]. split; [apply framed_endpoint|].
      unfold endpoint_of in *. simpl_worker. by rewrite Hp1. }
  change (endpoint_of (with_endpoint e1 w)) with e1.
  pose proof (local_operand_posted quiesce_pointer 1 None e1) as Hp2.
  destruct (t_local_operand _ _ _ _) as [[op|error] e2]; simpl in Hp2.
  2:{ eexists _, _. split; [done|]. split; [eapply framed_trans; apply framed_endpoint|].
      unfold endpoint_of in *. simpl_worker. by rewrite drop_peer_posted, Hp2, Hp1. }
  set (w3 := with_boxes _ _).
  assert (framed w w3) as Hf3.
  { unfold w3. eapply framed_trans; [apply (framed_endpoint e1)|].
    eapply framed_trans; [apply (framed_endpoint e2)|].
    eapply framed_trans; [apply (framed_endpoint (t_drop_lease (local_lease inflight) e2))|].
    by apply (framed_box (with_endpoint (t_drop_lease (local_lease inflight) e2)
      (with_endpoint e2 (with_endpoint e1 w))) (q_inflight waiting) inflight). }
  assert (posted (endpoint_of w3) = posted (endpoint_of w)) as Hp3.
  { unfold w3, endpoint_of in *. simpl_worker. by rewrite drop_lease_posted, Hp2, Hp1. }
  destruct (t_post_in _ _ _ _ _ _ _) as [code e4] eqn:Hpost.
  pose proof (post_in_posted _ _ _ _ _ _ _ _ _ Hpost) as Hp4. rewrite Hp3 in Hp4.
  assert (framed w (with_endpoint (t_drop_peer peer e4) w3)) as Hf4
    by (eapply framed_trans; [done|apply framed_endpoint]).
  assert (posted (endpoint_of (with_endpoint (t_drop_peer peer e4) w3)) = posted e4) as Hp5
    by (apply drop_peer_posted).
  destruct (Z.eqb_spec code 0) as [->|Hne]; [|destruct (code =? t_again)%Z]; eexists _, _;
    (split; [done|split; [done|]]); rewrite Hp5, Hp4; rewrite ?decide_False by done; done.
Qed.

Lemma quiesce_one_ok w rec q :
  books_of w [] [] rec q → flight w →
  ∃ w' n, quiesce_one progress_deadline quiesce_pointer clock crc w = Some (w', n) ∧
    books_of w' [] [] rec q ∧ flight w' ∧ in_flight w' = n + in_flight w ∧ n ≤ 1 ∧
    length (quiescing w') + n ≤ length (quiescing w).
Proof.
  intros Hbk Hfl. unfold quiesce_one. destruct (quiescing w) as [|waiting rest] eqn:Hq.
  { eexists _, 0. split; [done|]. rewrite Hq. by split_and!; try lia. }
  set (w1 := with_quiescing rest w).
  assert (books_of w1 [q_inflight waiting] [] rec q) as Hbk1.
  { unfold w1, books_of, active, endpoint_of in *. simpl_worker. rewrite Hq in Hbk.
    eapply books_perm; [..|exact Hbk]; try done. csimpl. solve_Permutation. }
  change (flight w1) in Hfl.
  destruct (owned_box _ _ _ _ _ (q_inflight waiting) Hbk1) as [inflight Hb]; [set_solver|].
  destruct (post_quiesce_ok waiting w1 inflight Hb) as (p & w2 & -> & Hf & Hp). simpl.
  assert (∀ error w3, framed w1 w3 → posted (endpoint_of w3) ≡ₚ posted (endpoint_of w1) →
    ∃ w' n, (w4 ← finish_unreaped crc (q_inflight waiting) error w3; Some (w4, 0)) = Some (w', n) ∧
      books_of w' [] [] rec q ∧ flight w' ∧ in_flight w' = n + in_flight w ∧ n ≤ 1 ∧
      length (quiescing w') + n ≤ S (length rest)) as Hfail.
  { intros error w3 Hf3 Hp3.
    destruct (finish_unreaped_ok w3 (q_inflight waiting) error [] [] rec q)
      as (w4 & -> & Hbk4 & Hpo & Hif & _ & Hqu).
    { by apply (books_of_framed w1 w3 []). }
    eexists w4, 0. split; [done|]. split_and!; [done| | |lia|].
    - unfold flight. by rewrite Hif, Hpo, (fr_in_flight _ _ Hf3), Hp3.
    - by rewrite Hif, (fr_in_flight _ _ Hf3).
    - rewrite Hqu, (fr_quiescing _ _ Hf3). simpl. lia. }
  destruct p as [|waiting'|box error].
  - eexists _, 1. split; [done|]. split_and!; [| | |lia|].
    + by apply (books_of_framed w1 w2 [q_inflight waiting]).
    + unfold flight, endpoint_of in *. simpl_worker. rewrite Hp. simpl.
      by rewrite (fr_in_flight _ _ Hf), Hfl.
    + simpl_worker. by rewrite (fr_in_flight _ _ Hf).
    + simpl_worker. rewrite (fr_quiescing _ _ Hf). simpl. lia.
  - destruct Hp as [-> Hp].
    destruct (stalled _ _ _ _) as [[since wait] w3] eqn:Hst. apply stalled_ok in Hst as [Hf3 He3].
    assert (framed w1 w3) as Hf13 by (by eapply framed_trans).
    destruct wait; [|apply Hfail; [done|by rewrite He3]].
    eexists _, 0. split; [done|]. split_and!; [| | |lia|].
    + assert (books_of w3 [q_inflight waiting] [] rec q) as Hbk3.
      { apply (books_of_framed w1 w3 []); [done|by rewrite He3|done]. }
      unfold books_of, active, endpoint_of in *. simpl_worker. rewrite fmap_app.
      eapply books_perm; [..|exact Hbk3]; try done. csimpl. solve_Permutation.
    + unfold flight. change (endpoint_of _) with (endpoint_of w3). simpl_worker.
      by rewrite (fr_in_flight _ _ Hf13), He3, Hp, Hfl.
    + simpl_worker. by rewrite (fr_in_flight _ _ Hf13).
    + simpl_worker. rewrite (fr_quiescing _ _ Hf13), length_app. simpl. lia.
  - destruct Hp as [-> Hp]. by apply Hfail.
Qed.

Lemma quiesce_loop_ok attempts w rec q :
  books_of w [] [] rec q → flight w →
  ∃ w' n, quiesce_loop progress_deadline quiesce_pointer clock crc attempts w = Some (w', n) ∧
    books_of w' [] [] rec q ∧ flight w' ∧ in_flight w' = n + in_flight w ∧
    length (quiescing w') + n ≤ length (quiescing w).
Proof.
  revert w. induction attempts as [|attempts IH]; intros w Hbk Hfl; simpl.
  { eexists _, 0. split; [done|]. split_and!; try done. lia. }
  destruct (quiesce_one_ok w rec q Hbk Hfl) as (w1 & n & -> & Hbk1 & Hfl1 & Hn & Hle & Hq). simpl.
  destruct (IH w1 Hbk1 Hfl1) as (w2 & m & -> & Hbk2 & Hfl2 & Hm & Hq2). simpl.
  eexists _, _. split; [done|]. split_and!; try done; lia.
Qed.

(** ** Intake *)

(** The transfers among some messages, by identity. *)
Definition message_ids (m : WorkerMessage T) : list K :=
  match m with Transfer request => [ident (request_context request)] | _ => [] end.

Lemma resolve_operand_ident d ctx : ident (resolve_operand d ctx).2 = ident ctx.
Proof.
  destruct d as [|n]; [done|]. simpl. pose proof (allocate_ident n ctx) as Ha.
  by destruct (allocate n ctx).
Qed.

Lemma prepare_cases request m :
  match prepare quiesce_writes place request m with
  | (Ok p, m') => ∃ op, m' = <[place m := op]> m ∧ context p = place m ∧
      p_client p = client_id request ∧ if_client op = client_id request ∧
      ident (caller_context op) = ident (request_context request)
  | (Err completion, m') =>
      m' = m ∧ ident (completed_context completion) = ident (request_context request)
  end.
Proof.
  unfold prepare. pose proof (resolve_operand_ident (direction request) (request_context request)) as Hid.
  destruct (resolve_operand _ _) as [[[ptr length]|error] ctx]; simpl in Hid; [|done].
  destruct (quiesce_read _ _ _); [|done]. eexists. by split_and!.
Qed.

Lemma accept_ok request w X rec q :
  books_of w X [] rec (1 + q) →
  books_of (accept quiesce_writes place request w) X [] (rec ++ [ident (request_context request)]) q ∧
  endpoint_of (accept quiesce_writes place request w) = endpoint_of w ∧
  in_flight (accept quiesce_writes place request w) = in_flight w.
Proof.
  intros Hbk. unfold accept. pose proof (prepare_cases request (boxes w)) as Hp.
  destruct (prepare _ _ _ _) as [[p|completion] m].
  - destruct Hp as (op & -> & Hc & Hpc & Hoc & Hk). split_and!; try done.
    unfold books_of, active, endpoint_of in *. simpl_worker.
    cbn [emit with_counts transport]. rewrite !fmap_app. csimpl. rewrite Hc, Hpc.
    eapply books_perm; [..|].
    4:{ unfold shape. rewrite fmap_insert, Hoc, Hk. eapply books_accept; [|done|exact Hbk].
        by rewrite lookup_fmap, place_fresh. }
    + solve_Permutation.
    + done.
    + done.
  - destruct Hp as [-> Hk]. split_and!; try done.
    unfold books_of, active, endpoint_of in *. simpl_worker. rewrite fmap_app. csimpl. rewrite Hk.
    by apply books_reject.
Qed.

Lemma receive_ok m w rec q :
  books_of w [] [] rec (length (message_ids m) + q) → flight w →
  books_of (receive quiesce_writes place m w) [] [] (rec ++ message_ids m) q ∧
  flight (receive quiesce_writes place m w) ∧
  in_flight (receive quiesce_writes place m w) = in_flight w.
Proof.
  intros Hbk Hfl. destruct m as [request|client address reply|client|base length reply]; simpl in *.
  - apply (accept_ok request) in Hbk as (Hbk & He & Hi). split_and!; [done| |done].
    unfold flight. by rewrite He, Hi.
  - rewrite app_nil_r. pose proof (insert_peer_posted client address (endpoint_of w)) as Hp.
    destruct (t_insert_peer _ _ _) as [r e]. simpl in Hp.
    set (w1 := match r with Ok _ => _ | Err _ => _ end).
    assert (framed w w1 ∧ posted (endpoint_of w1) = posted (endpoint_of w)) as [Hf Hpw].
    { unfold w1. destruct r; split.
      - eapply framed_trans; apply framed_endpoint.
      - unfold endpoint_of in *. simpl_worker. by rewrite drop_peer_posted, Hp.
      - apply framed_endpoint.
      - exact Hp. }
    assert (books_of w1 [] [] rec q) as Hbk1 by (apply (books_of_framed w w1 []); [done|by rewrite Hpw|done]).
    split_and!.
    + unfold books_of, active, endpoint_of in *. simpl_worker. by apply books_replied.
    + unfold flight. change (endpoint_of _) with (endpoint_of w1). simpl_worker.
      by rewrite (fr_in_flight _ _ Hf), Hpw.
    + apply (fr_in_flight _ _ Hf).
  - rewrite app_nil_r.
    assert (posted (transport (remove_or_defer client (acc w))) = posted (endpoint_of w)) as Hp.
    { unfold remove_or_defer, release_peer. case_decide; [apply release_peer_posted|done]. }
    split_and!; [|unfold flight, endpoint_of in *; simpl_worker; by rewrite Hp|done].
    unfold books_of, active, endpoint_of in *. simpl_worker. rewrite Hp. by apply books_remove_or_defer.
  - rewrite app_nil_r. pose proof (pin_region_posted base length (endpoint_of w)) as Hp.
    destruct (t_pin_region _ _ _) as [r e]. simpl in Hp.
    split_and!; [|unfold flight, endpoint_of in *; simpl_worker; simpl_acc; by rewrite Hp|done].
    unfold books_of, active, endpoint_of in *. simpl_worker. simpl_acc. rewrite Hp.
    by apply (books_replied (ident := ident)), books_transport.
Qed.

Definition messages_ids (l : list (WorkerMessage T)) : list K := l ≫= message_ids.

Lemma intake_ok messages closed w rec q :
  books_of w [] [] rec (length (messages_ids messages) + q) → flight w →
  books_of (intake quiesce_writes place messages closed w) [] [] (rec ++ messages_ids messages) q ∧
  flight (intake quiesce_writes place messages closed w) ∧
  in_flight (intake quiesce_writes place messages closed w) = in_flight w.
Proof.
  intros Hbk Hfl. unfold intake.
  assert (∀ w rec, books_of w [] [] rec (length (messages_ids messages) + q) → flight w →
    let w' := foldl (λ w m, receive quiesce_writes place m w) w messages in
    books_of w' [] [] (rec ++ messages_ids messages) q ∧ flight w' ∧ in_flight w' = in_flight w) as Hfold.
  { clear w rec Hbk Hfl. induction messages as [|m messages IH]; intros w rec Hbk Hfl; simpl in *.
    { by rewrite app_nil_r. }
    rewrite length_app, <-Nat.add_assoc in Hbk.
    apply (receive_ok m) in Hbk as (Hbk & Hfl1 & Hi); [|done].
    apply IH in Hbk as (Hbk & Hfl2 & Hi2); [|done].
    split_and!; [by rewrite (assoc_L (++))|done|congruence]. }
  destruct (Hfold _ _ Hbk Hfl) as (Hbk' & Hfl' & Hi'). by destruct closed.
Qed.

(** ** Flushing *)

Lemma take_boxes_ok l w A D rec q :
  books (ident := ident) (shape (boxes w)) A (l.*1 ++ D) (acc w)
    ((λ c, ident (completed_context c)) <$> completions w) rec q →
  ∃ ops m, take_boxes l w = Some (ops, with_boxes m w) ∧
    books (ident := ident) (shape m) A D (acc w)
      (((λ c, ident (completed_context c)) <$> completions w) ++
       ((λ x, ident (caller_context x.1)) <$> ops)) rec q.
Proof.
  assert (∀ w comps, books (ident := ident) (shape (boxes w)) A (l.*1 ++ D) (acc w) comps rec q →
    ∃ ops m, take_boxes l w = Some (ops, with_boxes m w) ∧
      books (ident := ident) (shape m) A D (acc w)
        (comps ++ ((λ x, ident (caller_context x.1)) <$> ops)) rec q) as Hgen; [|apply Hgen].
  clear w. induction l as [|[b r] l IH]; intros w comps Hbk; csimpl in Hbk; cbn [take_boxes].
  { exists [], (boxes w). split; [by destruct w|]. by rewrite app_nil_r. }
  destruct (books_owned _ _ _ _ _ _ _ b Hbk) as [[c k] Hv]; [set_solver|].
  pose proof Hv as Hop. rewrite shape_lookup in Hop. apply fmap_Some in Hop as (op & Hop & [= -> ->]).
  unfold reclaim. rewrite Hop. cbn [mbind option_bind].
  eapply books_complete in Hbk; [|exact Hv].
  destruct (IH (with_boxes (delete b (boxes w)) w) (comps ++ [ident (caller_context op)])) as (ops & m & -> & Hbk').
  { simpl_worker. unfold shape in *. by rewrite fmap_delete. }
  simpl. exists ((op, r) :: ops), m. split; [done|]. csimpl. by rewrite <-(assoc_L (++)) in Hbk'.
Qed.

Lemma submit_crc_batch_ok w rec q :
  books_of w [] [] rec q → flight w →
  ∃ w', submit_crc_batch w = Some w' ∧ books_of w' [] [] rec q ∧ flight w' ∧ crc_pending w' = [] ∧
    in_flight w' = in_flight w ∧ pending w' = pending w ∧ quiescing w' = quiescing w ∧
    completions w' = completions w ∧ disconnected w' = disconnected w.
Proof.
  intros Hbk Hfl. unfold submit_crc_batch.
  destruct (take_boxes_ok (crc_pending w) (with_crc_pending [] w) (active w ++ []) [] rec q Hbk)
    as (ops & m & -> & Hbk'). simpl. eexists. split; [done|]. split_and!; try done.
  unfold books_of. by apply books_pool.
Qed.

(** What holds when the worker has nothing to do. *)
Record settled w rec q : Prop := {
  st_boxes : boxes w = ∅;
  st_pending : pending w = [];
  st_quiescing : quiescing w = [];
  st_in_flight : in_flight w = 0;
  st_posted : posted (endpoint_of w) = [];
  st_completions : completions w = [];
  st_crc : crc_pending w = [];
  st_clients : outstanding_by_client (acc w) = ∅;
  st_removal : pending_removal (acc w) = ∅;
  st_outstanding : outstanding (acc w) = q;
  st_delivered : rec ≡ₚ delivered (ident := ident) (log (acc w));
}.

Lemma settle `{!EqDecision K} w rec q :
  books_of w [] [] rec q → flight w → idle w = true → completions w = [] → crc_pending w = [] →
  settled w rec q.
Proof.
  intros Hbk Hfl Hidle Hc Hcrc. unfold idle in Hidle.
  apply andb_true_iff in Hidle as [[Hp Hq]%andb_true_iff Hi].
  apply bool_decide_eq_true in Hp, Hq. apply Nat.eqb_eq in Hi.
  assert (posted (endpoint_of w) = []) as Hposted by (apply nil_length_inv; by rewrite <-Hfl).
  unfold books_of, active in Hbk. rewrite Hp, Hq, Hposted, Hc, Hcrc in Hbk.
  apply books_settled in Hbk as (Hs & ? & ? & ? & ?).
  split; try done. by apply fmap_empty_inv in Hs.
Qed.

Lemma should_flush_idle n posted any : 0 < n → should_flush_crc n posted any true = true.
Proof.
  intros. unfold should_flush_crc. destruct (Nat.ltb_spec 0 n); [|lia]. by rewrite orb_true_r.
Qed.

Lemma after_progress_ok `{!EqDecision K} n any w rec q :
  books_of w [] [] rec q → flight w →
  ∃ w' t, after_progress n any w = Some (w', t) ∧ books_of w' [] [] rec q ∧ flight w' ∧
    in_flight w' = in_flight w ∧ quiescing w' = quiescing w ∧ (t ≠ Spin → settled w' rec q).
Proof.
  intros Hbk Hfl. unfold after_progress.
  assert (∃ w1, (if should_flush_crc (length (crc_pending w)) n any (idle w)
                 then submit_crc_batch w else Some w) = Some w1 ∧
    books_of w1 [] [] rec q ∧ flight w1 ∧ (idle w = true → crc_pending w1 = []) ∧
    in_flight w1 = in_flight w ∧ pending w1 = pending w ∧ quiescing w1 = quiescing w) as
    (w1 & -> & Hbk1 & Hfl1 & Hcrc & Hi1 & Hp1 & Hq1).
  { destruct (should_flush_crc _ _ _ _) eqn:Hs.
    - destruct (submit_crc_batch_ok w rec q Hbk Hfl) as (w1 & -> & ? & ? & ? & ? & ? & ? & _).
      eexists. by split_and!.
    - eexists. split_and!; try done. intros Hidle. rewrite Hidle in Hs.
      destruct (crc_pending w) as [|x l] eqn:Hl; [done|].
      rewrite should_flush_idle in Hs; [done|simpl; lia]. }
  cbn [mbind option_bind].
  assert (idle w1 = idle w) as Hidle1 by (unfold idle; by rewrite Hp1, Hq1, Hi1).
  destruct (bool_decide (completions w1 ≠ []) && _ && _) eqn:Hspin.
  { eexists _, _. split; [done|]. split_and!; try done. }
  set (w2 := if bool_decide (completions w1 ≠ []) then _ else _).
  assert (books_of w2 [] [] rec q ∧ flight w2 ∧ completions w2 = [] ∧ crc_pending w2 = crc_pending w1 ∧
    in_flight w2 = in_flight w1 ∧ pending w2 = pending w1 ∧ quiescing w2 = quiescing w1) as
    (Hbk2 & Hfl2 & Hc2 & Hcrc2 & Hi2 & Hp2 & Hq2).
  { unfold w2. case_bool_decide as Hc.
    - split_and!; try done. unfold books_of in *. apply books_batch, Hbk1.
    - split_and!; try done. }
  eexists _, _. split; [done|]. split_and!; [done|done|congruence|congruence|].
  intros Ht. assert (idle w = true) as Hid by (destruct (disconnected w2), (idle w); done).
  apply settle; [done..|by unfold idle in *; rewrite Hp2, Hq2, Hi2, Hidle1|done|].
  rewrite Hcrc2. by apply Hcrc.
Qed.

Lemma pass_ok `{!EqDecision K} messages closed w rec q :
  books_of w [] [] rec (length (messages_ids messages) + q) → flight w →
  ∃ w' t, pass quiesce_writes progress_deadline cap quiesce_pointer clock place crc messages closed w = Some (w', t) ∧
    books_of w' [] [] (rec ++ messages_ids messages) q ∧ flight w' ∧
    (t ≠ Spin → settled w' (rec ++ messages_ids messages) q).
Proof.
  intros Hbk Hfl. unfold pass, progress.
  destruct (intake_ok messages closed w rec q Hbk Hfl) as (Hbk1 & Hfl1 & _).
  set (w1 := intake _ _ _ _ _) in *.
  destruct (post_loop_ok (length (pending w1)) w1 _ q Hbk1 Hfl1) as (w2 & n & -> & Hbk2 & Hfl2 & _). simpl.
  destruct (reap_pass_ok w2 _ q Hbk2 Hfl2) as (w3 & any & -> & Hbk3 & Hfl3 & _). simpl.
  destruct (quiesce_loop_ok (length (quiescing w3)) w3 _ q Hbk3 Hfl3) as (w4 & m & -> & Hbk4 & Hfl4 & _). simpl.
  destruct (after_progress_ok (n + m) any w4 _ q Hbk4 Hfl4) as (w5 & t & -> & ? & ? & _ & _ & ?).
  eexists _, _. by split_and!.
Qed.

Lemma settled_shutdown w rec q : settled w rec q → shutdown crc w = Some w.
Proof.
  intros []. unfold shutdown. rewrite st_pending0, st_crc0. cbn [fmap list_fmap app complete_all mbind option_bind].
  rewrite bool_decide_eq_false_2 by (intros Hn; by destruct Hn). f_equal.
  destruct w. simpl in *. by subst.
Qed.

End steps.

(** ** Only the channel disconnects the worker, and what it has done stays done *)

Section advances.
  Context {E T : Type} `{!Transport E, !Operands T}.
  Variables (quiesce_writes : bool) (progress_deadline : Z) (cap : nat) (quiesce_pointer : Z).
  Variables (clock : nat → Z) (place : gmap Z (InFlight T) → Z) (crc : slice → Z).
  Implicit Types (w : worker E T) (a : accounts E T).

Record advances w w' : Prop := {
  ad_disconnected : disconnected w' = disconnected w;
  ad_log : log (acc w) `prefix_of` log (acc w');
}.

Lemma advances_same w w' : disconnected w' = disconnected w → log (acc w') = log (acc w) → advances w w'.
Proof. intros Hd Hl. by split; [|rewrite Hl]. Qed.

#[local] Instance advances_preorder : PreOrder advances.
Proof. split; [by split|]. intros w1 w2 w3 [H1 H2] [H3 H4]. split; [congruence|by etrans]. Qed.

(** Invert a chain of binds and the cases inside it. *)
Local Ltac invert_option H :=
  repeat first
    [ progress simplify_eq
    | apply bind_Some in H as (? & ? & H)
    | case_match ].

Lemma release_peer_log c a : log a `prefix_of` log (release_peer c a).
Proof. by apply prefix_app_r. Qed.

Lemma finish_op_log c a a' : finish_op c a = Some a' → log a `prefix_of` log a'.
Proof.
  unfold finish_op. intros H. apply bind_Some in H as ([n a1] & H1 & H).
  assert (log a1 = log a ++ [Finished c]) as Hl.
  { destruct (outstanding_by_client _ !! c) as [[|m]|]; by simplify_eq/=. }
  trans (log a1); [rewrite Hl; by apply prefix_app_r|].
  repeat case_decide; simplify_eq; try done. apply (release_peer_log c (with_removal _ (with_counts _ a1))).
Qed.

Lemma complete_advances b r w c w' : complete crc b r w = Some (c, w') → advances w w'.
Proof. unfold complete. intros H. invert_option H. by apply advances_same. Qed.

Lemma finish_unreaped_advances b error w w' : finish_unreaped crc b error w = Some w' → advances w w'.
Proof.
  unfold finish_unreaped. intros H. apply bind_Some in H as (op & _ & H).
  apply bind_Some in H as ([c w1] & Hc%complete_advances & H).
  apply bind_Some in H as (a & Ha%finish_op_log & [= <-]). etrans; [exact Hc|]. by split.
Qed.

Lemma post_advances p w r w' : post p w = Some (r, w') → advances w w'.
Proof.
  unfold post, post_resolved. intros H. invert_option H.
  all: repeat match goal with H : (_ ≫= _) = Some _ |- _ => invert_option H end; by apply advances_same.
Qed.

Lemma stalled_advances since w s wait w' :
  stalled progress_deadline clock since w = (s, wait, w') → advances w w'.
Proof. unfold stalled, now. destruct since; intros; simplify_eq; by apply advances_same. Qed.

Lemma failed_advances b error w w' n :
  (w ← finish_unreaped crc b error w; Some (w, 0)) = Some (w', n) → advances w w'.
Proof. intros H. by apply bind_Some in H as (w1 & H%finish_unreaped_advances & [= <- <-]). Qed.

Lemma post_one_advances w w' n : post_one progress_deadline clock crc w = Some (w', n) → advances w w'.
Proof.
  unfold post_one. destruct (pending w) as [|p rest]; [by intros [= <- <-]|].
  intros H. apply bind_Some in H as ([r w1] & Hp%post_advances & H). trans (with_pending rest w); [by apply advances_same|].
  etrans; [exact Hp|]. destruct r as [code|error]; [|by eapply failed_advances].
  destruct (code =? 0)%Z; [simplify_eq; by apply advances_same|].
  destruct (code =? t_again)%Z; [|by eapply failed_advances].
  destruct (stalled _ _ _ _) as [[since wait] w2] eqn:Hs. apply stalled_advances in Hs.
  etrans; [exact Hs|]. destruct wait; [simplify_eq; by apply advances_same|by eapply failed_advances].
Qed.

Lemma post_loop_advances attempts w w' n :
  post_loop progress_deadline cap clock crc attempts w = Some (w', n) → advances w w'.
Proof.
  revert w w' n. induction attempts as [|attempts IH]; intros w w' n; simpl; [by intros [= <- <-]|].
  destruct (_ <? _); [|by intros [= <- <-]]. intros H.
  apply bind_Some in H as ([w1 n1] & H1%post_one_advances & H).
  apply bind_Some in H as ([w2 n2] & H2%IH & [= <- <-]). by etrans.
Qed.

Lemma reap_one_advances c w w' : reap_one crc c w = Some w' → advances w w'.
Proof.
  destruct c as [b r]. cbn [reap_one]. intros H. apply bind_Some in H as (op & _ & H).
  destruct (if is_ok r then _ else _); [simplify_eq; by apply advances_same|].
  apply bind_Some in H as (a & Ha%finish_op_log & H).
  trans (with_acc a w); [by split|].
  destruct (want_checksum op); [simplify_eq; by apply advances_same|].
  apply bind_Some in H as ([c w1] & Hc%complete_advances & [= <-]). etrans; [exact Hc|]. by apply advances_same.
Qed.

Lemma reap_each_advances l w w' : reap_each crc l w = Some w' → advances w w'.
Proof.
  revert w. induction l as [|c l IH]; intros w; cbn [reap_each]; [by intros [= <-]|].
  intros H. apply bind_Some in H as (w1 & H1%reap_one_advances & H%IH). by etrans.
Qed.

Lemma reap_pass_advances w w' any : reap_pass crc w = Some (w', any) → advances w w'.
Proof.
  unfold reap_pass. destruct (t_reap _ _) as [[r l] e]. intros H.
  apply bind_Some in H as (w1 & H1%reap_each_advances & [= <- <-]). etrans; [|exact H1]. by apply advances_same.
Qed.

Lemma post_quiesce_advances waiting w p w' : post_quiesce quiesce_pointer waiting w = Some (p, w') → advances w w'.
Proof. unfold post_quiesce. intros H. invert_option H; by apply advances_same. Qed.

Lemma quiesce_one_advances w w' n :
  quiesce_one progress_deadline quiesce_pointer clock crc w = Some (w', n) → advances w w'.
Proof.
  unfold quiesce_one. destruct (quiescing w) as [|waiting rest]; [by intros [= <- <-]|].
  intros H. apply bind_Some in H as ([p w1] & Hp%post_quiesce_advances & H).
  trans (with_quiescing rest w); [by apply advances_same|]. etrans; [exact Hp|].
  destruct p as [|waiting'|b error]; [simplify_eq; by apply advances_same| |by eapply failed_advances].
  destruct (stalled _ _ _ _) as [[since wait] w2] eqn:Hs. apply stalled_advances in Hs.
  etrans; [exact Hs|]. destruct wait; [simplify_eq; by apply advances_same|by eapply failed_advances].
Qed.

Lemma quiesce_loop_advances attempts w w' n :
  quiesce_loop progress_deadline quiesce_pointer clock crc attempts w = Some (w', n) → advances w w'.
Proof.
  revert w w' n. induction attempts as [|attempts IH]; intros w w' n; simpl; [by intros [= <- <-]|].
  intros H. apply bind_Some in H as ([w1 n1] & H1%quiesce_one_advances & H).
  apply bind_Some in H as ([w2 n2] & H2%IH & [= <- <-]). by etrans.
Qed.

Lemma progress_advances w w' n any :
  progress progress_deadline cap quiesce_pointer clock crc w = Some (w', n, any) → advances w w'.
Proof.
  unfold progress. intros H. apply bind_Some in H as ([w1 n1] & H1%post_loop_advances & H).
  apply bind_Some in H as ([w2 any2] & H2%reap_pass_advances & H).
  apply bind_Some in H as ([w3 n3] & H3%quiesce_loop_advances & [= <- _ _]). by do 2 (etrans; [eassumption|]).
Qed.

(** Taking the deferred operations out of their boxes changes nothing else. *)
Lemma take_boxes_keeps l w ops w' :
  take_boxes l w = Some (ops, w') → w' = with_boxes (boxes w') w.
Proof.
  revert w ops w'. induction l as [|[b r] l IH]; intros w ops w'; cbn [take_boxes]; [intros [= _ <-]; by destruct w|].
  intros H. apply bind_Some in H as (op & _ & H). by apply bind_Some in H as ([ops1 w1] & ->%IH & [= _ <-]).
Qed.

Lemma submit_crc_batch_keeps w w' :
  submit_crc_batch w = Some w' → ∃ m ops, w' = with_acc (emit (PoolJob ops) (acc w)) (with_boxes m (with_crc_pending [] w)).
Proof.
  unfold submit_crc_batch. intros H. apply bind_Some in H as ([ops w1] & ->%take_boxes_keeps & [= <-]). by eexists _, _.
Qed.

Lemma receive_advances m w : advances w (receive quiesce_writes place m w).
Proof.
  destruct m as [request|client address reply|client|base length reply]; simpl.
  - unfold accept. destruct (prepare _ _ _ _) as [[p|completion] m]; [|by apply advances_same].
    split; [done|]. by apply prefix_app_r.
  - destruct (t_insert_peer _ _ _) as [[peer|error] e]; (split; [done|by apply prefix_app_r]).
  - unfold remove_or_defer. case_decide; [|by apply advances_same]. split; [done|]. apply release_peer_log.
  - destruct (t_pin_region _ _ _) as [r e]. split; [done|by apply prefix_app_r].
Qed.

Lemma intake_advances messages closed w :
  log (acc w) `prefix_of` log (acc (intake quiesce_writes place messages closed w)) ∧
  disconnected (intake quiesce_writes place messages closed w) = disconnected w || closed.
Proof.
  unfold intake.
  assert (advances w (foldl (λ w m, receive quiesce_writes place m w) w messages)) as [Hd Hl].
  { revert w. induction messages as [|m messages IH]; intros w; [done|]. simpl. etrans; [apply receive_advances|apply IH]. }
  destruct closed; [by rewrite orb_true_r|]. by rewrite Hd, orb_false_r.
Qed.

Lemma after_progress_advances n any w w' t :
  after_progress n any w = Some (w', t) → advances w w' ∧ (t = Leave → disconnected w' = true).
Proof.
  unfold after_progress. intros H. apply bind_Some in H as (w1 & H1 & H).
  assert (advances w w1) as Hw.
  { destruct (should_flush_crc _ _ _ _); [|by simplify_eq].
    apply submit_crc_batch_keeps in H1 as (m & ops & ->). split; [done|by apply prefix_app_r]. }
  destruct (_ && _ && _); [simplify_eq; split; [etrans; [exact Hw|by apply advances_same]|done]|].
  assert (advances w1 (if bool_decide (completions w1 ≠ []) then flush_completions w1 else w1)) as Hw1
    by (case_bool_decide; [split; [done|by apply prefix_app_r]|done]).
  injection H as <- Ht. split; [by etrans|]. intros ->.
  destruct (disconnected _), (idle w); done.
Qed.

Lemma pass_advances messages closed w w' t :
  pass quiesce_writes progress_deadline cap quiesce_pointer clock place crc messages closed w = Some (w', t) →
  log (acc w) `prefix_of` log (acc w') ∧
  disconnected w' = disconnected w || closed ∧ (t = Leave → disconnected w' = true).
Proof.
  unfold pass. intros H. apply bind_Some in H as ([[w1 n] any] & [Hd1 Hl1]%progress_advances & H).
  apply after_progress_advances in H as [[Hd2 Hl2] Ht].
  destruct (intake_advances messages closed w) as [Hl Hd]. split_and!; [by do 2 (etrans; [eassumption|])|congruence|done].
Qed.

Lemma complete_all_advances l w r w' : complete_all crc l w = Some (r, w') → advances w w'.
Proof.
  revert w r w'. induction l as [|[b x] l IH]; intros w r w'; cbn [complete_all]; [by intros [= _ <-]|].
  intros H. apply bind_Some in H as ([c w1] & H1%complete_advances & H).
  apply bind_Some in H as ([r1 w2] & H2%IH & [= _ <-]). by etrans.
Qed.

Lemma shutdown_advances w w' : shutdown crc w = Some w' → advances w w'.
Proof.
  unfold shutdown. intros H. apply bind_Some in H as ([r w1] & H1%complete_all_advances & [= <-]).
  trans w1; [etrans; [|exact H1]; by apply advances_same|].
  case_bool_decide; [split; [done|by apply prefix_app_r]|done].
Qed.

End advances.
