(* ===== verification/Initiators.v ===== *)
(** * The initiators

    The examples that write a target's buffer or read it back: [examples/one_transfer.rs],
    [async_transfer.rs], [read_from_peer.rs] and [registered_arena.rs].  Each starts a service,
    prints its address, learns its peer from its arguments or from stdin and asks for one
    transfer; the service is a parameter here, and what the examples contribute is the context
    each puts in its request. *)

From S2P Require Import Prelude Wire Fabric RegionCache Operands PeerAddresses Config Endpoint Worker PassiveTarget Client.

(** ** What an example prints *)

Inductive output : Type :=
  | LocalAddress (hex : list u8)
  | PasteTheFields
  | RegisteredBytes (n : Z)
  | Wrote (bytes : Z) (checksum : option Z)
  | WroteOf (bytes total : Z) (checksum : option Z)
  | ReadBack (bytes : Z) (checksum : option Z) (verified : bool)
  | TransferFailed (error : DmaError)
  | ExitedUnfinished.

(** [main]s: what they leave with and what they printed. *)
Definition main (A : Type) : Type := result A DmaError * list output.

Definition main_ret {A} (a : A) : main A := (Ok a, []).
Definition main_bind {A B} (m : main A) (f : A → main B) : main B :=
  match m with
  | (Ok a, printed) => let '(r, more) := f a in (r, printed ++ more)
  | (Err error, printed) => (Err error, printed)
  end.
Declare Scope main_scope.
#[local] Open Scope main_scope.
Notation "'let+' x ':=' m 'in' f" := (main_bind m (λ x, f)) (at level 10, x binder, f at level 200) : main_scope.

Definition say (o : output) : main () := (Ok tt, [o]).
Definition main_of {A} (r : result A DmaError) : main A := (r, []).

(** ** The contexts *)

(** [struct Operation], the sender of its outcome apart. *)
Record Operation := { payload : vec }.

Definition operation_operands : Operands Operation :=
  {| source o := vec_source (payload o); allocate := default_allocate; cacheable_span := default_cacheable_span |}.

(** [struct Slot]: where in the arena it is. *)
Record Slot := { arena : vec; slot_at : Z; slot_length : Z }.

Definition slot_source (s : Slot) : option slice :=
  if (slot_at s + slot_length s <=? Z.of_nat (length (bytes (arena s))))%Z
  then Some (Slice (buffer (arena s) + slot_at s) (slot_length s)) else None.

Definition slot_operands : Operands Slot :=
  {| source := slot_source; allocate := default_allocate; cacheable_span := default_cacheable_span |}.

Definition SLOT : Z := 4096.
Definition LENGTH : Z := 4096.

(** ** The examples *)

Section mains.
  (** [Pool::new], [FabricService::start] up to its address, and the line on stdin. *)
  Variables (pool_new : nat → result () string) (start : Configuration → result (list u8) DmaError).
  Variable stdin : result (list u8) string.
  (** Where the allocator puts the payload. *)
  Variable place_bytes : Z.

(** Up to a service that runs. *)
Definition started (arguments : list string) : main (option Advertisement) :=
  let+ parsed := main_of (parse arguments) in
  let+ _ := main_of (match pool_new 2 with Ok _ => Ok tt | Err error => Err (Fabric ("pool: " +:+ error)) end) in
  let+ local := main_of (start (a_configuration parsed)) in
  let+ _ := say (LocalAddress (encode_hex local)) in
  main_ret (a_peer parsed).

(** The peer of the arguments, or of stdin. *)
Definition chosen_peer (peer : option Advertisement) : main Advertisement :=
  match peer with
  | Some peer => main_ret peer
  | None => let+ _ := say PasteTheFields in main_of (peer_from_stdin stdin)
  end.

Definition request_to {T} (peer : Advertisement) (direction : Direction) (context : T) : TransferRequest T :=
  {| client_id := 1; peer_address := address peer; Worker.remote_key := Wire.remote_key peer;
     Worker.remote_address := Wire.remote_address peer; direction := direction; request_want_checksum := true;
     request_context := context |}.

Definition worker_is_gone : DmaError := Fabric "fabric worker is gone".

(** [one_transfer.rs] *)
Definition one_transfer (submit : TransferRequest Operation → attempt Outcome) (arguments : list string) : main () :=
  let+ peer := started arguments in
  let+ peer := chosen_peer peer in
  let payload := {| buffer := place_bytes; bytes := replicate (Z.to_nat BUFFER_LEN) PATTERN |} in
  match submit (request_to peer ToPeer {| payload := payload |}) with
  | Refused => main_of (Err worker_is_gone)
  | Completed (Ok transferred) => say (Wrote (done_bytes transferred) (checksum transferred))
  | Completed (Err error) => say (TransferFailed error)
  | WorkerExited => say ExitedUnfinished
  end.

(** [async_transfer.rs]: the context comes back with the outcome. *)
Definition async_transfer (transfer : TransferRequest Operation → option (Outcome * Operation)) (arguments : list string) :
    main () :=
  let+ peer := started arguments in
  let+ peer := chosen_peer peer in
  let payload := {| buffer := place_bytes; bytes := replicate (Z.to_nat BUFFER_LEN) PATTERN |} in
  match transfer (request_to peer ToPeer {| payload := payload |}) with
  | None => main_of (Err worker_is_gone)
  | Some (Ok transferred, operation) =>
      say (WroteOf (done_bytes transferred) (Z.of_nat (length (bytes (Initiators.payload operation)))) (checksum transferred))
  | Some (Err error, _) => say (TransferFailed error)
  end.

(** [read_from_peer.rs] *)
Definition read_from_peer (transfer : TransferRequest vec → option (Outcome * vec)) (arguments : list string) : main () :=
  let+ peer := started arguments in
  let+ peer := chosen_peer peer in
  match transfer (request_to peer (FromPeer LENGTH) {| buffer := place_bytes; bytes := [] |}) with
  | None => main_of (Err worker_is_gone)
  | Some (Ok transferred, payload) =>
      say (ReadBack (done_bytes transferred) (checksum transferred) (forallb (Byte.eqb PATTERN) (bytes payload)))
  | Some (Err error, _) => say (TransferFailed error)
  end.

(** [registered_arena.rs]: the arena, its second slot filled. *)
Definition filled_arena : vec :=
  {| buffer := place_bytes;
     bytes := replicate (Z.to_nat SLOT) Byte.x00 ++ replicate (Z.to_nat SLOT) PATTERN ++
              replicate (Z.to_nat (62 * SLOT)) Byte.x00 |}.

Definition arena_slot : Slot := {| arena := filled_arena; slot_at := SLOT; slot_length := SLOT |}.

Definition registered_arena (register : vec → result () DmaError) (submit : TransferRequest Slot → attempt Outcome)
    (arguments : list string) : main () :=
  let+ peer := started arguments in
  let+ _ := main_of (register filled_arena) in
  let+ _ := say (RegisteredBytes (Z.of_nat (length (bytes filled_arena)))) in
  let+ peer := chosen_peer peer in
  match submit (request_to peer ToPeer arena_slot) with
  | Refused => main_of (Err worker_is_gone)
  | Completed (Ok transferred) => say (Wrote (done_bytes transferred) (checksum transferred))
  | Completed (Err error) => say (TransferFailed error)
  | WorkerExited => say ExitedUnfinished
  end.

End mains.

(** ** What they ask for *)

Section asked.
  Variables (pool_new : nat → result () string) (start : Configuration → result (list u8) DmaError) (place_bytes : Z).
  Variables (address local : list u8) (exposed : Exposed).
  (** A target printed its advertisement, and it is pasted into an initiator on efa whose
      service starts. *)
  Hypothesis address_there : address ≠ [].
  Hypothesis key_fits : in_u64 (exposed_key exposed).
  Hypothesis address_fits : in_u64 (exposed_address exposed).
  Hypothesis pool_starts : pool_new 2 = Ok tt.
  Hypothesis service_starts : ∀ c, providers c = [EfaDirect] → start c = Ok local.

  Abbreviation pasted := (Ok (advertisement_line address exposed ++ [Byte.x0a])).

Definition target_peer : Advertisement :=
  {| Wire.address := address; Wire.remote_key := exposed_key exposed; Wire.remote_address := exposed_address exposed |}.

Lemma started_efa :
  started pool_new start ["--efa"] = (Ok None, [LocalAddress (encode_hex local)]).
Proof.
  unfold started. assert (∃ c, parse ["--efa"] = Ok {| a_configuration := c; a_peer := None |} ∧ providers c = [EfaDirect])
    as (c & -> & Hc) by (by eexists). cbn. by rewrite pool_starts, (service_starts c Hc).
Qed.

Lemma chosen_pasted : chosen_peer pasted None = (Ok target_peer, [PasteTheFields]).
Proof. unfold chosen_peer, main_of. rewrite peer_from_advertised by done. done. Qed.

(** Each of the four asks for one transfer with the target's buffer: its address, key and
    remote address are those that were printed. *)
Lemma one_transfer_asks submit :
  let request := request_to target_peer ToPeer {| payload := {| buffer := place_bytes; bytes := replicate (Z.to_nat BUFFER_LEN) PATTERN |} |} in
  one_transfer pool_new start pasted place_bytes submit ["--efa"] =
    (match submit request with Refused => Err worker_is_gone | _ => Ok tt end,
     [LocalAddress (encode_hex local); PasteTheFields] ++
     match submit request with
     | Refused => []
     | Completed (Ok transferred) => [Wrote (done_bytes transferred) (checksum transferred)]
     | Completed (Err error) => [TransferFailed error]
     | WorkerExited => [ExitedUnfinished]
     end).
Proof.
  intros request. unfold one_transfer. rewrite started_efa. cbn [main_bind]. rewrite chosen_pasted. cbn [main_bind].
  change (request_to target_peer ToPeer _) with request. by destruct (submit request) as [| |[transferred|error]].
Qed.

Lemma read_from_peer_asks transfer :
  let request := request_to target_peer (FromPeer LENGTH) {| buffer := place_bytes; bytes := [] |} in
  read_from_peer pool_new start pasted place_bytes transfer ["--efa"] =
    (match transfer request with None => Err worker_is_gone | _ => Ok tt end,
     [LocalAddress (encode_hex local); PasteTheFields] ++
     match transfer request with
     | None => []
     | Some (Ok transferred, payload) =>
         [ReadBack (done_bytes transferred) (checksum transferred) (forallb (Byte.eqb PATTERN) (bytes payload))]
     | Some (Err error, _) => [TransferFailed error]
     end).
Proof.
  intros request. unfold read_from_peer. rewrite started_efa. cbn [main_bind]. rewrite chosen_pasted. cbn [main_bind].
  change (request_to target_peer (FromPeer LENGTH) _) with request. by destruct (transfer request) as [[[transferred|error] v]|].
Qed.

Lemma registered_arena_asks register submit :
  register (filled_arena place_bytes) = Ok tt →
  let request := request_to target_peer ToPeer (arena_slot place_bytes) in
  registered_arena pool_new start pasted place_bytes register submit ["--efa"] =
    (match submit request with Refused => Err worker_is_gone | _ => Ok tt end,
     [LocalAddress (encode_hex local); RegisteredBytes (64 * SLOT); PasteTheFields] ++
     match submit request with
     | Refused => []
     | Completed (Ok transferred) => [Wrote (done_bytes transferred) (checksum transferred)]
     | Completed (Err error) => [TransferFailed error]
     | WorkerExited => [ExitedUnfinished]
     end).
Proof.
  intros Hr request. unfold registered_arena. rewrite started_efa. cbn [main_bind]. rewrite Hr. cbn [main_bind main_of say].
  rewrite chosen_pasted. cbn [main_bind].
  assert (Z.of_nat (length (bytes (filled_arena place_bytes))) = 64 * SLOT)%Z as ->.
  { cbn [filled_arena bytes]. rewrite !length_app, !length_replicate. unfold SLOT. lia. }
  change (request_to target_peer ToPeer _) with request. by destruct (submit request) as [| |[transferred|error]].
Qed.

End asked.

(** What the three send, and what the fourth lands, is as much as a target exposes, and all of
    it the pattern it waits for. *)
Lemma operation_source place_bytes :
  source (Operands := operation_operands) {| payload := {| buffer := place_bytes; bytes := replicate (Z.to_nat BUFFER_LEN) PATTERN |} |} =
    Some (Slice place_bytes BUFFER_LEN).
Proof. cbn [source operation_operands payload]. unfold vec_source. cbn [bytes buffer]. by rewrite length_replicate, Z2Nat.id. Qed.

Lemma arena_slot_source place_bytes :
  slot_source (arena_slot place_bytes) = Some (Slice (place_bytes + SLOT) BUFFER_LEN) ∧
  take (Z.to_nat SLOT) (drop (Z.to_nat SLOT) (bytes (filled_arena place_bytes))) = replicate (Z.to_nat BUFFER_LEN) PATTERN.
Proof.
  unfold slot_source. cbn [arena_slot arena slot_at slot_length filled_arena bytes buffer]. split.
  - rewrite !length_app, !length_replicate. destruct (Z.leb_spec (SLOT + SLOT)
      (Z.of_nat (Z.to_nat SLOT + (Z.to_nat SLOT + Z.to_nat (62 * SLOT))))); [done|unfold SLOT in *; lia].
  - rewrite drop_app_length' by by rewrite length_replicate. by rewrite take_app_length' by by rewrite length_replicate.
Qed.

Lemma read_landing reallocate place_bytes :
  (allocate (Operands := vec_operands reallocate) LENGTH {| buffer := place_bytes; bytes := [] |}).1 =
    Some (Slice (reallocate {| buffer := place_bytes; bytes := [] |} LENGTH) BUFFER_LEN).
Proof. cbn [allocate vec_operands vec_allocate fst buffer bytes]. by rewrite length_resize, Z2Nat.id. Qed.

(** The arena is registered once: a transfer of its slot resolves with no registration of its
    own, whatever was cached before outside the arena. *)
Lemma arena_slot_registers_nothing `{!Libfabric} d place_bytes c L tr c1 tr1 :
  cache_ok c L tr → pin d place_bytes (64 * SLOT) c tr = (Ok (), c1, tr1) →
  (place_bytes + 64 * SLOT < u64_end)%Z →
  (∀ b e, view (registry c) d b = Some e → ¬ (place_bytes < b ≤ place_bytes + SLOT)%Z) →
  ∃ bytes op c2, source (Operands := slot_operands) (arena_slot place_bytes) = Some bytes ∧
    operand d (pointer bytes) (len bytes) None c1 tr1 = (Ok op, c2, tr1).
Proof.
  intros Hc Hpin Hend Hshadow. destruct (arena_slot_source place_bytes) as [Hs _]. unfold SLOT, BUFFER_LEN in *.
  destruct (pinned_span_serves_operands d place_bytes (64 * 4096) c L tr c1 tr1 (place_bytes + 4096) 4096 None Hc Hpin)
    as (_ & e & op & c2 & _ & _ & Hop & _); [lia|lia|by intros b e Hv Hb; apply (Hshadow b e)|].
  eexists _, op, c2. split; [exact Hs|exact Hop].
Qed.
