(* ===== verification/Margin.v ===== *)
(** * Measuring when a write lands

    [examples/delivery_margin.rs]: an initiator writes one generation after another into a
    target's buffer and signals each over tcp when its completion is reaped; the target
    measures how long after the data the signal arrives.  The two ends talk over one stream
    ([Stream]); what the threads of the target see of the buffer and of the clock are
    parameters, and so is the service that carries out a transfer. *)

From S2P Require Import Prelude Wire Fabric RegionCache Operands PeerAddresses Config Endpoint Worker.
From S2P Require Import PassiveTarget Client Stream.
#[local] Open Scope stream_scope.

Definition LINE : Z := 64.
Definition PAGE : Z := 4096.
Definition LANDING_DEADLINE : Z := from_secs 5.

(** ** The command line *)

(** [flag]: what follows the first argument that is [name]. *)
Fixpoint flag (arguments : list string) (name : string) : option string :=
  match arguments with
  | [] => None
  | argument :: arguments => if decide (name = argument) then head arguments else flag arguments name
  end.

(** [str::split] at a byte, and [str::split_once]. *)
Fixpoint split_on (at_byte : u8) (text : list u8) : list (list u8) :=
  match text with
  | [] => [[]]
  | b :: text =>
      if Byte.eqb at_byte b then [] :: split_on at_byte text
      else match split_on at_byte text with [] => [[b]] | field :: fields => (b :: field) :: fields end
  end.

Fixpoint split_once (at_byte : u8) (text : list u8) : option (list u8 * list u8) :=
  match text with
  | [] => None
  | b :: text =>
      if Byte.eqb at_byte b then Some ([], text)
      else '(before, after) ← split_once at_byte text; Some (b :: before, after)
  end.

Record Csv := { path : option string; label : string }.

Definition csv_from_arguments (arguments : list string) : Csv :=
  {| path := flag arguments "--csv"; label := default "run" (flag arguments "--label") |}.

(** What [main] runs. *)
Inductive role : Type :=
  | TargetRole (listen : string) (capacity : Z) (pins : option (Z * Z)) (write_only : bool) (csv : Csv)
  | InitiatorRole (target : string) (sizes : list Z) (iterations : Z) (quiesce : bool) (csv : Csv).

Definition capacity_argument (arguments : list string) : result Z string :=
  match flag arguments "--capacity" with
  | Some capacity => ok_or (parse_ascii usize_max (ascii capacity)) "--capacity <bytes>"
  | None => Ok (Z.shiftl 64 20)
  end.

Definition pins_argument (arguments : list string) : result (option (Z * Z)) string :=
  match flag arguments "--pin" with
  | Some cores =>
      match split_once Byte.x2c (ascii cores) with
      | Some (watcher, signal) =>
          match parse_ascii usize_max watcher, parse_ascii usize_max signal with
          | Some watcher, Some signal => Ok (Some (watcher, signal))
          | _, _ => Err "--pin <watcher-core>,<signal-core>"
          end
      | None => Err "--pin <watcher-core>,<signal-core>"
      end
  | None => Ok None
  end.

Definition sizes_argument (arguments : list string) : result (list Z) string :=
  match flag arguments "--sizes" with
  | Some sizes => ok_or (mapM (parse_ascii usize_max) (split_on Byte.x2c (ascii sizes))) "--sizes <bytes>,<bytes>,..."
  | None => Ok [64; 4096; 65536; Z.shiftl 1 20; Z.shiftl 16 20]%Z
  end.

Definition iterations_argument (arguments : list string) : result Z string :=
  match flag arguments "--iterations" with
  | Some iterations => ok_or (parse_ascii u64_max (ascii iterations)) "--iterations <count>"
  | None => Ok 10000%Z
  end.

(** [main], of the arguments after the program's name. *)
Definition role_of (arguments : list string) : result role string :=
  match arguments with
  | "target" :: listen :: _ =>
      let? capacity := capacity_argument arguments in
      let? pins := pins_argument arguments in
      Ok (TargetRole listen capacity pins (bool_decide ("--write-only" ∈ arguments)) (csv_from_arguments arguments))
  | "initiator" :: target :: _ =>
      let? sizes := sizes_argument arguments in
      let? iterations := iterations_argument arguments in
      Ok (InitiatorRole target sizes iterations (bool_decide ("--quiesce" ∈ arguments)) (csv_from_arguments arguments))
  | _ => Err "usage: delivery_margin target <listen> | initiator <target>"
  end.

(** ** The initiator *)

(** [struct Generation], its payload by its words. *)
Record Generation := { number : Z; payload : list Z; g_length : Z }.

(** [impl Operands for Generation]; [words_at] is where the payload is. *)
Definition generation_source (words_at : Z) (g : Generation) : option slice :=
  if (g_length g <=? WORD * Z.of_nat (length (payload g)))%Z then Some (Slice words_at (g_length g)) else None.

(** The configuration of its service. *)
Definition initiator_configuration (quiesce : bool) : Configuration := {|
  providers := [EfaDirect]; interfaces := interfaces default_configuration; bind := bind default_configuration;
  max_in_flight := max_in_flight default_configuration;
  crc_pool_threads := crc_pool_threads default_configuration;
  progress_deadline := progress_deadline default_configuration; quiesce_writes := quiesce |}.

(** The next generation, stored to the words the transfer sends. *)
Definition next_generation (size : Z) (g : Generation) : Generation :=
  let words := Z.to_nat (size / WORD) in
  {| number := number g + 1; g_length := size;
     payload := replicate (words `min` length (payload g)) (number g + 1)%Z ++ drop words (payload g) |}.

Section initiator.
  (** The service: its start, the payload's registration, each transfer; and the reports. *)
  Variables (started : result (list u8) DmaError) (register : list Z → result () DmaError).
  Variable transfer : TransferRequest Generation → attempt (result () DmaError).
  Variable report_latencies : Z → result () string.

Definition in_text {A} (r : result A DmaError) : result A string :=
  match r with Ok a => Ok a | Err error => Err (DmaError_display error) end.

Definition generation_request (peer_address : list u8) (remote_key remote_address : Z) (g : Generation) :
    TransferRequest Generation :=
  {| client_id := 1; peer_address := peer_address; Worker.remote_key := remote_key;
     Worker.remote_address := remote_address; direction := ToPeer;
     request_want_checksum := false; request_context := g |}.

(** One transfer of a batch.  The completion hook signals from the worker, before it hands
    the context back; the next generation waits for the target's ack. *)
Definition write_generation (peer_address : list u8) (remote_key remote_address size : Z) (next : Generation) :
    conversation Generation :=
  let next := next_generation size next in
  match transfer (generation_request peer_address remote_key remote_address next) with
  | Refused => conv_fail "fabric worker is gone"
  | WorkerExited => conv_fail "fabric worker exited mid-transfer"
  | Completed (Ok _) =>
      let! _ := write_u64 (number next) in
      let! _ := await_ack in
      conv_ret next
  | Completed (Err error) => conv_fail ("generation " +:+ pretty (number next) +:+ ": " +:+ DmaError_display error)
  end.

Fixpoint write_generations (n : nat) (peer_address : list u8) (remote_key remote_address size : Z) (next : Generation) :
    conversation Generation :=
  match n with
  | O => conv_ret next
  | S n =>
      let! next := write_generation peer_address remote_key remote_address size next in
      write_generations n peer_address remote_key remote_address size next
  end.

(** The sweep over the sizes. *)
Fixpoint sweep_sizes (sizes : list Z) (iterations : Z) (peer_address : list u8) (remote_key remote_address capacity : Z)
    (next : Generation) : conversation () :=
  match sizes with
  | [] => conv_ret tt
  | size :: sizes =>
      if (0 =? size)%Z || negb (size mod LINE =? 0)%Z || (capacity <? size)%Z then
        conv_fail ("size " +:+ pretty size +:+ " must be a nonzero multiple of " +:+ pretty LINE +:+
                   " within " +:+ pretty capacity)
      else
        let! _ := write_u64 size in
        let! _ := write_u64 iterations in
        let! _ := write_u64 (number next + 1) in
        let! _ := await_ack in
        let! next := write_generations (Z.to_nat iterations) peer_address remote_key remote_address size next in
        let! _ := conv_of (report_latencies size) in
        sweep_sizes sizes iterations peer_address remote_key remote_address capacity next
  end.

(** The payload is as long as the largest size. *)
Definition largest (sizes : list Z) : Z := foldr Z.max 0%Z sizes.

(** [initiator], once connected. *)
Definition initiator (sizes : list Z) (iterations : Z) : conversation () :=
  let! target_address := read_bytes in
  let! remote_key := read_u64 in
  let! remote_address := read_u64 in
  let! capacity := read_u64 in
  let! local_address := conv_of (in_text started) in
  let! _ := write_bytes local_address in
  let! _ := await_ack in
  let words := replicate (Z.to_nat (largest sizes / WORD)) 0%Z in
  let! _ := conv_of (in_text (register words)) in
  let! _ := sweep_sizes sizes iterations target_address remote_key remote_address capacity
              {| number := 0; payload := words; g_length := 0 |} in
  write_u64 0.

End initiator.

(** ** The target *)

(** A generation's landing, between two readings of the clock. *)
Record Landing := { last_old : Z; first_new : Z }.

Section watch.
  (** Each reading of the clock, by how many there have been, and what a load after that
      many readings finds in a word. *)
  Variables (clock : nat → Z) (load : nat → nat → Z).

(** [words.chunks(PAGE / WORD).filter_map(last)]: every page's last word, by index. *)
Definition words_per_page : nat := Z.to_nat (PAGE / WORD).

Definition probes (words : nat) : list nat :=
  (λ page, (S page * words_per_page) `min` words - 1) <$> seq 0 ((words + words_per_page - 1) / words_per_page).

(** The loop of [watch] for one generation, [ticks] readings in; [fuel] turns are tried. *)
Fixpoint watch_loop (fuel ticks : nat) (generation deadline : Z) (pending : list nat) (old : Z) :
    option (option Landing * nat) :=
  match fuel with
  | O => None
  | S fuel =>
      match pending with
      | [] => Some (Some {| last_old := old; first_new := clock ticks |}, S ticks)
      | word :: rest =>
          let before := clock ticks in
          if (generation =? load (S ticks) word)%Z then watch_loop fuel (S ticks) generation deadline rest old
          else if (deadline <? before)%Z then Some (None, S ticks)
          else watch_loop fuel (S ticks) generation deadline pending before
      end
  end.

(** One generation of [watch]: the deadline and the first [last_old] are readings of their own. *)
Definition watch_one (fuel ticks words : nat) (generation : Z) : option (option Landing * nat) :=
  watch_loop fuel (S (S ticks)) generation (clock ticks + LANDING_DEADLINE) (probes words) (clock (S ticks)).

(** [watch]: what is sent, up to where nobody receives it ([listened] of them). *)
Fixpoint watch (fuel : nat) (iterations listened ticks words : nat) (generation : Z) :
    option (list (Z * option Landing)) :=
  match iterations with
  | O => Some []
  | S iterations =>
      '(landing, ticks) ← watch_one fuel ticks words generation;
      match listened with
      | O => Some []
      | S listened =>
          rest ← watch fuel iterations listened ticks words (generation + 1);
          Some ((generation, landing) :: rest)
      end
  end.

End watch.

(** [struct Report] *)
Record Report := {
  margins : list Z;
  uncertainties : list Z;
  stale : Z;
  stale_words : Z;
  lost : Z;
}.

Definition report_new : Report := {| margins := []; uncertainties := []; stale := 0; stale_words := 0; lost := 0 |}.

(** A cast of nanoseconds to [i64]. *)
Definition as_i64 (n : Z) : Z := let m := (n mod 2 ^ 64)%Z in if (m <? 2 ^ 63)%Z then m else (m - 2 ^ 64)%Z.

(** [signed_nanoseconds] *)
Definition signed_nanoseconds (from to : Z) : Z :=
  if (from <=? to)%Z then as_i64 (to - from) else - as_i64 (from - to).

(** What the target has when a signal is in: when that was, the words the rescan then reads,
    and what the watcher sends, unless it sends nothing in time. *)
Record sighting := { arrived : Z; rescan : list Z; watched : option (Z * option Landing) }.

Section target.
  (** What is seen for each generation awaited. *)
  Variable sight : Z → sighting.

(** One turn of [measure]: what it makes of the rescan, then of the watcher's landing. *)
Definition note_stale (generation : Z) (seen : sighting) (report : Report) : Report :=
  let old := Z.of_nat (length (filter (λ word, generation ≠ word) (rescan seen))) in
  if (0 <? old)%Z then
    {| margins := margins report; uncertainties := uncertainties report; stale := stale report + 1;
       stale_words := stale_words report + old; lost := lost report |}
  else report.

Definition note_landing (arrived : Z) (landing : option Landing) (report : Report) : Report :=
  match landing with
  | Some landing =>
      {| margins := margins report ++ [signed_nanoseconds (last_old landing) arrived];
         uncertainties := uncertainties report ++ [signed_nanoseconds (last_old landing) (first_new landing)];
         stale := stale report; stale_words := stale_words report; lost := lost report |}
  | None =>
      {| margins := margins report; uncertainties := uncertainties report;
         stale := stale report; stale_words := stale_words report; lost := lost report + 1 |}
  end.

Definition measure_one (expected : Z) (report : Report) : conversation Report :=
  let! generation := read_u64 in
  let seen := sight expected in
  if negb (expected =? generation)%Z then
    conv_fail ("expected generation " +:+ pretty expected +:+ ", got " +:+ pretty generation)
  else
    let report := note_stale generation seen report in
    match watched seen with
    | None => conv_fail "watcher exited"
    | Some (watched, landing) =>
        if negb (watched =? generation)%Z then
          conv_fail ("watcher on generation " +:+ pretty watched +:+ ", not " +:+ pretty generation)
        else
          let report := note_landing (arrived seen) landing report in
          let! _ := ack in
          conv_ret report
    end.

Fixpoint measure_from (iterations : nat) (expected : Z) (report : Report) : conversation Report :=
  match iterations with
  | O => conv_ret report
  | S iterations =>
      let! report := measure_one expected report in
      measure_from iterations (expected + 1) report
  end.

Definition measure (first : Z) (iterations : nat) : conversation Report := measure_from iterations first report_new.

(** The batches of [target], until a size of 0; [fuel] sizes are read.  [print] is where a
    report goes. *)
Fixpoint serve_batches (fuel : nat) (capacity : Z) (print : Z → Report → result () string) : conversation () :=
  match fuel with
  | O => conv_fail "out of fuel"
  | S fuel =>
      let! size := read_u64 in
      if (0 =? size)%Z then conv_ret tt
      else
        let! iterations := read_u64 in
        let! first := read_u64 in
        if (capacity / WORD <? size / WORD)%Z then conv_fail "size exceeds capacity"
        else
          let! _ := ack in
          let! report := measure first (Z.to_nat iterations) in
          let! _ := conv_of (print size report) in
          serve_batches fuel capacity print
  end.

(** [target] once it has accepted the initiator: what it exposes, its own address, and what
    inserting the initiator's gives. *)
Definition target_session (fuel : nat) (capacity : Z) (exposed : Exposed) (address : result (list u8) string)
    (insert : list u8 → result () string) (print : Z → Report → result () string) : conversation () :=
  let! address := conv_of address in
  let! _ := write_bytes address in
  let! _ := write_u64 (exposed_key exposed) in
  let! _ := write_u64 (exposed_address exposed) in
  let! _ := write_u64 capacity in
  let! initiator := read_bytes in
  let! _ := conv_of (insert initiator) in
  let! _ := ack in
  serve_batches fuel capacity print.

End target.

(** [target] up to where it listens: an efa endpoint, and the buffer exposed; [pin] binds the
    thread to a core.  A failure drops the target. *)
Section target_setup.
  Context `{Libfabric, LibfabricFlags, FabricSetup, TargetFabric}.

Definition margin_target (pin : Z → result () string) (pointer capacity : Z) (pins : option (Z * Z)) (write_only : bool)
    (ev : list setup_event) (tr : list target_call) :
    result (Target * Exposed) string * list setup_event * list target_call :=
  if negb (capacity mod LINE =? 0)%Z then (Err ("--capacity must be a multiple of " +:+ pretty LINE), ev, tr)
  else
    match (match pins with Some (_, signal) => pin signal | None => Ok tt end) with
    | Err error => (Err error, ev, tr)
    | Ok _ =>
        match target_open true None ev with
        | (Err error, ev) => (Err error, ev, tr)
        | (Ok t, ev) =>
            match target_expose pointer capacity (negb write_only) t tr with
            | (Err error, t, tr) => (Err error, target_drop t ev, tr)
            | (Ok exposed, t, tr) => (Ok (t, exposed), ev, tr)
            end
        end
    end.

End target_setup.

(** ** The two ends agree *)

Section binds.
  Context {A B : Type} (f : A → conversation B).

Lemma bind_write_u64 value (p : conversation A) :
  conv_bind (let! _ := write_u64 value in p) f = let! _ := write_u64 value in conv_bind p f.
Proof. done. Qed.

Lemma bind_read_u64 (p : Z → conversation A) :
  conv_bind (let! x := read_u64 in p x) f = let! x := read_u64 in conv_bind (p x) f.
Proof. done. Qed.

Lemma bind_ack (p : conversation A) : conv_bind (let! _ := ack in p) f = let! _ := ack in conv_bind p f.
Proof. done. Qed.

Lemma bind_await_ack (p : conversation A) : conv_bind (let! _ := await_ack in p) f = let! _ := await_ack in conv_bind p f.
Proof. done. Qed.

Lemma bind_ret (a : A) : conv_bind (conv_ret a) f = f a.
Proof. done. Qed.

Lemma bind_Ok (a : A) : conv_bind (conv_of (Ok a)) f = f a.
Proof. done. Qed.

End binds.

(** The words a transfer sends all show its generation. *)
Definition shows (g : Generation) : Prop :=
  Forall (λ word, word = number g) (take (Z.to_nat (g_length g / WORD)) (payload g)).

(** A transfer of the payload's first bytes, all of the newest generation, to the start of
    the target's buffer and within it. *)
Record whole (capacity words_at : Z) (exposed : Exposed) (address : list u8) (request : TransferRequest Generation) : Prop := {
  wh_peer : peer_address request = address;
  wh_key : Worker.remote_key request = exposed_key exposed;
  wh_address : Worker.remote_address request = exposed_address exposed;
  wh_direction : direction request = ToPeer;
  wh_source : generation_source words_at (request_context request) = Some (Slice words_at (g_length (request_context request)));
  wh_length : (0 < g_length (request_context request) ≤ capacity)%Z;
  wh_shows : shows (request_context request);
}.

Section agree.
  Variables (local address : list u8) (exposed : Exposed) (capacity words_at iterations : Z).
  Variables (register : list Z → result () DmaError) (transfer : TransferRequest Generation → attempt (result () DmaError)).
  Variables (report_latencies : Z → result () string) (print : Z → Report → result () string) (sight : Z → sighting).
  (** The service carries out every such transfer, and nothing that is reported fails. *)
  Hypothesis transfers : ∀ request, whole capacity words_at exposed address request → transfer request = Completed (Ok tt).
  Hypothesis reports : ∀ size report, print size report = Ok tt ∧ report_latencies size = Ok tt.
  (** The watcher answers for each generation in time. *)
  Hypothesis watches : ∀ g, ∃ landing, watched (sight g) = Some (g, landing).

Lemma next_generation_length size g : length (payload (next_generation size g)) = length (payload g).
Proof. cbn. rewrite length_app, length_replicate, length_drop. lia. Qed.

Lemma next_generation_whole size g :
  (0 < size ≤ capacity)%Z → (size mod LINE = 0)%Z → (size / WORD ≤ Z.of_nat (length (payload g)))%Z →
  whole capacity words_at exposed address
    (generation_request address (exposed_key exposed) (exposed_address exposed) (next_generation size g)).
Proof.
  intros Hsize Hline Hwords. unfold WORD, LINE in *.
  assert (size = 8 * (size / 8))%Z as Height.
  { pose proof (Z.div_mod size 64 ltac:(lia)) as Hd. rewrite Hline in Hd. rewrite Hd at 2.
    rewrite Z.add_0_r, (Z.mul_comm 64), (Z.mul_comm _ 64). replace (64 * (size / 64))%Z with (8 * (size / 64) * 8)%Z by lia.
    rewrite Z.div_mul by lia. lia. }
  assert (Z.to_nat (size / 8) ≤ length (payload g)) as Hle by lia.
  pose proof (next_generation_length size g) as Hlen.
  split; try done.
  - cbn [request_context generation_request]. unfold generation_source. rewrite Hlen. cbn [g_length next_generation].
    unfold WORD. destruct (Z.leb_spec size (8 * Z.of_nat (length (payload g)))); [done|lia].
  - unfold shows. cbn. unfold WORD. rewrite Nat.min_l by done. rewrite take_app_length' by (by rewrite length_replicate).
    apply Forall_replicate. done.
Qed.

(** One generation: the signal one way, the ack the other. *)
Lemma generation_round {A B} size g report (p : Generation → conversation A) (q : Report → conversation B) y :
  (0 < size ≤ capacity)%Z → (size mod LINE = 0)%Z → (size / WORD ≤ Z.of_nat (length (payload g)))%Z →
  in_u64 (number g + 1) →
  (∀ report', rtc meets (in_step (p (next_generation size g)) (q report')) y) →
  rtc meets
    (in_step (conv_bind (write_generation transfer address (exposed_key exposed) (exposed_address exposed) size g) p)
             (conv_bind (measure_one sight (number g + 1) report) q)) y.
Proof.
  intros Hsize Hline Hwords Hnum Hnext. unfold write_generation. rewrite transfers by by apply next_generation_whole.
  cbn [number next_generation]. unfold measure_one. rewrite bind_write_u64, bind_await_ack, bind_ret, bind_read_u64.
  destruct (watches (number g + 1)) as [landing Hw].
  etrans; [by apply u64_there|]. cbv beta zeta. rewrite Z.eqb_refl. cbn [negb]. rewrite Hw, Z.eqb_refl. cbn [negb].
  rewrite bind_ack, bind_ret. etrans; [apply ack_here|apply Hnext].
Qed.

Lemma generation_rounds {A B} n size g report (p : Generation → conversation A) (q : Report → conversation B) y :
  (0 < size ≤ capacity)%Z → (size mod LINE = 0)%Z → (size / WORD ≤ Z.of_nat (length (payload g)))%Z →
  (0 ≤ number g)%Z → in_u64 (number g + Z.of_nat n) →
  (∀ report' g', number g' = (number g + Z.of_nat n)%Z → length (payload g') = length (payload g) →
    rtc meets (in_step (p g') (q report')) y) →
  rtc meets
    (in_step (conv_bind (write_generations transfer n address (exposed_key exposed) (exposed_address exposed) size g) p)
             (conv_bind (measure_from sight n (number g + 1) report) q)) y.
Proof.
  intros Hsize Hline. revert g report. induction n as [|n IH]; intros g report Hwords H0 Hnum Hnext.
  { apply Hnext; [|done]. lia. }
  cbn [write_generations measure_from]. rewrite !conv_bind_assoc. unfold in_u64 in Hnum.
  apply generation_round; [done..|unfold in_u64; lia|]. intros report1.
  apply (IH (next_generation size g)); rewrite ?next_generation_length; cbn [number next_generation];
    [done|lia|unfold in_u64; lia|].
  intros report' g' Hn Hl. apply Hnext; [lia|done].
Qed.

(** What a sweep is asked for. *)
Definition sweepable (words : nat) (size : Z) : Prop :=
  (0 < size ≤ capacity)%Z ∧ (size mod LINE = 0)%Z ∧ (size / WORD ≤ Z.of_nat words)%Z.

Lemma sweep_served fuel sizes g :
  Forall (sweepable (length (payload g))) sizes → length sizes < fuel → in_u64 capacity → in_u64 iterations →
  (0 ≤ number g)%Z → in_u64 (number g + Z.of_nat (length sizes) * iterations + 1) →
  rtc meets
    (in_step (let! _ := sweep_sizes transfer report_latencies sizes iterations address (exposed_key exposed)
                          (exposed_address exposed) capacity g in write_u64 0)
             (serve_batches sight fuel capacity print))
    (in_step (conv_ret tt) (conv_ret tt)).
Proof.
  intros Hsizes Hfuel Hcap Hit. revert fuel g Hsizes Hfuel. induction sizes as [|size sizes IH]; intros fuel g Hsizes Hfuel H0 Hnum.
  all: destruct fuel as [|fuel]; [simpl in Hfuel; lia|].
  { cbn [sweep_sizes serve_batches]. rewrite bind_ret. change (write_u64 0) with (let! _ := write_u64 0 in conv_ret tt).
    by apply (u64_there 0). }
  apply Forall_cons in Hsizes as [(Hsize & Hline & Hwords) Hsizes]. unfold in_u64 in *. cbn [length] in Hnum, Hfuel.
  cbn [sweep_sizes serve_batches]. rewrite (proj2 (Z.eqb_neq 0 size)), (proj2 (Z.eqb_eq (size mod LINE) 0)),
    (proj2 (Z.ltb_ge capacity size)) by lia. cbn [orb negb]. rewrite !conv_bind_assoc.
  etrans; [apply (u64_there size); unfold in_u64; lia|]. cbv beta. rewrite (proj2 (Z.eqb_neq 0 size)) by lia.
  etrans; [apply (u64_there iterations); unfold in_u64; lia|]. cbv beta.
  etrans; [apply (u64_there (number g + 1)); unfold in_u64; nia|]. cbv beta.
  rewrite (proj2 (Z.ltb_ge _ _)) by (apply Z.div_le_mono; unfold WORD; lia).
  etrans; [apply ack_here|]. unfold measure.
  apply generation_rounds; [done..|unfold in_u64; nia|]. intros report g' Hn Hl.
  destruct (reports size report) as [-> ->]. rewrite !bind_Ok.
  apply IH; [by rewrite Hl|lia|lia|]. rewrite Hn, Z2Nat.id by lia. lia.
Qed.

Lemma largest_ge sizes size : size ∈ sizes → (size ≤ largest sizes)%Z.
Proof. induction sizes as [|x sizes IH]; [set_solver|]. intros [->|Hin%IH]%elem_of_cons; simpl; lia. Qed.

(** C35: The two ends agree.  A target that exposes a buffer and an initiator whose service
    carries out the transfers asked of it, each of them the whole of a fresh generation
    written inside that buffer under the key and address the target sent, come to their end
    together whatever order their turns fall in: no read waits for bytes that were not sent,
    no generation or ack is taken for another, nothing is left unread, and the number of turns
    is bounded. *)
Theorem sessions_agree insert sizes fuel
  (Hlocal : in_u64 (Z.of_nat (length local))) (Haddress : in_u64 (Z.of_nat (length address)))
  (Hkey : in_u64 (exposed_key exposed)) (Hat : in_u64 (exposed_address exposed)) (Hcap : in_u64 capacity)
  (Hregister : ∀ words, register words = Ok tt) (Hinsert : insert local = Ok tt)
  (Hit : in_u64 iterations) (Hsizes : Forall (λ size, (0 < size ≤ capacity)%Z ∧ (size mod LINE = 0)%Z) sizes)
  (Hcount : in_u64 (Z.of_nat (length sizes) * iterations + 1)) (Hfuel : length sizes < fuel) :
  comes_to
    (meeting_new (initiator (Ok local) register transfer report_latencies sizes iterations)
                 (target_session sight fuel capacity exposed (Ok address) insert print))
    (Ok tt) (Ok tt).
Proof.
  apply one_run_suffices. unfold initiator, target_session. rewrite bind_Ok.
  etrans; [by apply bytes_here|]. cbv beta. etrans; [by apply u64_here|]. cbv beta. etrans; [by apply u64_here|]. cbv beta.
  etrans; [by apply u64_here|]. cbv beta. cbn [in_text]. rewrite bind_Ok.
  etrans; [by apply bytes_there|]. cbv beta. rewrite Hinsert, bind_Ok.
  etrans; [apply ack_here|]. cbv zeta. rewrite Hregister. cbn [in_text]. rewrite bind_Ok.
  apply sweep_served; cbn [payload number]; try done. rewrite length_replicate. apply Forall_forall. intros size Hin.
  rewrite Forall_forall in Hsizes. destruct (Hsizes size Hin) as [Hpos Hline]. split; [done|]. split; [done|].
  apply largest_ge in Hin. rewrite Z2Nat.id by (apply Z.div_pos; unfold WORD; lia). apply Z.div_le_mono; [unfold WORD|]; lia.
Qed.

End agree.

(** ** What the watcher brackets *)

(** The last word of each page that the words reach into. *)
Lemma probes_last words i :
  i ∈ probes words ↔ i < words ∧ (S i `mod` words_per_page = 0 ∨ S i = words).
Proof.
  unfold probes. rewrite list_elem_of_fmap. setoid_rewrite elem_of_seq.
  assert (words_per_page = 512) as -> by done. split.
  - intros (page & -> & Hpage). pose proof (Nat.div_mod (words + 512 - 1) 512 ltac:(lia)) as Hd.
    pose proof (Nat.mod_upper_bound (words + 512 - 1) 512 ltac:(lia)). split; [lia|].
    destruct (decide (S page * 512 ≤ words)); [left|right; lia].
    rewrite Nat.min_l by lia. replace (S (S page * 512 - 1)) with (S page * 512) by lia. apply Nat.Div0.mod_mul.
  - intros [Hi Hend]. exists (i / 512). pose proof (Nat.div_mod i 512 ltac:(lia)) as Hd.
    pose proof (Nat.mod_upper_bound i 512 ltac:(lia)) as Hm.
    assert (i / 512 < (words + 512 - 1) / 512) as Hlt.
    { apply Nat.Div0.div_lt_upper_bound. pose proof (Nat.div_mod (words + 512 - 1) 512 ltac:(lia)).
      pose proof (Nat.mod_upper_bound (words + 512 - 1) 512 ltac:(lia)). lia. }
    split; [|lia]. destruct Hend as [Hend|]; [|lia].
    pose proof (Nat.div_mod (S i) 512 ltac:(lia)) as Hs. rewrite Hend in Hs. lia.
Qed.

(** The watcher answers for the generations in turn, each once. *)
Lemma watch_numbers clock load fuel iterations listened ticks words generation l :
  watch clock load fuel iterations listened ticks words generation = Some l →
  length l = iterations `min` listened ∧ l.*1 = (λ k, generation + Z.of_nat k)%Z <$> seq 0 (length l).
Proof.
  revert listened ticks generation l. induction iterations as [|iterations IH]; intros listened ticks generation l.
  { by intros [= <-]. }
  cbn [watch]. destruct (watch_one _ _ _ _ _ _) as [[landing ticks']|]; [|done]. cbn.
  destruct listened as [|listened]; [by intros [= <-]|].
  destruct (watch _ _ fuel iterations listened ticks' words (generation + 1)) as [rest|] eqn:Hrest; [|done].
  intros [= <-]. destruct (IH _ _ _ _ Hrest) as [Hl Hn]. cbn [length]. split; [lia|].
  rewrite fmap_cons, Hn. cbn [seq fmap list_fmap fst]. rewrite Z.add_0_r, <-fmap_S_seq, <-list_fmap_compose. f_equal.
  apply list_fmap_ext. intros k i _. simpl. lia.
Qed.

Section brackets.
  Variables (clock : nat → Z) (load : nat → nat → Z).
  (** When each load happens, and when the generation lands in each word: a word shows it
      from then on. *)
  Variables (happens : nat → Z) (generation : Z) (lands : nat → Z).
  Hypothesis clock_mono : ∀ n, (clock n ≤ clock (S n))%Z.
  Hypothesis between_readings : ∀ n, (clock n ≤ happens (S n) ≤ clock (S n))%Z.
  Hypothesis shown : ∀ n word, load (S n) word = generation ↔ (lands word ≤ happens (S n))%Z.

Lemma watch_loop_brackets fuel ticks deadline pending old r ticks' :
  watch_loop clock load fuel ticks generation deadline pending old = Some (r, ticks') →
  match r with
  | Some l => (∀ i, i ∈ pending → (lands i ≤ first_new l)%Z) ∧ (clock ticks ≤ first_new l)%Z ∧
      (∃ n, first_new l = clock n) ∧
      (last_old l = old ∨ ∃ n i, last_old l = clock n ∧ i ∈ pending ∧ (last_old l < lands i)%Z)
  | None => ∃ i, i ∈ pending ∧ (deadline < lands i)%Z
  end.
Proof.
  revert ticks pending old. induction fuel as [|fuel IH]; intros ticks pending old; [done|]. cbn [watch_loop].
  pose proof (clock_mono ticks) as Hm. pose proof (between_readings ticks) as Hb.
  destruct pending as [|word rest]; [intros [= <- <-]; cbn; split_and!; [set_solver|lia|by eexists|by left]|].
  destruct (Z.eqb_spec generation (load (S ticks) word)) as [Hl|Hl].
  - symmetry in Hl. apply shown in Hl. intros Hr. specialize (IH _ _ _ Hr). destruct r as [l|]; [|set_solver].
    destruct IH as (Hall & Hle & Hnew & Hold). split_and!; [|lia|done|set_solver].
    intros i [->|Hi]%elem_of_cons; [lia|by apply Hall].
  - assert (happens (S ticks) < lands word)%Z as Hlate.
    { apply Z.nle_gt. intros Hle. by apply Hl; symmetry; apply shown. }
    destruct (Z.ltb_spec deadline (clock ticks)).
    + intros [= <- <-]. exists word. split; [set_solver|lia].
    + intros Hr. specialize (IH _ _ _ Hr). destruct r as [l|]; [|done]. destruct IH as (Hall & Hle & Hnew & Hold).
      split_and!; [done|lia|done|]. right. destruct Hold as [->|Hold]; [|done]. exists ticks, word.
      split_and!; [done|set_solver|lia].
Qed.

(** The loop ends: by when the clock is past the deadline each turn uses up a word or stops. *)
Lemma watch_loop_ends fuel ticks T deadline pending old :
  (∀ n, T ≤ n → (deadline < clock n)%Z) → length pending + (T - ticks) < fuel →
  is_Some (watch_loop clock load fuel ticks generation deadline pending old).
Proof.
  intros HT. revert ticks pending old. induction fuel as [|fuel IH]; intros ticks pending old Hfuel; [lia|]. cbn [watch_loop].
  destruct pending as [|word rest]; [by eexists|]. cbn [length] in Hfuel.
  destruct (_ =? _)%Z; [apply IH; lia|]. destruct (Z.ltb_spec deadline (clock ticks)); [by eexists|].
  apply IH. cbn [length]. destruct (decide (T ≤ ticks)) as [Hle%HT|]; [lia|lia].
Qed.

Lemma signed_nanoseconds_exact from to :
  (0 ≤ from < 2 ^ 63)%Z → (0 ≤ to < 2 ^ 63)%Z → signed_nanoseconds from to = (to - from)%Z.
Proof.
  intros Hf Ht. unfold signed_nanoseconds, as_i64. change (2 ^ 64)%Z with (2 * 2 ^ 63)%Z.
  destruct (Z.leb_spec from to); rewrite Z.mod_small by lia; case_match eqn:Hlt; (apply Z.ltb_lt in Hlt || apply Z.ltb_ge in Hlt); lia.
Qed.

(** C36: What the watcher brackets, and what a margin means.  Once the clock is past the
    deadline the watcher has an answer.  If it says a generation landed, every probed word had
    it by [first_new] and some word still had not at [last_old], however the watcher was
    stalled in between; so the window is never negative, and a negative margin is a race that
    happened: a word landed after the signal arrived.  If it says the generation was lost,
    some word had not landed by the deadline. *)
Theorem watch_brackets fuel ticks words T
  (Hwords : 0 < words) (Hfresh : ∀ i, i ∈ probes words → (clock (S ticks) < lands i)%Z)
  (Hclock : ∀ n, (0 ≤ clock n < 2 ^ 63)%Z) (HT : ∀ n, T ≤ n → (clock ticks + LANDING_DEADLINE < clock n)%Z)
  (Hfuel : length (probes words) + T < fuel) :
  ∃ r ticks', watch_one clock load fuel ticks words generation = Some (r, ticks') ∧
    match r with
    | Some l =>
        (∀ i, i ∈ probes words → (lands i ≤ first_new l)%Z) ∧
        (∃ i, i ∈ probes words ∧ (last_old l < lands i)%Z) ∧
        (0 < signed_nanoseconds (last_old l) (first_new l))%Z ∧
        ∀ arrived, (0 ≤ arrived < 2 ^ 63)%Z → (signed_nanoseconds (last_old l) arrived < 0)%Z →
          ∃ i, i ∈ probes words ∧ (arrived < lands i)%Z
    | None => ∃ i, i ∈ probes words ∧ (clock ticks + LANDING_DEADLINE < lands i)%Z
    end.
Proof.
  destruct (watch_loop_ends fuel (S (S ticks)) T (clock ticks + LANDING_DEADLINE) (probes words) (clock (S ticks)))
    as [[r ticks'] Hr]; [done|lia|]. exists r, ticks'. split; [done|].
  apply watch_loop_brackets in Hr. destruct r as [l|]; [|done]. destruct Hr as (Hall & _ & [n Hnew] & Hold).
  assert (∃ m i, last_old l = clock m ∧ i ∈ probes words ∧ (last_old l < lands i)%Z) as (m & i & Hm & Hi & Hlt).
  { destruct Hold as [Hold|?]; [|done]. exists (S ticks), (words - 1).
    assert (words - 1 ∈ probes words) as Hin by (apply probes_last; lia).
    rewrite Hold. split_and!; [done|done|by apply Hfresh]. }
  pose proof (Hclock m). pose proof (Hclock n). specialize (Hall i Hi) as Hle. split_and!; [done|by exists i| |].
  - rewrite signed_nanoseconds_exact by lia. lia.
  - intros arrived Harr. rewrite signed_nanoseconds_exact by lia. intros Hneg. exists i. split; [done|lia].
Qed.

End brackets.

(** ** Witnesses: two sizes of two generations, and a landing on two pages *)

Definition example_exposed : Exposed := {| exposed_key := 9; exposed_address := 4096 |}.

Definition example_sight (g : Z) : sighting :=
  {| arrived := 10; rescan := [g; g]; watched := Some (g, Some {| last_old := 3; first_new := 5 |}) |}.

Definition example_meeting : meeting () () :=
  meeting_new
    (initiator (Ok [Byte.x01; Byte.x02]) (λ _, Ok tt) (λ _, Completed (Ok tt)) (λ _, Ok tt) [64; 128]%Z 2)
    (target_session example_sight 3 256 example_exposed (Ok [Byte.x03]) (λ _, Ok tt) (λ _ _, Ok tt)).

(** Turns of the first end that can, [n] of them. *)
Fixpoint run_first {A B} (n : nat) (m : meeting A B) : meeting A B :=
  match n with
  | O => m
  | S n =>
      match turn (ended (there m)) (here m) (to_here m) with
      | Some (p, i, out) => run_first n {| here := p; to_here := i; there := there m; to_there := to_there m ++ out |}
      | None =>
          match turn (ended (here m)) (there m) (to_there m) with
          | Some (q, i, out) => run_first n {| here := here m; to_here := to_here m ++ out; there := q; to_there := i |}
          | None => m
          end
      end
  end.

Lemma sessions_agree_witness :
  run_first 100 example_meeting = meeting_new (Done (Ok tt)) (Done (Ok tt)) ∧ comes_to example_meeting (Ok tt) (Ok tt).
Proof.
  split; [vm_compute; reflexivity|]. unfold example_meeting.
  apply (sessions_agree [Byte.x01; Byte.x02] [Byte.x03] example_exposed 256 0 2); try done.
  - intros g. by eexists.
  - repeat constructor; lia.
  - simpl. lia.
Defined.

Definition example_clock (n : nat) : Z := Z.min (10 ^ 9 * Z.of_nat n) (2 ^ 62).
Definition example_lands (word : nat) : Z := if decide (word < 512) then 2500000000 else 4500000000.
Definition example_load (n word : nat) : Z := if (example_lands word <=? example_clock n)%Z then 7 else 6.

Lemma watch_brackets_witness :
  watch_one example_clock example_load 20 0 600 7 =
    Some (Some {| last_old := 3000000000; first_new := 5000000000 |}, 6) ∧
  ∃ r ticks', watch_one example_clock example_load 20 0 600 7 = Some (r, ticks') ∧
    match r with
    | Some l => (∀ i, i ∈ probes 600 → (example_lands i ≤ first_new l)%Z) ∧ (0 < signed_nanoseconds (last_old l) (first_new l))%Z
    | None => False
    end.
Proof.
  assert (watch_one example_clock example_load 20 0 600 7 =
    Some (Some {| last_old := 3000000000; first_new := 5000000000 |}, 6)) as Heq by (vm_compute; reflexivity).
  split; [exact Heq|].
  assert (∀ n, (example_clock n ≤ example_clock (S n))%Z) as Hmono by (intros n; unfold example_clock; lia).
  destruct (watch_brackets example_clock example_load example_clock 7 example_lands Hmono) with
    (fuel := 20) (ticks := 0) (words := 600) (T := 6) as (r & ticks' & Hr & Hcase).
  - intros n. split; [apply Hmono|done].
  - intros n word. unfold example_load. destruct (Z.leb_spec (example_lands word) (example_clock (S n))); lia.
  - lia.
  - intros i _. unfold example_clock, example_lands. destruct (decide _); lia.
  - intros n. unfold example_clock. lia.
  - intros n Hn. unfold example_clock, LANDING_DEADLINE, from_secs. lia.
  - vm_compute. lia.
  - exists r, ticks'. split; [done|]. rewrite Heq in Hr. injection Hr as <- <-. destruct Hcase as (? & _ & ? & _). by split.
Defined.
