(* ===== verification/FabricTransport.v ===== *)
(** * The endpoint as the worker's transport

    The worker of [Worker] is written against the interface [Transport]; here
    [Endpoint], with the registration cache and the history of calls, implements it, and
    the interface's laws follow from what libfabric promises of a completion queue. *)

From S2P Require Import Prelude Arc Wire Fabric RegionCache Operands PeerAddresses Config Endpoint.
From S2P Require Import Worker.

(** The endpoint with what its operations share. *)
Record engine := Engine {
  e_endpoint : Endpoint;
  e_cache : cache;
  e_trace : trace;
}.

Section transport.
  Context `{Libfabric}.
  Implicit Types (e : engine).

Definition engine_insert_peer (client : Z) (address : list u8) e : result nat DmaError * engine :=
  let '(r, ep, tr) := insert_peer client address (e_endpoint e) (e_trace e) in
  (r, Engine ep (e_cache e) tr).

Definition engine_drop_peer (i : nat) e : engine :=
  let '(ep, tr) := drop_peer i (e_endpoint e) (e_trace e) in Engine ep (e_cache e) tr.

Definition engine_release_peer (client : Z) e : engine :=
  let '(ep, tr) := Endpoint.release_peer client (e_endpoint e) (e_trace e) in Engine ep (e_cache e) tr.

Definition engine_pin_region (b length : Z) e : result () DmaError * engine :=
  let '(r, c, tr) := pin_region b length (e_endpoint e) (e_cache e) (e_trace e) in
  (r, Engine (e_endpoint e) c tr).

Definition engine_local_operand (ptr length : Z) (span : option CacheableSpan) e :
    result LocalOperand DmaError * engine :=
  let '(r, c, tr) := local_operand ptr length span (e_endpoint e) (e_cache e) (e_trace e) in
  (r, Engine (e_endpoint e) c tr).

Definition engine_drop_lease (lease : option nat) e : engine :=
  let '(c, tr) := RegionCache.release (option_list lease) (e_cache e) (e_trace e) in
  Engine (e_endpoint e) c tr.

Definition engine_post_out (i : nat) (key address : Z) (bytes : slice) (descriptor context : Z) e :
    Z * engine :=
  let '(code, tr) := post_out (connection i key address (e_endpoint e)) bytes descriptor context (e_trace e) in
  (code, Engine (e_endpoint e) (e_cache e) tr).

Definition engine_post_in (i : nat) (key address : Z) (bytes : slice) (descriptor context : Z) e :
    Z * engine :=
  let '(code, tr) := post_in (connection i key address (e_endpoint e)) bytes descriptor context (e_trace e) in
  (code, Engine (e_endpoint e) (e_cache e) tr).

Definition engine_reap (max : nat) e : result () DmaError * list completion * engine :=
  match reap (completion_queue (e_endpoint e)) max [] (e_trace e) with
  | Some (r, out, tr) => (r, out, Engine (e_endpoint e) (e_cache e) tr)
  | None => (Ok tt, [], e)
  end.

#[export] Instance engine_transport : Transport engine := {|
  t_insert_peer := engine_insert_peer;
  t_drop_peer := engine_drop_peer;
  t_release_peer := engine_release_peer;
  t_pin_region := engine_pin_region;
  t_local_operand := engine_local_operand;
  t_drop_lease := engine_drop_lease;
  t_post_out := engine_post_out;
  t_post_in := engine_post_in;
  t_reap := engine_reap;
  t_max_tx e := max_tx (e_endpoint e);
  t_again := - FI_EAGAIN;
  t_error := fabric_error;
|}.

(** ** Which operations the fabric has *)

Fixpoint remove_one (x : Z) (l : list Z) : list Z :=
  match l with
  | [] => []
  | y :: l => if decide (y = x) then l else y :: remove_one x l
  end.

(** The contexts in flight after a call, given those before it. *)
Definition fly (before : trace) (flying : list Z) (call : fabric_call) : list Z :=
  match call with
  | WriteMsg _ _ _ _ _ _ _ context _ =>
      if decide (fi_writemsg before = 0%Z) then context :: flying else flying
  | Read _ _ _ _ _ _ _ context =>
      if decide (fi_read before = 0%Z) then context :: flying else flying
  | CqRead _ _ | CqReadErr _ => foldl (λ l x, remove_one x l) flying (cq_answer before call).*1
  | _ => flying
  end.

Fixpoint flying_from (before : trace) (flying : list Z) (calls : trace) : list Z :=
  match calls with
  | [] => flying
  | call :: calls => flying_from (before ++ [call]) (fly before flying call) calls
  end.

Definition flying (tr : trace) : list Z := flying_from [] [] tr.

End transport.

(** What libfabric promises of completions: each is of an operation posted on the
    endpoint and not yet reported. *)
Class CompletionLaws `{Libfabric} : Prop := {
  completes_posted tr call : (cq_answer tr call).*1 ⊆+ flying tr;
}.

Lemma remove_one_Permutation x l : x ∈ l → l ≡ₚ x :: remove_one x l.
Proof.
  induction l as [|y l IH]; simpl; [set_solver|]. intros Hx. case_decide; [by subst|].
  rewrite (IH ltac:(set_solver)) at 1. constructor.
Qed.

Lemma remove_all_Permutation xs l : xs ⊆+ l → l ≡ₚ xs ++ foldl (λ l x, remove_one x l) l xs.
Proof.
  revert l. induction xs as [|x xs IH]; intros l Hs; simpl; [done|].
  assert (l ≡ₚ x :: remove_one x l) as Hl.
  { apply remove_one_Permutation. eapply elem_of_submseteq; [|exact Hs]. set_solver. }
  rewrite Hl at 1. constructor. apply IH. rewrite Hl in Hs. by apply submseteq_cons_l_inv in Hs
    || (apply submseteq_Permutation in Hs as [k Hk]; simpl in Hk; apply Permutation_cons_inv in Hk;
        rewrite Hk; by apply submseteq_inserts_r).
Qed.

Section laws.
  Context `{Libfabric, !CompletionLaws}.

Lemma flying_from_app before cur calls1 calls2 :
  flying_from before cur (calls1 ++ calls2) =
  flying_from (before ++ calls1) (flying_from before cur calls1) calls2.
Proof.
  revert before cur. induction calls1 as [|c calls1 IH]; intros before cur; simpl; [by rewrite app_nil_r|].
  by rewrite IH, <-(assoc_L (++)).
Qed.

Lemma flying_app tr calls : flying (tr ++ calls) = flying_from tr (flying tr) calls.
Proof. apply (flying_from_app []). Qed.

(** Calls that neither post, nor complete, nor close one of the endpoint's objects. *)
Definition quiet_call (call : fabric_call) : Prop :=
  match call with
  | WriteMsg _ _ _ _ _ _ _ _ _ | Read _ _ _ _ _ _ _ _ | CqRead _ _ | CqReadErr _ | Close _ => False
  | _ => True
  end.

Lemma flying_quiet tr calls : Forall quiet_call calls → flying (tr ++ calls) = flying tr.
Proof.
  intros Hq. rewrite flying_app. generalize (flying tr) as cur. revert tr.
  induction Hq as [|c calls Hc _ IH]; intros tr cur; simpl; [done|]. rewrite IH. by destruct c.
Qed.

Lemma flying_queue_calls tr calls :
  Forall queue_call calls → flying tr ≡ₚ (cq_completions tr calls).*1 ++ flying (tr ++ calls).
Proof.
  intros Hq. revert tr. induction Hq as [|c calls Hc _ IH]; intros tr; simpl; [by rewrite app_nil_r|].
  rewrite fmap_app, <-(assoc_L (++)). rewrite (remove_all_Permutation _ _ (completes_posted tr c)) at 1.
  apply Permutation_app_head. replace (tr ++ c :: calls) with ((tr ++ [c]) ++ calls)
    by (by rewrite <-(assoc_L (++))).
  rewrite <-IH, flying_app. simpl. by destruct c.
Qed.

(** The calls an operation makes, by kind. *)
Definition made (P : fabric_call → Prop) (tr tr' : trace) : Prop :=
  ∃ calls, tr' = tr ++ calls ∧ Forall P calls.

(** Every operation but a post and a reap makes only quiet calls. *)
Definition quietly : trace → trace → Prop := made quiet_call.

(** Those on peers touch the address vector only. *)
Definition peer_call (call : fabric_call) : Prop :=
  match call with AvInsert _ _ | AvRemove _ _ => True | _ => False end.

Lemma made_refl P tr : made P tr tr.
Proof. exists []. by rewrite app_nil_r. Qed.

Lemma made_trans P tr1 tr2 tr3 : made P tr1 tr2 → made P tr2 tr3 → made P tr1 tr3.
Proof.
  intros (c1 & -> & H1) (c2 & -> & H2). exists (c1 ++ c2). rewrite (assoc_L (++)).
  split; [done|]. by apply Forall_app.
Qed.

Lemma made_1 (P : fabric_call → Prop) tr call : P call → made P tr (tr ++ [call]).
Proof. intros Hc. exists [call]. split; [done|]. by repeat constructor. Qed.

Lemma made_impl (P Q : fabric_call → Prop) tr tr' : (∀ call, P call → Q call) → made P tr tr' → made Q tr tr'.
Proof. intros HPQ (calls & -> & Hc). exists calls. split; [done|]. by eapply Forall_impl. Qed.

(** Those on memory, registrations only. *)
Definition memory_call (call : fabric_call) : Prop :=
  match call with MrReg _ _ _ | MrClose _ => True | _ => False end.

Lemma memory_calls_quiet tr tr' : made memory_call tr tr' → quietly tr tr'.
Proof. apply made_impl. by intros []. Qed.

Lemma peer_calls_quiet tr tr' : made peer_call tr tr' → quietly tr tr'.
Proof. apply made_impl. by intros []. Qed.

Lemma quietly_refl tr : quietly tr tr.
Proof. apply made_refl. Qed.

Lemma quietly_trans tr1 tr2 tr3 : quietly tr1 tr2 → quietly tr2 tr3 → quietly tr1 tr3.
Proof. apply made_trans. Qed.

Lemma quietly_1 tr call : quiet_call call → quietly tr (tr ++ [call]).
Proof. apply made_1. Qed.

Lemma quietly_flying tr tr' : quietly tr tr' → flying tr' = flying tr.
Proof. intros (calls & -> & Hq). by apply flying_quiet. Qed.

Lemma drop_entries_peer_calls ids p tr p' tr' :
  drop_entries ids p tr = (p', tr') → made peer_call tr tr'.
Proof.
  unfold drop_entries. destruct (arc_drop_all _ _) as [h last]. intros; simplify_eq.
  eexists. split; [done|]. apply Forall_fmap, Forall_true. done.
Qed.

Lemma release_memory_calls ids c tr c' tr' : RegionCache.release ids c tr = (c', tr') → made memory_call tr tr'.
Proof.
  unfold RegionCache.release. destruct (arc_drop_all _ _) as [h gone]. intros; simplify_eq.
  eexists. split; [done|]. apply Forall_fmap, Forall_true. done.
Qed.

Lemma handle_insert_peer_calls client slot address p tr r p' tr' :
  handle_insert client slot address p tr = (r, p', tr') → made peer_call tr tr'.
Proof.
  unfold handle_insert. destruct (client_remove _ _ _) as [p1 tr1] eqn:E1.
  apply drop_entries_peer_calls in E1. destruct (peer_address_new _ _) as [key|error]; [|intros; by simplify_eq].
  unfold insert. destruct (fi_av_insert _ _ _) as [inserted h].
  assert (∀ av a, made peer_call tr (tr1 ++ [AvInsert av a])) as Hq.
  { intros. eapply made_trans; [exact E1|by apply made_1]. }
  destruct (1 =? inserted)%Z; [|intros; by simplify_eq].
  destruct (arc_new _ _) as [i hp]. destruct (client_insert _ _ _ _) as [p5 tr5] eqn:E5.
  apply drop_entries_peer_calls in E5. intros; simplify_eq. eapply made_trans; [apply Hq|exact E5].
Qed.

Lemma handle_peer_calls client address p tr r p' tr' :
  handle client address p tr = (r, p', tr') → made peer_call tr tr'.
Proof.
  unfold handle. destruct (identity_len _ _) as [n|error]; [|intros; simplify_eq; apply made_refl].
  destruct (held_for _ _ _) as [[[[] i] q]|].
  - destruct (client_insert _ _ _ _) as [p1 tr1] eqn:E1. intros; simplify_eq.
    by eapply drop_entries_peer_calls.
  - destruct (evict _ _ _) as [p1 tr1] eqn:E1. intros Hi%handle_insert_peer_calls.
    eapply made_trans; [|done]. by eapply drop_entries_peer_calls.
  - by apply handle_insert_peer_calls.
Qed.

Lemma register_memory_calls d ptr n tr r tr' : register d ptr n tr = (r, tr') → made memory_call tr tr'.
Proof.
  unfold register. destruct (fi_mr_reg _ _ _ _). intros; simplify_eq. by apply made_1.
Qed.

Lemma track_memory_calls b l d id c tr c' tr' : track b l d id c tr = (c', tr') → made memory_call tr tr'.
Proof. unfold track. destruct (track_locked _ _ _ _ _). apply release_memory_calls. Qed.

Lemma operand_memory_calls d ptr n span c tr r c' tr' :
  operand d ptr n span c tr = (r, c', tr') → made memory_call tr tr'.
Proof.
  unfold operand. destruct (checked_add _ _) as [limit|]; [|intros; simplify_eq; apply made_refl].
  destruct (covering _ _ _ _) as [[id|] c1]; [intros; simplify_eq; apply made_refl|].
  set (cacheable := span ≫= _). destruct (register_span _ _ _ _ _) as [region tr1] eqn:E1.
  assert (made memory_call tr tr1) as Hq1.
  { unfold register_span in E1. destruct (match cacheable with Some _ => _ | None => _ end) as [b l].
    destruct (register d b _ tr) as [[mr|error] tr2] eqn:E2; apply register_memory_calls in E2; [by simplify_eq|].
    case_decide; [|by simplify_eq].
    destruct (register d ptr _ tr2) as [r3 tr3] eqn:E3. apply register_memory_calls in E3. simplify_eq.
    by eapply made_trans. }
  destruct region as [[[b l] mr]|error]; [|intros; by simplify_eq].
  destruct (registration_new mr c1) as [id c2].
  destruct cacheable as [s|]; [|intros; by simplify_eq].
  destruct (track b l d id c2 tr1) as [c3 tr3] eqn:E3. apply track_memory_calls in E3.
  intros; simplify_eq. by eapply made_trans.
Qed.

Lemma pin_memory_calls d b n c tr r c' tr' : pin d b n c tr = (r, c', tr') → made memory_call tr tr'.
Proof.
  unfold pin. destruct (checked_add _ _) as [limit|]; [|intros; simplify_eq; apply made_refl].
  destruct (register d b n tr) as [[mr|error] tr1] eqn:E1; apply register_memory_calls in E1; [|intros; by simplify_eq].
  destruct (registration_new mr c) as [id c1].
  destruct (track _ _ _ _ _ _) as [c2 tr2] eqn:E2. apply track_memory_calls in E2.
  destruct (RegionCache.release _ _ _) as [c3 tr3] eqn:E3. apply release_memory_calls in E3.
  intros; simplify_eq. eauto using made_trans.
Qed.

Lemma post_flying tr call code context :
  (∀ cur, fly tr cur call = if decide (code = 0%Z) then context :: cur else cur) →
  flying (tr ++ [call]) = (if decide (code = 0%Z) then [context] else []) ++ flying tr.
Proof. intros Hf. rewrite flying_app. simpl. rewrite Hf. by case_decide. Qed.

(** A reap with no null context in flight reads the queue and hands over what it gave. *)
Lemma engine_reap_completions max e r out e' :
  engine_reap max e = (r, out, e') → Forall (λ context, context ≠ 0%Z) (flying (e_trace e)) →
  ∃ calls, e_trace e' = e_trace e ++ calls ∧ Forall queue_call calls ∧ cq_completions (e_trace e) calls = out.
Proof.
  intros Hr Hnn. unfold engine_reap in Hr.
  destruct (reap_loop_spec max (completion_queue (e_endpoint e)) max [] (e_trace e))
    as (r1 & out1 & tr1 & Hreap & Hpost & _); [lia|].
  unfold reap in Hr. rewrite Hreap in Hr. simplify_eq. simpl.
  destruct (reap_loop_calls _ _ _ _ _ _ _ _ Hreap) as (calls & -> & Hq).
  destruct Hpost as (calls' & delivered & lost & Htr & -> & Hcq & _ & _ & Hlost).
  apply app_inv_head in Htr as <-. exists calls. split_and!; [done|done|]. rewrite Hcq.
  destruct lost as [|x rest]; [by rewrite app_nil_r|].
  destruct Hlost as (y & rest' & [= <- <-] & Hx); [done|].
  exfalso. rewrite (flying_queue_calls _ _ Hq), Hcq in Hnn.
  rewrite fmap_app in Hnn. csimpl in Hnn. rewrite !Forall_app, Forall_cons in Hnn. naive_solver.
Qed.

(** The endpoint keeps the promises the worker's proofs rest on. *)
#[export] Program Instance engine_laws : TransportLaws engine := {|
  posted e := flying (e_trace e);
|}.
Next Obligation.
  intros client address e. simpl. unfold engine_insert_peer, insert_peer.
  destruct (handle _ _ _ _) as [[r p] tr] eqn:Eh. simpl. by apply handle_peer_calls, peer_calls_quiet, quietly_flying in Eh.
Qed.
Next Obligation.
  intros i e. simpl. unfold engine_drop_peer, drop_peer.
  destruct (drop_entries _ _ _) as [p tr] eqn:Eh. simpl. by apply drop_entries_peer_calls, peer_calls_quiet, quietly_flying in Eh.
Qed.
Next Obligation.
  intros client e. simpl. unfold engine_release_peer, Endpoint.release_peer, PeerAddresses.release, client_remove.
  destruct (drop_entries _ _ _) as [p tr] eqn:Eh. simpl. by apply drop_entries_peer_calls, peer_calls_quiet, quietly_flying in Eh.
Qed.
Next Obligation.
  intros b l e. simpl. unfold engine_pin_region, pin_region. destruct (negb _); [done|].
  destruct (pin _ _ _ _ _) as [[r c] tr] eqn:Eh. simpl. by apply pin_memory_calls, memory_calls_quiet, quietly_flying in Eh.
Qed.
Next Obligation.
  intros ptr l span e. simpl. unfold engine_local_operand, local_operand. destruct (negb _); [done|].
  destruct (operand _ _ _ _ _ _) as [[r c] tr] eqn:Eh. simpl. by apply operand_memory_calls, memory_calls_quiet, quietly_flying in Eh.
Qed.
Next Obligation.
  intros lease e. simpl. unfold engine_drop_lease.
  destruct (RegionCache.release _ _ _) as [c tr] eqn:Eh. simpl. by apply release_memory_calls, memory_calls_quiet, quietly_flying in Eh.
Qed.
Next Obligation.
  intros i k a s d context e code e' Hp. simpl in *. unfold engine_post_out, post_out in Hp. simplify_eq. simpl.
  by rewrite (post_flying _ _ (fi_writemsg (e_trace e)) context).
Qed.
Next Obligation.
  intros i k a s d context e code e' Hp. simpl in *. unfold engine_post_in, post_in in Hp. simplify_eq. simpl.
  by rewrite (post_flying _ _ (fi_read (e_trace e)) context).
Qed.
Next Obligation.
  intros max e r out e' Hr Hnn. simpl in *.
  destruct (engine_reap_completions _ _ _ _ _ Hr Hnn) as (calls & -> & Hq & <-).
  by apply flying_queue_calls.
Qed.

End laws.

(** ** The example provider keeps its promises *)

Section example.
#[local] Existing Instance example_libfabric.

Lemma example_counts tr :
  (foldl example_step (0, 0) tr).1 = length (example_posts tr) ∧
  example_reads tr ≤ length (example_posts tr).
Proof.
  unfold example_reads, example_posts.
  induction tr as [|call l [IH1 IH2]] using rev_ind; [split; simpl; lia|].
  rewrite foldl_app, omap_app, length_app. simpl. destruct (foldl _ _ l) as [p r]. simpl in *. subst p.
  destruct call; csimpl; lia.
Qed.

Lemma example_answer tr call :
  (cq_answer tr call).*1 =
  match call with
  | CqRead _ want => take (want `min` 1) (drop (example_reads tr) (example_posts tr))
  | _ => []
  end.
Proof.
  destruct call; try done. unfold cq_answer, fi_cq_read, example_libfabric.
  destruct (drop _ _) as [|x rest]; [by destruct want|].
  destruct want as [|[|want]]; simpl; try done; by rewrite take_0.
Qed.

Lemma example_flying tr : flying tr ≡ₚ drop (example_reads tr) (example_posts tr).
Proof.
  induction tr as [|call l IH] using rev_ind; [done|].
  destruct (example_counts l) as [Hc1 Hc2]. rewrite flying_app. cbn [flying_from].
  assert (example_reads (l ++ [call]) = (example_step (foldl example_step (0, 0) l) call).2) as Hr
    by (unfold example_reads; by rewrite foldl_app).
  assert (example_posts (l ++ [call]) = example_posts l ++ example_posts [call]) as Hp
    by apply omap_app.
  assert ((foldl example_step (0, 0) l).2 = example_reads l) as Hrl by done.
  rewrite Hr, Hp. destruct (foldl _ _ l) as [p r]. simpl in Hc1, Hrl. subst p r.
  destruct call; cbn [fly example_posts omap list_omap]; simpl example_step; rewrite ?app_nil_r, ?example_answer;
    try done.
  1,2: rewrite decide_True by done; rewrite drop_app_le, IH by done; by rewrite Permutation_app_comm.
  apply (Permutation_app_inv_l (take (want `min` 1) (drop (example_reads l) (example_posts l)))).
  rewrite <-remove_all_Permutation by (rewrite IH; apply sublist_submseteq, sublist_take).
  rewrite IH. simpl. destruct want as [|want]; simpl.
  - by rewrite Nat.add_0_r, Nat.min_r by done.
  - rewrite Nat.min_0_r. destruct (decide (example_reads l = length (example_posts l))) as [->|Hne].
    + rewrite Nat.min_l, drop_ge by lia. done.
    + rewrite Nat.min_r, <-drop_drop by lia. by rewrite take_drop.
Qed.

#[export] Instance example_completions : CompletionLaws.
Proof.
  split. intros tr call. rewrite example_answer, example_flying.
  destruct call; try apply submseteq_nil_l. apply sublist_submseteq, sublist_take.
Qed.

End example.
