(* ===== verification/Service.v ===== *)
(** * The fabric service

    [server.rs]: the handle callers hold.  It sends messages down one channel to its
    worker, counts what it submitted, and is joined with the worker when dropped.  The
    service and its worker are a transition system: callers' operations and the
    worker's passes interleave in any order. *)

From S2P Require Import Prelude Arc Wire Fabric RegionCache Operands PeerAddresses Config Endpoint.
From S2P Require Import Worker FabricTransport.

(** The service's state: the sender (dropped when the service is), the channel, and the
    worker with where its loop is.  [taken] records, for the theorems, the transfers
    [submit] took. *)
Record service (E T K : Type) := {
  sender : bool;
  channel : list (WorkerMessage T);
  thread : worker E T;
  status : worker_status;
  taken : list K;
}.
Arguments Build_service {E T K} _ _ _ _ _.
Arguments sender {E T K} _.
Arguments channel {E T K} _.
Arguments thread {E T K} _.
Arguments status {E T K} _.
Arguments taken {E T K} _.

Section service.
  Context {E T K : Type} `{!Transport E, !Operands T} (ident : T → K).
  Variables (quiesce_writes : bool) (progress_deadline : Z) (cap : nat) (quiesce_pointer : Z).
  Variables (clock : nat → Z) (place : gmap Z (InFlight T) → Z) (crc : slice → Z).
  Implicit Types (s : service E T K).

(** [FabricService::outstanding] *)
Definition service_outstanding s : nat := outstanding (acc (thread s)).

Definition bump (f : nat → nat) (w : worker E T) : worker E T :=
  with_acc (with_outstanding (f (outstanding (acc w))) (acc w)) w.

(** [Sender::send]: refused once the receiver is gone. *)
Definition send (m : WorkerMessage T) s : option (service E T K) :=
  match status s with
  | Gone => None
  | _ => Some (Build_service (sender s) (channel s ++ [m]) (thread s) (status s) (taken s))
  end.

Definition with_thread (w : worker E T) s : service E T K :=
  Build_service (sender s) (channel s) w (status s) (taken s).

(** [submit]: the count rises before the send, and falls again if the request comes
    back. *)
Definition submit (request : TransferRequest T) s :
    result () (TransferRequest T) * service E T K :=
  if negb (sender s) then (Err request, s)
  else
    let s := with_thread (bump S (thread s)) s in
    match send (Transfer request) s with
    | Some s =>
        (Ok tt, Build_service (sender s) (channel s) (thread s) (status s)
                  (taken s ++ [ident (request_context request)]))
    | None => (Err request, with_thread (bump pred (thread s)) s)
    end.

Definition gone : DmaError := Fabric "fabric worker is gone".

(** [add_peer], up to waiting on the reply. *)
Definition add_peer (client : Z) (address : list u8) (reply : nat) s :
    result () DmaError * service E T K :=
  if negb (sender s) then (Err gone, s)
  else match send (AddPeer client address reply) s with
       | Some s => (Ok tt, s)
       | None => (Err gone, s)
       end.

(** [remove_peer]: best effort. *)
Definition remove_peer (client : Z) s : service E T K :=
  if negb (sender s) then s else default s (send (RemovePeer client) s).

(** [register], up to waiting on the reply: the span of the boxed storage. *)
Definition register_storage (base length : Z) (reply : nat) s :
    result (Z * Z) DmaError * service E T K :=
  if (0 =? length)%Z then (Err (Fabric "cannot register 0 bytes"), s)
  else
    match checked_add base length with
    | None => (Err (Fabric "registered region range overflows"), s)
    | Some end_ =>
        if negb (sender s) then (Err gone, s)
        else match send (Register base length reply) s with
             | Some s => (Ok (base, end_), s)
             | None => (Err gone, s)
             end
    end.

(** What a caller makes of the answer it waited for. *)
Definition registered (waited : option (result () DmaError)) (span : Z * Z) :
    result (Z * Z) DmaError :=
  match waited with
  | None => Err (Fabric "fabric worker exited before registering")
  | Some r => let? _ := r in Ok span
  end.

Definition peer_added (waited : option (result () DmaError)) : result () DmaError :=
  match waited with
  | None => Err (Fabric "fabric worker exited before adding the peer")
  | Some r => r
  end.

(** [Drop for FabricService]: the channel closes; the join is the worker's last step. *)
Definition close s : service E T K :=
  Build_service false (channel s) (thread s) (status s) (taken s).

Definition service_new (e : E) : service E T K :=
  Build_service true [] (worker_new e 0) Running [].

(** The status a pass leaves the worker in, [Leave] having run the shutdown. *)
Definition after_pass (w : worker E T) (t : turn) : option (worker E T * worker_status) :=
  match t with
  | Spin => Some (w, Running)
  | Park => Some (w, Parked)
  | Leave => w ← shutdown crc w; Some (w, Gone)
  end.

(** One step of the worker thread. *)
Definition thread_step s : option (service E T K) :=
  match status s with
  | Running =>
      '(w, t) ← pass quiesce_writes progress_deadline cap quiesce_pointer clock place crc
                  (channel s) (negb (sender s)) (thread s);
      '(w, st) ← after_pass w t;
      Some (Build_service (sender s) [] w st (taken s))
  | Parked =>
      match channel s with
      | m :: rest =>
          Some (Build_service (sender s) rest (receive quiesce_writes place m (thread s)) Running (taken s))
      | [] =>
          if sender s then Some s
          else w ← shutdown crc (thread s); Some (Build_service (sender s) [] w Gone (taken s))
      end
  | Gone => Some s
  end.

(** Only a submission that succeeds takes a request off a caller. *)
Lemma submit_taken request res s s' : submit request s = (res, s') → res = Ok tt ∨ taken s' = taken s.
Proof.
  unfold submit. destruct (negb _); [|destruct (send _ _)]; intros; simplify_eq; auto.
Qed.

Lemma remove_peer_taken client s : taken (remove_peer client s) = taken s.
Proof. unfold remove_peer, send. by destruct (negb _), (status s). Qed.

(** A turn of the worker only adds to what it has done. *)
Lemma thread_log s s' : thread_step s = Some s' → log (acc (thread s)) `prefix_of` log (acc (thread s')).
Proof.
  unfold thread_step. intros H. destruct (status s).
  - apply bind_Some in H as ([w t] & [Hl _]%pass_advances & H). apply bind_Some in H as ([w1 st] & H & [= <-]).
    simpl. destruct t; simpl in H; [by simplify_eq|by simplify_eq|].
    apply bind_Some in H as (w2 & [_ Hl2]%shutdown_advances & [= <- _]). by etrans.
  - destruct (channel s) as [|m rest].
    + destruct (sender s); [by simplify_eq|]. apply bind_Some in H as (w & [_ Hl]%shutdown_advances & [= <-]). done.
    + injection H as <-. apply receive_advances.
  - by simplify_eq.
Qed.

(** A turn of the worker takes no request off a caller. *)
Lemma thread_taken s s' : thread_step s = Some s' → taken s' = taken s.
Proof.
  unfold thread_step, after_pass. intros Hs.
  destruct (status s); [destruct (pass _ _ _ _ _ _ _ _ _) as [[w t]|]; simpl in Hs; [|done];
      destruct t; simpl in Hs; try (destruct (shutdown crc w); simpl in Hs)
    |destruct (channel s); [destruct (sender s); [|destruct (shutdown crc (thread s)); simpl in Hs]|]|];
    by simplify_eq.
Qed.

Inductive service_step : service E T K → service E T K → Prop :=
  | step_submit request r s s' : submit request s = (r, s') → service_step s s'
  | step_add_peer client address reply r s s' :
      add_peer client address reply s = (r, s') → service_step s s'
  | step_remove_peer client s : service_step s (remove_peer client s)
  | step_register base length reply r s s' :
      register_storage base length reply s = (r, s') → service_step s s'
  | step_close s : service_step s (close s)
  | step_thread s s' : thread_step s = Some s' → service_step s s'.

End service.

(** ** The invariant *)

Section invariant.
  Context {E T K : Type} `{!Transport E, !TransportLaws E, !Operands T} (ident : T → K)
    `{!OperandsLaws T K ident, !EqDecision K}.
  Variables (quiesce_writes : bool) (progress_deadline : Z) (cap : nat) (quiesce_pointer : Z).
  Variables (clock : nat → Z) (place : gmap Z (InFlight T) → Z) (crc : slice → Z).
  Hypothesis place_fresh : ∀ m, m !! place m = None.
  Hypothesis place_nonnull : ∀ m, place m ≠ 0%Z.
  Implicit Types (s : service E T K) (w : worker E T).

  Abbreviation step := (service_step ident quiesce_writes progress_deadline cap quiesce_pointer
                          clock place crc).
  Abbreviation thread_turn := (thread_step quiesce_writes progress_deadline cap quiesce_pointer
                            clock place crc).

Definition waiting_transfers s : nat := length (messages_ids ident (channel s)).

Record service_ok s (rec : list K) : Prop := {
  so_taken : taken s ≡ₚ rec ++ messages_ids ident (channel s);
  so_books : books_of ident (thread s) [] [] rec (waiting_transfers s);
  so_flight : flight (thread s);
  so_settled : status s ≠ Running → settled ident (thread s) rec (waiting_transfers s);
  so_gone : status s = Gone → channel s = [] ∧ sender s = false;
  so_closed : disconnected (thread s) = true → sender s = false;
}.

Lemma worker_new_ok (e : E) :
  posted e = [] → books_of ident (worker_new e 0) [] [] [] 0 ∧ flight (T := T) (worker_new e 0).
Proof.
  intros He. split; [|unfold flight; cbn; by rewrite He].
  unfold books_of, active. cbn. rewrite He. unfold shape. rewrite fmap_empty.
  split; simpl; try done. by intros [|? ?] c l2.
Qed.

Lemma service_new_ok (e : E) : posted e = [] → service_ok (service_new e) [].
Proof. intros He. apply worker_new_ok in He as []. by split. Qed.

Lemma bump_books w X Y rec q :
  books_of ident w X Y rec q → books_of ident (bump S w) X Y rec (S q).
Proof.
  intros Hb. pose proof (bk_outstanding _ _ _ _ _ _ _ Hb) as Ho. destruct Hb. split; try done.
  unfold bump. simpl. by rewrite Ho.
Qed.

Lemma bump_settled w rec q : settled ident w rec q → settled ident (bump S w) rec (S q).
Proof.
  intros Hs. pose proof (st_outstanding _ _ _ _ Hs) as Ho. destruct Hs. split; try done.
  unfold bump. simpl. by rewrite Ho.
Qed.

Lemma bump_back w : bump pred (bump S w) = w.
Proof. by destruct w as [[]]. Qed.

Lemma messages_ids_snoc l (m : WorkerMessage T) :
  messages_ids ident (l ++ [m]) = messages_ids ident l ++ message_ids ident m.
Proof. unfold messages_ids. rewrite bind_app. simpl. by rewrite app_nil_r. Qed.

(** Sending anything but a transfer. *)
Lemma send_ok m s s' rec :
  message_ids ident m = [] → send m s = Some s' → service_ok s rec → service_ok s' rec.
Proof.
  intros Hm Hs [Ht Hb Hf Hse Hg Hcl]. unfold send in Hs.
  assert (messages_ids ident (channel s ++ [m]) = messages_ids ident (channel s)) as Hids
    by (by rewrite messages_ids_snoc, Hm, app_nil_r).
  destruct (status s) eqn:Hst; simplify_eq; split; unfold waiting_transfers in *; simpl;
    rewrite ?Hids; done.
Qed.

Lemma submit_ok request r s s' rec :
  submit ident request s = (r, s') → service_ok s rec → service_ok s' rec.
Proof.
  intros Hs Hok. unfold submit in Hs. destruct (sender s) eqn:Hsend; simpl in Hs; [|by simplify_eq].
  destruct Hok as [Ht Hb Hf Hse Hg Hcl]. unfold send in Hs. simpl in Hs.
  destruct (status s) eqn:Hst; simplify_eq; [..|destruct (Hg eq_refl); congruence].
  all: split; unfold waiting_transfers in *; simpl; rewrite ?messages_ids_snoc; simpl; try done.
  all: try (rewrite (assoc_L (++)); by apply Permutation_app_tail).
  all: rewrite length_app; simpl; rewrite Nat.add_1_r; try by apply bump_books.
  intros _. apply bump_settled. by apply Hse.
Qed.

(** The worker thread can always take its step, and it keeps the invariant. *)
Lemma thread_ok s rec :
  service_ok s rec → ∃ s' rec', thread_turn s = Some s' ∧ service_ok s' rec'.
Proof.
  intros [Ht Hb Hf Hse Hg Hcl]. unfold thread_step. destruct (status s) eqn:Hst.
  - destruct (pass_ok ident quiesce_writes progress_deadline cap quiesce_pointer clock place crc
      place_fresh place_nonnull (channel s) (negb (sender s)) (thread s) rec 0)
      as (w & t & Hpass & Hb' & Hf' & Hs'); [by rewrite Nat.add_0_r|done|].
    rewrite Hpass. simpl. apply pass_advances in Hpass as (_ & Hd & Hleave).
    assert (disconnected w = true → sender s = false) as Hcl'.
    { rewrite Hd, orb_true_iff. intros [?|?]; [auto|by destruct (sender s)]. }
    exists (Build_service (sender s) [] w
              (match t with Spin => Running | Park => Parked | Leave => Gone end) (taken s)).
    exists (rec ++ messages_ids ident (channel s)). split.
    + destruct t; simpl; try done. by rewrite (settled_shutdown _ _ _ _ _ (Hs' ltac:(done))).
    + split; simpl; try done; [by rewrite app_nil_r|by intros Hn; apply Hs'; intros ->|].
      destruct t; try done. intros _. split; [done|]. auto.
  - destruct (channel s) as [|m rest] eqn:Hch.
    + destruct (sender s) eqn:Hsend; [exists s, rec; split; [done|by split; rewrite ?Hch, ?Hst, ?Hsend]|].
      specialize (Hse ltac:(done)). rewrite (settled_shutdown _ _ _ _ _ Hse). simpl.
      eexists _, rec. split; [done|]. split; unfold waiting_transfers in *; simpl; rewrite ?Hch in *; done.
    + destruct (receive_ok ident quiesce_writes place place_fresh place_nonnull m (thread s) rec
        (length (messages_ids ident rest))) as (Hb' & Hf' & _); [|done|].
      { unfold waiting_transfers in Hb. rewrite Hch in Hb. simpl in Hb. by rewrite length_app in Hb. }
      eexists _, (rec ++ message_ids ident m). split; [done|]. split; simpl; try done.
      * rewrite Ht. simpl. by rewrite (assoc_L (++)).
      * by rewrite (ad_disconnected _ _ (receive_advances _ _ _ _)).
  - exists s, rec. split; [done|]. by split; rewrite ?Hst.
Qed.

Lemma step_ok s s' rec : service_ok s rec → step s s' → ∃ rec', service_ok s' rec'.
Proof.
  intros Hok Hstep. destruct Hstep as [request r s s' Hs|client address reply r s s' Hs|client s
    |base length reply r s s' Hs|s|s s' Hs].
  - exists rec. by eapply submit_ok.
  - exists rec. unfold add_peer in Hs. destruct (sender s); simpl in Hs; [|by simplify_eq].
    destruct (send _ s) eqn:Esend; simplify_eq; [by eapply send_ok; [|exact Esend|]|done].
  - exists rec. unfold remove_peer. destruct (sender s); simpl; [|done].
    destruct (send _ s) eqn:Esend; simpl; [by eapply send_ok; [|exact Esend|]|done].
  - exists rec. unfold register_storage in Hs. destruct (0 =? length)%Z; [by simplify_eq|].
    destruct (checked_add _ _); [|by simplify_eq].
    destruct (sender s); simpl in Hs; [|by simplify_eq].
    destruct (send _ s) eqn:Esend; simplify_eq; [by eapply send_ok; [|exact Esend|]|done].
  - exists rec. destruct Hok as [? ? ? ? Hg Hcl]. split; try done. intros Hst. by destruct (Hg Hst).
  - destruct (thread_ok s rec Hok) as (s1 & rec' & Hs1 & Hok'). simplify_eq. eauto.
Qed.

Lemma reachable_ok e s :
  posted e = [] → rtc step (service_new e) s → ∃ rec, service_ok s rec.
Proof.
  intros He Hs. assert (∃ rec, service_ok (service_new (K := K) e) rec) as Hi
    by (exists []; by apply service_new_ok).
  revert Hi. induction Hs as [|s1 s2 s3 Hstep _ IH]; [done|].
  intros [rec Hok]. apply IH. by eapply step_ok.
Qed.

(** The transfers whose context has gone back, in a batch or in a pool job. *)
Definition handed_back s : list K := delivered (ident := ident) (log (acc (thread s))).

(** Those that have not: in the channel, in a box, or completed and not yet in a batch. *)
Definition in_service s : list K :=
  messages_ids ident (channel s) ++
  ((λ x, ident (caller_context x.2)) <$> map_to_list (boxes (thread s))) ++
  ((λ c, ident (completed_context c)) <$> completions (thread s)).

(** Submitted and not yet finished, as [outstanding] counts them. *)
Definition unfinished s : nat := waiting_transfers s + length (active (thread s)).

Lemma shape_values m :
  ((map_to_list (shape ident m)).*2).*2 ≡ₚ (λ x, ident (caller_context x.2)) <$> map_to_list m.
Proof.
  unfold shape. rewrite map_to_list_fmap, <-!list_fmap_compose.
  induction (map_to_list m) as [|[b op] l IH]; csimpl; [done|]. by rewrite IH.
Qed.

Lemma service_conserves s rec : service_ok s rec → taken s ≡ₚ handed_back s ++ in_service s.
Proof.
  intros Hok. apply weights_Permutation. intros f.
  rewrite (sum_list_with_Permutation _ _ _ (so_taken _ _ Hok)).
  rewrite sum_list_with_app, (bk_conserve _ _ _ _ _ _ _ (so_books _ _ Hok) f).
  unfold in_service, handed_back. rewrite !sum_list_with_app.
  rewrite <-(sum_list_with_Permutation _ _ _ (shape_values (boxes (thread s)))).
  rewrite (sum_list_with_fmap snd f). unfold compose. lia.
Qed.

(** C1: Every transfer comes back exactly once.  However callers and the worker
    interleave, the contexts of the transfers [submit] took are, as a multiset, those
    handed back so far together with those still in service; and a worker that has gone
    to sleep on its channel, or has left, with no message in the channel has handed
    back every one: no client is left waiting, and none is answered twice. *)
Theorem transfers_come_back_once e s
  (He : posted e = []) (Hs : rtc step (service_new e) s) :
  taken s ≡ₚ handed_back s ++ in_service s ∧
  (status s ≠ Running → channel s = [] → taken s ≡ₚ handed_back s ∧ boxes (thread s) = ∅).
Proof.
  destruct (reachable_ok e s He Hs) as [rec Hok].
  pose proof (service_conserves _ _ Hok) as Hc. split; [done|].
  intros Hst Hch. pose proof (so_settled _ _ Hok Hst) as Hse.
  split; [|by apply (st_boxes _ _ _ _ Hse)]. unfold in_service in Hc.
  rewrite Hch, (st_boxes _ _ _ _ Hse), (st_completions _ _ _ _ Hse), map_to_list_empty in Hc.
  by rewrite app_nil_r in Hc.
Qed.

(** C16: The worker never misuses memory and never gets stuck: in every reachable state
    its next step is defined.  Each [op_context] it reclaims is an allocated box, no box
    has two owners among the queued, posted, quiescing and deferred operations, none is
    leaked, and no client's count underflows. *)
Theorem worker_never_stuck e s
  (He : posted e = []) (Hs : rtc step (service_new e) s) :
  is_Some (thread_turn s) ∧
  let owners := active (thread s) ++ (crc_pending (thread s)).*1 in
  NoDup owners ∧ ∀ b, is_Some (boxes (thread s) !! b) ↔ b ∈ owners.
Proof.
  destruct (reachable_ok e s He Hs) as [rec Hok]. split.
  { destruct (thread_ok s rec Hok) as (s' & _ & -> & _). eauto. }
  pose proof (so_books _ _ Hok) as Hb. pose proof (books_NoDup _ _ _ _ _ _ _ Hb) as Hnd.
  pose proof (bk_owners _ _ _ _ _ _ _ Hb) as Ho. rewrite !app_nil_r in *. split; [done|].
  intros b. rewrite Ho. rewrite list_elem_of_fmap. split.
  - intros [op Hop]. exists (b, (if_client op, ident (caller_context op))). split; [done|].
    apply elem_of_map_to_list. by rewrite shape_lookup, Hop.
  - intros ([b' v] & -> & Hv%elem_of_map_to_list). simpl. rewrite shape_lookup in Hv.
    by apply fmap_is_Some in Hv || (destruct (boxes (thread s) !! b'); naive_solver).
Qed.

(** C22: [outstanding] is exact: in every reachable state it is the number of transfers
    submitted whose operation has not finished, and the worker's own [in_flight] is the
    number of operations the fabric has; neither ever saturates or wraps. *)
Theorem outstanding_exact e s
  (He : posted e = []) (Hs : rtc step (service_new e) s) :
  service_outstanding s = unfinished s ∧
  in_flight (thread s) = length (posted (endpoint_of (thread s))).
Proof.
  destruct (reachable_ok e s He Hs) as [rec Hok]. split; [|apply Hok].
  pose proof (bk_outstanding _ _ _ _ _ _ _ (so_books _ _ Hok)) as Ho.
  unfold service_outstanding, unfinished. by rewrite Ho, app_nil_r.
Qed.

(** C18: A peer is removed only once its client's operations have drained.  At every
    [release_peer] in the worker's history all the operations the client had accepted
    were finished; a removal still deferred is of a client with operations unfinished;
    and with nothing unfinished no removal is left undone. *)
Theorem peers_released_when_drained e s
  (He : posted e = []) (Hs : rtc step (service_new e) s) :
  (∀ l1 c l2, log (acc (thread s)) = l1 ++ Released c :: l2 → accepted c l1 = finished c l1) ∧
  (∀ c, c ∈ pending_removal (acc (thread s)) →
     ∃ b op, b ∈ active (thread s) ∧ boxes (thread s) !! b = Some op ∧ if_client op = c) ∧
  (active (thread s) = [] → pending_removal (acc (thread s)) = ∅).
Proof.
  destruct (reachable_ok e s He Hs) as [rec Hok]. pose proof (so_books _ _ Hok) as Hb.
  assert (∀ c, c ∈ pending_removal (acc (thread s)) →
     ∃ b op, b ∈ active (thread s) ∧ boxes (thread s) !! b = Some op ∧ if_client op = c) as Hrem.
  { intros c Hc. apply (bk_removal _ _ _ _ _ _ _ Hb) in Hc.
    rewrite (bk_counts _ _ _ _ _ _ _ Hb), app_nil_r in Hc. unfold client_count in Hc.
    destruct (decide (Forall (λ b, client_weight (shape ident (boxes (thread s))) c b = 0) (active (thread s))))
      as [Hall|Hex].
    { assert (client_count (shape ident (boxes (thread s))) c (active (thread s)) = 0) as Hz.
      { apply sum_list_with_0. by apply Forall_forall. }
      unfold client_count in Hz. lia. }
    apply not_Forall_Exists, Exists_exists in Hex as (b & Hin & Hw); [|apply _].
    change (client_weight (shape ident (boxes (thread s))) c b ≠ 0) in Hw. unfold client_weight in Hw. rewrite shape_lookup in Hw.
    destruct (boxes (thread s) !! b) as [op|] eqn:Hop; simpl in Hw; [|done].
    case_decide; [|done]. eauto. }
  split_and!; [apply Hb|done|].
  intros Ha. apply set_eq. intros c. split; [|set_solver].
  intros (b & op & Hb' & _)%Hrem. rewrite Ha in Hb'. set_solver.
Qed.

(** C21: The worker blocks on its channel, and leaves its loop, with nothing owed: no
    operation queued, posted, quiescing or deferred, no completion held back, no count
    or removal left over.  It leaves only after the service was dropped. *)
Theorem parks_with_nothing_owed e s
  (He : posted e = []) (Hs : rtc step (service_new e) s) (Hst : status s ≠ Running) :
  pending (thread s) = [] ∧ quiescing (thread s) = [] ∧ in_flight (thread s) = 0 ∧
  posted (endpoint_of (thread s)) = [] ∧ completions (thread s) = [] ∧ crc_pending (thread s) = [] ∧
  outstanding_by_client (acc (thread s)) = ∅ ∧ pending_removal (acc (thread s)) = ∅ ∧
  service_outstanding s = waiting_transfers s ∧
  (status s = Gone → sender s = false ∧ channel s = []).
Proof.
  destruct (reachable_ok e s He Hs) as [rec Hok]. destruct (so_settled _ _ Hok Hst).
  split_and!; try done. intros Hg. by destruct (so_gone _ _ Hok Hg).
Qed.

End invariant.

(** ** Witnesses

    A run of the service over the example provider: two clients' transfers, a write and
    a checksummed read, the first client leaving while its write is in flight. *)

(** One step of a script; a turn of the worker thread is the only one that can fail. *)
Inductive script_op (T : Type) : Type :=
  | Submit (request : TransferRequest T)
  | Leaving (client : Z)
  | Closing
  | Turn.
Arguments Submit {T} _.
Arguments Leaving {T} _.
Arguments Closing {T}.
Arguments Turn {T}.

Section script.
  Context {E T K : Type} `{!Transport E, !Operands T} (ident : T → K).
  Variables (quiesce_writes : bool) (progress_deadline : Z) (cap : nat) (quiesce_pointer : Z).
  Variables (clock : nat → Z) (place : gmap Z (InFlight T) → Z) (crc : slice → Z).

Definition script_step (s : service E T K) (op : script_op T) : option (service E T K) :=
  match op with
  | Submit request => Some (submit ident request s).2
  | Leaving client => Some (remove_peer client s)
  | Closing => Some (close s)
  | Turn => thread_step quiesce_writes progress_deadline cap quiesce_pointer clock place crc s
  end.

Fixpoint script_run (script : list (script_op T)) (s : service E T K) : option (service E T K) :=
  match script with
  | [] => Some s
  | op :: script => s ← script_step s op; script_run script s
  end.

Lemma script_run_steps script s s' :
  script_run script s = Some s' →
  rtc (service_step ident quiesce_writes progress_deadline cap quiesce_pointer clock place crc) s s'.
Proof.
  revert s. induction script as [|op script IH]; intros s; simpl; intros Hs; simplify_eq; [done|].
  destruct (script_step s op) as [s1|] eqn:E1; simpl in Hs; [|done].
  apply rtc_l with s1; [|by apply IH]. destruct op; simpl in E1; simplify_eq.
  - eapply step_submit, surjective_pairing.
  - apply step_remove_peer.
  - apply step_close.
  - by apply step_thread.
Qed.

End script.

Section witnesses.
#[local] Existing Instance example_libfabric.

(** A context is a tag; its buffer is at its tag. *)
#[local] Instance tagged : Operands Z := {|
  source tag := Some (Slice (4096 * tag) 4);
  allocate n tag := (Some (Slice (4096 * tag) n), tag);
  cacheable_span _ := None;
|}.
#[local] Instance tagged_laws : OperandsLaws Z Z id.
Proof. by split. Qed.

Definition example_place {T} (m : gmap Z (InFlight T)) : Z :=
  map_fold (λ k _ (next : Z), Z.max next (k + 1)) 1%Z m.

Lemma example_place_above {T} (m : gmap Z (InFlight T)) : (0 < example_place m)%Z ∧ ∀ k x, m !! k = Some x → (k < example_place m)%Z.
Proof.
  unfold example_place. apply (map_fold_weak_ind (λ next m, (0 < next)%Z ∧ ∀ k x, m !! k = Some x → (k < next)%Z)).
  - split; [done|]. intros k x. by rewrite lookup_empty.
  - intros k x m' next _ [Hpos Hnext]. split; [lia|]. intros k' x'.
    rewrite lookup_insert_Some. intros [[-> _]|[_ Hk]]; [lia|]. apply Hnext in Hk. lia.
Qed.

Lemma example_place_fresh {T} (m : gmap Z (InFlight T)) : m !! example_place m = None.
Proof.
  destruct (m !! example_place m) eqn:Hm; [|done]. apply example_place_above in Hm. lia.
Qed.

Lemma example_place_nonnull {T} (m : gmap Z (InFlight T)) : example_place m ≠ 0%Z.
Proof. pose proof (example_place_above m). lia. Qed.

Definition example_engine : engine :=
  Engine {| endpoint := 5; completion_queue := 4; av := 3; e_domain := 2; fabric := 1;
            info := Some example_info; requires_local_mr := true; uses_virtual_addressing := true;
            max_tx := 256; local_regions := 2; peer_addresses := peers_new 3 Efa |}
    empty_cache [].

Definition example_address (b : u8) : list u8 := replicate 32 b.

Definition example_request (client tag : Z) (d : Direction) (want : bool) : TransferRequest Z :=
  {| client_id := client; peer_address := example_address Byte.x01; remote_key := 9;
     remote_address := 65536; direction := d; request_want_checksum := want; request_context := tag |}.

Abbreviation stepping := (service_step id true 1000000000 64 64 Z.of_nat example_place (λ _, 7%Z)).

Definition example_service (script : list (script_op Z)) : option (service engine Z Z) :=
  script_run id true 1000000000 64 64 Z.of_nat example_place (λ _, 7%Z) script (service_new example_engine).

Definition example_state (script : list (script_op Z)) : service engine Z Z :=
  default (service_new example_engine) (example_service script).

Lemma example_reached script :
  bool_decide (is_Some (example_service script)) = true →
  rtc stepping (service_new example_engine) (example_state script).
Proof.
  rewrite bool_decide_eq_true. intros [s Hs]. unfold example_state. rewrite Hs.
  by apply (script_run_steps id true 1000000000 64 64 Z.of_nat example_place (λ _, 7%Z) script).
Qed.

(** Up to the first client leaving with its write in flight. *)
Definition leaving_script : list (script_op Z) :=
  [Submit (example_request 1 11 ToPeer false); Submit (example_request 2 22 (FromPeer 8) true);
   Leaving 1; Turn].

(** To the end. *)
Definition whole_script : list (script_op Z) := leaving_script ++ [Closing] ++ replicate 16 Turn.

Lemma transfers_come_back_once_witness :
  let s := example_state whole_script in
  status s = Gone ∧ taken s = [11; 22]%Z ∧ [11; 22]%Z ≡ₚ handed_back id s.
Proof.
  split; [by vm_compute|]. split; [by vm_compute|].
  refine (proj1 (proj2 (transfers_come_back_once id true 1000000000 64 64 Z.of_nat example_place
    (λ _, 7%Z) example_place_fresh example_place_nonnull example_engine (example_state whole_script)
    _ _) _ _)); [by vm_compute|by apply example_reached; vm_compute|by vm_compute|by vm_compute].
Defined.

Lemma worker_never_stuck_witness :
  let s := example_state leaving_script in
  is_Some (thread_step true 1000000000 64 64 Z.of_nat example_place (λ _, 7%Z) s) ∧
  active (thread s) = [1]%Z.
Proof.
  split; [|by vm_compute].
  refine (proj1 (worker_never_stuck id true 1000000000 64 64 Z.of_nat example_place
    (λ _, 7%Z) example_place_fresh example_place_nonnull example_engine (example_state leaving_script)
    _ _)); [by vm_compute|by apply example_reached; vm_compute].
Defined.

Lemma outstanding_exact_witness :
  let s := example_state leaving_script in
  service_outstanding s = 1 ∧ unfinished id s = 1 ∧ in_flight (thread s) = length (posted (endpoint_of (thread s))).
Proof.
  pose proof (outstanding_exact id true 1000000000 64 64 Z.of_nat example_place
    (λ _, 7%Z) example_place_fresh example_place_nonnull example_engine (example_state leaving_script)
    ltac:(by vm_compute) ltac:(by apply example_reached; vm_compute)) as [Ho Hf].
  split; [by vm_compute|]. split; [rewrite <-Ho; by vm_compute|exact Hf].
Defined.

Lemma peers_released_when_drained_witness :
  let s := example_state leaving_script in
  pending_removal (acc (thread s)) = {[1%Z]} ∧
  ∃ b op, b ∈ active (thread s) ∧ boxes (thread s) !! b = Some op ∧ if_client op = 1%Z.
Proof.
  split; [by vm_compute|].
  refine (proj1 (proj2 (peers_released_when_drained id true 1000000000 64 64 Z.of_nat example_place
    (λ _, 7%Z) example_place_fresh example_place_nonnull example_engine (example_state leaving_script)
    _ _)) 1%Z _); [by vm_compute|by apply example_reached; vm_compute|].
  apply (bool_decide_unpack _). by vm_compute.
Defined.

Lemma parks_with_nothing_owed_witness :
  let s := example_state whole_script in
  status s = Gone ∧ in_flight (thread s) = 0 ∧ service_outstanding s = 0.
Proof.
  destruct (parks_with_nothing_owed id true 1000000000 64 64 Z.of_nat example_place
    (λ _, 7%Z) example_place_fresh example_place_nonnull example_engine (example_state whole_script)
    ltac:(by vm_compute) ltac:(by apply example_reached; vm_compute) ltac:(by vm_compute))
    as (_ & _ & Hf & _ & _ & _ & _ & _ & Ho & _).
  split; [by vm_compute|]. split; [exact Hf|]. rewrite Ho. by vm_compute.
Defined.

End witnesses.
