(* ===== verification/Leases.v ===== *)
(** * Leases on registered memory, end to end

    An operation the fabric has is a remote read or write of local memory, which must stay
    registered until it completes.  [post] and [post_quiesce] of [server_dma_worker.rs] take
    a lease on the registration and keep it in the operation's box ([local_lease]); the
    completion drops it, on the worker or, with a checksum wanted, on a pool thread.  Here
    every lease is followed through the whole worker: what the process holds outside its
    registry is exactly what the boxes, the pool's jobs and the other threads hold, and what
    was posted is always covered by the lease in its box.

    The worker is followed against an interface, [LeaseLaws].  [shared] implements it: the
    endpoint of [FabricTransport], with the process's other threads at the registry before
    each call the worker makes. *)

From S2P Require Import Prelude Arc Wire Fabric RegionCache Operands PeerAddresses Config Endpoint.
From S2P Require Import Worker FabricTransport Service.

(** ** Leases as multisets *)

Definition leases_of (lease : option nat) : gmultiset nat := list_to_set_disj (option_list lease).

(** What some boxes hold. *)
Definition held {T} (m : gmap Z (InFlight T)) : gmultiset nat :=
  map_fold (λ _ op X, leases_of (local_lease op) ⊎ X) ∅ m.

Lemma held_empty {T} : held (T := T) ∅ = ∅.
Proof. apply map_fold_empty. Qed.

Lemma held_insert {T} (m : gmap Z (InFlight T)) b op :
  m !! b = None → held (<[b := op]> m) = leases_of (local_lease op) ⊎ held m.
Proof.
  intros Hb. unfold held. rewrite map_fold_insert_L; [done| |done]. intros. multiset_solver.
Qed.

Lemma held_delete {T} (m : gmap Z (InFlight T)) b op :
  m !! b = Some op → held m = leases_of (local_lease op) ⊎ held (delete b m).
Proof.
  intros Hb. rewrite <-(insert_delete_id m b op) at 1 by done. apply held_insert, lookup_delete_eq.
Qed.

Lemma held_replace {T} (m : gmap Z (InFlight T)) b op op' :
  m !! b = Some op →
  held (<[b := op']> m) ⊎ leases_of (local_lease op) = held m ⊎ leases_of (local_lease op').
Proof.
  intros Hb. rewrite <-insert_delete_eq, held_insert by apply lookup_delete_eq.
  rewrite (held_delete m b op Hb). multiset_solver.
Qed.

(** What the pool's jobs were given. *)
Definition job_ops {T} (x : effect T) : list (InFlight T) :=
  match x with PoolJob batch => batch.*1 | _ => [] end.

Definition pooled {T} (l : list (effect T)) : list (InFlight T) := l ≫= job_ops.

Definition ops_leases {T} (ops : list (InFlight T)) : gmultiset nat :=
  foldr (λ op X, leases_of (local_lease op) ⊎ X) ∅ ops.

Lemma ops_leases_app {T} (l1 l2 : list (InFlight T)) :
  ops_leases (l1 ++ l2) = ops_leases l1 ⊎ ops_leases l2.
Proof. induction l1 as [|op l1 IH]; simpl; [multiset_solver|]. rewrite IH. multiset_solver. Qed.

Lemma ops_leases_Permutation {T} (l1 l2 : list (InFlight T)) :
  l1 ≡ₚ l2 → ops_leases l1 = ops_leases l2.
Proof. induction 1; simpl; multiset_solver. Qed.

Lemma pooled_snoc {T} (l : list (effect T)) x : pooled (l ++ [x]) = pooled l ++ job_ops x.
Proof. unfold pooled. rewrite bind_app. simpl. by rewrite app_nil_r. Qed.

(** ** The interface *)

(** What an endpoint knows of memory: the leases held outside the registry, whether a
    lease covers some bytes under a descriptor, and the bytes and descriptor last posted
    under each context. *)
Class LeaseModel (E : Type) := {
  leased : E → gmultiset nat → Prop;
  protects : E → option nat → slice → Z → Prop;
  carried : E → gmap Z (slice * Z);
}.

(** What protects goes on protecting; what was carried becomes [m]. *)
Definition advance `{LeaseModel E} (e e' : E) (m : gmap Z (slice * Z)) : Prop :=
  (∀ lease bytes d, protects e lease bytes d → protects e' lease bytes d) ∧ carried e' = m.

Definition steady `{LeaseModel E} (e e' : E) : Prop := advance e e' (carried e).

(** Each operation of the endpoint: the leases it takes and gives back. *)
Class LeaseLaws (E : Type) `{Transport E, !LeaseModel E} : Prop := {
  insert_peer_leased client address e L : leased e L →
    leased (t_insert_peer client address e).2 L ∧ steady e (t_insert_peer client address e).2;
  drop_peer_leased i e L : leased e L → leased (t_drop_peer i e) L ∧ steady e (t_drop_peer i e);
  release_peer_leased client e L : leased e L →
    leased (t_release_peer client e) L ∧ steady e (t_release_peer client e);
  pin_region_leased b l e L : leased e L →
    leased (t_pin_region b l e).2 L ∧ steady e (t_pin_region b l e).2;
  local_operand_leased ptr l span e L r e' :
    leased e L → t_local_operand ptr l span e = (r, e') →
    steady e e' ∧
    match r with
    | Ok op => leased e' (L ⊎ leases_of (lease op)) ∧
               protects e' (lease op) (Slice ptr l) (descriptor op)
    | Err _ => leased e' L
    end;
  drop_lease_leased lease e L : leased e (L ⊎ leases_of lease) →
    leased (t_drop_lease lease e) L ∧ steady e (t_drop_lease lease e);
  post_out_leased i k a s d context e L code e' :
    leased e L → t_post_out i k a s d context e = (code, e') →
    leased e' L ∧
    advance e e' (if decide (code = 0%Z) then <[context := (s, d)]> (carried e) else carried e);
  post_in_leased i k a s d context e L code e' :
    leased e L → t_post_in i k a s d context e = (code, e') →
    leased e' L ∧
    advance e e' (if decide (code = 0%Z) then <[context := (s, d)]> (carried e) else carried e);
  reap_leased max e L r out e' :
    leased e L → t_reap max e = (r, out, e') → leased e' L ∧ steady e e';
}.

Lemma steady_refl `{LeaseModel E} (e : E) : steady e e.
Proof. by split. Qed.

Lemma steady_trans `{LeaseModel E} (e1 e2 e3 : E) : steady e1 e2 → steady e2 e3 → steady e1 e3.
Proof. intros [H1 C1] [H2 C2]. split; [auto|congruence]. Qed.

Lemma leased_eq `{LeaseModel E} (e : E) L L' : leased e L → L = L' → leased e L'.
Proof. by intros ? <-. Qed.

(** ** Every function of the worker accounts for its leases *)

(** The bytes an operation is for. *)
Definition own_bytes {T} (op : InFlight T) : slice := Slice (buffer_pointer op) (if_length op).

Section steps.
  Context {E T K : Type} `{!Transport E, !TransportLaws E, !LeaseModel E, !LeaseLaws E, !Operands T}
    (ident : T → K) `{!OperandsLaws T K ident, !EqDecision K}.
  Variables (quiesce_writes : bool) (progress_deadline : Z) (cap : nat) (quiesce_pointer : Z).
  Variables (clock : nat → Z) (place : gmap Z (InFlight T) → Z) (crc : slice → Z).
  Hypothesis place_fresh : ∀ m, m !! place m = None.
  Hypothesis place_nonnull : ∀ m, place m ≠ 0%Z.
  Implicit Types (w : worker E T) (D x y : gmultiset nat) (Q : list Prepared).

(** The leases outside the registry are those of the boxes, those of the pool's jobs less
    [D], which other threads have taken over, and [x], in local variables.  Each operation
    the fabric has is covered by its box's lease, and what is queued to be posted, [Q] in
    local variables, is its box's bytes. *)
Record holds D x Q w : Prop := {
  h_leased : ∃ J, ops_leases (pooled (log (acc w))) = J ⊎ D ∧
               leased (endpoint_of w) (held (boxes w) ⊎ J ⊎ x);
  h_armed b : b ∈ posted (endpoint_of w) → ∃ op bytes d, boxes w !! b = Some op ∧
    carried (endpoint_of w) !! b = Some (bytes, d) ∧
    protects (endpoint_of w) (local_lease op) bytes d ∧
    (bytes = own_bytes op ∨ bytes = Slice quiesce_pointer 1);
  h_queued p : p ∈ pending w ++ Q → ∃ op, boxes w !! context p = Some op ∧
    own_bytes op = Slice (p_pointer p) (p_length p);
}.

Lemma holds_ext D x Q Q' w w' :
  holds D x Q w → endpoint_of w' = endpoint_of w → boxes w' = boxes w →
  ops_leases (pooled (log (acc w'))) = ops_leases (pooled (log (acc w))) →
  (∀ p, p ∈ pending w' ++ Q' → p ∈ pending w ++ Q) → holds D x Q' w'.
Proof. intros [? ? Hq] He Hb Hl Hp. split; rewrite ?He, ?Hb, ?Hl; auto. Qed.

Lemma holds_endpoint D x x' Q e w :
  holds D x Q w →
  (∀ L, leased (endpoint_of w) (L ⊎ x) → leased e (L ⊎ x') ∧ steady (endpoint_of w) e) →
  (∀ b, b ∈ posted e → b ∈ posted (endpoint_of w)) → holds D x' Q (with_endpoint e w).
Proof.
  intros [(J & HJ & Hl) Ha Hq] He Hp. destruct (He _ Hl) as [Hl' [Hs Hc]].
  split; [by exists J| |exact Hq]. intros b Hb.
  change (b ∈ posted e) in Hb. apply Hp in Hb.
  destruct (Ha b Hb) as (op & bytes & d & ? & ? & ? & ?). exists op, bytes, d.
  change (endpoint_of (with_endpoint e w)) with e. rewrite Hc. auto.
Qed.

Lemma holds_boxes D x x' Q w b op op' :
  holds D x Q w → boxes w !! b = Some op → b ∉ posted (endpoint_of w) →
  own_bytes op' = own_bytes op →
  held (<[b := op']> (boxes w)) ⊎ x' = held (boxes w) ⊎ x →
  holds D x' Q (with_boxes (<[b := op']> (boxes w)) w).
Proof.
  intros [(J & HJ & Hl) Ha Hq] Hb Hn Ho Hx. split.
  - exists J. split; [done|]. eapply leased_eq; [exact Hl|]. simpl. multiset_solver.
  - intros c Hc. destruct (Ha c Hc) as (opc & bytes & d & Hop & ?).
    exists opc, bytes, d. split; [|done]. simpl. by rewrite lookup_insert_ne by (by intros ->).
  - intros p Hp. destruct (Hq p Hp) as (opp & Hop & Hbytes). simpl.
    destruct (decide (context p = b)) as [<-|]; [|exists opp; by rewrite lookup_insert_ne].
    exists op'. rewrite lookup_insert_eq. split; [done|]. rewrite Ho. congruence.
Qed.

(** An operation given to the fabric, its box's lease covering it. *)
Lemma holds_arm D x Q w e b op bytes d :
  holds D x Q w → boxes w !! b = Some op → protects (endpoint_of w) (local_lease op) bytes d →
  (bytes = own_bytes op ∨ bytes = Slice quiesce_pointer 1) →
  (∀ L, leased (endpoint_of w) L →
     leased e L ∧ advance (endpoint_of w) e (<[b := (bytes, d)]> (carried (endpoint_of w)))) →
  (∀ c, c ∈ posted e → c = b ∨ c ∈ posted (endpoint_of w)) → holds D x Q (with_endpoint e w).
Proof.
  intros [(J & HJ & Hl) Ha Hq] Hb Hpr Hby He Hp. destruct (He _ Hl) as [Hl' [Hs Hc]].
  split; [by exists J| |exact Hq]. intros c Hin. change (c ∈ posted e) in Hin.
  change (endpoint_of (with_endpoint e w)) with e. rewrite Hc. simpl.
  destruct (decide (c = b)) as [->|Hne].
  - exists op, bytes, d. rewrite lookup_insert_eq. auto.
  - destruct (Hp c Hin) as [->|Hold]; [done|].
    destruct (Ha c Hold) as (opc & bs & dc & ? & ? & ? & ?). exists opc, bs, dc.
    rewrite lookup_insert_ne by done. auto.
Qed.

(** A box goes, its lease into a local variable. *)
Lemma holds_remove D x Q w b op :
  holds D x Q w → boxes w !! b = Some op → b ∉ posted (endpoint_of w) →
  (∀ p, p ∈ pending w ++ Q → context p ≠ b) →
  holds D (x ⊎ leases_of (local_lease op)) Q (with_boxes (delete b (boxes w)) w).
Proof.
  intros [(J & HJ & Hl) Ha Hq] Hop Hn Hp. split.
  - exists J. split; [done|]. eapply leased_eq; [exact Hl|]. simpl.
    rewrite (held_delete (boxes w) b op Hop). multiset_solver.
  - intros c0 Hc0. destruct (Ha c0 Hc0) as (opc & bs & d & ? & ?). exists opc, bs, d.
    simpl. by rewrite lookup_delete_ne by (by intros ->).
  - intros p Hin. destruct (Hq p Hin) as (opp & ? & ?). exists opp. simpl.
    rewrite lookup_delete_ne; [done|]. apply not_eq_sym. by apply Hp.
Qed.

(** A box goes, its lease with it. *)
Lemma complete_holds D x Q w b r c w' :
  holds D x Q w → b ∉ posted (endpoint_of w) → (∀ p, p ∈ pending w ++ Q → context p ≠ b) →
  complete crc b r w = Some (c, w') → holds D x Q w'.
Proof.
  intros Hh Hn Hp Hc. unfold complete, reclaim in Hc. apply bind_Some in Hc as (op & Hop & [= _ <-]).
  pose proof (holds_remove _ _ _ _ _ _ Hh Hop Hn Hp) as Hh1.
  eapply (holds_endpoint D _ x Q (t_drop_lease (local_lease op) (endpoint_of w))) in Hh1; [exact Hh1| |].
  - intros L HL. apply drop_lease_leased. eapply leased_eq; [exact HL|]. multiset_solver.
  - intros c0. by rewrite drop_lease_posted.
Qed.

(** What finishing and releasing do to the accounts. *)
Definition acc_holds (a a' : accounts E T) : Prop :=
  pooled (log a') = pooled (log a) ∧ posted (transport a') = posted (transport a) ∧
  ∀ L, leased (transport a) L → leased (transport a') L ∧ steady (transport a) (transport a').

Lemma acc_holds_with D x Q w a : holds D x Q w → acc_holds (acc w) a → holds D x Q (with_acc a w).
Proof.
  intros Hh (Hl & Hp & He).
  apply (holds_endpoint D x x Q (transport a)) in Hh; [|by intros; apply He|].
  - eapply holds_ext; [exact Hh|done|done| |done]. simpl. by rewrite Hl.
  - intros b. by rewrite Hp.
Qed.

Lemma release_peer_holds c a : acc_holds a (release_peer c a).
Proof.
  unfold acc_holds, release_peer. simpl_acc. split_and!.
  - by rewrite pooled_snoc, app_nil_r.
  - apply release_peer_posted.
  - intros L. apply release_peer_leased.
Qed.

Lemma acc_holds_log (a a' : accounts E T) :
  pooled (log a') = pooled (log a) → transport a' = transport a → acc_holds a a'.
Proof. intros Hl He. unfold acc_holds. rewrite Hl, He. split_and!; [done|done|]. split; [done|apply steady_refl]. Qed.

Lemma acc_holds_trans a1 a2 a3 : acc_holds a1 a2 → acc_holds a2 a3 → acc_holds a1 a3.
Proof.
  intros (L1 & P1 & H1) (L2 & P2 & H2). split_and!; [congruence|congruence|].
  intros L [HL S1]%H1. apply H2 in HL as [HL S2]. split; [done|]. by eapply steady_trans.
Qed.

Lemma finish_op_holds c a a' : finish_op c a = Some a' → acc_holds a a'.
Proof.
  unfold finish_op. intros H. apply bind_Some in H as ([remaining a1] & H1 & H).
  assert (acc_holds a a1) as Ha1.
  { apply acc_holds_log.
    all: destruct (outstanding_by_client _ !! c) as [[|n]|]; simplify_eq/=; [|done || by rewrite pooled_snoc, app_nil_r..].
    all: rewrite ?pooled_snoc, ?app_nil_r; done. }
  case_decide; [|by simplify_eq]. case_decide; simplify_eq.
  - eapply acc_holds_trans; [exact Ha1|]. eapply acc_holds_trans; [|apply release_peer_holds].
    by apply acc_holds_log.
  - eapply acc_holds_trans; [exact Ha1|]. by apply acc_holds_log.
Qed.

(** ** Posting *)

(** The call of [post_resolved] and of [post_quiesce], as [holds_arm] takes it. *)
Definition posts (e e' : E) (b code : Z) (bytes : slice) (d : Z) : Prop :=
  (∀ L, leased e L → leased e' L ∧
     advance e e' (if decide (code = 0%Z) then <[b := (bytes, d)]> (carried e) else carried e)) ∧
  posted e' ≡ₚ (if decide (code = 0%Z) then [b] else []) ++ posted e.

Lemma posts_armed e e' b bytes d :
  posts e e' b 0 bytes d →
  (∀ L, leased e L → leased e' L ∧ advance e e' (<[b := (bytes, d)]> (carried e))) ∧
  (∀ c, c ∈ posted e' → c = b ∨ c ∈ posted e).
Proof. intros [Hl Hp]. split; [done|]. intros c. rewrite Hp. set_solver. Qed.

Lemma posts_refused e e' b code bytes d :
  posts e e' b code bytes d → code ≠ 0%Z →
  (∀ L, leased e L → leased e' L ∧ steady e e') ∧ (∀ c, c ∈ posted e' → c ∈ posted e).
Proof.
  intros [Hl Hp] Hc. rewrite decide_False in Hp by done. split; [|intros c; by rewrite Hp].
  intros L HL. specialize (Hl L HL). by rewrite decide_False in Hl by done.
Qed.

Lemma drop_peer_holds D x Q peer w :
  holds D x Q w → holds D x Q (with_endpoint (t_drop_peer peer (endpoint_of w)) w).
Proof.
  intros Hh. eapply holds_endpoint; [exact Hh| |]; [intros L; apply drop_peer_leased|].
  intros b. by rewrite drop_peer_posted.
Qed.

Lemma drop_lease_holds D x Q lease w :
  holds D (x ⊎ leases_of lease) Q w →
  holds D x Q (with_endpoint (t_drop_lease lease (endpoint_of w)) w).
Proof.
  intros Hh. eapply holds_endpoint; [exact Hh| |].
  - intros L HL. apply drop_lease_leased. eapply leased_eq; [exact HL|]. multiset_solver.
  - intros b. by rewrite drop_lease_posted.
Qed.

Lemma post_resolved_holds D p peer op w code w' :
  holds D (leases_of (lease op)) [p] w → context p ∉ posted (endpoint_of w) →
  protects (endpoint_of w) (lease op) (Slice (p_pointer p) (p_length p)) (descriptor op) →
  post_resolved p peer op w = Some (code, w') → holds D ∅ [p] w'.
Proof.
  intros Hh Hn Hpr. unfold post_resolved.
  destruct (match p_direction p with ToPeer => _ | FromPeer _ => _ end) as [code0 e] eqn:Hpost.
  assert (posts (endpoint_of w) e (context p) code0 (Slice (p_pointer p) (p_length p)) (descriptor op)) as Hps.
  { destruct (p_direction p).
    - split; [intros L HL; by eapply post_out_leased|by eapply post_out_posted].
    - split; [intros L HL; by eapply post_in_leased|by eapply post_in_posted]. }
  destruct (Z.eqb_spec code0 0) as [->|Hne].
  - unfold reclaim. intros H. apply bind_Some in H as (inflight & Hb & H). simpl in Hb.
    set (op' := with_quiesce _ (with_lease (lease op) inflight)) in H.
    destruct (posts_armed _ _ _ _ _ Hps) as [Hl Hp].
    assert (holds D (∅ ⊎ leases_of (local_lease inflight)) [p]
              (with_boxes (<[context p := op']> (boxes w)) w)) as Hh1.
    { eapply (holds_boxes D _ _ [p] w _ inflight op'); [exact Hh|done..|].
      pose proof (held_replace (boxes w) (context p) inflight op' Hb) as Hr. simpl in Hr.
      rewrite (left_id_L ∅ (⊎)). exact Hr. }
    destruct (h_queued _ _ _ _ Hh p) as (opp & Hopp & Hown); [set_solver|].
    rewrite Hb in Hopp. injection Hopp as <-.
    eapply (holds_arm _ _ _ _ e (context p) op') in Hh1;
      [|apply lookup_insert_eq|exact Hpr|left; symmetry; exact Hown|exact Hl|exact Hp].
    apply drop_lease_holds in Hh1. apply (drop_peer_holds _ _ _ peer) in Hh1.
    injection H as _ <-. exact Hh1.
  - intros [= _ <-]. destruct (posts_refused _ _ _ _ _ _ Hps Hne) as [Hl Hp].
    apply (holds_endpoint D _ (∅ ⊎ leases_of (lease op)) [p] e) in Hh; [|..|exact Hp].
    + apply drop_lease_holds in Hh. apply (drop_peer_holds _ _ _ peer) in Hh. exact Hh.
    + intros L HL. rewrite (left_id_L ∅ (⊎)). by apply Hl.
Qed.

(** Resolving an operand: its lease is in a local variable. *)
Lemma local_operand_holds D Q ptr l span w r e :
  holds D ∅ Q w → t_local_operand ptr l span (endpoint_of w) = (r, e) →
  match r with
  | Ok op => holds D (leases_of (lease op)) Q (with_endpoint e w) ∧
             protects e (lease op) (Slice ptr l) (descriptor op)
  | Err _ => holds D ∅ Q (with_endpoint e w)
  end.
Proof.
  intros Hh Hop. pose proof (λ L HL, local_operand_leased ptr l span (endpoint_of w) L r e HL Hop) as Hl.
  pose proof (local_operand_posted ptr l span (endpoint_of w)) as Hp. rewrite Hop in Hp. simpl in Hp.
  destruct r as [op|error].
  - split.
    + eapply holds_endpoint; [exact Hh| |intros b; by rewrite Hp].
      intros L HL. destruct (Hl _ HL) as [Hs [Hle _]]. split; [|done].
      eapply leased_eq; [exact Hle|]. multiset_solver.
    + destruct (h_leased _ _ _ _ Hh) as (J & _ & HL). apply (Hl _ HL).
  - eapply holds_endpoint; [exact Hh| |intros b; by rewrite Hp].
    intros L HL. destruct (Hl _ HL) as [Hs Hle]. done.
Qed.

Lemma insert_peer_holds D x Q client address w :
  holds D x Q w → holds D x Q (with_endpoint (t_insert_peer client address (endpoint_of w)).2 w).
Proof.
  intros Hh. eapply holds_endpoint; [exact Hh| |].
  - intros L. apply insert_peer_leased.
  - intros b. by rewrite insert_peer_posted.
Qed.

Lemma post_holds D p w r w' :
  holds D ∅ [p] w → context p ∉ posted (endpoint_of w) → post p w = Some (r, w') → holds D ∅ [p] w'.
Proof.
  intros Hh Hn. unfold post. apply (insert_peer_holds _ _ _ (p_client p) (p_address p)) in Hh.
  pose proof (insert_peer_posted (p_client p) (p_address p) (endpoint_of w)) as Hp1.
  destruct (t_insert_peer _ _ _) as [[peer|error] e1]; simpl in Hh, Hp1; [|by intros [= _ <-]].
  intros H. apply bind_Some in H as (inflight & Hb & H).
  destruct (t_local_operand _ _ _ _) as [r2 e2] eqn:Hop in H.
  apply (local_operand_holds _ _ _ _ _ _ _ _ Hh) in Hop as Hop'.
  pose proof (local_operand_posted (p_pointer p) (p_length p) (cacheable_span (caller_context inflight)) e1) as Hp2.
  change (endpoint_of (with_endpoint e1 w)) with e1 in Hop. rewrite Hop in Hp2. simpl in Hp2.
  destruct r2 as [op|error].
  - destruct Hop' as [Hh2 Hpr]. apply bind_Some in H as ([code w2] & H2 & [= _ <-]).
    eapply (post_resolved_holds D p peer op); [exact Hh2| |exact Hpr|exact H2].
    change (context p ∉ posted e2). by rewrite Hp2, Hp1.
  - injection H as _ <-. by apply drop_peer_holds.
Qed.

(** ** The posting loop *)

(** A box in a local variable is neither with the fabric nor queued. *)
Lemma books_local w X Y rec q b :
  books_of ident w (b :: X) Y rec q →
  (b ∉ posted (endpoint_of w)) ∧ (∀ p, p ∈ pending w → context p ≠ b).
Proof.
  intros Hbk. destruct (local_elsewhere ident _ _ _ _ _ _ Hbk) as (Hb & _). unfold active in Hb. rewrite !elem_of_app in Hb.
  split; [tauto|]. intros p Hp <-. apply Hb. left. apply list_elem_of_fmap. eauto.
Qed.

Lemma finish_unreaped_holds D b error w w' :
  holds D ∅ [] w → b ∉ posted (endpoint_of w) → (∀ p, p ∈ pending w → context p ≠ b) →
  finish_unreaped crc b error w = Some w' → holds D ∅ [] w'.
Proof.
  intros Hh Hn Hp Hf. unfold finish_unreaped in Hf. apply bind_Some in Hf as (op & _ & Hf).
  apply bind_Some in Hf as ([c w1] & Hc & Hf). apply bind_Some in Hf as (a & Ha & [= <-]).
  apply (complete_holds D ∅ []) in Hc as Hh1; [|exact Hh|done|intros p; rewrite app_nil_r; apply Hp].
  apply finish_op_holds in Ha.
  apply (acc_holds_with D ∅ [] (with_completions (completions w1 ++ [c]) w1)); [|exact Ha].
  by eapply (holds_ext D ∅ [] [] w1).
Qed.

Lemma stalled_holds D Q since w s wait w' :
  stalled progress_deadline clock since w = (s, wait, w') → holds D ∅ Q w → holds D ∅ Q w'.
Proof. unfold stalled, now. destruct since; intros [= _ _ <-] Hh; by eapply (holds_ext D ∅ Q Q w). Qed.

(** Failing what could not be posted. *)
Lemma failed_holds D b error w w' n :
  holds D ∅ [] w → b ∉ posted (endpoint_of w) → (∀ p, p ∈ pending w → context p ≠ b) →
  (w1 ← finish_unreaped crc b error w; Some (w1, 0)) = Some (w', n) → holds D ∅ [] w'.
Proof. intros Hh Hn Hp H. apply bind_Some in H as (w1 & H & [= <- _]). by eapply finish_unreaped_holds. Qed.

Lemma holds_forget D x Q w : holds D x Q w → holds D x [] w.
Proof. intros Hh. eapply (holds_ext D x Q); [exact Hh|done..|]. intros p. rewrite app_nil_r. set_solver. Qed.

Lemma post_one_holds D w w' n rec q :
  books_of ident w [] [] rec q → holds D ∅ [] w →
  post_one progress_deadline clock crc w = Some (w', n) → holds D ∅ [] w'.
Proof.
  intros Hbk Hh. unfold post_one. destruct (pending w) as [|p rest] eqn:Hpend; [by intros [= <- _]|].
  apply (books_of_pop_pending _ _ _ _ _ _ _ _ Hpend) in Hbk.
  destruct (books_local _ _ _ _ _ _ Hbk) as [Hn Hq].
  assert (holds D ∅ [p] (with_pending rest w)) as Hh1.
  { eapply (holds_ext D ∅ []); [exact Hh|done..|]. intros p'. simpl. rewrite Hpend. set_solver. }
  destruct (owned_box ident _ _ _ _ _ (context p) Hbk) as [inflight Hb]; [set_solver|].
  destruct (post_ok ident p _ inflight Hb) as (r & w2 & Hpost & Hf & Hp). rewrite Hpost. simpl.
  pose proof (post_holds _ _ _ _ _ Hh1 Hn Hpost) as Hh2.
  rewrite <-(fr_pending _ _ _ Hf) in Hq.
  assert (∀ error, r ≠ Ok 0%Z → (w4 ← finish_unreaped crc (context p) error w2; Some (w4, 0)) = Some (w', n) →
    holds D ∅ [] w') as Hfail.
  { intros error Hr. rewrite decide_False in Hp by done. apply failed_holds; [|by rewrite Hp|done].
    by eapply holds_forget. }
  destruct r as [code|error]; [|by apply Hfail].
  destruct (Z.eqb_spec code 0) as [->|Hne].
  { intros [= <- _]. apply holds_forget in Hh2. by eapply (holds_ext D ∅ [] [] w2). }
  destruct (code =? t_again)%Z; [|by apply Hfail; congruence].
  rewrite decide_False in Hp by congruence.
  destruct (stalled _ _ _ _) as [[since wait] w3] eqn:Hst.
  pose proof (stalled_holds _ _ _ _ _ _ _ Hst Hh2) as Hh3.
  apply (stalled_ok ident) in Hst as [Hf3 He3]. destruct wait.
  - intros [= <- _]. split; [apply Hh3|apply Hh3|].
    intros p'. rewrite app_nil_r. simpl. intros [Hin|Hin%list_elem_of_singleton]%elem_of_app.
    + apply (h_queued _ _ _ _ Hh3). set_solver.
    + subst p'. apply (h_queued _ _ _ _ Hh3 p). set_solver.
  - apply failed_holds; [by eapply holds_forget|by rewrite He3, Hp|by rewrite (fr_pending _ _ _ Hf3)].
Qed.

Lemma post_loop_holds D attempts w w' n rec q :
  books_of ident w [] [] rec q → flight w → holds D ∅ [] w →
  post_loop progress_deadline cap clock crc attempts w = Some (w', n) → holds D ∅ [] w'.
Proof.
  revert w w' n. induction attempts as [|attempts IH]; intros w w' n Hbk Hfl Hh; simpl; [by intros [= <- _]|].
  destruct (_ <? _); [|by intros [= <- _]].
  destruct (post_one_ok ident progress_deadline clock place crc place_fresh place_nonnull w rec q Hbk Hfl) as (w1 & n1 & H1 & Hbk1 & Hfl1 & _).
  rewrite H1. simpl. intros H. apply bind_Some in H as ([w2 n2] & H2 & [= <- _]).
  eapply IH; [exact Hbk1|done| |exact H2]. exact (post_one_holds _ _ _ _ _ _ Hbk Hh H1).
Qed.

(** ** Reaping *)

Lemma reap_one_holds D b r w w' X rec q :
  books_of ident w (b :: X) [] rec q → holds D ∅ [] w →
  reap_one crc (b, r) w = Some w' → holds D ∅ [] w'.
Proof.
  intros Hbk Hh. destruct (books_local _ _ _ _ _ _ Hbk) as [Hn Hq]. unfold reap_one.
  intros H. apply bind_Some in H as (op & Hop & H). unfold reclaim in Hop.
  destruct (if is_ok r then quiesce op else None) as [read|].
  { injection H as <-.
    apply (holds_boxes D ∅ ∅ [] w b op (with_quiesce None op)) in Hh; [by eapply (holds_ext D ∅ [] [] (with_boxes _ w))|done..|].
    pose proof (held_replace (boxes w) b op (with_quiesce None op) Hop) as Hr. simpl in Hr. multiset_solver. }
  apply bind_Some in H as (a & Ha & H). apply finish_op_holds in Ha.
  pose proof (acc_holds_with _ _ _ _ _ Hh Ha) as Hh1. destruct (want_checksum op).
  - injection H as <-. by eapply (holds_ext D ∅ [] [] (with_acc a w)).
  - apply bind_Some in H as ([c w1] & Hc & [= <-]).
    apply (complete_holds D ∅ []) in Hc; [by eapply (holds_ext D ∅ [] [] w1)|exact Hh1| |].
    + change (b ∉ posted (transport a)). destruct Ha as (_ & -> & _). exact Hn.
    + intros p. rewrite app_nil_r. apply Hq.
Qed.

Lemma reap_each_holds D reaped w w' rec q :
  books_of ident w reaped.*1 [] rec q → holds D ∅ [] w →
  reap_each crc reaped w = Some w' → holds D ∅ [] w'.
Proof.
  revert w. induction reaped as [|[b r] reaped IH]; intros w Hbk Hh; cbn [reap_each]; [by intros [= <-]|].
  csimpl in Hbk. destruct (reap_one_ok ident clock place crc place_fresh place_nonnull b r w _ rec q Hbk) as (w1 & H1 & Hbk1 & _).
  rewrite H1. simpl. apply IH; [done|]. by eapply reap_one_holds.
Qed.

Lemma reap_pass_holds D w w' any rec q :
  books_of ident w [] [] rec q → holds D ∅ [] w →
  reap_pass crc w = Some (w', any) → holds D ∅ [] w'.
Proof.
  intros Hbk Hh. unfold reap_pass. destruct (t_reap _ _) as [[r reaped] e] eqn:Hr.
  pose proof (reap_posted _ _ _ _ _ Hr (posted_nonnull ident clock place place_fresh place_nonnull _ _ _ _ _ Hbk)) as Hp.
  assert (holds D ∅ [] (with_endpoint e w)) as Hh1.
  { eapply holds_endpoint; [exact Hh| |].
    - intros L HL. by eapply reap_leased.
    - intros b Hb. rewrite Hp. set_solver. }
  intros H. apply bind_Some in H as (w1 & H1 & [= <- _]).
  eapply (reap_each_holds D reaped _ _ rec q) in H1; [exact H1| |by eapply (holds_ext D ∅ [] [] (with_endpoint e w))].
  unfold books_of, active, endpoint_of in *. simpl_worker. apply books_transport.
  eapply books_perm; [..|exact Hbk]; try done. rewrite Hp. solve_Permutation.
Qed.

(** ** Quiesce reads *)

Lemma post_quiesce_holds D waiting w p w' :
  holds D ∅ [] w → q_inflight waiting ∉ posted (endpoint_of w) →
  post_quiesce quiesce_pointer waiting w = Some (p, w') → holds D ∅ [] w'.
Proof.
  intros Hh Hn. unfold post_quiesce, reclaim. intros H. apply bind_Some in H as (inflight & Hb & H).
  apply (insert_peer_holds _ _ _ (if_client inflight) (q_address (read waiting))) in Hh.
  pose proof (insert_peer_posted (if_client inflight) (q_address (read waiting)) (endpoint_of w)) as Hp1.
  destruct (t_insert_peer _ _ _) as [[peer|error] e1]; simpl in Hh, Hp1; [|by injection H as _ <-].
  change (endpoint_of (with_endpoint e1 w)) with e1 in H.
  pose proof (local_operand_posted quiesce_pointer 1 None e1) as Hp2.
  destruct (t_local_operand _ _ _ _) as [r2 e2] eqn:Hop. simpl in Hp2.
  apply (local_operand_holds _ _ _ _ _ _ _ _ Hh) in Hop. destruct r2 as [op|error].
  2:{ injection H as _ <-. by apply drop_peer_holds. }
  destruct Hop as [Hh2 Hpr]. set (w2 := with_endpoint e2 (with_endpoint e1 w)) in *.
  set (box := q_inflight waiting) in *. set (op' := with_lease (lease op) inflight) in *.
  assert (holds D (∅ ⊎ leases_of (local_lease inflight)) [] (with_boxes (<[box := op']> (boxes w2)) w2)) as Hh3.
  { eapply (holds_boxes D _ _ [] w2 box inflight op'); [exact Hh2|exact Hb| |done|].
    - change (box ∉ posted e2). by rewrite Hp2, Hp1.
    - pose proof (held_replace (boxes w) box inflight op' Hb) as Hr. simpl in Hr.
      rewrite (left_id_L ∅ (⊎)). exact Hr. }
  set (e3 := t_drop_lease (local_lease inflight) e2) in *.
  assert (protects e3 (lease op) (Slice quiesce_pointer 1) (descriptor op)) as Hpr3.
  { destruct (h_leased _ _ _ _ Hh3) as (J & _ & HL). rewrite (left_id_L ∅ (⊎)) in HL.
    apply drop_lease_leased in HL as [_ [Hs _]]. by apply Hs. }
  apply drop_lease_holds in Hh3. change (endpoint_of (with_boxes _ w2)) with e2 in Hh3. fold e3 in Hh3.
  set (w3 := with_endpoint e3 (with_boxes (<[box := op']> (boxes w2)) w2)) in *.
  change (endpoint_of (with_boxes _ (with_endpoint _ w2))) with e3 in H.
  destruct (t_post_in _ _ _ _ _ _ e3) as [code e4] eqn:Hpost.
  assert (posts (endpoint_of w3) e4 box code (Slice quiesce_pointer 1) (descriptor op)) as Hps.
  { split; [intros L HL; by eapply post_in_leased|by eapply post_in_posted]. }
  assert (holds D ∅ [] (with_endpoint e4 w3)) as Hh4.
  { destruct (decide (code = 0%Z)) as [->|Hne].
    - destruct (posts_armed _ _ _ _ _ Hps) as [Hl Hp].
      eapply (holds_arm _ _ _ _ e4 box op'); [exact Hh3|apply lookup_insert_eq|exact Hpr3|by right|done..].
    - destruct (posts_refused _ _ _ _ _ _ Hps Hne) as [Hl Hp].
      eapply holds_endpoint; [exact Hh3| |exact Hp]. intros L HL. by apply Hl. }
  apply (drop_peer_holds _ _ _ peer) in Hh4.
  destruct (code =? 0)%Z; [|destruct (code =? t_again)%Z]; injection H as _ <-; exact Hh4.
Qed.

Lemma quiesce_one_holds D w w' n rec q :
  books_of ident w [] [] rec q → holds D ∅ [] w →
  quiesce_one progress_deadline quiesce_pointer clock crc w = Some (w', n) → holds D ∅ [] w'.
Proof.
  intros Hbk Hh. unfold quiesce_one. destruct (quiescing w) as [|waiting rest] eqn:Hq; [by intros [= <- _]|].
  set (w1 := with_quiescing rest w).
  assert (books_of ident w1 [q_inflight waiting] [] rec q) as Hbk1.
  { unfold w1, books_of, active, endpoint_of in *. simpl_worker. rewrite Hq in Hbk.
    eapply books_perm; [..|exact Hbk]; try done. csimpl. solve_Permutation. }
  destruct (books_local _ _ _ _ _ _ Hbk1) as [Hn Hpend].
  assert (holds D ∅ [] w1) as Hh1 by (by eapply (holds_ext D ∅ [] [] w)).
  destruct (owned_box ident _ _ _ _ _ (q_inflight waiting) Hbk1) as [inflight Hb]; [set_solver|].
  destruct (post_quiesce_ok ident quiesce_pointer waiting w1 inflight Hb) as (p & w2 & Hpost & Hf & Hp).
  rewrite Hpost. simpl. pose proof (post_quiesce_holds _ _ _ _ _ Hh1 Hn Hpost) as Hh2.
  rewrite <-(fr_pending _ _ _ Hf) in Hpend. destruct p as [|waiting'|box error].
  - intros [= <- _]. by eapply (holds_ext D ∅ [] [] w2).
  - destruct Hp as [-> Hp]. destruct (stalled _ _ _ _) as [[since wait] w3] eqn:Hst.
    pose proof (stalled_holds _ _ _ _ _ _ _ Hst Hh2) as Hh3.
    apply (stalled_ok ident) in Hst as [Hf3 He3]. destruct wait.
    + intros [= <- _]. by eapply (holds_ext D ∅ [] [] w3).
    + apply failed_holds; [done|by rewrite He3, Hp|by rewrite (fr_pending _ _ _ Hf3)].
  - destruct Hp as [-> Hp]. apply failed_holds; [done|by rewrite Hp|done].
Qed.

Lemma quiesce_loop_holds D attempts w w' n rec q :
  books_of ident w [] [] rec q → flight w → holds D ∅ [] w →
  quiesce_loop progress_deadline quiesce_pointer clock crc attempts w = Some (w', n) → holds D ∅ [] w'.
Proof.
  revert w w' n. induction attempts as [|attempts IH]; intros w w' n Hbk Hfl Hh; simpl; [by intros [= <- _]|].
  destruct (quiesce_one_ok ident progress_deadline quiesce_pointer clock place crc place_fresh
    place_nonnull w rec q Hbk Hfl) as (w1 & n1 & H1 & Hbk1 & Hfl1 & _).
  rewrite H1. simpl. intros H. apply bind_Some in H as ([w2 n2] & H2 & [= <- _]).
  eapply IH; [exact Hbk1|done| |exact H2]. exact (quiesce_one_holds _ _ _ _ _ _ Hbk Hh H1).
Qed.

(** ** Intake *)

Lemma prepare_bytes request m p m' :
  prepare quiesce_writes place request m = (Ok p, m') →
  ∃ op, m' = <[place m := op]> m ∧ context p = place m ∧ local_lease op = None ∧
        own_bytes op = Slice (p_pointer p) (p_length p).
Proof.
  unfold prepare. destruct (resolve_operand _ _) as [[[ptr length]|error] ctx]; [|done].
  destruct (quiesce_read _ _ _); [|done]. intros [= <- <-]. eexists. by split_and!.
Qed.

Lemma accept_holds D request w :
  holds D ∅ [] w → holds D ∅ [] (accept quiesce_writes place request w).
Proof.
  intros Hh. unfold accept. destruct (prepare _ _ _ _) as [[p|completion] m] eqn:Hp.
  - apply prepare_bytes in Hp as (op & -> & Hc & Hl & Hb). destruct Hh as [(J & HJ & Hle) Ha Hq]. split.
    + exists J. simpl. rewrite pooled_snoc, app_nil_r. split; [done|].
      unfold endpoint_of. simpl_worker. simpl_acc. rewrite held_insert, Hl by done.
      eapply leased_eq; [exact Hle|]. unfold leases_of. simpl. multiset_solver.
    + intros b Hb'. change (b ∈ posted (endpoint_of w)) in Hb'.
      destruct (Ha b Hb') as (opb & bytes & d & Hopb & ?). exists opb, bytes, d.
      split; [|done]. simpl. rewrite lookup_insert_ne; [done|]. intros <-. by rewrite place_fresh in Hopb.
    + intros p'. rewrite app_nil_r. simpl. intros [Hin|Hin%list_elem_of_singleton]%elem_of_app.
      * destruct (Hq p') as (opp & Hopp & ?); [set_solver|]. exists opp. split; [|done].
        rewrite lookup_insert_ne; [done|]. intros Heq. by rewrite <-Heq, place_fresh in Hopp.
      * subst p'. exists op. by rewrite Hc, lookup_insert_eq.
  - assert (m = boxes w) as ->.
    { unfold prepare in Hp. destruct (resolve_operand _ _) as [[[ptr length]|error] ctx]; [|by simplify_eq].
      destruct (quiesce_read _ _ _); by simplify_eq. }
    by eapply (holds_ext D ∅ [] [] w).
Qed.

Lemma receive_holds D m w : holds D ∅ [] w → holds D ∅ [] (receive quiesce_writes place m w).
Proof.
  intros Hh. destruct m as [request|client address reply|client|b length reply]; simpl.
  - by apply accept_holds.
  - apply (insert_peer_holds _ _ _ client address) in Hh.
    destruct (t_insert_peer _ _ _) as [[peer|error] e]; simpl in *;
      [apply (drop_peer_holds _ _ _ peer) in Hh|];
      (eapply holds_ext; [exact Hh|done|done| |done]); simpl; by rewrite pooled_snoc, app_nil_r.
  - apply acc_holds_with; [done|]. unfold remove_or_defer. case_decide; [apply release_peer_holds|].
    by apply acc_holds_log.
  - assert (holds D ∅ [] (with_endpoint (t_pin_region b length (endpoint_of w)).2 w)) as Hh1.
    { eapply holds_endpoint; [exact Hh| |by intros c; rewrite pin_region_posted].
      intros L. apply pin_region_leased. }
    destruct (t_pin_region _ _ _) as [r e]. simpl in *.
    eapply holds_ext; [exact Hh1|done|done| |done]. simpl. by rewrite pooled_snoc, app_nil_r.
Qed.

Lemma intake_holds D messages closed w :
  holds D ∅ [] w → holds D ∅ [] (intake quiesce_writes place messages closed w).
Proof.
  intros Hh. unfold intake.
  assert (holds D ∅ [] (foldl (λ w m, receive quiesce_writes place m w) w messages)) as Hf.
  { revert w Hh. induction messages as [|m messages IH]; intros w Hh; [done|]. simpl.
    by apply IH, receive_holds. }
  destruct closed; [|done]. by eapply (holds_ext D ∅ [] []); [exact Hf|..].
Qed.

(** ** Flushing *)

Lemma take_boxes_holds D x l w ops w' :
  holds D x [] w → (∀ b, b ∈ l.*1 → b ∉ posted (endpoint_of w)) →
  (∀ b p, b ∈ l.*1 → p ∈ pending w → context p ≠ b) →
  take_boxes l w = Some (ops, w') → holds D (x ⊎ ops_leases ops.*1) [] w' ∧ acc w' = acc w.
Proof.
  revert x w ops w'. induction l as [|[b r] l IH]; intros x w ops w' Hh Hn Hp; cbn [take_boxes].
  { intros [= <- <-]. simpl. by rewrite (right_id_L ∅ (⊎)). }
  csimpl in Hn. csimpl in Hp. intros H. apply bind_Some in H as (op & Hop & H).
  apply bind_Some in H as ([ops1 w1] & H1 & [= <- <-]).
  eapply holds_remove in Hh; [|exact Hop|by apply Hn; left|by intros p; rewrite app_nil_r; apply Hp; left].
  apply (IH _ _ _ _ Hh) in H1 as [H1 Ha].
  - split; [|done]. csimpl. by rewrite (assoc_L (⊎)).
  - intros b' Hb'. apply Hn. by right.
  - intros b' p Hb'. apply Hp. by right.
Qed.

Lemma submit_crc_batch_holds D w w' rec q :
  books_of ident w [] [] rec q → holds D ∅ [] w → submit_crc_batch w = Some w' → holds D ∅ [] w'.
Proof.
  intros Hbk Hh. unfold submit_crc_batch. intros H. apply bind_Some in H as ([ops w1] & H1 & [= <-]).
  pose proof (books_NoDup _ _ _ _ _ _ _ Hbk) as Hnd. apply NoDup_app in Hnd as (_ & Hdis & _).
  unfold active in Hdis. rewrite !app_nil_r in Hdis. setoid_rewrite elem_of_app in Hdis.
  setoid_rewrite elem_of_app in Hdis.
  apply (take_boxes_holds D ∅) in H1 as [H1 Ha]; [|by eapply (holds_ext D ∅ [] [] w)|..].
  - destruct H1 as [(J & HJ & Hl) Harm Hq]. split; [|exact Harm|exact Hq].
    exists (J ⊎ ops_leases ops.*1). simpl. rewrite pooled_snoc, ops_leases_app, HJ. simpl.
    split; [multiset_solver|]. eapply leased_eq; [exact Hl|]. multiset_solver.
  - intros b Hb Hin. by apply (Hdis b); [right; left|].
  - intros b p Hb Hin <-. apply (Hdis (context p)); [|exact Hb]. left. apply list_elem_of_fmap. eauto.
Qed.

Lemma after_progress_holds D n any w w' t rec q :
  books_of ident w [] [] rec q → holds D ∅ [] w →
  after_progress n any w = Some (w', t) → holds D ∅ [] w'.
Proof.
  intros Hbk Hh. unfold after_progress. intros H. apply bind_Some in H as (w1 & H1 & H).
  assert (holds D ∅ [] w1) as Hh1.
  { destruct (should_flush_crc _ _ _ _); [by eapply submit_crc_batch_holds|by simplify_eq]. }
  destruct (_ && _ && _); [injection H as <- _; by eapply (holds_ext D ∅ [] [] w1)|].
  injection H as <- _. case_bool_decide; [|done].
  eapply (holds_ext D ∅ [] [] w1); [done..| |done]. simpl. by rewrite pooled_snoc, app_nil_r.
Qed.

Lemma pass_holds D messages closed w w' t rec q :
  books_of ident w [] [] rec (length (messages_ids ident messages) + q) → flight w → holds D ∅ [] w →
  pass quiesce_writes progress_deadline cap quiesce_pointer clock place crc messages closed w = Some (w', t) →
  holds D ∅ [] w'.
Proof.
  intros Hbk Hfl Hh. unfold pass, progress.
  destruct (intake_ok ident quiesce_writes place place_fresh place_nonnull messages closed w rec q Hbk Hfl)
    as (Hbk1 & Hfl1 & _).
  pose proof (intake_holds _ messages closed _ Hh) as Hh1. set (w1 := intake _ _ _ _ _) in *.
  destruct (post_loop_ok ident progress_deadline cap clock place crc place_fresh place_nonnull
    (length (pending w1)) w1 _ q Hbk1 Hfl1) as (w2 & n & H2 & Hbk2 & Hfl2 & _).
  pose proof (post_loop_holds _ _ _ _ _ _ _ Hbk1 Hfl1 Hh1 H2) as Hh2. rewrite H2. simpl.
  destruct (reap_pass_ok ident clock place crc place_fresh place_nonnull w2 _ q Hbk2 Hfl2)
    as (w3 & any & H3 & Hbk3 & Hfl3 & _).
  pose proof (reap_pass_holds _ _ _ _ _ _ Hbk2 Hh2 H3) as Hh3. rewrite H3. simpl.
  destruct (quiesce_loop_ok ident progress_deadline quiesce_pointer clock place crc place_fresh
    place_nonnull (length (quiescing w3)) w3 _ q Hbk3 Hfl3) as (w4 & m & H4 & Hbk4 & Hfl4 & _).
  pose proof (quiesce_loop_holds _ _ _ _ _ _ _ Hbk3 Hfl3 Hh3 H4) as Hh4. rewrite H4. simpl.
  by eapply after_progress_holds.
Qed.

(** ** The service *)

Lemma thread_step_holds D s s' rec :
  service_ok ident s rec → holds D ∅ [] (thread s) →
  thread_step quiesce_writes progress_deadline cap quiesce_pointer clock place crc s = Some s' →
  holds D ∅ [] (thread s').
Proof.
  intros [Ht Hb Hf Hse Hg Hcl] Hh. unfold thread_step. destruct (status s) eqn:Hst.
  - intros H. apply bind_Some in H as ([w t] & Hpass & H).
    destruct (pass_ok ident quiesce_writes progress_deadline cap quiesce_pointer clock place crc
      place_fresh place_nonnull (channel s) (negb (sender s)) (thread s) rec 0)
      as (w0 & t0 & Hpass0 & _ & _ & Hs'); [by rewrite Nat.add_0_r|done|].
    rewrite Hpass in Hpass0. injection Hpass0 as <- <-.
    assert (holds D ∅ [] w) as Hw.
    { eapply (pass_holds D _ _ (thread s)); [|exact Hf|exact Hh|exact Hpass].
      unfold waiting_transfers in Hb. rewrite <-(Nat.add_0_r (length _)) in Hb. exact Hb. }
    apply bind_Some in H as ([w1 st] & H1 & [= <-]). simpl.
    destruct t; simpl in H1; simplify_eq; [done..|].
    rewrite (settled_shutdown _ _ _ _ _ (Hs' ltac:(done))) in H1. by simplify_eq/=.
  - destruct (channel s) as [|m rest].
    + destruct (sender s); [by intros [= <-]|].
      rewrite (settled_shutdown _ _ _ _ _ (Hse ltac:(done))). by intros [= <-].
    + intros [= <-]. by apply receive_holds.
  - by intros [= <-].
Qed.

(** Callers touch the count of outstanding transfers and the channel only. *)
Lemma service_step_holds D s s' rec :
  service_ok ident s rec → holds D ∅ [] (thread s) →
  service_step ident quiesce_writes progress_deadline cap quiesce_pointer clock place crc s s' →
  holds D ∅ [] (thread s').
Proof.
  intros Hok Hh Hstep.
  assert (∀ m (s0 s1 : service E T K), send m s0 = Some s1 → thread s1 = thread s0) as Hsend.
  { intros m s0 s1. unfold send. destruct (status s0); intros; by simplify_eq. }
  assert (∀ f, holds D ∅ [] (bump f (thread s))) as Hbump by (intros f; by eapply (holds_ext D ∅ [] [])).
  destruct Hstep as [request r s s' Hs|client address reply r s s' Hs|client s
    |b length reply r s s' Hs|s|s s' Hs].
  - unfold submit in Hs. destruct (negb _); [by simplify_eq|].
    destruct (send _ _) as [s1|] eqn:Es; simplify_eq; simpl.
    + rewrite (Hsend _ _ _ Es). apply Hbump.
    + by rewrite bump_back.
  - unfold add_peer in Hs. destruct (negb _); [by simplify_eq|].
    destruct (send _ s) as [s1|] eqn:Es; simplify_eq; [|done]. by rewrite (Hsend _ _ _ Es).
  - unfold remove_peer. destruct (negb _); [done|].
    destruct (send _ s) as [s1|] eqn:Es; simpl; [|done]. by rewrite (Hsend _ _ _ Es).
  - unfold register_storage in Hs. destruct (0 =? length)%Z; [by simplify_eq|].
    destruct (checked_add _ _); [|by simplify_eq]. destruct (negb _); [by simplify_eq|].
    destruct (send _ s) as [s1|] eqn:Es; simplify_eq; [|done]. by rewrite (Hsend _ _ _ Es).
  - done.
  - by eapply thread_step_holds.
Qed.

Lemma service_new_holds (e : E) : posted e = [] → leased e ∅ → holds ∅ ∅ [] (worker_new (T := T) e 0).
Proof.
  intros He Hl. split; cbn.
  - exists ∅. split; [done|]. eapply leased_eq; [exact Hl|].
    rewrite (held_empty (T := T)). multiset_solver.
  - intros b. rewrite He. set_solver.
  - set_solver.
Qed.

(** With nothing in a box, the jobs' leases are all there are. *)
Lemma settled_holds D w rec q :
  settled ident w rec q → holds D ∅ [] w →
  ∃ J, ops_leases (pooled (log (acc w))) = J ⊎ D ∧ leased (endpoint_of w) J.
Proof.
  intros Hs [(J & HJ & Hl) _ _]. exists J. split; [done|]. eapply leased_eq; [exact Hl|].
  rewrite (st_boxes _ _ _ _ Hs), held_empty. multiset_solver.
Qed.

End steps.

(** ** The endpoint keeps the accounts *)

Section engine.
  Context `{Libfabric}.
  Implicit Types (e : engine) (c : cache) (tr : trace).

(** The bytes and the descriptor of each operation the fabric took, by context. *)
Definition carry (before : trace) (m : gmap Z (slice * Z)) (call : fabric_call) : gmap Z (slice * Z) :=
  match call with
  | WriteMsg _ b l d _ _ _ context _ =>
      if decide (fi_writemsg before = 0%Z) then <[context := (Slice b l, d)]> m else m
  | Read _ b l d _ _ _ context =>
      if decide (fi_read before = 0%Z) then <[context := (Slice b l, d)]> m else m
  | _ => m
  end.

Fixpoint carried_from (before : trace) (m : gmap Z (slice * Z)) (calls : trace) : gmap Z (slice * Z) :=
  match calls with
  | [] => m
  | call :: calls => carried_from (before ++ [call]) (carry before m call) calls
  end.

Definition carried_by (tr : trace) : gmap Z (slice * Z) := carried_from [] ∅ tr.

(** The lease is on an open registration, on this endpoint's domain, that [fi_mr_reg] made
    for memory around the bytes, and the descriptor is the registration's; an endpoint that
    needs no local registration posts without. *)
Definition covers e (lease : option nat) (bytes : slice) (d : Z) : Prop :=
  if requires_local_mr (e_endpoint e) then
    ∃ id b l mr, lease = Some id ∧ d = fi_mr_desc mr ∧
      arc_value id (registrations (e_cache e)) = Some mr ∧
      registered_as (e_trace e) (registrations (e_cache e)) id (local_regions (e_endpoint e)) b l ∧
      (b ≤ pointer bytes)%Z ∧ (pointer bytes + len bytes ≤ l)%Z
  else lease = None ∧ d = 0%Z.

#[export] Instance engine_leases : LeaseModel engine := {|
  leased e L := cache_ok (e_cache e) L (e_trace e);
  protects := covers;
  carried e := carried_by (e_trace e);
|}.

(** ** What stays of the registrations there are *)

Record undisturbed c tr c' tr' : Prop := {
  un_grows : ∃ t, tr' = tr ++ t;
  un_values i : is_Some (arc_value i (registrations c)) →
    arc_value i (registrations c') = arc_value i (registrations c);
}.

Lemma undisturbed_grows c tr t : undisturbed c tr c (tr ++ t).
Proof. split; [by exists t|done]. Qed.

Lemma undisturbed_refl c tr : undisturbed c tr c tr.
Proof. split; [exists []; by rewrite app_nil_r|done]. Qed.

Lemma undisturbed_trans c1 tr1 c2 tr2 c3 tr3 :
  undisturbed c1 tr1 c2 tr2 → undisturbed c2 tr2 c3 tr3 → undisturbed c1 tr1 c3 tr3.
Proof.
  intros [[t1 ->] V1] [[t2 ->] V2]. split; [exists (t1 ++ t2); by rewrite (assoc_L (++))|].
  intros i Hi. rewrite V2; [by apply V1|]. by rewrite V1.
Qed.

Lemma undisturbed_same c tr c' tr' :
  (∃ t, tr' = tr ++ t) → (∀ i, arc_value i (registrations c') = arc_value i (registrations c)) →
  undisturbed c tr c' tr'.
Proof. intros Hg Hv. split; [done|]. intros i _. apply Hv. Qed.

Lemma new_undisturbed mr c id c' L tr :
  process_ok (Process c L tr) → registration_new mr c = (id, c') → undisturbed c tr c' tr.
Proof.
  intros [Ho _ _] E. cbn in Ho. split; [exists []; by rewrite app_nil_r|]. intros i Hi.
  assert (c' = Cache (registry c) (arc_new mr (registrations c)).2) as ->
    by (unfold registration_new in E; by simplify_eq/=).
  cbn [registrations]. rewrite arc_new_value, decide_False; [done|]. intros ->. apply arc_value_is_Some in Hi as [? Hi]. by rewrite (owns_fresh_None _ _ Ho) in Hi.
Qed.

Lemma register_undisturbed d ptr n c L tr r tr' :
  cache_ok c L tr → register d ptr n tr = (r, tr') → cache_ok c L tr' ∧ undisturbed c tr c tr'.
Proof.
  intros Hc Hr. unfold register in Hr. destruct (fi_mr_reg _ _ _ _). simplify_eq.
  split; [eapply cache_ok_grows; [done|by eexists]|apply undisturbed_grows].
Qed.

Lemma operand_undisturbed d ptr n span c L tr r c' tr' :
  cache_ok c L tr → operand d ptr n span c tr = (r, c', tr') → undisturbed c tr c' tr'.
Proof.
  intros Hc. unfold operand. destruct (checked_add _ _) as [limit|];
    [|intros; simplify_eq; apply undisturbed_refl].
  unfold covering. destruct (find_covering _ _ _ _) as [id|].
  { intros; simplify_eq. apply undisturbed_same; [exists []; by rewrite app_nil_r|].
    intros. apply arc_clone_value. }
  set (cacheable := span ≫= _). destruct (register_span _ _ _ _ _) as [region tr1] eqn:Hs.
  pose proof (register_span_no_close _ _ _ _ _ _ _ Hs) as Hgrow.
  pose proof (cache_ok_grows _ _ _ _ Hc Hgrow) as Hc1. destruct Hgrow as (t & -> & _).
  destruct region as [[[b l] mr]|error]; [|intros; simplify_eq; apply undisturbed_grows].
  destruct (registration_new mr c) as [id c2] eqn:Hn.
  assert (undisturbed c tr c2 (tr ++ t)) as Hu2.
  { eapply undisturbed_trans; [apply undisturbed_grows|eapply new_undisturbed; [apply Hc1|done]]. }
  destruct cacheable as [s|]; [|intros; by simplify_eq].
  destruct (track b l d id c2 _) as [c3 tr3] eqn:Ht. intros; simplify_eq.
  apply register_span_Ok in Hs as [Hj _].
  destruct (registration_new_ok _ _ _ _ _ _ Hc1 Hn) as (Hc2 & _ & _).
  assert (id ∈ L ⊎ {[+ id +]}) as Hid by multiset_solver.
  destruct (track_ok _ _ _ _ _ _ _ _ _ Hc2 Hid (registered_as_new _ _ _ _ _ _ _ _ _ _ Hc1 Hj Hn) Ht)
    as (_ & Hg & Hv & _).
  eapply undisturbed_trans; [exact Hu2|by apply undisturbed_same].
Qed.

(** [pin] on either branch: the cache stays in order, and nothing is held. *)
Lemma pin_undisturbed d b n c L tr r c' tr' :
  cache_ok c L tr → pin d b n c tr = (r, c', tr') → cache_ok c' L tr' ∧ undisturbed c tr c' tr'.
Proof.
  intros Hc Hpin. assert (r = Ok tt ∨ c' = c ∧ is_ok r = false) as Hr.
  { unfold pin in Hpin. destruct (checked_add _ _); [|by simplify_eq; right].
    destruct (register _ _ _ _) as [[mr|] ?]; [|by simplify_eq; right].
    destruct (registration_new _ _), (track _ _ _ _ _ _), (RegionCache.release _ _ _). by simplify_eq; left. }
  destruct Hr as [->|[-> Hr]].
  - destruct (pin_ok _ _ _ _ _ _ _ _ Hc Hpin) as [Hc' _]. split; [done|].
    unfold pin in Hpin. destruct (checked_add b n) as [limit|] eqn:Hadd; [|by simplify_eq].
    apply checked_add_Some in Hadd as [-> _].
    destruct (register d b n tr) as [[mr|] tr0] eqn:Hreg; [|by simplify_eq].
    destruct (register_undisturbed _ _ _ _ _ _ _ _ Hc Hreg) as [Hc0 Hu0].
    apply register_Ok in Hreg as [-> Hreg].
    destruct (registration_new mr c) as [id c1] eqn:Hn.
    destruct (registration_new_ok _ _ _ _ _ _ Hc0 Hn) as (Hc1 & _ & Hv).
    pose proof (new_undisturbed _ _ _ _ _ _ (cache_process _ _ _ Hc0) Hn) as Hu1.
    destruct (track b (b + n) d id c1 _) as [c2 tr2] eqn:Ht.
    destruct (RegionCache.release [id] c2 tr2) as [c3 tr3] eqn:Hrel. simplify_eq.
    assert (id ∈ L ⊎ {[+ id +]}) as Hid by multiset_solver.
    assert (just_registered tr (tr ++ [MrReg d b n]) d b (b + n) mr) as Hj.
    { split; [by eexists|]. exists tr, []. by replace (b + n - b)%Z with n by lia. }
    destruct (track_ok _ _ _ _ _ _ _ _ _ Hc1 Hid (registered_as_new _ _ _ _ _ _ _ _ _ _ Hc0 Hj Hn) Ht)
      as (Hc2 & Hg2 & Hv2 & _).
    assert (cache_ok c2 (L ⊎ list_to_set_disj [id]) tr2) as Hc2'.
    { simpl. by rewrite (right_id_L ∅ (⊎)). }
    destruct (release_cache_ok _ _ _ _ _ _ Hc2' Hrel) as (_ & _ & Hg3 & Hv3).
    eauto 10 using undisturbed_trans, undisturbed_same.
  - unfold pin in Hpin. destruct (checked_add _ _);
      [|simplify_eq; split; [done|apply undisturbed_refl]].
    destruct (register _ _ _ _) as [[mr|] tr0] eqn:Hreg.
    + destruct (registration_new _ _), (track _ _ _ _ _ _), (RegionCache.release _ _ _). by simplify_eq.
    + simplify_eq. by eapply register_undisturbed.
Qed.

(** ** What was posted *)

Definition post_call (call : fabric_call) : Prop :=
  match call with WriteMsg _ _ _ _ _ _ _ _ _ | Read _ _ _ _ _ _ _ _ => True | _ => False end.

Lemma carried_from_app before m calls1 calls2 :
  carried_from before m (calls1 ++ calls2) =
  carried_from (before ++ calls1) (carried_from before m calls1) calls2.
Proof.
  revert before m. induction calls1 as [|c calls1 IH]; intros before m; simpl; [by rewrite app_nil_r|].
  by rewrite IH, <-(assoc_L (++)).
Qed.

Lemma carried_by_snoc tr call : carried_by (tr ++ [call]) = carry tr (carried_by tr) call.
Proof. unfold carried_by. by rewrite carried_from_app. Qed.

Lemma carried_by_made tr tr' : made (λ call, ¬ post_call call) tr tr' → carried_by tr' = carried_by tr.
Proof.
  intros (calls & -> & Hc). induction calls as [|call calls IH] using rev_ind; [by rewrite app_nil_r|].
  apply Forall_app in Hc as [Hc [Hl _]%Forall_cons].
  rewrite (assoc_L (++)), carried_by_snoc, IH by done. destruct call; try done; by destruct (Hl I).
Qed.

Lemma quietly_not_post tr tr' : quietly tr tr' → made (λ call, ¬ post_call call) tr tr'.
Proof. apply made_impl. intros []; simpl; tauto. Qed.

(** The endpoint's own settings are never changed. *)
Definition same_regions (ep ep' : Endpoint) : Prop :=
  requires_local_mr ep' = requires_local_mr ep ∧ local_regions ep' = local_regions ep.

Lemma covers_later e e' lease bytes d :
  same_regions (e_endpoint e) (e_endpoint e') →
  undisturbed (e_cache e) (e_trace e) (e_cache e') (e_trace e') →
  covers e lease bytes d → covers e' lease bytes d.
Proof.
  intros [Hr Hl] [Hg Hv]. unfold covers. rewrite Hr, Hl. destruct (requires_local_mr (e_endpoint e)); [|done].
  intros (id & b & l & mr & ? & ? & Hval & Hreg & ? & ?).
  assert (arc_value id (registrations (e_cache e')) = arc_value id (registrations (e_cache e))) as Hid
    by (apply Hv; by rewrite Hval).
  exists id, b, l, mr. split_and!; [done|done|by rewrite Hid| |done|done].
  eapply registered_as_ext; [exact Hreg|exact Hg|exact Hid].
Qed.

Lemma engine_steady e e' :
  same_regions (e_endpoint e) (e_endpoint e') →
  undisturbed (e_cache e) (e_trace e) (e_cache e') (e_trace e') →
  made (λ call, ¬ post_call call) (e_trace e) (e_trace e') → steady e e'.
Proof.
  intros Hs Hu Hm. split; [by intros lease bytes d; apply covers_later|by apply carried_by_made].
Qed.

(** Calls that neither close nor register anything. *)
Definition no_close (call : fabric_call) : Prop := match call with MrClose _ => False | _ => True end.

Lemma closes_nil calls : Forall no_close calls → closes calls = [].
Proof. unfold closes. induction 1 as [|call calls Hc _ IH]; csimpl; [done|]. by destruct call. Qed.

Lemma engine_calls e ep tr L (P : fabric_call → Prop) :
  (∀ call, P call → no_close call) → made P (e_trace e) tr → same_regions (e_endpoint e) ep →
  cache_ok (e_cache e) L (e_trace e) →
  cache_ok (e_cache e) L tr ∧ ∀ lease bytes d, covers e lease bytes d → covers (Engine ep (e_cache e) tr) lease bytes d.
Proof.
  intros HP (calls & -> & Hc) Hs Hok. split.
  - eapply cache_ok_grows; [done|]. exists calls. split; [done|]. apply closes_nil. by eapply Forall_impl.
  - intros lease bytes d. apply covers_later; [done|apply undisturbed_grows].
Qed.

Lemma peer_calls_leased e ep tr L :
  made peer_call (e_trace e) tr → same_regions (e_endpoint e) ep → cache_ok (e_cache e) L (e_trace e) →
  leased (Engine ep (e_cache e) tr) L ∧ steady e (Engine ep (e_cache e) tr).
Proof.
  intros Hm Hs Hok. destruct (engine_calls e ep tr L peer_call) as [Hc Hp]; [by intros []|done..|].
  split; [exact Hc|]. split; [exact Hp|]. apply carried_by_made. eapply made_impl; [|exact Hm]. intros []; simpl; tauto.
Qed.

(** A posting call and the queue's. *)
Lemma post_call_leased e L call code context bytes d :
  (∀ m, carry (e_trace e) m call = if decide (code = 0%Z) then <[context := (bytes, d)]> m else m) →
  no_close call → cache_ok (e_cache e) L (e_trace e) →
  leased (Engine (e_endpoint e) (e_cache e) (e_trace e ++ [call])) L ∧
  advance e (Engine (e_endpoint e) (e_cache e) (e_trace e ++ [call]))
    (if decide (code = 0%Z) then <[context := (bytes, d)]> (carried e) else carried e).
Proof.
  intros Hcarry Hn Hok.
  destruct (engine_calls e (e_endpoint e) (e_trace e ++ [call]) L no_close) as [Hc Hp];
    [done|by apply made_1|done|done|].
  split; [exact Hc|]. split; [exact Hp|]. simpl. by rewrite carried_by_snoc, Hcarry.
Qed.

#[export] Instance engine_lease_laws : LeaseLaws engine.
Proof.
  split.
  - intros client address e L Hok. simpl in *. unfold engine_insert_peer, insert_peer.
    destruct (handle _ _ _ _) as [[r p] tr] eqn:Eh. apply handle_peer_calls in Eh.
    by apply peer_calls_leased.
  - intros i e L Hok. simpl in *. unfold engine_drop_peer, drop_peer.
    destruct (drop_entries _ _ _) as [p tr] eqn:Eh. apply drop_entries_peer_calls in Eh.
    by apply peer_calls_leased.
  - intros client e L Hok. simpl in *.
    unfold engine_release_peer, Endpoint.release_peer, PeerAddresses.release, client_remove.
    destruct (drop_entries _ _ _) as [p tr] eqn:Eh. apply drop_entries_peer_calls in Eh.
    by apply peer_calls_leased.
  - intros b l e L Hok. simpl in *. unfold engine_pin_region, pin_region.
    destruct (negb _); [split; [by destruct e|destruct e; apply steady_refl]|].
    destruct (pin _ _ _ _ _) as [[r c] tr] eqn:Eh. destruct (pin_undisturbed _ _ _ _ _ _ _ _ _ Hok Eh) as [Hc Hu].
    split; [exact Hc|]. apply engine_steady; [done|exact Hu|]. by eapply quietly_not_post, memory_calls_quiet, pin_memory_calls.
  - intros ptr l span e L r e' Hok Hop. simpl in *. unfold engine_local_operand, local_operand in Hop.
    destruct (requires_local_mr (e_endpoint e)) eqn:Hmr; simpl in Hop.
    + destruct (operand _ _ _ _ _ _) as [[r1 c] tr] eqn:Eh. simplify_eq.
      pose proof (operand_undisturbed _ _ _ _ _ _ _ _ _ _ Hok Eh) as Hu.
      split; [apply engine_steady; [done|exact Hu|by eapply quietly_not_post, memory_calls_quiet, operand_memory_calls]|].
      destruct (operand_cases _ _ _ _ _ _ _ _ _ _ Hok Eh) as [Hr _]. destruct r as [op|error]; [|by destruct Hr as [-> ?]].
      destruct Hr as ([(id & b & lim & mr & Hl & Hc & Hv & Hd & Hreg & Hb & Hlim)] & _ & _).
      rewrite Hl. unfold leases_of. simpl. rewrite (right_id_L ∅ (⊎)). split; [exact Hc|].
      unfold covers. simpl. rewrite Hmr. exists id, b, lim, mr. by split_and!.
    + simplify_eq. destruct e as [ep c tr]. split; [apply steady_refl|]. simpl in *. split.
      * unfold leases_of. simpl. by rewrite (right_id_L ∅ (⊎)).
      * unfold covers. simpl. by rewrite Hmr.
  - intros lease e L Hok. simpl in *. unfold engine_drop_lease.
    destruct (RegionCache.release _ _ _) as [c tr] eqn:Eh.
    destruct (release_cache_ok _ _ _ _ _ _ Hok Eh) as (Hc & _ & Hg & Hv). split; [exact Hc|].
    apply engine_steady; [done|by apply undisturbed_same|by eapply quietly_not_post, memory_calls_quiet, release_memory_calls].
  - intros i k a s d context e L code e' Hok Hp. simpl in *. unfold engine_post_out, post_out in Hp.
    simplify_eq. apply post_call_leased; [|done|exact Hok]. intros m. simpl. by destruct s.
  - intros i k a s d context e L code e' Hok Hp. simpl in *. unfold engine_post_in, post_in in Hp.
    simplify_eq. apply post_call_leased; [|done|exact Hok]. intros m. simpl. by destruct s.
  - intros max e L r out e' Hok Hr. simpl in *. unfold engine_reap in Hr.
    destruct (reap _ _ _ _) as [[[r1 out1] tr]|] eqn:Er; simplify_eq; [|split; [done|apply steady_refl]].
    unfold reap in Er. apply reap_loop_calls in Er as (calls & -> & Hq).
    assert (made queue_call (e_trace e) (e_trace e ++ calls)) as Hm by (by exists calls).
    destruct (engine_calls e (e_endpoint e) (e_trace e ++ calls) L queue_call) as [Hc Hp]; [by intros []|done..|].
    split; [exact Hc|]. split; [exact Hp|]. apply carried_by_made. eapply made_impl; [|exact Hm]. intros []; simpl; tauto.
Qed.

End engine.

(** ** The process's other threads *)

(** What another thread does at a time: one critical section of the registry or one drop,
    with what it holds; or a call that neither posts, closes nor reads the queue. *)
Definition other_call (call : fabric_call) : Prop :=
  match call with MrReg _ _ _ | AvInsert _ _ | AvRemove _ _ => True | _ => False end.

Inductive others_step `{Libfabric} : engine * gmultiset nat → engine * gmultiset nat → Prop :=
  | others_cache ep c L tr c' L' tr' :
      cache_step (Process c L tr) (Process c' L' tr') →
      (extents_registered c tr → extents_registered c' tr') →
      others_step (Engine ep c tr, L) (Engine ep c' tr', L')
  | others_call ep c L tr call :
      other_call call → others_step (Engine ep c tr, L) (Engine ep c (tr ++ [call]), L).

Section others.
  Context `{Libfabric}.
  Implicit Types (e : engine) (L X R : gmultiset nat).

(** The other threads' steps do not depend on what the worker holds. *)
Lemma cache_step_frame X p p' :
  cache_step p p' →
  cache_step (Process (cached p) (X ⊎ leases p) (calls p)) (Process (cached p') (X ⊎ leases p') (calls p')).
Proof.
  destruct 1; simpl; rewrite ?(assoc_L (⊎)); econstructor; try done; multiset_solver.
Qed.

Lemma cache_step_undisturbed p p' :
  process_ok p → cache_step p p' → undisturbed (cached p) (calls p) (cached p') (calls p').
Proof.
  intros Hok Hs. destruct Hs as [mr id c c' L tr E|base end_ d id repl c c' L tr Hid E
    |s e d found c c' L tr E|s e ret c c' L tr E|d ret c c' L tr E|id c L tr Hid|id c c' L tr tr' E]; simpl.
  - by eapply new_undisturbed.
  - apply undisturbed_same; [exists []; by rewrite app_nil_r|].
    apply track_locked_spec in E as (-> & _). intros. apply arc_clone_value.
  - apply undisturbed_same; [exists []; by rewrite app_nil_r|]. unfold covering in E.
    destruct (find_covering _ _ _ _); simplify_eq; [|done]. intros. apply arc_clone_value.
  - apply undisturbed_same; [exists []; by rewrite app_nil_r|].
    by apply invalidate_locked_spec in E as (-> & _).
  - apply undisturbed_same; [exists []; by rewrite app_nil_r|].
    by apply clear_domain_locked_spec in E as (-> & _); [|apply Hok].
  - apply undisturbed_same; [exists []; by rewrite app_nil_r|]. intros. apply arc_clone_value.
  - apply (release_spec [id] _ _ _ _ L) in E as (_ & _ & Hg & Hv); [by apply undisturbed_same|].
    simpl. by rewrite (right_id_L ∅ (⊎)).
Qed.

Lemma others_step_quietly x x' : others_step x x' → quietly (e_trace x.1) (e_trace x'.1).
Proof.
  intros [ep c L tr c' L' tr' Hs _|ep c L tr call Hcall]; simpl.
  - inversion Hs; subst; try apply quietly_refl. by eapply memory_calls_quiet, release_memory_calls.
  - apply quietly_1. by destruct call.
Qed.

Lemma others_step_leased x x' X :
  leased x.1 (X ⊎ x.2) → others_step x x' → leased x'.1 (X ⊎ x'.2) ∧ steady x.1 x'.1.
Proof.
  intros Hl Hs. pose proof (others_step_quietly _ _ Hs) as Hq%quietly_not_post.
  destruct Hs as [ep c L tr c' L' tr' Hs Hex|ep c L tr call Hcall]; simpl in *.
  - apply (cache_step_frame X) in Hs. simpl in Hs. destruct Hl as [Hok Hx].
    pose proof (cache_step_undisturbed _ _ Hok Hs) as Hu.
    split; [split; [by eapply cache_step_ok|auto]|]. by apply engine_steady.
  - destruct (engine_calls (Engine ep c tr) ep (tr ++ [call]) (X ⊎ L) other_call) as [Hc Hp];
      [by intros []|by apply made_1|done|done|].
    split; [exact Hc|]. split; [exact Hp|]. by apply carried_by_made.
Qed.

Lemma others_steps_leased x x' X :
  rtc others_step x x' → leased x.1 (X ⊎ x.2) → leased x'.1 (X ⊎ x'.2) ∧ steady x.1 x'.1.
Proof.
  induction 1 as [x|x1 x2 x3 Hs _ IH]; intros Hl; [split; [done|apply steady_refl]|].
  destruct (others_step_leased _ _ _ Hl Hs) as [Hl2 Hs2]. destruct (IH Hl2) as [Hl3 Hs3].
  split; [done|]. by eapply steady_trans.
Qed.

Lemma others_steps_flying x x' : rtc others_step x x' → flying (e_trace x'.1) = flying (e_trace x.1).
Proof.
  induction 1 as [x|x1 x2 x3 Hs _ IH]; [done|].
  by rewrite IH, (quietly_flying _ _ (others_step_quietly _ _ Hs)).
Qed.

End others.

(** The worker's endpoint among them: before each call of the worker's the others have run
    for a while.  [meddle] is what they do, by how many calls there were before. *)
Record shared := Shared { own : engine; others : gmultiset nat; moment : nat }.

Section shared.
  Context `{Libfabric, !CompletionLaws}.
  Variable (meddle : nat → engine * gmultiset nat → engine * gmultiset nat).
  Hypothesis meddle_steps : ∀ n x, rtc others_step x (meddle n x).
  Implicit Types (sh : shared).

Definition elsewhere sh : shared :=
  let '(e, R) := meddle (moment sh) (own sh, others sh) in Shared e R (S (moment sh)).

Definition on_own {A} (f : engine → A * engine) sh : A * shared :=
  let sh := elsewhere sh in
  let '(a, e) := f (own sh) in (a, Shared e (others sh) (moment sh)).

Definition on_own_ (f : engine → engine) sh : shared :=
  let sh := elsewhere sh in Shared (f (own sh)) (others sh) (moment sh).

#[local] Instance shared_transport : Transport shared := {|
  t_insert_peer client address := on_own (t_insert_peer client address);
  t_drop_peer i := on_own_ (t_drop_peer i);
  t_release_peer client := on_own_ (t_release_peer client);
  t_pin_region b l := on_own (t_pin_region b l);
  t_local_operand ptr l span := on_own (t_local_operand ptr l span);
  t_drop_lease lease := on_own_ (t_drop_lease lease);
  t_post_out i k a s d context := on_own (t_post_out i k a s d context);
  t_post_in i k a s d context := on_own (t_post_in i k a s d context);
  t_reap max := on_own (t_reap max);
  t_max_tx sh := t_max_tx (own sh);
  t_again := t_again (E := engine);
  t_error := t_error (E := engine);
|}.

#[local] Instance shared_leases : LeaseModel shared := {|
  leased sh L := leased (own sh) (L ⊎ others sh);
  protects sh := protects (own sh);
  carried sh := carried (own sh);
|}.

Lemma elsewhere_posted sh : flying (e_trace (own (elsewhere sh))) = flying (e_trace (own sh)).
Proof.
  unfold elsewhere. pose proof (meddle_steps (moment sh) (own sh, others sh)) as Hm.
  apply others_steps_flying in Hm. destruct (meddle _ _). exact Hm.
Qed.

Lemma elsewhere_leased sh L :
  leased sh L → leased (elsewhere sh) L ∧ steady (own sh) (own (elsewhere sh)).
Proof.
  intros Hl. unfold elsewhere. pose proof (meddle_steps (moment sh) (own sh, others sh)) as Hm.
  apply (others_steps_leased _ _ L) in Hm as [Hl' Hs]; [|exact Hl]. destruct (meddle _ _). by split.
Qed.

#[local] Program Instance shared_laws : TransportLaws shared := {|
  posted sh := flying (e_trace (own sh));
|}.
Next Obligation.
  intros client address sh. pose proof (insert_peer_posted client address (own (elsewhere sh))) as Hp.
  simpl in *. rewrite elsewhere_posted in Hp. rewrite <-Hp. unfold on_own. by destruct (engine_insert_peer _ _ _).
Qed.
Next Obligation.
  intros i sh. pose proof (drop_peer_posted i (own (elsewhere sh))) as Hp. simpl in *. by rewrite elsewhere_posted in Hp.
Qed.
Next Obligation.
  intros client sh. pose proof (release_peer_posted client (own (elsewhere sh))) as Hp. simpl in *.
  by rewrite elsewhere_posted in Hp.
Qed.
Next Obligation.
  intros b l sh. pose proof (pin_region_posted b l (own (elsewhere sh))) as Hp.
  simpl in *. rewrite elsewhere_posted in Hp. rewrite <-Hp. unfold on_own. by destruct (engine_pin_region _ _ _).
Qed.
Next Obligation.
  intros ptr l span sh. pose proof (local_operand_posted ptr l span (own (elsewhere sh))) as Hp.
  simpl in *. rewrite elsewhere_posted in Hp. rewrite <-Hp. unfold on_own. by destruct (engine_local_operand _ _ _ _).
Qed.
Next Obligation.
  intros lease sh. pose proof (drop_lease_posted lease (own (elsewhere sh))) as Hp. simpl in *.
  by rewrite elsewhere_posted in Hp.
Qed.
Next Obligation.
  intros i k a s d context sh code sh' Hp. simpl in *. rewrite <-(elsewhere_posted sh). unfold on_own in Hp.
  destruct (engine_post_out _ _ _ _ _ _ _) as [c e] eqn:Ep. simplify_eq.
  exact (post_out_posted (E := engine) i k a s d context (own (elsewhere sh)) code e Ep).
Qed.
Next Obligation.
  intros i k a s d context sh code sh' Hp. simpl in *. rewrite <-(elsewhere_posted sh). unfold on_own in Hp.
  destruct (engine_post_in _ _ _ _ _ _ _) as [c e] eqn:Ep. simplify_eq.
  exact (post_in_posted (E := engine) i k a s d context (own (elsewhere sh)) code e Ep).
Qed.
Next Obligation.
  intros max sh r out sh' Hr Hnn. simpl in *. rewrite <-(elsewhere_posted sh) in *. unfold on_own in Hr.
  destruct (engine_reap _ _) as [[r1 out1] e] eqn:Er. simplify_eq.
  exact (reap_posted (E := engine) max (own (elsewhere sh)) r out e Er Hnn).
Qed.

(** An operation of the endpoint, after the others'. *)
Lemma on_own_leased {A} (f : engine → A * engine) sh a sh' L :
  on_own f sh = (a, sh') → leased sh L →
  ∃ e e', f e = (a, e') ∧ leased e (L ⊎ others sh') ∧ steady (own sh) e ∧ own sh' = e'.
Proof.
  unfold on_own. intros Hf Hl. destruct (elsewhere_leased sh L Hl) as [Hl' Hs].
  destruct (f (own (elsewhere sh))) as [a1 e1] eqn:Ef. simplify_eq. simpl. exists (own (elsewhere sh)), e1.
  by split_and!.
Qed.

#[local] Instance shared_lease_laws : LeaseLaws shared.
Proof.
  assert (∀ (e1 e2 e3 : engine), steady e1 e2 → steady e2 e3 → steady e1 e3) as Htr by apply steady_trans.
  split.
  - intros client address sh L Hl. destruct (t_insert_peer client address sh) as [r sh'] eqn:Ef.
    apply (on_own_leased (t_insert_peer client address) _ _ _ L) in Ef as (e & e' & Ef & Hle & Hs & He); [|done].
    destruct (insert_peer_leased client address e _ Hle) as [Hl' Hs']. rewrite Ef in Hl', Hs'. simpl in Hl', Hs'.
    subst e'. split; [exact Hl'|exact (Htr _ _ _ Hs Hs')].
  - intros i sh L Hl. destruct (elsewhere_leased sh L Hl) as [Hl1 Hs1].
    destruct (drop_peer_leased (E := engine) i (own (elsewhere sh)) _ Hl1) as [Hl2 Hs2].
    split; [exact Hl2|exact (Htr _ _ _ Hs1 Hs2)].
  - intros client sh L Hl. destruct (elsewhere_leased sh L Hl) as [Hl1 Hs1].
    destruct (release_peer_leased (E := engine) client (own (elsewhere sh)) _ Hl1) as [Hl2 Hs2].
    split; [exact Hl2|exact (Htr _ _ _ Hs1 Hs2)].
  - intros b l sh L Hl. destruct (t_pin_region b l sh) as [r sh'] eqn:Ef.
    apply (on_own_leased (t_pin_region b l) _ _ _ L) in Ef as (e & e' & Ef & Hle & Hs & He); [|done].
    destruct (pin_region_leased b l e _ Hle) as [Hl' Hs']. rewrite Ef in Hl', Hs'. simpl in Hl', Hs'.
    subst e'. split; [exact Hl'|exact (Htr _ _ _ Hs Hs')].
  - intros ptr l span sh L r sh' Hl Ef.
    apply (on_own_leased (t_local_operand ptr l span) _ _ _ L) in Ef as (e & e' & Ef & Hle & Hs & He); [|done].
    destruct (local_operand_leased _ _ _ _ _ _ _ Hle Ef) as [Hs' Hr]. subst e'.
    split; [exact (Htr _ _ _ Hs Hs')|]. destruct r as [op|error]; [|exact Hr]. destruct Hr as [Hr Hp].
    split; [|exact Hp]. eapply (leased_eq (own sh')); [exact Hr|]. multiset_solver.
  - intros lease sh L Hl. destruct (elsewhere_leased sh _ Hl) as [Hl1 Hs1].
    destruct (drop_lease_leased lease (own (elsewhere sh)) (L ⊎ others (elsewhere sh))) as [Hl2 Hs2].
    { eapply (leased_eq (own (elsewhere sh))); [exact Hl1|]. multiset_solver. }
    split; [exact Hl2|exact (Htr _ _ _ Hs1 Hs2)].
  - intros i k a s d context sh L code sh' Hl Ef.
    apply (on_own_leased (t_post_out i k a s d context) _ _ _ L) in Ef as (e & e' & Ef & Hle & [Hs Hc] & He); [|done].
    destruct (post_out_leased _ _ _ _ _ _ _ _ _ _ Hle Ef) as [Hl' [Hs' Hc']]. subst e'.
    split; [exact Hl'|]. rewrite Hc in Hc'. split; [|exact Hc']. intros lease bytes d' Hp. by apply Hs', Hs.
  - intros i k a s d context sh L code sh' Hl Ef.
    apply (on_own_leased (t_post_in i k a s d context) _ _ _ L) in Ef as (e & e' & Ef & Hle & [Hs Hc] & He); [|done].
    destruct (post_in_leased _ _ _ _ _ _ _ _ _ _ Hle Ef) as [Hl' [Hs' Hc']]. subst e'.
    split; [exact Hl'|]. rewrite Hc in Hc'. split; [|exact Hc']. intros lease bytes d' Hp. by apply Hs', Hs.
  - intros max sh L r out sh' Hl Ef.
    apply (on_own_leased (t_reap max) _ (r, out) _ L) in Ef as (e & e' & Ef & Hle & Hs & He); [|done].
    destruct (reap_leased _ _ _ _ _ _ Hle Ef) as [Hl' Hs']. subst e'.
    split; [exact Hl'|exact (Htr _ _ _ Hs Hs')].
Qed.

End shared.

(** ** The whole: a service, the pool, and the other threads *)

(** A service among the others, and the operations of its pool jobs that pool threads have
    taken up: their leases are then those threads', who drop them. *)
Record system (T K : Type) := System {
  served : service shared T K;
  taken_up : list (InFlight T);
}.
Arguments System {T K} _ _.
Arguments served {T K} _.
Arguments taken_up {T K} _.

Section system.
  Context `{Libfabric, !CompletionLaws} {T K : Type} `{!Operands T} (ident : T → K)
    `{!OperandsLaws T K ident, !EqDecision K}.
  Variable (meddle : nat → engine * gmultiset nat → engine * gmultiset nat).
  Hypothesis meddle_steps : ∀ n x, rtc others_step x (meddle n x).
  Variables (quiesce_writes : bool) (progress_deadline : Z) (cap : nat) (quiesce_pointer : Z).
  Variables (clock : nat → Z) (place : gmap Z (InFlight T) → Z) (crc : slice → Z).
  Hypothesis place_fresh : ∀ m, m !! place m = None.
  Hypothesis place_nonnull : ∀ m, place m ≠ 0%Z.

  #[local] Existing Instance shared_transport.
  #[local] Existing Instance shared_leases.
#[local] Instance among : Transport shared := shared_transport meddle.
#[local] Instance among_laws : TransportLaws shared := shared_laws meddle meddle_steps.
#[local] Instance among_leases : LeaseLaws shared := shared_lease_laws meddle meddle_steps.

Definition with_shared (sh : shared) (s : service shared T K) : service shared T K :=
  with_thread (with_endpoint sh (thread s)) s.

Definition shared_of (s : service shared T K) : shared := endpoint_of (thread s).

(** The next operation a pool thread takes up: its lease leaves the job. *)
Definition take_up (op : InFlight T) (y : system T K) : system T K :=
  let sh := shared_of (served y) in
  System (with_shared (Shared (own sh) (others sh ⊎ leases_of (local_lease op)) (moment sh)) (served y))
         (op :: taken_up y).

Inductive system_step : system T K → system T K → Prop :=
  | by_service s s' ops :
      service_step ident quiesce_writes progress_deadline cap quiesce_pointer clock place crc s s' →
      system_step (System s ops) (System s' ops)
  | by_pool y op :
      op :: taken_up y ⊆+ pooled (log (acc (thread (served y)))) → system_step y (take_up op y)
  | by_others s ops :
      system_step (System s ops) (System (with_shared (elsewhere meddle (shared_of s)) s) ops).

Record system_ok (y : system T K) : Prop := {
  sy_service : ∃ rec, service_ok ident (served y) rec;
  sy_holds : holds quiesce_pointer (ops_leases (taken_up y)) ∅ [] (thread (served y));
}.

Lemma cache_ok_eq c L L' tr : cache_ok c L tr → L = L' → cache_ok c L' tr.
Proof. by intros ? <-. Qed.

Lemma service_ok_endpoint sh s rec :
  posted sh = posted (shared_of s) → service_ok ident s rec → service_ok ident (with_shared sh s) rec.
Proof.
  intros Hp [Ht Hb Hf Hse Hg Hcl]. split; try done.
  - apply (books_of_framed ident (thread s) _ []); [apply framed_endpoint| |exact Hb].
    change (posted sh ≡ₚ posted (endpoint_of (thread s))). unfold shared_of in Hp. by rewrite Hp.
  - unfold flight. change (in_flight (thread s) = length (posted sh)). rewrite Hp. exact Hf.
  - intros Hst. destruct (Hse Hst). split; try done. change (posted sh = []). by rewrite Hp.
Qed.

Lemma take_up_ok op y :
  op :: taken_up y ⊆+ pooled (log (acc (thread (served y)))) → system_ok y → system_ok (take_up op y).
Proof.
  intros Hop [[rec Hok] [(J & HJ & Hl) Ha Hq]]. split; [exists rec; by apply service_ok_endpoint|].
  apply submseteq_Permutation in Hop as [rest Hrest].
  apply ops_leases_Permutation in Hrest. rewrite ops_leases_app in Hrest. simpl in Hrest.
  split; [|exact Ha|exact Hq]. exists (ops_leases rest). split.
  - simpl. rewrite Hrest. multiset_solver.
  - assert (J = leases_of (local_lease op) ⊎ ops_leases rest) as -> by multiset_solver.
    cbn in Hl |- *. eapply cache_ok_eq; [exact Hl|]. unfold shared_of. multiset_solver.
Qed.

Lemma system_step_ok y y' : system_step y y' → system_ok y → system_ok y'.
Proof.
  intros Hs Hok. destruct Hs as [s s' ops Hs|y op Hop|s ops].
  - destruct Hok as [[rec Hs0] Hh]. simpl in *. split.
    + by eapply step_ok.
    + eapply (service_step_holds ident quiesce_writes progress_deadline cap quiesce_pointer clock place crc);
        [exact place_fresh|exact place_nonnull|exact Hs0|exact Hh|exact Hs].
  - by apply take_up_ok.
  - destruct Hok as [[rec Hs0] Hh]. simpl in *. split.
    + exists rec. apply service_ok_endpoint; [|done]. by apply elsewhere_posted.
    + eapply holds_endpoint; [exact Hh| |].
      * intros L HL. by apply elsewhere_leased.
      * intros b. cbn. by rewrite elsewhere_posted.
Qed.

Lemma system_steps_ok y y' : rtc system_step y y' → system_ok y → system_ok y'.
Proof. induction 1; eauto using system_step_ok. Qed.

(** A process in which the worker starts: nothing posted, every lease someone else's. *)
Definition starts (sh : shared) : Prop :=
  flying (e_trace (own sh)) = [] ∧ cache_ok (e_cache (own sh)) (others sh) (e_trace (own sh)).

Lemma start_system_ok sh : starts sh → system_ok (System (service_new sh) []).
Proof.
  intros [Hp Hc]. split; [exists []; by apply service_new_ok|].
  apply (service_new_holds ident quiesce_pointer place); [done|done|exact Hp|].
  eapply cache_ok_eq; [exact Hc|]. multiset_solver.
Qed.

Lemma reachable_system_ok sh y :
  starts sh → rtc system_step (System (service_new sh) []) y → system_ok y.
Proof. intros Hst Hy. by eapply system_steps_ok, start_system_ok. Qed.

(** C2: The fabric never touches memory that is not registered.  Whatever callers, the
    worker, the pool's threads and the process's other threads do, and in whatever order,
    each operation the fabric has was posted with the bytes of its own transfer (or the
    quiesce byte) and, on an endpoint that registers local memory, with the descriptor of a
    registration on its domain around those bytes; the operation's box holds a lease on that
    registration, which is open, however often its pages were reclaimed meanwhile. *)
Theorem posted_memory_stays_registered sh y
  (Hst : starts sh) (Hy : rtc system_step (System (service_new sh) []) y) :
  let e := own (shared_of (served y)) in
  ∀ b, b ∈ flying (e_trace e) → ∃ op bytes d,
    boxes (thread (served y)) !! b = Some op ∧ carried_by (e_trace e) !! b = Some (bytes, d) ∧
    (bytes = own_bytes op ∨ bytes = Slice quiesce_pointer 1) ∧
    (requires_local_mr (e_endpoint e) = true →
     ∃ id lo hi mr, local_lease op = Some id ∧ d = fi_mr_desc mr ∧
       arc_value id (registrations (e_cache e)) = Some mr ∧
       registered_as (e_trace e) (registrations (e_cache e)) id (local_regions (e_endpoint e)) lo hi ∧
       (lo ≤ pointer bytes)%Z ∧ (pointer bytes + len bytes ≤ hi)%Z ∧
       id ∉ finalized (registrations (e_cache e))).
Proof.
  intros e b Hb. destruct (reachable_system_ok _ _ Hst Hy) as [_ [(J & HJ & Hl) Ha _]].
  destruct (Ha b Hb) as (op & bytes & d & Hop & Hc & Hpr & Hby). exists op, bytes, d.
  split_and!; [done|exact Hc|done|]. intros Hmr. cbn in Hpr. unfold covers in Hpr.
  change (own (endpoint_of (thread (served y)))) with e in Hpr. rewrite Hmr in Hpr.
  destruct Hpr as (id & lo & hi & mr & Hid & ? & ? & ? & ? & ?). exists id, lo, hi, mr.
  split_and!; try done. cbn in Hl. eapply owns_live; [apply Hl|]. cbn.
  rewrite (held_delete _ _ _ Hop), Hid. unfold leases_of. simpl. multiset_solver.
Qed.

(** C19: No registration leaks.  When the worker sleeps or has left, and the pool has taken
    up every operation of its jobs, the leases outside the registry are exactly the other
    threads': the worker holds none, so every registration that is not cached and that no
    other thread holds has been closed. *)
Theorem worker_returns_every_lease sh y
  (Hst : starts sh) (Hy : rtc system_step (System (service_new sh) []) y)
  (Hw : status (served y) ≠ Running)
  (Hpool : taken_up y ≡ₚ pooled (log (acc (thread (served y))))) :
  let sh' := shared_of (served y) in
  let c := e_cache (own sh') in
  process_ok (Process c (others sh') (e_trace (own sh'))) ∧
  ∀ id, is_Some (arc_value id (registrations c)) →
    id ∈ finalized (registrations c) ↔ id ∉ registry_ids (registry c) ⊎ others sh'.
Proof.
  intros sh' c. destruct (reachable_system_ok _ _ Hst Hy) as [[rec Hok] Hh].
  pose proof (so_settled _ _ _ Hok Hw) as Hse.
  destruct (settled_holds ident quiesce_pointer clock place place_fresh place_nonnull _ _ _ _ Hse Hh) as (J & HJ & Hl).
  rewrite (ops_leases_Permutation _ _ Hpool) in HJ.
  assert (cache_ok c (others sh') (e_trace (own sh'))) as Hc.
  { eapply cache_ok_eq; [exact Hl|]. unfold sh', shared_of. multiset_solver. }
  split; [exact (cache_process _ _ _ Hc)|]. destruct Hc as [[Ho _ _] _]. cbn in Ho.
  intros id Hid%arc_value_is_Some. rewrite (owns_dead _ _ Ho), (owns_count _ _ Ho).
  rewrite not_elem_of_multiplicity. naive_solver.
Qed.

End system.

(** ** Witnesses

    A caller's region is pinned and a transfer's bytes are in it.  Another thread reclaims
    those pages, the way an extent hook would, at a given call of the worker's. *)

Section witnesses.
#[local] Existing Instance tagged.
#[local] Existing Instance tagged_laws.

(** A provider that takes everything and completes nothing. *)
Definition silent_libfabric : Libfabric := {|
  fi_mr_reg tr _ _ _ := (0%Z, (1 + Z.of_nat (length tr))%Z);
  fi_mr_desc mr := mr;
  fi_av_insert tr _ _ := (1%Z, (1 + Z.of_nat (length tr))%Z);
  fi_writemsg _ := 0%Z;
  fi_read _ := 0%Z;
  fi_cq_read _ _ := ((-11)%Z, []);
  fi_cq_readerr _ := ((-11)%Z, {| err_context := 0; err := 0; prov_errno := 0; provider_text := "" |});
  fi_strerror _ := "error";
  FI_EAGAIN := 11; FI_EAVAIL := 259; FI_ADDR_EFA := 19;
  FI_MR_LOCAL := 4; FI_MR_VIRT_ADDR := 16; FI_DELIVERY_COMPLETE := 268435456;
|}.

#[local] Instance silent_completions : @CompletionLaws silent_libfabric.
Proof. split. intros tr []; apply submseteq_nil_l. Qed.

(** The reclaiming thread: retires the extents from 0 up to 2^20 and drops them. *)
Definition reclaims (when : nat) `{Libfabric} (n : nat) (x : engine * gmultiset nat) : engine * gmultiset nat :=
  if n =? when then
    let '(c, tr) := invalidate 0 1048576 (e_cache x.1) (e_trace x.1) in
    (Engine (e_endpoint x.1) c tr, x.2)
  else x.

Lemma release_others `{Libfabric} ids ep c tr c' tr' L :
  RegionCache.release ids c tr = (c', tr') →
  rtc others_step (Engine ep c tr, L ⊎ list_to_set_disj ids) (Engine ep c' tr', L).
Proof.
  revert c tr L. induction ids as [|id ids IH]; intros c tr L Hr.
  { unfold RegionCache.release in Hr. simplify_eq/=. rewrite app_nil_r, (right_id_L ∅ (⊎)). by destruct c. }
  destruct (RegionCache.release [id] c tr) as [c1 tr1] eqn:E1.
  assert (RegionCache.release ids c1 tr1 = (c', tr')) as E2.
  { unfold RegionCache.release in Hr, E1 |- *. cbn [arc_drop_all] in *.
    destruct (arc_drop id (registrations c)) as [h last]. simplify_eq/=.
    destruct (arc_drop_all ids h). simplify_eq. by rewrite app_nil_r, fmap_app, (assoc_L (++)). }
  replace (L ⊎ list_to_set_disj (id :: ids)) with ((L ⊎ list_to_set_disj ids) ⊎ {[+ id +]}) by (simpl; multiset_solver).
  eapply rtc_l; [|by apply IH]. apply others_cache; [by apply step_drop|].
  assert (registry c1 = registry c ∧ (∃ t, tr1 = tr ++ t) ∧
    ∀ i, arc_value i (registrations c1) = arc_value i (registrations c)) as (Hreg & Hg & Hv).
  { unfold RegionCache.release in E1. cbn [arc_drop_all] in E1.
    destruct (arc_drop id (registrations c)) as [h last] eqn:Ed. simplify_eq/=. split_and!; [done|eauto|].
    intros i. unfold arc_drop in Ed. unfold arc_value.
    destruct (cells (registrations c) !! id) as [[v [|[|n]]]|] eqn:Ec; simplify_eq; [done|..|done]; simpl;
      destruct (decide (i = id)) as [->|]; by rewrite ?lookup_insert_eq, ?lookup_insert_ne, ?Ec by done. }
  intros Hx d b e He. rewrite Hreg in He. eapply registered_as_ext; [by apply Hx|exact Hg|apply Hv].
Qed.

Lemma reclaims_steps when `{Libfabric} n x : rtc others_step x (reclaims when n x).
Proof.
  unfold reclaims. destruct (n =? when); [|done]. destruct x as [[ep c tr] L]. simpl. unfold invalidate.
  destruct (invalidate_locked 0 1048576 c) as [retired c1] eqn:E1.
  destruct (RegionCache.release retired c1 tr) as [c2 tr2] eqn:E2.
  apply rtc_l with (Engine ep c1 tr, L ⊎ list_to_set_disj retired); [|by apply release_others].
  apply others_cache; [by eapply step_invalidate|].
  apply invalidate_locked_spec in E1 as (Hr & _ & Hv & _). intros Hx d b e. rewrite Hv, Hr.
  intros (e' & He & Hd)%bind_Some. case_decide; simplify_eq. by apply Hx.
Qed.

Definition example_shared : shared := Shared example_engine ∅ 0.

Lemma example_starts `{Libfabric} : starts example_shared.
Proof. split; [done|]. split; [apply start_process_ok|]. by intros d b e. Qed.

Definition example_system `{Libfabric} (when : nat) (quiesce_writes : bool) (script : list (script_op Z)) :
    option (service shared Z Z) :=
  let _ := shared_transport (reclaims when) in
  script_run id quiesce_writes 1000000000 64 64 Z.of_nat example_place (λ _, 7%Z) script
    (register_storage 32768 65536 0 (service_new example_shared)).2.

Abbreviation leasing when quiesce_writes :=
  (system_step id (reclaims when) quiesce_writes 1000000000 64 64 Z.of_nat example_place (λ _, 7%Z)).

Definition example_end `{Libfabric} (when : nat) (quiesce_writes : bool) (script : list (script_op Z)) :
    service shared Z Z :=
  default (service_new example_shared) (example_system when quiesce_writes script).

Lemma example_system_reached `{Libfabric} when quiesce_writes script :
  bool_decide (is_Some (example_system when quiesce_writes script)) = true →
  rtc (leasing when quiesce_writes) (System (service_new example_shared) [])
    (System (example_end when quiesce_writes script) []).
Proof.
  rewrite bool_decide_eq_true. intros [s Hs]. unfold example_end. rewrite Hs. simpl.
  eapply rtc_l; [apply by_service; by eapply (step_register _ _ _ _ _ _ _ _ 32768 65536 0), surjective_pairing|].
  unfold example_system in Hs. apply script_run_steps in Hs. clear -Hs.
  revert Hs. generalize (register_storage 32768 65536 0 (service_new (T := Z) (K := Z) example_shared)).2.
  induction 1 as [s0|s0 s1 s2 Hs _ IH]; [done|]. eapply rtc_l; [by apply by_service|exact IH].
Qed.

(** A read's pages are reclaimed while it is in flight: the registry no longer has them,
    and the registration the fabric uses is open. *)
Lemma posted_memory_stays_registered_witness :
  let s := @example_end silent_libfabric 6 false [Submit (example_request 1 11 ToPeer true); Turn] in
  let c := e_cache (own (shared_of s)) in
  view (registry c) 2 32768 = None ∧
  ∃ op id, boxes (thread s) !! 1%Z = Some op ∧ local_lease op = Some id ∧ id ∉ finalized (registrations c).
Proof.
  set (s := @example_end silent_libfabric 6 false [Submit (example_request 1 11 ToPeer true); Turn]).
  split; [by vm_compute|].
  assert (@flying silent_libfabric (e_trace (own (shared_of s))) = [1]%Z) as Hf by (vm_compute; reflexivity).
  assert (requires_local_mr (e_endpoint (own (shared_of s))) = true) as Hr by (vm_compute; reflexivity).
  destruct (@posted_memory_stays_registered silent_libfabric silent_completions Z Z _ id _ _
    (reclaims 6) (reclaims_steps 6) false 1000000000 64 64 Z.of_nat example_place (λ _, 7%Z)
    example_place_fresh example_place_nonnull example_shared (System s []) example_starts
    (@example_system_reached silent_libfabric 6 false [Submit (example_request 1 11 ToPeer true); Turn]
       ltac:(vm_compute; reflexivity)) 1%Z) as (op & bytes & d & Hop & _ & _ & Hl).
  - cbn [served]. rewrite Hf. apply list_elem_of_here.
  - destruct (Hl Hr) as (id & lo & hi & mr & Hid & _ & _ & _ & _ & _ & Hopen).
    exists op, id. split; [exact Hop|]. split; [exact Hid|exact Hopen].
Defined.

(** A quiesced write with a checksum, to the end: the pool takes up the operation, and only
    the lease it took with it is left. *)
Definition example_pooled : list (InFlight Z) :=
  [{| caller_context := 11%Z; if_client := 1; if_length := 4; want_checksum := true;
      buffer_pointer := 45056; local_lease := Some 1; quiesce := None |}].

Definition example_over : service shared Z Z :=
  @example_end example_libfabric 5 true (Submit (example_request 1 11 ToPeer true) :: replicate 5 Turn).

Lemma worker_returns_every_lease_witness :
  let y := foldr (take_up (K := Z)) (System example_over []) example_pooled in
  let c := e_cache (own (shared_of (served y))) in
  status (served y) = Parked ∧ others (shared_of (served y)) = {[+ 1 +]} ∧
  (0 ∈ finalized (registrations c) ↔ 0 ∉ registry_ids (registry c) ⊎ others (shared_of (served y))).
Proof.
  set (y := foldr (take_up (K := Z)) (System example_over []) example_pooled).
  assert (status (served y) = Parked) as Hst by (vm_compute; reflexivity).
  assert (pooled (log (acc (thread (served y)))) = example_pooled) as Hpool by (vm_compute; reflexivity).
  assert (is_Some (arc_value 0 (registrations (e_cache (own (shared_of (served y))))))) as Hid
    by (vm_compute; eexists; reflexivity).
  split; [exact Hst|]. split; [by vm_compute|].
  refine (proj2 (@worker_returns_every_lease example_libfabric _ Z Z _ id _ _
    (reclaims 5) (reclaims_steps 5) true 1000000000 64 64 Z.of_nat example_place (λ _, 7%Z)
    example_place_fresh example_place_nonnull example_shared y example_starts _ _ _) 0 Hid).
  - eapply rtc_r; [apply (@example_system_reached example_libfabric 5 true
      (Submit (example_request 1 11 ToPeer true) :: replicate 5 Turn) ltac:(vm_compute; reflexivity))|].
    apply (by_pool id (reclaims 5) true 1000000000 64 64 Z.of_nat example_place (λ _, 7%Z)
      (System example_over [])). vm_compute. reflexivity.
  - rewrite Hst. discriminate.
  - rewrite Hpool. reflexivity.
Defined.

End witnesses.
