(* ===== verification/Lifecycle.v ===== *)
(** * The life of a transfer

    An abstract specification of what the worker of [server_dma_worker.rs] does with each
    transfer, and the proof that the service implements it.  In the specification a transfer
    is accepted, given to the fabric, and ends with an outcome; a write that is to be
    quiesced must land first, and then its one byte read must come back.  Once the fabric has
    an operation of a transfer, only what the fabric says of that very operation moves it on:
    each completion is used once, in the order the fabric gave them up, by the transfer whose
    context it carries, and a transfer succeeds only by a successful one.  Nothing in it mentions queues, caps, batches, checksums, stalls or the pool. *)

From S2P Require Import Prelude Arc Wire Fabric RegionCache Operands PeerAddresses Config Endpoint.
From S2P Require Import Worker FabricTransport Service.

(** ** The specification *)

(** A transfer under way: whose it is, whether a quiesce read is to follow its write,
    whether that write has landed, and whether the fabric has an operation of it. *)
Record life (K : Type) := Life { whose : K; quiesced : bool; landed : bool; in_fabric : bool }.
Arguments Life {K} _ _ _ _.
Arguments whose {K} _.
Arguments quiesced {K} _.
Arguments landed {K} _.
Arguments in_fabric {K} _.

(** The transfers under way, by the context they are posted with; those that ended, each
    with whether it was quiesced and whether it succeeded; and the fabric's completions used so
    far, each the context it carried and whether it was a success, in order. *)
Record lives (K : Type) := Lives {
  alive : gmap Z (life K);
  ended : list (K * bool * bool);
  heard : list (Z * bool);
}.
Arguments Lives {K} _ _ _.
Arguments alive {K} _.
Arguments ended {K} _.
Arguments heard {K} _.

Inductive life_step {K} : lives K → lives K → Prop :=
  | life_accept b k q A O h :
      A !! b = None → life_step (Lives A O h) (Lives (<[b := Life k q false false]> A) O h)
  | life_refuse k q A O h : life_step (Lives A O h) (Lives A (O ++ [(k, q, false)]) h)
  | life_post b l A O h :
      A !! b = Some l → in_fabric l = false →
      life_step (Lives A O h) (Lives (<[b := Life (whose l) (quiesced l) (landed l) true]> A) O h)
  (* The fabric has the operation: its completion decides. *)
  | life_land b l A O h :
      A !! b = Some l → in_fabric l = true → quiesced l = true → landed l = false →
      life_step (Lives A O h) (Lives (<[b := Life (whose l) true true false]> A) O (h ++ [(b, true)]))
  | life_finish b l A O h :
      A !! b = Some l → in_fabric l = true → (quiesced l = true → landed l = true) →
      life_step (Lives A O h) (Lives (delete b A) (O ++ [(whose l, quiesced l, true)]) (h ++ [(b, true)]))
  | life_break b l A O h :
      A !! b = Some l → in_fabric l = true →
      life_step (Lives A O h) (Lives (delete b A) (O ++ [(whose l, quiesced l, false)]) (h ++ [(b, false)]))
  (* It could not be given to the fabric. *)
  | life_fail b l A O h :
      A !! b = Some l → in_fabric l = false →
      life_step (Lives A O h) (Lives (delete b A) (O ++ [(whose l, quiesced l, false)]) h).

(** The successes among the fabric's completions. *)
Definition acked (h : list (Z * bool)) : nat := sum_list_with (λ x : Z * bool, if x.2 then 1 else 0) h.

Lemma acked_snoc h b ok : acked (h ++ [(b, ok)]) = acked h + if ok then 1 else 0.
Proof. unfold acked. rewrite sum_list_with_app. simpl. lia. Qed.

(** The successful completions an ended transfer needed, and those one under way has had. *)
Definition needed {K} (x : K * bool * bool) : nat :=
  if x.2 then (if x.1.2 then 2 else 1) else 0.

Definition had {K} (l : life K) : nat := if landed l then 1 else 0.

(** A sum over the transfers under way. *)
Definition total {K} (f : life K → nat) (A : gmap Z (life K)) : nat := map_fold (λ _ l n, f l + n) 0 A.

Section total.
  Context {K : Type} (f : life K → nat).
  Implicit Types (A : gmap Z (life K)).

Lemma total_insert A b l : A !! b = None → total f (<[b := l]> A) = f l + total f A.
Proof. intros Hb. unfold total. rewrite map_fold_insert_L; [done| |done]. intros. lia. Qed.

Lemma total_delete A b l : A !! b = Some l → total f A = f l + total f (delete b A).
Proof.
  intros Hb. rewrite <-(insert_delete_id A b l) at 1 by done. apply total_insert, lookup_delete_eq.
Qed.

Lemma total_replace A b l l' : A !! b = Some l → total f (<[b := l']> A) + f l = f l' + total f A.
Proof.
  intros Hb. rewrite <-insert_delete_eq, total_insert by apply lookup_delete_eq.
  rewrite (total_delete A b l Hb). lia.
Qed.

End total.

Record accounted {K} (n : nat) (a : lives K) : Prop := {
  at_acks : n + sum_list_with needed (ended a) + total had (alive a) ≤ acked (heard a);
  at_landed b l : alive a !! b = Some l → landed l = true → quiesced l = true;
}.

Lemma life_step_accounted {K} n (a a' : lives K) : life_step a a' → accounted n a → accounted n a'.
Proof.
  assert (∀ k q, needed (K := K) (k, q, false) = 0) as Hz by done.
  assert (∀ l : life K, had l = if landed l then 1 else 0) as Hh by done.
  intros Hs [Ha Hl]. destruct Hs as [b k q A O m Hb|k q A O m|b l A O m Hb Hf|b l A O m Hb Hf Hq Hn
    |b l A O m Hb Hf Hq|b l A O m Hb Hf|b l A O m Hb Hf]; simpl in *; split; simpl;
    rewrite ?acked_snoc, ?sum_list_with_app; simpl; rewrite ?Hz.
  - rewrite total_insert, Hh by done. simpl. lia.
  - intros b' l'. rewrite lookup_insert_Some. naive_solver.
  - lia.
  - done.
  - pose proof (total_replace had A b l (Life (whose l) (quiesced l) (landed l) true) Hb) as Hr.
    rewrite !Hh in Hr. simpl in Hr. lia.
  - intros b' l'. rewrite lookup_insert_Some. intros [[_ <-]|[_ ?]]; [simpl|]; eauto.
  - pose proof (total_replace had A b l (Life (whose l) true true false) Hb) as Hr.
    rewrite !Hh in Hr. simpl in Hr. rewrite Hn in Hr. lia.
  - intros b' l'. rewrite lookup_insert_Some. intros [[_ <-]|[_ ?]]; eauto.
  - rewrite (total_delete had A b l Hb) in Ha. unfold needed at 2. simpl.
    specialize (Hl b l Hb). rewrite Hh in Ha. destruct (quiesced l), (landed l); naive_solver lia.
  - intros b' l'. rewrite lookup_delete_Some. naive_solver.
  - rewrite (total_delete had A b l Hb) in Ha. lia.
  - intros b' l'. rewrite lookup_delete_Some. naive_solver.
  - rewrite (total_delete had A b l Hb) in Ha. lia.
  - intros b' l'. rewrite lookup_delete_Some. naive_solver.
Qed.

Lemma life_steps_accounted {K} h (a : lives K) : rtc life_step (Lives ∅ [] h) a → accounted (acked h) a.
Proof.
  intros Hs. assert (accounted (acked h) (Lives (K := K) ∅ [] h)) as Hi.
  { split; simpl; [|intros b l; by rewrite lookup_empty]. unfold total. rewrite map_fold_empty. lia. }
  revert Hi. induction Hs; eauto using life_step_accounted.
Qed.

(** ** What the endpoint reports *)

(** The completions an endpoint has handed over so far: only a reap hands over more. *)
Class Reports (E : Type) `{TransportLaws E} := {
  reports : E → list (Z * result () DmaError);
  insert_peer_reports client address e : reports (t_insert_peer client address e).2 = reports e;
  drop_peer_reports i e : reports (t_drop_peer i e) = reports e;
  release_peer_reports client e : reports (t_release_peer client e) = reports e;
  pin_region_reports b l e : reports (t_pin_region b l e).2 = reports e;
  local_operand_reports ptr l span e : reports (t_local_operand ptr l span e).2 = reports e;
  drop_lease_reports lease e : reports (t_drop_lease lease e) = reports e;
  post_out_reports i k a s d context e : reports (t_post_out i k a s d context e).2 = reports e;
  post_in_reports i k a s d context e : reports (t_post_in i k a s d context e).2 = reports e;
  reap_reports max e r out e' :
    t_reap max e = (r, out, e') → Forall (λ context, context ≠ 0%Z) (posted e) →
    reports e' = reports e ++ out;
}.

(** What they say: whose context, and whether it went well. *)
Definition reported (l : list (Z * result () DmaError)) : list (Z * bool) := (λ x, (x.1, is_ok x.2)) <$> l.

(** How many of them are successes. *)
Definition successes (l : list (Z * result () DmaError)) : nat := acked (reported l).

(** ** The worker follows the specification *)

Section steps.
  Context {E T K : Type} `{!Transport E, !TransportLaws E, !Reports E, !Operands T} (ident : T → K)
    `{!OperandsLaws T K ident, !EqDecision K}.
  Variables (quiesce_writes : bool) (progress_deadline : Z) (cap : nat) (quiesce_pointer : Z).
  Variables (clock : nat → Z) (place : gmap Z (InFlight T) → Z) (crc : slice → Z).
  Hypothesis place_fresh : ∀ m, m !! place m = None.
  Hypothesis place_nonnull : ∀ m, place m ≠ 0%Z.
  Implicit Types (w : worker E T) (X Y : list Z) (F : list (Z * result () DmaError)) (a : lives K).

(** The outcomes the worker owes or has given: completions not yet in a batch, operations
    waiting for their checksum, and what the batches and the pool's jobs were given. *)
Definition told (x : effect T) : list (K * bool) :=
  match x with
  | CompleteBatch batch => (λ c, (ident (completed_context c), is_ok (outcome c))) <$> batch
  | PoolJob batch => (λ x, (ident (caller_context x.1), is_ok x.2)) <$> batch
  | _ => []
  end.

Definition deferred (m : gmap Z (InFlight T)) (l : list (Z * result () DmaError)) : list (K * bool) :=
  omap (λ x, (λ op, (ident (caller_context op), is_ok x.2)) <$> m !! x.1) l.

Definition outcomes w : list (K * bool) :=
  ((λ c, (ident (completed_context c), is_ok (outcome c))) <$> completions w) ++
  deferred (boxes w) (crc_pending w) ++ (log (acc w) ≫= told).

(** The worker in a state of the specification; [X] are boxes in local variables, and [F]
    completions the fabric has reported that the worker has yet to look at. *)
Record tracks w X F a : Prop := {
  tr_alive b : is_Some (alive a !! b) ↔ b ∈ active w ++ X ++ F.*1;
  tr_life b l : alive a !! b = Some l →
    ∃ op, boxes w !! b = Some op ∧ whose l = ident (caller_context op) ∧
          quiesced l && negb (landed l) = owes op;
  tr_fabric b l : alive a !! b = Some l → in_fabric l = bool_decide (b ∈ posted (endpoint_of w) ++ F.*1);
  tr_ended : (λ x, (x.1.1, x.2)) <$> ended a ≡ₚ outcomes w;
  tr_heard : heard a ++ reported F = reported (reports (endpoint_of w));
}.

(** Follows the worker from [w] to [w']. *)
Definition follows w w' X' F' a : Prop := ∃ a', rtc life_step a a' ∧ tracks w' X' F' a'.

(** And not without a step of the specification. *)
Definition moves w w' X' F' a : Prop := ∃ a', tc life_step a a' ∧ tracks w' X' F' a'.

Lemma moves_follows w w' X' F' a : moves w w' X' F' a → follows w w' X' F' a.
Proof. intros (a' & Hs & Ht). exists a'. split; [by apply tc_rtc|done]. Qed.

Lemma moves_into w1 w2 w3 X2 X3 F2 F3 a :
  moves w1 w2 X2 F2 a → (∀ a', tracks w2 X2 F2 a' → follows w2 w3 X3 F3 a') → moves w1 w3 X3 F3 a.
Proof.
  intros (a2 & H2 & Ht2) Hnext. destruct (Hnext a2 Ht2) as (a3 & H3 & Ht3). exists a3.
  split; [by eapply tc_rtc_r|done].
Qed.

Lemma tracks_refl w X F a : tracks w X F a → follows w w X F a.
Proof. intros Ht. exists a. by split. Qed.

Lemma deferred_ext m m' l :
  (∀ b, b ∈ l.*1 → (λ op, ident (caller_context op)) <$> m' !! b = (λ op, ident (caller_context op)) <$> m !! b) →
  deferred m' l = deferred m l.
Proof.
  intros Hm. unfold deferred. induction l as [|[b r] l IH]; [done|]. csimpl in *.
  assert ((λ op, ident (caller_context op)) <$> m' !! b = (λ op, ident (caller_context op)) <$> m !! b) as Hb
    by (apply Hm; left).
  rewrite IH by (intros; apply Hm; by right).
  destruct (m !! b), (m' !! b); simplify_eq/=; congruence.
Qed.

Lemma tracks_same w w' X X' F a :
  tracks w X F a →
  posted (endpoint_of w') ≡ₚ posted (endpoint_of w) → reports (endpoint_of w') = reports (endpoint_of w) →
  (∀ b, b ∈ active w' ++ X' ↔ b ∈ active w ++ X) → boxes w' = boxes w → outcomes w' ≡ₚ outcomes w →
  tracks w' X' F a.
Proof.
  intros [Ha Hl Hf He Hk] Hp Hr Hx Hb Ho. split.
  - intros b. rewrite Ha, !(assoc_L (++)), (elem_of_app (active w ++ X)), (elem_of_app (active w' ++ X')).
    by rewrite Hx.
  - rewrite Hb. exact Hl.
  - intros b l Hb'. rewrite (Hf b l Hb'). apply bool_decide_ext. by rewrite !elem_of_app, Hp.
  - by rewrite Ho.
  - by rewrite Hr.
Qed.

(** The boxes' insides change, not what matters of them. *)
Lemma framed_lookup w w' b op :
  framed ident w w' → boxes w !! b = Some op →
  ∃ op', boxes w' !! b = Some op' ∧ ident (caller_context op') = ident (caller_context op) ∧ owes op' = owes op.
Proof.
  intros Hf Hb. pose proof (fr_shape _ _ _ Hf) as Hs. pose proof (fr_owes _ _ _ Hf) as Ho.
  apply (f_equal (lookup b)) in Hs, Ho. rewrite !shape_lookup, Hb in Hs. rewrite !lookup_fmap, Hb in Ho.
  destruct (boxes w' !! b) as [op'|]; simplify_eq/=. eauto.
Qed.

Lemma framed_outcomes w w' : framed ident w w' → outcomes w' = outcomes w.
Proof.
  intros Hf. unfold outcomes. rewrite (fr_completions _ _ _ Hf), (fr_crc _ _ _ Hf).
  destruct (fr_acc _ _ _ Hf) as [e ->]. do 2 f_equal. apply deferred_ext. intros b _.
  pose proof (fr_shape _ _ _ Hf) as Hs. apply (f_equal (lookup b)) in Hs. rewrite !shape_lookup in Hs.
  destruct (boxes w !! b), (boxes w' !! b); simplify_eq/=; congruence.
Qed.

Lemma tracks_framed w w' X F a :
  tracks w X F a → framed ident w w' →
  posted (endpoint_of w') ≡ₚ posted (endpoint_of w) → reports (endpoint_of w') = reports (endpoint_of w) →
  tracks w' X F a.
Proof.
  intros [Ha Hl Hf He Hk] Hfr Hp Hr. split.
  - intros b. rewrite Ha. unfold active. rewrite (fr_pending _ _ _ Hfr), (fr_quiescing _ _ _ Hfr).
    by rewrite !elem_of_app, Hp.
  - intros b l Hb. destruct (Hl b l Hb) as (op & Hop & Hw & Ho).
    destruct (framed_lookup _ _ _ _ Hfr Hop) as (op' & Hop' & Hi & Ho'). exists op'. by rewrite Hi, Ho'.
  - intros b l Hb'. rewrite (Hf b l Hb'). apply bool_decide_ext. by rewrite !elem_of_app, Hp.
  - by rewrite (framed_outcomes _ _ Hfr).
  - by rewrite Hr.
Qed.

(** A box in a local variable is given to the fabric. *)
Lemma tracks_post w w' X F a b :
  tracks w (b :: X) F a → framed ident w w' →
  posted (endpoint_of w') ≡ₚ b :: posted (endpoint_of w) → reports (endpoint_of w') = reports (endpoint_of w) →
  b ∉ posted (endpoint_of w) ++ F.*1 → moves w w' X F a.
Proof.
  intros [Ha Hl Hf He Hk] Hfr Hp Hr Hn. destruct a as [A O n]; simpl in *.
  assert (is_Some (A !! b)) as [l Hb] by (rewrite Ha; set_solver).
  assert (in_fabric l = false) as Hin by (rewrite (Hf b l Hb); by apply bool_decide_eq_false_2).
  exists (Lives (<[b := Life (whose l) (quiesced l) (landed l) true]> A) O n).
  split; [by apply tc_once, life_post|]. split; simpl.
  - intros b'. rewrite lookup_insert_is_Some', Ha. unfold active.
    rewrite (fr_pending _ _ _ Hfr), (fr_quiescing _ _ _ Hfr), !elem_of_app, Hp, !elem_of_cons, ?elem_of_app.
    assert (b = b' ↔ b' = b) by done. tauto.
  - intros b' l'. rewrite lookup_insert_Some. intros Hb'.
    assert (∃ l0, A !! b' = Some l0 ∧ whose l' = whose l0 ∧ quiesced l' = quiesced l0 ∧ landed l' = landed l0)
      as (l0 & Hl0 & -> & -> & ->) by (destruct Hb' as [[<- <-]|[_ ?]]; eauto).
    destruct (Hl b' l0 Hl0) as (op & Hop & Hw & Ho).
    destruct (framed_lookup _ _ _ _ Hfr Hop) as (op' & Hop' & Hi & Ho'). exists op'. by rewrite Hi, Ho'.
  - intros b' l'. rewrite lookup_insert_Some. intros [[<- <-]|[Hne Hb']]; simpl.
    + symmetry. apply bool_decide_eq_true_2. rewrite elem_of_app, Hp. left. by left.
    + rewrite (Hf b' l' Hb'). apply bool_decide_ext. rewrite !elem_of_app, Hp, elem_of_cons.
      assert (b' ≠ b) by congruence. tauto.
  - by rewrite (framed_outcomes _ _ Hfr).
  - by rewrite Hr.
Qed.

(** ** What is reported meanwhile *)

Lemma post_reports p w r w' : post p w = Some (r, w') → reports (endpoint_of w') = reports (endpoint_of w).
Proof.
  unfold post. pose proof (insert_peer_reports (p_client p) (p_address p) (endpoint_of w)) as H1.
  destruct (t_insert_peer _ _ _) as [[peer|error] e1]; simpl in H1; [|by intros [= _ <-]].
  intros H. apply bind_Some in H as (op & _ & H). change (endpoint_of (with_endpoint e1 w)) with e1 in H.
  pose proof (local_operand_reports (p_pointer p) (p_length p) (cacheable_span (caller_context op)) e1) as H2.
  destruct (t_local_operand _ _ _ _) as [[lo|error] e2]; simpl in H2.
  2:{ injection H as _ <-. change (reports (t_drop_peer peer e2) = reports (endpoint_of w)).
      by rewrite drop_peer_reports, H2, H1. }
  apply bind_Some in H as ([code w2] & H & [= _ <-]). unfold post_resolved in H.
  change (endpoint_of (with_endpoint e2 _)) with e2 in H.
  assert (∀ c3 e3, match p_direction p with
    | ToPeer => t_post_out peer (p_remote_key p) (p_remote_address p) (Slice (p_pointer p) (p_length p))
                  (descriptor lo) (context p) e2
    | FromPeer _ => t_post_in peer (p_remote_key p) (p_remote_address p) (Slice (p_pointer p) (p_length p))
                  (descriptor lo) (context p) e2
    end = (c3, e3) → reports e3 = reports e2) as H3.
  { intros c3 e3 Hc. apply (f_equal (λ x, reports x.2)) in Hc. simpl in Hc. rewrite <-Hc.
    destruct (p_direction p); [apply post_out_reports|apply post_in_reports]. }
  destruct (match p_direction p with ToPeer => _ | FromPeer _ => _ end) as [c3 e3]. specialize (H3 _ _ eq_refl).
  destruct (c3 =? 0)%Z.
  - apply bind_Some in H as (inf & _ & [= _ <-]).
    change (reports (t_drop_peer peer (t_drop_lease (local_lease inf) e3)) = reports (endpoint_of w)).
    by rewrite drop_peer_reports, drop_lease_reports, H3, H2, H1.
  - injection H as _ <-.
    change (reports (t_drop_peer peer (t_drop_lease (lease lo) e3)) = reports (endpoint_of w)).
    by rewrite drop_peer_reports, drop_lease_reports, H3, H2, H1.
Qed.

Lemma post_quiesce_reports waiting w p w' :
  post_quiesce quiesce_pointer waiting w = Some (p, w') →
  reports (endpoint_of w') = reports (endpoint_of w).
Proof.
  unfold post_quiesce. intros H. apply bind_Some in H as (inf & _ & H).
  pose proof (insert_peer_reports (if_client inf) (q_address (read waiting)) (endpoint_of w)) as H1.
  destruct (t_insert_peer _ _ _) as [[peer|error] e1]; simpl in H1; [|by injection H as _ <-].
  change (endpoint_of (with_endpoint e1 w)) with e1 in H.
  pose proof (local_operand_reports quiesce_pointer 1 None e1) as H2.
  destruct (t_local_operand _ _ _ _) as [[lo|error] e2]; simpl in H2.
  2:{ injection H as _ <-. change (reports (t_drop_peer peer e2) = reports (endpoint_of w)).
      by rewrite drop_peer_reports, H2, H1. }
  change (endpoint_of (with_boxes _ (with_endpoint ?e _))) with e in H.
  change (endpoint_of (with_endpoint e2 _)) with e2 in H.
  pose proof (post_in_reports peer (q_remote_key (read waiting)) (q_remote_address (read waiting))
    (Slice quiesce_pointer 1) (descriptor lo) (q_inflight waiting) (t_drop_lease (local_lease inf) e2)) as H3.
  destruct (t_post_in _ _ _ _ _ _ _) as [code e4]. simpl in H3. rewrite drop_lease_reports in H3.
  destruct (code =? 0)%Z; [|destruct (code =? t_again)%Z]; injection H as _ <-;
    change (reports (t_drop_peer peer e4) = reports (endpoint_of w)); by rewrite drop_peer_reports, H3, H2, H1.
Qed.

(** What finishing an operation does to the accounts. *)
Definition untold (a a' : accounts E T) : Prop :=
  log a' ≫= told = log a ≫= told ∧ posted (transport a') = posted (transport a) ∧
  reports (transport a') = reports (transport a).

Lemma release_peer_untold c (a : accounts E T) : untold a (release_peer c a).
Proof.
  split_and!; [simpl; by rewrite bind_app, app_nil_r|apply release_peer_posted|apply release_peer_reports].
Qed.

Lemma finish_op_untold c (a a' : accounts E T) : finish_op c a = Some a' → untold a a'.
Proof.
  unfold finish_op. intros H. apply bind_Some in H as ([remaining a1] & H1 & H).
  assert (log a1 ≫= told = log a ≫= told ∧ transport a1 = transport a) as [Hl Ht].
  { split; destruct (outstanding_by_client _ !! c) as [[|n]|]; simplify_eq/=; try done;
      by rewrite bind_app, app_nil_r. }
  case_decide; [|simplify_eq; unfold untold; by rewrite Ht].
  case_decide; simplify_eq; [|unfold untold; simpl; by rewrite Ht].
  destruct (release_peer_untold c (with_removal (pending_removal (with_counts (delete c (outstanding_by_client a1)) a1) ∖ {[c]})
    (with_counts (delete c (outstanding_by_client a1)) a1))) as (U1 & U2 & U3).
  unfold untold. rewrite U1, U2, U3. simpl. by rewrite Ht.
Qed.

(** ** Endings *)

Lemma deferred_snoc m l b r op :
  m !! b = Some op → deferred m (l ++ [(b, r)]) = deferred m l ++ [(ident (caller_context op), is_ok r)].
Proof. intros Hb. unfold deferred. rewrite omap_app. simpl. by rewrite Hb. Qed.

Lemma deferred_delete m l b : b ∉ l.*1 → deferred (delete b m) l = deferred m l.
Proof. intros Hb. apply deferred_ext. intros c Hc. by rewrite lookup_delete_ne by (by intros ->). Qed.

(** A transfer ends: it leaves whatever held it, and its outcome is recorded. *)
Lemma tracks_end w w' X X' F F' A O h h' b l ok :
  tracks w X F (Lives A O h) → A !! b = Some l →
  (∀ c, c ∈ active w' ++ X' ++ F'.*1 ↔ c ∈ active w ++ X ++ F.*1 ∧ c ≠ b) →
  (∀ c, c ≠ b → boxes w' !! c = boxes w !! c) →
  (∀ c, c ≠ b → c ∈ posted (endpoint_of w') ++ F'.*1 ↔ c ∈ posted (endpoint_of w) ++ F.*1) →
  outcomes w' ≡ₚ outcomes w ++ [(whose l, ok)] →
  h' ++ reported F' = reported (reports (endpoint_of w')) →
  tracks w' X' F' (Lives (delete b A) (O ++ [(whose l, quiesced l, ok)]) h').
Proof.
  intros [Ha Hl Hf He Hk] Hb Hx Hbox Hp Ho Hn. split; simpl in *.
  - intros c. rewrite lookup_delete_is_Some, Ha, Hx. naive_solver.
  - intros c l'. rewrite lookup_delete_Some. intros [Hne Hc]. destruct (Hl c l' Hc) as (op & ? & ? & ?).
    exists op. by rewrite Hbox.
  - intros c l'. rewrite lookup_delete_Some. intros [Hne Hc]. rewrite (Hf c l' Hc).
    apply bool_decide_ext. symmetry. by apply Hp.
  - rewrite fmap_app. simpl. by rewrite He, Ho.
  - done.
Qed.

(** What [complete] does, in these terms. *)
Lemma complete_cases b r w c w' :
  complete crc b r w = Some (c, w') → ∃ op, boxes w !! b = Some op ∧
    (ident (completed_context c), is_ok (outcome c)) = (ident (caller_context op), is_ok r) ∧
    boxes w' = delete b (boxes w) ∧ pending w' = pending w ∧ quiescing w' = quiescing w ∧
    completions w' = completions w ∧ crc_pending w' = crc_pending w ∧ log (acc w') = log (acc w) ∧
    posted (endpoint_of w') = posted (endpoint_of w) ∧ reports (endpoint_of w') = reports (endpoint_of w).
Proof.
  unfold complete, reclaim. intros H. apply bind_Some in H as (op & Hop & [= <- <-]). exists op.
  split_and!; try done; [by destruct r|apply drop_lease_posted|apply drop_lease_reports].
Qed.

Lemma finish_unreaped_moves b error w w' a rec q :
  books_of ident w [b] [] rec q → tracks w [b] [] a →
  finish_unreaped crc b error w = Some w' → moves w w' [] [] a.
Proof.
  intros Hbk Ht H. unfold finish_unreaped in H. apply bind_Some in H as (op0 & _ & H).
  apply bind_Some in H as ([c w1] & Hc & H). apply bind_Some in H as (a1 & Ha1 & [= Hw']).
  apply complete_cases in Hc as (op & Hop & Hic & Hb & Hpe & Hq & Hco & Hcr & Hlog & Hpo & Hre).
  apply finish_op_untold in Ha1 as (Hlog1 & Hpo1 & Hre1).
  destruct a as [A O n]. pose proof (tr_alive _ _ _ _ Ht b) as Hal. simpl in Hal.
  destruct (proj2 Hal ltac:(set_solver)) as [l Hl].
  destruct (tr_life _ _ _ _ Ht b l Hl) as (op' & Hop' & Hw & _). rewrite Hop in Hop'. injection Hop' as <-.
  destruct (local_elsewhere ident _ _ _ _ _ _ Hbk) as (Hna & _ & Hnc).
  assert (posted (endpoint_of w') = posted (endpoint_of w)) as Hp by (subst w'; by etrans).
  assert (active w' = active w) as Hact by (unfold active; rewrite Hp; subst w'; cbn; by rewrite Hpe, Hq).
  assert (in_fabric l = false) as Hin.
  { rewrite (tr_fabric _ _ _ _ Ht b l Hl). apply bool_decide_eq_false_2. unfold active in Hna. set_solver. }
  eexists. split; [apply tc_once; by eapply life_fail|].
  apply (tracks_end w w' [b] [] [] [] A O n n b l false Ht Hl).
  - intros c0. rewrite Hact. simpl. rewrite app_nil_r, elem_of_app, list_elem_of_singleton.
    split; [|tauto]. intros Hc0. split; [by left|]. by intros ->.
  - intros c0 Hne. subst w'. cbn. rewrite Hb. by rewrite lookup_delete_ne.
  - intros c0 _. by rewrite Hp.
  - unfold outcomes. subst w'. simpl_worker. rewrite Hlog1, Hlog, Hb, Hcr, Hco, fmap_app.
    rewrite deferred_delete by done. simpl. rewrite Hic, Hw. solve_Permutation.
  - assert (reports (endpoint_of w') = reports (endpoint_of w)) as -> by (subst w'; by etrans).
    apply (tr_heard _ _ _ _ Ht).
Qed.

(** ** Completions *)

(** A reported completion is looked at: it lands a write that is to be quiesced, or ends
    the transfer. *)
Lemma reap_one_moves b r w w' F a rec q :
  books_of ident w (b :: F.*1) [] rec q → tracks w [] ((b, r) :: F) a →
  reap_one crc (b, r) w = Some w' → moves w w' [] F a.
Proof.
  intros Hbk Ht H. destruct (local_elsewhere ident _ _ _ _ _ _ Hbk) as (Hna & HnF & Hnc).
  assert (b ∉ posted (endpoint_of w)) as Hnp by (intros Hin; apply Hna; unfold active; set_solver).
  unfold reap_one in H. apply bind_Some in H as (op & Hop & H). unfold reclaim in Hop.
  destruct a as [A O n]. pose proof (tr_alive _ _ _ _ Ht b) as Hal. simpl in Hal.
  destruct (proj2 Hal ltac:(set_solver)) as [l Hl].
  destruct (tr_life _ _ _ _ Ht b l Hl) as (op' & Hop' & Hw & Ho). rewrite Hop in Hop'. injection Hop' as <-.
  assert (in_fabric l = true) as Hin.
  { rewrite (tr_fabric _ _ _ _ Ht b l Hl). apply bool_decide_eq_true_2. set_solver. }
  pose proof (tr_heard _ _ _ _ Ht) as Hk. simpl in Hk.
  destruct (if is_ok r then quiesce op else None) as [read|] eqn:Hq.
  - destruct (is_ok r) eqn:Hr; [|done]. injection H as <-.
    unfold owes in Ho. rewrite Hq in Ho. apply andb_true_iff in Ho as [Hqu Hla%negb_true_iff].
    exists (Lives (<[b := Life (whose l) true true false]> A) O (n ++ [(b, true)])).
    split; [apply tc_once; by apply life_land|]. destruct Ht as [Ha Hlf Hf He _]. split; simpl in *.
    + intros c. rewrite lookup_insert_is_Some', Ha. unfold active, endpoint_of. simpl_worker.
      rewrite fmap_app, !elem_of_app, elem_of_cons. csimpl. rewrite list_elem_of_singleton.
      assert (b = c ↔ c = b) by done. tauto.
    + intros c l'. rewrite lookup_insert_Some. intros [[<- <-]|[Hne Hc]].
      * eexists. rewrite lookup_insert_eq. split; [done|]. by split.
      * rewrite lookup_insert_ne by done. by apply Hlf.
    + intros c l'. rewrite lookup_insert_Some. intros [[<- <-]|[Hne Hc]]; simpl.
      * symmetry. apply bool_decide_eq_false_2. rewrite elem_of_app. intros [Hc|Hc]; [by apply Hnp|by apply HnF].
      * rewrite (Hf c l' Hc). apply bool_decide_ext. unfold endpoint_of. simpl_worker.
        rewrite !elem_of_app, elem_of_cons. assert (c ≠ b) by done. tauto.
    + rewrite He. unfold outcomes. simpl_worker. rewrite (deferred_ext (boxes w) (<[b := _]> _)); [done|].
      intros c Hc. by rewrite lookup_insert_ne by (by intros ->).
    + change ((n ++ [(b, true)]) ++ reported F = reported (reports (endpoint_of w))).
      by rewrite <-Hk, <-(assoc_L (++)).
  - apply bind_Some in H as (a1 & Ha1 & H). apply finish_op_untold in Ha1 as (Hlog & Hpo & Hre).
    assert (life_step (Lives A O n) (Lives (delete b A) (O ++ [(whose l, quiesced l, is_ok r)]) (n ++ [(b, is_ok r)])))
      as Hstep.
    { destruct r as [u|error]; simpl in Hq |- *; [|by apply life_break]. apply life_finish; [done..|].
      unfold owes in Ho. rewrite Hq in Ho. intros Hqu. rewrite Hqu in Ho. simpl in Ho. by apply negb_false_iff. }
    assert ((n ++ [(b, is_ok r)]) ++ reported F = reported (reports (endpoint_of w))) as Hn'
      by (by rewrite <-Hk, <-(assoc_L (++))).
    assert (∀ w2, posted (endpoint_of w2) = posted (endpoint_of w) → pending w2 = pending w →
      quiescing w2 = quiescing w → reports (endpoint_of w2) = reports (endpoint_of w) →
      (∀ c, c ≠ b → boxes w2 !! c = boxes w !! c) →
      outcomes w2 ≡ₚ outcomes w ++ [(ident (caller_context op), is_ok r)] → moves w w2 [] F (Lives A O n)) as Hend.
    { intros w2 Hp Hpe Hqu Hrp Hb2 Ho2. eexists. split; [by apply tc_once, Hstep|].
      apply (tracks_end w w2 [] [] ((b, r) :: F) F A O n _ b l (is_ok r) Ht Hl).
      - intros c. unfold active. rewrite Hp, Hpe, Hqu. csimpl. rewrite !elem_of_app, elem_of_cons.
        unfold active in Hna. rewrite !elem_of_app in Hna. split; [|tauto].
        intros Hc. split; [tauto|]. intros ->. tauto.
      - done.
      - intros c Hne. rewrite Hp. csimpl. rewrite !elem_of_app, elem_of_cons. tauto.
      - by rewrite Hw.
      - by rewrite Hrp. }
    destruct (want_checksum op).
    + injection H as <-. apply Hend; [exact Hpo|done|done|exact Hre|done|].
      unfold outcomes. simpl_worker. rewrite Hlog, (deferred_snoc _ _ _ _ _ Hop). solve_Permutation.
    + apply bind_Some in H as ([c w1] & Hc & [= <-]).
      apply complete_cases in Hc as (op2 & Hop2 & Hic & Hb & Hpe & Hqu & Hco & Hcr & Hlog1 & Hpo1 & Hre1).
      simpl_worker. change (boxes w !! b = Some op2) in Hop2. rewrite Hop in Hop2. injection Hop2 as <-.
      apply Hend; simpl_worker; [by etrans|done|done|by etrans| |].
      * intros c0 Hne. rewrite Hb. by rewrite lookup_delete_ne.
      * unfold outcomes. simpl_worker. rewrite Hb, Hcr, Hco, Hlog1. simpl_worker. rewrite Hlog, deferred_delete by done.
        rewrite fmap_app. simpl. rewrite Hic. solve_Permutation.
Qed.

Lemma follows_trans w1 w2 w3 X2 X3 F2 F3 a :
  follows w1 w2 X2 F2 a → (∀ a', tracks w2 X2 F2 a' → follows w2 w3 X3 F3 a') → follows w1 w3 X3 F3 a.
Proof.
  intros (a2 & H2 & Ht2) Hnext. destruct (Hnext a2 Ht2) as (a3 & H3 & Ht3). exists a3.
  split; [by etrans|done].
Qed.

Lemma reap_each_follows F w w' a rec q :
  books_of ident w F.*1 [] rec q → tracks w [] F a → reap_each crc F w = Some w' → follows w w' [] [] a.
Proof.
  revert w a. induction F as [|[b r] F IH]; intros w a Hbk Ht; cbn [reap_each].
  { intros [= <-]. by apply tracks_refl. }
  csimpl in Hbk.
  destruct (reap_one_ok ident clock place crc place_fresh place_nonnull b r w _ rec q Hbk) as (w1 & H1 & Hbk1 & _).
  rewrite H1. simpl. intros H. eapply follows_trans; [by eapply moves_follows, reap_one_moves|].
  intros a' Ht'. by apply IH.
Qed.

Lemma reap_pass_follows w w' any a rec q :
  books_of ident w [] [] rec q → tracks w [] [] a → reap_pass crc w = Some (w', any) → follows w w' [] [] a.
Proof.
  intros Hbk Ht. unfold reap_pass. destruct (t_reap _ _) as [[r reaped] e] eqn:Hr.
  pose proof (posted_nonnull ident clock place place_fresh place_nonnull _ _ _ _ _ Hbk) as Hnn.
  pose proof (reap_posted _ _ _ _ _ Hr Hnn) as Hp. pose proof (reap_reports _ _ _ _ _ Hr Hnn) as Hre.
  set (w1 := with_in_flight _ _). intros H. apply bind_Some in H as (w2 & H & [= <- _]).
  assert (books_of ident w1 reaped.*1 [] rec q) as Hbk1.
  { unfold w1, books_of, active, endpoint_of in *. simpl_worker. apply books_transport.
    eapply books_perm; [..|exact Hbk]; try done. rewrite Hp. solve_Permutation. }
  assert (tracks w1 [] reaped a) as Ht1.
  { destruct Ht as [Ha Hl Hf He Hk]. split; [|done| |done|].
    - intros b. rewrite Ha. unfold w1, active, endpoint_of in *. simpl_worker. rewrite !elem_of_app, Hp, elem_of_app.
      simpl. set_solver.
    - intros b l Hb. rewrite (Hf b l Hb). apply bool_decide_ext. unfold w1, endpoint_of in *. simpl_worker.
      rewrite !elem_of_app, Hp, elem_of_app. simpl. set_solver.
    - unfold w1, endpoint_of in *. simpl_worker. unfold reported in *. rewrite Hre, fmap_app, <-Hk.
      by rewrite app_nil_r. }
  destruct (reap_each_follows _ _ _ _ _ _ Hbk1 Ht1 H) as (a' & Hs & Ht'). by exists a'.
Qed.

(** ** Posting and quiescing *)

(** Queues hold what a local variable held: the transfers under way are the same. *)
Lemma tracks_moved w w' X X' a :
  tracks w X [] a → acc w' = acc w → boxes w' = boxes w → completions w' = completions w →
  crc_pending w' = crc_pending w → active w' ++ X' ≡ₚ active w ++ X → tracks w' X' [] a.
Proof.
  intros Ht Ha Hb Hc Hcr Hx. apply (tracks_same w w' X X'); [exact Ht|..|done|].
  - unfold endpoint_of. by rewrite Ha.
  - unfold endpoint_of. by rewrite Ha.
  - intros b. by rewrite Hx.
  - unfold outcomes. by rewrite Ha, Hb, Hc, Hcr.
Qed.

(** Failing what could not be posted, after changes that matter to nobody. *)
Lemma failed_moves w w1 b error w' n a rec q :
  books_of ident w [b] [] rec q → tracks w [b] [] a → framed ident w w1 →
  posted (endpoint_of w1) ≡ₚ posted (endpoint_of w) → reports (endpoint_of w1) = reports (endpoint_of w) →
  (w2 ← finish_unreaped crc b error w1; Some (w2, 0)) = Some (w', n) → moves w w' [] [] a.
Proof.
  intros Hbk Ht Hf Hp Hr H. apply bind_Some in H as (w2 & H & [= <- _]).
  assert (books_of ident w1 [b] [] rec q) as Hbk1 by (by apply (books_of_framed ident w w1 [])).
  pose proof (tracks_framed _ _ _ _ _ Ht Hf Hp Hr) as Ht1.
  destruct (finish_unreaped_moves _ _ _ _ _ _ _ Hbk1 Ht1 H) as (a' & Hs & Ht'). by exists a'.
Qed.

(** What the clock says of a post the fabric was too busy for: it has been tried since
    [t], now or before, and a reading made meanwhile was within the deadline. *)
Definition held (lo hi : nat) (since since' : option Z) : Prop :=
  ∃ t k, since' = Some t ∧ default t since = t ∧ lo ≤ k < hi ∧ (clock k - t < progress_deadline)%Z.

Lemma stalled_held since w t wait w' :
  stalled progress_deadline clock since w = (t, wait, w') →
  ticks w < ticks w' ∧ (wait = true → held (ticks w) (ticks w') since (Some t)).
Proof.
  unfold stalled, now. intros H. destruct since as [t0|]; simplify_eq/=; (split; [lia|]); intros Hw%Z.ltb_lt.
  - exists t, (ticks w). split_and!; [done|done|lia|lia|lia].
  - eexists _, (S (ticks w)). split_and!; [done|done|lia|lia|lia].
Qed.

Lemma post_ticks p w r w' : post p w = Some (r, w') → ticks w' = ticks w.
Proof.
  unfold post, post_resolved. intros H. repeat first
    [progress simplify_eq/= | apply bind_Some in H as (? & ? & H) | case_match]; try done.
  all: repeat first [progress simplify_eq/= | case_match
    | match goal with H : _ ≫= _ = Some _ |- _ => apply bind_Some in H as (? & ? & H) end]; done.
Qed.

Lemma post_quiesce_ticks waiting w p w' : post_quiesce quiesce_pointer waiting w = Some (p, w') → ticks w' = ticks w.
Proof.
  unfold post_quiesce. intros H. repeat first
    [progress simplify_eq/= | apply bind_Some in H as (? & ? & H) | case_match]; done.
Qed.

(** One turn of the posting loop ends the transfer, gives it to the fabric, or puts it
    back at the end of the queue. *)
Lemma post_one_life w p rest w' n a rec q :
  books_of ident w [] [] rec q → tracks w [] [] a → pending w = p :: rest →
  post_one progress_deadline clock crc w = Some (w', n) →
  moves w w' [] [] a ∨
  ∃ t, held (ticks w) (ticks w') (stalled_since p) (Some t) ∧ pending w' = rest ++ [with_stalled (Some t) p] ∧
    quiescing w' = quiescing w ∧ in_flight w' = in_flight w ∧ ticks w < ticks w' ∧
    posted (endpoint_of w') ≡ₚ posted (endpoint_of w) ∧ tracks w' [] [] a.
Proof.
  intros Hbk Ht Hpend. unfold post_one. rewrite Hpend.
  apply (books_of_pop_pending _ _ _ _ _ _ _ _ Hpend) in Hbk. set (w1 := with_pending rest w) in *.
  assert (tracks w1 [context p] [] a) as Ht1.
  { eapply tracks_moved; [exact Ht|done..|]. unfold w1, active, endpoint_of. simpl_worker.
    rewrite Hpend. csimpl. solve_Permutation. }
  destruct (local_elsewhere ident _ _ _ _ _ _ Hbk) as (Hna & _ & _).
  destruct (owned_box ident _ _ _ _ _ (context p) Hbk) as [inflight Hb]; [set_solver|].
  destruct (post_ok ident p w1 inflight Hb) as (r & w2 & Hpost & Hf & Hp). rewrite Hpost. simpl.
  pose proof (post_reports _ _ _ _ Hpost) as Hr. pose proof (post_ticks _ _ _ _ Hpost) as Hti.
  assert (r ≠ Ok 0%Z → posted (endpoint_of w2) ≡ₚ posted (endpoint_of w1)) as Hp0
    by (intros Hne; by rewrite decide_False in Hp).
  destruct r as [code|error];
    [|intros; left; by eapply (failed_moves w1); [exact Hbk|exact Ht1|exact Hf|by apply Hp0|exact Hr|]].
  destruct (Z.eqb_spec code 0) as [->|Hne].
  { intros [= <- _]. left. destruct (tracks_post w1 w2 [] [] a (context p)) as (a' & Hs & Ht'); try done.
    - rewrite app_nil_r. intros Hin. apply Hna. unfold active. set_solver.
    - exists a'. split; [done|]. eapply tracks_moved; [exact Ht'|done..]. }
  destruct (code =? t_again)%Z;
    [|intros; left; by eapply (failed_moves w1); [exact Hbk|exact Ht1|exact Hf|apply Hp0; congruence|exact Hr|]].
  destruct (stalled _ _ _ _) as [[since wait] w3] eqn:Hst. pose proof (stalled_held _ _ _ _ _ Hst) as [Hlt Hheld].
  apply (stalled_ok ident) in Hst as [Hf3 He3].
  assert (framed ident w1 w3) as Hf13 by (by eapply framed_trans).
  assert (posted (endpoint_of w3) ≡ₚ posted (endpoint_of w1)) as Hp3 by (rewrite He3; apply Hp0; congruence).
  assert (reports (endpoint_of w3) = reports (endpoint_of w1)) as Hr3 by (by rewrite He3).
  destruct wait; [|intros; left; by eapply (failed_moves w1)].
  intros [= <- _]. right. exists since. rewrite Hti in *.
  split_and!; [by apply Hheld| |exact (fr_quiescing _ _ _ Hf13)|exact (fr_in_flight _ _ _ Hf13)|done|exact Hp3|].
  { simpl. by rewrite (fr_pending _ _ _ Hf13). }
  eapply tracks_moved; [by eapply (tracks_framed w1 w3)|done..|].
  unfold active, endpoint_of. simpl_worker. rewrite fmap_app. csimpl. solve_Permutation.
Qed.

Lemma post_one_follows w w' n a rec q :
  books_of ident w [] [] rec q → tracks w [] [] a →
  post_one progress_deadline clock crc w = Some (w', n) → follows w w' [] [] a.
Proof.
  intros Hbk Ht H. destruct (pending w) as [|p rest] eqn:Hpend.
  { unfold post_one in H. rewrite Hpend in H. injection H as <- _. by apply tracks_refl. }
  destruct (post_one_life _ _ _ _ _ _ _ _ Hbk Ht Hpend H) as [Hm|(t & _ & _ & _ & _ & _ & _ & Ht')];
    [by apply moves_follows|by exists a].
Qed.

Lemma post_loop_follows attempts w w' n a rec q :
  books_of ident w [] [] rec q → flight w → tracks w [] [] a →
  post_loop progress_deadline cap clock crc attempts w = Some (w', n) → follows w w' [] [] a.
Proof.
  revert w w' n a. induction attempts as [|attempts IH]; intros w w' n a Hbk Hfl Ht; simpl.
  { intros [= <- _]. by apply tracks_refl. }
  destruct (_ <? _); [|intros [= <- _]; by apply tracks_refl].
  destruct (post_one_ok ident progress_deadline clock place crc place_fresh place_nonnull w rec q Hbk Hfl)
    as (w1 & n1 & H1 & Hbk1 & Hfl1 & _).
  rewrite H1. simpl. intros H. apply bind_Some in H as ([w2 n2] & H2 & [= <- _]).
  eapply follows_trans; [exact (post_one_follows _ _ _ _ _ _ Hbk Ht H1)|].
  intros a' Ht'. by eapply IH.
Qed.

(** And one turn of the quiesce reads' loop. *)
Lemma quiesce_one_life w waiting rest w' n a rec q :
  books_of ident w [] [] rec q → tracks w [] [] a → quiescing w = waiting :: rest →
  quiesce_one progress_deadline quiesce_pointer clock crc w = Some (w', n) →
  moves w w' [] [] a ∨
  ∃ t, held (ticks w) (ticks w') (q_stalled_since waiting) (Some t) ∧ pending w' = pending w ∧
    quiescing w' = rest ++ [{| q_inflight := q_inflight waiting; read := read waiting; q_stalled_since := Some t |}] ∧
    ticks w < ticks w' ∧ posted (endpoint_of w') ≡ₚ posted (endpoint_of w) ∧ tracks w' [] [] a.
Proof.
  intros Hbk Ht Hq. unfold quiesce_one. rewrite Hq.
  set (w1 := with_quiescing rest w).
  assert (books_of ident w1 [q_inflight waiting] [] rec q) as Hbk1.
  { unfold w1, books_of, active, endpoint_of in *. simpl_worker. rewrite Hq in Hbk.
    eapply books_perm; [..|exact Hbk]; try done. csimpl. solve_Permutation. }
  assert (tracks w1 [q_inflight waiting] [] a) as Ht1.
  { eapply tracks_moved; [exact Ht|done..|]. unfold w1, active, endpoint_of. simpl_worker.
    rewrite Hq. csimpl. solve_Permutation. }
  destruct (local_elsewhere ident _ _ _ _ _ _ Hbk1) as (Hna & _ & _).
  destruct (owned_box ident _ _ _ _ _ (q_inflight waiting) Hbk1) as [inflight Hb]; [set_solver|].
  destruct (post_quiesce_ok ident quiesce_pointer waiting w1 inflight Hb) as (p & w2 & Hpost & Hf & Hp).
  rewrite Hpost. simpl. pose proof (post_quiesce_reports _ _ _ _ Hpost) as Hr.
  pose proof (post_quiesce_ticks _ _ _ _ Hpost) as Hti.
  destruct p as [|waiting'|box error].
  - intros [= <- _]. left. destruct (tracks_post w1 w2 [] [] a (q_inflight waiting)) as (a' & Hs & Ht'); try done.
    + rewrite app_nil_r. intros Hin. apply Hna. unfold active. set_solver.
    + exists a'. split; [done|]. eapply tracks_moved; [exact Ht'|done..].
  - destruct Hp as [-> Hp]. destruct (stalled _ _ _ _) as [[since wait] w3] eqn:Hst.
    pose proof (stalled_held _ _ _ _ _ Hst) as [Hlt Hheld]. apply (stalled_ok ident) in Hst as [Hf3 He3].
    assert (framed ident w1 w3) as Hf13 by (by eapply framed_trans).
    assert (posted (endpoint_of w3) ≡ₚ posted (endpoint_of w1)) as Hp3 by (by rewrite He3).
    assert (reports (endpoint_of w3) = reports (endpoint_of w1)) as Hr3 by (by rewrite He3).
    destruct wait; [|intros; left; by eapply (failed_moves w1)].
    intros [= <- _]. right. exists since. rewrite Hti in *.
    split_and!; [by apply Hheld|exact (fr_pending _ _ _ Hf13)| |done|exact Hp3|].
    { simpl. by rewrite (fr_quiescing _ _ _ Hf13). }
    eapply tracks_moved; [by eapply (tracks_framed w1 w3)|done..|].
    unfold active, endpoint_of. simpl_worker. rewrite fmap_app. csimpl. solve_Permutation.
  - destruct Hp as [-> Hp]. intros. left. by eapply (failed_moves w1).
Qed.

Lemma quiesce_one_follows w w' n a rec q :
  books_of ident w [] [] rec q → tracks w [] [] a →
  quiesce_one progress_deadline quiesce_pointer clock crc w = Some (w', n) → follows w w' [] [] a.
Proof.
  intros Hbk Ht H. destruct (quiescing w) as [|waiting rest] eqn:Hq.
  { unfold quiesce_one in H. rewrite Hq in H. injection H as <- _. by apply tracks_refl. }
  destruct (quiesce_one_life _ _ _ _ _ _ _ _ Hbk Ht Hq H) as [Hm|(t & _ & _ & _ & _ & _ & Ht')];
    [by apply moves_follows|by exists a].
Qed.

Lemma quiesce_loop_follows attempts w w' n a rec q :
  books_of ident w [] [] rec q → flight w → tracks w [] [] a →
  quiesce_loop progress_deadline quiesce_pointer clock crc attempts w = Some (w', n) → follows w w' [] [] a.
Proof.
  revert w w' n a. induction attempts as [|attempts IH]; intros w w' n a Hbk Hfl Ht; simpl.
  { intros [= <- _]. by apply tracks_refl. }
  destruct (quiesce_one_ok ident progress_deadline quiesce_pointer clock place crc place_fresh
    place_nonnull w rec q Hbk Hfl) as (w1 & n1 & H1 & Hbk1 & Hfl1 & _).
  rewrite H1. simpl. intros H. apply bind_Some in H as ([w2 n2] & H2 & [= <- _]).
  eapply follows_trans; [exact (quiesce_one_follows _ _ _ _ _ _ Hbk Ht H1)|].
  intros a' Ht'. by eapply IH.
Qed.

(** ** Intake and flushing *)

Lemma prepare_refused request m completion m' :
  prepare quiesce_writes place request m = (Err completion, m') → is_ok (outcome completion) = false.
Proof.
  unfold prepare. destruct (resolve_operand _ _) as [[[ptr length]|error] ctx]; [|by intros [= <- _]].
  destruct (quiesce_read _ _ _); [done|]. by intros [= <- _].
Qed.

Lemma accept_follows request w a rec q :
  books_of ident w [] [] rec q → tracks w [] [] a → follows w (accept quiesce_writes place request w) [] [] a.
Proof.
  intros Hbk Ht. destruct a as [A O n]. unfold accept. pose proof (prepare_cases ident quiesce_writes place request (boxes w)) as Hp.
  destruct (prepare _ _ _ _) as [[p|completion] m] eqn:Hprep.
  - destruct Hp as (op & -> & Hc & _ & _ & _). set (b := place (boxes w)) in *.
    assert (A !! b = None) as Hnb.
    { destruct (A !! b) as [l|] eqn:Hl; [|done]. destruct (tr_life _ _ _ _ Ht b l Hl) as (op' & Hop & _).
      unfold b in Hop. by rewrite place_fresh in Hop. }
    assert (b ∉ posted (endpoint_of w)) as Hnp.
    { intros Hin. assert (is_Some (A !! b)) as [? ?]; [|congruence].
      apply (tr_alive _ _ _ _ Ht). unfold active. set_solver. }
    exists (Lives (<[b := Life (ident (caller_context op)) (owes op) false false]> A) O n).
    split; [by apply rtc_once, life_accept|]. destruct Ht as [Ha Hl Hf He Hk]. split; simpl in *.
    + intros c. rewrite lookup_insert_is_Some', Ha. unfold active, endpoint_of. simpl_worker. simpl_acc.
      rewrite fmap_app, !elem_of_app. csimpl. rewrite Hc, list_elem_of_singleton.
      assert (b = c ↔ c = b) by done. tauto.
    + intros c l. rewrite lookup_insert_Some. intros [[<- <-]|[Hne Hcl]].
      * exists op. rewrite lookup_insert_eq. split_and!; [done..|]. simpl. by rewrite andb_true_r.
      * rewrite lookup_insert_ne by done. by apply Hl.
    + intros c l. rewrite lookup_insert_Some. intros [[<- <-]|[Hne Hcl]]; simpl.
      * symmetry. apply bool_decide_eq_false_2. by rewrite app_nil_r.
      * by rewrite (Hf c l Hcl).
    + rewrite He. unfold outcomes. simpl_worker. simpl_acc. rewrite bind_app. simpl. rewrite !app_nil_r.
      rewrite (deferred_ext (boxes w) (<[b := _]> _)); [done|]. intros c Hc'.
      destruct (decide (c = b)) as [->|]; [|by rewrite lookup_insert_ne].
      destruct (owned_box ident _ _ _ _ _ b Hbk) as [op' Hop]; [set_solver|].
      unfold b in Hop. by rewrite place_fresh in Hop.
    + done.
  - destruct Hp as [-> Hid]. apply prepare_refused in Hprep.
    exists (Lives A (O ++ [(ident (completed_context completion), false, false)]) n).
    split; [apply rtc_once, life_refuse|]. destruct Ht as [Ha Hl Hf He Hk]. split; simpl in *; try done.
    rewrite fmap_app, He. unfold outcomes. simpl_worker. simpl_acc. rewrite fmap_app. simpl. rewrite Hprep.
    solve_Permutation.
Qed.

(** Messages that are no transfers say nothing of any. *)
Lemma tracks_untold w a (a1 : accounts E T) :
  tracks w [] [] a → untold (acc w) a1 → tracks (with_acc a1 w) [] [] a.
Proof.
  intros Ht (Hl & Hp & Hr). apply (tracks_same w _ [] []); [exact Ht| |exact Hr| |done|].
  - change (posted (transport a1) ≡ₚ posted (transport (acc w))). by rewrite Hp.
  - intros b. unfold active, endpoint_of. simpl_worker. by rewrite Hp.
  - unfold outcomes. simpl_worker. by rewrite Hl.
Qed.

Lemma receive_follows m w a rec q :
  books_of ident w [] [] rec q → tracks w [] [] a →
  follows w (receive quiesce_writes place m w) [] [] a.
Proof.
  intros Hbk Ht. destruct m as [request|client address reply|client|b length reply]; simpl.
  - by eapply accept_follows.
  - exists a. split; [done|].
    pose proof (insert_peer_posted client address (endpoint_of w)) as Hp.
    pose proof (insert_peer_reports client address (endpoint_of w)) as Hr.
    destruct (t_insert_peer _ _ _) as [[peer|error] e]; simpl in *.
    + apply (tracks_untold w a (emit (Replied reply (Ok tt)) (with_transport (t_drop_peer peer e) (acc w)))); [done|].
      split_and!; [simpl; by rewrite bind_app, app_nil_r| |].
      * simpl. by rewrite drop_peer_posted.
      * simpl. by rewrite drop_peer_reports.
    + apply (tracks_untold w a (emit (Replied reply (Err error)) (with_transport e (acc w)))); [done|].
      split_and!; [simpl; by rewrite bind_app, app_nil_r|done|done].
  - exists a. split; [done|]. apply tracks_untold; [done|]. unfold remove_or_defer.
    case_decide; [apply release_peer_untold|]. by split_and!.
  - exists a. split; [done|].
    pose proof (pin_region_posted b length (endpoint_of w)) as Hp.
    pose proof (pin_region_reports b length (endpoint_of w)) as Hr.
    destruct (t_pin_region _ _ _) as [r e]. simpl in *.
    apply (tracks_untold w a (emit (Replied reply r) (with_transport e (acc w)))); [done|].
    split_and!; [simpl; by rewrite bind_app, app_nil_r|done|done].
Qed.

Lemma intake_follows messages closed w a rec q :
  books_of ident w [] [] rec (length (messages_ids ident messages) + q) → flight w → tracks w [] [] a →
  follows w (intake quiesce_writes place messages closed w) [] [] a.
Proof.
  intros Hbk Hfl Ht. unfold intake.
  assert (follows w (foldl (λ w m, receive quiesce_writes place m w) w messages) [] [] a) as (a' & Hs & Ht').
  { revert w a rec Hbk Hfl Ht. induction messages as [|m messages IH]; intros w a rec Hbk Hfl Ht; simpl in *.
    { by apply tracks_refl. }
    rewrite length_app, <-Nat.add_assoc in Hbk.
    eapply follows_trans; [by eapply receive_follows|]. intros a' Ht'.
    apply (receive_ok ident quiesce_writes place place_fresh place_nonnull m) in Hbk as (Hbk & Hfl1 & _); [|done].
    by eapply IH. }
  exists a'. split; [done|]. destruct closed; [|done]. by eapply tracks_moved.
Qed.

Lemma take_boxes_outcomes l w ops w' :
  NoDup l.*1 → take_boxes l w = Some (ops, w') →
  ((λ x, (ident (caller_context x.1), is_ok x.2)) <$> ops) = deferred (boxes w) l ∧
  acc w' = acc w ∧ pending w' = pending w ∧ quiescing w' = quiescing w ∧ completions w' = completions w ∧
  crc_pending w' = crc_pending w ∧ (∀ b, b ∉ l.*1 → boxes w' !! b = boxes w !! b).
Proof.
  revert w ops w'. induction l as [|[b r] l IH]; intros w ops w' Hnd; cbn [take_boxes].
  { intros [= <- <-]. by split_and!. }
  csimpl in Hnd. apply NoDup_cons in Hnd as [Hb Hnd].
  intros H. apply bind_Some in H as (op & Hop & H). apply bind_Some in H as ([ops1 w1] & H1 & [= <- <-]).
  destruct (IH _ _ _ Hnd H1) as (Ho & Ha & Hp & Hq & Hc & Hcr & Hbx). unfold reclaim in Hop. split_and!; try done.
  - csimpl. rewrite Ho. unfold deferred at 2. simpl. rewrite Hop. simpl. f_equal.
    apply (deferred_delete (boxes w) l b Hb).
  - intros c. csimpl. rewrite not_elem_of_cons. intros [Hne Hc']. rewrite Hbx by done. simpl.
    by rewrite lookup_delete_ne.
Qed.

Lemma submit_crc_batch_follows w w' a rec q :
  books_of ident w [] [] rec q → tracks w [] [] a → submit_crc_batch w = Some w' → tracks w' [] [] a.
Proof.
  intros Hbk Ht. unfold submit_crc_batch. intros H. apply bind_Some in H as ([ops w1] & H1 & [= <-]).
  pose proof (books_NoDup _ _ _ _ _ _ _ Hbk) as Hnd. rewrite !app_nil_r in Hnd.
  apply NoDup_app in Hnd as (_ & Hdis & Hnd).
  apply take_boxes_outcomes in H1 as (Ho & Ha & Hp & Hq & Hc & Hcr & Hbx); [|exact Hnd]. simpl_worker.
  destruct Ht as [Hal Hl Hf He Hk].
  assert (endpoint_of w1 = endpoint_of w) as Hend by (unfold endpoint_of; by rewrite Ha).
  split.
  - intros b. rewrite Hal. unfold active, endpoint_of. simpl_worker. simpl_acc.
    rewrite Hp, Hq. change (transport (acc w1)) with (endpoint_of w1). by rewrite Hend.
  - intros b l Hb. destruct (Hl b l Hb) as (op & Hop & Hw). exists op. simpl_worker. rewrite Hbx; [done|].
    apply Hdis. assert (b ∈ active w ++ [] ++ []) as Hin by (apply Hal; eauto). by rewrite !app_nil_r in Hin.
  - intros b l Hb. rewrite (Hf b l Hb). unfold endpoint_of. simpl_worker. simpl_acc.
    change (transport (acc w1)) with (endpoint_of w1). by rewrite Hend.
  - rewrite He. unfold outcomes. simpl_worker. simpl_acc. rewrite bind_app. simpl. rewrite app_nil_r, Ho, Ha, Hc, Hcr.
    simpl. solve_Permutation.
  - unfold endpoint_of. simpl_worker. simpl_acc. change (transport (acc w1)) with (endpoint_of w1). by rewrite Hend.
Qed.

Lemma after_progress_follows n any w w' t a rec q :
  books_of ident w [] [] rec q → tracks w [] [] a →
  after_progress n any w = Some (w', t) → tracks w' [] [] a.
Proof.
  intros Hbk Ht. unfold after_progress. intros H. apply bind_Some in H as (w1 & H1 & H).
  assert (tracks w1 [] [] a) as Ht1.
  { destruct (should_flush_crc _ _ _ _); [by eapply submit_crc_batch_follows|by simplify_eq]. }
  destruct (_ && _ && _); [injection H as <- _; by eapply tracks_moved|].
  injection H as <- _. case_bool_decide; [|done].
  eapply (tracks_same w1 _ [] []); [exact Ht1|done..|].
  unfold outcomes, flush_completions. simpl_worker. simpl_acc. rewrite bind_app. simpl. rewrite app_nil_r. solve_Permutation.
Qed.

Lemma pass_follows messages closed w w' t a rec q :
  books_of ident w [] [] rec (length (messages_ids ident messages) + q) → flight w → tracks w [] [] a →
  pass quiesce_writes progress_deadline cap quiesce_pointer clock place crc messages closed w = Some (w', t) →
  follows w w' [] [] a.
Proof.
  intros Hbk Hfl Ht. unfold pass, progress.
  pose proof (intake_follows messages closed _ _ _ _ Hbk Hfl Ht) as Hi.
  destruct (intake_ok ident quiesce_writes place place_fresh place_nonnull messages closed w rec q Hbk Hfl)
    as (Hbk1 & Hfl1 & _). set (w1 := intake _ _ _ _ _) in *.
  destruct (post_loop_ok ident progress_deadline cap clock place crc place_fresh place_nonnull
    (length (pending w1)) w1 _ q Hbk1 Hfl1) as (w2 & n & H2 & Hbk2 & Hfl2 & _). rewrite H2. simpl.
  destruct (reap_pass_ok ident clock place crc place_fresh place_nonnull w2 _ q Hbk2 Hfl2)
    as (w3 & any & H3 & Hbk3 & Hfl3 & _). rewrite H3. simpl.
  destruct (quiesce_loop_ok ident progress_deadline quiesce_pointer clock place crc place_fresh
    place_nonnull (length (quiescing w3)) w3 _ q Hbk3 Hfl3) as (w4 & m & H4 & Hbk4 & Hfl4 & _).
  rewrite H4. simpl. intros H.
  eapply follows_trans; [exact Hi|]. intros a1 Ht1.
  eapply follows_trans; [by eapply post_loop_follows|]. intros a2 Ht2.
  eapply follows_trans; [by eapply reap_pass_follows|]. intros a3 Ht3.
  eapply follows_trans; [by eapply quiesce_loop_follows|]. intros a4 Ht4.
  exists a4. split; [done|]. by eapply after_progress_follows.
Qed.

(** ** The service *)

Lemma thread_step_follows s s' a rec :
  service_ok ident s rec → tracks (thread s) [] [] a →
  thread_step quiesce_writes progress_deadline cap quiesce_pointer clock place crc s = Some s' →
  follows (thread s) (thread s') [] [] a.
Proof.
  intros [Hta Hb Hf Hse Hg Hcl] Ht. unfold thread_step. destruct (status s) eqn:Hst.
  - intros H. apply bind_Some in H as ([w t] & Hpass & H).
    destruct (pass_ok ident quiesce_writes progress_deadline cap quiesce_pointer clock place crc
      place_fresh place_nonnull (channel s) (negb (sender s)) (thread s) rec 0)
      as (w0 & t0 & Hpass0 & _ & _ & Hs'); [by rewrite Nat.add_0_r|done|].
    rewrite Hpass in Hpass0. injection Hpass0 as <- <-.
    assert (follows (thread s) w [] [] a) as Hw.
    { eapply (pass_follows _ _ (thread s)); [|exact Hf|exact Ht|exact Hpass].
      unfold waiting_transfers in Hb. rewrite <-(Nat.add_0_r (length _)) in Hb. exact Hb. }
    apply bind_Some in H as ([w1 st] & H1 & [= <-]). simpl.
    destruct t; simpl in H1; simplify_eq; [done..|].
    rewrite (settled_shutdown _ _ _ _ _ (Hs' ltac:(done))) in H1. by simplify_eq/=.
  - destruct (channel s) as [|m rest].
    + destruct (sender s); [intros [= <-]; by apply tracks_refl|].
      rewrite (settled_shutdown _ _ _ _ _ (Hse ltac:(done))). intros [= <-]. by apply tracks_refl.
    + intros [= <-]. by eapply receive_follows.
  - intros [= <-]. by apply tracks_refl.
Qed.

Lemma bump_tracks f w a : tracks w [] [] a → tracks (bump f w) [] [] a.
Proof. intros Ht. by eapply (tracks_same w _ [] []). Qed.

Lemma service_step_follows s s' a rec :
  service_ok ident s rec → tracks (thread s) [] [] a →
  service_step ident quiesce_writes progress_deadline cap quiesce_pointer clock place crc s s' →
  follows (thread s) (thread s') [] [] a.
Proof.
  intros Hok Ht Hstep.
  assert (∀ m (s0 s1 : service E T K), send m s0 = Some s1 → thread s1 = thread s0) as Hsend.
  { intros m s0 s1. unfold send. destruct (status s0); intros; by simplify_eq. }
  destruct Hstep as [request r s s' Hs|client address reply r s s' Hs|client s
    |b length reply r s s' Hs|s|s s' Hs]; [exists a; split; [done|]..|].
  - unfold submit in Hs. destruct (negb _); [by simplify_eq|].
    destruct (send _ _) as [s1|] eqn:Es; simplify_eq; simpl.
    + rewrite (Hsend _ _ _ Es). by apply bump_tracks.
    + by rewrite bump_back.
  - unfold add_peer in Hs. destruct (negb _); [by simplify_eq|].
    destruct (send _ s) as [s1|] eqn:Es; simplify_eq; [|done]. by rewrite (Hsend _ _ _ Es).
  - unfold remove_peer. destruct (negb _); [done|].
    destruct (send _ s) as [s1|] eqn:Es; simpl; [|done]. by rewrite (Hsend _ _ _ Es).
  - unfold register_storage in Hs. destruct (0 =? length)%Z; [by simplify_eq|].
    destruct (checked_add _ _); [|by simplify_eq]. destruct (negb _); [by simplify_eq|].
    destruct (send _ s) as [s1|] eqn:Es; simplify_eq; [|done]. by rewrite (Hsend _ _ _ Es).
  - done.
  - by eapply thread_step_follows.
Qed.

Lemma service_new_tracks (e : E) :
  posted e = [] → tracks (worker_new e 0) [] [] (Lives ∅ [] (reported (reports e))).
Proof.
  intros He. split; simpl.
  - intros b. rewrite lookup_empty. unfold active, endpoint_of. simpl. rewrite He. split; [by intros []|set_solver].
  - intros b l. by rewrite lookup_empty.
  - intros b l. by rewrite lookup_empty.
  - done.
  - apply app_nil_r.
Qed.

Lemma reachable_tracks e s :
  posted e = [] →
  rtc (service_step ident quiesce_writes progress_deadline cap quiesce_pointer clock place crc) (service_new e) s →
  ∃ a, rtc life_step (Lives ∅ [] (reported (reports e))) a ∧ tracks (thread s) [] [] a.
Proof.
  intros He Hs.
  assert (∃ rec, service_ok ident (service_new (K := K) e) rec) as Hi by (exists []; by apply service_new_ok).
  assert (∃ a, rtc life_step (Lives ∅ [] (reported (reports e))) a ∧
    tracks (thread (service_new (K := K) e)) [] [] a) as Ht.
  { eexists. split; [done|]. by apply service_new_tracks. }
  revert Hi Ht. generalize (Lives (K := K) ∅ [] (reported (reports e))) as a0. intros a0.
  induction Hs as [s|s1 s2 s3 Hstep _ IH]; intros [rec Hok] (a & Ha & Ht); [by exists a|].
  destruct (service_step_follows _ _ _ _ Hok Ht Hstep) as (a' & Ha' & Ht').
  apply IH; [|exists a'; split; [by etrans|done]]. eapply (step_ok ident); [..|exact Hstep]; done.
Qed.

(** C5: The service implements the specification of a transfer's life.  Each step of a
    caller or of the worker, from any state a run reaches, is matched by steps of the
    specification from any of its states that describes it; so every run is matched by a run
    of the specification.  There the transfers under way are the worker's active ones, each
    with its box, and to be quiesced still if the box says so; those given to the fabric are
    those it has; the outcomes are the ones handed back or about to be; and what moved
    transfers on is exactly what the fabric reported, completion by completion, in order and
    each for the context it carries: a success is reported only for a transfer whose own
    operation the fabric completed successfully, after its write landed if its write was to
    be quiesced, and every other end of a transfer is reported as a failure. *)
Theorem service_refines_life e s
  (He : posted e = [])
  (Hs : rtc (service_step ident quiesce_writes progress_deadline cap quiesce_pointer clock place crc)
          (service_new e) s) :
  (∃ a, rtc life_step (Lives ∅ [] (reported (reports e))) a ∧ tracks (thread s) [] [] a) ∧
  ∀ a, tracks (thread s) [] [] a →
    (∀ s', service_step ident quiesce_writes progress_deadline cap quiesce_pointer clock place crc s s' →
       ∃ a', rtc life_step a a' ∧ tracks (thread s') [] [] a') ∧
    (∀ b, is_Some (alive a !! b) ↔ b ∈ active (thread s)) ∧
    (∀ b l, alive a !! b = Some l →
       in_fabric l = bool_decide (b ∈ posted (endpoint_of (thread s))) ∧
       ∃ op, boxes (thread s) !! b = Some op ∧ whose l = ident (caller_context op) ∧
         (quiesced l && negb (landed l) = true ↔ is_Some (quiesce op))) ∧
    (λ x, (x.1.1, x.2)) <$> ended a ≡ₚ outcomes (thread s) ∧
    heard a = (λ x, (x.1, is_ok x.2)) <$> reports (endpoint_of (thread s)).
Proof.
  split; [by apply reachable_tracks|]. intros a Ht. split.
  { intros s' Hstep. destruct (Service.reachable_ok ident quiesce_writes progress_deadline cap quiesce_pointer
      clock place crc place_fresh place_nonnull e s He Hs) as [rec Hok].
    exact (service_step_follows _ _ _ _ Hok Ht Hstep). }
  destruct Ht as [Hal Hl Hf Hen Hk].
  split_and!; [|intros b l Hb; split|done|rewrite app_nil_r in Hk; exact Hk].
  - intros b. rewrite Hal. simpl. by rewrite app_nil_r.
  - by rewrite (Hf b l Hb), app_nil_r.
  - destruct (Hl b l Hb) as (op & ? & ? & Ho). exists op. rewrite Ho. unfold owes.
    split_and!; [done..|]. destruct (quiesce op); [done|]. split; [done|by intros [? ?]].
Qed.

(** In particular no success is made up: the transfers reported as successful, handed back or still
    on the worker, never outnumber the successful completions libfabric has given the
    worker for them. *)
Lemma successes_are_acknowledged e s
  (He : posted e = [])
  (Hs : rtc (service_step ident quiesce_writes progress_deadline cap quiesce_pointer clock place crc)
          (service_new e) s) :
  successes (reports e) + length (filter (λ x, x.2 = true) (outcomes (thread s))) ≤
  successes (reports (endpoint_of (thread s))).
Proof.
  destruct (reachable_tracks e s He Hs) as (a & Ha & Ht).
  pose proof (at_acks _ _ (life_steps_accounted _ _ Ha)) as Hacks.
  pose proof (tr_heard _ _ _ _ Ht) as Hk. simpl in Hk. rewrite app_nil_r in Hk. rewrite Hk in Hacks.
  unfold successes. rewrite <-(tr_ended _ _ _ _ Ht).
  assert (length (filter (λ x : K * bool, x.2 = true) ((λ x, (x.1.1, x.2)) <$> ended a)) ≤
    sum_list_with needed (ended a)) as Hn; [|lia].
  clear. induction (ended a) as [|[[k q] ok] l IH]; [done|]. csimpl. rewrite filter_cons. simpl.
  unfold needed at 1. simpl. destruct ok; [rewrite decide_True by done|rewrite decide_False by done]; simpl;
    [destruct q; lia|lia].
Qed.

End steps.

(** ** The endpoint's reports *)

Section engine.
  Context `{Libfabric, !CompletionLaws}.

Lemma other_completions tr calls : Forall (λ call, ¬ queue_call call) calls → cq_completions tr calls = [].
Proof.
  intros Hc. revert tr. induction Hc as [|call calls Hc _ IH]; intros tr; simpl; [done|].
  rewrite IH, app_nil_r. destruct call; try done; by destruct (Hc I).
Qed.

Lemma completions_made tr tr' :
  made (λ call, ¬ queue_call call) tr tr' → cq_completions [] tr' = cq_completions [] tr.
Proof.
  intros (calls & -> & Hc). rewrite cq_completions_app. simpl.
  by rewrite (other_completions _ _ Hc), app_nil_r.
Qed.

Lemma quiet_completions tr tr' : quietly tr tr' → cq_completions [] tr' = cq_completions [] tr.
Proof.
  intros (calls & -> & Hc). apply completions_made. exists calls. split; [done|].
  eapply Forall_impl; [exact Hc|]. intros []; simpl; tauto.
Qed.

#[export] Program Instance engine_reports : Reports engine := {|
  reports e := cq_completions [] (e_trace e);
|}.
Next Obligation.
  intros client address e. simpl. unfold engine_insert_peer, insert_peer.
  destruct (handle _ _ _ _) as [[r p] tr] eqn:Eh. simpl. by eapply quiet_completions, peer_calls_quiet, handle_peer_calls.
Qed.
Next Obligation.
  intros i e. simpl. unfold engine_drop_peer, drop_peer.
  destruct (drop_entries _ _ _) as [p tr] eqn:Eh. simpl. by eapply quiet_completions, peer_calls_quiet, drop_entries_peer_calls.
Qed.
Next Obligation.
  intros client e. simpl. unfold engine_release_peer, Endpoint.release_peer, PeerAddresses.release, client_remove.
  destruct (drop_entries _ _ _) as [p tr] eqn:Eh. simpl. by eapply quiet_completions, peer_calls_quiet, drop_entries_peer_calls.
Qed.
Next Obligation.
  intros b l e. simpl. unfold engine_pin_region, pin_region. destruct (negb _); [done|].
  destruct (pin _ _ _ _ _) as [[r c] tr] eqn:Eh. simpl. by eapply quiet_completions, memory_calls_quiet, pin_memory_calls.
Qed.
Next Obligation.
  intros ptr l span e. simpl. unfold engine_local_operand, local_operand. destruct (negb _); [done|].
  destruct (operand _ _ _ _ _ _) as [[r c] tr] eqn:Eh. simpl. by eapply quiet_completions, memory_calls_quiet, operand_memory_calls.
Qed.
Next Obligation.
  intros lease e. simpl. unfold engine_drop_lease.
  destruct (RegionCache.release _ _ _) as [c tr] eqn:Eh. simpl. by eapply quiet_completions, memory_calls_quiet, release_memory_calls.
Qed.
Next Obligation. intros i k a s d context e. simpl. apply completions_made, made_1. simpl. tauto. Qed.
Next Obligation. intros i k a s d context e. simpl. apply completions_made, made_1. simpl. tauto. Qed.
Next Obligation.
  intros max e r out e' Hr Hnn. simpl in *.
  destruct (engine_reap_completions _ _ _ _ _ Hr Hnn) as (calls & -> & _ & <-).
  by rewrite cq_completions_app.
Qed.

End engine.

(** ** Witnesses: the script of [Service], to its end *)

Section witnesses.
#[local] Existing Instance example_libfabric.
#[local] Existing Instance tagged.
#[local] Existing Instance tagged_laws.

(** A quiesced write and a read: two successes, three completions of the fabric's. *)
Lemma service_refines_life_witness :
  ∃ a : lives Z, rtc life_step (Lives ∅ [] []) a ∧
    (λ x, (x.1.1, x.2)) <$> ended a ≡ₚ [(22, true); (11, true)]%Z ∧ heard a = [(1, true); (2, true); (1, true)]%Z.
Proof.
  destruct (service_refines_life id true 1000000000 64 64 Z.of_nat example_place (λ _, 7%Z)
    example_place_fresh example_place_nonnull example_engine (example_state whole_script)
    ltac:(by vm_compute) ltac:(by apply example_reached; vm_compute)) as ((a & Ha & Ht) & Hall).
  destruct (Hall a Ht) as (_ & _ & _ & He & Hk).
  exists a. split; [exact Ha|].
  assert (outcomes id (thread (example_state whole_script)) ≡ₚ [(22, true); (11, true)]%Z) as Ho
    by (apply (bool_decide_unpack _); by vm_compute).
  assert ((λ x, (x.1, is_ok x.2)) <$> reports (endpoint_of (thread (example_state whole_script))) = [(1, true); (2, true); (1, true)]%Z) as Hn
    by (vm_compute; reflexivity).
  rewrite Ho in He. rewrite Hn in Hk. by split.
Defined.

End witnesses.
