(* ===== verification/Rest.v ===== *)
(** * Left to itself, a worker comes to rest

    The worker of [server_dma_worker.rs] must hand every transfer back and go to sleep on
    its channel; and when the service of [server.rs] is dropped, which closes the channel
    and joins the worker, it must leave its loop.  That every step of the specification of
    [Lifecycle] brings the transfers nearer their end, and that a pass makes one unless the
    fabric holds operations or the deadline has not passed, shows that it does: each
    operation the fabric holds need only not stay there for ever, and time pass. *)

From S2P Require Import Prelude Arc Wire Fabric RegionCache Operands PeerAddresses Config Endpoint.
From S2P Require Import Worker FabricTransport Service Lifecycle.

(** ** How far the transfers are from their end *)

Section measure.
  Context {K : Type}.
  Implicit Types (a : lives K).

(** The steps a transfer can still take: to be posted, and to be reported, for itself and
    for the quiesce read that is to follow. *)
Definition left_to_do (l : life K) : nat :=
  (if quiesced l && negb (landed l) then 2 else 0) + (if in_fabric l then 1 else 2).

Definition distance a : nat := total left_to_do (alive a).

(** The transfers ever accepted or refused. *)
Definition known a : nat := size (alive a) + length (ended a).

Lemma life_step_distance a a' :
  life_step a a' → known a ≤ known a' ∧ distance a' + 5 * known a < distance a + 5 * known a'.
Proof.
  assert (∀ l : life K, left_to_do l ≤ 4 ∧ 1 ≤ left_to_do l) as Hb.
  { intros [k [] [] []]; cbv; lia. }
  assert (∀ (A : gmap Z (life K)) b l, A !! b = Some l → size A = S (size (delete b A))) as Hd.
  { intros A b l Hl. rewrite (map_size_delete_Some b A) by eauto.
    assert (size A ≠ 0); [|lia]. intros ->%map_size_empty_inv. by rewrite lookup_empty in Hl. }
  unfold known, distance. intros Hs. destruct Hs as [b k q A O n Hn|k q A O n|b l A O n Hl Hf|b l A O n Hl Hf Hq Hn
    |b l A O n Hl Hf Hq|b l A O n Hl Hf|b l A O n Hl Hf]; simpl; rewrite ?length_app; simpl.
  - rewrite map_size_insert_None, total_insert by done. destruct (Hb (Life k q false false)). lia.
  - lia.
  - rewrite map_size_insert_Some by eauto.
    pose proof (total_replace left_to_do A b l (Life (whose l) (quiesced l) (landed l) true) Hl) as Hr.
    unfold left_to_do in Hr at 2 3. rewrite Hf in Hr. simpl in Hr. lia.
  - rewrite map_size_insert_Some by eauto.
    pose proof (total_replace left_to_do A b l (Life (whose l) true true false) Hl) as Hr.
    unfold left_to_do in Hr at 2 3. rewrite Hf, Hq, Hn in Hr. simpl in Hr. lia.
  - rewrite (total_delete _ A b l Hl), (Hd A b l Hl). destruct (Hb l). lia.
  - rewrite (total_delete _ A b l Hl), (Hd A b l Hl). destruct (Hb l). lia.
  - rewrite (total_delete _ A b l Hl), (Hd A b l Hl). destruct (Hb l). lia.
Qed.

Lemma life_steps_distance a a' :
  rtc life_step a a' → known a ≤ known a' ∧ distance a' + 5 * known a ≤ distance a + 5 * known a'.
Proof. induction 1 as [|a1 a2 a3 Hs%life_step_distance _ IH]; lia. Qed.

(** With no transfer taken on, only an idle run comes no nearer. *)
Lemma idle_or_nearer a a' :
  rtc life_step a a' → known a' = known a → a' = a ∨ distance a' < distance a.
Proof.
  intros Hs Hk. destruct Hs as [|a1 a2 a3 H1%life_step_distance H2%life_steps_distance]; [by left|right; lia].
Qed.

Lemma moves_nearer a a' : tc life_step a a' → known a' = known a → distance a' < distance a.
Proof.
  intros Hs Hk. destruct Hs as [a1 a2 H1%life_step_distance|a1 a2 a3 H1%life_step_distance H2%tc_rtc%life_steps_distance]; lia.
Qed.

End measure.

(** ** A pass in which nothing happens *)

Section passes.
  Context {E T K : Type} `{!Transport E, !TransportLaws E, !Reports E, !Operands T} (ident : T → K)
    `{!OperandsLaws T K ident, !EqDecision K}.
  Variables (quiesce_writes : bool) (progress_deadline : Z) (cap : nat) (quiesce_pointer : Z).
  Variables (clock : nat → Z) (place : gmap Z (InFlight T) → Z) (crc : slice → Z).
  Hypothesis place_fresh : ∀ m, m !! place m = None.
  Hypothesis place_nonnull : ∀ m, place m ≠ 0%Z.
  Implicit Types (w : worker E T) (a : lives K) (s : service E T K).

  Abbreviation tracked w a := (tracks ident w [] [] a).
  Abbreviation moving w w' a := (moves ident w w' [] [] a).
  Abbreviation tried := (held progress_deadline clock).

(** Since when each queued operation has been tried. *)
Definition sinces w : list (option Z) := (stalled_since <$> pending w) ++ (q_stalled_since <$> quiescing w).

Lemma held_widen lo lo' hi hi' o o' : lo' ≤ lo → hi ≤ hi' → tried lo hi o o' → tried lo' hi' o o'.
Proof. intros ?? (t & k & ? & ? & ? & ?). exists t, k. split_and!; try done; lia. Qed.

Lemma held_all_widen lo lo' hi hi' l l' :
  lo' ≤ lo → hi ≤ hi' → Forall2 (tried lo hi) l l' → Forall2 (tried lo' hi') l l'.
Proof. intros ?? H. eapply Forall2_impl; [exact H|]. eauto using held_widen. Qed.

Lemma post_loop_waits l1 l2 w w' n a rec q :
  books_of ident w [] [] rec q → flight w → tracked w a → pending w = l1 ++ l2 → in_flight w < cap →
  post_loop progress_deadline cap clock crc (length l1) w = Some (w', n) →
  moving w w' a ∨
  ∃ l1', pending w' = l2 ++ l1' ∧ Forall2 (tried (ticks w) (ticks w')) (stalled_since <$> l1) (stalled_since <$> l1') ∧
    quiescing w' = quiescing w ∧ ticks w + length l1 ≤ ticks w' ∧
    posted (endpoint_of w') ≡ₚ posted (endpoint_of w) ∧ tracked w' a.
Proof.
  revert l2 w w' n. induction l1 as [|p l1 IH]; intros l2 w w' n Hbk Hfl Ht Hp Hcap; simpl.
  { intros [= <- _]. right. exists []. rewrite app_nil_r. split_and!; [done|constructor|done|lia|done|done]. }
  change (pending w = p :: (l1 ++ l2)) in Hp.
  destruct (Nat.ltb_spec (in_flight w) cap); [|lia].
  destruct (post_one_ok ident progress_deadline clock place crc place_fresh place_nonnull w rec q Hbk Hfl)
    as (w1 & n1 & H1 & Hbk1 & Hfl1 & _).
  rewrite H1. simpl. intros H2. apply bind_Some in H2 as ([w2 n2] & H2 & [= <- _]).
  destruct (post_one_life ident progress_deadline cap clock place crc place_fresh place_nonnull _ _ _ _ _ _ _ _ Hbk Ht Hp H1)
    as [Hm|(t & Hheld & Hp1 & Hq1 & Hi1 & Hti1 & Hpo1 & Ht1)].
  { left. eapply moves_into; [exact Hm|]. intros a1 Ht1. by eapply post_loop_follows. }
  rewrite <-(assoc_L (++)) in Hp1.
  destruct (IH (l2 ++ [with_stalled (Some t) p]) w1 w2 n2 Hbk1 Hfl1 Ht1 Hp1 ltac:(lia) H2)
    as [(a' & Hs & Ht2)|(l1' & Hp2 & Hheld2 & Hq2 & Hti2 & Hpo2 & Ht2)].
  { left. by exists a'. }
  right. exists (with_stalled (Some t) p :: l1'). split_and!; [|csimpl; constructor|congruence|lia|by rewrite Hpo2|done].
  - by rewrite Hp2, <-(assoc_L (++)).
  - by eapply held_widen; [..|exact Hheld]; lia.
  - by eapply held_all_widen; [..|exact Hheld2]; lia.
Qed.

Lemma quiesce_loop_waits l1 l2 w w' n a rec q :
  books_of ident w [] [] rec q → flight w → tracked w a → quiescing w = l1 ++ l2 →
  quiesce_loop progress_deadline quiesce_pointer clock crc (length l1) w = Some (w', n) →
  moving w w' a ∨
  ∃ l1', quiescing w' = l2 ++ l1' ∧
    Forall2 (tried (ticks w) (ticks w')) (q_stalled_since <$> l1) (q_stalled_since <$> l1') ∧
    pending w' = pending w ∧ ticks w + length l1 ≤ ticks w' ∧ tracked w' a.
Proof.
  revert l2 w w' n. induction l1 as [|x l1 IH]; intros l2 w w' n Hbk Hfl Ht Hp; simpl.
  { intros [= <- _]. right. exists []. rewrite app_nil_r. split_and!; [done|constructor|done|lia|done]. }
  change (quiescing w = x :: (l1 ++ l2)) in Hp.
  destruct (quiesce_one_ok ident progress_deadline quiesce_pointer clock place crc place_fresh
    place_nonnull w rec q Hbk Hfl) as (w1 & n1 & H1 & Hbk1 & Hfl1 & _).
  rewrite H1. simpl. intros H2. apply bind_Some in H2 as ([w2 n2] & H2 & [= <- _]).
  destruct (quiesce_one_life ident progress_deadline cap quiesce_pointer clock place crc place_fresh place_nonnull
    _ _ _ _ _ _ _ _ Hbk Ht Hp H1) as [Hm|(t & Hheld & Hp1 & Hq1 & Hti1 & Hpo1 & Ht1)].
  { left. eapply moves_into; [exact Hm|]. intros a1 Ht1. by eapply quiesce_loop_follows. }
  rewrite <-(assoc_L (++)) in Hq1.
  destruct (IH _ w1 w2 n2 Hbk1 Hfl1 Ht1 Hq1 H2) as [(a' & Hs & Ht2)|(l1' & Hq2 & Hheld2 & Hp2 & Hti2 & Ht2)].
  { left. by exists a'. }
  right. eexists (_ :: l1'). split_and!; [|csimpl; constructor|congruence|lia|done].
  - by rewrite Hq2, <-(assoc_L (++)).
  - by eapply held_widen; [..|exact Hheld]; lia.
  - by eapply held_all_widen; [..|exact Hheld2]; lia.
Qed.

(** With nothing in the fabric a reap finds nothing. *)
Lemma reap_pass_nothing w w' any a rec q :
  books_of ident w [] [] rec q → tracked w a → posted (endpoint_of w) = [] →
  reap_pass crc w = Some (w', any) →
  any = false ∧ pending w' = pending w ∧ quiescing w' = quiescing w ∧ ticks w' = ticks w ∧
  drain_spins w' = drain_spins w ∧ in_flight w' = in_flight w ∧ disconnected w' = disconnected w ∧
  posted (endpoint_of w') = [] ∧ tracked w' a.
Proof.
  intros Hbk Ht Hp. unfold reap_pass. destruct (t_reap _ _) as [[r reaped] e] eqn:Hr.
  pose proof (posted_nonnull ident clock place place_fresh place_nonnull _ _ _ _ _ Hbk) as Hnn.
  pose proof (reap_posted _ _ _ _ _ Hr Hnn) as Hp'. pose proof (reap_reports _ _ _ _ _ Hr Hnn) as Hre.
  rewrite Hp in Hp'. apply Permutation_nil_l in Hp'. destruct reaped; [|done]. simpl in *.
  intros [= <- <-]. simpl_worker. rewrite Nat.sub_0_r, app_nil_r in *.
  split_and!; try done. apply (tracks_same ident w _ [] []); try done; unfold endpoint_of in *; simpl_worker.
  - by rewrite Hp, <-Hp'.
  - intros b. unfold active, endpoint_of in *. simpl_worker. by rewrite Hp, <-Hp'.
Qed.

Lemma after_progress_keeps n any w w' t :
  after_progress n any w = Some (w', t) →
  pending w' = pending w ∧ quiescing w' = quiescing w ∧ ticks w' = ticks w ∧
  in_flight w' = in_flight w ∧ endpoint_of w' = endpoint_of w.
Proof.
  unfold after_progress. intros H. apply bind_Some in H as (w1 & H1 & H).
  assert (pending w1 = pending w ∧ quiescing w1 = quiescing w ∧ ticks w1 = ticks w ∧
    in_flight w1 = in_flight w ∧ endpoint_of w1 = endpoint_of w) as (<- & <- & <- & <- & <-).
  { destruct (should_flush_crc _ _ _ _); [|by simplify_eq]. by apply submit_crc_batch_keeps in H1 as (m & ops & ->). }
  destruct (_ && _ && _); [by simplify_eq/=|]. injection H as <- _. by case_bool_decide.
Qed.

(** How a pass ends with nothing queued or posted: it waits for more completions, at most ten
    times over, or the loop is left or blocks. *)
Lemma after_progress_idle n any w w' t :
  after_progress n any w = Some (w', t) → idle w = true →
  t ≠ Spin ∨ (t = Spin ∧ drain_spins w' = S (drain_spins w) ∧ drain_spins w < 10).
Proof.
  unfold after_progress. intros H Hidle. apply bind_Some in H as (w1 & H1 & H).
  assert (drain_spins w1 = drain_spins w) as <-.
  { destruct (should_flush_crc _ _ _ _); [|by simplify_eq]. by apply submit_crc_batch_keeps in H1 as (m & ops & ->). }
  destruct (_ && _ && (drain_spins w1 <? 10)) eqn:Hs.
  - apply andb_true_iff in Hs as [_ Hs%Nat.ltb_lt]. simplify_eq/=. by right.
  - rewrite Hidle in H. injection H as _ <-. left. by destruct (disconnected _).
Qed.

(** A pass, the fabric holding nothing, in which no transfer comes any nearer its end:
    everything is still queued, held back by the fabric and within the deadline. *)
Lemma pass_waits closed w w' t a rec q :
  books_of ident w [] [] rec q → flight w → tracked w a → posted (endpoint_of w) = [] → 0 < cap →
  pass quiesce_writes progress_deadline cap quiesce_pointer clock place crc [] closed w = Some (w', t) →
  moving w w' a ∨
  (tracked w' a ∧ Forall2 (tried (ticks w) (ticks w')) (sinces w) (sinces w') ∧
   ticks w + length (sinces w) ≤ ticks w').
Proof.
  intros Hbk Hfl Ht Hp Hcap. unfold pass, progress.
  change (intake quiesce_writes place [] closed w) with (if closed then with_disconnected true w else w).
  set (w1 := if closed then _ else _).
  assert (books_of ident w1 [] [] rec q ∧ flight w1 ∧ tracked w1 a ∧ posted (endpoint_of w1) = [] ∧
    pending w1 = pending w ∧ quiescing w1 = quiescing w ∧ ticks w1 = ticks w) as
    (Hbk1 & Hfl1 & Ht1 & Hp1 & Hpe1 & Hq1 & Hti1).
  { unfold w1. destruct closed; [|by split_and!]. split_and!; try done. by eapply tracks_moved. }
  destruct (post_loop_ok ident progress_deadline cap clock place crc place_fresh place_nonnull
    (length (pending w1)) w1 rec q Hbk1 Hfl1) as (w2 & n & H2 & Hbk2 & Hfl2 & _). rewrite H2. simpl.
  destruct (reap_pass_ok ident clock place crc place_fresh place_nonnull w2 rec q Hbk2 Hfl2)
    as (w3 & any & H3 & Hbk3 & Hfl3 & _). rewrite H3. simpl.
  destruct (quiesce_loop_ok ident progress_deadline quiesce_pointer clock place crc place_fresh
    place_nonnull (length (quiescing w3)) w3 rec q Hbk3 Hfl3) as (w4 & m & H4 & Hbk4 & Hfl4 & _).
  rewrite H4. simpl. intros H5.
  assert (∀ a4, tracked w4 a4 → tracked w' a4) as Hlast by (intros; by eapply after_progress_follows).
  destruct (after_progress_keeps _ _ _ _ _ H5) as (Hp5 & Hq5 & Hti5 & _).
  destruct (post_loop_waits (pending w1) [] w1 w2 n a rec q Hbk1 Hfl1 Ht1)
    as [Hm|(l1 & Hpe2 & Hh2 & Hq2 & Hti2 & Hpo2 & Ht2)]; [by rewrite app_nil_r| |done| |].
  { unfold flight in Hfl1. rewrite Hfl1, Hp1. done. }
  { left. eapply moves_into; [exact Hm|]. intros a2 Ht2.
    eapply follows_trans; [by eapply reap_pass_follows|]. intros a3 Ht3.
    eapply follows_trans; [by eapply quiesce_loop_follows|]. intros a4 Ht4. exists a4. split; [done|auto]. }
  rewrite Hp1 in Hpo2. apply Permutation_nil_r in Hpo2.
  destruct (reap_pass_nothing _ _ _ _ _ _ Hbk2 Ht2 Hpo2 H3) as (_ & Hpe3 & Hq3 & Hti3 & _ & _ & _ & _ & Ht3).
  destruct (quiesce_loop_waits (quiescing w3) [] w3 w4 m a rec q Hbk3 Hfl3 Ht3)
    as [(a' & Hs & Ht4)|(l2 & Hq4 & Hh4 & Hpe4 & Hti4 & Ht4)]; [by rewrite app_nil_r|done|left; exists a'; auto|].
  right. split; [auto|]. unfold sinces. rewrite Hp5, Hq5, Hti5, Hpe4, Hq4, Hpe3, Hpe2. rewrite !length_app, !length_fmap.
  simpl in *. rewrite <-Hpe1, <-Hq1, <-Hti1.
  assert (quiescing w3 = quiescing w1) as Hq31 by congruence. rewrite Hq31 in *.
  split; [|lia]. apply Forall2_app; (eapply held_all_widen; [..|eassumption]); lia.
Qed.

(** A pass with no transfer under way. *)
Lemma pass_drains closed w w' t a rec q :
  books_of ident w [] [] rec q → flight w → tracked w a → active w = [] →
  pass quiesce_writes progress_deadline cap quiesce_pointer clock place crc [] closed w = Some (w', t) →
  t ≠ Spin ∨ (t = Spin ∧ active w' = [] ∧ drain_spins w' = S (drain_spins w) ∧ drain_spins w < 10).
Proof.
  intros Hbk Hfl Ht Hact. unfold active in Hact. apply app_eq_nil in Hact as [Hpe%fmap_nil_inv [Hp Hq%fmap_nil_inv]%app_eq_nil].
  unfold pass, progress.
  change (intake quiesce_writes place [] closed w) with (if closed then with_disconnected true w else w).
  set (w1 := if closed then _ else _).
  assert (books_of ident w1 [] [] rec q ∧ flight w1 ∧ tracked w1 a ∧ posted (endpoint_of w1) = [] ∧
    pending w1 = [] ∧ quiescing w1 = [] ∧ drain_spins w1 = drain_spins w) as (Hbk1 & Hfl1 & Ht1 & Hp1 & Hpe1 & Hq1 & Hdr1).
  { unfold w1. destruct closed; split_and!; try done. by eapply tracks_moved. }
  rewrite Hpe1. simpl.
  destruct (reap_pass_ok ident clock place crc place_fresh place_nonnull w1 rec q Hbk1 Hfl1)
    as (w2 & any & H2 & _ & Hfl2 & _). rewrite H2. simpl.
  destruct (reap_pass_nothing w1 _ _ a _ _ Hbk1 Ht1 Hp1 H2) as (-> & Hpe2 & Hq2 & _ & Hdr2 & Hi2 & _ & Hp2 & _).
  rewrite Hq2, Hq1. simpl. intros H3.
  destruct (after_progress_keeps _ _ _ _ _ H3) as (Hpe3 & Hq3 & _ & _ & He3).
  destruct (after_progress_idle _ _ _ _ _ H3) as [?|(? & ? & ?)].
  - unfold idle. rewrite Hpe2, Hq2, Hpe1, Hq1, Hi2. unfold flight in Hfl1. by rewrite Hfl1, Hp1.
  - by left.
  - right. rewrite <-Hdr1, <-Hdr2. split_and!; try done. unfold active. by rewrite Hpe3, Hq3, He3, Hpe2, Hq2, Hpe1, Hq1, Hp2.
Qed.

(** ** The thread *)

Abbreviation thread_turn := (thread_step quiesce_writes progress_deadline cap quiesce_pointer clock place crc).

Lemma deferred_length m l :
  (∀ b, b ∈ l.*1 → is_Some (m !! b)) → length (deferred ident m l) = length l.
Proof.
  unfold deferred. induction l as [|[b r] l IH]; csimpl; [done|]. intros Hin.
  assert (is_Some (m !! b)) as [op ->] by (apply Hin; left).
  simpl. rewrite IH by (intros; apply Hin; by right). done.
Qed.

Lemma told_length (l : list (effect T)) : length (l ≫= told ident) = length (delivered (ident := ident) l).
Proof.
  unfold delivered. induction l as [|x l IH]; [done|]. csimpl. rewrite !length_app, IH. f_equal.
  destruct x; simpl; by rewrite ?length_fmap.
Qed.

Lemma tracks_known w a rec q : books_of ident w [] [] rec q → tracked w a → known a = length rec.
Proof.
  intros Hbk Ht. pose proof (books_NoDup _ _ _ _ _ _ _ Hbk) as Hnd.
  pose proof (bk_owners _ _ _ _ _ _ _ Hbk) as Ho. pose proof (bk_conserve _ _ _ _ _ _ _ Hbk (λ _, 1)) as Hc.
  rewrite !app_nil_r in *. pose proof (Permutation_length Ho) as Hlen. rewrite length_app, !length_fmap in Hlen.
  assert (∀ {A} (l : list A), sum_list_with (λ _, 1) l = length l) as Hone
    by (intros A l; induction l; simpl; congruence).
  change ((λ _ : K, 1) ∘ snd) with (λ _ : Z * K, 1) in Hc. rewrite !Hone, !length_fmap in Hc.
  assert (size (alive a) = length (active w)) as Hsize.
  { rewrite <-size_dom. apply NoDup_app in Hnd as [Hnd _].
    rewrite <-(size_list_to_set (C := gset Z) (active w)) by done. f_equal. apply set_eq. intros b.
    rewrite elem_of_dom, (tr_alive _ _ _ _ _ Ht), elem_of_list_to_set. by rewrite !app_nil_r. }
  pose proof (Permutation_length (tr_ended _ _ _ _ _ Ht)) as He. unfold outcomes in He.
  rewrite !length_app, !length_fmap in He.
  assert (length (deferred ident (boxes w) (crc_pending w)) = length (crc_pending w)) as Hd.
  { apply deferred_length. intros b Hb. eapply (owned_box ident); [exact Hbk|].
    rewrite !app_nil_r. set_solver. }
  rewrite told_length in He.
  unfold known. lia.
Qed.

(** What the fabric holds is what the specification says it does. *)
Lemma same_posted w w' a :
  tracked w a → tracked w' a → posted (endpoint_of w) = [] → posted (endpoint_of w') = [].
Proof.
  intros Ht Ht' Hp. destruct (posted (endpoint_of w')) as [|b l] eqn:Hp'; [done|].
  assert (is_Some (alive a !! b)) as [x Hx].
  { apply (tr_alive _ _ _ _ _ Ht'). unfold active. rewrite Hp'. set_solver. }
  pose proof (tr_fabric _ _ _ _ _ Ht b x Hx) as Hf. pose proof (tr_fabric _ _ _ _ _ Ht' b x Hx) as Hf'.
  rewrite Hp, bool_decide_eq_false_2 in Hf by set_solver.
  by rewrite Hp', Hf, bool_decide_eq_true_2 in Hf' by set_solver.
Qed.

(** A reachable service and the state of the specification it is in. *)
Definition present s a : Prop := ∃ rec, service_ok ident s rec ∧ tracked (thread s) a.

Lemma present_known s a : present s a → known a + waiting_transfers ident s = length (taken s).
Proof.
  intros (rec & Hok & Ht). rewrite (tracks_known _ _ _ _ (so_books _ _ _ Hok) Ht).
  rewrite (Permutation_length (so_taken _ _ _ Hok)), length_app. done.
Qed.

Lemma present_step s s' a :
  present s a → thread_turn s = Some s' → ∃ a', rtc life_step a a' ∧ present s' a'.
Proof.
  intros (rec & Hok & Ht) Hs.
  destruct (thread_ok ident quiesce_writes progress_deadline cap quiesce_pointer clock place crc
    place_fresh place_nonnull s rec Hok) as (s1 & rec' & Hs1 & Hok'). simplify_eq.
  edestruct (thread_step_follows ident quiesce_writes progress_deadline cap quiesce_pointer clock place crc)
    as (a' & Ha & Ht'); [done|done|exact Hok|exact Ht|exact Hs|]. exists a'. split; [done|]. by exists rec'.
Qed.

(** In its loop with the channel drained, or asleep on it or gone. *)
Definition alone s : Prop := status s = Running ∧ channel s = [].
Definition resting s : Prop := status s ≠ Running ∧ channel s = [].

Lemma running_step s s' : status s = Running → thread_turn s = Some s' → resting s' ∨ alone s'.
Proof.
  intros Hst. unfold thread_step. rewrite Hst. intros H.
  apply bind_Some in H as ([w t] & _ & H). apply bind_Some in H as ([w1 st] & _ & [= <-]).
  destruct (decide (st = Running)) as [->|]; [by right|by left].
Qed.

Lemma thread_sender s s' : thread_turn s = Some s' → sender s' = sender s.
Proof.
  unfold thread_step. intros H. destruct (status s).
  - apply bind_Some in H as ([w t] & _ & H). by apply bind_Some in H as ([w1 st] & _ & [= <-]).
  - destruct (channel s) as [|m rest]; [|by simplify_eq]. destruct (sender s) eqn:Hse; [by simplify_eq|].
    by apply bind_Some in H as (w & _ & [= <-]).
  - by simplify_eq.
Qed.

(** Asleep with the handle gone, it rests at once. *)
Lemma resting_dropped s s' : resting s → sender s = false → thread_turn s = Some s' → status s' = Gone ∧ resting s'.
Proof.
  unfold thread_step. intros [Hst Hch] Hse H. destruct (status s) eqn:Hs; [done| |].
  - rewrite Hch, Hse in H. by apply bind_Some in H as (w & _ & [= <-]).
  - simplify_eq. split; [done|]. split; [by rewrite Hs|done].
Qed.

Lemma alone_turn s s' :
  alone s → alone s' → thread_turn s = Some s' →
  pass quiesce_writes progress_deadline cap quiesce_pointer clock place crc [] (negb (sender s)) (thread s) =
  Some (thread s', Spin).
Proof.
  intros (Hst & Hch) (Hst' & _). unfold thread_step. rewrite Hst, Hch. simpl. intros H.
  apply bind_Some in H as ([w t] & Hp & H). apply bind_Some in H as ([w1 st] & H & [= <-]). simpl in *.
  destruct t; simpl in H; [by simplify_eq|by simplify_eq|apply bind_Some in H as (w2 & _ & H); by simplify_eq].
Qed.

(** A turn in which a transfer moves ahead is nearer the end. *)
Lemma alone_nearer s s' a :
  alone s → alone s' → present s a → thread_turn s = Some s' →
  ∃ a', present s' a' ∧ (a' = a ∨ distance a' < distance a).
Proof.
  intros (_ & Hc) (_ & Hc') Hp Hs. destruct (present_step _ _ _ Hp Hs) as (a' & Ha & Hp').
  exists a'. split; [done|]. apply idle_or_nearer; [done|].
  apply present_known in Hp, Hp'. unfold waiting_transfers in *. rewrite Hc in Hp. rewrite Hc' in Hp'.
  apply thread_taken in Hs. rewrite Hs in Hp'. simpl in *. lia.
Qed.

(** Where nothing is in the fabric, only the clock can hold it up. *)
Lemma alone_waits s s' a :
  alone s → alone s' → present s a → posted (endpoint_of (thread s)) = [] → 0 < cap →
  thread_turn s = Some s' →
  (∃ a', present s' a' ∧ distance a' < distance a) ∨
  (present s' a ∧ posted (endpoint_of (thread s')) = [] ∧
   Forall2 (tried (ticks (thread s)) (ticks (thread s'))) (sinces (thread s)) (sinces (thread s')) ∧
   ticks (thread s) + length (sinces (thread s)) ≤ ticks (thread s')).
Proof.
  intros Hcl Hcl' Hp Hpo Hcap Hs.
  destruct (present_step _ _ _ Hp Hs) as (_ & _ & rec' & Hok' & _). pose proof Hp as (rec & Hok & Ht).
  pose proof (alone_turn _ _ Hcl Hcl' Hs) as Hpass.
  destruct (pass_waits (negb (sender s)) _ _ _ a rec _ (so_books _ _ _ Hok) (so_flight _ _ _ Hok) Ht Hpo Hcap Hpass)
    as [(a' & Ha & Ht')|(Ht' & Hh & Hti)].
  - left. assert (present s' a') as Hp' by (by exists rec'). exists a'. split; [done|].
    apply moves_nearer; [done|]. apply present_known in Hp, Hp'.
    unfold waiting_transfers in *. rewrite (proj2 Hcl) in Hp. rewrite (proj2 Hcl') in Hp'.
    rewrite (thread_taken _ _ _ _ _ _ _ _ _ Hs) in Hp'. simpl in *. lia.
  - right. split; [by exists rec'|]. split; [|done].
    by apply (same_posted (thread s) _ a).
Qed.

(** With no transfer under way it rests, after at most ten more passes. *)
Lemma alone_drains s s' a :
  alone s → alone s' → present s a → active (thread s) = [] → thread_turn s = Some s' →
  active (thread s') = [] ∧ drain_spins (thread s') = S (drain_spins (thread s)) ∧ drain_spins (thread s) < 10.
Proof.
  intros Hcl Hcl' (rec & Hok & Ht) Hact Hs.
  destruct (pass_drains (negb (sender s)) _ _ _ a rec _ (so_books _ _ _ Hok) (so_flight _ _ _ Hok) Ht Hact
    (alone_turn _ _ Hcl Hcl' Hs)) as [|(_ & ?)]; done.
Qed.

(** The thread's turns from a reachable service. *)
Definition run_from s (n : nat) : service E T K := Nat.iter n (λ s, default s (thread_turn s)) s.

Lemma run_from_reached e s n :
  posted e = [] →
  rtc (service_step ident quiesce_writes progress_deadline cap quiesce_pointer clock place crc) (service_new e) s →
  rtc (service_step ident quiesce_writes progress_deadline cap quiesce_pointer clock place crc) (service_new e) (run_from s n) ∧
  thread_turn (run_from s n) = Some (run_from s (S n)).
Proof.
  intros He Hs.
  assert (∀ s, rtc (service_step ident quiesce_writes progress_deadline cap quiesce_pointer clock place crc) (service_new e) s →
    thread_turn s = Some (default s (thread_turn s))) as Hturn.
  { intros s1 Hr. destruct (reachable_ok ident quiesce_writes progress_deadline cap quiesce_pointer clock place crc
      place_fresh place_nonnull e _ He Hr) as [rec Hok].
    destruct (thread_ok ident quiesce_writes progress_deadline cap quiesce_pointer clock place crc
      place_fresh place_nonnull _ rec Hok) as (s' & _ & -> & _). done. }
  induction n as [|n [IH Hn]]; [split; [done|by apply Hturn]|].
  assert (rtc (service_step ident quiesce_writes progress_deadline cap quiesce_pointer clock place crc)
    (service_new e) (run_from s (S n))) as Hr by (eapply rtc_r; [exact IH|by apply step_thread]).
  split; [done|by apply Hturn].
Qed.

Lemma run_from_gone s k d : status (run_from s k) = Gone → run_from s (d + k) = run_from s k.
Proof.
  intros Hg. induction d as [|d IH]; [done|]. simpl.
  change (run_from s (S (d + k))) with (default (run_from s (d + k)) (thread_turn (run_from s (d + k)))).
  rewrite IH. unfold thread_step. by rewrite Hg.
Qed.

(** ** Runs *)

(** The thread's turns one after another. *)
Definition thread_run (run : nat → service E T K) : Prop := ∀ i, thread_turn (run i) = Some (run (S i)).

(** The fabric does not hold an operation for ever: sooner or later it reports it. *)
Definition fabric_reports (run : nat → service E T K) : Prop :=
  ∀ i b, b ∈ posted (endpoint_of (thread (run i))) → ∃ d, b ∉ posted (endpoint_of (thread (run (d + i)))).

Definition time_passes : Prop := ∀ t, ∃ n, ∀ m, n ≤ m → (t ≤ clock m)%Z.

Section runs.
  Variable run : nat → service E T K.
  Hypothesis turns : thread_run run.

Definition rests : Prop := ∃ n, resting (run n).

Definition nearer a : Prop := ∃ j a', alone (run j) ∧ present (run j) a' ∧ distance a' < distance a.

Lemma alone_next i : alone (run i) → rests ∨ alone (run (S i)).
Proof.
  intros (Hst & _). destruct (running_step _ _ Hst (turns i)) as [Hg|]; [left; by exists (S i)|by right].
Qed.

Lemma drained_rests d i a :
  alone (run i) → present (run i) a → active (thread (run i)) = [] → 10 - drain_spins (thread (run i)) ≤ d → rests.
Proof.
  revert i a. induction d as [|d IH]; intros i a Hcl Hp Hact Hd.
  all: destruct (alone_next i Hcl) as [|Hcl']; [done|].
  all: destruct (alone_drains _ _ _ Hcl Hcl' Hp Hact (turns i)) as (Hact' & Hdr & Hlt); try lia.
  destruct (present_step _ _ _ Hp (turns i)) as (a' & _ & Hp'). eapply (IH (S i)); [done..|lia].
Qed.

(** Over any number of turns it rests, or comes nearer, or the transfers stay as they are. *)
Lemma stays d i a :
  alone (run i) → present (run i) a →
  rests ∨ nearer a ∨ (alone (run (d + i)) ∧ present (run (d + i)) a).
Proof.
  intros Hcl Hp. induction d as [|d [?|[?|[Hcl1 Hp1]]]]; simpl; [by auto..|].
  destruct (alone_next _ Hcl1) as [|Hcl2]; [by auto|].
  destruct (alone_nearer _ _ _ Hcl1 Hcl2 Hp1 (turns (d + i))) as (a' & Hp2 & [->|?]); [by auto|].
  right. left. by exists (S (d + i)), a'.
Qed.

Lemma tried_same lo hi lo' hi' l0 l l' :
  Forall2 (tried lo hi) l0 l → Forall2 (tried lo' hi') l l' → l' = l.
Proof.
  intros H0. revert l'. induction H0 as [|o0 o l0 l (t & k & -> & _) _ IH]; intros l' H;
    inversion_clear H as [|? o' ? ? (t' & k' & -> & Ht & _)]; [done|].
  simpl in Ht. subst t'. f_equal. by apply IH.
Qed.

(** With nothing in the fabric, staying as they are is being turned away, time passing. *)
Lemma held_up d i a :
  alone (run i) → present (run i) a → posted (endpoint_of (thread (run i))) = [] → 0 < cap →
  sinces (thread (run i)) ≠ [] →
  rests ∨ nearer a ∨
  (alone (run (d + S i)) ∧ present (run (d + S i)) a ∧ posted (endpoint_of (thread (run (d + S i)))) = [] ∧
   sinces (thread (run (d + S i))) = sinces (thread (run (S i))) ∧
   (∃ l0 lo hi, Forall2 (tried lo hi) l0 (sinces (thread (run (S i))))) ∧
   length (sinces (thread (run (S i)))) = length (sinces (thread (run i))) ∧ d ≤ ticks (thread (run (d + S i)))).
Proof.
  intros Hcl Hp Hpo Hcap Hne. induction d as [|d [?|[?|(Hcl1 & Hp1 & Hpo1 & Hs1 & Hh1 & Hlen & Hti1)]]]; [|by auto..|].
  - destruct (alone_next _ Hcl) as [|Hcl2]; [by auto|].
    destruct (alone_waits _ _ _ Hcl Hcl2 Hp Hpo Hcap (turns i)) as [(a' & ? & ?)|(Hp2 & Hpo2 & Hh & _)].
    + right. left. by exists (S i), a'.
    + right. right. simpl. split_and!; try done; [eauto|by apply Forall2_length in Hh|lia].
  - destruct (alone_next _ Hcl1) as [|Hcl2]; [by auto|].
    destruct (alone_waits _ _ _ Hcl1 Hcl2 Hp1 Hpo1 Hcap (turns (d + S i))) as [(a' & ? & ?)|(Hp2 & Hpo2 & Hh & Hti)].
    + right. left. by exists (S (d + S i)), a'.
    + right. right. rewrite Hs1 in *. destruct Hh1 as (l0 & lo & hi & Hh1).
      pose proof (tried_same _ _ _ _ _ _ _ Hh1 Hh) as Hs2. split_and!; try done; [eauto|].
      assert (length (sinces (thread (run i))) ≠ 0) by (by destruct (sinces (thread (run i)))). simpl. lia.
Qed.

(** While transfers are under way some turn takes one of them further. *)
Lemma comes_nearer i a :
  fabric_reports run → time_passes → 0 < cap →
  alone (run i) → present (run i) a → active (thread (run i)) ≠ [] → rests ∨ nearer a.
Proof.
  intros Hfabric Hclock Hcap Hcl Hp Hact.
  destruct (posted (endpoint_of (thread (run i)))) as [|b l] eqn:Hpo.
  - assert (sinces (thread (run i)) ≠ []) as Hne.
    { unfold active, sinces in *. rewrite Hpo in Hact. destruct (pending _), (quiescing _); done. }
    destruct (held_up 0 i a Hcl Hp Hpo Hcap Hne) as [?|[?|(_ & _ & _ & _ & (l0 & lo & hi & Hh0) & Hlen & _)]]; [by auto..|].
    assert (∃ t l, sinces (thread (run (S i))) = Some t :: l) as (t & l & Hl).
    { inversion Hh0 as [Hz1 Hz2|o0 o l1 l2 (t & k & -> & _)]; eauto.
      rewrite <-Hz2 in Hlen. by destruct (sinces (thread (run i))). }
    destruct (Hclock (t + progress_deadline)%Z) as [n Hn].
    destruct (held_up n i a Hcl Hp Hpo Hcap Hne) as [?|[?|(Hcl1 & Hp1 & Hpo1 & Hs1 & _ & _ & Hti)]]; [by auto..|].
    destruct (alone_next _ Hcl1) as [|Hcl2]; [by auto|].
    destruct (alone_waits _ _ _ Hcl1 Hcl2 Hp1 Hpo1 Hcap (turns (n + S i))) as [(a' & ? & ?)|(_ & _ & Hh & _)].
    { right. by exists (S (n + S i)), a'. }
    rewrite Hs1, Hl in Hh. inversion Hh as [|o0 o l1 l2 (t' & k & _ & Ht & Hk & Hlt)]; subst. simpl in Ht. subst t'.
    specialize (Hn k ltac:(lia)). lia.
  - destruct (Hfabric i b) as [d Hd]; [rewrite Hpo; left|].
    destruct (stays d i a Hcl Hp) as [?|[?|(_ & rec & _ & Ht)]]; [by auto..|].
    destruct Hp as (rec' & _ & Ht'). destruct Hd.
    assert (is_Some (alive a !! b)) as [x Hx].
    { apply (tr_alive _ _ _ _ _ Ht'). unfold active. rewrite Hpo. set_solver. }
    pose proof (tr_fabric _ _ _ _ _ Ht' b x Hx) as Hf. rewrite (tr_fabric _ _ _ _ _ Ht b x Hx), Hpo in Hf.
    rewrite (bool_decide_eq_true_2 (b ∈ (b :: l) ++ _)) in Hf by set_solver.
    apply bool_decide_eq_true in Hf. by rewrite app_nil_r in Hf.
Qed.

Section progress.
  Hypothesis reported : fabric_reports run.
  Hypothesis clock_goes_on : time_passes.
  Hypothesis cap_positive : 0 < cap.

Lemma alone_rests i a : alone (run i) → present (run i) a → rests.
Proof.
  remember (distance a) as n eqn:Hn. revert i a Hn.
  induction (lt_wf n) as [n _ IH]. intros i a -> Hcl Hp.
  destruct (decide (active (thread (run i)) = [])) as [Hact|Hact]; [by eapply drained_rests|].
  destruct (comes_nearer i a) as [?|(j & a' & Hcl' & Hp' & Hlt)]; [done..|]. by eapply IH.
Qed.

Lemma left_alone_rests i a : present (run i) a → rests.
Proof.
  assert (∀ i a, status (run i) = Running → present (run i) a → rests) as Hrunning.
  { intros j a0 Hst Hp. destruct (running_step _ _ Hst (turns j)) as [|Hcl]; [by exists (S j)|].
    destruct (present_step _ _ _ Hp (turns j)) as (a' & _ & Hp'). by eapply alone_rests. }
  intros Hp. destruct (decide (status (run i) = Running)) as [Hst|Hst]; [by eapply Hrunning|].
  destruct (channel (run i)) as [|m rest] eqn:Hch; [by exists i|].
  destruct (present_step _ _ _ Hp (turns i)) as (a' & _ & Hp').
  apply (Hrunning (S i) a'); [|done]. pose proof (turns i) as H. unfold thread_step in H. rewrite Hch in H.
  destruct Hp as (rec & Hok & _). destruct (status (run i)) eqn:Hs; [done|by injection H as <-|].
  destruct (so_gone _ _ _ Hok Hs) as [Hnil _]. by rewrite Hch in Hnil.
Qed.

End progress.

End runs.

(** C6: Left to itself, the worker hands everything back and comes to rest.  From any reachable
    state, however its posts are refused and whatever fails, the worker thread goes to sleep
    on an empty channel after finitely many turns, every transfer handed back and no box
    left; and if the service was dropped it leaves its loop, so that the join in [Drop]
    returns.  It is given only that time passes and that the fabric does not keep an
    operation for ever. *)
Theorem worker_comes_to_rest run e
  (Hrun : thread_run run)
  (He : posted e = [])
  (Hs : rtc (service_step ident quiesce_writes progress_deadline cap quiesce_pointer clock place crc)
          (service_new e) (run 0))
  (Hcap : 0 < cap)
  (Hclock : time_passes)
  (Hfabric : fabric_reports run) :
  ∃ n, resting (run n) ∧ (sender (run 0) = false → status (run n) = Gone) ∧
    taken (run n) ≡ₚ handed_back ident (run n) ∧ boxes (thread (run n)) = ∅.
Proof.
  assert (∀ n, rtc (service_step ident quiesce_writes progress_deadline cap quiesce_pointer clock place crc)
    (service_new e) (run n) ∧ sender (run n) = sender (run 0)) as Hreach.
  { induction n as [|n [IH Hse]]; [done|]. split; [eapply rtc_r; [exact IH|by apply step_thread]|].
    by rewrite (thread_sender _ _ (Hrun n)). }
  destruct (reachable_ok ident quiesce_writes progress_deadline cap quiesce_pointer clock place crc
    place_fresh place_nonnull e _ He Hs) as [rec Hok].
  destruct (reachable_tracks ident quiesce_writes progress_deadline cap quiesce_pointer clock place crc
    place_fresh place_nonnull e _ He Hs) as (a & _ & Ht).
  assert (∀ n, resting (run n) → taken (run n) ≡ₚ handed_back ident (run n) ∧ boxes (thread (run n)) = ∅) as Hdone.
  { intros n [Hst Hch]. destruct (reachable_ok ident quiesce_writes progress_deadline cap quiesce_pointer clock place crc
      place_fresh place_nonnull e _ He (proj1 (Hreach n))) as [rec' Hok'].
    pose proof (so_settled _ _ _ Hok' Hst) as Hse. split; [|apply Hse].
    rewrite (so_taken _ _ _ Hok'), Hch, app_nil_r. apply Hse. }
  destruct (left_alone_rests run Hrun Hfabric Hclock Hcap 0 a) as [n Hn]; [by exists rec|].
  destruct (sender (run 0)) eqn:Hse; [exists n; split; [done|]; split; [done|by apply Hdone]|].
  destruct (resting_dropped _ _ Hn (proj2 (Hreach n)) (Hrun n)) as [Hg Hn'].
  exists (S n). split; [done|]. split; [done|by apply Hdone].
Qed.

End passes.

(** ** Witness: the script of [Service], dropped with a write and a read in flight *)

Section witnesses.
#[local] Existing Instance example_libfabric.
#[local] Existing Instance tagged.
#[local] Existing Instance tagged_laws.

Abbreviation example_turn := (thread_step (K := Z) true 1000000000 64 64 Z.of_nat (example_place (T := Z)) (λ _, 7%Z)).

Definition dropped_script : list (script_op Z) := leaving_script ++ [Closing].

Definition departing_run : nat → service engine Z Z :=
  run_from true 1000000000 64 64 Z.of_nat example_place (λ _, 7%Z) (example_state dropped_script).

Lemma departing_run_reached n :
  rtc (service_step id true 1000000000 64 64 Z.of_nat example_place (λ _, 7%Z)) (service_new example_engine) (departing_run n) ∧
  example_turn (departing_run n) = Some (departing_run (S n)).
Proof.
  apply (run_from_reached id true 1000000000 64 64 Z.of_nat example_place (λ _, 7%Z)
    example_place_fresh example_place_nonnull example_engine (example_state dropped_script) n);
    [vm_compute; reflexivity|exact (example_reached dropped_script ltac:(vm_compute; reflexivity))].
Qed.

Lemma departing_run_gone d : posted (endpoint_of (thread (departing_run (16 + d)))) = [].
Proof.
  rewrite Nat.add_comm. unfold departing_run.
  rewrite (run_from_gone true 1000000000 64 64 Z.of_nat example_place (λ _, 7%Z) (example_state dropped_script) 16 d);
    vm_compute; reflexivity.
Qed.

Lemma worker_comes_to_rest_witness :
  active (thread (departing_run 0)) ≠ [] ∧
  ∃ n, status (departing_run n) = Gone ∧ taken (departing_run n) ≡ₚ handed_back id (departing_run n) ∧
    boxes (thread (departing_run n)) = ∅.
Proof.
  split; [by vm_compute|].
  destruct (worker_comes_to_rest id true 1000000000 64 64 Z.of_nat example_place (λ _, 7%Z)
    example_place_fresh example_place_nonnull departing_run example_engine (λ i, proj2 (departing_run_reached i)))
    as (n & _ & Hg & Hh & Hb).
  - vm_compute; reflexivity.
  - exact (proj1 (departing_run_reached 0)).
  - lia.
  - intros t. exists (Z.to_nat t). intros m Hm. lia.
  - intros j b _. exists 16. rewrite departing_run_gone. apply not_elem_of_nil.
  - exists n. split; [|by split].
    apply Hg. vm_compute; reflexivity.
Defined.

End witnesses.
