(* ===== verification/Targets.v ===== *)
(** * Transfers go where they were asked to

    What [server_dma_worker.rs] posts, and to whom.  [recorded] is any endpoint with a
    record of what is posted through it: each attempt with the client and address its peer
    was inserted for.  In every run each attempt is a submitted request's own, to its peer,
    at its remote place, of its operand's bytes; or it is the one byte read that quiesces a
    write, of the last byte that write covers, by the same peer and key. *)

From S2P Require Import Prelude Arc Wire Fabric RegionCache Operands PeerAddresses Config Endpoint.
From S2P Require Import Worker FabricTransport Service.

(** ** A record of what is posted *)

(** A post: the client and address its peer was inserted for, the direction, where at the
    peer, which bytes here, the context, and the answer. *)
Record posting := {
  g_peer : option (Z * list u8);
  g_out : bool;
  g_key : Z;
  g_remote : Z;
  g_bytes : slice;
  g_context : Z;
  g_code : Z;
}.

Record recorded (E : Type) := { wrapped : E; known : gmap nat (Z * list u8); sent : list posting }.
Arguments Build_recorded {E} _ _ _.
Arguments wrapped {E} _.
Arguments known {E} _.
Arguments sent {E} _.

Section recorded.
  Context {E : Type} `{!Transport E}.
  Implicit Types (e : recorded E).

Definition with_wrapped (x : E) e : recorded E := Build_recorded x (known e) (sent e).

Definition recorded_insert (client : Z) (address : list u8) e : result nat DmaError * recorded E :=
  let '(r, x) := t_insert_peer client address (wrapped e) in
  (r, Build_recorded x (match r with Ok i => <[i := (client, address)]> (known e) | Err _ => known e end) (sent e)).

Definition recorded_post (out : bool) (i : nat) (key remote : Z) (bytes : slice) (d context : Z) e : Z * recorded E :=
  let '(code, x) := (if out then t_post_out else t_post_in) i key remote bytes d context (wrapped e) in
  (code, Build_recorded x (known e)
     (sent e ++ [{| g_peer := known e !! i; g_out := out; g_key := key; g_remote := remote; g_bytes := bytes;
                    g_context := context; g_code := code |}])).

#[export] Instance recorded_transport : Transport (recorded E) := {|
  t_insert_peer := recorded_insert;
  t_drop_peer i e := with_wrapped (t_drop_peer i (wrapped e)) e;
  t_release_peer client e := with_wrapped (t_release_peer client (wrapped e)) e;
  t_pin_region b l e := let '(r, x) := t_pin_region b l (wrapped e) in (r, with_wrapped x e);
  t_local_operand ptr l span e := let '(r, x) := t_local_operand ptr l span (wrapped e) in (r, with_wrapped x e);
  t_drop_lease lease e := with_wrapped (t_drop_lease lease (wrapped e)) e;
  t_post_out := recorded_post true;
  t_post_in := recorded_post false;
  t_reap max e := let '(r, out, x) := t_reap max (wrapped e) in (r, out, with_wrapped x e);
  t_max_tx e := t_max_tx (wrapped e);
  t_again := t_again;
  t_error := t_error;
|}.

#[export] Program Instance recorded_laws `{!TransportLaws E} : TransportLaws (recorded E) := {|
  posted e := posted (wrapped e);
|}.
Next Obligation.
  intros TL client address e. simpl. unfold recorded_insert. pose proof (insert_peer_posted client address (wrapped e)) as Hp.
  by destruct (t_insert_peer client address (wrapped e)).
Qed.
Next Obligation. intros TL i e. apply drop_peer_posted. Qed.
Next Obligation. intros TL client e. apply release_peer_posted. Qed.
Next Obligation.
  intros TL b l e. simpl. pose proof (pin_region_posted b l (wrapped e)) as Hp. by destruct (t_pin_region b l (wrapped e)).
Qed.
Next Obligation.
  intros TL ptr l span e. simpl. pose proof (local_operand_posted ptr l span (wrapped e)) as Hp.
  by destruct (t_local_operand ptr l span (wrapped e)).
Qed.
Next Obligation. intros TL lease e. apply drop_lease_posted. Qed.
Next Obligation.
  intros TL i k a s d context e code e'. simpl. unfold recorded_post.
  destruct (t_post_out i k a s d context (wrapped e)) as [c x] eqn:Hp. intros [= <- <-]. by eapply post_out_posted.
Qed.
Next Obligation.
  intros TL i k a s d context e code e'. simpl. unfold recorded_post.
  destruct (t_post_in i k a s d context (wrapped e)) as [c x] eqn:Hp. intros [= <- <-]. by eapply post_in_posted.
Qed.
Next Obligation.
  intros TL max e r out e'. simpl. destruct (t_reap max (wrapped e)) as [[r1 out1] x] eqn:Hr. intros [= <- <- <-].
  by eapply reap_posted.
Qed.

(** Only a post adds to the record, and only an insertion names a peer. *)
Definition unsent e e' : Prop := sent e' = sent e ∧ known e' = known e.

End recorded.

(** ** What a post is to be *)

Section targets.
  Context {E T K : Type} `{!Transport E, !TransportLaws E, !Operands T} (ident : T → K)
    `{!OperandsLaws T K ident, !EqDecision K}.
  Variables (quiesce_writes : bool) (progress_deadline : Z) (cap : nat) (quiesce_pointer : Z).
  Variables (clock : nat → Z) (place : gmap Z (InFlight T) → Z) (crc : slice → Z).
  Hypothesis place_fresh : ∀ m, m !! place m = None.
  Hypothesis place_nonnull : ∀ m, place m ≠ 0%Z.
  Implicit Types (w : worker (recorded E) T) (r : TransferRequest T) (rs : list (TransferRequest T)).
  Implicit Types (g : posting) (l : list posting) (p : Prepared) (x : Quiescing) (F : list Z).

(** The bytes of this process a request is for. *)
Definition operand_bytes r : result (Z * Z) DmaError := (resolve_operand (direction r) (request_context r)).1.

Definition outward (d : Direction) : bool := match d with ToPeer => true | FromPeer _ => false end.

(** The request's own transfer. *)
Definition own_post g r : Prop :=
  g_peer g = Some (client_id r, peer_address r) ∧ g_out g = outward (direction r) ∧ g_key g = remote_key r ∧
  g_remote g = remote_address r ∧ operand_bytes r = Ok (pointer (g_bytes g), len (g_bytes g)).

(** The last byte a write covers at its peer, which exists. *)
Definition last_byte r (last : Z) : Prop :=
  quiesce_writes = true ∧ direction r = ToPeer ∧ ∃ ptr length, operand_bytes r = Ok (ptr, length) ∧
    (0 < length)%Z ∧ last = (remote_address r + (length - 1))%Z ∧ (last < u64_end)%Z.

(** A write of the request's was given to the fabric in this box. *)
Definition written l r (box : Z) : Prop :=
  ∃ g, g ∈ l ∧ own_post g r ∧ g_out g = true ∧ g_context g = box ∧ g_code g = 0%Z.

(** The read that quiesces it. *)
Definition quiesce_post l g r : Prop :=
  g_peer g = Some (client_id r, peer_address r) ∧ g_out g = false ∧ g_key g = remote_key r ∧
  last_byte r (g_remote g) ∧ g_bytes g = Slice quiesce_pointer 1 ∧ written l r (g_context g).

Definition justified rs l g : Prop := ∃ r, r ∈ rs ∧ (own_post g r ∨ quiesce_post l g r).

Definition all_justified rs l : Prop := ∀ l1 g l2, l = l1 ++ g :: l2 → justified rs l1 g.

Lemma written_more l l' r box : (∀ g, g ∈ l → g ∈ l') → written l r box → written l' r box.
Proof. intros Hl (g & Hg & ?). exists g. auto. Qed.

Lemma all_justified_snoc rs l g : all_justified rs l → justified rs l g → all_justified rs (l ++ [g]).
Proof.
  intros Hl Hg l1 g' l2 Heq. destruct l2 as [|g2 l2 _] using rev_ind.
  - apply app_inj_tail in Heq as [-> ->]. done.
  - rewrite app_comm_cons, (assoc_L (++)) in Heq. apply app_inj_tail in Heq as [Heq _]. by eapply Hl.
Qed.

Lemma all_justified_more rs rs' l : (∀ r, r ∈ rs → r ∈ rs') → all_justified rs l → all_justified rs' l.
Proof. intros Hr Hl l1 g l2 Heq. destruct (Hl l1 g l2 Heq) as (r & ? & ?). exists r. auto. Qed.

(** ** What the worker keeps of each request *)

Definition asked p r : Prop :=
  p_client p = client_id r ∧ p_address p = peer_address r ∧ p_remote_key p = remote_key r ∧
  p_remote_address p = remote_address r ∧ p_direction p = direction r ∧ operand_bytes r = Ok (p_pointer p, p_length p).

(** A quiesce read of the request's; its address is filled in when the write is posted. *)
Definition to_quiesce (q : QuiesceRead) r : Prop :=
  q_remote_key q = remote_key r ∧ last_byte r (q_remote_address q).

Definition made_for (op : InFlight T) r : Prop :=
  if_client op = client_id r ∧ ∀ q, quiesce op = Some q → to_quiesce q r.

Definition record_of w : list posting := sent (endpoint_of w).

Definition queued_ok rs w p : Prop :=
  ∃ r op, r ∈ rs ∧ boxes w !! context p = Some op ∧ asked p r ∧ made_for op r.

Definition posted_ok rs w (b : Z) : Prop :=
  ∃ r op, r ∈ rs ∧ boxes w !! b = Some op ∧ made_for op r ∧
    ∀ q, quiesce op = Some q → q_address q = peer_address r ∧ written (record_of w) r b.

Definition waiting_ok rs w x : Prop :=
  ∃ r op, r ∈ rs ∧ boxes w !! q_inflight x = Some op ∧ if_client op = client_id r ∧ quiesce op = None ∧
    to_quiesce (read x) r ∧ q_address (read x) = peer_address r ∧ written (record_of w) r (q_inflight x).

(** Everything queued or in the fabric, and [F], completions in a local variable. *)
Record aims rs F w : Prop := {
  am_sent : all_justified rs (record_of w);
  am_queued p : p ∈ pending w → queued_ok rs w p;
  am_posted b : b ∈ posted (endpoint_of w) ++ F → posted_ok rs w b;
  am_waiting x : x ∈ quiescing w → waiting_ok rs w x;
}.

(** Boxes kept and a record that grew keep all that. *)
Lemma queued_ok_keep rs w w' p : boxes w' !! context p = boxes w !! context p → queued_ok rs w p → queued_ok rs w' p.
Proof. intros Hb (r & op & ? & ? & ? & ?). exists r, op. by rewrite Hb. Qed.

Lemma posted_ok_keep rs w w' b :
  boxes w' !! b = boxes w !! b → (∀ g, g ∈ record_of w → g ∈ record_of w') → posted_ok rs w b → posted_ok rs w' b.
Proof.
  intros Hb Hg (r & op & ? & ? & ? & Hq). exists r, op. rewrite Hb. split_and!; try done.
  intros q ?%Hq. split; [tauto|]. eapply written_more; [exact Hg|tauto].
Qed.

Lemma waiting_ok_keep rs w w' x :
  boxes w' !! q_inflight x = boxes w !! q_inflight x → (∀ g, g ∈ record_of w → g ∈ record_of w') →
  waiting_ok rs w x → waiting_ok rs w' x.
Proof.
  intros Hb Hg (r & op & ? & ? & ? & ? & ? & ? & ?). exists r, op. rewrite Hb. split_and!; try done.
  by eapply written_more.
Qed.

Lemma pending_active w p : p ∈ pending w → context p ∈ active w.
Proof. intros Hp. unfold active. rewrite !elem_of_app. left. apply list_elem_of_fmap. eauto. Qed.

Lemma quiescing_active w x : x ∈ quiescing w → q_inflight x ∈ active w.
Proof. intros Hx. unfold active. rewrite !elem_of_app. do 2 right. apply list_elem_of_fmap. eauto. Qed.

Lemma posted_active w b : b ∈ posted (endpoint_of w) → b ∈ active w.
Proof. intros Hb. unfold active. rewrite !elem_of_app. auto. Qed.

(** What was kept with its box, or is new, is right. *)
Lemma aims_grow rs F F' w w' :
  aims rs F w → all_justified rs (record_of w') → (∀ g, g ∈ record_of w → g ∈ record_of w') →
  (∀ p, p ∈ pending w' →
     p ∈ pending w ∧ boxes w' !! context p = boxes w !! context p ∨ queued_ok rs w' p) →
  (∀ b, b ∈ posted (endpoint_of w') ++ F' →
     b ∈ posted (endpoint_of w) ++ F ∧ boxes w' !! b = boxes w !! b ∨ posted_ok rs w' b) →
  (∀ x, x ∈ quiescing w' →
     x ∈ quiescing w ∧ boxes w' !! q_inflight x = boxes w !! q_inflight x ∨ waiting_ok rs w' x) → aims rs F' w'.
Proof.
  intros [Hs Hq Hp Hw] Hs' Hg Hq' Hp' Hw'. split; [done|..].
  - intros p [[Hin Hb]|]%Hq'; [|done]. eapply queued_ok_keep; [exact Hb|by apply Hq].
  - intros b [[Hin Hb]|]%Hp'; [|done]. eapply posted_ok_keep; [exact Hb|done|by apply Hp].
  - intros x [[Hin Hb]|]%Hw'; [|done]. eapply waiting_ok_keep; [exact Hb|done|by apply Hw].
Qed.

Lemma aims_keep rs F F' w w' :
  aims rs F w → all_justified rs (record_of w') → (∀ g, g ∈ record_of w → g ∈ record_of w') →
  (∀ p, p ∈ pending w' → p ∈ pending w) →
  (∀ b, b ∈ posted (endpoint_of w') ++ F' → b ∈ posted (endpoint_of w) ++ F) →
  (∀ x, x ∈ quiescing w' → x ∈ quiescing w) →
  (∀ b, b ∈ active w' ++ F' → boxes w' !! b = boxes w !! b) → aims rs F' w'.
Proof.
  intros Ha Hs Hg Hq Hp Hw Hb. eapply aims_grow; [exact Ha|done|done|..].
  - intros p Hin. left. split; [by apply Hq|]. apply Hb, elem_of_app. left. by apply pending_active.
  - intros b Hin. left. split; [by apply Hp|]. apply Hb. unfold active. rewrite !elem_of_app in *. tauto.
  - intros x Hin. left. split; [by apply Hw|]. apply Hb, elem_of_app. left. by apply quiescing_active.
Qed.

(** The endpoint, the clock and what no operation is told by may change. *)
Lemma aims_same rs F w w' :
  aims rs F w → record_of w' = record_of w → pending w' = pending w → posted (endpoint_of w') = posted (endpoint_of w) →
  quiescing w' = quiescing w → boxes w' = boxes w → aims rs F w'.
Proof.
  intros Ha Hr Hpe Hpo Hq Hb. eapply (aims_keep rs F F w w'); [exact Ha|..]; rewrite ?Hr, ?Hpe, ?Hpo, ?Hq; try done; [apply Ha|].
  intros b _. by rewrite Hb.
Qed.

Lemma aims_more rs rs' F w : (∀ r, r ∈ rs → r ∈ rs') → aims rs F w → aims rs' F w.
Proof.
  intros Hr [Hs Hq Hp Hw]. split; [by eapply all_justified_more|..].
  - intros p (r & op & ? & ?)%Hq. exists r, op. auto.
  - intros b (r & op & ? & ?)%Hp. exists r, op. auto.
  - intros x (r & op & ? & ?)%Hw. exists r, op. auto.
Qed.

(** ** Posting *)

(** What [post] does to the record and to the box. *)
Lemma post_record p w ans w' op :
  boxes w !! context p = Some op → post p w = Some (ans, w') →
  (∀ b, b ≠ context p → boxes w' !! b = boxes w !! b) ∧
  (ans ≠ Ok 0%Z ∧ boxes w' = boxes w ∧ record_of w' = record_of w ∨
   ∃ code g, ans = Ok code ∧ record_of w' = record_of w ++ [g] ∧
     g_peer g = Some (p_client p, p_address p) ∧ g_out g = outward (p_direction p) ∧ g_key g = p_remote_key p ∧
     g_remote g = p_remote_address p ∧ g_bytes g = Slice (p_pointer p) (p_length p) ∧
     g_context g = context p ∧ g_code g = code ∧
     if decide (code = 0%Z) then ∃ lease, boxes w' !! context p = Some (with_quiesce
       ((λ q, {| q_address := p_address p; q_remote_key := q_remote_key q;
                 q_remote_address := q_remote_address q |}) <$> quiesce op) (with_lease lease op))
     else boxes w' = boxes w).
Proof.
  intros Hop. unfold post, reclaim. simpl. unfold recorded_insert.
  destruct (t_insert_peer _ _ _) as [[peer|error] e1]; [|intros [= <- <-]; split; [done|by left]].
  simpl. rewrite Hop. simpl. destruct (t_local_operand _ _ _ e1) as [[lo|error] e2];
    [|intros [= <- <-]; split; [done|by left]].
  unfold post_resolved. intros H. apply bind_Some in H as ([code w2] & H & [= <- <-]).
  set (w0 := with_endpoint _ (with_endpoint _ w)) in H.
  assert (match p_direction p with
    | ToPeer => t_post_out peer (p_remote_key p) (p_remote_address p) (Slice (p_pointer p) (p_length p))
                  (descriptor lo) (context p) (endpoint_of w0)
    | FromPeer _ => t_post_in peer (p_remote_key p) (p_remote_address p) (Slice (p_pointer p) (p_length p))
                  (descriptor lo) (context p) (endpoint_of w0)
    end = recorded_post (outward (p_direction p)) peer (p_remote_key p) (p_remote_address p)
            (Slice (p_pointer p) (p_length p)) (descriptor lo) (context p) (endpoint_of w0)) as Heq
    by (by destruct (p_direction p)).
  rewrite Heq in H. unfold recorded_post in H. clear Heq.
  destruct ((if outward (p_direction p) then _ else _) _ _ _ _ _ _ _) as [c x]. cbn [endpoint_of] in H.
  assert (known (endpoint_of w0) !! peer = Some (p_client p, p_address p)) as Hk by apply lookup_insert_eq.
  rewrite Hk in H. destruct (Z.eqb_spec c 0) as [->|Hne].
  - unfold reclaim in H. apply bind_Some in H as (inflight & Hb & [= <- <-]).
    assert (inflight = op) as -> by (change (boxes w !! context p = Some inflight) in Hb; congruence).
    split; [intros b Hb'; exact (lookup_insert_ne (boxes w) _ _ _ (not_eq_sym Hb'))|]. right.
    eexists _, _. split; [done|]. split; [reflexivity|]. cbn. split_and!; try done.
    eexists. exact (lookup_insert_eq (boxes w) _ _).
  - injection H as <- <-. split; [done|]. right. eexists _, _. split; [done|]. split; [reflexivity|]. cbn.
    split_and!; try done. by rewrite decide_False.
Qed.

Lemma post_aims rs w p ans w' :
  aims rs [] w → queued_ok rs w p → context p ∉ active w → post p w = Some (ans, w') →
  aims rs [] w' ∧ (ans ≠ Ok 0%Z → queued_ok rs w' p).
Proof.
  intros Ha (r & op & Hr & Hop & Has & Hm) Hn Hpost.
  destruct (post_ok ident p w op Hop) as (ans' & w1 & Hpost' & Hf & Hp).
  rewrite Hpost in Hpost'. injection Hpost' as <- <-.
  destruct (post_record _ _ _ _ _ Hop Hpost) as [Hb Hcase].
  assert (∀ b, b ∈ active w → boxes w' !! b = boxes w !! b) as Hold by (intros b Hin; apply Hb; by intros ->).
  destruct Hcase as [(Hne & Hbx & Hrec)|(code & g & -> & Hrec & Hpeer & Hout & Hkey & Hrem & Hby & Hctx & Hcode & Hbx)].
  { rewrite decide_False in Hp by done. split; [|intros _; exists r, op; by rewrite Hbx].
    apply (aims_keep rs [] [] w w'); rewrite ?Hrec, ?(fr_pending _ _ _ Hf), ?(fr_quiescing _ _ _ Hf), ?app_nil_r;
      try done; [apply Ha|by intros b; rewrite Hp|intros b _; by rewrite Hbx]. }
  destruct Has as (Hcl & Had & Hk & Hra & Hd & Hbs).
  assert (own_post g r) as Hown.
  { split_and!; [by rewrite Hpeer, Hcl, Had|by rewrite Hout, Hd|congruence|congruence|by rewrite Hby]. }
  assert (∀ h, h ∈ record_of w → h ∈ record_of w') as Hmore by (intros h; rewrite Hrec; set_solver).
  split.
  - eapply aims_grow; [exact Ha| |done|..].
    + rewrite Hrec. apply all_justified_snoc; [apply Ha|]. exists r. auto.
    + intros p'. rewrite (fr_pending _ _ _ Hf). intros Hin. left. split; [done|]. by apply Hold, pending_active.
    + intros b. rewrite !app_nil_r, Hp, elem_of_app. intros [Hin|Hin]; [|left; split; [done|by apply Hold, posted_active]].
      destruct (decide (Ok code = Ok 0%Z)) as [[= ->]|]; [|by apply elem_of_nil in Hin].
      apply list_elem_of_singleton in Hin as ->. right. destruct Hbx as [lease Hbx]. destruct Hm as [Hmc Hmq].
      eexists r, _. split_and!; [done|exact Hbx|split; [done|]|]; cbn; intros q (q0 & Hq0 & ->)%fmap_Some.
      * by apply Hmq in Hq0.
      * split; [done|]. exists g. split_and!; [rewrite Hrec; set_solver|done| |done|done].
        apply Hmq in Hq0 as (_ & _ & Hto & _). by rewrite Hout, Hd, Hto.
    + intros x. rewrite (fr_quiescing _ _ _ Hf). intros Hin. left. split; [done|]. by apply Hold, quiescing_active.
  - intros Hne. rewrite decide_False in Hbx by congruence. exists r, op. rewrite Hbx. done.
Qed.

(** What [post_quiesce] does to them. *)
Lemma post_quiesce_record x w ans w' op :
  boxes w !! q_inflight x = Some op → post_quiesce quiesce_pointer x w = Some (ans, w') →
  (∀ b, b ≠ q_inflight x → boxes w' !! b = boxes w !! b) ∧
  (∃ op', boxes w' !! q_inflight x = Some op' ∧ if_client op' = if_client op ∧ quiesce op' = quiesce op) ∧
  (ans ≠ Posted ∧ record_of w' = record_of w ∨
   ∃ g, record_of w' = record_of w ++ [g] ∧ g_peer g = Some (if_client op, q_address (read x)) ∧
     g_out g = false ∧ g_key g = q_remote_key (read x) ∧ g_remote g = q_remote_address (read x) ∧
     g_bytes g = Slice quiesce_pointer 1 ∧ g_context g = q_inflight x).
Proof.
  intros Hop. unfold post_quiesce, reclaim. rewrite Hop. simpl. unfold recorded_insert.
  destruct (t_insert_peer _ _ _) as [[peer|error] e1]; simpl;
    [|intros [= <- <-]; split; [done|]; split; [by exists op|by left]].
  destruct (t_local_operand _ _ _ e1) as [[lo|error] e2]; simpl;
    [|intros [= <- <-]; split; [done|]; split; [by exists op|by left]].
  unfold recorded_post. cbn [known wrapped sent with_wrapped endpoint_of with_boxes with_endpoint with_acc acc transport with_transport].
  rewrite lookup_insert_eq. destruct (t_post_in _ _ _ _ _ _ _) as [c x1].
  intros H. set (m := <[q_inflight x := with_lease (lease lo) op]> (boxes w)) in H.
  assert (boxes w' = m ∧ ∃ g, record_of w' = record_of w ++ [g] ∧ g_peer g = Some (if_client op, q_address (read x)) ∧
     g_out g = false ∧ g_key g = q_remote_key (read x) ∧ g_remote g = q_remote_address (read x) ∧
     g_bytes g = Slice quiesce_pointer 1 ∧ g_context g = q_inflight x) as [Hm Hg].
  { destruct (c =? 0)%Z; [|destruct (c =? t_again)%Z]; injection H as _ <-;
      (split; [done|]; eexists; split; [reflexivity|]; by split_and!). }
  rewrite Hm. unfold m. split; [intros b Hb; by apply lookup_insert_ne|]. split; [|by right].
  eexists. split; [apply lookup_insert_eq|]. done.
Qed.

Lemma post_quiesce_aims rs w x ans w' :
  aims rs [] w → waiting_ok rs w x → q_inflight x ∉ active w → post_quiesce quiesce_pointer x w = Some (ans, w') →
  aims rs [] w' ∧ waiting_ok rs w' x.
Proof.
  intros Ha (r & op & Hr & Hop & Hcl & Hq & Hto & Had & Hwr) Hn Hpost.
  destruct (post_quiesce_ok ident quiesce_pointer x w op Hop) as (p' & w1 & Hpost' & Hf & Hp).
  rewrite Hpost in Hpost'. injection Hpost' as <- <-.
  destruct (post_quiesce_record _ _ _ _ _ Hop Hpost) as (Hb & (op' & Hop' & Hcl' & Hq') & Hcase).
  assert (∀ b, b ∈ active w → boxes w' !! b = boxes w !! b) as Hold by (intros b Hin; apply Hb; by intros ->).
  assert (∀ h, h ∈ record_of w → h ∈ record_of w') as Hmore.
  { intros h. destruct Hcase as [[_ ->]|(g & -> & _)]; [done|set_solver]. }
  split.
  - eapply aims_grow; [exact Ha| |done|..].
    + destruct Hcase as [[_ ->]|(g & -> & Hpeer & Hout & Hkey & Hrem & Hby & Hctx)]; [apply Ha|].
      apply all_justified_snoc; [apply Ha|]. exists r. split; [done|]. right. destruct Hto as [Hk Hl].
      split_and!; try done; [by rewrite Hpeer, Hcl, Had|by rewrite Hkey|by rewrite Hrem|by rewrite Hctx].
    + intros p1. rewrite (fr_pending _ _ _ Hf). intros Hin. left. split; [done|]. by apply Hold, pending_active.
    + intros b. rewrite !app_nil_r. intros Hin. destruct (decide (b = q_inflight x)) as [->|Hne].
      * right. exists r, op'. split_and!; [done|done| |]; [split; [by rewrite Hcl'|]|];
          intros q; rewrite Hq', Hq; done.
      * left. assert (b ∈ posted (endpoint_of w)).
        { destruct ans; [|by destruct Hp as [_ <-]..]. rewrite Hp, elem_of_cons in Hin. by destruct Hin. }
        split; [done|]. by apply Hold, posted_active.
    + intros y. rewrite (fr_quiescing _ _ _ Hf). intros Hin. left. split; [done|]. by apply Hold, quiescing_active.
  - exists r, op'. rewrite Hcl', Hq'. split_and!; try done. by eapply written_more.
Qed.

(** ** Finishing *)

Lemma finish_op_endpoint c (a a' : accounts (recorded E) T) :
  finish_op c a = Some a' →
  sent (transport a') = sent (transport a) ∧ posted (transport a') = posted (transport a).
Proof.
  unfold finish_op. intros H. apply bind_Some in H as ([n a1] & H1 & H).
  assert (transport a1 = transport a) as Ht by (destruct (outstanding_by_client _ !! c) as [[|m]|]; by simplify_eq/=).
  repeat case_decide; simplify_eq/=; rewrite ?Ht; [|done..]. split; [done|]. apply release_peer_posted.
Qed.

(** A box in a local variable is emptied, or its operation set aside. *)
Lemma aims_local rs F w w' b :
  aims rs F w → record_of w' = record_of w → posted (endpoint_of w') = posted (endpoint_of w) →
  pending w' = pending w → quiescing w' = quiescing w → (∀ c, c ≠ b → boxes w' !! c = boxes w !! c) →
  b ∉ active w ++ F → aims rs F w'.
Proof.
  intros Ha Hr Hpo Hpe Hq Hb Hn. apply (aims_keep rs F F w w'); rewrite ?Hr, ?Hpo, ?Hpe, ?Hq; try done; [apply Ha|].
  intros c. unfold active. rewrite Hpo, Hpe, Hq. intros Hc. apply Hb. by intros ->.
Qed.

Lemma complete_aims rs F b res w c w' :
  aims rs F w → b ∉ active w ++ F → complete crc b res w = Some (c, w') → aims rs F w'.
Proof.
  intros Ha Hn. unfold complete. intros H. apply bind_Some in H as (op & _ & [= _ <-]).
  apply (aims_local rs F w _ b); try done; [exact (drop_lease_posted (local_lease op) (wrapped (endpoint_of w)))|].
  intros d Hd. exact (lookup_delete_ne (boxes w) _ _ (not_eq_sym Hd)).
Qed.

Lemma finished_aims rs F c w a : aims rs F w → finish_op c (acc w) = Some a → aims rs F (with_acc a w).
Proof. intros Ha [Hs Hp]%finish_op_endpoint. by apply (aims_same rs F w). Qed.

Lemma finish_unreaped_aims rs b error w w' :
  aims rs [] w → b ∉ active w → finish_unreaped crc b error w = Some w' → aims rs [] w'.
Proof.
  intros Ha Hn. unfold finish_unreaped. intros H. apply bind_Some in H as (op & _ & H).
  apply bind_Some in H as ([c w1] & Hc & H). apply bind_Some in H as (a & Hf & [= <-]).
  apply (complete_aims rs []) in Hc; [|done|by rewrite app_nil_r].
  eapply (finished_aims rs []) in Hf; [|exact Hc]. by apply (aims_same rs [] (with_acc a w1)).
Qed.

Lemma failed_aims rs b error w w' n :
  aims rs [] w → b ∉ active w →
  (w1 ← finish_unreaped crc b error w; Some (w1, 0)) = Some (w', n) → aims rs [] w'.
Proof. intros Ha Hn H. apply bind_Some in H as (w1 & H & [= <- _]). by eapply finish_unreaped_aims. Qed.

Lemma stalled_aims rs F since w s wait w' :
  stalled progress_deadline clock since w = (s, wait, w') → aims rs F w → aims rs F w'.
Proof. unfold stalled, now. destruct since; intros [= _ _ <-] Ha; by apply (aims_same rs F w). Qed.

(** ** The passes over the queues *)

Lemma post_one_aims rs w w' n rec q :
  books_of ident w [] [] rec q → aims rs [] w →
  post_one progress_deadline clock crc w = Some (w', n) → aims rs [] w'.
Proof.
  intros Hbk Ha. unfold post_one. destruct (pending w) as [|p rest] eqn:Hpend; [by intros [= <- _]|].
  apply (books_of_pop_pending _ _ _ _ _ _ _ _ Hpend) in Hbk.
  destruct (local_elsewhere ident _ _ _ _ _ _ Hbk) as (Hn & _).
  assert (aims rs [] (with_pending rest w)) as Ha1.
  { apply (aims_keep rs [] [] w); try done; [apply Ha|]. intros p'. rewrite Hpend. by right. }
  assert (queued_ok rs (with_pending rest w) p) as Hq.
  { apply (queued_ok_keep rs w); [done|]. apply Ha. rewrite Hpend. left. }
  assert (∃ op, boxes (with_pending rest w) !! context p = Some op) as [op Hop]
    by (destruct Hq as (? & op & _ & Hop & _); by exists op).
  destruct (post_ok ident p _ op Hop) as (ans & w2 & Hpost & Hf & Hp). rewrite Hpost. simpl.
  destruct (post_aims _ _ _ _ _ Ha1 Hq Hn Hpost) as [Ha2 Hq2].
  assert (ans ≠ Ok 0%Z → context p ∉ active w2) as Hn2.
  { intros Hne. rewrite decide_False in Hp by done. unfold active. rewrite (fr_pending _ _ _ Hf), (fr_quiescing _ _ _ Hf).
    unfold active in Hn. rewrite !elem_of_app in *. rewrite Hp. done. }
  assert (∀ error, ans ≠ Ok 0%Z →
    (w4 ← finish_unreaped crc (context p) error w2; Some (w4, 0)) = Some (w', n) → aims rs [] w') as Hfail
    by (intros error Hne; apply failed_aims; auto).
  destruct ans as [code|error]; [|by apply Hfail].
  destruct (Z.eqb_spec code 0) as [->|Hne]; [intros [= <- _]; by apply (aims_same rs [] w2)|].
  destruct (code =? t_again)%Z; [|by apply Hfail; congruence].
  destruct (stalled _ _ _ _) as [[since wait] w3] eqn:Hst.
  pose proof (stalled_aims _ _ _ _ _ _ _ Hst Ha2) as Ha3.
  apply (stalled_ok ident) in Hst as Hst'. destruct Hst' as [Hf3 He3].
  assert (boxes w3 = boxes w2) as Hb3.
  { unfold stalled, now in Hst. destruct (stalled_since p); by injection Hst as _ _ <-. }
  destruct wait.
  - intros [= <- _]. apply (aims_grow rs [] [] w3); try done; [apply Ha3|..].
    + simpl. intros p' [Hin|Hin%list_elem_of_singleton]%elem_of_app; [by left|]. subst p'. right.
      apply (queued_ok_keep rs w2); [simpl; by rewrite Hb3|]. apply Hq2. congruence.
    + intros b Hin. by left.
    + intros x Hin. by left.
  - apply failed_aims; [done|]. unfold active.
    rewrite (fr_pending _ _ _ Hf3), (fr_quiescing _ _ _ Hf3), He3. apply Hn2. congruence.
Qed.

Lemma post_loop_aims rs attempts w w' n rec q :
  books_of ident w [] [] rec q → flight w → aims rs [] w →
  post_loop progress_deadline cap clock crc attempts w = Some (w', n) → aims rs [] w'.
Proof.
  revert w w' n. induction attempts as [|attempts IH]; intros w w' n Hbk Hfl Ha; simpl; [by intros [= <- _]|].
  destruct (_ <? _); [|by intros [= <- _]].
  destruct (post_one_ok ident progress_deadline clock place crc place_fresh place_nonnull w rec q Hbk Hfl)
    as (w1 & n1 & H1 & Hbk1 & Hfl1 & _).
  rewrite H1. simpl. intros H. apply bind_Some in H as ([w2 n2] & H2 & [= <- _]).
  eapply IH; [exact Hbk1|done| |exact H2]. exact (post_one_aims _ _ _ _ _ _ Hbk Ha H1).
Qed.

Lemma reap_one_aims rs F b res w w' rec q :
  books_of ident w (b :: F) [] rec q → aims rs (b :: F) w →
  reap_one crc (b, res) w = Some w' → aims rs F w'.
Proof.
  intros Hbk Ha. destruct (local_elsewhere ident _ _ _ _ _ _ Hbk) as (Hn & HnF & _).
  assert (b ∉ active w ++ F) as Hnb by (rewrite elem_of_app; tauto).
  assert (aims rs F w) as Ha1.
  { apply (aims_keep rs (b :: F) F w w); try done; [apply Ha|]. intros c. rewrite !elem_of_app, elem_of_cons. tauto. }
  destruct (am_posted _ _ _ Ha b) as (r & op & Hr & Hop & [Hcl Hm] & Hq); [rewrite elem_of_app; right; left|].
  unfold reap_one, reclaim. rewrite Hop. simpl. destruct (if is_ok res then quiesce op else None) as [read|] eqn:Hread.
  - intros [= <-].
    assert (quiesce op = Some read) as Hqr by (by destruct (is_ok res)).
    assert (∀ c, c ∈ active w ++ F → <[b := with_quiesce None op]> (boxes w) !! c = boxes w !! c) as Hold
      by (intros c Hc; apply lookup_insert_ne; by intros ->).
    apply (aims_grow rs F F w); try done; [apply Ha1|..].
    + intros p Hin. left. split; [done|]. apply Hold, elem_of_app. left. by apply pending_active.
    + intros c Hin. left. split; [done|]. apply Hold. unfold active. rewrite !elem_of_app in *. 
      destruct Hin; [left; right; by left|by right].
    + simpl. intros x [Hin|Hin%list_elem_of_singleton]%elem_of_app.
      * left. split; [done|]. apply Hold, elem_of_app. left. by apply quiescing_active.
      * subst x. right. exists r, (with_quiesce None op). destruct (Hq _ Hqr) as [Had Hwr].
        split_and!; try done; [apply lookup_insert_eq|by apply Hm].
  - intros H. apply bind_Some in H as (a & Hf & H). apply (finished_aims rs F) in Hf as Ha2; [|done].
    apply finish_op_endpoint in Hf as [_ Hp]. destruct (want_checksum op).
    + injection H as <-. by apply (aims_same rs F (with_acc a w)).
    + apply bind_Some in H as ([c w1] & Hc & [= <-]). apply (complete_aims rs F) in Hc; [|done|].
      * by apply (aims_same rs F w1).
      * unfold active in *. rewrite !elem_of_app in *. change (endpoint_of (with_acc a w)) with (transport a).
        by rewrite Hp.
Qed.

Lemma reap_each_aims rs reaped w w' rec q :
  books_of ident w reaped.*1 [] rec q → aims rs reaped.*1 w →
  reap_each crc reaped w = Some w' → aims rs [] w'.
Proof.
  revert w. induction reaped as [|[b res] reaped IH]; intros w Hbk Ha; cbn [reap_each]; [by intros [= <-]|].
  csimpl in Hbk. csimpl in Ha.
  destruct (reap_one_ok ident clock place crc place_fresh place_nonnull b res w _ rec q Hbk) as (w1 & H1 & Hbk1 & _).
  rewrite H1. simpl. apply IH; [done|]. exact (reap_one_aims _ _ _ _ _ _ _ _ Hbk Ha H1).
Qed.

Lemma reap_pass_aims rs w w' any rec q :
  books_of ident w [] [] rec q → aims rs [] w → reap_pass crc w = Some (w', any) → aims rs [] w'.
Proof.
  intros Hbk Ha. unfold reap_pass. destruct (t_reap _ _) as [[res reaped] e] eqn:Hr.
  pose proof (reap_posted _ _ _ _ _ Hr (posted_nonnull ident clock place place_fresh place_nonnull _ _ _ _ _ Hbk)) as Hp.
  set (w1 := with_in_flight _ _). intros H. apply bind_Some in H as (w2 & H2 & [= <- _]).
  assert (books_of ident w1 reaped.*1 [] rec q) as Hbk1.
  { unfold w1, books_of, active, endpoint_of in *. simpl_worker. apply books_transport.
    eapply books_perm; [..|exact Hbk]; try done. rewrite Hp. solve_Permutation. }
  eapply reap_each_aims; [exact Hbk1| |exact H2].
  assert (record_of w1 = record_of w) as Hrec.
  { unfold record_of, w1. simpl in Hr |- *. destruct (t_reap _ (wrapped _)) as [[r1 out1] x]. by injection Hr as _ _ <-. }
  apply (aims_keep rs [] reaped.*1 w w1); rewrite ?Hrec; try done; [apply Ha|].
  intros b. rewrite app_nil_r, Hp, !elem_of_app. change (endpoint_of w1) with e. tauto.
Qed.

Lemma quiesce_one_aims rs w w' n rec q :
  books_of ident w [] [] rec q → aims rs [] w →
  quiesce_one progress_deadline quiesce_pointer clock crc w = Some (w', n) → aims rs [] w'.
Proof.
  intros Hbk Ha. unfold quiesce_one. destruct (quiescing w) as [|x rest] eqn:Hq; [by intros [= <- _]|].
  set (w1 := with_quiescing rest w).
  assert (books_of ident w1 [q_inflight x] [] rec q) as Hbk1.
  { unfold w1, books_of, active, endpoint_of in *. simpl_worker. rewrite Hq in Hbk.
    eapply books_perm; [..|exact Hbk]; try done. csimpl. solve_Permutation. }
  destruct (local_elsewhere ident _ _ _ _ _ _ Hbk1) as (Hn & _).
  assert (aims rs [] w1) as Ha1.
  { apply (aims_keep rs [] [] w); try done; [apply Ha|]. intros y. rewrite Hq. by right. }
  assert (waiting_ok rs w1 x) as Hx by (apply (waiting_ok_keep rs w); [done..|]; apply Ha; rewrite Hq; left).
  assert (∃ op, boxes w1 !! q_inflight x = Some op) as [op Hop]
    by (destruct Hx as (? & op & _ & Hop & _); by exists op).
  destruct (post_quiesce_ok ident quiesce_pointer x w1 op Hop) as (ans & w2 & Hpost & Hf & Hp). rewrite Hpost. simpl.
  destruct (post_quiesce_aims _ _ _ _ _ Ha1 Hx Hn Hpost) as [Ha2 Hx2].
  assert (posted (endpoint_of w2) ≡ₚ posted (endpoint_of w1) → q_inflight x ∉ active w2) as Hn2.
  { intros Hp'. unfold active in *. by rewrite (fr_pending _ _ _ Hf), (fr_quiescing _ _ _ Hf), !elem_of_app, Hp', <-!elem_of_app. }
  destruct ans as [|x'|b error].
  - intros [= <- _]. by apply (aims_same rs [] w2).
  - destruct Hp as [-> Hp]. destruct (stalled _ _ _ _) as [[since wait] w3] eqn:Hst.
    pose proof (stalled_aims _ _ _ _ _ _ _ Hst Ha2) as Ha3.
    apply (stalled_ok ident) in Hst as Hst'. destruct Hst' as [Hf3 He3].
    assert (boxes w3 = boxes w2) as Hb3.
    { unfold stalled, now in Hst. destruct (q_stalled_since x); by injection Hst as _ _ <-. }
    destruct wait.
    + intros [= <- _]. apply (aims_grow rs [] [] w3); try done; [apply Ha3|by left|by left|].
      simpl. intros y [Hin|Hin%list_elem_of_singleton]%elem_of_app; [by left|]. subst y. right.
      assert (waiting_ok rs w3 x) as Hx3; [|exact Hx3].
      apply (waiting_ok_keep rs w2); [by rewrite Hb3|unfold record_of; by rewrite He3|done].
    + apply failed_aims; [done|]. unfold active.
      rewrite (fr_pending _ _ _ Hf3), (fr_quiescing _ _ _ Hf3), He3. by apply Hn2.
  - destruct Hp as [-> Hp]. apply failed_aims; auto.
Qed.

Lemma quiesce_loop_aims rs attempts w w' n rec q :
  books_of ident w [] [] rec q → flight w → aims rs [] w →
  quiesce_loop progress_deadline quiesce_pointer clock crc attempts w = Some (w', n) → aims rs [] w'.
Proof.
  revert w w' n. induction attempts as [|attempts IH]; intros w w' n Hbk Hfl Ha; simpl; [by intros [= <- _]|].
  destruct (quiesce_one_ok ident progress_deadline quiesce_pointer clock place crc place_fresh
    place_nonnull w rec q Hbk Hfl) as (w1 & n1 & H1 & Hbk1 & Hfl1 & _).
  rewrite H1. simpl. intros H. apply bind_Some in H as ([w2 n2] & H2 & [= <- _]).
  eapply IH; [exact Hbk1|done| |exact H2]. exact (quiesce_one_aims _ _ _ _ _ _ Hbk Ha H1).
Qed.

(** ** Intake *)

Lemma prepare_asked request m p m' :
  prepare quiesce_writes place request m = (Ok p, m') →
  ∃ op, m' = <[place m := op]> m ∧ context p = place m ∧ asked p request ∧ made_for op request.
Proof.
  unfold prepare. pose proof (eq_refl : operand_bytes request = (resolve_operand (direction request) (request_context request)).1) as Hb.
  destruct (resolve_operand _ _) as [[[ptr length]|error] ctx]; [|done]. simpl in Hb.
  destruct (quiesce_read _ _ _) as [read|] eqn:Hq; [|done]. intros [= <- <-]. eexists.
  split_and!; [done|done|by split_and!|]. split; [done|]. simpl. intros q ->. unfold quiesce_read in Hq.
  destruct (direction request) eqn:Hd; [|done]. destruct (quiesce_writes && _) eqn:Hw; [|done].
  apply andb_true_iff in Hw as [Hqw Hlen%Z.ltb_lt].
  destruct (checked_add _ _) as [last|] eqn:Hadd; [|done]. apply checked_add_Some in Hadd as [-> Hlt].
  injection Hq as <-. split; [done|]. split_and!; [done|done|]. by exists ptr, length.
Qed.

Lemma accept_aims rs request w :
  request ∈ rs → aims rs [] w → aims rs [] (accept quiesce_writes place request w).
Proof.
  intros Hin Ha. unfold accept. destruct (prepare _ _ _ _) as [[p|completion] m] eqn:Hp.
  - apply prepare_asked in Hp as (op & -> & Hc & Has & Hm).
    assert (∀ b op', boxes w !! b = Some op' → <[place (boxes w) := op]> (boxes w) !! b = boxes w !! b) as Hkeep.
    { intros b op' Hb. apply lookup_insert_ne. intros <-. by rewrite place_fresh in Hb. }
    apply (aims_grow rs [] [] w); try done; [apply Ha|..].
    + simpl. intros p' [Hp'|Hp'%list_elem_of_singleton]%elem_of_app.
      * left. split; [done|]. destruct (am_queued _ _ _ Ha p' Hp') as (? & op' & _ & Hb & _). by eapply Hkeep.
      * subst p'. right. exists request, op. split_and!; [done| |done|done]. simpl. rewrite Hc. apply lookup_insert_eq.
    + intros b Hb. left. split; [done|]. destruct (am_posted _ _ _ Ha b Hb) as (? & op' & _ & Hb' & _). by eapply Hkeep.
    + intros x Hx. left. split; [done|]. destruct (am_waiting _ _ _ Ha x Hx) as (? & op' & _ & Hb' & _). by eapply Hkeep.
  - assert (m = boxes w) as ->.
    { unfold prepare in Hp. destruct (resolve_operand _ _) as [[[ptr length]|error] ctx]; [|by simplify_eq].
      destruct (quiesce_read _ _ _); by simplify_eq. }
    by apply (aims_same rs [] w).
Qed.

Lemma receive_aims rs m w :
  (∀ request, m = Transfer request → request ∈ rs) → aims rs [] w →
  aims rs [] (receive quiesce_writes place m w).
Proof.
  intros Hm Ha. destruct m as [request|client address reply|client|b length reply]; simpl.
  - apply accept_aims; auto.
  - pose proof (insert_peer_posted client address (wrapped (endpoint_of w))) as Hp. unfold recorded_insert.
    destruct (t_insert_peer _ _ _) as [[peer|error] e]; apply (aims_same rs [] w); try done.
    etrans; [exact (drop_peer_posted peer e)|exact Hp].
  - apply (aims_same rs [] w); try done; unfold remove_or_defer; case_decide; try done.
    exact (release_peer_posted client (wrapped (endpoint_of w))).
  - pose proof (pin_region_posted b length (wrapped (endpoint_of w))) as Hp.
    destruct (t_pin_region _ _ _) as [r e]. by apply (aims_same rs [] w).
Qed.

Definition requests_in rs (messages : list (WorkerMessage T)) : Prop :=
  ∀ request, Transfer request ∈ messages → request ∈ rs.

Lemma intake_aims rs messages closed w :
  requests_in rs messages → aims rs [] w → aims rs [] (intake quiesce_writes place messages closed w).
Proof.
  intros Hm Ha. unfold intake.
  assert (aims rs [] (foldl (λ w m, receive quiesce_writes place m w) w messages)) as Hf.
  { revert w Ha. induction messages as [|m messages IH]; intros w Ha; [done|]. simpl. apply IH.
    - intros request Hin. apply Hm. by right.
    - apply receive_aims; [|done]. intros request ->. apply Hm. left. }
  destruct closed; [|done]. by eapply (aims_same rs []); [exact Hf|..].
Qed.

(** ** Flushing *)

Lemma take_boxes_lookup deferred w ops w' b :
  take_boxes deferred w = Some (ops, w') → b ∉ deferred.*1 → boxes w' !! b = boxes w !! b.
Proof.
  revert w ops w'. induction deferred as [|[c res] deferred IH]; intros w ops w'; cbn [take_boxes]; [by intros [= _ <-]|].
  csimpl. rewrite not_elem_of_cons. intros H [Hc Hb]. apply bind_Some in H as (op & _ & H).
  apply bind_Some in H as ([ops1 w1] & H1 & [= _ <-]). apply IH in H1; [|done]. rewrite H1.
  apply lookup_delete_ne. congruence.
Qed.

Lemma submit_crc_batch_aims rs w w' rec q :
  books_of ident w [] [] rec q → aims rs [] w → submit_crc_batch w = Some w' → aims rs [] w'.
Proof.
  intros Hbk Ha H. unfold submit_crc_batch in H. apply bind_Some in H as ([ops w1] & H1 & [= <-]).
  pose proof (books_NoDup _ _ _ _ _ _ _ Hbk) as Hnd. apply NoDup_app in Hnd as (_ & Hdis & _).
  pose proof (λ b, take_boxes_lookup _ _ _ _ b H1) as Hl. apply take_boxes_keeps in H1.
  revert H1 Hl. generalize (boxes w1). intros m -> Hl.
  apply (aims_keep rs [] [] w); try done; [apply Ha|].
  intros b Hb. apply Hl. intros Hin. apply (Hdis b Hb). by rewrite app_nil_r.
Qed.

Lemma after_progress_aims rs n any w w' t rec q :
  books_of ident w [] [] rec q → aims rs [] w → after_progress n any w = Some (w', t) → aims rs [] w'.
Proof.
  intros Hbk Ha. unfold after_progress. intros H. apply bind_Some in H as (w1 & H1 & H).
  assert (aims rs [] w1) as Ha1.
  { destruct (should_flush_crc _ _ _ _); [by eapply submit_crc_batch_aims|by simplify_eq]. }
  destruct (_ && _ && _); [injection H as <- _; by apply (aims_same rs [] w1)|].
  injection H as <- _. case_bool_decide; [|done]. by apply (aims_same rs [] w1).
Qed.

Lemma pass_aims rs messages closed w w' t rec q :
  books_of ident w [] [] rec (length (messages_ids ident messages) + q) → flight w →
  requests_in rs messages → aims rs [] w →
  pass quiesce_writes progress_deadline cap quiesce_pointer clock place crc messages closed w = Some (w', t) →
  aims rs [] w'.
Proof.
  intros Hbk Hfl Hm Ha. unfold pass, progress.
  destruct (intake_ok ident quiesce_writes place place_fresh place_nonnull messages closed w rec q Hbk Hfl)
    as (Hbk1 & Hfl1 & _).
  pose proof (intake_aims _ messages closed _ Hm Ha) as Ha1. set (w1 := intake _ _ _ _ _) in *.
  destruct (post_loop_ok ident progress_deadline cap clock place crc place_fresh place_nonnull
    (length (pending w1)) w1 _ q Hbk1 Hfl1) as (w2 & n & H2 & Hbk2 & Hfl2 & _).
  pose proof (post_loop_aims _ _ _ _ _ _ _ Hbk1 Hfl1 Ha1 H2) as Ha2. rewrite H2. simpl.
  destruct (reap_pass_ok ident clock place crc place_fresh place_nonnull w2 _ q Hbk2 Hfl2)
    as (w3 & any & H3 & Hbk3 & Hfl3 & _).
  pose proof (reap_pass_aims _ _ _ _ _ _ Hbk2 Ha2 H3) as Ha3. rewrite H3. simpl.
  destruct (quiesce_loop_ok ident progress_deadline quiesce_pointer clock place crc place_fresh
    place_nonnull (length (quiescing w3)) w3 _ q Hbk3 Hfl3) as (w4 & m & H4 & Hbk4 & Hfl4 & _).
  pose proof (quiesce_loop_aims _ _ _ _ _ _ _ Hbk3 Hfl3 Ha3 H4) as Ha4. rewrite H4. simpl.
  by eapply after_progress_aims.
Qed.

(** ** The service *)

Implicit Types (s : service (recorded E) T K).

Record service_aims rs s : Prop := {
  sa_thread : aims rs [] (thread s);
  sa_channel : requests_in rs (channel s);
}.

Lemma requests_in_more rs rs' messages :
  (∀ r, r ∈ rs → r ∈ rs') → requests_in rs messages → requests_in rs' messages.
Proof. intros Hr Hm request Hin. by apply Hr, Hm. Qed.

Lemma send_aims rs m s s' :
  (∀ request, m = Transfer request → request ∈ rs) → send m s = Some s' → service_aims rs s → service_aims rs s'.
Proof.
  intros Hm Hs [Ht Hc]. unfold send in Hs. destruct (status s); simplify_eq; (split; [done|]); simpl;
    intros request [?|?%list_elem_of_singleton]%elem_of_app; auto.
Qed.

Lemma bump_aims rs f s : service_aims rs s → service_aims rs (with_thread (bump f (thread s)) s).
Proof. intros [Ht Hc]. split; [|done]. by apply (aims_same rs [] (thread s)). Qed.

Lemma submit_aims rs request res s s' :
  submit ident request s = (res, s') → service_aims rs s → request ∈ rs → service_aims rs s'.
Proof.
  intros Hs Ha Hr. unfold submit in Hs. destruct (negb _); [by simplify_eq|].
  destruct (send _ _) as [s1|] eqn:Es; simplify_eq.
  - apply (send_aims rs) in Es; [|by intros ? [= <-]|by apply bump_aims]. by destruct Es.
  - by apply bump_aims, (bump_aims _ S).
Qed.

Lemma thread_step_aims rs s s' rec :
  service_ok ident s rec → service_aims rs s →
  thread_step quiesce_writes progress_deadline cap quiesce_pointer clock place crc s = Some s' →
  service_aims rs s'.
Proof.
  intros [Ht Hb Hf Hse Hg Hcl] [Ha Hc]. unfold thread_step. destruct (status s) eqn:Hst.
  - intros H. apply bind_Some in H as ([w t] & Hpass & H).
    destruct (pass_ok ident quiesce_writes progress_deadline cap quiesce_pointer clock place crc
      place_fresh place_nonnull (channel s) (negb (sender s)) (thread s) rec 0)
      as (w0 & t0 & Hpass0 & _ & _ & Hs'); [by rewrite Nat.add_0_r|done|].
    rewrite Hpass in Hpass0. injection Hpass0 as <- <-.
    assert (aims rs [] w) as Hw.
    { eapply (pass_aims rs _ _ (thread s)); [|exact Hf|exact Hc|exact Ha|exact Hpass].
      unfold waiting_transfers in Hb. rewrite <-(Nat.add_0_r (length _)) in Hb. exact Hb. }
    apply bind_Some in H as ([w1 st] & H1 & [= <-]). split; [|by intros request ?%elem_of_nil]. simpl.
    destruct t; simpl in H1; simplify_eq; [done..|].
    rewrite (settled_shutdown (E := recorded E) _ _ _ _ _ (Hs' ltac:(done))) in H1. by simplify_eq/=.
  - destruct (channel s) as [|m rest] eqn:Hch.
    + destruct (sender s); [intros [= <-]; split; [done|by rewrite Hch]|].
      rewrite (settled_shutdown (E := recorded E) _ _ _ _ _ (Hse ltac:(done))). by intros [= <-].
    + intros [= <-]. split; simpl.
      * apply receive_aims; [|done]. intros request ->. apply Hc. left.
      * intros request Hin. apply Hc. by right.
  - by intros [= <-].
Qed.

(** The service's steps, with the requests submitted so far. *)
Inductive request_step :
    list (TransferRequest T) * service (recorded E) T K → list (TransferRequest T) * service (recorded E) T K → Prop :=
  | by_submit rs request s s' :
      submit ident request s = (Ok tt, s') → request_step (rs, s) (rs ++ [request], s')
  | by_other rs s s' :
      service_step ident quiesce_writes progress_deadline cap quiesce_pointer clock place crc s s' →
      taken s' = taken s → request_step (rs, s) (rs, s').

Lemma request_steps_service y y' :
  rtc request_step y y' →
  rtc (service_step ident quiesce_writes progress_deadline cap quiesce_pointer clock place crc) y.2 y'.2.
Proof.
  induction 1 as [y|y1 y2 y3 Hs _ IH]; [done|]. eapply rtc_l; [|exact IH].
  destruct Hs as [rs request s s' Hs|rs s s' Hs _]; [by eapply step_submit|done].
Qed.

Lemma other_step_aims rs s s' rec :
  service_ok ident s rec → service_aims rs s →
  service_step ident quiesce_writes progress_deadline cap quiesce_pointer clock place crc s s' →
  taken s' = taken s → service_aims rs s'.
Proof.
  intros Hok Ha Hstep Htk. destruct Hstep as [request res s s' Hs|client address reply res s s' Hs|client s
    |b length reply res s s' Hs|s|s s' Hs].
  - unfold submit in Hs. destruct (negb _); [by simplify_eq|].
    destruct (send _ _) as [s1|] eqn:Es; simplify_eq.
    + simpl in Htk. unfold send in Es. simpl in Es. destruct (status s); simplify_eq/=.
      all: apply (f_equal length) in Htk; rewrite length_app in Htk; simpl in Htk; lia.
    + by apply bump_aims, (bump_aims _ S).
  - unfold add_peer in Hs. destruct (negb _); [by simplify_eq|].
    destruct (send _ s) as [s1|] eqn:Es; simplify_eq; [by eapply send_aims; [|exact Es|]|done].
  - unfold remove_peer. destruct (negb _); [done|].
    destruct (send _ s) as [s1|] eqn:Es; simpl; [by eapply send_aims; [|exact Es|]|done].
  - unfold register_storage in Hs. destruct (0 =? length)%Z; [by simplify_eq|].
    destruct (checked_add _ _); [|by simplify_eq]. destruct (negb _); [by simplify_eq|].
    destruct (send _ s) as [s1|] eqn:Es; simplify_eq; [by eapply send_aims; [|exact Es|]|done].
  - destruct Ha. by split.
  - by eapply thread_step_aims.
Qed.

Lemma request_step_aims y y' :
  request_step y y' → (∃ rec, service_ok ident y.2 rec) → service_aims y.1 y.2 →
  (∃ rec, service_ok ident y'.2 rec) ∧ service_aims y'.1 y'.2.
Proof.
  intros Hs [rec Hok] Ha. destruct Hs as [rs request s s' Hs|rs s s' Hs Htk]; simpl in *.
  - split; [exists rec; by eapply submit_ok|]. eapply submit_aims; [exact Hs| |set_solver].
    destruct Ha as [Ht Hc]. split; [eapply aims_more; [|exact Ht]|eapply requests_in_more; [|exact Hc]]; set_solver.
  - split; [by eapply step_ok|]. by eapply other_step_aims.
Qed.

Lemma service_new_aims e : posted e = [] → service_aims [] (service_new (Build_recorded e ∅ [])).
Proof.
  intros He. split; [|by intros request ?%elem_of_nil].
  split; cbn; try (by intros ? ?%elem_of_nil).
  - by intros [|] g l2.
  - intros b. rewrite He. by intros ?%elem_of_nil.
Qed.

Lemma request_steps_aims y y' :
  rtc request_step y y' → (∃ rec, service_ok ident y.2 rec) → service_aims y.1 y.2 → service_aims y'.1 y'.2.
Proof.
  induction 1 as [y|y1 y2 y3 Hs _ IH]; [done|]. intros Hok Ha.
  destruct (request_step_aims _ _ Hs Hok Ha). by apply IH.
Qed.

(** C4: What the fabric is asked for is what clients asked for.  However callers and the
    worker interleave, each post ever attempted is one of a request submitted before: to
    the client and address the request names, with its key, at its remote address, of
    exactly its operand's bytes and in its direction; or it is the read that quiesces a
    write of the request's already posted in the same box, of one byte, the last one the
    write covers, which does not overflow. *)
Theorem transfers_go_where_asked e rs s l1 g l2
  (He : posted e = []) (Hs : rtc request_step ([], service_new (Build_recorded e ∅ [])) (rs, s))
  (Hg : record_of (thread s) = l1 ++ g :: l2) : justified rs l1 g.
Proof.
  apply request_steps_aims in Hs as [Ha _].
  - by apply (am_sent _ _ _ Ha l1 g l2).
  - exists []. by apply (service_new_ok ident (Build_recorded e ∅ [])).
  - by apply service_new_aims.
Qed.

End targets.

(** ** Witnesses *)

(** A script's requests, beside its run. *)
Section script.
  Context {E T K : Type} `{!Transport E, !Operands T} (ident : T → K) `{!EqDecision K}.
  Variables (quiesce_writes : bool) (progress_deadline : Z) (cap : nat) (quiesce_pointer : Z).
  Variables (clock : nat → Z) (place : gmap Z (InFlight T) → Z) (crc : slice → Z).

  Abbreviation script_turn := (script_step ident quiesce_writes progress_deadline cap quiesce_pointer clock place crc).

Fixpoint request_run (script : list (script_op T)) (rs : list (TransferRequest T)) (s : service (recorded E) T K) :
    option (list (TransferRequest T) * service (recorded E) T K) :=
  match script with
  | [] => Some (rs, s)
  | op :: script =>
      s' ← script_turn s op;
      request_run script
        (match op with Submit request => if decide (taken s' = taken s) then rs else rs ++ [request] | _ => rs end) s'
  end.

Lemma request_run_steps script rs s y :
  request_run script rs s = Some y →
  rtc (request_step ident quiesce_writes progress_deadline cap quiesce_pointer clock place crc) (rs, s) y.
Proof.
  revert rs s. induction script as [|op script IH]; intros rs s; simpl; [by intros [= <-]|].
  intros H. apply bind_Some in H as (s' & Hs & H%IH). eapply rtc_l; [|exact H]. clear H.
  destruct op as [request|client| |]; cbn [script_step] in Hs.
  - destruct (submit ident request s) as [res s1] eqn:Es. injection Hs as <-.
    case_decide as Ht; [apply by_other; [by eapply step_submit|done]|].
    destruct (submit_taken _ _ _ _ _ Es) as [->|]; [by apply by_submit|done].
  - injection Hs as <-. apply by_other; [apply step_remove_peer|apply remove_peer_taken].
  - injection Hs as <-. by apply by_other; [apply step_close|].
  - apply by_other; [by apply step_thread|by eapply thread_taken].
Qed.

End script.

Section witnesses.
#[local] Existing Instance example_libfabric.
#[local] Existing Instance tagged.
#[local] Existing Instance tagged_laws.

(** A write with its quiesce read, to the end. *)
Definition write_script : list (script_op Z) := Submit (example_request 1 11 ToPeer false) :: replicate 4 Turn.

Definition example_run : option (list (TransferRequest Z) * service (recorded engine) Z Z) :=
  request_run id true 1000000000 64 64 Z.of_nat example_place (λ _, 7%Z) write_script []
    (service_new (Build_recorded example_engine ∅ [])).

Definition example_requests : list (TransferRequest Z) * service (recorded engine) Z Z :=
  default ([], service_new (Build_recorded example_engine ∅ [])) example_run.

Lemma example_requested :
  rtc (request_step id true 1000000000 64 64 Z.of_nat example_place (λ _, 7%Z))
    ([], service_new (Build_recorded example_engine ∅ [])) example_requests.
Proof.
  assert (is_Some example_run) as [y Hy] by (apply (bool_decide_unpack _); vm_compute; reflexivity).
  unfold example_requests. rewrite Hy. exact (request_run_steps _ _ _ _ _ _ _ _ _ _ _ _ Hy).
Qed.

Definition example_posts : list posting := record_of (thread example_requests.2).

Lemma transfers_go_where_asked_witness :
  (λ g, (g_out g, g_remote g, len (g_bytes g))) <$> example_posts = [(true, 65536, 4); (false, 65539, 1)]%Z ∧
  ∃ g1 g2, example_posts = [g1; g2] ∧ justified true 64 example_requests.1 [g1] g2.
Proof.
  split; [by vm_compute|].
  assert (∃ g1 g2, example_posts = [g1; g2]) as (g1 & g2 & Hg) by (vm_compute; eauto).
  exists g1, g2. split; [exact Hg|]. pose proof example_requested as Hs.
  revert Hs Hg. unfold example_posts. generalize example_requests. intros [rs s] Hs Hg.
  assert (posted example_engine = []) as He by (by vm_compute).
  exact (transfers_go_where_asked id true 1000000000 64 64 Z.of_nat example_place (λ _, 7%Z)
    example_place_fresh example_place_nonnull example_engine rs s [g1] g2 [] He Hs Hg).
Defined.

End witnesses.
