(* ===== verification/Addressed.v ===== *)
(** * Posts reach the peers they are for

    The worker names a peer by its address; libfabric is told a handle of the address
    vector.  Here the two are brought together: through every run of the service over the
    endpoint of [FabricTransport], each [fi_writemsg] and [fi_read] on the endpoint is one of
    the posts that [Targets] records, in order, and the vector holds, under the handle the
    call is given and at the moment it is made, the very address the peer was inserted for. *)

From S2P Require Import Prelude Arc Wire Fabric RegionCache Operands PeerAddresses Config Endpoint.
From S2P Require Import Worker FabricTransport Service Targets.

(** ** What the worker keeps of its endpoint

    [good h e] is a property of the endpoint while the worker holds the entry [h] of a
    peer, if it holds any: [post] and [post_quiesce] hold one from [insert_peer] to the end
    of the post. *)
Class Kept (E : Type) `{!Transport E} (good : option nat → E → Prop) : Prop := {
  kept_insert client address e r e' :
    good None e → t_insert_peer client address e = (r, e') → good (match r with Ok i => Some i | Err _ => None end) e';
  kept_drop i e : good (Some i) e → good None (t_drop_peer i e);
  kept_release client e : good None e → good None (t_release_peer client e);
  kept_pin b l e : good None e → good None (t_pin_region b l e).2;
  kept_operand i ptr l span e r e' :
    good (Some i) e → t_local_operand ptr l span e = (r, e') → good (Some i) e';
  kept_lease h lease e : good h e → good h (t_drop_lease lease e);
  kept_out i k a s d context e : good (Some i) e → good (Some i) (t_post_out i k a s d context e).2;
  kept_in i k a s d context e : good (Some i) e → good (Some i) (t_post_in i k a s d context e).2;
  kept_reap max e r out e' : good None e → t_reap max e = (r, out, e') → good None e';
}.

Section kept.
  Context {E T K : Type} `{!Transport E, !Operands T} (ident : T → K) (good : option nat → E → Prop) `{!Kept E good}.
  Variables (quiesce_writes : bool) (progress_deadline : Z) (cap : nat) (quiesce_pointer : Z).
  Variables (clock : nat → Z) (place : gmap Z (InFlight T) → Z) (crc : slice → Z).
  Implicit Types (w : worker E T) (s : service E T K).

Definition kept w : Prop := good None (endpoint_of w).

Lemma post_resolved_kept p peer op w code w' :
  good (Some peer) (endpoint_of w) → post_resolved p peer op w = Some (code, w') → kept w'.
Proof.
  intros Hg. unfold post_resolved.
  destruct (match p_direction p with ToPeer => _ | FromPeer _ => _ end) as [c e] eqn:Hpost.
  assert (good (Some peer) e) as He.
  { destruct (p_direction p); [pose proof (kept_out peer (p_remote_key p) (p_remote_address p)
        (Slice (p_pointer p) (p_length p)) (descriptor op) (context p) _ Hg) as Hk|
      pose proof (kept_in peer (p_remote_key p) (p_remote_address p)
        (Slice (p_pointer p) (p_length p)) (descriptor op) (context p) _ Hg) as Hk]; by rewrite Hpost in Hk. }
  destruct (c =? 0)%Z; [intros H; apply bind_Some in H as (inflight & _ & [= _ <-])|intros [= _ <-]];
    by apply (kept_drop (good := good)), kept_lease.
Qed.

Lemma post_kept p w r w' : kept w → post p w = Some (r, w') → kept w'.
Proof.
  intros Hg. unfold post. destruct (t_insert_peer _ _ _) as [[peer|error] e] eqn:Hi;
    apply (kept_insert _ _ _ _ _ Hg) in Hi; [|by intros [= _ <-]].
  intros H. apply bind_Some in H as (inflight & _ & H).
  destruct (t_local_operand _ _ _ _) as [[op|error] e1] eqn:Ho; apply (kept_operand peer _ _ _ _ _ _ Hi) in Ho.
  - apply bind_Some in H as ([code w1] & H & [= _ <-]). by eapply post_resolved_kept; [|exact H].
  - injection H as _ <-. by apply (kept_drop (good := good)).
Qed.

Lemma post_quiesce_kept x w r w' : kept w → post_quiesce quiesce_pointer x w = Some (r, w') → kept w'.
Proof.
  intros Hg. unfold post_quiesce. intros H. apply bind_Some in H as (inflight & _ & H).
  destruct (t_insert_peer _ _ _) as [[peer|error] e] eqn:Hi; apply (kept_insert _ _ _ _ _ Hg) in Hi;
    [|by injection H as _ <-].
  destruct (t_local_operand _ _ _ _) as [[op|error] e1] eqn:Ho; apply (kept_operand peer _ _ _ _ _ _ Hi) in Ho;
    [|injection H as _ <-; by apply (kept_drop (good := good))].
  destruct (t_post_in _ _ _ _ _ _ _) as [c e2] eqn:Hp.
  pose proof (kept_in peer (q_remote_key (read x)) (q_remote_address (read x)) (Slice quiesce_pointer 1) (descriptor op)
    (q_inflight x) _ (kept_lease _ (local_lease inflight) _ Ho)) as Hk.
  change (t_drop_lease _ (endpoint_of _)) with (t_drop_lease (local_lease inflight) e1) in Hp.
  cbn [endpoint_of] in Hp. unfold endpoint_of in Hp. simpl in Hp. rewrite Hp in Hk. simpl in Hk.
  apply (kept_drop (good := good)) in Hk. destruct (c =? 0)%Z; [|destruct (c =? t_again)%Z]; by injection H as _ <-.
Qed.

Lemma complete_kept b res w c w' : kept w → complete crc b res w = Some (c, w') → kept w'.
Proof. intros Hg. unfold complete. intros H. apply bind_Some in H as (op & _ & [= _ <-]). by apply kept_lease. Qed.

Lemma finish_op_kept c w a : kept w → finish_op c (acc w) = Some a → kept (with_acc a w).
Proof.
  intros Hg. unfold finish_op. intros H. apply bind_Some in H as ([n a1] & H1 & H).
  assert (transport a1 = transport (acc w)) as Ht by (destruct (outstanding_by_client _ !! c) as [[|m]|]; by simplify_eq/=).
  unfold kept, endpoint_of in *. repeat case_decide; simplify_eq/=; rewrite ?Ht; [|done..]. by apply kept_release.
Qed.

Lemma finish_unreaped_kept b error w w' : kept w → finish_unreaped crc b error w = Some w' → kept w'.
Proof.
  intros Hg. unfold finish_unreaped. intros H. apply bind_Some in H as (op & _ & H).
  apply bind_Some in H as ([c w1] & Hc%complete_kept & H); [|done].
  apply bind_Some in H as (a & Hf%finish_op_kept & [= <-]); [exact Hf|done].
Qed.

Lemma failed_kept b error w w' n :
  kept w → (w1 ← finish_unreaped crc b error w; Some (w1, 0)) = Some (w', n) → kept w'.
Proof. intros Hg H. apply bind_Some in H as (w1 & H & [= <- _]). by eapply finish_unreaped_kept. Qed.

Lemma stalled_kept since w t wait w' : kept w → stalled progress_deadline clock since w = (t, wait, w') → kept w'.
Proof. unfold stalled, now. destruct since; intros; by simplify_eq. Qed.

Lemma post_one_kept w w' n : kept w → post_one progress_deadline clock crc w = Some (w', n) → kept w'.
Proof.
  intros Hg. unfold post_one. destruct (pending w) as [|p rest]; [by intros [= <- _]|].
  intros H. apply bind_Some in H as ([ans w1] & H1 & H). apply post_kept in H1; [|exact Hg].
  destruct ans as [code|error]; [|by eapply failed_kept]. destruct (code =? 0)%Z; [by injection H as <- _|].
  destruct (code =? t_again)%Z; [|by eapply failed_kept].
  destruct (stalled _ _ _ _) as [[since wait] w2] eqn:Hst. apply stalled_kept in Hst; [|done].
  destruct wait; [by injection H as <- _|by eapply failed_kept].
Qed.

Lemma quiesce_one_kept w w' n :
  kept w → quiesce_one progress_deadline quiesce_pointer clock crc w = Some (w', n) → kept w'.
Proof.
  intros Hg. unfold quiesce_one. destruct (quiescing w) as [|x rest]; [by intros [= <- _]|].
  intros H. apply bind_Some in H as ([ans w1] & H1 & H). apply post_quiesce_kept in H1; [|exact Hg].
  destruct ans; [by injection H as <- _| |by eapply failed_kept].
  destruct (stalled _ _ _ _) as [[since wait] w2] eqn:Hst. apply stalled_kept in Hst; [|done].
  destruct wait; [by injection H as <- _|by eapply failed_kept].
Qed.

Lemma post_loop_kept attempts w w' n :
  kept w → post_loop progress_deadline cap clock crc attempts w = Some (w', n) → kept w'.
Proof.
  revert w w' n. induction attempts as [|attempts IH]; intros w w' n Hg; simpl; [by intros [= <- _]|].
  destruct (_ <? _); [|by intros [= <- _]]. intros H. apply bind_Some in H as ([w1 n1] & H1%post_one_kept & H); [|done].
  apply bind_Some in H as ([w2 n2] & H2%IH & [= <- _]); done.
Qed.

Lemma quiesce_loop_kept attempts w w' n :
  kept w → quiesce_loop progress_deadline quiesce_pointer clock crc attempts w = Some (w', n) → kept w'.
Proof.
  revert w w' n. induction attempts as [|attempts IH]; intros w w' n Hg; simpl; [by intros [= <- _]|].
  intros H. apply bind_Some in H as ([w1 n1] & H1%quiesce_one_kept & H); [|done].
  apply bind_Some in H as ([w2 n2] & H2%IH & [= <- _]); done.
Qed.

Lemma reap_each_kept reaped w w' : kept w → reap_each crc reaped w = Some w' → kept w'.
Proof.
  revert w. induction reaped as [|[b r] reaped IH]; intros w Hg; cbn [reap_each]; [by intros [= <-]|].
  intros H. apply bind_Some in H as (w1 & H1 & H). revert H. apply IH. revert H1. unfold reap_one. intros H1.
  apply bind_Some in H1 as (op & _ & H1). destruct (if is_ok r then _ else _); [by injection H1 as <-|].
  apply bind_Some in H1 as (a & Ha%finish_op_kept & H1); [|done]. destruct (want_checksum op); [by injection H1 as <-|].
  apply bind_Some in H1 as ([c w2] & Hc%complete_kept & [= <-]); done.
Qed.

Lemma progress_kept w w' n any :
  kept w → progress progress_deadline cap quiesce_pointer clock crc w = Some (w', n, any) → kept w'.
Proof.
  intros Hg. unfold progress. intros H. apply bind_Some in H as ([w1 n1] & H1%post_loop_kept & H); [|done].
  apply bind_Some in H as ([w2 any2] & H2 & H). apply bind_Some in H as ([w3 n3] & H3 & [= <- _ _]).
  eapply quiesce_loop_kept; [|exact H3]. clear H3. revert H2. unfold reap_pass.
  destruct (t_reap _ _) as [[r reaped] e] eqn:Hr. intros H2. apply bind_Some in H2 as (w4 & H4 & [= <- _]).
  eapply reap_each_kept; [|exact H4]. exact (kept_reap _ _ _ _ _ H1 Hr).
Qed.

Lemma receive_kept m w : kept w → kept (receive quiesce_writes place m w).
Proof.
  intros Hg. destruct m as [request|client address reply|client|b l reply]; simpl.
  - unfold accept. by destruct (prepare _ _ _ _) as [[] ?].
  - destruct (t_insert_peer _ _ _) as [[i|error] e] eqn:Hi; apply (kept_insert _ _ _ _ _ Hg) in Hi; [|done].
    by apply (kept_drop (good := good)).
  - unfold remove_or_defer. case_decide; [by apply kept_release|done].
  - pose proof (kept_pin b l _ Hg) as Hp. by destruct (t_pin_region _ _ _).
Qed.

Lemma intake_kept messages closed w : kept w → kept (intake quiesce_writes place messages closed w).
Proof.
  intros Hg. unfold intake. assert (kept (foldl (λ w m, receive quiesce_writes place m w) w messages)) as Hm.
  { revert w Hg. induction messages as [|m messages IH]; intros w Hg; [done|]. by apply IH, receive_kept. }
  by destruct closed.
Qed.

Lemma after_progress_kept n any w w' t : kept w → after_progress n any w = Some (w', t) → kept w'.
Proof.
  intros Hg. unfold after_progress. intros H. apply bind_Some in H as (w1 & H1 & H).
  assert (kept w1) as Hg1.
  { destruct (should_flush_crc _ _ _ _); [|by injection H1 as <-]. apply submit_crc_batch_keeps in H1 as (m & ops & ->). done. }

  destruct (_ && _ && _); [by injection H as <- _|]. by destruct (bool_decide _); injection H as <- _.
Qed.

Lemma complete_all_kept l w r w' : kept w → complete_all crc l w = Some (r, w') → kept w'.
Proof.
  revert w r w'. induction l as [|[b res] l IH]; intros w r w' Hg; cbn [complete_all]; [by intros [= _ <-]|].
  intros H. apply bind_Some in H as ([c w1] & H1%complete_kept & H); [|done].
  apply bind_Some in H as ([c2 w2] & H2%IH & [= _ <-]); done.
Qed.

Lemma shutdown_kept w w' : kept w → shutdown crc w = Some w' → kept w'.
Proof.
  intros Hg. unfold shutdown. intros H. apply bind_Some in H as ([c w1] & H1%complete_all_kept & [= <-]); [|done].
  by destruct (bool_decide _).
Qed.

(** ** Through the service's steps *)

Lemma thread_step_kept s s' :
  kept (thread s) → thread_step quiesce_writes progress_deadline cap quiesce_pointer clock place crc s = Some s' →
  kept (thread s').
Proof.
  intros Hg. unfold thread_step. destruct (status s).
  - intros H. apply bind_Some in H as ([w t] & H1 & H). unfold pass in H1.
    apply bind_Some in H1 as ([[w1 n] any] & H2%progress_kept & H1%after_progress_kept);
      [|done|by apply intake_kept].
    apply bind_Some in H as ([w2 st] & H2' & [= <-]). destruct t; simpl in H2'; [by simplify_eq|by simplify_eq|].
    apply bind_Some in H2' as (w3 & H3%shutdown_kept & [= <- _]); done.
  - destruct (channel s); [|intros [= <-]; by apply receive_kept].
    destruct (sender s); [by intros [= <-]|]. intros H. apply bind_Some in H as (w & H%shutdown_kept & [= <-]); done.
  - by intros [= <-].
Qed.

Lemma service_step_kept s s' :
  kept (thread s) →
  service_step ident quiesce_writes progress_deadline cap quiesce_pointer clock place crc s s' → kept (thread s').
Proof.
  intros Hg Hs. destruct Hs as [request r s s' Hs|client address reply r s s' Hs|client s|base length reply r s s' Hs|s|s s' Hs].
  - revert Hs. unfold submit, send. destruct (negb _); [by intros [= _ <-]|]. simpl.
    by destruct (status s); intros [= _ <-].
  - revert Hs. unfold add_peer, send. destruct (negb _); [by intros [= _ <-]|]. by destruct (status s); intros [= _ <-].
  - unfold remove_peer, send. by destruct (negb _), (status s).
  - revert Hs. unfold register_storage, send. destruct (0 =? _)%Z; [by intros [= _ <-]|].
    destruct (checked_add _ _); [|by intros [= _ <-]]. destruct (negb _); [by intros [= _ <-]|].
    by destruct (status s); intros [= _ <-].
  - done.
  - by eapply thread_step_kept.
Qed.

Lemma service_steps_kept s s' :
  kept (thread s) →
  rtc (service_step ident quiesce_writes progress_deadline cap quiesce_pointer clock place crc) s s' → kept (thread s').
Proof. intros Hg Hs. induction Hs as [|s1 s2 s3 Hstep _ IH]; [done|]. by apply IH; eapply service_step_kept. Qed.

End kept.

(** ** What libfabric is told *)

(** A post as the provider sees it, the address being what the vector holds under the handle
    it was given. *)
Record delivery := {
  d_address : option (list u8);
  d_out : bool;
  d_key : Z;
  d_remote : Z;
  d_bytes : slice;
  d_context : Z;
}.

Section deliveries.
  Context `{Libfabric}.
  Variable av : Z.
  Implicit Types (slots : gmap Z (list u8)) (tr calls : trace).

(** The vector's entries after a call. *)
Definition slots_after (before : trace) slots (call : fabric_call) : gmap Z (list u8) :=
  match call with
  | AvInsert av' address =>
      if decide (av' = av ∧ (fi_av_insert before av address).1 = 1%Z)
      then <[(fi_av_insert before av address).2 := address]> slots else slots
  | AvRemove av' h => if decide (av' = av) then delete h slots else slots
  | _ => slots
  end.

Definition delivered_by slots (call : fabric_call) : list delivery :=
  match call with
  | WriteMsg _ b l _ peer remote key context _ =>
      [{| d_address := slots !! peer; d_out := true; d_key := key; d_remote := remote; d_bytes := Slice b l;
          d_context := context |}]
  | Read _ b l _ peer remote key context =>
      [{| d_address := slots !! peer; d_out := false; d_key := key; d_remote := remote; d_bytes := Slice b l;
          d_context := context |}]
  | _ => []
  end.

Fixpoint deliveries_from (before : trace) slots (calls : trace) : gmap Z (list u8) * list delivery :=
  match calls with
  | [] => (slots, [])
  | call :: calls =>
      let '(slots', l) := deliveries_from (before ++ [call]) (slots_after before slots call) calls in
      (slots', delivered_by slots call ++ l)
  end.

(** The vector after the calls, and the posts among them. *)
Definition deliveries (tr : trace) : gmap Z (list u8) * list delivery := deliveries_from [] ∅ tr.

Lemma deliveries_snoc tr call :
  deliveries (tr ++ [call]) =
  (slots_after tr (deliveries tr).1 call, (deliveries tr).2 ++ delivered_by (deliveries tr).1 call).
Proof.
  unfold deliveries. assert (∀ before slots, deliveries_from before slots (tr ++ [call]) =
    (slots_after (before ++ tr) (deliveries_from before slots tr).1 call,
     (deliveries_from before slots tr).2 ++ delivered_by (deliveries_from before slots tr).1 call)) as Hall; [|apply Hall].
  induction tr as [|c tr IH]; intros before slots; simpl; [by rewrite !app_nil_r|].
  rewrite IH. destruct (deliveries_from (before ++ [c]) _ tr) as [slots' l]. simpl.
  by rewrite <-!(assoc_L (++)).
Qed.

(** The specification's vector is the one computed. *)
Lemma deliveries_slots fmt tr slots : av_slots av fmt tr slots → (deliveries tr).1 = slots.
Proof.
  induction 1 as [|tr call slots _ IH Ho|tr a slots _ IH Hr|tr a h slots _ IH Hi _ _|tr h slots _ IH _];
    [done|..]; rewrite deliveries_snoc, IH; simpl.
  - destruct call; simpl in *; try done; by rewrite ?decide_False by naive_solver.
  - by rewrite decide_False by naive_solver.
  - by rewrite Hi, decide_True by done.
  - by rewrite decide_True.
Qed.

(** Calls that post nothing. *)
Lemma deliveries_silent tr tr' :
  made (λ call, delivered_by ∅ call = []) tr tr' → (deliveries tr').2 = (deliveries tr).2.
Proof.
  intros (calls & -> & Hc). revert tr. induction Hc as [|call calls Hcall _ IH]; intros tr; [by rewrite app_nil_r|].
  rewrite cons_middle, (assoc_L (++)), IH, deliveries_snoc. simpl.
  destruct call; simpl in *; by rewrite ?app_nil_r.
Qed.

End deliveries.

Section addressed.
  Context `{Libfabric} {fmt : AddressFormat} `{!AddressVectorLaws fmt} (av : Z).
  Implicit Types (e : recorded engine) (h : option nat) (tr : trace).

Definition of_posting (g : posting) : delivery :=
  {| d_address := snd <$> g_peer g; d_out := g_out g; d_key := g_key g; d_remote := g_remote g;
     d_bytes := g_bytes g; d_context := g_context g |}.

Abbreviation peers_of e := (peer_addresses (e_endpoint (wrapped e))).
Abbreviation calls_of e := (e_trace (wrapped e)).

Definition held h : gmultiset nat := match h with Some i => {[+ i +]} | None => ∅ end.

(** The address an entry's handle stands for is the one the peer was inserted for, and what
    has been posted is what was recorded. *)
Record addressed h e : Prop := {
  ar_peers : peers_ok (peers_of e) (held h) (calls_of e);
  ar_format : format (peers_of e) = fmt;
  ar_vector : address_vector (peers_of e) = av;
  ar_held i : h = Some i → ∃ client address, known e !! i = Some (client, address) ∧
    (deliveries av (calls_of e)).1 !! default 0%Z (peer <$> arc_value i (entries (peers_of e))) = Some address;
  ar_posts : (deliveries av (calls_of e)).2 = of_posting <$> sent e;
}.

Lemma deliveries_other tr tr' : made (other_call av) tr tr' → (deliveries av tr').1 = (deliveries av tr).1.
Proof.
  intros (calls & -> & Hc). revert tr. induction Hc as [|call calls Hcall _ IH]; intros tr; [by rewrite app_nil_r|].
  rewrite cons_middle, (assoc_L (++)), IH, deliveries_snoc. simpl.
  destruct call; simpl in *; try done; by rewrite ?decide_False by naive_solver.
Qed.

(** An operation that leaves the peers alone. *)
Lemma addressed_other h e e' :
  addressed h e → peers_of e' = peers_of e → known e' = known e →
  made (other_call av) (calls_of e) (calls_of e') →
  (deliveries av (calls_of e')).2 = of_posting <$> sent e' → addressed h e'.
Proof.
  intros [Hp Hf Hv Hh _] Hpe Hk Hm Hd. pose proof (deliveries_other _ _ Hm) as Hs. split; rewrite ?Hpe, ?Hk, ?Hs; try done.
  destruct Hm as (calls & -> & Hc). apply other_calls_ok; [by rewrite Hv|done].
Qed.

Lemma addressed_memory h e x :
  addressed h e → peer_addresses (e_endpoint x) = peers_of e → made memory_call (calls_of e) (e_trace x) →
  addressed h (with_wrapped x e).
Proof.
  intros Ha Hp Hm. eapply addressed_other; [exact Ha|done|done| |]; simpl.
  - eapply made_impl; [|exact Hm]. by intros [].
  - rewrite <-(ar_posts _ _ Ha). apply deliveries_silent. eapply made_impl; [|exact Hm]. by intros [].
Qed.

(** Operations on the peers post nothing. *)
Lemma peer_calls_silent tr tr' : made peer_call tr tr' → (deliveries av tr').2 = (deliveries av tr).2.
Proof. intros Hm. apply deliveries_silent. eapply made_impl; [|exact Hm]. by intros []. Qed.

Lemma addressed_insert client address e r e' :
  addressed None e → recorded_insert client address e = (r, e') →
  addressed (match r with Ok i => Some i | Err _ => None end) e'.
Proof.
  intros [Hp Hf Hv _ Hd]. unfold recorded_insert. simpl. unfold engine_insert_peer, insert_peer.
  destruct (handle _ _ _ _) as [[r1 p] tr] eqn:Eh. intros [= <- <-].
  pose proof (peer_calls_silent _ _ (handle_peer_calls _ _ _ _ _ _ _ Eh)) as Hs. rewrite Hd in Hs.
  apply (handle_spec _ _ _ _ _ _ _ Hf Hp) in Eh. destruct (identity_len fmt address) as [n|error];
    [|destruct Eh as (-> & -> & ->); by split].
  destruct Eh as [base Eh]. pose proof (h_format _ _ _ _ _ _ _ _ _ Eh) as Hf1.
  pose proof (h_vector _ _ _ _ _ _ _ _ _ Eh) as Hv1. pose proof (h_result _ _ _ _ _ _ _ _ _ Eh) as Hr.
  destruct r1 as [i|error]; destruct Hr as [Hr _]; split; simpl; try done; [congruence..| |congruence|congruence].
  intros j [= <-]. exists client, address. split; [apply lookup_insert_eq|].
  apply handled_entry in Eh as (slots & h & Hsl & Hh & ->). rewrite Hv in Hsl. by rewrite (deliveries_slots _ _ _ _ Hsl).
Qed.

Lemma addressed_drop i e : addressed (Some i) e → addressed None (t_drop_peer i e).
Proof.
  intros [Hp Hf Hv _ Hd]. simpl. unfold engine_drop_peer, drop_peer.
  destruct (drop_entries _ _ _) as [p tr] eqn:Eh.
  pose proof (peer_calls_silent _ _ (drop_entries_peer_calls _ _ _ _ _ Eh)) as Hs. rewrite Hd in Hs.
  apply (returned_dropped _ _ _ _ _ Hp) in Eh as (? & _ & ? & ? & _). split; simpl; try done; congruence.
Qed.

Lemma addressed_release client e : addressed None e → addressed None (t_release_peer client e).
Proof.
  intros [Hp Hf Hv _ Hd]. simpl. unfold engine_release_peer, Endpoint.release_peer.
  destruct (PeerAddresses.release _ _ _) as [p tr] eqn:Eh. assert (made peer_call (calls_of e) tr) as Hm
    by (unfold PeerAddresses.release, client_remove in Eh; by eapply drop_entries_peer_calls).
  apply peer_calls_silent in Hm. rewrite Hd in Hm.
  apply (release_ok _ _ _ _ _ _ Hp) in Eh as (? & ? & ? & _). split; simpl; try done; congruence.
Qed.

(** A post goes to the address its entry stands for. *)
Lemma addressed_post i (out : bool) k a bytes d context e :
  addressed (Some i) e → addressed (Some i) (recorded_post out i k a bytes d context e).2.
Proof.
  intros Ha. pose proof Ha as [_ _ _ Hh Hd]. destruct (Hh i eq_refl) as (client & address & Hk & Hsl).
  unfold recorded_post. destruct ((if out then _ else _) _ _ _ _ _ _ _) as [code x] eqn:Hp. simpl.
  assert (∃ call, x = Engine (e_endpoint (wrapped e)) (e_cache (wrapped e)) (calls_of e ++ [call]) ∧ other_call av call ∧
    delivered_by (deliveries av (calls_of e)).1 call =
      [{| d_address := Some address; d_out := out; d_key := k; d_remote := a; d_bytes := bytes; d_context := context |}])
    as (call & -> & Hc & Hdel).
  { destruct out; injection Hp as _ <-; eexists; (split; [reflexivity|]); (split; [done|]); simpl; rewrite Hsl; by destruct bytes. }
  eapply addressed_other; [exact Ha|done|done| |]; simpl; [by apply made_1|].
  rewrite deliveries_snoc, fmap_app, Hd. simpl. by rewrite Hdel, Hk.
Qed.

#[export] Instance addressed_kept : Kept (recorded engine) addressed.
Proof.
  split.
  - intros client address e r e'. apply addressed_insert.
  - apply addressed_drop.
  - apply addressed_release.
  - intros b l e Ha. simpl. unfold engine_pin_region, pin_region. destruct (requires_local_mr _); simpl;
      [|apply addressed_memory; [done|done|apply made_refl]].
    destruct (pin _ _ _ _ _) as [[r c] tr] eqn:Eh. by eapply addressed_memory, pin_memory_calls.
  - intros i ptr l span e r e' Ha. simpl. unfold engine_local_operand, local_operand. destruct (requires_local_mr _); simpl.
    + destruct (operand _ _ _ _ _ _) as [[r1 c] tr] eqn:Eh. intros [= _ <-].
      by eapply addressed_memory, operand_memory_calls.
    + intros [= _ <-]. apply addressed_memory; [done|done|apply made_refl].
  - intros h lease e Ha. simpl. unfold engine_drop_lease. destruct (RegionCache.release _ _ _) as [c tr] eqn:Eh.
    by eapply addressed_memory, release_memory_calls.
  - intros i k a s d context e. apply addressed_post.
  - intros i k a s d context e. apply addressed_post.
  - intros max e r out e' Ha. simpl. unfold engine_reap, reap.
    destruct (reap_loop _ _ _ _ _) as [[[r1 out1] tr]|] eqn:Hr.
    + intros [= _ _ <-]. apply reap_loop_calls in Hr as (calls & -> & Hc).
      eapply addressed_other; [exact Ha|done|done| |]; simpl.
      * exists calls. split; [done|]. eapply Forall_impl; [exact Hc|]. by intros [].
      * rewrite <-(ar_posts _ _ Ha). apply deliveries_silent. exists calls. split; [done|].
        eapply Forall_impl; [exact Hc|]. by intros [].
    + intros [= _ _ <-]. apply addressed_memory; [done|done|apply made_refl].
Qed.

End addressed.

(** ** From the start *)

(** An endpoint as [FabricService::start] leaves it: [start_unused] in [Start]. *)
Definition unused (e : engine) : Prop :=
  ∃ av fmt, peer_addresses (e_endpoint e) = peers_new av fmt ∧ made memory_call [] (e_trace e).

Section services.
  Context `{Libfabric, ∀ fmt, AddressVectorLaws fmt} {T K : Type} `{!Operands T} (ident : T → K).
  Variables (quiesce_writes : bool) (progress_deadline : Z) (cap : nat) (quiesce_pointer : Z).
  Variables (clock : nat → Z) (place : gmap Z (InFlight T) → Z) (crc : slice → Z).

Lemma unused_addressed e :
  unused e → ∃ av fmt, addressed (fmt := fmt) av None (Build_recorded e ∅ []).
Proof.
  intros (av & fmt & Hp & calls & Ht & Hm). exists av, fmt.
  assert (made (other_call av) [] (e_trace e)) as Ho by (exists calls; split; [done|]; eapply Forall_impl; [exact Hm|]; by intros []).
  assert (made (λ call, delivered_by ∅ call = []) [] (e_trace e)) as Hs
    by (exists calls; split; [done|]; eapply Forall_impl; [exact Hm|]; by intros []).
  split; simpl; rewrite ?Hp; try done; [|by rewrite (deliveries_silent av _ _ Hs)].
  rewrite Ht. apply other_calls_ok; [|apply peers_new_ok]. eapply Forall_impl; [exact Hm|]. by intros [].
Qed.

Lemma unused_posted `{!CompletionLaws} e : unused e → posted e = [].
Proof. intros (av & fmt & _ & Hm). exact (quietly_flying _ _ (memory_calls_quiet _ _ Hm)). Qed.

(** What the provider is told to post is what the worker posts, at the addresses it names. *)
Lemma posts_reach_peers e (s : service (recorded engine) T K) :
  unused e →
  rtc (service_step ident quiesce_writes progress_deadline cap quiesce_pointer clock place crc)
    (service_new (Build_recorded e ∅ [])) s →
  let x := wrapped (endpoint_of (thread s)) in
  (deliveries (address_vector (peer_addresses (e_endpoint x))) (e_trace x)).2 = of_posting <$> record_of (thread s).
Proof.
  intros (av & fmt & Ha)%unused_addressed Hs.
  apply (service_steps_kept ident (addressed (fmt := fmt) av)) in Hs; [|exact Ha].
  destruct Hs as [_ _ Hv _ Hd]. simpl. by rewrite Hv.
Qed.

End services.
