(* ===== verification/Asynchronous.v ===== *)
(** * Transfers as futures

    [asynchronous.rs]: a service whose transfers are futures.  Each transfer shares a cell
    with the completion hook: the future polls it, the hook fills it and wakes.  One
    transfer's two ends are a transition system whose critical sections interleave in any
    order; the service below is [Service]'s over the wrapped contexts. *)

From S2P Require Import Prelude Wire Fabric Operands Worker FabricTransport Service.

(** ** Wrapped contexts *)

(** [Awaited]: the user's context and, by its number, the cell it answers to. *)
Record Awaited (T : Type) := { user : T; cell_of : nat }.
Arguments Build_Awaited {T} _ _.
Arguments user {T} _.
Arguments cell_of {T} _.

Definition awaited_operands `{Operands T} : Operands (Awaited T) := {|
  source a := source (user a);
  allocate length a :=
    let '(landing, u) := allocate length (user a) in (landing, Build_Awaited u (cell_of a));
  cacheable_span a := cacheable_span (user a);
|}.
#[export] Existing Instance awaited_operands.

(** A transfer is known by its cell, and by what its user's context is known by. *)
Definition named {T K} (ident : T → K) (a : Awaited T) : nat * K := (cell_of a, ident (user a)).

#[export] Instance awaited_laws `{OperandsLaws T K ident} : OperandsLaws (Awaited T) (nat * K) (named ident).
Proof.
  split. intros length a. unfold named. simpl.
  pose proof (allocate_ident length (user a)) as Hi. destruct (allocate length (user a)) as [landing u].
  simpl in *. by rewrite Hi.
Qed.

(** [map_context] *)
Definition map_context {A B} (map : A → B) (request : TransferRequest A) : TransferRequest B :=
  {| client_id := client_id request; peer_address := peer_address request;
     remote_key := remote_key request; remote_address := remote_address request;
     direction := direction request; request_want_checksum := request_want_checksum request;
     request_context := map (request_context request) |}.

(** ** One transfer's cell *)

(** [Cell] *)
Record Cell (T : Type) := {
  cell_outcome : option (Outcome * T);
  cell_waker : option Z;
}.
Arguments Build_Cell {T} _ _.
Arguments cell_outcome {T} _.
Arguments cell_waker {T} _.

(** The completion's end: the context still in the service; the cell filled and the waker
    taken, with the cell yet to drop; the cell dropped, with the waker yet to wake; done. *)
Inductive delivery : Type :=
  | InService
  | Filled (waker : option Z)
  | Unshared (waker : option Z)
  | Delivered.

Inductive event (T : Type) : Type :=
  | PolledPending (waker : Z)
  | PolledReady (finished : Outcome * T)
  | Completed (finished : Outcome * T)
  | Woken (waker : Z)
  | ContextDropped (finished : Outcome * T)
  | Forgotten.
Arguments PolledPending {T} _.
Arguments PolledReady {T} _.
Arguments Completed {T} _.
Arguments Woken {T} _.
Arguments ContextDropped {T} _.
Arguments Forgotten {T}.

(** A transfer: its cell, how many hold it, whether its [Transfer] still does, and whether
    that is being dropped, its waker forgotten. *)
Record transfer_state (T : Type) := {
  cell : Cell T;
  strong : nat;
  handle : bool;
  dropping : bool;
  delivering : delivery;
  events : list (event T);
}.
Arguments Build_transfer_state {T} _ _ _ _ _ _.
Arguments cell {T} _.
Arguments strong {T} _.
Arguments handle {T} _.
Arguments dropping {T} _.
Arguments delivering {T} _.
Arguments events {T} _.

Section cell.
  Context {T : Type}.
  (** [Waker::will_wake]: whether the two are known to wake the same task. *)
  Variable (will_wake : Z → Z → bool).
  Implicit Types (t : transfer_state T).

(** What [transfer] starts from: the future and the wrapped context share the cell. *)
Definition transfer_new : transfer_state T :=
  Build_transfer_state (Build_Cell None None) 2 true false InService [].

(** The cell's last holder drops what is in it. *)
Definition drop_cell (c : Cell T) (holders : nat) : list (event T) * Cell T :=
  match holders with
  | 1 => ((ContextDropped <$> option_list (cell_outcome c)), Build_Cell None None)
  | _ => ([], c)
  end.

(** [Transfer::poll] *)
Definition poll (waker : Z) t : option (Outcome * T) * transfer_state T :=
  match cell_outcome (cell t) with
  | Some finished =>
      (Some finished,
       Build_transfer_state (Build_Cell None (cell_waker (cell t))) (strong t) (handle t) (dropping t)
         (delivering t) (events t ++ [PolledReady finished]))
  | None =>
      let kept :=
        match cell_waker (cell t) with
        | Some w => if will_wake w waker then w else waker
        | None => waker
        end in
      (None,
       Build_transfer_state (Build_Cell None (Some kept)) (strong t) (handle t) (dropping t)
         (delivering t) (events t ++ [PolledPending waker]))
  end.

(** [Drop for Transfer]: nobody is to be woken any more. *)
Definition transfer_forget t : transfer_state T :=
  Build_transfer_state (Build_Cell (cell_outcome (cell t)) None) (strong t) (handle t) true
    (delivering t) (events t ++ [Forgotten]).

(** Then its field is dropped, the cell. *)
Definition transfer_release t : transfer_state T :=
  let '(dropped, c) := drop_cell (cell t) (strong t) in
  Build_transfer_state c (strong t - 1) false (dropping t) (delivering t) (events t ++ dropped).

(** A [Transfer] dropped, run alone. *)
Definition transfer_drop t : transfer_state T := transfer_release (transfer_forget t).

(** [deliver]'s critical section. *)
Definition fill (outcome : Outcome) (user : T) t : transfer_state T :=
  Build_transfer_state (Build_Cell (Some (outcome, user)) None) (strong t) (handle t) (dropping t)
    (Filled (cell_waker (cell t))) (events t ++ [Completed (outcome, user)]).

(** [drop(cell)] *)
Definition unshare (waker : option Z) t : transfer_state T :=
  let '(dropped, c) := drop_cell (cell t) (strong t) in
  Build_transfer_state c (strong t - 1) (handle t) (dropping t) (Unshared waker) (events t ++ dropped).

(** [waker.wake()] *)
Definition wake (waker : option Z) t : transfer_state T :=
  Build_transfer_state (cell t) (strong t) (handle t) (dropping t) Delivered
    (events t ++ (Woken <$> option_list waker)).

(** [deliver], run alone; when a context's drop or a waker panics it has got no further
    than waking. *)
Definition deliver (unwinds : bool) (outcome : Outcome) (user : T) t : transfer_state T :=
  let waker := cell_waker (cell t) in
  let t := unshare waker (fill outcome user t) in
  if unwinds then t else wake waker t.

Inductive transfer_step : transfer_state T → transfer_state T → Prop :=
  | step_poll waker t : handle t = true → dropping t = false → transfer_step t (poll waker t).2
  | step_transfer_forget t : handle t = true → dropping t = false → transfer_step t (transfer_forget t)
  | step_transfer_release t : handle t = true → dropping t = true → transfer_step t (transfer_release t)
  | step_fill outcome user t : delivering t = InService → transfer_step t (fill outcome user t)
  | step_unshare waker t : delivering t = Filled waker → transfer_step t (unshare waker t)
  | step_wake waker t : delivering t = Unshared waker → transfer_step t (wake waker t).

End cell.

(** [complete_batch]: each completion is delivered to its cell; [unwinds] says whose
    deliveries panic, and a panic reaches no further than its own. *)
Section batch.
  Context {T : Type}.
  Variable (unwinds : nat → bool).

Definition deliver_to (cells : gmap nat (transfer_state T)) (completion : Completion (Awaited T)) :
    gmap nat (transfer_state T) :=
  let i := cell_of (completed_context completion) in
  alter (deliver (unwinds i) (outcome completion) (user (completed_context completion))) i cells.

Definition complete_batch (completions : list (Completion (Awaited T)))
    (cells : gmap nat (transfer_state T)) : gmap nat (transfer_state T) :=
  foldl deliver_to cells completions.

End batch.

(** ** The asynchronous service *)

(** [FabricService]: the service over wrapped contexts, and the cells in existence. *)
Record async_service (E T K : Type) := {
  inner : service E (Awaited T) (nat * K);
  cells : gmap nat (transfer_state T);
}.
Arguments Build_async_service {E T K} _ _.
Arguments inner {E T K} _.
Arguments cells {E T K} _.

Section service.
  Context {E T K : Type} `{!Transport E, !Operands T} (ident : T → K).
  Implicit Types (a : async_service E T K).

Definition with_inner (s : service E (Awaited T) (nat * K)) a : async_service E T K :=
  Build_async_service s (cells a).

(** [FabricService::transfer]: the [Transfer], by its cell, or the request back. *)
Definition transfer (request : TransferRequest T) a :
    result nat (TransferRequest T) * async_service E T K :=
  let i := fresh (dom (cells a)) in
  match submit (named ident) (map_context (λ user, Build_Awaited user i) request) (inner a) with
  | (Ok _, s) => (Ok i, Build_async_service s (<[i := transfer_new]> (cells a)))
  | (Err request, s) => (Err (map_context user request), with_inner s a)
  end.

(** [FabricService::register], up to waiting on the reply. *)
Definition async_register (base length : Z) (reply : nat) a : result (Z * Z) DmaError * async_service E T K :=
  let '(r, s) := register_storage base length reply (inner a) in (r, with_inner s a).

(** [FabricService::outstanding] *)
Definition async_outstanding a : nat := service_outstanding (inner a).

(** [FabricService::add_peer], up to waiting on the reply. *)
Definition async_add_peer (client : Z) (address : list u8) (reply : nat) a : result () DmaError * async_service E T K :=
  let '(r, s) := add_peer client address reply (inner a) in (r, with_inner s a).

(** [FabricService::remove_peer] *)
Definition async_remove_peer (client : Z) a : async_service E T K := with_inner (remove_peer client (inner a)) a.

Lemma map_context_id (request : TransferRequest T) i :
  map_context user (map_context (λ user, Build_Awaited user i) request) = request.
Proof. by destruct request. Qed.

End service.

(** ** What every interleaving of a transfer keeps *)

Section transfer.
  Context {T : Type}.
  Variable (will_wake : Z → Z → bool).
  Implicit Types (t : transfer_state T) (l : list (event T)).

Definition completed l : list (Outcome * T) :=
  omap (λ e, match e with Completed x => Some x | _ => None end) l.
Definition returned l : list (Outcome * T) :=
  omap (λ e, match e with PolledReady x => Some x | _ => None end) l.
Definition dropped l : list (Outcome * T) :=
  omap (λ e, match e with ContextDropped x => Some x | _ => None end) l.

(** The waker the future was last left pending with, unless it has been forgotten since. *)
Definition awaits l : option Z :=
  foldl (λ w e, match e with PolledPending w => Some w | PolledReady _ | Forgotten => None | _ => w end) None l.

(** Waking the one wakes the other's task. *)
Definition wakes (w' w : Z) : Prop := w' = w ∨ will_wake w' w = true.

(** The wakeup owed to a future left pending with [w]. *)
Definition wakeup_owed t (w : Z) : Prop :=
  match delivering t with
  | InService => ∃ w', cell_waker (cell t) = Some w' ∧ wakes w' w
  | Filled k | Unshared k => ∃ w', k = Some w' ∧ wakes w' w
  | Delivered => ∃ l1 w' l2, events t = l1 ++ Woken w' :: l2 ∧ awaits l1 = Some w ∧ wakes w' w
  end.

Definition held_by_service t : nat :=
  match delivering t with InService | Filled _ => 1 | _ => 0 end.

Record transfer_ok t : Prop := {
  tk_strong : strong t = (if handle t then 1 else 0) + held_by_service t;
  tk_context : completed (events t) =
    returned (events t) ++ option_list (cell_outcome (cell t)) ++ dropped (events t);
  tk_completed : length (completed (events t)) = match delivering t with InService => 0 | _ => 1 end;
  tk_dropped : dropped (events t) ≠ [] → strong t = 0;
  tk_emptied : strong t = 0 → cell_outcome (cell t) = None;
  tk_wakeup w : handle t = true → returned (events t) = [] → awaits (events t) = Some w →
    wakeup_owed t w;
}.

Lemma transfer_new_ok : transfer_ok transfer_new.
Proof. by split. Qed.

Lemma completed_app l1 l2 : completed (l1 ++ l2) = completed l1 ++ completed l2.
Proof. apply omap_app. Qed.
Lemma returned_app l1 l2 : returned (l1 ++ l2) = returned l1 ++ returned l2.
Proof. apply omap_app. Qed.
Lemma dropped_app l1 l2 : dropped (l1 ++ l2) = dropped l1 ++ dropped l2.
Proof. apply omap_app. Qed.
Lemma awaits_snoc l e :
  awaits (l ++ [e]) = match e with PolledPending w => Some w | PolledReady _ | Forgotten => None | _ => awaits l end.
Proof. unfold awaits. rewrite foldl_app. by destruct e. Qed.

(** Before the completion arrives nothing has happened to the context. *)
Lemma in_service_empty t :
  transfer_ok t → delivering t = InService →
  completed (events t) = [] ∧ returned (events t) = [] ∧ cell_outcome (cell t) = None ∧ dropped (events t) = [].
Proof.
  intros Hok Hd. pose proof (tk_completed _ Hok) as Hl. rewrite Hd in Hl. apply nil_length_inv in Hl.
  pose proof (tk_context _ Hok) as Hc. rewrite Hl in Hc.
  symmetry in Hc. apply app_nil in Hc as [-> Hc]. apply app_nil in Hc as [Ho ->].
  by destruct (cell_outcome (cell t)).
Qed.

(** Afterwards, a future that is there and has not been given it finds it in the cell. *)
Lemma outcome_ready t :
  transfer_ok t → delivering t ≠ InService → handle t = true → returned (events t) = [] →
  ∃ finished, cell_outcome (cell t) = Some finished ∧ completed (events t) = [finished].
Proof.
  intros Hok Hd Hh Hr. pose proof (tk_completed _ Hok) as Hl. pose proof (tk_context _ Hok) as Hc.
  assert (dropped (events t) = []) as Hdr.
  { destruct (dropped (events t)) eqn:E; [done|]. pose proof (tk_strong _ Hok) as Hs.
    rewrite Hh, (tk_dropped _ Hok) in Hs by (by rewrite E). lia. }
  rewrite Hr, Hdr, app_nil_r in Hc. simpl in Hc. rewrite Hc in Hl |- *.
  destruct (cell_outcome (cell t)) as [finished|]; [by exists finished|].
  by destruct (delivering t).
Qed.

Lemma poll_ok waker t : transfer_ok t → handle t = true → transfer_ok (poll will_wake waker t).2.
Proof.
  intros Hok Hh. unfold poll. destruct (cell_outcome (cell t)) as [finished|] eqn:Ho; simpl.
  - destruct Hok as [H1 H2 H3 H4 H5 H6]. split; simpl; try done;
      rewrite ?completed_app, ?returned_app, ?dropped_app; simpl; rewrite ?app_nil_r; try done.
    + rewrite H2, Ho. simpl. by rewrite <-(assoc_L (++)).
    + intros w _ Hr. by apply app_nil in Hr as [_ ?].
  - pose proof (outcome_ready t Hok) as Hready.
    destruct Hok as [H1 H2 H3 H4 H5 H6]. split; simpl; try done;
      rewrite ?completed_app, ?returned_app, ?dropped_app; simpl; rewrite ?app_nil_r; try done.
    + by rewrite H2, Ho.
    + intros w _ Hr Hw. rewrite awaits_snoc in Hw. simplify_eq. unfold wakeup_owed. simpl.
      destruct (delivering t); [|destruct Hready as (? & ? & _); [done..|congruence]..].
      eexists. split; [done|]. unfold wakes. destruct (cell_waker (cell t)) as [w'|]; [|by left].
      destruct (will_wake w' w) eqn:Hw; [by right|by left].
Qed.

(** Dropping one holder of the cell. *)
Lemma drop_cell_spec (c c' : Cell T) n l d :
  drop_cell c n = (d, c') →
  completed (l ++ d) = completed l ∧ returned (l ++ d) = returned l ∧ awaits (l ++ d) = awaits l ∧
  (n = 1 → cell_outcome c' = None ∧ dropped (l ++ d) = dropped l ++ option_list (cell_outcome c)) ∧
  (n ≠ 1 → c' = c ∧ dropped (l ++ d) = dropped l).
Proof.
  unfold drop_cell. destruct (decide (n = 1)) as [->|Hn].
  - intros [= <- <-]. rewrite completed_app, returned_app, dropped_app.
    destruct (cell_outcome c); simpl; rewrite ?app_nil_r, ?awaits_snoc; split_and!; done.
  - intros Hd. assert (d = [] ∧ c' = c) as [-> ->] by (by destruct n as [|[|n]]; simplify_eq/=).
    rewrite app_nil_r. split_and!; done.
Qed.

Lemma transfer_forget_ok t : transfer_ok t → transfer_ok (transfer_forget t).
Proof.
  intros [Hs Hx Hl Hd He _].
  split; simpl; rewrite ?completed_app, ?returned_app, ?dropped_app; simpl; rewrite ?app_nil_r; try done.
  intros w _ _ Hw. by rewrite awaits_snoc in Hw.
Qed.

Lemma transfer_release_ok t : transfer_ok t → handle t = true → transfer_ok (transfer_release t).
Proof.
  intros Hok Hh. unfold transfer_release.
  destruct (drop_cell (cell t) (strong t)) as [d c'] eqn:Ed.
  apply (drop_cell_spec _ _ _ (events t)) in Ed as (Hc & Hr & _ & H1 & Hn1).
  destruct Hok as [Hs Hx Hl Hd He _]. rewrite Hh in Hs.
  split; simpl; try done; rewrite ?Hc, ?Hr; try done.
  - unfold held_by_service in *. simpl. lia.
  - rewrite Hx. destruct (decide (strong t = 1)) as [Heq|Hne].
    + destruct (H1 Heq) as [-> ->]. simpl. f_equal.
      destruct (dropped (events t)) eqn:Edr; [by rewrite app_nil_r|].
      rewrite Hd in Heq by done. lia.
    + by destruct (Hn1 Hne) as [-> ->].
  - destruct (decide (strong t = 1)) as [Heq|Hne]; [lia|]. destruct (Hn1 Hne) as [_ ->]. intros Hdd.
    apply Hd in Hdd. lia.
  - intros Hz. apply H1. lia.
Qed.

Lemma fill_ok outcome user t :
  transfer_ok t → delivering t = InService → transfer_ok (fill outcome user t).
Proof.
  intros Hok Hd. destruct (in_service_empty t Hok Hd) as (Hc & Hr & Ho & Hdr).
  destruct Hok as [Hs _ _ _ _ Hw]. unfold held_by_service in Hs. rewrite Hd in Hs.
  unfold fill. split; simpl; rewrite ?completed_app, ?returned_app, ?dropped_app, ?Hc, ?Hr, ?Hdr; try done.
  - unfold held_by_service. simpl. lia.
  - intros w Hh _ Haw. rewrite awaits_snoc in Haw. specialize (Hw w Hh Hr Haw).
    unfold wakeup_owed in *. by rewrite Hd in Hw.
Qed.

Lemma unshare_ok waker t :
  transfer_ok t → delivering t = Filled waker → transfer_ok (unshare waker t).
Proof.
  intros Hok Hdel. unfold unshare. destruct (drop_cell (cell t) (strong t)) as [d c'] eqn:Ed.
  apply (drop_cell_spec _ _ _ (events t)) in Ed as (Hc & Hr & Ha & H1 & Hn1).
  destruct Hok as [Hs Hx Hl Hd He Hw]. unfold held_by_service in Hs. rewrite Hdel in *.
  split; simpl; rewrite ?Hc, ?Hr, ?Ha; try done.
  - unfold held_by_service. simpl. lia.
  - rewrite Hx. destruct (decide (strong t = 1)) as [Heq|Hne].
    + destruct (H1 Heq) as [-> ->]. simpl. f_equal.
      destruct (dropped (events t)) eqn:Edr; [by rewrite app_nil_r|].
      rewrite Hd in Heq by done. lia.
    + by destruct (Hn1 Hne) as [-> ->].
  - destruct (decide (strong t = 1)) as [Heq|Hne]; [lia|]. destruct (Hn1 Hne) as [_ ->]. intros Hdd.
    apply Hd in Hdd. lia.
  - intros Hz. apply H1. lia.
  - intros w Hh Hre Haw. specialize (Hw w Hh Hre Haw). unfold wakeup_owed in *. by rewrite Hdel in Hw.
Qed.

Lemma wake_ok waker t : transfer_ok t → delivering t = Unshared waker → transfer_ok (wake waker t).
Proof.
  intros [Hs Hx Hl Hd He Hw] Hdel. unfold held_by_service in Hs. rewrite Hdel in *.
  assert (completed (events t ++ (Woken <$> option_list waker)) = completed (events t) ∧
          returned (events t ++ (Woken <$> option_list waker)) = returned (events t) ∧
          dropped (events t ++ (Woken <$> option_list waker)) = dropped (events t) ∧
          awaits (events t ++ (Woken <$> option_list waker)) = awaits (events t)) as (Hc & Hr & Hdr & Ha).
  { rewrite completed_app, returned_app, dropped_app.
    destruct waker; simpl; rewrite ?app_nil_r, ?awaits_snoc; done. }
  split; simpl; rewrite ?Hc, ?Hr, ?Hdr, ?Ha; try done.
  intros w Hh Hre Haw. specialize (Hw w Hh Hre Haw). unfold wakeup_owed in *. rewrite Hdel in Hw.
  destruct Hw as (w' & -> & Hw'). simpl. by exists (events t), w', [].
Qed.

Lemma transfer_step_ok t t' : transfer_ok t → transfer_step will_wake t t' → transfer_ok t'.
Proof.
  intros Hok Hs. destruct Hs; auto using poll_ok, transfer_forget_ok, transfer_release_ok, fill_ok, unshare_ok, wake_ok.
Qed.

Lemma transfer_reachable_ok t : rtc (transfer_step will_wake) transfer_new t → transfer_ok t.
Proof.
  pose proof transfer_new_ok as Hok. induction 1 as [|t1 t2 t3 Hs _ IH]; [done|].
  apply IH. by eapply transfer_step_ok.
Qed.

(** C30: A future is always woken.  In every interleaving of polls, the future's drop and
    the delivery: a future left pending by its last poll, with no outcome returned yet,
    is owed a wakeup of that poll's task until it has been woken after that poll, and
    from the moment the outcome is in the cell its next poll returns it. *)
Theorem future_always_woken t w
  (Hs : rtc (transfer_step will_wake) transfer_new t)
  (Hh : handle t = true) (Hr : returned (events t) = []) (Hw : awaits (events t) = Some w) :
  wakeup_owed t w ∧
  (delivering t ≠ InService →
     ∃ finished, completed (events t) = [finished] ∧
       ∀ waker, (poll will_wake waker t).1 = Some finished).
Proof.
  apply transfer_reachable_ok in Hs as Hok. split; [by apply Hok|].
  intros Hd. destruct (outcome_ready t Hok Hd Hh Hr) as (finished & Ho & Hc).
  exists finished. split; [done|]. intros waker. unfold poll. by rewrite Ho.
Qed.

(** C31: A context comes back once.  The completions delivered to a transfer, at most one,
    are those its polls returned, the one still in its cell, and those dropped with it;
    so a context is returned or dropped at most once, it is dropped only when the future
    is gone and the delivery is done with the cell, and once both are gone it has been
    one or the other. *)
Theorem context_comes_back_once t (Hs : rtc (transfer_step will_wake) transfer_new t) :
  completed (events t) = returned (events t) ++ option_list (cell_outcome (cell t)) ++ dropped (events t) ∧
  length (completed (events t)) ≤ 1 ∧
  (dropped (events t) ≠ [] → handle t = false ∧ held_by_service t = 0) ∧
  (handle t = false → held_by_service t = 0 →
     length (returned (events t) ++ dropped (events t)) = 1).
Proof.
  apply transfer_reachable_ok in Hs as [Hst Hx Hl Hd He _]. split_and!; [done| | |].
  - rewrite Hl. by destruct (delivering t); lia.
  - intros Hne%Hd. rewrite Hne in Hst. destruct (handle t); [lia|]. split; [done|lia].
  - intros Hh Hz. rewrite Hh, Hz in Hst. rewrite He in Hx by lia. simpl in Hx. rewrite <-Hx, Hl.
    unfold held_by_service in Hz. by destruct (delivering t).
Qed.

End transfer.

(** A batch reaches every future.  [complete_batch] fills the cell of every
    completion in it, whichever of the deliveries panic, and touches no other cell. *)
Lemma batch_reaches_every_cell {T} (unwinds : nat → bool) (batch : list (Completion (Awaited T))) cs i t
  (Hi : cs !! i = Some t)
  (Hnd : NoDup ((λ c, cell_of (completed_context c)) <$> batch)) :
  complete_batch unwinds batch cs !! i =
    match list_find (λ c, cell_of (completed_context c) = i) batch with
    | Some (_, c) => Some (deliver (unwinds i) (outcome c) (user (completed_context c)) t)
    | None => Some t
    end.
Proof.
  unfold complete_batch. revert cs t Hi Hnd. induction batch as [|c batch IH]; intros cs t Hi; [done|].
  rewrite fmap_cons, NoDup_cons. intros [Hn Hnd]. simpl.
  destruct (decide (cell_of (completed_context c) = i)) as [He|Hne].
  - rewrite (IH _ (deliver (unwinds i) (outcome c) (user (completed_context c)) t)); [|by subst; unfold deliver_to; rewrite lookup_alter_eq, Hi|done].
    destruct (list_find _ batch) as [[j c']|] eqn:Ef; [|done].
    apply list_find_Some in Ef as (Hj & Hc' & _). destruct Hn. apply list_elem_of_fmap.
    exists c'. split; [congruence|by eapply list_elem_of_lookup_2].
  - rewrite (IH _ t); [|by unfold deliver_to; rewrite lookup_alter_ne|done].
    by destruct (list_find _ batch) as [[j c']|].
Qed.

(** A refused transfer costs nothing.  When the worker is gone [transfer] gives back
    the very request it was given, and the service and its cells are as they were;
    otherwise the request is in the channel under a cell that nothing else answers to. *)
Lemma transfer_submits {K} `{!Transport E, !Operands T} (ident : T → K) (request : TransferRequest T)
    (a : async_service E T K) r a' (Ht : transfer ident request a = (r, a')) :
  match r with
  | Err back => back = request ∧ a' = a
  | Ok i =>
      cells a !! i = None ∧ cells a' = <[i := transfer_new]> (cells a) ∧
      taken (inner a') = taken (inner a) ++ [(i, ident (request_context request))] ∧
      service_outstanding (inner a') = Datatypes.S (service_outstanding (inner a)) ∧
      channel (inner a') = channel (inner a) ++
        [Transfer (map_context (λ user, Build_Awaited user i) request)]
  end.
Proof.
  unfold transfer in Ht. set (i := fresh (dom (cells a))) in Ht.
  assert (cells a !! i = None) as Hi by (apply not_elem_of_dom, is_fresh).
  unfold submit, send in Ht. destruct a as [[snd ch w st tk] cs]. simpl in *.
  destruct snd; simpl in Ht; [|simplify_eq; by rewrite map_context_id].
  destruct st; simpl in Ht; simplify_eq/=; rewrite ?map_context_id; [by split_and!..|].
  split; [done|]. unfold with_thread. simpl. by rewrite bump_back.
Qed.

(** ** Witnesses *)

Definition example_outcome : Outcome := Ok {| done_bytes := 4; checksum := None |}.

(** Polled, completed, and woken. *)
Definition woken_transfer : transfer_state Z :=
  wake (Some 1%Z) (unshare (Some 1%Z) (fill example_outcome 11%Z (poll Z.eqb 1 transfer_new).2)).

Lemma woken_transfer_steps : rtc (transfer_step Z.eqb) transfer_new woken_transfer.
Proof.
  eapply rtc_l; [by apply (step_poll _ 1)|]. eapply rtc_l; [by apply (step_fill _ example_outcome 11%Z)|].
  eapply rtc_l; [by apply (step_unshare _ (Some 1%Z))|]. eapply rtc_l; [by apply (step_wake _ (Some 1%Z))|].
  apply rtc_refl.
Qed.

Lemma future_always_woken_witness :
  (∃ l1 w' l2, events woken_transfer = l1 ++ Woken w' :: l2 ∧ awaits l1 = Some 1%Z ∧ wakes Z.eqb w' 1) ∧
  (poll Z.eqb 9 woken_transfer).1 = Some (example_outcome, 11%Z).
Proof.
  destruct (future_always_woken Z.eqb woken_transfer 1 woken_transfer_steps eq_refl eq_refl eq_refl)
    as [Hw Hp].
  split; [exact Hw|]. destruct (Hp ltac:(done)) as (finished & Hc & Hpoll).
  rewrite Hpoll. vm_compute in Hc. by simplify_eq.
Defined.

(** Abandoned, with the delivery falling in the middle of the drop. *)
Definition abandoned_transfer : transfer_state Z :=
  wake None (transfer_release (unshare None (fill example_outcome 11%Z (transfer_forget transfer_new)))).

Lemma abandoned_transfer_steps : rtc (transfer_step Z.eqb) transfer_new abandoned_transfer.
Proof.
  eapply rtc_l; [by apply step_transfer_forget|]. eapply rtc_l; [by apply (step_fill _ example_outcome 11%Z)|].
  eapply rtc_l; [by apply (step_unshare _ None)|]. eapply rtc_l; [by apply step_transfer_release|].
  eapply rtc_l; [by apply (step_wake _ None)|]. apply rtc_refl.
Qed.

Lemma context_comes_back_once_witness :
  dropped (events abandoned_transfer) = [(example_outcome, 11%Z)] ∧
  length (returned (events abandoned_transfer) ++ dropped (events abandoned_transfer)) = 1.
Proof.
  split; [done|]. by apply (context_comes_back_once Z.eqb abandoned_transfer abandoned_transfer_steps).
Defined.

Definition example_batch : list (Completion (Awaited Z)) :=
  [Build_Completion (Build_Awaited 11%Z 0) example_outcome; Build_Completion (Build_Awaited 22%Z 1) example_outcome].

#[local] Existing Instances example_libfabric tagged.

