(* ===== verification/Futures.v ===== *)
(** * Futures over the service

    [asynchronous.rs]'s [FabricService] put together: the service and its worker over
    wrapped contexts ([Service]), and every transfer's cell with its future and its
    delivery ([Asynchronous]).  What the worker hands to the completion hook, and the jobs
    it gives the pool, are delivered cell by cell; deliveries, polls, dropped futures,
    callers and the worker's turns interleave in any order. *)

From S2P Require Import Prelude Arc Wire Fabric RegionCache Operands PeerAddresses Config Endpoint.
From S2P Require Import Worker FabricTransport Service Asynchronous.

(** The service with the completions that have left the worker and are not delivered yet. *)
Record async_system (E T K : Type) := { served : async_service E T K; due : list (Completion (Awaited T)) }.
Arguments Build_async_system {E T K} _ _.
Arguments served {E T K} _.
Arguments due {E T K} _.

Section futures.
  Context {E T K : Type} `{!Transport E, !TransportLaws E, !Operands T} (ident : T → K)
    `{!OperandsLaws T K ident, !EqDecision K}.
  Variables (quiesce_writes : bool) (progress_deadline : Z) (cap : nat) (quiesce_pointer : Z).
  Variables (clock : nat → Z) (place : gmap Z (InFlight (Awaited T)) → Z) (crc : slice → Z).
  Variable (will_wake : Z → Z → bool).
  Hypothesis place_fresh : ∀ m, m !! place m = None.
  Hypothesis place_nonnull : ∀ m, place m ≠ 0%Z.
  Implicit Types (s : service E (Awaited T) (nat * K)) (a : async_service E T K) (x : async_system E T K).

  Abbreviation name := (named ident).
  Abbreviation thread_turn := (thread_step quiesce_writes progress_deadline cap quiesce_pointer clock place crc).
  Abbreviation steps := (service_step name quiesce_writes progress_deadline cap quiesce_pointer clock place crc).

(** The completions an effect of the worker brings: a batch for the hook, or the batch
    [submit_crc_batch]'s job will have for it. *)
Definition completes (effect : effect (Awaited T)) : list (Completion (Awaited T)) :=
  match effect with
  | CompleteBatch batch => batch
  | PoolJob batch => crc_job crc batch
  | _ => []
  end.

Definition history s : list (effect (Awaited T)) := log (acc (thread s)).

Definition with_cell (i : nat) (t : transfer_state T) a : async_service E T K :=
  Build_async_service (inner a) (<[i := t]> (cells a)).

Definition async_new (e : E) : async_system E T K := Build_async_system (Build_async_service (service_new e) ∅) [].

Inductive async_step : async_system E T K → async_system E T K → Prop :=
  | async_step_transfer request r a a' d :
      transfer ident request a = (r, a') → async_step (Build_async_system a d) (Build_async_system a' d)
  | async_step_register base length reply r a a' d :
      async_register base length reply a = (r, a') → async_step (Build_async_system a d) (Build_async_system a' d)
  | async_step_add_peer client address reply r a a' d :
      async_add_peer client address reply a = (r, a') → async_step (Build_async_system a d) (Build_async_system a' d)
  | async_step_remove_peer client a d :
      async_step (Build_async_system a d) (Build_async_system (async_remove_peer client a) d)
  | async_step_close a d :
      async_step (Build_async_system a d) (Build_async_system (with_inner (close (inner a)) a) d)
  | async_step_thread s a d :
      thread_turn (inner a) = Some s →
      async_step (Build_async_system a d)
        (Build_async_system (with_inner s a) (d ++ (drop (length (history (inner a))) (history s) ≫= completes)))
  | async_step_fill c d1 d2 t a :
      cells a !! cell_of (completed_context c) = Some t →
      async_step (Build_async_system a (d1 ++ c :: d2))
        (Build_async_system
           (with_cell (cell_of (completed_context c)) (fill (outcome c) (user (completed_context c)) t) a) (d1 ++ d2))
  | async_step_poll i waker t a d :
      cells a !! i = Some t → handle t = true → dropping t = false →
      async_step (Build_async_system a d) (Build_async_system (with_cell i (poll will_wake waker t).2 a) d)
  | async_step_forget i t a d :
      cells a !! i = Some t → handle t = true → dropping t = false →
      async_step (Build_async_system a d) (Build_async_system (with_cell i (transfer_forget t) a) d)
  | async_step_release i t a d :
      cells a !! i = Some t → handle t = true → dropping t = true →
      async_step (Build_async_system a d) (Build_async_system (with_cell i (transfer_release t) a) d)
  | async_step_unshare i waker t a d :
      cells a !! i = Some t → delivering t = Filled waker →
      async_step (Build_async_system a d) (Build_async_system (with_cell i (unshare waker t) a) d)
  | async_step_wake i waker t a d :
      cells a !! i = Some t → delivering t = Unshared waker →
      async_step (Build_async_system a d) (Build_async_system (with_cell i (wake waker t) a) d).

(** ** The service's history only grows *)

Lemma thread_history s s' : thread_turn s = Some s' → history s `prefix_of` history s'.
Proof. apply thread_log. Qed.

(** What callers do leaves it, and what they have submitted, as it is: submitting apart. *)
Lemma send_history m s s' : send m s = Some s' → history s' = history s ∧ taken s' = taken s.
Proof. unfold send. destruct (status s); intros; by simplify_eq. Qed.

Lemma register_history base length reply r s s' :
  register_storage base length reply s = (r, s') → history s' = history s ∧ taken s' = taken s.
Proof.
  unfold register_storage. intros H. repeat case_match; simplify_eq; try done. by eapply send_history.
Qed.

Lemma add_peer_history client address reply r s s' :
  add_peer client address reply s = (r, s') → history s' = history s ∧ taken s' = taken s.
Proof. unfold add_peer. intros H. repeat case_match; simplify_eq; try done. by eapply send_history. Qed.

Lemma remove_peer_history client s :
  history (remove_peer client s) = history s ∧ taken (remove_peer client s) = taken s.
Proof.
  unfold remove_peer. destruct (negb _); [done|]. destruct (send _ s) eqn:Hs; simpl; [by eapply send_history|done].
Qed.

Lemma submit_history request s r s' :
  submit name request s = (r, s') →
  history s' = history s ∧
  match r with Ok _ => taken s' = taken s ++ [name (request_context request)] | Err _ => taken s' = taken s end.
Proof.
  unfold submit, send. intros H. repeat case_match; simplify_eq/=; try done.
Qed.

(** ** What every interleaving keeps *)

(** The transfers whose completion has not reached its cell. *)
Definition under_way x : list (nat * K) :=
  in_service name (inner (served x)) ++ ((λ c, name (completed_context c)) <$> due x).

Lemma completes_handed (l : list (effect (Awaited T))) :
  (λ c, name (completed_context c)) <$> (l ≫= completes) = delivered (ident := name) l.
Proof.
  unfold delivered. induction l as [|e l IH]; [done|]. csimpl. rewrite fmap_app, IH. f_equal.
  destruct e; try done. simpl. unfold crc_job. rewrite <-list_fmap_compose.
  apply list_fmap_ext. by intros _ [op r] _.
Qed.

(** Between two states of the service, what it no longer has it has handed over. *)
Lemma handed_over s s' rec rec' l new :
  service_ok name s rec → service_ok name s' rec' → taken s' = taken s ++ l → history s' = history s ++ new →
  in_service name s ++ l ≡ₚ in_service name s' ++ ((λ c, name (completed_context c)) <$> (new ≫= completes)).
Proof.
  intros Hok Hok' Ht Hh. rewrite completes_handed. 
  pose proof (service_conserves name s rec Hok) as Hc. pose proof (service_conserves name s' rec' Hok') as Hc'.
  unfold handed_back in *. change (log (acc (thread s'))) with (history s') in Hc'.
  rewrite Ht, Hh, delivered_app, Hc in Hc'. rewrite <-!(assoc_L (++)) in Hc'.
  apply Permutation_app_inv_l in Hc'. rewrite Hc'. solve_Permutation.
Qed.

Record async_ok x : Prop := {
  ay_service : ∃ rec, service_ok name (inner (served x)) rec;
  ay_names : NoDup (taken (inner (served x))).*1;
  ay_cells i : is_Some (cells (served x) !! i) ↔ i ∈ (taken (inner (served x))).*1;
  ay_settled : ∃ settled, taken (inner (served x)) ≡ₚ under_way x ++ settled;
  ay_cell i t : cells (served x) !! i = Some t → transfer_ok will_wake t ∧
    (delivering t = InService ↔ i ∈ (under_way x).*1) ∧
    (∀ o u, (o, u) ∈ completed (events t) → (i, ident u) ∈ taken (inner (served x)));
}.

Lemma async_new_ok e : posted e = [] → async_ok (async_new e).
Proof.
  intros He. split; simpl; try done.
  - exists []. by apply service_new_ok.
  - constructor.
  - intros i. rewrite lookup_empty. split; [by intros []|set_solver].
  - by exists [].
Qed.

(** The service moves on: its transfers are as they were, here or due. *)
Lemma served_ok a s d new rec' :
  async_ok (Build_async_system a d) → service_ok name s rec' →
  taken s = taken (inner a) → history s = history (inner a) ++ new →
  async_ok (Build_async_system (with_inner s a) (d ++ (new ≫= completes))).
Proof.
  intros [[rec Hok] Hn Hc [settled Hse] Hcell] Hok' Ht Hh. simpl in *.
  assert (under_way (Build_async_system (with_inner s a) (d ++ (new ≫= completes))) ≡ₚ under_way (Build_async_system a d)) as Hu.
  { unfold under_way. simpl. rewrite <-(app_nil_r (taken (inner a))) in Ht.
    pose proof (handed_over _ _ _ _ _ _ Hok Hok' Ht Hh) as Hp. rewrite app_nil_r in Hp.
    rewrite Hp, fmap_app. solve_Permutation. }
  split; simpl; rewrite ?Ht; [eauto|done|done|exists settled; by rewrite Hu|].
  intros i t Hi. destruct (Hcell i t Hi) as (? & Hd & ?). split_and!; [done| |done]. by rewrite Hd, Hu.
Qed.

Lemma still_ok a s d rec' :
  async_ok (Build_async_system a d) → service_ok name s rec' →
  history s = history (inner a) ∧ taken s = taken (inner a) → async_ok (Build_async_system (with_inner s a) d).
Proof.
  intros Hx Hok [Hh Ht]. pose proof (served_ok a s d [] rec' Hx Hok Ht ltac:(by rewrite app_nil_r)) as H.
  simpl in H. by rewrite app_nil_r in H.
Qed.

(** A cell's future or delivery moves on, short of the outcome arriving. *)
Lemma cell_ok i t t' a d :
  async_ok (Build_async_system a d) → cells a !! i = Some t → transfer_ok will_wake t' →
  (delivering t' = InService ↔ delivering t = InService) → completed (events t') = completed (events t) →
  async_ok (Build_async_system (with_cell i t' a) d).
Proof.
  intros [Hok Hn Hc Hse Hcell] Hi Ht' Hd Hco. split; simpl in *; [done|done| |done|].
  - intros j. rewrite <-Hc. destruct (decide (j = i)) as [->|]; [|by rewrite lookup_insert_ne].
    rewrite lookup_insert_eq, Hi. by split; eauto.
  - intros j u. rewrite lookup_insert_Some. intros [[<- <-]|[_ Hj]]; [|by apply Hcell].
    destruct (Hcell i t Hi) as (_ & ? & ?). rewrite Hco, Hd. by split_and!.
Qed.

(** The outcome arrives. *)
Lemma fill_async_ok c d1 d2 t a :
  let i := cell_of (completed_context c) in
  async_ok (Build_async_system a (d1 ++ c :: d2)) → cells a !! i = Some t →
  async_ok (Build_async_system (with_cell i (fill (outcome c) (user (completed_context c)) t) a) (d1 ++ d2)).
Proof.
  intros i [Hok Hn Hc [settled Hse] Hcell] Hi. simpl in *.
  set (k := ident (user (completed_context c))).
  assert (under_way (Build_async_system a (d1 ++ c :: d2)) ≡ₚ
    (i, k) :: under_way (Build_async_system a (d1 ++ d2))) as Hu.
  { unfold under_way. simpl. rewrite !fmap_app. csimpl.
    change (name (completed_context c)) with (i, k). rewrite (assoc_L (++)), <-Permutation_middle. by rewrite (assoc_L (++)). }
  set (rest := under_way (Build_async_system a (d1 ++ d2))) in *.
  assert (i ∉ rest.*1) as Hout.
  { rewrite Hse, Hu in Hn. csimpl in Hn. apply NoDup_cons in Hn as [Hn _]. rewrite fmap_app, not_elem_of_app in Hn. apply Hn. }
  assert ((i, k) ∈ taken (inner a)) as Hin by (rewrite Hse, Hu; left).
  destruct (Hcell i t Hi) as (Ht & Hd & Hco).
  assert (delivering t = InService) as Hin' by (apply Hd; rewrite Hu; csimpl; left).
  split; simpl; [done|done| | |].
  - intros j. rewrite <-Hc. destruct (decide (j = i)) as [->|]; [|by rewrite lookup_insert_ne].
    rewrite lookup_insert_eq, Hi. by split; eauto.
  - exists ((i, k) :: settled). change (taken (inner a) ≡ₚ rest ++ (i, k) :: settled). rewrite Hse, Hu. solve_Permutation.
  - change (under_way (Build_async_system (with_cell i (fill (outcome c) (user (completed_context c)) t) a) (d1 ++ d2)))
      with rest.
    intros j u. rewrite lookup_insert_Some. intros [[<- <-]|[Hne Hj]].
    + split_and!; [by apply fill_ok|simpl; by split|].
      intros o u. simpl. rewrite completed_app. simpl.
      destruct (in_service_empty will_wake t Ht Hin') as (-> & _). simpl. rewrite list_elem_of_singleton.
      intros [= -> ->]. exact Hin.
    + destruct (Hcell j u Hj) as (? & Hdj & ?). split_and!; [done| |done]. rewrite Hdj, Hu. csimpl.
      rewrite elem_of_cons. assert (j ≠ i) by done. tauto.
Qed.

(** A transfer begins, in a cell of its own. *)
Lemma transfer_async_ok request r a a' d :
  async_ok (Build_async_system a d) → transfer ident request a = (r, a') → async_ok (Build_async_system a' d).
Proof.
  intros Hx. unfold transfer. set (i := fresh (dom (cells a))).
  destruct (submit name _ (inner a)) as [r1 s] eqn:Hs. pose proof (submit_history _ _ _ _ Hs) as [Hh Ht].
  destruct (ay_service _ Hx) as [rec Hok]. simpl in Hok. pose proof (submit_ok _ _ _ _ _ _ Hs Hok) as Hok'.
  destruct r1 as [[]|back]; intros [= <- <-]; [|by eapply still_ok].
  assert (cells a !! i = None) as Hi by (apply not_elem_of_dom, is_fresh).
  destruct Hx as [_ Hn Hc [settled Hse] Hcell]. simpl in *.
  set (k := ident (request_context request)). change (taken s = taken (inner a) ++ [(i, k)]) in Ht.
  assert (under_way (Build_async_system (Build_async_service s (<[i := transfer_new]> (cells a))) d) ≡ₚ
    (i, k) :: under_way (Build_async_system a d)) as Hu.
  { unfold under_way. simpl. rewrite <-(app_nil_r (history (inner a))) in Hh.
    pose proof (handed_over _ _ _ _ _ _ Hok Hok' Ht Hh) as Hp. simpl in Hp. rewrite app_nil_r in Hp.
    rewrite <-Hp. rewrite (Permutation_app_comm _ [(i, k)]). done. }
  assert (i ∉ (taken (inner a)).*1) as Hout by (rewrite <-Hc, Hi; by intros []).
  split; simpl; rewrite ?Ht, ?fmap_app; [eauto| | | |].
  - rewrite Permutation_app_comm. csimpl. by apply NoDup_cons.
  - intros j. rewrite lookup_insert_is_Some', Hc, elem_of_app. csimpl. rewrite list_elem_of_singleton.
    assert (i = j ↔ j = i) by done. tauto.
  - exists settled. rewrite Hu, (Permutation_app_comm _ [_]), Hse. done.
  - intros j u. rewrite lookup_insert_Some. intros [[<- <-]|[Hne Hj]].
    + split_and!; [apply transfer_new_ok| |set_solver]. rewrite Hu. csimpl. split; [by left|done].
    + destruct (Hcell j u Hj) as (? & Hd & Hco). split_and!; [done| |].
      * rewrite Hd, Hu. csimpl. rewrite elem_of_cons. assert (j ≠ i) by done. tauto.
      * intros o v Hin. apply elem_of_app. left. by eapply Hco.
Qed.

Lemma async_step_ok x x' : async_ok x → async_step x x' → async_ok x'.
Proof.
  intros Hx Hstep. destruct (ay_service _ Hx) as [rec Hok].
  assert (∀ s, steps (inner (served x)) s → ∃ rec', service_ok name s rec') as Hnext.
  { intros s Hs. eapply (step_ok name); [..|exact Hs]; done. }
  destruct Hstep as [request r a a' d Ha|base length reply r a a' d Ha|client address reply r a a' d Ha|client a d|a d
    |s a d Hs|c d1 d2 t a Hi|i waker t a d Hi Hh Hdr|i t a d Hi Hh Hdr|i t a d Hi Hh Hdr|i waker t a d Hi Hd|i waker t a d Hi Hd]; simpl in *.
  - by eapply transfer_async_ok.
  - unfold async_register in Ha. destruct (register_storage _ _ _ _) as [r1 s] eqn:Hs. injection Ha as <- <-.
    destruct (Hnext s) as [rec' Hok']; [by eapply step_register|]. by eapply still_ok, register_history.
  - unfold async_add_peer in Ha. destruct (add_peer _ _ _ _) as [r1 s] eqn:Hs. injection Ha as <- <-.
    destruct (Hnext s) as [rec' Hok']; [by eapply step_add_peer|]. by eapply still_ok, add_peer_history.
  - destruct (Hnext (remove_peer client (inner a))) as [rec' Hok']; [by apply step_remove_peer|].
    eapply still_ok; [done..|apply remove_peer_history].
  - destruct (Hnext (close (inner a))) as [rec' Hok']; [by apply step_close|]. by eapply still_ok.
  - destruct (Hnext s) as [rec' Hok']; [by apply step_thread|]. destruct (thread_history _ _ Hs) as [new Hnew].
    rewrite Hnew, drop_app_length. eapply served_ok; [done..| |done]. by eapply thread_taken.
  - by apply fill_async_ok.
  - destruct (ay_cell _ Hx i t Hi) as (Ht & _ & _). eapply (cell_ok i t); [done|done|by apply poll_ok|..].
    + unfold poll. by destruct (cell_outcome (cell t)).
    + unfold poll. destruct (cell_outcome (cell t)); simpl; rewrite completed_app; apply app_nil_r.
  - destruct (ay_cell _ Hx i t Hi) as (Ht & _ & _). eapply (cell_ok i t); [done|done|by apply transfer_forget_ok|done|].
    simpl. rewrite completed_app. apply app_nil_r.
  - destruct (ay_cell _ Hx i t Hi) as (Ht & _ & _). eapply (cell_ok i t); [done|done|by apply transfer_release_ok|..];
      unfold transfer_release; destruct (drop_cell _ _) as [l c] eqn:Hl; [done|]. apply (drop_cell_spec _ _ _ (events t)) in Hl as [Hl _]; exact Hl.
  - destruct (ay_cell _ Hx i t Hi) as (Ht & _ & _). eapply (cell_ok i t); [done|done|by apply unshare_ok|..];
      unfold unshare; destruct (drop_cell _ _) as [l c] eqn:Hdr; [by rewrite Hd|]. apply (drop_cell_spec _ _ _ (events t)) in Hdr as [Hl _]; exact Hl.
  - destruct (ay_cell _ Hx i t Hi) as (Ht & _ & _). eapply (cell_ok i t); [done|done|by apply wake_ok|..]; simpl.
    + by rewrite Hd.
    + rewrite completed_app. destruct waker; apply app_nil_r.
Qed.

Lemma async_reachable_ok e x : posted e = [] → rtc async_step (async_new e) x → async_ok x.
Proof.
  intros He Hs. pose proof (async_new_ok e He) as Hi. revert Hi. induction Hs; eauto using async_step_ok.
Qed.

Lemma keys_functional {A B} (l : list (A * B)) i k k' : NoDup l.*1 → (i, k) ∈ l → (i, k') ∈ l → k = k'.
Proof.
  induction l as [|[j v] l IH]; csimpl; [by intros _ ?%not_elem_of_nil|].
  intros [Hj Hn]%NoDup_cons [?|Hk]%elem_of_cons [?|Hk']%elem_of_cons; simplify_eq; [done|..|by apply IH].
  - destruct Hj. apply list_elem_of_fmap. by eexists (_, k').
  - destruct Hj. apply list_elem_of_fmap. by eexists (_, k).
Qed.

(** C10: Every future resolves, once, with its own context.  However callers, the worker, the
    pool, the deliveries and the tasks that poll interleave: each transfer has a cell of its
    own; its outcome has arrived there exactly if the transfer is neither in the service nor
    among the completions still to be delivered; it arrives once, with the context that was
    submitted for it; and when the worker sleeps or has left and the completions have been
    delivered, every future that is there and has not given its outcome gives it to its
    next poll. *)
Theorem every_future_resolves e x
  (He : posted e = []) (Hs : rtc async_step (async_new e) x) :
  NoDup (taken (inner (served x))).*1 ∧
  (∀ i, is_Some (cells (served x) !! i) ↔ i ∈ (taken (inner (served x))).*1) ∧
  ∀ i k t, (i, k) ∈ taken (inner (served x)) → cells (served x) !! i = Some t →
    ((i ∈ (under_way x).*1 ∧ completed (events t) = []) ∨
     ((i ∉ (under_way x).*1) ∧ ∃ o u, completed (events t) = [(o, u)] ∧ ident u = k)) ∧
    (status (inner (served x)) ≠ Running → channel (inner (served x)) = [] → due x = [] →
     handle t = true → returned (events t) = [] →
     ∃ o u, ident u = k ∧ ∀ waker, (poll will_wake waker t).1 = Some (o, u)).
Proof.
  destruct (async_reachable_ok e x He Hs) as [[rec Hok] Hn Hc _ Hcell]. split_and!; [done..|].
  intros i k t Hik Hi. destruct (Hcell i t Hi) as (Ht & Hd & Hco).
  assert (∀ o u, (o, u) ∈ completed (events t) → ident u = k) as Hown.
  { intros o u Hin%Hco. by eapply keys_functional. }
  split.
  - destruct (decide (i ∈ (under_way x).*1)) as [Hu|Hu]; [left|right]; (split; [done|]).
    + by apply (in_service_empty will_wake t Ht), Hd.
    + pose proof (tk_completed _ _ Ht) as Hl. destruct (delivering t) eqn:Hdel; [by destruct Hu; apply Hd|..].
      all: destruct (completed (events t)) as [|[o u] [|]]; try done.
      all: exists o, u; (split; [done|]); apply (Hown o u); left.
  - intros Hst Hch Hdue Hh Hr. pose proof (so_settled _ _ _ Hok Hst) as Hse.
    assert (delivering t ≠ InService) as Hdel.
    { intros Hin%Hd. unfold under_way, in_service in Hin.
      rewrite Hdue, Hch, (st_boxes _ _ _ _ Hse), (st_completions _ _ _ _ Hse), map_to_list_empty in Hin. simpl in Hin. set_solver. }
    destruct (outcome_ready will_wake t Ht Hdel Hh Hr) as ([o u] & Ho & Hc1).
    exists o, u. split; [apply (Hown o u); rewrite Hc1; left|]. intros waker. unfold poll. by rewrite Ho.
Qed.

End futures.

(** ** Witness: two transfers, one future polled before its completion *)

Section witnesses.
#[local] Existing Instance example_libfabric.
#[local] Existing Instance tagged.
#[local] Existing Instance tagged_laws.

Inductive async_op : Type :=
  | Begin (request : TransferRequest Z)
  | PollCell (i : nat) (waker : Z)
  | CloseHandle
  | ThreadTurn
  | Deliver.

Abbreviation example_system := (async_system engine Z Z).
Abbreviation example_steps := (async_step id true 1000000000 64 64 Z.of_nat (example_place (T := Awaited Z)) (λ _, 7%Z) Z.eqb).

Definition async_do (op : async_op) (x : example_system) : option example_system :=
  let a := served x in
  match op with
  | Begin request => Some (Build_async_system (transfer id request a).2 (due x))
  | PollCell i waker =>
      t ← cells a !! i;
      if handle t && negb (dropping t) then Some (Build_async_system (with_cell i (poll Z.eqb waker t).2 a) (due x)) else None
  | CloseHandle => Some (Build_async_system (with_inner (close (inner a)) a) (due x))
  | ThreadTurn =>
      s ← thread_step true 1000000000 64 64 Z.of_nat example_place (λ _, 7%Z) (inner a);
      Some (Build_async_system (with_inner s a)
              (due x ++ (drop (length (history (inner a))) (history s) ≫= completes (λ _, 7%Z))))
  | Deliver =>
      match due x with
      | c :: d =>
          t ← cells a !! cell_of (completed_context c);
          Some (Build_async_system
                  (with_cell (cell_of (completed_context c)) (fill (outcome c) (user (completed_context c)) t) a) d)
      | [] => None
      end
  end.

Fixpoint async_run (ops : list async_op) (x : example_system) : option example_system :=
  match ops with
  | [] => Some x
  | op :: ops => x ← async_do op x; async_run ops x
  end.

Lemma async_run_steps ops x x' : async_run ops x = Some x' → rtc example_steps x x'.
Proof.
  revert x. induction ops as [|op ops IH]; intros x; simpl; [by intros [= ->]|].
  intros H. apply bind_Some in H as (x1 & H1 & H). eapply rtc_l; [|by apply IH]. destruct x as [a d].
  destruct op as [request|i waker| | |]; simpl in H1.
  - injection H1 as <-. eapply async_step_transfer, surjective_pairing.
  - apply bind_Some in H1 as (t & Hi & H1). destruct (handle t) eqn:Hh, (dropping t) eqn:Hd; try done.
    injection H1 as <-. by apply async_step_poll.
  - injection H1 as <-. apply async_step_close.
  - apply bind_Some in H1 as (s & Hs & [= <-]). by apply async_step_thread.
  - destruct d as [|c d]; [done|]. apply bind_Some in H1 as (t & Ht & [= <-]).
    by apply (async_step_fill _ _ _ _ _ _ _ _ _ c [] d).
Qed.

Definition futures_script : list async_op :=
  [Begin (example_request 1 11 ToPeer false); Begin (example_request 2 22 (FromPeer 8) true); PollCell 0 5;
   CloseHandle] ++ replicate 17 ThreadTurn ++ [Deliver; Deliver].

Definition example_futures : example_system :=
  default (async_new example_engine) (async_run futures_script (async_new example_engine)).

Lemma every_future_resolves_witness :
  ∃ t, cells (served example_futures) !! 0 = Some t ∧
    ∃ o u, u = 11%Z ∧ ∀ waker, (poll Z.eqb waker t).1 = Some (o, u).
Proof.
  assert (∃ t, cells (served example_futures) !! 0 = Some t ∧ handle t = true ∧ returned (events t) = []) as (t & Hi & Hh & Hr)
    by (vm_compute; eexists; split; [reflexivity|done]).
  exists t. split; [exact Hi|].
  destruct (every_future_resolves id true 1000000000 64 64 Z.of_nat example_place (λ _, 7%Z) Z.eqb
    example_place_fresh example_place_nonnull example_engine example_futures) as (_ & _ & H).
  - vm_compute; reflexivity.
  - apply (async_run_steps futures_script). vm_compute; reflexivity.
  - destruct (H 0 11%Z t ltac:(vm_compute; left) Hi) as [_ Hend].
    apply Hend; [vm_compute; discriminate|vm_compute; reflexivity|vm_compute; reflexivity|exact Hh|exact Hr].
Defined.

End witnesses.
