(* ===== verification/Wrapping.v ===== *)
(** * What is wrapped around a context makes no difference

    A fabric service is generic in its caller's context: it asks it for bytes and hands it
    back.  So the service of [server.rs] over [asynchronous.rs]'s wrapped contexts is the
    plain service, the wrapping apart: every operation commutes with taking it off. *)

From S2P Require Import Prelude Arc Wire Fabric RegionCache Operands PeerAddresses Config Endpoint.
From S2P Require Import Worker FabricTransport Service Asynchronous Futures.

(** A map of contexts that their operands pass through. *)
Class ContextMap {A B} `{Operands A, Operands B} (h : A → B) : Prop := {
  map_source c : source (h c) = source c;
  map_allocate n c : allocate n (h c) = (let '(landing, c) := allocate n c in (landing, h c));
  map_cacheable_span c : cacheable_span (h c) = cacheable_span c;
}.

#[export] Instance user_map `{Operands T} : ContextMap (user (T := T)).
Proof. split; intros; simpl; try done. by destruct (allocate n (user c)). Qed.

(** ** The maps of the service's data *)

Section maps.
  Context {E A B : Type} (h : A → B).

Definition op_map (op : InFlight A) : InFlight B :=
  Build_InFlight (h (caller_context op)) (if_client op) (if_length op) (want_checksum op) (buffer_pointer op)
    (local_lease op) (quiesce op).

Definition completion_map (c : Completion A) : Completion B :=
  Build_Completion (h (completed_context c)) (outcome c).

Definition job_map (x : InFlight A * result () DmaError) : InFlight B * result () DmaError := (op_map x.1, x.2).

Definition effect_map (e : effect A) : effect B :=
  match e with
  | Accepted c => Accepted c
  | Finished c => Finished c
  | Released c => Released c
  | CompleteBatch batch => CompleteBatch (completion_map <$> batch)
  | PoolJob batch => PoolJob (job_map <$> batch)
  | Replied reply answer => Replied reply answer
  end.

Definition message_map (m : WorkerMessage A) : WorkerMessage B :=
  match m with
  | Transfer request => Transfer (map_context h request)
  | AddPeer client address reply => AddPeer client address reply
  | RemovePeer client => RemovePeer client
  | Register base length reply => Register base length reply
  end.

Definition accounts_map (a : accounts E A) : accounts E B :=
  Build_accounts (transport a) (outstanding_by_client a) (pending_removal a) (outstanding a) (effect_map <$> log a).

Definition worker_map (w : worker E A) : worker E B :=
  Build_worker (accounts_map (acc w)) (op_map <$> boxes w) (pending w) (quiescing w) (in_flight w)
    (completion_map <$> completions w) (crc_pending w) (drain_spins w) (disconnected w) (ticks w).

Definition service_map {K1 K2} (g : K1 → K2) (s : service E A K1) : service E B K2 :=
  Build_service (sender s) (message_map <$> channel s) (worker_map (thread s)) (status s) (g <$> taken s).

End maps.

(** ** Each operation commutes with them *)

Section commute.
  Context {E A B : Type} `{!Transport E, !Operands A, !Operands B} (h : A → B) `{!ContextMap h}.
  Variables (quiesce_writes : bool) (progress_deadline : Z) (cap : nat) (quiesce_pointer : Z).
  Variables (clock : nat → Z) (place : gmap Z (InFlight B) → Z) (crc : slice → Z).
  Implicit Types (w : worker E A) (a : accounts E A).

  Abbreviation wm := (worker_map h).
  Abbreviation am := (accounts_map h).

(** Where a box goes depends on the boxes there are, not on what is in them. *)
Definition place_under (m : gmap Z (InFlight A)) : Z := place (op_map h <$> m).

Lemma emit_map e a : am (emit e a) = emit (effect_map h e) (am a).
Proof. unfold emit, accounts_map. simpl. by rewrite fmap_app. Qed.

Lemma reclaim_map b w : reclaim b (wm w) = op_map h <$> reclaim b w.
Proof. apply lookup_fmap. Qed.

Lemma with_boxes_insert_map b op w :
  with_boxes (<[b := op_map h op]> (boxes (wm w))) (wm w) = wm (with_boxes (<[b := op]> (boxes w)) w).
Proof. unfold worker_map. simpl. by rewrite fmap_insert. Qed.

Lemma complete_map b r w :
  complete crc b r (wm w) = (λ '(c, w), (completion_map h c, wm w)) <$> complete crc b r w.
Proof.
  unfold complete. rewrite reclaim_map. destruct (reclaim b w) as [op|]; [|done]. simpl. do 2 f_equal.
  unfold worker_map. simpl. by rewrite fmap_delete.
Qed.

Lemma release_peer_map c a : release_peer c (am a) = am (release_peer c a).
Proof. unfold release_peer. by rewrite emit_map. Qed.

Lemma finish_op_map c a : finish_op c (am a) = am <$> finish_op c a.
Proof.
  unfold finish_op. change (release_outstanding (am a)) with (am (release_outstanding a)).
  change (emit (Finished c) (am ?x)) with (emit (effect_map h (Finished c)) (am x)). rewrite <-emit_map.
  set (a1 := emit (Finished c) (release_outstanding a)). change (outstanding_by_client (am a1)) with (outstanding_by_client a1).
  destruct (outstanding_by_client a1 !! c) as [[|n]|]; simpl; [done|..].
  all: repeat case_decide; simpl; try done; f_equal; by rewrite <-release_peer_map.
Qed.

Lemma finish_unreaped_map b error w :
  finish_unreaped crc b error (wm w) = wm <$> finish_unreaped crc b error w.
Proof.
  unfold finish_unreaped. rewrite reclaim_map. destruct (reclaim b w) as [op|]; [|done]. simpl.
  rewrite complete_map. destruct (complete crc b (Err error) w) as [[c w1]|]; [|done]. simpl.
  rewrite finish_op_map. destruct (finish_op _ _) as [a|]; [|done]. simpl. f_equal.
  unfold worker_map. simpl. by rewrite fmap_app.
Qed.

(** ** Posting *)

Lemma post_resolved_map p peer op w :
  post_resolved p peer op (wm w) = (λ '(c, w), (c, wm w)) <$> post_resolved p peer op w.
Proof.
  unfold post_resolved. change (endpoint_of (wm w)) with (endpoint_of w).
  destruct (match p_direction p with ToPeer => _ | FromPeer _ => _ end) as [code e]. destruct (code =? 0)%Z; [|done].
  change (with_endpoint e (wm w)) with (wm (with_endpoint e w)). rewrite reclaim_map.
  destruct (reclaim (context p) (with_endpoint e w)) as [inflight|]; [|done]. simpl. do 2 f_equal.
  unfold worker_map. simpl. by rewrite fmap_insert.
Qed.

Lemma post_map p w : post p (wm w) = (λ '(r, w), (r, wm w)) <$> post p w.
Proof.
  unfold post. change (endpoint_of (wm w)) with (endpoint_of w).
  destruct (t_insert_peer _ _ _) as [[peer|error] e1]; [|done].
  change (with_endpoint e1 (wm w)) with (wm (with_endpoint e1 w)). rewrite reclaim_map.
  destruct (reclaim (context p) (with_endpoint e1 w)) as [inflight|]; [|done]. simpl.
  rewrite map_cacheable_span. change (endpoint_of (wm (with_endpoint e1 w))) with (endpoint_of (with_endpoint e1 w)).
  destruct (t_local_operand _ _ _ _) as [[op|error] e2]; [|done].
  change (with_endpoint e2 (wm ?x)) with (wm (with_endpoint e2 x)). rewrite post_resolved_map.
  by destruct (post_resolved p peer op _) as [[code w1]|].
Qed.

Lemma stalled_map since w :
  stalled progress_deadline clock since (wm w) = (let '(t, wait, w) := stalled progress_deadline clock since w in (t, wait, wm w)).
Proof. unfold stalled, now. by destruct since. Qed.

(** Failing an operation in a turn of a loop. *)
Lemma failed_map b error w :
  (w ← finish_unreaped crc b error (wm w); Some (w, 0)) =
  (λ '(w, n), (wm w, n)) <$> (w ← finish_unreaped crc b error w; Some (w, 0)).
Proof. rewrite finish_unreaped_map. by destruct (finish_unreaped _ _ _ _). Qed.

Lemma post_one_map w :
  post_one progress_deadline clock crc (wm w) = (λ '(w, n), (wm w, n)) <$> post_one progress_deadline clock crc w.
Proof.
  unfold post_one. change (pending (wm w)) with (pending w). destruct (pending w) as [|p rest]; [done|].
  change (with_pending rest (wm w)) with (wm (with_pending rest w)). rewrite post_map.
  destruct (post p (with_pending rest w)) as [[r w1]|]; [|done]. simpl.
  destruct r as [code|error]; [|apply failed_map]. destruct (code =? 0)%Z; [done|].
  destruct (code =? t_again)%Z; [|apply failed_map]. rewrite stalled_map.
  destruct (stalled _ _ _ _) as [[since wait] w2]. destruct wait; [done|apply failed_map].
Qed.

Lemma post_loop_map attempts w :
  post_loop progress_deadline cap clock crc attempts (wm w) =
  (λ '(w, n), (wm w, n)) <$> post_loop progress_deadline cap clock crc attempts w.
Proof.
  revert w. induction attempts as [|attempts IH]; intros w; [done|]. simpl. change (in_flight (wm w)) with (in_flight w).
  destruct (_ <? _); [|done]. rewrite post_one_map. destruct (post_one _ _ _ w) as [[w1 n1]|]; [|done]. simpl.
  rewrite IH. by destruct (post_loop _ _ _ _ _ w1) as [[w2 n2]|].
Qed.

(** ** Reaping and quiescing *)

Lemma reap_one_map x w : reap_one crc x (wm w) = wm <$> reap_one crc x w.
Proof.
  destruct x as [b r]. cbn [reap_one]. rewrite reclaim_map. destruct (reclaim b w) as [op|]; [|done]. simpl.
  destruct (if is_ok r then quiesce op else None) as [read|]; simpl.
  { f_equal. unfold worker_map. simpl. by rewrite fmap_insert. }
  rewrite finish_op_map. destruct (finish_op _ _) as [a|]; [|done]. simpl. destruct (want_checksum op); [done|].
  change (with_acc (am a) (wm w)) with (wm (with_acc a w)). rewrite complete_map.
  destruct (complete crc b r (with_acc a w)) as [[c w1]|]; [|done]. simpl. f_equal.
  unfold worker_map. simpl. by rewrite fmap_app.
Qed.

Lemma reap_each_map l w : reap_each crc l (wm w) = wm <$> reap_each crc l w.
Proof.
  revert w. induction l as [|x l IH]; intros w; [done|]. cbn [reap_each]. rewrite reap_one_map.
  destruct (reap_one crc x w) as [w1|]; [|done]. apply IH.
Qed.

Lemma reap_pass_map w : reap_pass crc (wm w) = (λ '(w, any), (wm w, any)) <$> reap_pass crc w.
Proof.
  unfold reap_pass. change (endpoint_of (wm w)) with (endpoint_of w). destruct (t_reap _ _) as [[r reaped] e].
  change (with_in_flight _ (with_endpoint e (wm w))) with (wm (with_in_flight (in_flight w - length reaped) (with_endpoint e w))).
  rewrite reap_each_map. by destruct (reap_each _ _ _).
Qed.

Lemma post_quiesce_map waiting w :
  post_quiesce quiesce_pointer waiting (wm w) = (λ '(p, w), (p, wm w)) <$> post_quiesce quiesce_pointer waiting w.
Proof.
  unfold post_quiesce. rewrite reclaim_map. destruct (reclaim _ w) as [inflight|]; [|done]. simpl.
  change (endpoint_of (wm w)) with (endpoint_of w). destruct (t_insert_peer _ _ _) as [[peer|error] e1]; [|done].
  change (endpoint_of (with_endpoint e1 (wm w))) with e1. change (endpoint_of (with_endpoint e1 w)) with e1.
  destruct (t_local_operand _ _ _ _) as [[op|error] e2]; [|done].
  set (w3 := with_boxes _ (with_endpoint _ (with_endpoint e2 (with_endpoint e1 w)))).
  set (w3' := with_boxes _ (with_endpoint _ (with_endpoint e2 (with_endpoint e1 (wm w))))).
  assert (w3' = wm w3) as ->.
  { unfold w3, w3', worker_map. simpl. by rewrite fmap_insert. }
  change (endpoint_of (wm w3)) with (endpoint_of w3). destruct (t_post_in _ _ _ _ _ _ _) as [code e].
  destruct (code =? 0)%Z; [done|]. by destruct (code =? t_again)%Z.
Qed.

Lemma quiesce_one_map w :
  quiesce_one progress_deadline quiesce_pointer clock crc (wm w) =
  (λ '(w, n), (wm w, n)) <$> quiesce_one progress_deadline quiesce_pointer clock crc w.
Proof.
  unfold quiesce_one. change (quiescing (wm w)) with (quiescing w). destruct (quiescing w) as [|waiting rest]; [done|].
  change (with_quiescing rest (wm w)) with (wm (with_quiescing rest w)). rewrite post_quiesce_map.
  destruct (post_quiesce _ _ _) as [[p w1]|]; [|done]. simpl.
  destruct p as [|waiting'|b error]; [done| |apply failed_map]. rewrite stalled_map.
  destruct (stalled _ _ _ _) as [[since wait] w2]. destruct wait; [done|apply failed_map].
Qed.

Lemma quiesce_loop_map attempts w :
  quiesce_loop progress_deadline quiesce_pointer clock crc attempts (wm w) =
  (λ '(w, n), (wm w, n)) <$> quiesce_loop progress_deadline quiesce_pointer clock crc attempts w.
Proof.
  revert w. induction attempts as [|attempts IH]; intros w; [done|]. simpl. rewrite quiesce_one_map.
  destruct (quiesce_one _ _ _ _ w) as [[w1 n1]|]; [|done]. simpl.
  rewrite IH. by destruct (quiesce_loop _ _ _ _ _ w1) as [[w2 n2]|].
Qed.

(** ** Intake *)

Definition refused_map (r : result Prepared (Completion A)) : result Prepared (Completion B) :=
  match r with Ok p => Ok p | Err c => Err (completion_map h c) end.

Lemma resolve_operand_map d c :
  resolve_operand d (h c) = (let '(operand, c) := resolve_operand d c in (operand, h c)).
Proof.
  unfold resolve_operand. destruct d as [|n]; [by rewrite map_source|]. rewrite map_allocate.
  by destruct (allocate n c) as [landing c'].
Qed.

Lemma prepare_map request m :
  prepare quiesce_writes place (map_context h request) (op_map h <$> m) =
  (let '(r, m) := prepare quiesce_writes place_under request m in (refused_map r, op_map h <$> m)).
Proof.
  unfold prepare. change (direction (map_context h request)) with (direction request).
  change (request_context (map_context h request)) with (h (request_context request)). rewrite resolve_operand_map.
  destruct (resolve_operand _ _) as [[[pointer length]|error] ctx]; [|done].
  change (quiesce_read quiesce_writes (map_context h request) length) with (quiesce_read quiesce_writes request length).
  destruct (quiesce_read _ _ _) as [read|error]; [|done]. by rewrite fmap_insert.
Qed.

Lemma accept_map request w :
  accept quiesce_writes place (map_context h request) (wm w) = wm (accept quiesce_writes place_under request w).
Proof.
  unfold accept. change (boxes (wm w)) with (op_map h <$> boxes w). rewrite prepare_map.
  destruct (prepare _ _ _ _) as [[p|completion] m]; unfold worker_map, accounts_map; simpl; by rewrite fmap_app.
Qed.

Lemma receive_map m w :
  receive quiesce_writes place (message_map h m) (wm w) = wm (receive quiesce_writes place_under m w).
Proof.
  destruct m as [request|client address reply|client|base length reply]; simpl.
  - apply accept_map.
  - change (endpoint_of (wm w)) with (endpoint_of w).
    destruct (t_insert_peer _ _ _) as [[peer|error] e]; unfold worker_map, accounts_map; simpl; by rewrite fmap_app.
  - assert (∀ a, remove_or_defer client (am a) = am (remove_or_defer client a)) as Hr.
    { intros a. unfold remove_or_defer. change (outstanding_by_client (am a)) with (outstanding_by_client a).
      case_decide; [apply release_peer_map|done]. }
    change (acc (wm w)) with (am (acc w)). by rewrite Hr.
  - change (endpoint_of (wm w)) with (endpoint_of w).
    destruct (t_pin_region _ _ _) as [r e]; unfold worker_map, accounts_map; simpl; by rewrite fmap_app.
Qed.

Lemma intake_map messages closed w :
  intake quiesce_writes place (message_map h <$> messages) closed (wm w) =
  wm (intake quiesce_writes place_under messages closed w).
Proof.
  unfold intake.
  assert (∀ w, foldl (λ (w : worker E B) m, receive quiesce_writes place m w) (wm w) (message_map h <$> messages) =
    wm (foldl (λ w m, receive quiesce_writes place_under m w) w messages)) as ->; [|by destruct closed].
  induction messages as [|m messages IH]; intros w1; [done|]. simpl. by rewrite receive_map.
Qed.

(** ** The end of a pass *)

Lemma progress_map w :
  progress progress_deadline cap quiesce_pointer clock crc (wm w) =
  (λ '(w, n, any), (wm w, n, any)) <$> progress progress_deadline cap quiesce_pointer clock crc w.
Proof.
  unfold progress. change (pending (wm w)) with (pending w). rewrite post_loop_map.
  destruct (post_loop _ _ _ _ _ w) as [[w1 n1]|]; [|done]. simpl. rewrite reap_pass_map.
  destruct (reap_pass crc w1) as [[w2 any]|]; [|done]. simpl. change (quiescing (wm w2)) with (quiescing w2).
  rewrite quiesce_loop_map. by destruct (quiesce_loop _ _ _ _ _ w2) as [[w3 n3]|].
Qed.

Lemma take_boxes_map l w :
  take_boxes l (wm w) = (λ x : list (InFlight A * result () DmaError) * worker E A, (job_map h <$> x.1, wm x.2)) <$> take_boxes l w.
Proof.
  revert w. induction l as [|[b r] l IH]; intros w; [done|]. cbn [take_boxes]. rewrite reclaim_map.
  destruct (reclaim b w) as [op|]; [|done]. simpl.
  assert (with_boxes (delete b (boxes (wm w))) (wm w) = wm (with_boxes (delete b (boxes w)) w)) as Hd
    by (unfold worker_map; simpl; by rewrite fmap_delete).
  simpl in Hd. rewrite Hd, IH. by destruct (take_boxes l _) as [[ops w1]|].
Qed.

Lemma submit_crc_batch_map w : submit_crc_batch (wm w) = wm <$> submit_crc_batch w.
Proof.
  unfold submit_crc_batch. change (crc_pending (wm w)) with (crc_pending w).
  change (with_crc_pending [] (wm w)) with (wm (with_crc_pending [] w)). rewrite take_boxes_map.
  destruct (take_boxes _ _) as [[ops w1]|]; [|done]. simpl. f_equal. unfold worker_map, accounts_map. simpl.
  by rewrite fmap_app.
Qed.

Lemma fmap_nil_ne {X Y} (f : X → Y) (l : list X) : bool_decide (f <$> l ≠ []) = bool_decide (l ≠ []).
Proof. by destruct l. Qed.

Lemma after_progress_map n any w :
  after_progress n any (wm w) = (λ '(w, t), (wm w, t)) <$> after_progress n any w.
Proof.
  unfold after_progress. change (idle (wm w)) with (idle w). change (crc_pending (wm w)) with (crc_pending w).
  assert ((if should_flush_crc (length (crc_pending w)) n any (idle w) then submit_crc_batch (wm w) else Some (wm w)) =
    wm <$> (if should_flush_crc (length (crc_pending w)) n any (idle w) then submit_crc_batch w else Some w)) as ->
    by (destruct (should_flush_crc _ _ _ _); [apply submit_crc_batch_map|done]).
  destruct (if should_flush_crc _ _ _ _ then _ else _) as [w1|]; [|done]. simpl.
  rewrite fmap_nil_ne, length_fmap. destruct (_ && _ && _); [done|].
  assert ((if bool_decide (completions w1 ≠ []) then flush_completions (wm w1) else wm w1) =
    wm (if bool_decide (completions w1 ≠ []) then flush_completions w1 else w1)) as ->; [|done].
  case_bool_decide; [|done]. unfold flush_completions, worker_map, accounts_map. simpl. by rewrite fmap_app.
Qed.

Lemma pass_map messages closed w :
  pass quiesce_writes progress_deadline cap quiesce_pointer clock place crc (message_map h <$> messages) closed (wm w) =
  (λ '(w, t), (wm w, t)) <$>
    pass quiesce_writes progress_deadline cap quiesce_pointer clock place_under crc messages closed w.
Proof.
  unfold pass. rewrite intake_map, progress_map. destruct (progress _ _ _ _ _ _) as [[[w1 n] any]|]; [|done].
  apply after_progress_map.
Qed.

Lemma complete_all_map l w :
  complete_all crc l (wm w) = (λ x : list (Completion A) * worker E A, (completion_map h <$> x.1, wm x.2)) <$> complete_all crc l w.
Proof.
  revert w. induction l as [|[b r] l IH]; intros w; [done|]. cbn [complete_all]. rewrite complete_map.
  destruct (complete crc b r w) as [[c w1]|]; [|done]. simpl. rewrite IH.
  by destruct (complete_all crc l w1) as [[cs w2]|].
Qed.

Lemma shutdown_map w : shutdown crc (wm w) = wm <$> shutdown crc w.
Proof.
  unfold shutdown. change (pending (wm w)) with (pending w). change (crc_pending (wm w)) with (crc_pending w).
  change (with_crc_pending [] (with_pending [] (wm w))) with (wm (with_crc_pending [] (with_pending [] w))).
  rewrite complete_all_map. destruct (complete_all _ _ _) as [[leftover w1]|]; [|done]. simpl.
  rewrite fmap_nil_ne. case_bool_decide; [|done]. f_equal. unfold worker_map, accounts_map. simpl. by rewrite fmap_app.
Qed.

(** ** The service *)

  Context {K1 K2 : Type} (ident1 : A → K1) (ident2 : B → K2) (g : K1 → K2).
  Implicit Types (s : service E A K1).
  Abbreviation sm := (service_map h g).

Definition returned_map (r : result () (TransferRequest A)) : result () (TransferRequest B) :=
  match r with Ok u => Ok u | Err request => Err (map_context h request) end.

Lemma send_map m s : send (message_map h m) (sm s) = sm <$> send m s.
Proof.
  unfold send. change (status (sm s)) with (status s). destruct (status s); [|..|done]; simpl; f_equal;
    unfold service_map; simpl; by rewrite fmap_app.
Qed.

Lemma submit_map request s (Hname : ident2 (h (request_context request)) = g (ident1 (request_context request))) :
  submit ident2 (map_context h request) (sm s) =
  (let '(r, s) := submit ident1 request s in (returned_map r, sm s)).
Proof.
  unfold submit. change (sender (sm s)) with (sender s). destruct (negb (sender s)); [done|].
  change (with_thread (bump S (thread (sm s))) (sm s)) with (sm (with_thread (bump S (thread s)) s)).
  change (Transfer (map_context h request)) with (message_map h (Transfer request)). rewrite send_map.
  destruct (send _ _) as [s1|]; [|done]. simpl. f_equal. unfold service_map. simpl. rewrite fmap_app. simpl. by rewrite Hname.
Qed.

Lemma add_peer_map client address reply s :
  add_peer client address reply (sm s) = (let '(r, s) := add_peer client address reply s in (r, sm s)).
Proof.
  unfold add_peer. change (sender (sm s)) with (sender s). destruct (negb (sender s)); [done|].
  change (AddPeer client address reply) with (message_map h (AddPeer client address reply)) at 1. rewrite send_map.
  by destruct (send _ _).
Qed.

Lemma remove_peer_map client s : remove_peer client (sm s) = sm (remove_peer client s).
Proof.
  unfold remove_peer. change (sender (sm s)) with (sender s). destruct (negb (sender s)); [done|].
  change (RemovePeer client) with (message_map h (RemovePeer client)) at 1. rewrite send_map. by destruct (send _ _).
Qed.

Lemma register_storage_map base length reply s :
  register_storage base length reply (sm s) = (let '(r, s) := register_storage base length reply s in (r, sm s)).
Proof.
  unfold register_storage. change (sender (sm s)) with (sender s). destruct (0 =? length)%Z; [done|].
  destruct (checked_add base length); [|done]. destruct (negb (sender s)); [done|].
  change (Register base length reply) with (message_map h (Register base length reply)) at 1. rewrite send_map.
  by destruct (send _ _).
Qed.

Lemma thread_step_map s :
  thread_step quiesce_writes progress_deadline cap quiesce_pointer clock place crc (sm s) =
  sm <$> thread_step quiesce_writes progress_deadline cap quiesce_pointer clock place_under crc s.
Proof.
  unfold thread_step. change (status (sm s)) with (status s). destruct (status s); [| |done].
  - change (channel (sm s)) with (message_map h <$> channel s). change (sender (sm s)) with (sender s).
    change (thread (sm s)) with (wm (thread s)). rewrite pass_map.
    destruct (pass _ _ _ _ _ _ _ _ _) as [[w t]|]; [|done]. destruct t; simpl; [done|done|].
    rewrite shutdown_map. by destruct (shutdown crc w).
  - change (channel (sm s)) with (message_map h <$> channel s). change (sender (sm s)) with (sender s).
    destruct (channel s) as [|m rest]; simpl.
    + destruct (sender s); [done|]. change (thread (sm s)) with (wm (thread s)). rewrite shutdown_map.
      by destruct (shutdown crc (thread s)).
    + change (thread (sm s)) with (wm (thread s)). by rewrite receive_map.
Qed.

End commute.

(** ** The asynchronous service is the plain one *)

Section asynchronous.
  Context {E T K : Type} `{!Transport E, !Operands T} (ident : T → K).
  Variables (quiesce_writes : bool) (progress_deadline : Z) (cap : nat) (quiesce_pointer : Z).
  Variables (clock : nat → Z) (place : gmap Z (InFlight T) → Z) (crc : slice → Z) (will_wake : Z → Z → bool).
  Implicit Types (s : service E T K) (x : async_system E T K).

  Abbreviation plain_step := (service_step ident quiesce_writes progress_deadline cap quiesce_pointer clock place crc).
  Abbreviation wrapped_step := (async_step ident quiesce_writes progress_deadline cap quiesce_pointer clock
    (place_under (user (T := T)) place) crc will_wake).

(** The service inside, its contexts unwrapped. *)
Definition unwrapped x : service E T K := service_map user snd (inner (served x)).

(** [transfer] is [submit]. *)
Lemma transfer_map request (a : async_service E T K) :
  submit ident request (service_map user snd (inner a)) =
  (let '(r, a) := transfer ident request a in
   (match r with Ok _ => Ok tt | Err back => Err back end, service_map user snd (inner a))).
Proof.
  unfold transfer. set (i := fresh (dom (cells a))). rewrite <-(map_context_id request i) at 1.
  rewrite (submit_map user (named ident) ident snd) by done.
  by destruct (submit (named ident) _ (inner a)) as [[[]|back] s].
Qed.

Lemma wrapped_step_plain x x' : wrapped_step x x' → rtc plain_step (unwrapped x) (unwrapped x').
Proof.
  unfold unwrapped. intros Hstep.
  destruct Hstep as [request r a a' d Ha|base length reply r a a' d Ha|client address reply r a a' d Ha|client a d|a d
    |s a d Hs|c d1 d2 t a Hi|i waker t a d Hi Hh|i t a d Hi Hh|i t a d Hi Hh|i waker t a d Hi Hd|i waker t a d Hi Hd]; simpl; try done;
    apply rtc_once.
  - pose proof (transfer_map request a) as H. rewrite Ha in H. by eapply step_submit.
  - unfold async_register in Ha. pose proof (register_storage_map user snd base length reply (inner a)) as H.
    destruct (register_storage base length reply (inner a)) as [r1 s]. injection Ha as <- <-. by eapply step_register.
  - unfold async_add_peer in Ha. pose proof (add_peer_map user snd client address reply (inner a)) as H.
    destruct (add_peer client address reply (inner a)) as [r1 s]. injection Ha as <- <-. by eapply step_add_peer.
  - rewrite <-remove_peer_map. apply step_remove_peer.
  - change (service_map user snd (close (inner a))) with (close (service_map user snd (inner a))). apply step_close.
  - apply step_thread. by rewrite (thread_step_map user), Hs.
Qed.

Lemma plain_step_wrapped x s : plain_step (unwrapped x) s → ∃ x', wrapped_step x x' ∧ unwrapped x' = s.
Proof.
  destruct x as [a d]. unfold unwrapped. simpl. intros Hstep. remember (service_map user snd (inner a)) as s0 eqn:Hs0.
  destruct Hstep as [request r s0 s Hs|client address reply r s0 s Hs|client s0|base length reply r s0 s Hs|s0|s0 s Hs]; subst s0.
  - rewrite transfer_map in Hs. destruct (transfer ident request a) as [r1 a1] eqn:Ha. injection Hs as _ <-.
    eexists. split; [by eapply async_step_transfer|done].
  - rewrite add_peer_map in Hs. destruct (add_peer client address reply (inner a)) as [r1 s1] eqn:Ha. injection Hs as _ <-.
    exists (Build_async_system (with_inner s1 a) d). split; [|done]. apply (async_step_add_peer _ _ _ _ _ _ _ _ _ client address reply r1).
    unfold async_add_peer. by rewrite Ha.
  - exists (Build_async_system (async_remove_peer client a) d). split; [apply async_step_remove_peer|]. simpl. by rewrite remove_peer_map.
  - rewrite register_storage_map in Hs. destruct (register_storage base length reply (inner a)) as [r1 s1] eqn:Ha. injection Hs as _ <-.
    exists (Build_async_system (with_inner s1 a) d). split; [|done]. apply (async_step_register _ _ _ _ _ _ _ _ _ base length reply r1).
    unfold async_register. by rewrite Ha.
  - eexists. split; [apply async_step_close|done].
  - rewrite (thread_step_map user) in Hs. destruct (thread_step _ _ _ _ _ _ _ (inner a)) as [s1|] eqn:Ha; [|done]. injection Hs as <-.
    eexists. split; [by apply async_step_thread|done].
Qed.

(** C11: The asynchronous service is the plain one.  Whatever its callers, futures and
    deliveries do, the asynchronous service's contexts unwrapped, it is in a state the
    plain service can reach with the same calls, every outcome and effect alike; and it
    can be brought to every such state. *)
Theorem asynchronous_is_plain e s :
  rtc plain_step (service_new e) s ↔
  ∃ x, rtc wrapped_step (async_new e) x ∧ unwrapped x = s.
Proof.
  split.
  - intros Hs. change (service_new e) with (unwrapped (async_new e)) in Hs. revert Hs.
    generalize (async_new (T := T) (K := K) e) as x. intros x. remember (unwrapped x) as s0 eqn:Hs0. intros Hs. revert x Hs0.
    induction Hs as [s|s1 s2 s3 Hstep _ IH]; intros x ->; [by exists x|].
    destruct (plain_step_wrapped x s2 Hstep) as (x2 & Hx & <-). destruct (IH x2 eq_refl) as (x3 & Hx3 & <-).
    exists x3. split; [by eapply rtc_l|done].
  - intros (x & Hx & <-). change (service_new e) with (unwrapped (async_new e)).
    induction Hx as [|x1 x2 x3 Hstep%wrapped_step_plain _ IH]; [done|]. by etrans.
Qed.

End asynchronous.
