(* ===== verification/Start.v ===== *)
(** * Starting a service

    [FabricService::start] and the opening of [worker_main]: the worker thread opens its
    endpoint, pins the quiesce buffer and reads its own address before it says it is
    ready; a failure anywhere leaves nothing open. *)

From S2P Require Import Prelude Arc Wire Fabric RegionCache Operands PeerAddresses Config Endpoint.
From S2P Require Import Worker FabricTransport Service.

Section start.
  Context `{Libfabric, LibfabricFlags, FabricSetup} {T K : Type}.

(** The worker's quiesce buffer, [[0u8; 8]]. *)
Definition quiesce_len : Z := 8.

(** [worker_main] up to its answer.  When something fails after [open], the closure that
    owns the endpoint drops it. *)
Definition worker_boot (configuration : Configuration) (quiesce_pointer : Z)
    (ev : list setup_event) (c : cache) (tr : trace) :
    result (engine * list u8) DmaError * list setup_event * cache * trace :=
  match open configuration (bind configuration) ev with
  | (Err error, ev) => (Err error, ev, c, tr)
  | (Ok e, ev) =>
      let '(pinned, c, tr) :=
        if quiesce_writes configuration then pin_region quiesce_pointer quiesce_len e c tr
        else (Ok tt, c, tr) in
      match (let? _ := pinned in local_address e) with
      | Ok address => (Ok (Engine e c tr, address), ev, c, tr)
      | Err error =>
          let '(_, c, tr) := endpoint_close e c tr in
          (Err error, ev ++ match info e with Some _ => [FreeInfo] | None => [] end, c, tr)
      end
  end.

(** The name of the [index]th worker thread. *)
Definition fabric_thread_name (index : nat) : string := "fabric-" +:+ two_digits index.

(** What [start] makes of waiting for the worker's answer. *)
Definition ready (waited : option (result (list u8) DmaError)) : result (list u8) DmaError :=
  match waited with
  | Some r => r
  | None => Err (Fabric "fabric worker exited before signalling readiness")
  end.

(** [FabricService::start]: the address, the cap the worker runs with, and the service.
    [spawned] is the thread builder's answer. *)
Definition start (spawned : result () string) (configuration : Configuration) (quiesce_pointer : Z)
    (ev : list setup_event) (c : cache) (tr : trace) :
    result (list u8 * nat * service engine T K) DmaError * list setup_event * cache * trace :=
  match spawned with
  | Err error => (Err (Fabric ("failed to spawn fabric worker: " +:+ error)), ev, c, tr)
  | Ok _ =>
      let '(booted, ev, c, tr) := worker_boot configuration quiesce_pointer ev c tr in
      (let? address := ready (Some (result_map snd booted)) in
       let? served := booted in
       Ok (address,
           Z.to_nat (in_flight_cap (max_tx (e_endpoint served.1)) (max_in_flight configuration)),
           service_new served.1),
       ev, c, tr)
  end.

End start.

Section starting.
  Context `{Libfabric, LibfabricFlags, FabricSetup} {T K : Type}.

Lemma in_flight_cap_bounds max_tx configured :
  (0 ≤ max_tx)%Z →
  (1 ≤ in_flight_cap max_tx configured)%Z ∧
  (max_tx ≠ 0 → in_flight_cap max_tx configured ≤ max_tx)%Z ∧
  (∀ n, configured = Some n → 0 < n → in_flight_cap max_tx configured ≤ n)%Z.
Proof.
  intros Hm. unfold in_flight_cap. destruct (Z.eqb_spec max_tx 0); destruct configured as [m|]; simpl;
    split_and!; intros; simplify_eq; lia.
Qed.

Lemma pin_err d b n c L tr error c' tr' :
  cache_ok c L tr → pin d b n c tr = (Err error, c', tr') → c' = c ∧ cache_ok c L tr'.
Proof.
  intros Hc. unfold pin. destruct (checked_add b n) as [limit|]; [|by intros [= _ <- <-]].
  unfold register. destruct (fi_mr_reg tr d b n) as [code mr].
  destruct (check code _) as [[]|error']; simpl.
  - destruct (registration_new mr c). destruct (track _ _ _ _ _ _). by destruct (RegionCache.release _ _ _).
  - intros [= _ <- <-]. split; [done|]. eapply cache_ok_grows; [done|]. by eexists.
Qed.

(** What pinning the quiesce buffer leaves. *)
Lemma pin_region_ok b n e c L tr r c' tr' :
  cache_ok c L tr → pin_region b n e c tr = (r, c', tr') →
  made memory_call tr tr' ∧ cache_ok c' L tr' ∧
  (∀ d' b', d' ≠ local_regions e → view (registry c') d' b' = view (registry c) d' b') ∧
  (is_ok r = true → requires_local_mr e = true → ∃ x, re_end x = (b + n)%Z ∧
     ∀ d' b', view (registry c') d' b' =
       if decide (d' = local_regions e ∧ b' = b) then Some x else view (registry c) d' b').
Proof.
  intros Hc. unfold pin_region. destruct (requires_local_mr e); simpl.
  - intros Hp. pose proof (pin_memory_calls _ _ _ _ _ _ _ _ Hp). destruct r as [[]|].
    + destruct (pin_ok _ _ _ _ _ _ _ _ Hc Hp) as [Hc' (x & Hx & Hv)]. split_and!; [done..| |eauto].
      intros d' b' Hd. rewrite Hv. by rewrite decide_False by naive_solver.
    + destruct (pin_err _ _ _ _ _ _ _ _ _ Hc Hp) as [-> Hc']. by split_and!.
  - intros [= <- <- <-]. split_and!; [apply made_refl|done..].
Qed.

(** The objects a stretch of calls closes. *)
Definition shut (tr : trace) : list Z :=
  omap (λ call, match call with Close object => Some object | _ => None end) tr.

Lemma shut_app tr1 tr2 : shut (tr1 ++ tr2) = shut tr1 ++ shut tr2.
Proof. apply omap_app. Qed.

Lemma shut_MrClose mrs : shut (MrClose <$> mrs) = [].
Proof. by induction mrs. Qed.

Lemma shut_close_objects e : shut (close_objects e) = reverse (holdings e).
Proof.
  unfold close_objects, holdings. rewrite !filter_cons, filter_nil. repeat case_decide; done.
Qed.

Lemma quietly_shut tr tr' : quietly tr tr' → ∃ more, tr' = tr ++ more ∧ shut more = [].
Proof.
  intros (more & -> & Hq). exists more. split; [done|]. induction Hq as [|[] more Hc _ IH]; done.
Qed.

(** Closing an endpoint nobody has used: the registrations, then the objects. *)
Lemma endpoint_close_unused e c L tr e' c' tr' av format :
  cache_ok c L tr → peer_addresses e = peers_new av format →
  endpoint_close e c tr = (e', c', tr') →
  (∃ more, tr' = tr ++ more ∧ shut more = reverse (holdings e)) ∧
  ∀ d b, view (registry c') d b = if decide (d = local_regions e) then None else view (registry c) d b.
Proof.
  intros Hc Hp. unfold endpoint_close. destruct (Operands.clear _ c tr) as [c1 tr1] eqn:E1.
  destruct (clear_cache_ok _ _ _ _ _ _ Hc E1) as (_ & [mrs ->] & Hview). rewrite Hp. unfold PeerAddresses.clear, drop_entries.
  cbn [by_client peers_new]. rewrite map_to_list_empty. simpl. intros [= _ <- <-]. split; [|done]. exists ((MrClose <$> mrs) ++ close_objects e).
  split; [by rewrite ?app_nil_r, (assoc_L (++))|]. by rewrite shut_app, shut_MrClose, shut_close_objects.
Qed.

(** A service that starts is a new one on an endpoint just opened; only registering its
    buffer has made calls. *)
Lemma start_cases spawned configuration quiesce_pointer c L tr address cap (s : service engine T K) ev' c' tr' :
  cache_ok c L tr →
  start spawned configuration quiesce_pointer [] c tr = (Ok (address, cap, s), ev', c', tr') →
  ∃ e, s = service_new e ∧ made memory_call tr (e_trace e) ∧
    ∃ ev1, open configuration (bind configuration) [] = (Ok (e_endpoint e), ev1).
Proof.
  intros Hc. unfold start. destruct spawned as [[]|]; [|done]. unfold worker_boot.
  destruct (open _ _ _) as [[e|error] ev1]; [|done].
  destruct (if quiesce_writes configuration then _ else _) as [[pinned c1] tr1] eqn:Ep.
  assert (made memory_call tr tr1) as Hq.
  { destruct (quiesce_writes configuration); [by edestruct pin_region_ok|simplify_eq; apply made_refl]. }
  destruct (let? _ := pinned in local_address e) as [addr|error]; simpl;
    [|by destruct (endpoint_close e c1 tr1) as [[]]].
  intros; simplify_eq/=. eexists. split; [done|]. split; [done|]. by eexists.
Qed.

(** What [start] hands out is a fresh service with nothing in flight. *)
Lemma start_new spawned configuration quiesce_pointer c L tr address cap (s : service engine T K) ev' c' tr' :
  cache_ok c L tr → flying tr = [] →
  start spawned configuration quiesce_pointer [] c tr = (Ok (address, cap, s), ev', c', tr') →
  ∃ e, s = service_new e ∧ flying (e_trace e) = [].
Proof.
  intros Hc Hf Hs. destruct (start_cases _ _ _ _ _ _ _ _ _ _ _ _ Hc Hs) as (e & -> & Hm & _).
  exists e. split; [done|]. by rewrite (quietly_flying _ _ (memory_calls_quiet _ _ Hm)).
Qed.

(** And no peer has been inserted. *)
Lemma start_unused spawned configuration quiesce_pointer c L tr address cap (s : service engine T K) ev' c' tr' :
  (∀ ev kind parent object, fi_open ev kind parent = (0%Z, object) → object ≠ 0%Z) → cache_ok c L tr →
  start spawned configuration quiesce_pointer [] c tr = (Ok (address, cap, s), ev', c', tr') →
  ∃ e av format, s = service_new e ∧ made memory_call tr (e_trace e) ∧ peer_addresses (e_endpoint e) = peers_new av format.
Proof.
  intros Hnull Hc Hs. destruct (start_cases _ _ _ _ _ _ _ _ _ _ _ _ Hc Hs) as (e & -> & Hm & ev1 & Ho).
  apply (open_cases _ _ _ _ _ Hnull) in Ho as (_ & _ & i & He). exists e. rewrite He. by eexists _, _.
Qed.

(** C27: A service that starts is ready to serve.  The address is the one libfabric
    reports, nothing is in flight, the cap is between 1 and both the configured and the
    provider's limit, the shared cache is left sound, and where registration is needed
    and writes are quiesced, the quiesce reads' one byte operand is already registered. *)
Theorem start_serves spawned configuration quiesce_pointer c L tr address cap (s : service engine T K) ev' c' tr'
  (Hnull : ∀ ev kind parent object, fi_open ev kind parent = (0%Z, object) → object ≠ 0%Z)
  (Hc : cache_ok c L tr) (Hf : flying tr = [])
  (Hs : start spawned configuration quiesce_pointer [] c tr = (Ok (address, cap, s), ev', c', tr')) :
  let e := endpoint_of (thread s) in
  let ep := e_endpoint e in
  local_address ep = Ok address ∧ e_cache e = c' ∧ e_trace e = tr' ∧
  flying tr' = [] ∧ cache_ok c' L tr' ∧
  ((0 ≤ max_tx ep)%Z →
     1 ≤ cap ∧ (max_tx ep ≠ 0 → Z.of_nat cap ≤ max_tx ep)%Z ∧
     (∀ n, max_in_flight configuration = Some n → 0 < n → Z.of_nat cap ≤ n)%Z) ∧
  (quiesce_writes configuration = true → requires_local_mr ep = true →
   (quiesce_pointer + quiesce_len < u64_end)%Z →
   ∃ x op c2, view (registry c') (local_regions ep) quiesce_pointer = Some x ∧
     local_operand quiesce_pointer 1 None ep c' tr' = (Ok op, c2, tr') ∧ lease op = Some (registration x)).
Proof.
  unfold start in Hs. destruct spawned as [[]|]; [|by simplify_eq].
  unfold worker_boot in Hs. destruct (open _ _ _) as [[e|error] ev1] eqn:Ho; [|by simplify_eq].
  destruct (open_cases _ _ _ _ _ Hnull Ho) as (_ & _ & i & He).
  destruct (if quiesce_writes configuration then _ else _) as [[pinned c1] tr1] eqn:Ep.
  assert (made memory_call tr tr1 ∧ cache_ok c1 L tr1 ∧
    (quiesce_writes configuration = true → requires_local_mr e = true → is_ok pinned = true →
     ∃ x, re_end x = (quiesce_pointer + quiesce_len)%Z ∧ ∀ d' b', view (registry c1) d' b' =
       if decide (d' = local_regions e ∧ b' = quiesce_pointer) then Some x else view (registry c) d' b'))
    as (Hq & Hc1 & Hpin).
  { destruct (quiesce_writes configuration).
    - destruct (pin_region_ok _ _ _ _ _ _ _ _ _ Hc Ep) as (? & ? & _ & Hx). split_and!; [done..|].
      intros _ Hr Hok. by apply Hx.
    - simplify_eq. split_and!; [apply made_refl|done|done]. }
  destruct pinned as [[]|error]; simpl in Hs; [|destruct (endpoint_close e c1 tr1) as [[]]; by simplify_eq].
  destruct (local_address e) as [address'|error] eqn:Ha; [|destruct (endpoint_close e c1 tr1) as [[]]; by simplify_eq].
  simpl in Hs. simplify_eq. simpl. split_and!; try done.
  - by rewrite (quietly_flying _ _ (memory_calls_quiet _ _ Hq)).
  - intros Hm. destruct (in_flight_cap_bounds _ (max_in_flight configuration) Hm) as (H1' & H2' & H3').
    rewrite Z2Nat.id by lia. split; [lia|]. by split.
  - intros Hw Hr Hlt. destruct (Hpin Hw Hr eq_refl) as (x & Hx & Hview).
    exists x. unfold local_operand. rewrite Hr. simpl.
    assert (view (registry c') (local_regions e) quiesce_pointer = Some x) as Hv
      by (by rewrite Hview, decide_True).
    unfold quiesce_len in *.
    destruct (operand_served (local_regions e) quiesce_pointer x quiesce_pointer 1 None c' tr' Hv)
      as (op & c2 & Hop & Hl); [lia|lia|lia|intros; lia|]. by exists op, c2.
Qed.

(** C26: A service that fails to start leaves nothing behind.  Every object its endpoint
    opened was closed, in reverse order, the hints, the list of entries and the chosen
    one's copy are freed, and the cache holds no extent it did not hold before. *)
Theorem failed_start_leaves_nothing spawned configuration quiesce_pointer c L tr error ev' c' tr'
  (Hnull : ∀ ev kind parent object, fi_open ev kind parent = (0%Z, object) → object ≠ 0%Z)
  (Hc : cache_ok c L tr)
  (Hs : start (T := T) (K := K) spawned configuration quiesce_pointer [] c tr = (Err error, ev', c', tr')) :
  (∃ more, tr' = tr ++ more ∧ closed ev' ++ shut more = reverse (opened ev')) ∧
  infos ev' = 0%Z ∧ hints_live ev' = 0%Z ∧ lists_live ev' = 0%Z ∧
  ∀ d b x, view (registry c') d b = Some x → view (registry c) d b = Some x.
Proof.
  unfold start in Hs. destruct spawned as [[]|];
    [|simplify_eq; split_and!; try done; exists []; by rewrite app_nil_r].
  unfold worker_boot in Hs. destruct (open _ _ _) as [[e|error'] ev1] eqn:Ho;
    pose proof (open_cases _ _ _ _ _ Hnull Ho) as Hopen; simpl in Hopen.
  2:{ destruct Hopen as (e0 & ev0 & Hb & ->). apply endpoint_drop_built in Hb as (Hcl & Hop & Hi & Hh & Hl).
      simplify_eq/=. split_and!; try done. exists []. by rewrite !app_nil_r. }
  destruct Hopen as (Hb & Hh & i & He).
  assert (∃ av format, peer_addresses e = peers_new av format) as (av0 & format & Hp) by (rewrite He; eauto).
  assert (info e = Some i) as Hinfo by (by rewrite He).
  destruct (if quiesce_writes configuration then _ else _) as [[pinned c1] tr1] eqn:Ep.
  assert (made memory_call tr tr1 ∧ cache_ok c1 L tr1 ∧
    ∀ d b, d ≠ local_regions e → view (registry c1) d b = view (registry c) d b) as (Hq & Hc1 & Hview).
  { destruct (quiesce_writes configuration).
    - destruct (pin_region_ok _ _ _ _ _ _ _ _ _ Hc Ep) as (? & ? & ? & _). by split_and!.
    - simplify_eq. by split_and!; [apply made_refl|..]. }
  destruct (let? _ := pinned in local_address e) as [address|error'] eqn:Ea; [by simplify_eq/=|].
  destruct (endpoint_close e c1 tr1) as [[e1 c2] tr2] eqn:Ec. simplify_eq/=.
  destruct (endpoint_close_unused _ _ _ _ _ _ _ _ _ Hc1 Hp Ec) as ((more & -> & Hm) & Hv2).
  destruct (quietly_shut _ _ (memory_calls_quiet _ _ Hq)) as (more0 & -> & Hm0).
  rewrite Hinfo, closed_app, opened_app, infos_app, hints_app, lists_app, (b_closed _ _ _ Hb), (b_opened _ _ _ Hb),
    (b_infos _ _ _ Hb), (b_hints _ _ _ Hb), (b_lists _ _ _ Hb), Hinfo. simpl. rewrite app_nil_r. split_and!; try done.
  - exists (more0 ++ more). by rewrite (assoc_L (++)), shut_app, Hm0, Hm.
  - intros d b x. rewrite Hv2. case_decide as Hd; [done|]. by rewrite Hview.
Qed.

End starting.

(** ** Witnesses *)

#[local] Existing Instance example_libfabric.
#[local] Existing Instance example_flags.

Definition quiescing_configuration : Configuration :=
  {| providers := [EfaDirect]; interfaces := []; bind := None; max_in_flight := Some 512%Z;
     crc_pool_threads := None; progress_deadline := default_progress_deadline; quiesce_writes := true |}.

Lemma example_opens (enabled : Z) ev kind parent object :
  @fi_open (example_setup enabled) ev kind parent = (0%Z, object) → object ≠ 0%Z.
Proof. cbn. intros. simplify_eq. lia. Qed.

Lemma start_serves_witness :
  ∃ s ev c tr, @start _ _ (example_setup 0) Z Z (Ok tt) quiescing_configuration 4096 [] empty_cache [] =
      (Ok ([Byte.x01; Byte.x02], 256, s), ev, c, tr) ∧
    flying tr = [] ∧
    ∃ op c2, local_operand 4096 1 None (e_endpoint (endpoint_of (thread s))) c tr = (Ok op, c2, tr).
Proof.
  eexists _, _, _, _. split; [vm_compute; reflexivity|].
  edestruct (@start_serves _ _ (example_setup 0) Z Z (Ok tt) quiescing_configuration 4096 empty_cache ∅ [])
    as (_ & _ & _ & Hf & _ & _ & Hq); [apply example_opens|apply empty_cache_ok|done|vm_compute; reflexivity|].
  split; [exact Hf|].
  destruct Hq as (x & op & c2 & _ & Hop & _); [done..|by vm_compute|]. by exists op, c2.
Defined.

Lemma failed_start_leaves_nothing_witness :
  ∃ error ev c tr, @start _ _ (example_setup (-22)) Z Z (Ok tt) quiescing_configuration 4096 [] empty_cache [] =
      (Err error, ev, c, tr) ∧ ∃ more, tr = more ∧ closed ev ++ shut more = reverse [6; 7; 8; 9; 10]%Z.
Proof.
  eexists _, _, _, _. split; [vm_compute; reflexivity|].
  edestruct (@failed_start_leaves_nothing _ _ (example_setup (-22)) Z Z (Ok tt) quiescing_configuration 4096 empty_cache ∅ [])
    as ((more & Htr & Hm) & _); [apply example_opens|apply empty_cache_ok|vm_compute; reflexivity|].
  exists more. split; [exact Htr|]. exact Hm.
Defined.
