(* ===== verification/Memory.v ===== *)
(** * Registered memory and the allocator

    [memory/jemalloc.rs], [memory/huge_arena.rs] and [memory/extent_hooks.rs]: finding
    the host's jemalloc, tuning its huge arena, and wrapping the extent hooks of the
    arenas that back cached operands, so that a registration goes before the pages under
    it do.  jemalloc is not part of the repository: its answers are parameters, functions
    of the calls made to it so far.

    The second half is the process as far as reclaiming goes, a step relation in which
    threads inside [operand] and [pin] ([local_regions.rs]), the drops of leases, the clears of
    domains and the arenas' reclaims take turns at every lock and every call; run without
    interruption they do what the functions do ([operand_alone], [pin_alone],
    [wrapper_alone]). *)

From S2P Require Import Prelude Arc Wire Fabric RegionCache Operands.

(** ** jemalloc, as the module sees it *)

(** The five hooks that reclaim pages. *)
Inductive hook : Type := Dalloc | Destroy | Decommit | PurgeLazy | PurgeForced.

#[export] Instance hook_eq_dec : EqDecision hook.
Proof. solve_decision. Defined.

(** [ExtentHooks], its reclaiming entries of some type of function. *)
Record ExtentHooks (F : Type) := {
  h_alloc : Z;
  h_dalloc : option F;
  h_destroy : option F;
  h_commit : Z;
  h_decommit : option F;
  h_purge_lazy : option F;
  h_purge_forced : option F;
  h_split : Z;
  h_merge : Z;
}.
Arguments Build_ExtentHooks {F} _ _ _ _ _ _ _ _ _.
Arguments h_alloc {F} _.
Arguments h_dalloc {F} _.
Arguments h_destroy {F} _.
Arguments h_commit {F} _.
Arguments h_decommit {F} _.
Arguments h_purge_lazy {F} _.
Arguments h_purge_forced {F} _.
Arguments h_split {F} _.
Arguments h_merge {F} _.

(** A hook's arguments: the extent [[addr, addr + size)], and for the range hooks the part
    of it they act on. *)
Record hook_call := {
  addr : Z;
  size : Z;
  offset : Z;
  length : Z;
  committed : bool;
  arena_ind : Z;
}.

(** A value written through [mallctl]; the module's own hook table is the only pointer. *)
Inductive ctl_value : Type :=
  | Signed (value : Z)
  | Size (value : Z)
  | HooksTable.

Inductive je_call : Type :=
  | JeMalloc (size : Z)
  | JeFree (pointer : Z)
  | JeLookup (pointer : Z)
  | JeWrite (key : string) (value : ctl_value)
  | JeRead (key : string).

Class Jemalloc := {
  (** [dlsym] finds the symbol. *)
  dlsym : string → bool;
  je_malloc : list je_call → Z → Z;
  (** [arenas.lookup]: the code and the index. *)
  mallctl_lookup : list je_call → Z → Z * Z;
  mallctl_write : list je_call → string → ctl_value → Z;
  (** Reading an [extent_hooks]: the code, the size read and what the table pointer points
      to; its native functions are pointers. *)
  mallctl_read : list je_call → string → Z * Z * option (ExtentHooks Z);
  (** What a native reclaiming function answers: true is failure. *)
  native : Z → hook → hook_call → bool;
}.

Section jemalloc.
  Context `{Jemalloc}.
  Implicit Types (je : list je_call).

(** [jemalloc]: all three symbols, or nothing. *)
Definition jemalloc : bool := dlsym "je_mallctl" && dlsym "je_malloc" && dlsym "je_free".

(** [Allocation::new] *)
Definition allocation_new (size : Z) je : option Z * list je_call :=
  if jemalloc then
    let pointer := je_malloc je size in
    ((if (pointer =? 0)%Z then None else Some pointer), je ++ [JeMalloc size])
  else (None, je).

(** [Drop for Allocation] *)
Definition allocation_drop (pointer : Z) je : list je_call :=
  if jemalloc then je ++ [JeFree pointer] else je.

(** [arena_of] *)
Definition arena_of (pointer : Z) je : option Z * list je_call :=
  if jemalloc then
    let '(code, index) := mallctl_lookup je pointer in
    ((if (0 =? code)%Z then Some index else None), je ++ [JeLookup pointer])
  else (None, je).

(** [write] *)
Definition write (key : string) (value : ctl_value) je : bool * list je_call :=
  if jemalloc then ((0 =? mallctl_write je key value)%Z, je ++ [JeWrite key value])
  else (false, je).

(** [read], of a pointer, and what it points to if it is not null. *)
Definition read (key : string) je : option (option (ExtentHooks Z)) * list je_call :=
  if jemalloc then
    let '(code, n, table) := mallctl_read je key in
    ((if (0 =? code)%Z && (8 =? n)%Z then Some table else None), je ++ [JeRead key])
  else (None, je).

(** [arena_key] *)
Definition arena_key (index : Z) (field : string) : string :=
  "arena." +:+ pretty index +:+ "." +:+ field.

(** ** [huge_arena.rs] *)

Definition OVERSIZE_NUDGE : Z := 16 * 1024 * 1024.

(** [tune] *)
Definition tune (decay_ms oversize_threshold : Z) je : option Z * list je_call :=
  match allocation_new OVERSIZE_NUDGE je with
  | (None, je) => (None, je)
  | (Some pointer, je) =>
      match arena_of pointer je with
      | (None, je) => (None, allocation_drop pointer je)
      | (Some arena, je) =>
          let '(_, je) := write (arena_key arena "dirty_decay_ms") (Signed decay_ms) je in
          let '(_, je) := write (arena_key arena "muzzy_decay_ms") (Signed decay_ms) je in
          let '(_, je) := write (arena_key arena "oversize_threshold") (Size oversize_threshold) je in
          (Some arena, allocation_drop pointer je)
      end
  end.

(** ** [extent_hooks.rs] *)

Inductive RegionMode : Type := Cached | PerOperation.

Record RegionHooksReport := {
  mode : RegionMode;
  huge_arena : option Z;
  report_decay_ms : Z;
  report_oversize_threshold : Z;
}.

(** The module's statics, and the calls made to jemalloc. *)
Record statics := {
  DEFAULT : ExtentHooks Z;
  WRAPPED : ExtentHooks hook;
  ARMED : bool;
  je_log : list je_call;
}.

Definition no_defaults : ExtentHooks Z := Build_ExtentHooks 0%Z None None 0%Z None None None 0%Z 0%Z.

Definition wrappers : ExtentHooks hook :=
  Build_ExtentHooks 0%Z (Some Dalloc) (Some Destroy) 0%Z (Some Decommit) (Some PurgeLazy)
    (Some PurgeForced) 0%Z 0%Z.

Definition statics_new : statics :=
  {| DEFAULT := no_defaults; WRAPPED := wrappers; ARMED := false; je_log := [] |}.

Definition with_log je (st : statics) : statics :=
  {| DEFAULT := DEFAULT st; WRAPPED := WRAPPED st; ARMED := ARMED st; je_log := je |}.

(** [read_extent_hooks] *)
Definition read_extent_hooks (arena : Z) je : option (ExtentHooks Z) * list je_call :=
  let '(table, je) := read (arena_key arena "extent_hooks") je in (table ≫= id, je).

(** [write_extent_hooks] *)
Definition write_extent_hooks (arena : Z) je : bool * list je_call :=
  write (arena_key arena "extent_hooks") HooksTable je.

(** [install] *)
Definition install (huge_arena_decay_ms huge_arena_oversize_threshold : Z) (st : statics) :
    RegionHooksReport * statics :=
  match read_extent_hooks 0 (je_log st) with
  | (None, je) =>
      ({| mode := PerOperation; huge_arena := None; report_decay_ms := huge_arena_decay_ms;
          report_oversize_threshold := huge_arena_oversize_threshold |}, with_log je st)
  | (Some default, je) =>
      let wrapped :=
        Build_ExtentHooks (h_alloc default) (h_dalloc (WRAPPED st)) (h_destroy (WRAPPED st))
          (h_commit default) (h_decommit (WRAPPED st)) (h_purge_lazy (WRAPPED st))
          (h_purge_forced (WRAPPED st)) (h_split default) (h_merge default) in
      let '(arena, je) := tune huge_arena_decay_ms huge_arena_oversize_threshold je in
      ({| mode := Cached; huge_arena := arena; report_decay_ms := huge_arena_decay_ms;
          report_oversize_threshold := huge_arena_oversize_threshold |},
       {| DEFAULT := default; WRAPPED := wrapped; ARMED := true; je_log := je |})
  end.

(** [ensure_covered] *)
Definition ensure_covered (pointer : Z) (st : statics) : bool * statics :=
  if ARMED st then
    match arena_of pointer (je_log st) with
    | (Some arena, je) => let '(ok, je) := write_extent_hooks arena je in (ok, with_log je st)
    | (None, je) => (false, with_log je st)
    end
  else (false, st).

(** The two calls of [ensure_covered], between which other threads run: asking which
    arena owns the operand, and hooking it. *)
Definition look (pointer : Z) (st : statics) : option Z * statics :=
  if ARMED st then let '(index, je) := arena_of pointer (je_log st) in (index, with_log je st)
  else (None, st).

Definition hook_arena (arena : Z) (st : statics) : bool * statics :=
  let '(ok, je) := write_extent_hooks arena (je_log st) in (ok, with_log je st).

Lemma ensure_covered_split pointer st :
  ensure_covered pointer st =
  let '(index, st) := look pointer st in
  match index with Some arena => hook_arena arena st | None => (false, st) end.
Proof.
  unfold ensure_covered, look, hook_arena. destruct (ARMED st); [|done].
  by destruct (arena_of pointer (je_log st)) as [[arena|] je].
Qed.

End jemalloc.

Section hooks.
  Context `{Jemalloc, Libfabric}.

(** The bytes a hook reclaims. *)
Definition reclaimed (h : hook) (call : hook_call) : Z * Z :=
  match h with
  | Dalloc | Destroy => (addr call, addr call + size call)%Z
  | _ => (addr call + offset call, addr call + offset call + length call)%Z
  end.

(** The native function a wrapper chains to. *)
Definition default_of (h : hook) (st : statics) : option Z :=
  match h with
  | Dalloc => h_dalloc (DEFAULT st)
  | Destroy => h_destroy (DEFAULT st)
  | Decommit => h_decommit (DEFAULT st)
  | PurgeLazy => h_purge_lazy (DEFAULT st)
  | PurgeForced => h_purge_forced (DEFAULT st)
  end.

(** What a hook does, in order: the calls its deregistrations make, and the native
    function it chains to. *)
Inductive reclaim_event : Type :=
  | Deregister (calls : trace)
  | Chain (function : Z) (call : hook_call).

(** [wrapped_dalloc]: with no default, failure. *)
Definition wrapped_dalloc (call : hook_call) (st : statics) (c : cache) (tr : trace) :
    bool * cache * trace * list reclaim_event :=
  let '(c, tr') := invalidate (addr call) (addr call + size call) c tr in
  let closed := Deregister (drop (List.length tr) tr') in
  match h_dalloc (DEFAULT st) with
  | Some dalloc => (native dalloc Dalloc call, c, tr', [closed; Chain dalloc call])
  | None => (true, c, tr', [closed])
  end.

(** [wrapped_destroy]; it answers nothing. *)
Definition wrapped_destroy (call : hook_call) (st : statics) (c : cache) (tr : trace) :
    cache * trace * list reclaim_event :=
  let '(c, tr') := invalidate (addr call) (addr call + size call) c tr in
  let closed := Deregister (drop (List.length tr) tr') in
  match h_destroy (DEFAULT st) with
  | Some destroy => (c, tr', [closed; Chain destroy call])
  | None => (c, tr', [closed])
  end.

(** The part of its extent a range hook deregisters. *)
Definition sub_range (call : hook_call) : Z * Z :=
  let sub_start := (addr call + offset call)%Z in (sub_start, sub_start + length call)%Z.

(** [reclaim_range]; [h] says whose default it was given. *)
Definition reclaim_range (h : hook) (default : option Z) (call : hook_call) (c : cache) (tr : trace) :
    bool * cache * trace * list reclaim_event :=
  let '(c, tr') := invalidate (sub_range call).1 (sub_range call).2 c tr in
  let closed := Deregister (drop (List.length tr) tr') in
  match default with
  | Some reclaim => (native reclaim h call, c, tr', [closed; Chain reclaim call])
  | None => (true, c, tr', [closed])
  end.

Definition wrapped_decommit (call : hook_call) (st : statics) := reclaim_range Decommit (h_decommit (DEFAULT st)) call.
Definition wrapped_purge_lazy (call : hook_call) (st : statics) := reclaim_range PurgeLazy (h_purge_lazy (DEFAULT st)) call.
Definition wrapped_purge_forced (call : hook_call) (st : statics) := reclaim_range PurgeForced (h_purge_forced (DEFAULT st)) call.

(** jemalloc calling through the wrapper table; [destroy] never fails. *)
Definition call_wrapped (h : hook) (call : hook_call) (st : statics) (c : cache) (tr : trace) :
    bool * cache * trace * list reclaim_event :=
  match h with
  | Dalloc => wrapped_dalloc call st c tr
  | Destroy => let '(c, tr, ev) := wrapped_destroy call st c tr in (false, c, tr, ev)
  | Decommit => wrapped_decommit call st c tr
  | PurgeLazy => wrapped_purge_lazy call st c tr
  | PurgeForced => wrapped_purge_forced call st c tr
  end.

(** What each wrapper passes to [invalidate]. *)
Definition wrapper_range (h : hook) (call : hook_call) : Z * Z :=
  match h with
  | Dalloc | Destroy => (addr call, addr call + size call)%Z
  | Decommit | PurgeLazy | PurgeForced => sub_range call
  end.

Lemma wrapper_range_reclaimed h call : wrapper_range h call = reclaimed h call.
Proof. by destruct h. Qed.

(** What a wrapper answers: its native function's answer, failure without one. *)
Definition wrapper_answer (h : hook) (call : hook_call) (st : statics) : bool :=
  match default_of h st, h with
  | _, Destroy => false
  | Some f, _ => native f h call
  | None, _ => true
  end.

(** All five are one: deregister the bytes, then chain. *)
Lemma call_wrapped_spec h call st c tr :
  call_wrapped h call st c tr =
  let '(c', tr') := invalidate (wrapper_range h call).1 (wrapper_range h call).2 c tr in
  (wrapper_answer h call st, c', tr',
   Deregister (drop (List.length tr) tr') ::
     match default_of h st with Some f => [Chain f call] | None => [] end).
Proof.
  destruct h; cbn [call_wrapped wrapper_range fst snd]; unfold wrapper_answer, default_of, wrapped_dalloc,
    wrapped_destroy, wrapped_decommit, wrapped_purge_lazy, wrapped_purge_forced, reclaim_range;
    destruct (invalidate _ _ c tr); repeat case_match; by simplify_eq.
Qed.

End hooks.

(** ** Pages, arenas and registrations

    The process as far as reclaiming goes: the statics, the registration cache with the
    leases held outside it, which arena owns each address, and what the threads are in
    the middle of.  A thread that resolves an operand, pins a region or reclaims pages
    takes the steps below one at a time and the threads interleave at each: every lock of
    the registry and every call to the allocator or the fabric is a step of its own. *)

(** A call of [operand]: its domain and bytes, whether its context offers a span, and how
    far it is. *)
Inductive resolve_stage : Type :=
  | Begun
  | Missed
  | Found (arena : Z)
  | Offered (span : option CacheableSpan)
  | Registered (b l : Z) (id : nat) (cacheable : bool).

Record resolving := Resolving {
  w_domain : Z;
  w_pointer : Z;
  w_length : Z;
  w_offers : bool;
  w_stage : resolve_stage;
}.

Definition at_stage (stage : resolve_stage) (w : resolving) : resolving :=
  Resolving (w_domain w) (w_pointer w) (w_length w) (w_offers w) stage.

Definition w_end (w : resolving) : Z := (w_pointer w + w_length w)%Z.

(** A region pinned by [pin], from its call to the freeing of its storage: [Retired] once
    its owner's [invalidate], or the [clear] of its domain, has run. *)
Inductive pin_stage : Type := Pinning | Tracking (id : nat) | Held | Retired.

Record pinned := Pinned {
  p_domain : Z;
  p_base : Z;
  p_end : Z;
  p_stage : pin_stage;
}.

Definition pin_at (stage : pin_stage) (p : pinned) : pinned :=
  Pinned (p_domain p) (p_base p) (p_end p) stage.

(** A reclaim by an arena, through the wrapper table or natively: [Chaining] from its
    deregistration on, with the retired registrations it has still to drop before it calls
    the native function. *)
Inductive reclaim_stage : Type := Unregistering | Chaining (retired : list nat).

Record reclaiming := Reclaiming {
  r_via : bool;
  r_hook : hook;
  r_call : hook_call;
  r_stage : reclaim_stage;
}.

Definition past_deregistration (r : reclaiming) : Prop :=
  match r_stage r with Unregistering => False | Chaining _ => True end.

Record memory := Mem {
  m_statics : statics;
  m_process : process;
  owner : Z → option Z;
  resolvings : list resolving;
  pins : list pinned;
  reclaims : list reclaiming;
}.

(** The bytes of a range, of an operand, of a pinned region, of a reclaim. *)
Definition inside (range : Z * Z) (x : Z) : Prop := (range.1 ≤ x < range.2)%Z.

Definition w_bytes (w : resolving) : Z → Prop := inside (w_pointer w, w_end w).
Definition p_bytes (p : pinned) : Z → Prop := inside (p_base p, p_end p).
Definition r_bytes (r : reclaiming) : Z → Prop := inside (reclaimed (r_hook r) (r_call r)).

(** Bytes that are live: an operand being resolved, or a region not freed yet. *)
Definition live (ws : list resolving) (ps : list pinned) (x : Z) : Prop :=
  (∃ w, w ∈ ws ∧ w_bytes w x) ∨ (∃ p, p ∈ ps ∧ p_bytes p x).

(** The clear of a domain retires the regions pinned on it. *)
Definition retire_on (d : Z) (p : pinned) : pinned :=
  match p_stage p with
  | Held => if decide (p_domain p = d) then pin_at Retired p else p
  | _ => p
  end.

Definition unmap (range : Z * Z) (own : Z → option Z) (x : Z) : option Z :=
  if (range.1 <=? x)%Z && (x <? range.2)%Z then None else own x.

Section machine.
  Context `{Jemalloc, Libfabric}.
  Implicit Types (m : memory).

(** The arena's hook table is the wrapper table: a write of it was accepted. *)
Definition hooked (je : list je_call) (arena : Z) : Prop :=
  ∃ l1 l2, je = l1 ++ JeWrite (arena_key arena "extent_hooks") HooksTable :: l2 ∧
    mallctl_write l1 (arena_key arena "extent_hooks") HooksTable = 0%Z.

(** The span the module's operands offer: their own extent, once its arena is covered. *)
Definition covered_span (pointer n : Z) (st : statics) : option CacheableSpan * statics :=
  let '(covered, st) := ensure_covered pointer st in
  (if covered then span_new pointer n else None, st).

(** One step of a call of [operand]; it is over, its lease with the operand, when nothing
    is left of it.  jemalloc's lookup names the arena that owns the operand. *)
Inductive resolve_step (own : Z → option Z) :
    resolving → statics → process → option resolving → statics → process → Prop :=
  | resolve_hit w st id c c' L tr :
      w_stage w = Begun →
      covering (w_pointer w) (w_end w) (w_domain w) c = (Some id, c') →
      resolve_step own w st (Process c L tr) None st (Process c' (L ⊎ {[+ id +]}) tr)
  | resolve_miss w st c c' L tr :
      w_stage w = Begun →
      covering (w_pointer w) (w_end w) (w_domain w) c = (None, c') →
      resolve_step own w st (Process c L tr) (Some (at_stage Missed w)) st (Process c' L tr)
  | resolve_no_offer w st p :
      w_stage w = Missed → w_offers w = false →
      resolve_step own w st p (Some (at_stage (Offered None) w)) st p
  | resolve_look w st index st' p :
      w_stage w = Missed → w_offers w = true →
      look (w_pointer w) st = (index, st') →
      (∀ arena x, index = Some arena → w_bytes w x → own x = Some arena) →
      resolve_step own w st p
        (Some (at_stage (match index with Some arena => Found arena | None => Offered None end) w)) st' p
  | resolve_hook w arena st ok st' p :
      w_stage w = Found arena → hook_arena arena st = (ok, st') →
      resolve_step own w st p
        (Some (at_stage (Offered (if ok then span_new (w_pointer w) (w_length w) else None)) w)) st' p
  | resolve_register w span st b l mr id c c' L tr tr' :
      w_stage w = Offered span →
      let cacheable := span ≫= λ s, if contains s (w_pointer w) (w_end w) then Some s else None in
      register_span (w_domain w) (w_pointer w) (w_end w) cacheable tr = (Ok (b, l, mr), tr') →
      registration_new mr c = (id, c') →
      resolve_step own w st (Process c L tr)
        (Some (at_stage (Registered b l id (bool_decide (is_Some cacheable))) w)) st
        (Process c' (L ⊎ {[+ id +]}) tr')
  | resolve_refused w span st error c L tr tr' :
      w_stage w = Offered span →
      let cacheable := span ≫= λ s, if contains s (w_pointer w) (w_end w) then Some s else None in
      register_span (w_domain w) (w_pointer w) (w_end w) cacheable tr = (Err error, tr') →
      resolve_step own w st (Process c L tr) None st (Process c L tr')
  | resolve_track w b l id replaced st c c' L tr :
      w_stage w = Registered b l id true → id ∈ L →
      track_locked b l (w_domain w) id c = (replaced, c') →
      resolve_step own w st (Process c L tr) None st (Process c' (L ⊎ list_to_set_disj replaced) tr)
  | resolve_uncached w b l id st p :
      w_stage w = Registered b l id false →
      resolve_step own w st p None st p.

(** One step of a pinned region: [pin], the [invalidate] of its owner, its freeing. *)
Inductive pin_step : pinned → process → option pinned → process → Prop :=
  | pin_register p mr id c c' L tr tr' :
      p_stage p = Pinning →
      register (p_domain p) (p_base p) (p_end p - p_base p) tr = (Ok mr, tr') →
      registration_new mr c = (id, c') →
      pin_step p (Process c L tr) (Some (pin_at (Tracking id) p)) (Process c' (L ⊎ {[+ id +]}) tr')
  | pin_refused p error c L tr tr' :
      p_stage p = Pinning →
      register (p_domain p) (p_base p) (p_end p - p_base p) tr = (Err error, tr') →
      pin_step p (Process c L tr) None (Process c L tr')
  | pin_track p id replaced c c' L tr :
      p_stage p = Tracking id → id ∈ L →
      track_locked (p_base p) (p_end p) (p_domain p) id c = (replaced, c') →
      pin_step p (Process c L tr) (Some (pin_at Held p)) (Process c' (L ⊎ list_to_set_disj replaced) tr)
  | pin_invalidate p retired c c' L tr :
      p_stage p = Held ∨ p_stage p = Retired →
      invalidate_locked (p_base p) (p_end p) c = (retired, c') →
      pin_step p (Process c L tr) (Some (pin_at Retired p)) (Process c' (L ⊎ list_to_set_disj retired) tr)
  | pin_free p pr :
      p_stage p = Retired → pin_step p pr None pr.

(** One step of a reclaim before its end: the wrapper's deregistration, and the drop of
    each registration it retired. *)
Inductive reclaim_step : reclaiming → process → reclaiming → process → Prop :=
  | reclaim_deregister via h call retired c c' L tr :
      invalidate_locked (wrapper_range h call).1 (wrapper_range h call).2 c = (retired, c') →
      reclaim_step (Reclaiming via h call Unregistering) (Process c L tr)
        (Reclaiming via h call (Chaining retired)) (Process c' (L ⊎ list_to_set_disj retired) tr)
  | reclaim_drop via h call id retired c c' L tr tr' :
      release [id] c tr = (c', tr') →
      reclaim_step (Reclaiming via h call (Chaining (id :: retired))) (Process c (L ⊎ {[+ id +]}) tr)
        (Reclaiming via h call (Chaining retired)) (Process c' L tr').

(** Threads interleaved.  Memory handed to [operand] or [pin] stays live while that runs,
    a pinned region until it is freed, and an arena reclaims only bytes of its own that are
    not live; it reads its hook table when it begins.  The last lease dropped may be
    anybody's. *)
Inductive memory_step : memory → memory → Prop :=
  | step_map arena start limit st p own ws ps rs :
      (∀ x, inside (start, limit) x → own x = None) →
      memory_step (Mem st p own ws ps rs)
        (Mem st p (λ x, if (start <=? x)%Z && (x <? limit)%Z then Some arena else own x) ws ps rs)
  | step_begin_resolve d pointer n offers st p own ws ps rs :
      is_Some (checked_add pointer n) →
      let w := Resolving d pointer n offers Begun in
      (∀ r x, r ∈ rs → r_bytes r x → ¬ w_bytes w x) →
      memory_step (Mem st p own ws ps rs) (Mem st p own (ws ++ [w]) ps rs)
  | step_resolve ws1 w ws2 w' st p st' p' own ps rs :
      resolve_step own w st p w' st' p' →
      memory_step (Mem st p own (ws1 ++ w :: ws2) ps rs)
                  (Mem st' p' own (ws1 ++ option_list w' ++ ws2) ps rs)
  | step_begin_pin d b l st p own ws ps rs :
      checked_add b (l - b) = Some l →
      let pn := Pinned d b l Pinning in
      (∀ r x, r ∈ rs → r_bytes r x → ¬ p_bytes pn x) →
      memory_step (Mem st p own ws ps rs) (Mem st p own ws (ps ++ [pn]) rs)
  | step_pin ps1 pn ps2 pn' st p p' own ws rs :
      pin_step pn p pn' p' →
      memory_step (Mem st p own ws (ps1 ++ pn :: ps2) rs)
                  (Mem st p' own ws (ps1 ++ option_list pn' ++ ps2) rs)
  | step_teardown d retired st c c' L tr own ws ps rs :
      clear_domain_locked d c = (retired, c') →
      memory_step (Mem st (Process c L tr) own ws ps rs)
                  (Mem st (Process c' (L ⊎ list_to_set_disj retired) tr) own ws (retire_on d <$> ps) rs)
  | step_drop_lease id st c c' L tr tr' own ws ps rs :
      release [id] c tr = (c', tr') →
      memory_step (Mem st (Process c (L ⊎ {[+ id +]}) tr) own ws ps rs)
                  (Mem st (Process c' L tr') own ws ps rs)
  | step_begin_reclaim via h call arena st p own ws ps rs :
      (hooked (je_log st) arena → via = true) →
      let r := Reclaiming via h call (if via then Unregistering else Chaining []) in
      (∀ x, r_bytes r x → own x = Some arena ∧ ¬ live ws ps x) →
      memory_step (Mem st p own ws ps rs) (Mem st p own ws ps (rs ++ [r]))
  | step_reclaim rs1 r rs2 r' st p p' own ws ps :
      reclaim_step r p r' p' →
      memory_step (Mem st p own ws ps (rs1 ++ r :: rs2)) (Mem st p' own ws ps (rs1 ++ r' :: rs2))
  | step_chain via h call failed rs1 rs2 st p own ws ps :
      (via = true → failed = wrapper_answer h call st) →
      let released := match h with Dalloc => negb failed | Destroy => true | _ => false end in
      memory_step (Mem st p own ws ps (rs1 ++ Reclaiming via h call (Chaining []) :: rs2))
        (Mem st p (if released then unmap (reclaimed h call) own else own) ws ps (rs1 ++ rs2)).

Definition memory_new (st : statics) : memory := Mem st start_process (λ _, None) [] [] [].

(** ** Invariant *)

Definition covered (st : statics) (own : Z → option Z) (x : Z) : Prop :=
  ∃ arena, hooked (je_log st) arena ∧ own x = Some arena.

(** What a call of [operand] has established about its bytes. *)
Definition stage_ok (st : statics) (own : Z → option Z) (w : resolving) : Prop :=
  match w_stage w with
  | Found arena => ∀ x, w_bytes w x → own x = Some arena
  | Offered (Some s) =>
      base s = w_pointer w ∧ end_ s = w_end w ∧ ∀ x, w_bytes w x → covered st own x
  | Registered b l _ true =>
      b = w_pointer w ∧ l = w_end w ∧ ∀ x, w_bytes w x → covered st own x
  | _ => True
  end.

(** The region is pinned and its entry, if still there, is this one. *)
Definition pins_entry (p : pinned) (d b : Z) (e : RegionEntry) : Prop :=
  p_stage p = Held ∧ p_domain p = d ∧ p_base p = b ∧ p_end p = re_end e.

(** Every byte of a cached extent lies in a hooked arena or in the region it was pinned
    for; what a reclaim takes is not live and, past its deregistration, not cached. *)
Record memory_ok m : Prop := {
  mo_process : process_ok (m_process m);
  mo_stages : ∀ w, w ∈ resolvings m → stage_ok (m_statics m) (owner m) w;
  mo_backed : ∀ d b e x, view (registry (cached (m_process m))) d b = Some e → inside (b, re_end e) x →
    covered (m_statics m) (owner m) x ∨ ∃ p, p ∈ pins m ∧ pins_entry p d b e;
  mo_apart : ∀ r x, r ∈ reclaims m → r_bytes r x → ¬ live (resolvings m) (pins m) x;
  mo_past : ∀ r d b e x, r ∈ reclaims m → past_deregistration r →
    view (registry (cached (m_process m))) d b = Some e → inside (b, re_end e) x → ¬ r_bytes r x;
}.

Lemma hooked_grows je je' arena : (∃ more, je' = je ++ more) → hooked je arena → hooked je' arena.
Proof.
  intros [more ->] (l1 & l2 & -> & Hw). exists l1, (l2 ++ more). split; [|done]. by rewrite <-(assoc_L (++)).
Qed.

Lemma write_spec key value je ok je' :
  write key value je = (ok, je') →
  (∃ more, je' = je ++ more) ∧ (ok = true → je' = je ++ [JeWrite key value] ∧ mallctl_write je key value = 0%Z).
Proof.
  unfold write. destruct jemalloc; intros; simplify_eq.
  - split; [by eexists|]. intros Hz%Z.eqb_eq. auto.
  - split; [exists []; by rewrite app_nil_r|done].
Qed.

Lemma arena_of_grows pointer je index je' :
  arena_of pointer je = (index, je') → ∃ more, je' = je ++ more.
Proof.
  unfold arena_of. destruct jemalloc; [destruct (mallctl_lookup _ _)|]; intros; simplify_eq;
    [by eexists|exists []; by rewrite app_nil_r].
Qed.

(** Covered means hooked: the arena the lookup named now has the wrapper table. *)
Lemma ensure_covered_spec pointer st covered st' :
  ensure_covered pointer st = (covered, st') →
  (∃ more, je_log st' = je_log st ++ more) ∧
  (covered = true → ∃ arena, (arena_of pointer (je_log st)).1 = Some arena ∧ hooked (je_log st') arena) ∧
  DEFAULT st' = DEFAULT st ∧ WRAPPED st' = WRAPPED st ∧ ARMED st' = ARMED st.
Proof.
  unfold ensure_covered. destruct (ARMED st) eqn:Harmed; cycle 1.
  { intros; simplify_eq. split_and!; try done. exists []. by rewrite app_nil_r. }
  destruct (arena_of pointer (je_log st)) as [[arena|] je] eqn:Ea; pose proof (arena_of_grows _ _ _ _ Ea) as [more1 ->].
  - destruct (write_extent_hooks arena _) as [ok je'] eqn:Ew. intros; simplify_eq.
    apply write_spec in Ew as [[more2 ->] Hok]. simpl. split_and!; try done.
    + exists (more1 ++ more2). by rewrite (assoc_L (++)).
    + intros Ht. destruct (Hok Ht) as [Hm Hw]. exists arena. split; [done|].
      exists (je_log st ++ more1), []. by rewrite Hm.
  - intros; simplify_eq. simpl. split_and!; try done. by eexists.
Qed.

Lemma look_spec pointer st index st' :
  look pointer st = (index, st') → ∃ more, je_log st' = je_log st ++ more.
Proof.
  unfold look. destruct (ARMED st); [|intros; simplify_eq; exists []; by rewrite app_nil_r].
  destruct (arena_of pointer (je_log st)) as [i je] eqn:Ea. intros; simplify_eq.
  by eapply arena_of_grows.
Qed.

Lemma hook_arena_spec arena st ok st' :
  hook_arena arena st = (ok, st') →
  (∃ more, je_log st' = je_log st ++ more) ∧ (ok = true → hooked (je_log st') arena).
Proof.
  unfold hook_arena. destruct (write_extent_hooks arena (je_log st)) as [ok' je] eqn:Ew.
  apply write_spec in Ew as [Hg Hok]. intros; simplify_eq. split; [done|].
  intros ->. destruct (Hok eq_refl) as [-> Hw]. simpl. by exists (je_log st), [].
Qed.

Lemma covered_grows st st' own own' x :
  (∃ more, je_log st' = je_log st ++ more) → (∀ a, own x = Some a → own' x = Some a) →
  covered st own x → covered st' own' x.
Proof. intros Hg Ho (arena & Hh & Hx). exists arena. split; [by eapply hooked_grows|auto]. Qed.

Lemma stage_ok_grows st st' own own' w :
  (∃ more, je_log st' = je_log st ++ more) →
  (∀ x a, w_bytes w x → own x = Some a → own' x = Some a) → stage_ok st own w → stage_ok st' own' w.
Proof.
  intros Hg Ho. unfold stage_ok. destruct (w_stage w) as [| |arena|[s|]|b l id []]; try done.
  - intros Hx x Hb. apply Ho; auto.
  - intros (? & ? & Hx). split_and!; try done. intros x Hb. eapply covered_grows; [done| |by apply Hx]. eauto.
  - intros (? & ? & Hx). split_and!; try done. intros x Hb. eapply covered_grows; [done| |by apply Hx]. eauto.
Qed.

(** Calls that close nothing leave the books right. *)
Lemma process_ok_grows c L tr tr' :
  process_ok (Process c L tr) → (∃ more, tr' = tr ++ more ∧ closes more = []) → process_ok (Process c L tr').
Proof.
  intros [Ho Hd Hc] (more & -> & Hn). split; [done|done|].
  cbn [cached leases calls] in *. by rewrite closes_app, Hn, app_nil_r.
Qed.

Lemma register_no_close d ptr n tr r tr' :
  register d ptr n tr = (r, tr') → ∃ more, tr' = tr ++ more ∧ closes more = [].
Proof. unfold register. destruct (fi_mr_reg tr d ptr n). intros; simplify_eq. by eexists. Qed.

Lemma registration_new_registry mr c id c' : registration_new mr c = (id, c') → registry c' = registry c.
Proof. unfold registration_new. intros; by simplify_eq/=. Qed.

Lemma registered_process_ok mr c id c' L tr tr' :
  process_ok (Process c L tr) → (∃ more, tr' = tr ++ more ∧ closes more = []) →
  registration_new mr c = (id, c') → process_ok (Process c' (L ⊎ {[+ id +]}) tr').
Proof.
  intros Hp Hg E. eapply (cache_step_ok (Process c L tr')); [by eapply step_register|].
  by eapply process_ok_grows.
Qed.

Lemma release_registry ids c tr c' tr' : release ids c tr = (c', tr') → registry c' = registry c.
Proof. unfold release. destruct (arc_drop_all ids (registrations c)). intros; by simplify_eq/=. Qed.

(** A step of [operand] caches at most its own bytes, in an arena it has hooked. *)
Lemma resolve_step_spec own w st p w' st' p' :
  resolve_step own w st p w' st' p' → process_ok p → stage_ok st own w →
  (∃ more, je_log st' = je_log st ++ more) ∧ process_ok p' ∧
  (∀ w2, w' = Some w2 → (∀ x, w_bytes w2 x ↔ w_bytes w x) ∧ stage_ok st' own w2) ∧
  (∀ d b e, view (registry (cached p')) d b = Some e → view (registry (cached p)) d b = Some e ∨
     ∀ x, inside (b, re_end e) x → w_bytes w x ∧ covered st' own x).
Proof.
  assert (∃ more : list je_call, je_log st = je_log st ++ more) as Hrefl by (exists []; by rewrite app_nil_r).
  intros Hs Hp Hst. unfold stage_ok in Hst.
  destruct Hs as [w st id c c' L tr Hw Hc|w st c c' L tr Hw Hc|w st p Hw Ho|w st index st' p Hw Ho Hl Hown
    |w arena st ok st' p Hw Hk|w span st b l mr id c c' L tr tr' Hw cacheable Hr Hn
    |w span st error c L tr tr' Hw cacheable Hr|w b l id replaced st c c' L tr Hw Hid Ht|w b l id st p Hw];
    rewrite Hw in Hst; cbn [cached].
  - assert (registry c' = registry c) as Hreg by (unfold covering in Hc; case_match; by simplify_eq/=).
    split_and!; [done| |done|rewrite Hreg; by left].
    pose proof (cache_step_ok _ _ (step_covering _ _ _ _ _ _ L tr Hc) Hp) as Hp'.
    change (list_to_set_disj (option_list (Some id))) with ({[+ id +]} ⊎ ∅ : gmultiset nat) in Hp'.
    by rewrite (right_id_L ∅ (⊎)) in Hp'.
  - assert (c' = c) as -> by (unfold covering in Hc; case_match; by simplify_eq/=).
    split_and!; [done|done| |by left]. by intros w2 [= <-].
  - split_and!; [done|done| |by left]. by intros w2 [= <-].
  - split_and!; [by eapply look_spec|done| |by left]. intros w2 [= <-]. split; [done|].
    destruct index as [arena|]; [|done]. intros x Hx. by apply (Hown arena x).
  - destruct (hook_arena_spec _ _ _ _ Hk) as [Hg Hh]. split_and!; [done|done| |by left].
    intros w2 [= <-]. split; [done|]. destruct ok; [|done]. unfold span_new, stage_ok. cbn [w_stage at_stage].
    destruct (checked_add _ _) as [z|] eqn:Ez; [|done]. apply checked_add_Some in Ez as [-> _]. simpl.
    split_and!; [done|done|]. intros x Hx. exists arena. auto.
  - pose proof (register_span_no_close _ _ _ _ _ _ _ Hr) as Hg.
    split_and!; [done|by eapply registered_process_ok| |rewrite (registration_new_registry _ _ _ _ Hn); by left].
    intros w2 [= <-]. split; [done|]. unfold stage_ok. cbn [w_stage at_stage].
    destruct (bool_decide_reflect (is_Some cacheable)) as [[s Hs]|]; [|done].
    assert (span = Some s) as ->.
    { unfold cacheable in Hs. destruct span as [s'|]; [|done]. simpl in Hs. case_match; by simplify_eq. }
    destruct Hst as (Hb & He & Hcov). apply register_span_Ok in Hr as [_ [[-> ->]|(s' & Hs' & -> & ->)]]; [done|].
    rewrite Hs in Hs'. by simplify_eq.
  - split_and!; [done| |done|by left]. eapply process_ok_grows; [done|]. by eapply register_span_no_close.
  - split_and!; [done|by eapply (cache_step_ok _ _ (step_track _ _ _ _ _ _ _ _ tr Hid Ht))|done|].
    apply track_locked_spec in Ht as (_ & _ & Hv & _). intros d' b' e He. rewrite Hv in He.
    destruct Hst as (-> & -> & Hcov). case_decide as Hd; [|by left]. right.
    destruct Hd as [-> ->]. simplify_eq/=. intros x Hx. split; [done|]. by apply Hcov.
  - split_and!; [done|done|done|by left].
Qed.

(** A step of a pinned region caches at most that region, and nothing of it is left when
    its owner has invalidated it. *)
Lemma pin_step_spec p pr p' pr' :
  pin_step p pr p' pr' → process_ok pr →
  process_ok pr' ∧
  (∀ p2, p' = Some p2 → ∀ x, p_bytes p2 x ↔ p_bytes p x) ∧
  (∀ d b e x, view (registry (cached pr')) d b = Some e → inside (b, re_end e) x →
     view (registry (cached pr)) d b = Some e ∧ ¬ pins_entry p d b e ∨
     (∃ p2, p' = Some p2 ∧ pins_entry p2 d b e)).
Proof.
  intros Hs Hp. destruct Hs as [p mr id c c' L tr tr' Hst Hr Hn|p error c L tr tr' Hst Hr
    |p id replaced c c' L tr Hst Hid Ht|p retired c c' L tr Hst Hi|p pr Hst]; cbn [cached].
  - pose proof (register_no_close _ _ _ _ _ _ Hr). split_and!; [by eapply registered_process_ok| |].
    + by intros p2 [= <-].
    + rewrite (registration_new_registry _ _ _ _ Hn). intros d b e x He _. left. split; [done|].
      intros [Hh _]. by rewrite Hst in Hh.
  - pose proof (register_no_close _ _ _ _ _ _ Hr). split_and!; [by eapply process_ok_grows|done|].
    intros d b e x He _. left. split; [done|]. intros [Hh _]. by rewrite Hst in Hh.
  - split_and!; [by eapply (cache_step_ok _ _ (step_track _ _ _ _ _ _ _ _ tr Hid Ht))| |].
    + by intros p2 [= <-].
    + apply track_locked_spec in Ht as (_ & _ & Hv & _). intros d b e x He _. rewrite Hv in He.
      case_decide as Hk; simplify_eq; [right|left].
      * destruct Hk as [-> ->]. by eexists.
      * split; [done|]. intros [Hh _]. by rewrite Hst in Hh.
  - split_and!; [by eapply (cache_step_ok _ _ (step_invalidate _ _ _ _ _ L tr Hi))| |].
    + by intros p2 [= <-].
    + apply invalidate_locked_spec in Hi as (_ & _ & Hv & _). intros d b e x He Hx. left. rewrite Hv in He.
      apply bind_Some in He as (e' & He' & Hk). case_decide as Hn; simplify_eq. split; [done|].
      intros (_ & _ & Hb & Hre). apply Hn. unfold overlaps, inside in *. simpl in *. lia.
  - split_and!; [done|done|]. intros d b e x He _. left. split; [done|].
    intros [Hh _]. by rewrite Hst in Hh.
Qed.

(** A step of a reclaim only takes extents away, and its deregistration every one that
    has a byte of the range. *)
Lemma reclaim_step_spec r p r' p' :
  reclaim_step r p r' p' → process_ok p →
  process_ok p' ∧ (∀ x, r_bytes r' x ↔ r_bytes r x) ∧
  (∀ d b e, view (registry (cached p')) d b = Some e → view (registry (cached p)) d b = Some e) ∧
  (past_deregistration r' → past_deregistration r ∨
     ∀ d b e x, view (registry (cached p')) d b = Some e → inside (b, re_end e) x → ¬ r_bytes r' x).
Proof.
  intros Hs Hp. destruct Hs as [via h call retired c c' L tr Hi|via h call id retired c c' L tr tr' Hr]; cbn [cached].
  - pose proof (cache_step_ok _ _ (step_invalidate _ _ _ _ _ L tr Hi) Hp) as Hp'.
    apply invalidate_locked_spec in Hi as (_ & _ & Hv & _).
    split_and!; [done|done| |intros _; right].
    + intros d b e He. rewrite Hv in He. apply bind_Some in He as (e' & He' & Hk). case_decide; by simplify_eq.
    + intros d b e x He Hx Hin. rewrite Hv in He. apply bind_Some in He as (e' & He' & Hk).
      case_decide as Hn; simplify_eq. apply Hn. unfold r_bytes, inside, overlaps in *. cbn [r_hook r_call] in Hin.
      rewrite wrapper_range_reclaimed. simpl in *. lia.
  - split_and!; [by eapply release_one_ok|done|by rewrite (release_registry _ _ _ _ _ Hr)|by left].
Qed.

Lemma elem_of_replaced {A} (x y : A) l1 l2 (r : option A) :
  x ∈ l1 ++ option_list r ++ l2 → x ∈ l1 ++ y :: l2 ∨ r = Some x.
Proof. rewrite !elem_of_app, elem_of_cons. destruct r; set_solver. Qed.

(** Replacing a live operand or region by one with the same bytes, or by nothing, makes
    nothing live. *)
Lemma live_resolving ws1 w ws2 w' ps x :
  (∀ w2, w' = Some w2 → ∀ y, w_bytes w2 y ↔ w_bytes w y) →
  live (ws1 ++ option_list w' ++ ws2) ps x → live (ws1 ++ w :: ws2) ps x.
Proof.
  intros Hb [(w2 & Hw2 & Hx)|Hp]; [left|by right].
  apply (elem_of_replaced _ w) in Hw2 as [Hw2|Hw2]; [by exists w2|].
  exists w. split; [set_solver|]. by apply (Hb w2).
Qed.

Lemma live_pinned ws ps1 p ps2 p' x :
  (∀ p2, p' = Some p2 → ∀ y, p_bytes p2 y ↔ p_bytes p y) →
  live ws (ps1 ++ option_list p' ++ ps2) x → live ws (ps1 ++ p :: ps2) x.
Proof.
  intros Hb [Hw|(p2 & Hp2 & Hx)]; [by left|right].
  apply (elem_of_replaced _ p) in Hp2 as [Hp2|Hp2]; [by exists p2|].
  exists p. split; [set_solver|]. by apply (Hb p2).
Qed.

Lemma resolve_step_ok own w st p w' st' p' ws1 ws2 ps rs :
  memory_ok (Mem st p own (ws1 ++ w :: ws2) ps rs) → resolve_step own w st p w' st' p' →
  memory_ok (Mem st' p' own (ws1 ++ option_list w' ++ ws2) ps rs).
Proof.
  intros [Hp Hst Hb Ha Hpast] Hs. cbn in *.
  destruct (resolve_step_spec _ _ _ _ _ _ _ Hs Hp (Hst w ltac:(set_solver))) as (Hg & Hp' & Hw' & Hview).
  split; cbn; [done|..].
  - intros w2 Hw2. apply (elem_of_replaced _ w) in Hw2 as [Hw2| ->]; [|by apply Hw'].
    eapply stage_ok_grows; [exact Hg| |by apply Hst]. auto.
  - intros d b e x He Hx. destruct (Hview _ _ _ He) as [He'|Hnew]; [|left; by apply Hnew].
    destruct (Hb _ _ _ _ He' Hx) as [Hc|Hc]; [left|by right]. eapply covered_grows; [exact Hg| |exact Hc]. auto.
  - intros r x Hr Hx Hl. eapply Ha; [exact Hr|exact Hx|]. eapply live_resolving; [|exact Hl].
    intros w2 ->. by apply Hw'.
  - intros r d b e x Hr Hd He Hx Hin. destruct (Hview _ _ _ He) as [He'|Hnew]; [by eapply Hpast|].
    eapply Ha; [exact Hr|exact Hin|]. left. exists w. split; [set_solver|]. by apply Hnew.
Qed.

Lemma pin_step_ok st p pn pn' p' own ws ps1 ps2 rs :
  memory_ok (Mem st p own ws (ps1 ++ pn :: ps2) rs) → pin_step pn p pn' p' →
  memory_ok (Mem st p' own ws (ps1 ++ option_list pn' ++ ps2) rs).
Proof.
  intros [Hp Hst Hb Ha Hpast] Hs. cbn in *.
  destruct (pin_step_spec _ _ _ _ Hs Hp) as (Hp' & Hbytes & Hview).
  assert (∀ d b e, pins_entry pn d b e → ∀ x, inside (b, re_end e) x → p_bytes pn x) as Hown.
  { intros d b e (_ & _ & <- & He) x. unfold p_bytes. by rewrite He. }
  split; cbn; [done|done|..].
  - intros d b e x He Hx. destruct (Hview _ _ _ _ He Hx) as [[He' Hn]|(p2 & -> & Hp2)].
    + destruct (Hb _ _ _ _ He' Hx) as [Hc|(p2 & Hin & Hp2)]; [by left|right]. exists p2. split; [|done].
      rewrite elem_of_app, elem_of_cons in Hin. destruct Hin as [?|[->|?]]; [set_solver|done|].
      rewrite !elem_of_app. auto.
    + right. exists p2. split; [set_solver|done].
  - intros r x Hr Hx Hl. eapply Ha; [exact Hr|exact Hx|]. by eapply live_pinned.
  - intros r d b e x Hr Hd He Hx Hin. destruct (Hview _ _ _ _ He Hx) as [[He' Hn]|(p2 & Hp2 & Hk)];
      [by eapply Hpast|].
    eapply Ha; [exact Hr|exact Hin|]. right. exists pn. split; [set_solver|].
    apply (Hbytes p2 Hp2). destruct Hk as (_ & _ & <- & Hend). unfold p_bytes. by rewrite Hend.
Qed.

Lemma reclaim_step_ok st p r r' p' own ws ps rs1 rs2 :
  memory_ok (Mem st p own ws ps (rs1 ++ r :: rs2)) → reclaim_step r p r' p' →
  memory_ok (Mem st p' own ws ps (rs1 ++ r' :: rs2)).
Proof.
  intros [Hp Hst Hb Ha Hpast] Hs. cbn in *.
  destruct (reclaim_step_spec _ _ _ _ Hs Hp) as (Hp' & Hbytes & Hview & Hd').
  assert (∀ r2, r2 ∈ rs1 ++ r' :: rs2 → r2 = r' ∨ r2 ∈ rs1 ++ r :: rs2) as Hin by set_solver.
  split; cbn; [done|done|..].
  - intros d b e x He. by apply (Hb d b e), Hview.
  - intros r2 x [->|Hr]%Hin Hx; [|by eapply Ha]. eapply (Ha r); [set_solver|by apply Hbytes].
  - intros r2 d b e x [->|Hr]%Hin Hd He Hx Hx2; [|by eapply Hpast, Hx2; [..|apply Hview|]].
    destruct (Hd' Hd) as [Hd''|Hnone]; [|by eapply Hnone].
    eapply (Hpast r); [set_solver|done|by apply Hview|done|by apply Hbytes].
Qed.

(** Steps that only take extents away, the rest of the state as it was. *)
Lemma memory_ok_shrinks st p p' own ws ps rs :
  memory_ok (Mem st p own ws ps rs) → process_ok p' →
  (∀ d b e, view (registry (cached p')) d b = Some e → view (registry (cached p)) d b = Some e) →
  memory_ok (Mem st p' own ws ps rs).
Proof.
  intros [Hp Hst Hb Ha Hpast] Hp' Hv. cbn in *. split; cbn; [done|done| |done|].
  - intros d b e x He. by apply (Hb d b e), Hv.
  - intros r d b e x Hr Hd He. by apply (Hpast r d b e), Hv.
Qed.

Lemma teardown_ok d retired st c c' L tr own ws ps rs :
  memory_ok (Mem st (Process c L tr) own ws ps rs) → clear_domain_locked d c = (retired, c') →
  memory_ok (Mem st (Process c' (L ⊎ list_to_set_disj retired) tr) own ws (retire_on d <$> ps) rs).
Proof.
  intros [Hp Hst Hb Ha Hpast] Hcl. cbn in *.
  pose proof (cache_step_ok _ _ (step_clear_domain _ _ _ _ L tr Hcl) Hp) as Hp'.
  apply clear_domain_locked_spec in Hcl as (_ & _ & Hv & _); [|apply Hp].
  split; cbn; [done|done|..].
  - intros d' b e x He Hx. rewrite Hv in He. case_decide as Hd; [done|].
    destruct (Hb _ _ _ _ He Hx) as [Hc|(p & Hin & Hk)]; [by left|right]. exists p. split; [|done].
    apply list_elem_of_fmap. exists p. split; [|done]. destruct Hk as (Hh & <- & _).
    unfold retire_on. rewrite Hh. by case_decide.
  - intros r x Hr Hx Hl. eapply Ha; [exact Hr|exact Hx|]. destruct Hl as [Hw|(p & (q & -> & Hq)%list_elem_of_fmap & Hpx)];
      [by left|right]. exists q. split; [done|]. unfold retire_on in Hpx. destruct (p_stage q); try done.
    by case_decide.
  - intros r d' b e x Hr Hd He. rewrite Hv in He. case_decide; [done|]. by apply (Hpast r d' b e).
Qed.

Lemma begin_reclaim_ok via h call arena st p own ws ps rs :
  memory_ok (Mem st p own ws ps rs) → (hooked (je_log st) arena → via = true) →
  let r := Reclaiming via h call (if via then Unregistering else Chaining []) in
  (∀ x, r_bytes r x → own x = Some arena ∧ ¬ live ws ps x) →
  memory_ok (Mem st p own ws ps (rs ++ [r])).
Proof.
  intros [Hp Hst Hb Ha Hpast] Hvia r Hown. cbn in *.
  assert (∀ r2, r2 ∈ rs ++ [r] → r2 ∈ rs ∨ r2 = r) as Hin by set_solver.
  split; cbn; [done|done|done|..].
  - intros r2 x [Hr| ->]%Hin Hx; [by eapply Ha|]. by apply Hown.
  - intros r2 d b e x [Hr| ->]%Hin Hd He Hx; [by eapply Hpast|]. intros [Ho Hl]%Hown.
    destruct (Hb _ _ _ _ He Hx) as [(arena' & Hh & Ho')|(p2 & Hp2 & _ & _ & <- & Hend)].
    + rewrite Ho in Ho'. simplify_eq. unfold past_deregistration, r in Hd. by rewrite Hvia in Hd.
    + apply Hl. right. exists p2. split; [done|]. unfold p_bytes. by rewrite Hend.
Qed.

Lemma unmap_other range own x : ¬ inside range x → unmap range own x = own x.
Proof.
  unfold unmap, inside. destruct (Z.leb_spec range.1 x), (Z.ltb_spec x range.2); simpl; try done. lia.
Qed.

(** The pages of a finished reclaim are nobody's: nothing live or cached had a byte there. *)
Lemma chain_ok via h call (released : bool) rs1 rs2 st p own ws ps :
  memory_ok (Mem st p own ws ps (rs1 ++ Reclaiming via h call (Chaining []) :: rs2)) →
  memory_ok (Mem st p (if released then unmap (reclaimed h call) own else own) ws ps (rs1 ++ rs2)).
Proof.
  intros [Hp Hst Hb Ha Hpast]. cbn in *. set (r := Reclaiming via h call (Chaining [])) in *.
  assert (r ∈ rs1 ++ r :: rs2) as Hr by set_solver.
  assert (∀ r2, r2 ∈ rs1 ++ rs2 → r2 ∈ rs1 ++ r :: rs2) as Hin by set_solver.
  assert (∀ x, ¬ r_bytes r x → (if released then unmap (reclaimed h call) own else own) x = own x) as Hsame.
  { intros x Hx. destruct released; [|done]. by apply unmap_other. }
  split; cbn; [done|..].
  - intros w Hw. eapply stage_ok_grows; [by exists []; rewrite app_nil_r| |by apply Hst].
    intros x a Hx. rewrite Hsame; [done|]. intros Hrx. eapply Ha; [exact Hr|exact Hrx|]. left. eauto.
  - intros d b e x He Hx. destruct (Hb _ _ _ _ He Hx) as [(a & Hh & Ho)|Hc]; [left|by right].
    exists a. split; [done|]. rewrite Hsame; [done|]. by eapply Hpast.
  - intros r2 x Hr2. by apply Ha, Hin.
  - intros r2 d b e x Hr2. by apply Hpast, Hin.
Qed.

Lemma map_ok arena start limit st p own ws ps rs :
  memory_ok (Mem st p own ws ps rs) → (∀ x, inside (start, limit) x → own x = None) →
  memory_ok (Mem st p (λ x, if (start <=? x)%Z && (x <? limit)%Z then Some arena else own x) ws ps rs).
Proof.
  intros [Hp Hst Hb Ha Hpast] Hfree. cbn in *.
  assert (∀ x a, own x = Some a →
    (if (start <=? x)%Z && (x <? limit)%Z then Some arena else own x) = Some a) as Hsame.
  { intros x a Ho. destruct (Z.leb_spec start x), (Z.ltb_spec x limit); simpl; try done.
    by rewrite Hfree in Ho by done. }
  split; cbn; [done| | |done|done].
  - intros w Hw. eapply stage_ok_grows; [by exists []; rewrite app_nil_r| |by apply Hst]. eauto.
  - intros d b e x He Hx. destruct (Hb _ _ _ _ He Hx) as [(a & Hh & Ho)|Hc]; [left|by right].
    exists a. eauto.
Qed.

Lemma begin_resolve_ok w st p own ws ps rs :
  memory_ok (Mem st p own ws ps rs) → w_stage w = Begun → (∀ r x, r ∈ rs → r_bytes r x → ¬ w_bytes w x) →
  memory_ok (Mem st p own (ws ++ [w]) ps rs).
Proof.
  intros [Hp Hst Hb Ha Hpast] Hw Hr. cbn in *. split; cbn; [done| |done| |done].
  - intros w2 [Hw2|Hw2%list_elem_of_singleton]%elem_of_app; [auto|]. subst. unfold stage_ok. by rewrite Hw.
  - intros r x Hin Hx [(w2 & [Hw2|Hw2%list_elem_of_singleton]%elem_of_app & Hx2)|Hl].
    + eapply Ha; [exact Hin|exact Hx|left; eauto].
    + subst. by eapply Hr.
    + eapply Ha; [exact Hin|exact Hx|by right].
Qed.

Lemma begin_pin_ok pn st p own ws ps rs :
  memory_ok (Mem st p own ws ps rs) → (∀ r x, r ∈ rs → r_bytes r x → ¬ p_bytes pn x) →
  memory_ok (Mem st p own ws (ps ++ [pn]) rs).
Proof.
  intros [Hp Hst Hb Ha Hpast] Hr. cbn in *. split; cbn; [done|done| | |done].
  - intros d b e x He Hx. destruct (Hb _ _ _ _ He Hx) as [Hc|(p2 & Hp2 & Hk)]; [by left|right].
    exists p2. split; [set_solver|done].
  - intros r x Hin Hx [Hl|(p2 & [Hp2|Hp2%list_elem_of_singleton]%elem_of_app & Hx2)].
    + eapply Ha; [exact Hin|exact Hx|by left].
    + eapply Ha; [exact Hin|exact Hx|right; eauto].
    + subst. by eapply Hr.
Qed.

Lemma memory_step_ok m m' : memory_ok m → memory_step m m' → memory_ok m'.
Proof.
  intros Hok Hs. destruct Hs as [| | | | |d retired st c c' L tr own ws ps rs Hcl
    |id st c c' L tr tr' own ws ps rs Hr|via h call arena st p own ws ps rs| |].
  - by apply map_ok.
  - by apply begin_resolve_ok.
  - by eapply resolve_step_ok.
  - by apply begin_pin_ok.
  - by eapply pin_step_ok.
  - by eapply teardown_ok.
  - eapply memory_ok_shrinks; [exact Hok| |].
    + eapply release_one_ok; [apply (mo_process _ Hok)|done].
    + cbn. by rewrite (release_registry _ _ _ _ _ Hr).
  - by apply (begin_reclaim_ok via h call arena).
  - by eapply reclaim_step_ok.
  - by eapply chain_ok.
Qed.

Lemma memory_reachable_ok st m : rtc memory_step (memory_new st) m → memory_ok m.
Proof.
  intros Hm. assert (memory_ok (memory_new st)) as Hok.
  { split; cbn; [apply start_process_ok|..]; try done; set_solver. }
  induction Hm as [|m1 m2 m3 Hs _ IH]; [done|]. by eapply IH, memory_step_ok.
Qed.

(** ** The uninterrupted runs are the code's

    A thread that is not interrupted takes its steps to where the functions of [Operands]
    and the wrappers say. *)

Lemma release_cons id ids c tr :
  release (id :: ids) c tr = let '(c1, tr1) := release [id] c tr in release ids c1 tr1.
Proof.
  unfold release. cbn [arc_drop_all]. destruct (arc_drop id (registrations c)) as [h last].
  cbn [registrations registry]. destruct (arc_drop_all ids h) as [h' closed].
  by rewrite app_nil_r, fmap_app, (assoc_L (++)).
Qed.

Lemma drops_alone ids st c c' L tr tr' own ws ps rs :
  release ids c tr = (c', tr') →
  rtc memory_step (Mem st (Process c (L ⊎ list_to_set_disj ids) tr) own ws ps rs)
                  (Mem st (Process c' L tr') own ws ps rs).
Proof.
  revert c tr. induction ids as [|id ids IH]; intros c tr Hr.
  { unfold release in Hr. simplify_eq/=. rewrite (right_id_L ∅ (⊎)), app_nil_r. by destruct c. }
  rewrite release_cons in Hr. destruct (release [id] c tr) as [c1 tr1] eqn:E1. simpl.
  rewrite (comm_L (⊎) {[+ id +]}), (assoc_L (⊎)). eapply rtc_l; [by eapply step_drop_lease|]. by apply IH.
Qed.

(** The span of a call of [operand], asked for only on a miss. *)
Definition span_of (d pointer n : Z) (offers : bool) (c : cache) (st : statics) :
    option CacheableSpan * statics :=
  match (covering pointer (pointer + n) d c).1 with
  | Some _ => (None, st)
  | None => if offers then covered_span pointer n st else (None, st)
  end.

(** A miss reaches the registration with the span [covered_span] answers. *)
Lemma offer_alone d pointer n (offers : bool) span st st' p own ws1 ws2 ps rs
  (Hown : ∀ arena x, (look pointer st).1 = Some arena → inside (pointer, pointer + n)%Z x → own x = Some arena)
  (Hspan : (if offers then covered_span pointer n st else (None, st)) = (span, st')) :
  rtc memory_step (Mem st p own (ws1 ++ Resolving d pointer n offers Missed :: ws2) ps rs)
    (Mem st' p own (ws1 ++ Resolving d pointer n offers (Offered span) :: ws2) ps rs).
Proof.
  destruct offers; cycle 1.
  { simplify_eq. apply rtc_once. by apply (step_resolve _ _ _ (Some _)), resolve_no_offer. }
  unfold covered_span in Hspan. rewrite ensure_covered_split in Hspan.
  destruct (look pointer st) as [[arena|] st1] eqn:El.
  - destruct (hook_arena arena st1) as [ok st2] eqn:Ek. simplify_eq.
    eapply rtc_l; [eapply (step_resolve _ _ _ (Some _)), resolve_look; [done|done|exact El|]|].
    { intros a x. apply Hown. }
    apply rtc_once. cbn [option_list at_stage w_domain w_pointer w_length w_offers app].
    by eapply (step_resolve _ _ _ (Some _)), resolve_hook.
  - simplify_eq. apply rtc_once. apply (step_resolve _ _ _ (Some _)).
    by apply (resolve_look own (Resolving d pointer n true Missed) st None st' p).
Qed.

Lemma operand_alone d pointer n offers span r st st' c c' L tr tr' own ws1 ws2 ps rs
  (Hadd : is_Some (checked_add pointer n))
  (Hown : ∀ arena x, (look pointer st).1 = Some arena → inside (pointer, pointer + n)%Z x → own x = Some arena)
  (Hspan : span_of d pointer n offers c st = (span, st'))
  (Hr : operand d pointer n span c tr = (r, c', tr')) :
  let leased := match r with Ok op => list_to_set_disj (option_list (lease op)) | Err _ => ∅ end in
  rtc memory_step
    (Mem st (Process c L tr) own (ws1 ++ Resolving d pointer n offers Begun :: ws2) ps rs)
    (Mem st' (Process c' (L ⊎ leased) tr') own (ws1 ++ ws2) ps rs).
Proof.
  destruct Hadd as [limit Hadd]. unfold operand in Hr. rewrite Hadd in Hr.
  apply checked_add_Some in Hadd as [-> _]. unfold span_of in Hspan.
  destruct (covering pointer (pointer + n) d c) as [[id|] c1] eqn:Hc; simpl in Hspan.
  { simplify_eq. cbn [lease option_list list_to_set_disj foldr]. apply rtc_once.
    change (list_to_set_disj (option_list (Some id))) with ({[+ id +]} ⊎ ∅ : gmultiset nat).
    rewrite (right_id_L ∅ (⊎)). by apply (step_resolve _ _ _ None), resolve_hit. }
  assert (c1 = c) as -> by (unfold covering in Hc; destruct (find_covering _ _ _ _); by simplify_eq).
  eapply rtc_l; [by eapply (step_resolve _ _ _ (Some _)), resolve_miss|].
  etrans; [by eapply offer_alone|].
  set (cacheable := span ≫= _) in Hr.
  destruct (register_span d pointer (pointer + n) cacheable tr) as [region tr1] eqn:Hreg.
  destruct region as [[[b l] mr]|error]; cycle 1.
  { simplify_eq. rewrite (right_id_L ∅ (⊎)). apply rtc_once. by eapply (step_resolve _ _ _ None), resolve_refused. }
  destruct (registration_new mr c) as [id c2] eqn:Hn.
  eapply rtc_l; [by eapply (step_resolve _ _ _ (Some _)), resolve_register|].
  destruct (match cacheable with Some _ => _ | None => _ end) as [c3 tr3] eqn:Ht. simplify_eq.
  change (list_to_set_disj (option_list (lease _))) with ({[+ id +]} ⊎ ∅ : gmultiset nat).
  rewrite (right_id_L ∅ (⊎)). cbn [option_list app].
  replace (span ≫= _) with cacheable by done. destruct cacheable as [s|].
  - unfold track in Ht. destruct (track_locked b l d id c2) as [replaced c4] eqn:Hk.
    eapply rtc_l; [eapply (step_resolve _ _ _ None), resolve_track; [done|multiset_solver|exact Hk]|].
    by apply drops_alone.
  - simplify_eq. apply rtc_once. by eapply (step_resolve _ _ _ None), resolve_uncached.
Qed.

Lemma pin_alone d b n r st c c' L tr tr' own ws ps1 ps2 rs
  (Hadd : is_Some (checked_add b n)) (Hr : pin d b n c tr = (r, c', tr')) :
  rtc memory_step
    (Mem st (Process c L tr) own ws (ps1 ++ Pinned d b (b + n) Pinning :: ps2) rs)
    (Mem st (Process c' L tr') own ws
      (ps1 ++ match r with Ok _ => [Pinned d b (b + n) Held] | Err _ => [] end ++ ps2) rs).
Proof.
  destruct Hadd as [limit Hadd]. unfold pin in Hr. rewrite Hadd in Hr.
  apply checked_add_Some in Hadd as [-> _]. destruct (register d b n tr) as [[mr|error] tr1] eqn:Hreg; cycle 1.
  { simplify_eq. apply rtc_once. eapply (step_pin _ _ _ None), pin_refused; [done|].
    cbn. by replace (b + n - b)%Z with n by lia. }
  destruct (registration_new mr c) as [id c1] eqn:Hn. unfold track in Hr.
  destruct (track_locked b (b + n) d id c1) as [replaced c2] eqn:Hk.
  destruct (release replaced c2 tr1) as [c3 tr3] eqn:Hd. destruct (release [id] c3 tr3) as [c4 tr4] eqn:Hd'.
  simplify_eq.
  eapply rtc_l; [eapply (step_pin _ _ _ (Some _)), pin_register; [done| |exact Hn]|].
  { cbn. by replace (b + n - b)%Z with n by lia. }
  eapply rtc_l; [eapply (step_pin _ _ _ (Some _)), pin_track; [done| |exact Hk]; multiset_solver|].
  etrans; [by apply drops_alone|]. apply rtc_once. by apply step_drop_lease.
Qed.

Lemma retired_dropped via h call ids st c c' L tr tr' own ws ps rs1 rs2 :
  release ids c tr = (c', tr') →
  rtc memory_step
    (Mem st (Process c (L ⊎ list_to_set_disj ids) tr) own ws ps (rs1 ++ Reclaiming via h call (Chaining ids) :: rs2))
    (Mem st (Process c' L tr') own ws ps (rs1 ++ Reclaiming via h call (Chaining []) :: rs2)).
Proof.
  revert c tr. induction ids as [|id ids IH]; intros c tr Hr.
  { unfold release in Hr. simplify_eq/=. rewrite (right_id_L ∅ (⊎)), app_nil_r. by destruct c. }
  rewrite release_cons in Hr. destruct (release [id] c tr) as [c1 tr1] eqn:E1. simpl.
  rewrite (comm_L (⊎) {[+ id +]}), (assoc_L (⊎)). eapply rtc_l; [by eapply step_reclaim, reclaim_drop|].
  by apply IH.
Qed.

Lemma wrapper_alone h call failed events st c c' L tr tr' own ws ps rs1 rs2
  (Hc : call_wrapped h call st c tr = (failed, c', tr', events)) :
  let released := match h with Dalloc => negb failed | Destroy => true | _ => false end in
  rtc memory_step
    (Mem st (Process c L tr) own ws ps (rs1 ++ Reclaiming true h call Unregistering :: rs2))
    (Mem st (Process c' L tr') (if released then unmap (reclaimed h call) own else own) ws ps (rs1 ++ rs2)).
Proof.
  rewrite call_wrapped_spec in Hc. unfold invalidate in Hc.
  destruct (invalidate_locked _ _ c) as [retired c1] eqn:Hi.
  destruct (release retired c1 tr) as [c2 tr2] eqn:Hd. simplify_eq.
  eapply rtc_l; [by eapply step_reclaim, reclaim_deregister|].
  etrans; [by apply retired_dropped|]. apply rtc_once. by apply step_chain.
Qed.

(** C14: A registration goes before its pages do.  From a fresh process, over any
    interleaving of calls resolving operands, pinning regions, dropping leases, tearing
    domains down and arenas mapping and reclaiming pages, the threads taking turns at every
    lock of the registry, every [fi_mr_reg] and every call to the allocator: from the moment
    a wrapper has deregistered the bytes of its reclaim until its native function has
    returned (for an arena not hooked when it began, during its whole reclaim), whichever of
    the five hooks it is, no cached extent of any domain has one of the reclaimed bytes, and
    [covering] finds nothing for an operand that has one: no transfer is given a
    registration gone stale.  Taken from outside: an operand's memory is live while it is
    being resolved and a pinned region's until it is freed, an arena reclaims no live page,
    and jemalloc's lookup names the arena that owns an operand. *)
Theorem reclaimed_bytes_unregistered st m r
  (Hm : rtc memory_step (memory_new st) m)
  (Hr : r ∈ reclaims m) (Hpast : past_deregistration r) :
  let '(start, limit) := reclaimed (r_hook r) (r_call r) in
  let entries := registry (cached (m_process m)) in
  (∀ d b e x, view entries d b = Some e → (start ≤ x < limit)%Z → ¬ (b ≤ x < re_end e)%Z) ∧
  (∀ d s e x, (start ≤ x < limit)%Z → (s ≤ x < e)%Z → find_covering s e d entries = None).
Proof.
  pose proof (memory_reachable_ok _ _ Hm) as Hok.
  destruct (reclaimed (r_hook r) (r_call r)) as [start limit] eqn:Er.
  assert (∀ d b e x, view (registry (cached (m_process m))) d b = Some e →
    (start ≤ x < limit)%Z → ¬ (b ≤ x < re_end e)%Z) as Hnone.
  { intros d b e x He Hx Hin. eapply (mo_past _ Hok); [exact Hr|exact Hpast|exact He|exact Hin|].
    unfold r_bytes, inside. by rewrite Er. }
  split; [exact Hnone|]. intros d s e x Hx Hs.
  destruct (find_covering s e d _) as [id|] eqn:Ef; [exfalso|done].
  apply find_covering_sound in Ef as (b & en & He & _ & Hb & Hen).
  by eapply Hnone; [exact He|exact Hx|lia].
Qed.

(** The wrappers deregister, then chain.  Whichever hook jemalloc calls, the first
    thing done is closing registrations: those of the cached extents over the bytes, which
    all leave the cache, each closed now unless something still leases it; then, once, the
    native function of the same hook with the same arguments, whose answer is passed on.
    Without one the hook fails, so jemalloc keeps the bytes. *)
Lemma wrappers_deregister_then_chain h call st c L tr
  (Hc : cache_ok c L tr) :
  let '(start, limit) := reclaimed h call in
  let '(failed, c', tr', events) := call_wrapped h call st c tr in
  cache_ok c' L tr' ∧
  (∀ d b e, view (registry c') d b = Some e ↔
     view (registry c) d b = Some e ∧ (limit ≤ b ∨ re_end e ≤ start)%Z) ∧
  ∃ mrs, tr' = tr ++ (MrClose <$> mrs) ∧
    events = Deregister (MrClose <$> mrs) ::
               match default_of h st with Some f => [Chain f call] | None => [] end ∧
    (h ≠ Destroy → failed = match default_of h st with Some f => native f h call | None => true end).
Proof.
  rewrite call_wrapped_spec. pose proof (wrapper_range_reclaimed h call) as Hw.
  destruct (reclaimed h call) as [start limit]. rewrite Hw. cbn [fst snd].
  destruct (invalidate start limit c tr) as [c' tr'] eqn:Ei.
  destruct (invalidate_cache_ok _ _ _ _ _ _ _ Hc Ei) as (Hc' & [mrs ->] & Hv).
  split; [done|]. split.
  - intros d b e. rewrite Hv. unfold overlaps. simpl. intuition lia.
  - exists mrs. rewrite drop_app_length. split_and!; [done|done|].
    intros Hd. unfold wrapper_answer. by destruct (default_of h st), h.
Qed.

(** Without jemalloc's hooks nothing is cached.  [install] finds the default hooks or
    it does not.  If it does, the wrapper table keeps the native alloc, commit, split and
    merge and overrides exactly the five that reclaim, each chaining to the native one it
    replaced; if it does not, no arena is ever hooked and no operand offers a span, so
    every operand is registered for its own operation. *)
Lemma install_arms_or_never_caches decay threshold report st
  (Hi : install decay threshold statics_new = (report, st)) :
  match mode report with
  | Cached =>
      ∃ default, (read_extent_hooks 0 []).1 = Some default ∧ DEFAULT st = default ∧ ARMED st = true ∧
        WRAPPED st = Build_ExtentHooks (h_alloc default) (Some Dalloc) (Some Destroy) (h_commit default)
                       (Some Decommit) (Some PurgeLazy) (Some PurgeForced) (h_split default) (h_merge default) ∧
        (∀ pointer index, mallctl_lookup (je_log st) pointer = (0%Z, index) →
           mallctl_write (je_log st ++ [JeLookup pointer]) (arena_key index "extent_hooks") HooksTable = 0%Z →
           (ensure_covered pointer st).1 = true)
  | PerOperation =>
      (read_extent_hooks 0 []).1 = None ∧
      ∀ pointer n, covered_span pointer n st = (None, st)
  end.
Proof.
  unfold install in Hi. destruct (read_extent_hooks 0 (je_log statics_new)) as [[default|] je] eqn:Er;
    simpl in Er; rewrite Er.
  - assert (jemalloc = true) as Hj.
    { unfold read_extent_hooks, read in Er. by destruct jemalloc. }
    destruct (tune decay threshold je) as [arena je'] eqn:Et. simplify_eq. simpl.
    exists default. split_and!; try done. intros pointer index Hl Hw.
    unfold ensure_covered, arena_of, write_extent_hooks, write. simpl. rewrite Hj, Hl. simpl. by rewrite Hw.
  - simplify_eq. simpl. by split.
Qed.

End machine.

(** ** Witnesses: one operand cached in a hooked arena and a region pinned elsewhere; the
    arena reclaims the operand's pages while another is between its registration and the
    cache *)

Definition native_hooks : ExtentHooks Z :=
  Build_ExtentHooks 1%Z (Some 2%Z) (Some 3%Z) 4%Z (Some 5%Z) (Some 6%Z) (Some 7%Z) 8%Z 9%Z.

Definition example_jemalloc : Jemalloc := {|
  dlsym _ := true;
  je_malloc _ _ := (2 ^ 30)%Z;
  mallctl_lookup _ _ := (0, 1)%Z;
  mallctl_write _ _ _ := 0%Z;
  mallctl_read _ _ := (0%Z, 8%Z, Some native_hooks);
  native _ _ _ := false;
|}.

Section witnesses.
#[local] Existing Instances example_jemalloc example_libfabric.

Definition armed_statics : statics := (install 1000 (512 * 1024 * 1024) statics_new).2.

Definition mapped_owner (x : Z) : option Z :=
  if (4096 <=? x)%Z && (x <? 12288)%Z then Some 1%Z else None.

Lemma mapped_owned x : (4096 ≤ x < 12288)%Z → mapped_owner x = Some 1%Z.
Proof. intros Hx. unfold mapped_owner. by rewrite (proj2 (Z.leb_le _ _)), (proj2 (Z.ltb_lt _ _)) by lia. Qed.

(** The operand at 8192, as far as its registration. *)
Definition between : resolving := Resolving 7 8192 4096 true (Registered 8192 12288 2 true).

Definition pinned_region : pinned := Pinned 7 65536 69632 Held.

(** A decommit of one page inside the operand at 4096, whose extent is longer. *)
Definition decommitted : hook_call :=
  {| addr := 0; size := 12288; offset := 4096; length := 2048; committed := true; arena_ind := 1 |}.

(** The pinned region, then the first operand, then the second's first four steps. *)
Definition after_pin : cache * trace :=
  let '(_, c, tr) := pin 7 65536 4096 empty_cache [] in (c, tr).

Definition first_cached : statics * cache * trace :=
  let '(span, st) := span_of 7 4096 4096 true after_pin.1 armed_statics in
  let '(_, c, tr) := operand 7 4096 4096 span after_pin.1 after_pin.2 in (st, c, tr).

Definition looked : statics := (look 8192 first_cached.1.1).2.
Definition offered : statics := (hook_arena 1 looked).2.
Definition second_registered : cache := (registration_new 3 first_cached.1.2).2.
Definition second_trace : trace := first_cached.2 ++ [MrReg 7 8192 4096].
Definition deregistered : list nat * cache := invalidate_locked 4096 6144 second_registered.

Definition reclaiming_now : reclaiming := Reclaiming true Decommit decommitted (Chaining deregistered.1).

Definition mid_reclaim : memory :=
  Mem offered
    (Process deregistered.2 ({[+ 1 +]} ⊎ {[+ 2 +]} ⊎ list_to_set_disj deregistered.1) second_trace)
    mapped_owner [between] [pinned_region] [reclaiming_now].

Lemma mid_reclaim_reachable : rtc memory_step (memory_new armed_statics) mid_reclaim.
Proof.
  eapply rtc_l; [apply (step_map 1 4096 12288); done|].
  change (λ x, if (4096 <=? x)%Z && (x <? 12288)%Z then Some 1%Z else None) with mapped_owner.
  eapply rtc_l; [apply (step_begin_pin 7 65536 69632); [done|set_solver]|].
  etrans; [by apply (pin_alone 7 65536 4096 (Ok ()) _ _ after_pin.1 _ _ after_pin.2 _ _ [] [])|].
  eapply rtc_l; [apply (step_begin_resolve 7 4096 4096 true); [by eexists|set_solver]|].
  etrans; [eapply (operand_alone 7 4096 4096 true _ _ _ first_cached.1.1 _ first_cached.1.2 _ _ first_cached.2 _ [] []);
    [by eexists| |vm_compute; reflexivity|vm_compute; reflexivity]|].
  { intros arena x [= <-] Hx. apply mapped_owned. unfold inside in Hx. simpl in Hx. lia. }
  eapply rtc_l; [apply (step_begin_resolve 7 8192 4096 true); [by eexists|set_solver]|].
  eapply rtc_l; [eapply (step_resolve [] _ [] (Some _)), (resolve_miss _ _ _ _ first_cached.1.2); by vm_compute|].
  eapply rtc_l; [eapply (step_resolve [] _ [] (Some _)), (resolve_look _ _ _ (Some 1%Z) looked);
    [done|done|by vm_compute|]|].
  { intros arena x [= <-] Hx. apply mapped_owned. unfold w_bytes, inside, w_end in Hx. simpl in Hx. lia. }
  eapply rtc_l; [eapply (step_resolve [] _ [] (Some _)), (resolve_hook _ _ 1 _ true offered); by vm_compute|].
  eapply rtc_l; [eapply (step_resolve [] _ [] (Some _)),
    (resolve_register _ _ (Some {| base := 8192; end_ := 12288 |}) _ 8192 12288 3 2 _ second_registered _ _ second_trace);
    by vm_compute|].
  eapply rtc_l; [apply (step_begin_reclaim true Decommit decommitted 1); [done|]|].
  { intros x Hx. unfold r_bytes, inside in Hx. simpl in Hx. split; [apply mapped_owned; lia|].
    unfold live, w_bytes, p_bytes, inside, w_end.
    intros [(w & ->%list_elem_of_singleton & Hw)|(p & ->%list_elem_of_singleton & Hp)]; simpl in *; lia. }
  apply rtc_once. apply (step_reclaim [] _ []), reclaim_deregister. by vm_compute.
Qed.

Lemma reclaimed_bytes_unregistered_witness :
  view (registry first_cached.1.2) 7 4096 = Some {| re_end := 8192; registration := 1 |} ∧
  find_covering 4096 4100 7 (registry (cached (m_process mid_reclaim))) = None ∧
  is_Some (find_covering 65536 65600 7 (registry (cached (m_process mid_reclaim)))).
Proof.
  split; [by vm_compute|]. split; [|vm_compute; by eexists].
  destruct (reclaimed_bytes_unregistered armed_statics mid_reclaim reclaiming_now mid_reclaim_reachable)
    as [_ Hnone]; [by left|done|].
  apply (Hnone 7 4096 4100 4099)%Z; simpl; lia.
Defined.

End witnesses.
