(* ===== verification/DataCommands.v ===== *)
(** * The data commands

    [module/src/transfer.rs] and [valkey_error.rs]: [DMA.HELLO], [DMA.GET] and [DMA.SET]
    on valkey's command thread, the operand tokens the fabric worker carries, and the
    completion batches that commit values and answer clients.  The valkey module API is
    not part of the repository: the keyspace and what it answers are parameters. *)

From S2P Require Import Prelude Arc Wire Fabric RegionCache Operands PeerAddresses Config Endpoint.
From S2P Require Import Pool Worker FabricTransport Service Start.

(** ** The valkey module API *)

(** A string object: where its bytes are and how many. *)
Record ValkeyString := { vs_pointer : Z; vs_length : Z }.

#[local] Set Warnings "-register-all".

Inductive ValkeyValue : Type :=
  | Null
  | NoReply
  | Integer (value : Z)
  | SimpleString (text : list u8)
  | Array (values : list ValkeyValue).

Inductive ValkeyError : Type :=
  | WrongArity
  | ErrorText (text : string).

Abbreviation ValkeyResult := (result ValkeyValue ValkeyError).

Class Valkey (V : Type) := {
  (** [open_key(key).read()]: the value's bytes, nothing, or a value that is no string. *)
  vk_read : V → list u8 → result (option (list u8)) ();
  (** [retained_string_value], where the server has it. *)
  vk_retained : V → list u8 → option ValkeyString;
  (** [open_key_writable(key).set_move(value)]: whether it succeeds. *)
  vk_set_move : V → list u8 → ValkeyString → bool * V;
}.

(** [as i64] of a [usize]. *)
Definition as_i64 (n : Z) : Z := if (n <? 2 ^ 63)%Z then n else (n - 2 ^ 64)%Z.

(** [{:#010x}] of a [u32]. *)
Fixpoint hex_padded (width : nat) (n : Z) (acc : list u8) : list u8 :=
  match width with
  | O => acc
  | S width => hex_padded width (n / 16) (default Byte.x30 (from_digit16 (Z.to_N (n mod 16))) :: acc)
  end.

Definition hex8 (n : Z) : string := "0x" +:+ String.string_of_list_byte (hex_padded 8 n []).

Example hex8_example : hex8 3808858755 = "0xe3069283".
Proof. by vm_compute. Qed.

(** [command_error] *)
Definition command_error (message : string) : ValkeyError := ErrorText ("ERR " +:+ message).

(** ** Tokens *)

(** [HeldValue]: the retained string, or a copy in a vector. *)
Inductive HeldValue : Type :=
  | Retained (value : ValkeyString)
  | Copied (value : vec).

Definition as_bytes (held : HeldValue) : slice :=
  match held with
  | Retained value => Slice (vs_pointer value) (vs_length value)
  | Copied value => Slice (buffer value) (Z.of_nat (length (bytes value)))
  end.

(** [OpToken]; a blocked client is named by its handle. *)
Inductive OpToken : Type :=
  | GetToken (blocked : nat) (held : HeldValue)
  | SetToken (blocked : nat) (destination : option ValkeyString) (key : list u8) (expected_crc : option Z).

Definition blocked_of (token : OpToken) : nat :=
  match token with GetToken blocked _ | SetToken blocked _ _ _ => blocked end.

Section tokens.
  (** [ValkeyString::create_uninitialized], by the length and the token asking for it;
      [memory::ensure_covered]'s answer. *)
  Variables (create_uninitialized : Z → OpToken → ValkeyString) (ensure_covered : Z → bool).

Definition token_source (token : OpToken) : option slice :=
  match token with
  | GetToken _ held => Some (as_bytes held)
  | SetToken _ _ _ _ => None
  end.

Definition token_allocate (length : Z) (token : OpToken) : option slice * OpToken :=
  match token with
  | SetToken blocked _ key expected_crc =>
      let destination := create_uninitialized length token in
      (Some (Slice (vs_pointer destination) (vs_length destination)),
       SetToken blocked (Some destination) key expected_crc)
  | GetToken _ _ => (None, token)
  end.

Definition token_cacheable_span (token : OpToken) : option CacheableSpan :=
  b ← match token with
      | GetToken _ held => Some (as_bytes held)
      | SetToken _ destination _ _ => (λ d, Slice (vs_pointer d) (vs_length d)) <$> destination
      end;
  if ensure_covered (pointer b) then span_new (pointer b) (len b) else None.

(** [impl Operands for OpToken] *)
Definition token_operands : Operands OpToken :=
  {| source := token_source; allocate := token_allocate; cacheable_span := token_cacheable_span |}.

Lemma token_laws : @OperandsLaws OpToken nat token_operands blocked_of.
Proof. split. by intros length []. Qed.

End tokens.

(** ** Finishing a transfer *)

Section finishing.
  Context {V : Type} `{!Valkey V}.
  Implicit Types (ks : V).

(** [get_reply] *)
Definition get_reply (outcome : Outcome) : ValkeyResult :=
  match outcome with
  | Ok {| done_bytes := bytes; checksum := Some checksum |} =>
      Ok (Array [Integer (as_i64 bytes); Integer checksum])
  | Ok {| done_bytes := bytes; checksum := None |} => Ok (Integer (as_i64 bytes))
  | Err error => Err (command_error (DmaError_display error))
  end.

Definition mismatch (expected actual : Z) : ValkeyError :=
  ErrorText ("ERR checksum mismatch: client " +:+ hex8 expected +:+ ", server " +:+ hex8 actual +:+
             " (value not stored)").

(** [set_reply] *)
Definition set_reply (outcome : Outcome) (destination : option ValkeyString) (key : list u8)
    (expected_crc : option Z) ks : ValkeyResult * V :=
  match outcome with
  | Err error => (Err (command_error (DmaError_display error)), ks)
  | Ok done =>
      let actual := default 0%Z (checksum done) in
      match expected_crc ≫= λ expected, if (actual =? expected)%Z then None else Some (mismatch expected actual) with
      | Some error => (Err error, ks)
      | None =>
          match destination with
          | None => (Err (ErrorText "ERR landing buffer missing"), ks)
          | Some destination =>
              let '(ok, ks) := vk_set_move ks key destination in
              (if ok then Ok (Integer (as_i64 (done_bytes done)))
               else Err (ErrorText "ERR failed to store value"), ks)
          end
      end
  end.

(** [finish_under_gil]: a reply staged for its client. *)
Definition finish_under_gil (token : OpToken) (outcome : Outcome) ks : (nat * ValkeyResult) * V :=
  match token with
  | GetToken blocked held => ((blocked, get_reply outcome), ks)
  | SetToken blocked destination key expected_crc =>
      let '(reply, ks) := set_reply outcome destination key expected_crc ks in ((blocked, reply), ks)
  end.

(** What valkey sees of a batch: the keyspace changes under its lock, the replies after. *)
Inductive gil_event : Type :=
  | Locked
  | Finished (blocked : nat)
  | Unlocked
  | Replied (blocked : nat) (reply : ValkeyResult).

Fixpoint finish_all (completions : list (Completion OpToken)) ks : list (nat * ValkeyResult) * V :=
  match completions with
  | [] => ([], ks)
  | c :: completions =>
      let '(reply, ks) := finish_under_gil (completed_context c) (outcome c) ks in
      let '(pending, ks) := finish_all completions ks in
      (reply :: pending, ks)
  end.

(** [complete_batch] *)
Definition complete_batch (completions : list (Completion OpToken)) ks : list gil_event * V :=
  let '(pending, ks) := finish_all completions ks in
  ([Locked] ++ ((λ r, Finished r.1) <$> pending) ++ [Unlocked] ++ ((λ r, Replied r.1 r.2) <$> pending), ks).

End finishing.

(** ** The module's state *)

(** A fabric service as the module holds it: its address and the cap its worker runs with. *)
Record fabric_service (E : Type) := {
  service_address : list u8;
  service_cap : nat;
  running : service E OpToken nat;
}.
Arguments Build_fabric_service {E} _ _ _.
Arguments service_address {E} _.
Arguments service_cap {E} _.
Arguments running {E} _.

(** The statics of the command thread with the keyspace, the world the services start in,
    the handles [block_client] has given out, and the replies sent. *)
Record module (E V X : Type) := {
  keyspace : V;
  world : X;
  FABRIC_SERVICES : option (list (fabric_service E));
  NEXT : Z;
  blocked_clients : nat;
  sent : list (nat * ValkeyResult);
  zero_copy_logged : bool;
  fallback_logged : bool;
  notices : list string;
}.
Arguments Build_module {E V X} _ _ _ _ _ _ _ _ _.
Arguments keyspace {E V X} _.
Arguments world {E V X} _.
Arguments FABRIC_SERVICES {E V X} _.
Arguments NEXT {E V X} _.
Arguments blocked_clients {E V X} _.
Arguments sent {E V X} _.
Arguments zero_copy_logged {E V X} _.
Arguments fallback_logged {E V X} _.
Arguments notices {E V X} _.

Section setters.
  Context {E V X : Type}.
  Implicit Types (m : module E V X).

Definition with_world (x : X) m : module E V X :=
  Build_module (keyspace m) x (FABRIC_SERVICES m) (NEXT m) (blocked_clients m) (sent m)
    (zero_copy_logged m) (fallback_logged m) (notices m).
Definition with_services (l : option (list (fabric_service E))) m : module E V X :=
  Build_module (keyspace m) (world m) l (NEXT m) (blocked_clients m) (sent m)
    (zero_copy_logged m) (fallback_logged m) (notices m).
Definition with_next (n : Z) m : module E V X :=
  Build_module (keyspace m) (world m) (FABRIC_SERVICES m) n (blocked_clients m) (sent m)
    (zero_copy_logged m) (fallback_logged m) (notices m).
Definition with_blocked (n : nat) m : module E V X :=
  Build_module (keyspace m) (world m) (FABRIC_SERVICES m) (NEXT m) n (sent m)
    (zero_copy_logged m) (fallback_logged m) (notices m).
Definition with_reply (ks : V) (r : nat * ValkeyResult) m : module E V X :=
  Build_module ks (world m) (FABRIC_SERVICES m) (NEXT m) (blocked_clients m) (sent m ++ [r])
    (zero_copy_logged m) (fallback_logged m) (notices m).
Definition notice (text : string) m : module E V X :=
  Build_module (keyspace m) (world m) (FABRIC_SERVICES m) (NEXT m) (blocked_clients m) (sent m)
    (zero_copy_logged m) (fallback_logged m) (notices m ++ [text]).

(** [note_zero_copy]: once. *)
Definition note_zero_copy m : module E V X :=
  if zero_copy_logged m then m
  else Build_module (keyspace m) (world m) (FABRIC_SERVICES m) (NEXT m) (blocked_clients m) (sent m)
         true (fallback_logged m)
         (notices m ++ ["DMA.GET: zero-copy path active (retained value buffer)"]).

(** [note_fallback]: once. *)
Definition note_fallback m : module E V X :=
  if fallback_logged m then m
  else Build_module (keyspace m) (world m) (FABRIC_SERVICES m) (NEXT m) (blocked_clients m) (sent m)
         (zero_copy_logged m) true
         (notices m ++ ["DMA.GET: FALLBACK copy path active — server does not export CreateStringReferenceFromKey; every GET copies the value. Rebuild valkey with the CreateStringReferenceFromKey module API."]).

End setters.

(** ** Services *)

(** [{:?}] of a [Vec<String>]. *)
Definition debug_names (names : list string) : string :=
  "[" +:+ String.concat ", " (debug_text <$> names) +:+ "]".

Section services.
  Context {E V X : Type} `{!Transport E, !Valkey V}.
  (** [discover_domains] and [FabricService::start], of [Endpoint] and [Start]; each
      thread of the pool spawning or not. *)
  Variables (discover : Configuration → X → result (list string) DmaError * X)
    (start : Configuration → X → result (list u8 * nat * service E OpToken nat) DmaError * X)
    (spawn_pool : nat → result () string).
  (** The module's configuration section. *)
  Variable (fabric : Configuration).
  Implicit Types (m : module E V X).

(** One device's configuration. *)
Definition per_device (domain : string) : Configuration :=
  {| providers := providers fabric; interfaces := [domain]; bind := Config.bind fabric;
     max_in_flight := max_in_flight fabric; crc_pool_threads := crc_pool_threads fabric;
     progress_deadline := progress_deadline fabric; quiesce_writes := quiesce_writes fabric |}.

Definition started (r : list u8 * nat * service E OpToken nat) : fabric_service E :=
  let '(address, cap, s) := r in Build_fabric_service address cap s.

(** A failure drops the services already started, which closes and joins each; they are
    handed back for what that does. *)
Fixpoint start_each (domains : list string) (x : X) :
    result (list (fabric_service E)) (DmaError * list (fabric_service E)) * X :=
  match domains with
  | [] => (Ok [], x)
  | domain :: domains =>
      match start (per_device domain) x with
      | (Err error, x) => (Err (error, []), x)
      | (Ok s, x) =>
          match start_each domains x with
          | (Ok rest, x) => (Ok (started s :: rest), x)
          | (Err (error, dropped), x) => (Err (error, started s :: dropped), x)
          end
      end
  end.

(** [start_services] *)
Definition start_services m : result (list (fabric_service E)) DmaError * module E V X :=
  let '(domains, x) :=
    match head (providers fabric) with
    | Some EfaDirect => let '(r, x) := discover fabric (world m) in
                        (match r with Ok names => names | Err _ => [] end, x)
    | _ => ([], world m)
    end in
  let m := with_world x m in
  let worker_count := length domains `max` 1 in
  let pool_threads := default (2 * Z.of_nat worker_count)%Z (crc_pool_threads fabric) in
  match pool_new (J := list (InFlight OpToken * result () DmaError)) spawn_pool (Z.to_nat pool_threads) with
  | Err error => (Err (Fabric ("failed to start crc pool: " +:+ error)), m)
  | Ok _ =>
      match domains with
      | [] =>
          let m := notice "valkey-dma: starting 1 fabric worker (single device)" m in
          let '(r, x) := start fabric (world m) in
          (let? s := r in Ok [started s], with_world x m)
      | _ =>
          let m := notice ("valkey-dma: discovered " +:+ pretty (length domains) +:+ " EFA device(s) " +:+
                           debug_names domains +:+ "; starting one worker per device, advertising all of them and serving each transfer on the least loaded") m in
          let '(r, x) := start_each domains (world m) in
          (match r with Ok l => Ok l | Err (error, _) => Err error end, with_world x m)
      end
  end.

(** [fabric_services]: started on first use. *)
Definition fabric_services m : result (list (fabric_service E)) DmaError * module E V X :=
  match FABRIC_SERVICES m with
  | Some servers => (Ok servers, m)
  | None =>
      match start_services m with
      | (Err error, m) => (Err error, m)
      | (Ok servers, m) => (Ok servers, with_services (Some servers) m)
      end
  end.

(** [Iterator::min_by_key]: the first of the least. *)
Fixpoint min_by_key {A} (key : A → Z * Z) (l : list A) : option A :=
  match l with
  | [] => None
  | x :: l =>
      match min_by_key key l with
      | None => Some x
      | Some y =>
          if ((key x).1 <? (key y).1)%Z || (((key x).1 =? (key y).1)%Z && ((key x).2 <=? (key y).2)%Z)
          then Some x else Some y
      end
  end.

(** The key of the device at [index] of [n]: its load, then its turn. *)
Definition load_key (n : nat) (rotation : Z) (s : nat * fabric_service E) : Z * Z :=
  (Z.of_nat (service_outstanding (running s.2)),
   (wrapping_add (Z.of_nat s.1) rotation mod Z.of_nat n)%Z).

(** [least_loaded_server]: the chosen device, by its index. *)
Definition least_loaded_server m : result nat DmaError * module E V X :=
  match fabric_services m with
  | (Err error, m) => (Err error, m)
  | (Ok servers, m) =>
      let rotation := NEXT m in
      let m := with_next (wrapping_add rotation 1) m in
      (match min_by_key (load_key (length servers) rotation) (imap (λ i s, (i, s)) servers) with
       | Some (i, _) => Ok i
       | None => Err (Fabric "no fabric workers")
       end, m)
  end.

(** [release_client], told to every worker. *)
Definition release_client (client : Z) m : module E V X :=
  match FABRIC_SERVICES m with
  | None => m
  | Some servers =>
      with_services (Some ((λ s, Build_fabric_service (service_address s) (service_cap s)
                                   (remove_peer client (running s))) <$> servers)) m
  end.

Inductive ClientChangeSubevent : Type := Connected | Disconnected.

(** [on_client_change] *)
Definition on_client_change (client : Z) (subevent : ClientChangeSubevent) m : module E V X :=
  match subevent with Disconnected => release_client client m | Connected => m end.

(** [dma_hello] *)
Definition dma_hello m : ValkeyResult * module E V X :=
  match fabric_services m with
  | (Err error, m) => (Err (command_error (DmaError_display error)), m)
  | (Ok servers, m) => (Ok (Array ((λ s, SimpleString (encode_hex (service_address s))) <$> servers)), m)
  end.

(** [submit], to the device at [index]: a refused request is finished inline. *)
Definition submit_to (index : nat) (request : TransferRequest OpToken) m : module E V X :=
  match FABRIC_SERVICES m with
  | None => m
  | Some servers =>
      match servers !! index with
      | None => m
      | Some s =>
          match submit blocked_of request (running s) with
          | (Ok _, r) =>
              with_services (Some (<[index := Build_fabric_service (service_address s) (service_cap s) r]> servers)) m
          | (Err request, r) =>
              let m := with_services (Some (<[index := Build_fabric_service (service_address s) (service_cap s) r]> servers)) m in
              let '(reply, ks) := finish_under_gil (request_context request)
                                    (Err (Fabric "fabric worker is gone")) (keyspace m) in
              with_reply ks reply m
          end
      end
  end.

(** The request [dma_get] makes for a value it holds. *)
Definition get_request (client : Z) (advertisement : Advertisement) (held : HeldValue) (want_checksum : bool)
    (blocked : nat) : TransferRequest OpToken :=
  {| client_id := client; peer_address := address advertisement;
     Worker.remote_key := Wire.remote_key advertisement;
     Worker.remote_address := Wire.remote_address advertisement; direction := ToPeer;
     request_want_checksum := want_checksum; request_context := GetToken blocked held |}.

(** [dma_get]; [client] is the calling client's id, [copied] where a copied value goes. *)
Definition dma_get (client : Z) (copied : list u8 → Z) (advertisement : Advertisement) (key : list u8)
    (capacity : Z) (want_checksum : bool) m : ValkeyResult * module E V X :=
  match vk_read (keyspace m) key with
  | Err _ => (Err (ErrorText "ERR failed to read key"), m)
  | Ok None => (Ok Null, m)
  | Ok (Some bytes) =>
      let n := Z.of_nat (length bytes) in
      if (capacity <? n)%Z then
        (Err (ErrorText ("ERR value of " +:+ pretty n +:+ " bytes exceeds the client buffer of " +:+
                         pretty capacity +:+ " bytes")), m)
      else
        let '(held, m) :=
          match vk_retained (keyspace m) key with
          | Some value => (Retained value, note_zero_copy m)
          | None => (Copied {| buffer := copied bytes; bytes := bytes |}, note_fallback m)
          end in
        match least_loaded_server m with
        | (Err error, m) => (Err (command_error (DmaError_display error)), m)
        | (Ok index, m) =>
            let blocked := blocked_clients m in
            let m := with_blocked (S blocked) m in
            (Ok NoReply, submit_to index (get_request client advertisement held want_checksum blocked) m)
        end
  end.

(** The request of [dma_set]; its buffer is made on the worker. *)
Definition set_request (client : Z) (advertisement : Advertisement) (key : list u8) (length : Z)
    (expected_crc : option Z) (blocked : nat) : TransferRequest OpToken :=
  {| client_id := client; peer_address := address advertisement;
     Worker.remote_key := Wire.remote_key advertisement;
     Worker.remote_address := Wire.remote_address advertisement; direction := FromPeer length;
     request_want_checksum := bool_decide (is_Some expected_crc);
     request_context := SetToken blocked None key expected_crc |}.

(** [dma_set] *)
Definition dma_set (client : Z) (advertisement : Advertisement) (key : list u8) (length : Z)
    (expected_crc : option Z) m : ValkeyResult * module E V X :=
  match least_loaded_server m with
  | (Err error, m) => (Err (command_error (DmaError_display error)), m)
  | (Ok index, m) =>
      let blocked := blocked_clients m in
      let m := with_blocked (S blocked) m in
      (Ok NoReply, submit_to index (set_request client advertisement key length expected_crc blocked) m)
  end.

End services.

(** ** What a command does to the clients and the keyspace *)

Section clients.
  Context {E V X : Type} `{!Transport E, !Valkey V}.
  Variables (discover : Configuration → X → result (list string) DmaError * X)
    (start : Configuration → X → result (list u8 * nat * service E OpToken nat) DmaError * X)
    (spawn_pool : nat → result () string) (fabric : Configuration).
  Implicit Types (m : module E V X).

(** No client blocked, no reply sent, no value changed. *)
Record untouched m m' : Prop := {
  ut_blocked : blocked_clients m' = blocked_clients m;
  ut_sent : sent m' = sent m;
  ut_keyspace : keyspace m' = keyspace m;
}.

Lemma untouched_refl m : untouched m m.
Proof. by split. Qed.

Lemma untouched_trans m1 m2 m3 : untouched m1 m2 → untouched m2 m3 → untouched m1 m3.
Proof. intros [] []. split; congruence. Qed.

Lemma start_services_untouched m r m' :
  start_services discover start spawn_pool fabric m = (r, m') → untouched m m'.
Proof.
  unfold start_services. intros Hs. repeat (case_match; simplify_eq); by split.
Qed.

Lemma fabric_services_untouched m r m' :
  fabric_services discover start spawn_pool fabric m = (r, m') → untouched m m'.
Proof.
  unfold fabric_services. destruct (FABRIC_SERVICES m); [intros; by simplify_eq|].
  destruct (start_services _ _ _ _ m) as [[|] m1] eqn:Es; apply start_services_untouched in Es as [];
    intros; simplify_eq; by split.
Qed.

Lemma least_loaded_untouched m r m' :
  least_loaded_server discover start spawn_pool fabric m = (r, m') → untouched m m'.
Proof.
  unfold least_loaded_server. destruct (fabric_services _ _ _ _ m) as [[|] m1] eqn:Es;
    apply fabric_services_untouched in Es as []; intros; simplify_eq; by split.
Qed.

(** One more client blocked: it waits for a reply, or was sent one at once. *)
Record one_blocked m m' : Prop := {
  ob_blocked : blocked_clients m' = S (blocked_clients m);
  ob_sent : sent m' = sent m ∨ ∃ error, sent m' = sent m ++ [(blocked_clients m, Err error)];
  ob_keyspace : keyspace m' = keyspace m;
}.

Lemma submit_to_sent index (request : TransferRequest OpToken) m :
  let m' := submit_to index request m in
  blocked_clients m' = blocked_clients m ∧ keyspace m' = keyspace m ∧
  (sent m' = sent m ∨ ∃ error, sent m' = sent m ++ [(blocked_of (request_context request), Err error)]).
Proof.
  unfold submit_to. destruct (FABRIC_SERVICES m) as [servers|]; [|auto].
  destruct (servers !! index) as [s|]; [|auto]. unfold submit.
  destruct (negb (sender (running s))); [|destruct (send _ _); [auto|]];
    unfold finish_under_gil; destruct (request_context request); simpl; eauto 10.
Qed.

Lemma block_and_submit_one index (request : nat → TransferRequest OpToken) m :
  (∀ b, blocked_of (request_context (request b)) = b) →
  one_blocked m (submit_to index (request (blocked_clients m)) (with_blocked (S (blocked_clients m)) m)).
Proof.
  intros Hr. destruct (submit_to_sent index (request (blocked_clients m)) (with_blocked (S (blocked_clients m)) m))
    as (Hb & Hk & Hs). rewrite Hr in Hs. by split.
Qed.

Definition answered_or_blocked (r : ValkeyResult) m m' : Prop :=
  match r with Ok NoReply => one_blocked m m' | _ => untouched m m' end.

Lemma one_blocked_after m1 m2 m3 : untouched m1 m2 → one_blocked m2 m3 → one_blocked m1 m3.
Proof. intros [Hb Hs Hk] [Hb' Hs' Hk']. rewrite Hb, Hs, Hk in *. by split. Qed.

Lemma dma_hello_answers m r m' :
  dma_hello discover start spawn_pool fabric m = (r, m') → answered_or_blocked r m m'.
Proof.
  unfold dma_hello. destruct (fabric_services _ _ _ _ m) as [[|] m1] eqn:Es;
    apply fabric_services_untouched in Es; intros; by simplify_eq.
Qed.

Lemma dma_set_answers client advertisement key n expected m r m' :
  dma_set discover start spawn_pool fabric client advertisement key n expected m = (r, m') →
  answered_or_blocked r m m'.
Proof.
  unfold dma_set. destruct (least_loaded_server _ _ _ _ m) as [[i|] m1] eqn:Es;
    apply least_loaded_untouched in Es; intros; simplify_eq; [|done].
  eapply one_blocked_after; [exact Es|].
  by apply (block_and_submit_one i (set_request client advertisement key n expected)).
Qed.

Lemma dma_get_answers client copied adv key capacity want m r m' :
  dma_get discover start spawn_pool fabric client copied adv key capacity want m = (r, m') →
  answered_or_blocked r m m'.
Proof.
  unfold dma_get. destruct (vk_read _ _) as [[bytes|]|]; [|intros; by simplify_eq..].
  destruct (_ <? _)%Z; [intros; by simplify_eq|].
  destruct (match vk_retained _ _ with Some _ => _ | None => _ end) as [held m1] eqn:Eh.
  assert (untouched m m1) as H1.
  { unfold note_zero_copy, note_fallback in Eh. repeat (case_match; simplify_eq); by split. }
  destruct (least_loaded_server _ _ _ _ m1) as [[i|] m2] eqn:Es; apply least_loaded_untouched in Es;
    pose proof (untouched_trans _ _ _ H1 Es); intros; simplify_eq; [|done].
  eapply one_blocked_after; [done|].
  by apply (block_and_submit_one i (get_request client adv held want)).
Qed.

End clients.

(** ** The module as a whole

    The command thread's commands and the fabric workers' turns, in any order; every
    other change of the keyspace is a step of its own. *)

Section module.
  Context {E V X : Type} `{!Transport E, !TransportLaws E, !Valkey V}.
  Variables (create_uninitialized : Z → OpToken → ValkeyString) (ensure_covered : Z → bool).
  Variables (discover : Configuration → X → result (list string) DmaError * X)
    (start : Configuration → X → result (list u8 * nat * service E OpToken nat) DmaError * X)
    (spawn_pool : nat → result () string) (fabric : Configuration).
  Variables (quiesce_pointer : Z) (clock : nat → Z) (place : gmap Z (InFlight OpToken) → Z) (crc : slice → Z).
#[local] Instance module_operands : Operands OpToken := token_operands create_uninitialized ensure_covered.
#[local] Instance module_operands_laws : OperandsLaws OpToken nat blocked_of :=
    token_laws create_uninitialized ensure_covered.
  Hypothesis place_fresh : ∀ m, m !! place m = None.
  Hypothesis place_nonnull : ∀ m, place m ≠ 0%Z.
  Hypothesis start_ready : ∀ configuration x address cap s x',
    start configuration x = (Ok (address, cap, s), x') → service_ok blocked_of s [] ∧ taken s = [].
  Implicit Types (m : module E V X) (s : fabric_service E).

Abbreviation worker_turn cap := (thread_step (quiesce_writes fabric) (progress_deadline fabric) cap
                                   quiesce_pointer clock place crc).
Abbreviation least_loaded := (least_loaded_server discover start spawn_pool fabric).

Inductive module_step : module E V X → module E V X → Prop :=
  | step_get client copied advertisement key capacity want r m m' :
      dma_get discover start spawn_pool fabric client copied advertisement key capacity want m = (r, m') →
      module_step m m'
  | step_set client advertisement key length expected r m m' :
      dma_set discover start spawn_pool fabric client advertisement key length expected m = (r, m') →
      module_step m m'
  | step_hello r m m' :
      dma_hello discover start spawn_pool fabric m = (r, m') → module_step m m'
  | step_client client subevent m : module_step m (on_client_change client subevent m)
  | step_worker index servers s r m :
      FABRIC_SERVICES m = Some servers → servers !! index = Some s →
      worker_turn (service_cap s) (running s) = Some r →
      module_step m (with_services (Some (<[index := Build_fabric_service (service_address s) (service_cap s) r]> servers)) m)
  | step_keyspace ks m :
      module_step m (Build_module ks (world m) (FABRIC_SERVICES m) (NEXT m) (blocked_clients m) (sent m)
                       (zero_copy_logged m) (fallback_logged m) (notices m)).

Definition services_of m : list (fabric_service E) := default [] (FABRIC_SERVICES m).

(** The handles the services have taken between them. *)
Definition all_taken m : list nat := services_of m ≫= λ s, taken (running s).

Record module_ok m : Prop := {
  mk_blocked : seq 0 (blocked_clients m) ≡ₚ (sent m).*1 ++ all_taken m;
  mk_services : Forall (λ s, ∃ rec, service_ok blocked_of (running s) rec) (services_of m);
}.

(** What a command may do besides submitting: start the services, note, rotate. *)
Record quiet m m' : Prop := {
  q_blocked : blocked_clients m' = blocked_clients m;
  q_sent : sent m' = sent m;
  q_keyspace : keyspace m' = keyspace m;
  q_taken : all_taken m' = all_taken m;
  q_services : Forall (λ s, ∃ rec, service_ok blocked_of (running s) rec) (services_of m) →
               Forall (λ s, ∃ rec, service_ok blocked_of (running s) rec) (services_of m');
}.

Lemma quiet_refl m : quiet m m.
Proof. by split. Qed.

Lemma quiet_trans m1 m2 m3 : quiet m1 m2 → quiet m2 m3 → quiet m1 m3.
Proof. intros [] []. split; try congruence. auto. Qed.

Lemma quiet_ok m m' : quiet m m' → module_ok m → module_ok m'.
Proof. intros [Hb Hs _ Ht Hf] [H1 H2]. split; [by rewrite Hb, Hs, Ht|by apply Hf]. Qed.

Definition fresh_services (l : list (fabric_service E)) : Prop :=
  Forall (λ s, service_ok blocked_of (running s) [] ∧ taken (running s) = []) l.

Lemma start_each_fresh domains x l x' :
  start_each start fabric domains x = (Ok l, x') → fresh_services l.
Proof.
  revert x l. induction domains as [|domain domains IH]; intros x l; simpl; [intros; simplify_eq; constructor|].
  destruct (start _ x) as [[[[address cap] s]|error] x1] eqn:Es; [|done].
  destruct (start_each _ _ domains x1) as [[rest|[error dropped]] x2] eqn:Er; intros; simplify_eq.
  constructor; [by eapply start_ready|by eapply IH].
Qed.

Lemma start_services_ok m r m' :
  start_services discover start spawn_pool fabric m = (r, m') →
  quiet m m' ∧ FABRIC_SERVICES m' = FABRIC_SERVICES m ∧ match r with Ok l => fresh_services l | Err _ => True end.
Proof.
  unfold start_services. destruct (match head (providers fabric) with Some EfaDirect => _ | _ => _ end) as [domains x].
  destruct (pool_new _ _) as [pool|error]; [|intros; by simplify_eq].
  destruct domains as [|domain domains].
  - destruct (start fabric _) as [r1 x1] eqn:Es. intros; simplify_eq. split; [by split|]. split; [done|].
    destruct r1 as [[[address cap] s]|]; [|done]. constructor; [by eapply start_ready|constructor].
  - destruct (start_each _ _ _ _) as [r1 x1] eqn:Es. intros; simplify_eq. split; [by split|]. split; [done|].
    destruct r1 as [l|[error dropped]]; [|done]. by eapply start_each_fresh.
Qed.

Lemma fresh_taken l : fresh_services l → l ≫= (λ s, taken (running s)) = [].
Proof. induction 1 as [|s l [_ Ht] _ IH]; csimpl; [done|]. by rewrite Ht. Qed.

Lemma fabric_services_ok m r m' :
  fabric_services discover start spawn_pool fabric m = (r, m') →
  quiet m m' ∧ match r with Ok l => FABRIC_SERVICES m' = Some l | Err _ => True end.
Proof.
  unfold fabric_services. destruct (FABRIC_SERVICES m) as [servers|] eqn:Ef.
  { intros; simplify_eq. split; [apply quiet_refl|done]. }
  destruct (start_services _ _ _ _ m) as [[servers|error] m1] eqn:Es; apply start_services_ok in Es;
    destruct Es as (Hq & _ & Hl); intros; simplify_eq; [|done].
  split; [|done]. eapply quiet_trans; [exact Hq|].
  assert (all_taken m = []) as Hm by (unfold all_taken, services_of; by rewrite Ef).
  split; try done.
  - rewrite (q_taken _ _ Hq), Hm. by apply fresh_taken.
  - intros _. simpl. eapply Forall_impl; [exact Hl|]. intros s [Hok _]. by exists [].
Qed.

Lemma least_loaded_ok m r m' :
  least_loaded m = (r, m') → quiet m m' ∧ match r with Ok i => ∃ servers, FABRIC_SERVICES m' = Some servers ∧ i < length servers | Err _ => True end.
Proof.
  unfold least_loaded_server. destruct (fabric_services _ _ _ _ m) as [[servers|error] m1] eqn:Ef;
    apply fabric_services_ok in Ef as [Hq Hl]; intros; simplify_eq; [|done].
  split; [eapply quiet_trans; [exact Hq|by split]|].
  destruct (min_by_key _ _) as [[i s]|] eqn:Em; [|done]. exists servers. split; [done|].
  assert ((i, s) ∈ imap (λ i s, (i, s)) servers) as Hin.
  { revert Em. generalize (imap (λ i s, (i, s)) servers) as l. induction l as [|x l IH]; simpl; [done|].
    destruct (min_by_key _ l) as [y|]; [|intros; simplify_eq; set_solver].
    destruct (_ || _); intros; simplify_eq; set_solver. }
  apply elem_of_lookup_imap in Hin as (j & s' & [= -> ->] & Hj). by apply lookup_lt_Some in Hj.
Qed.

Lemma bind_insert {A B} (f : A → list B) (l : list A) i x y :
  l !! i = Some x → ∃ l1 l2, l ≫= f = l1 ++ f x ++ l2 ∧ <[i := y]> l ≫= f = l1 ++ f y ++ l2.
Proof.
  intros Hi. exists (take i l ≫= f), (drop (S i) l ≫= f).
  rewrite <-(take_drop_middle l i x Hi) at 1. rewrite insert_take_drop by (by eapply lookup_lt_Some).
  rewrite !bind_app. by csimpl.
Qed.

(** The one thing a submission adds: its handle, to a service or to the replies. *)
Lemma submit_to_ok index (request : TransferRequest OpToken) m servers :
  FABRIC_SERVICES m = Some servers → index < length servers →
  let m' := submit_to index request m in
  blocked_clients m' = blocked_clients m ∧
  (sent m').*1 ++ all_taken m' ≡ₚ blocked_of (request_context request) :: (sent m).*1 ++ all_taken m ∧
  (Forall (λ s, ∃ rec, service_ok blocked_of (running s) rec) (services_of m) →
   Forall (λ s, ∃ rec, service_ok blocked_of (running s) rec) (services_of m')).
Proof.
  intros Hf [s Hs]%lookup_lt_is_Some. simpl. unfold submit_to. rewrite Hf, Hs.
  destruct (submit blocked_of request (running s)) as [r s'] eqn:Esub.
  assert (∀ rec, service_ok blocked_of (running s) rec → service_ok blocked_of s' rec) as Hok.
  { intros rec Hrec. by eapply submit_ok. }
  assert (∀ m1, FABRIC_SERVICES m1 = Some (<[index := Build_fabric_service (service_address s) (service_cap s) s']> servers) →
    Forall (λ s, ∃ rec, service_ok blocked_of (running s) rec) (services_of m) →
    Forall (λ s, ∃ rec, service_ok blocked_of (running s) rec) (services_of m1)) as Hall.
  { intros m1 Hm1. unfold services_of. rewrite Hf, Hm1. simpl. intros Hall. apply Forall_insert; [done|].
    rewrite Forall_lookup in Hall. destruct (Hall _ _ Hs) as [rec Hrec]. exists rec. by apply Hok. }
  destruct (bind_insert (λ s, taken (running s)) servers index s
    (Build_fabric_service (service_address s) (service_cap s) s') Hs) as (l1 & l2 & Hl & Hl').
  unfold submit in Esub. destruct r as [[]|back].
  - split; [done|]. split; [|by apply Hall]. unfold all_taken, services_of. simpl. rewrite Hf. simpl.
    rewrite Hl, Hl'. simpl. destruct (sender (running s)); [|done]. simpl in Esub.
    unfold send in Esub. simpl in Esub. destruct (status (running s)); simplify_eq; simpl; solve_Permutation.
  - destruct (finish_under_gil (request_context back) _ _) as [reply ks] eqn:Efin. simpl.
    split; [done|]. split; [|by apply Hall]. unfold all_taken, services_of. simpl. rewrite Hf. simpl.
    rewrite Hl, Hl'. simpl.
    assert (back = request ∧ taken s' = taken (running s)) as [-> ->].
    { destruct (sender (running s)); simpl in Esub; [|by simplify_eq].
      unfold send in Esub. simpl in Esub. by destruct (status (running s)); simplify_eq. }
    assert (reply.1 = blocked_of (request_context request)) as <-.
    { unfold finish_under_gil in Efin. destruct (request_context request) as [|? ? ? ?]; [by simplify_eq|].
      destruct (set_reply _ _ _ _ _). by simplify_eq. }
    rewrite fmap_app. csimpl. solve_Permutation.
Qed.

(** Blocking a client and submitting for it. *)
Lemma block_and_submit_ok (request : nat → TransferRequest OpToken) index m servers :
  (∀ b, blocked_of (request_context (request b)) = b) →
  FABRIC_SERVICES m = Some servers → index < length servers → module_ok m →
  module_ok (submit_to index (request (blocked_clients m)) (with_blocked (S (blocked_clients m)) m)).
Proof.
  intros Hr Hf Hi [Hb Hs].
  destruct (submit_to_ok index (request (blocked_clients m)) (with_blocked (S (blocked_clients m)) m) servers Hf Hi)
    as (Hb' & Ht & Hall).
  split; [|by apply Hall]. rewrite Hb', Ht, Hr. cbn [blocked_clients with_blocked]. rewrite seq_S, Hb. simpl.
  change (all_taken (with_blocked (S (blocked_clients m)) m)) with (all_taken m). solve_Permutation.
Qed.

Lemma note_quiet m : quiet m (note_zero_copy m) ∧ quiet m (note_fallback m).
Proof.
  unfold note_zero_copy, note_fallback. split; case_match; (apply quiet_refl || by split).
Qed.

Lemma module_step_ok m m' : module_ok m → module_step m m' → module_ok m'.
Proof.
  intros Hok Hstep.
  destruct Hstep as [client copied adv key capacity want r m m' Hg|client adv key n expected r m m' Hg|r m m' Hg
    |client subevent m|index servers s r m Hf Hs Hr|ks m].
  - unfold dma_get in Hg. destruct (vk_read _ _) as [[bytes|]|]; [|by simplify_eq..].
    destruct (_ <? _)%Z; [by simplify_eq|].
    destruct (match vk_retained _ _ with Some _ => _ | None => _ end) as [held m1] eqn:Eh.
    assert (quiet m m1) as Hq1 by (destruct (vk_retained _ _); simplify_eq; apply note_quiet).
    destruct (least_loaded m1) as [[i|error] m2] eqn:El; apply least_loaded_ok in El as [Hq2 Hi];
      pose proof (quiet_ok _ _ (quiet_trans _ _ _ Hq1 Hq2) Hok) as Hok2; [|by simplify_eq].
    destruct Hi as (servers & Hf & Hi). simplify_eq.
    by apply (block_and_submit_ok (get_request client adv held want) i m2 servers).
  - unfold dma_set in Hg.
    destruct (least_loaded m) as [[i|error] m2] eqn:El; apply least_loaded_ok in El as [Hq2 Hi];
      pose proof (quiet_ok _ _ Hq2 Hok) as Hok2; [|by simplify_eq].
    destruct Hi as (servers & Hf & Hi). simplify_eq.
    by apply (block_and_submit_ok (set_request client adv key n expected) i m2 servers).
  - unfold dma_hello in Hg. destruct (fabric_services _ _ _ _ m) as [[servers|error] m1] eqn:Ef;
      apply fabric_services_ok in Ef as [Hq _]; simplify_eq; by eapply quiet_ok.
  - destruct subevent; simpl; [done|]. unfold release_client. destruct (FABRIC_SERVICES m) as [servers|] eqn:Ef; [|done].
    destruct Hok as [Hb Hs]. unfold services_of, all_taken in *. rewrite Ef in *. simpl in *. split; simpl.
    + rewrite Hb. unfold all_taken, services_of. rewrite Ef. simpl. apply Permutation_app_head.
      clear. induction servers as [|s l IH]; csimpl; [done|].
      rewrite IH. f_equiv. unfold remove_peer. destruct (sender (running s)); simpl; [|done].
      unfold send. by destruct (status (running s)).
    + apply Forall_fmap. eapply Forall_impl; [exact Hs|]. intros s [rec Hrec]. exists rec. simpl.
      unfold remove_peer. destruct (sender (running s)); simpl; [|done].
      destruct (send _ _) eqn:Esend; simpl; [by eapply send_ok; [|exact Esend|]|done].
  - destruct Hok as [Hb Hall]. unfold services_of in *. rewrite Hf in *. simpl in *.
    destruct (bind_insert (λ s, taken (running s)) servers index s
      (Build_fabric_service (service_address s) (service_cap s) r) Hs) as (l1 & l2 & Hl & Hl').
    pose proof Hall as Hall'. rewrite Forall_lookup in Hall'. destruct (Hall' _ _ Hs) as [rec Hrec].
    destruct (thread_ok blocked_of (quiesce_writes fabric) (progress_deadline fabric) (service_cap s)
      quiesce_pointer clock place crc place_fresh place_nonnull (running s) rec Hrec) as (r' & rec' & Hr' & Hrec').
    rewrite Hr' in Hr. simplify_eq. split; simpl.
    + unfold all_taken, services_of in *. simpl. rewrite Hf in Hb. simpl in Hb. rewrite Hb, Hl, Hl'. simpl.
      by rewrite (thread_taken _ _ _ _ _ _ _ _ _ Hr').
    + apply Forall_insert; [done|]. by exists rec'.
  - destruct Hok. by split.
Qed.

(** The batches a worker has handed over, its pool jobs run. *)
Definition batches (l : list (effect OpToken)) : list (list (Completion OpToken)) :=
  omap (λ x, match x with
             | CompleteBatch batch => Some batch
             | PoolJob ops => Some (crc_job crc ops)
             | _ => None
             end) l.

(** Completing batches one after the other. *)
Fixpoint answer_all (l : list (list (Completion OpToken))) (ks : V) : list gil_event * V :=
  match l with
  | [] => ([], ks)
  | batch :: l =>
      let '(events, ks) := complete_batch batch ks in
      let '(more, ks) := answer_all l ks in
      (events ++ more, ks)
  end.

Definition replied (events : list gil_event) : list nat :=
  omap (λ e, match e with Replied blocked _ => Some blocked | _ => None end) events.

Lemma finish_all_clients batch ks :
  (finish_all batch ks).1.*1 = (λ c, blocked_of (completed_context c)) <$> batch.
Proof.
  revert ks. induction batch as [|c batch IH]; intros ks; [done|]. simpl.
  destruct (finish_under_gil _ _ ks) as [reply ks1] eqn:E1. specialize (IH ks1).
  destruct (finish_all batch ks1) as [pending ks2]. csimpl. simpl in IH. rewrite IH. f_equal.
  unfold finish_under_gil in E1. destruct (completed_context c); [by simplify_eq|].
  destruct (set_reply _ _ _ _ _). by simplify_eq.
Qed.

Lemma replied_app l1 l2 : replied (l1 ++ l2) = replied l1 ++ replied l2.
Proof. apply omap_app. Qed.

Lemma replied_finished (pending : list (nat * ValkeyResult)) :
  replied ((λ p, Finished p.1) <$> pending) = [].
Proof. induction pending as [|p l IH]; [done|]. exact IH. Qed.

Lemma replied_sent (pending : list (nat * ValkeyResult)) :
  replied ((λ p, Replied p.1 p.2) <$> pending) = pending.*1.
Proof. induction pending as [|p l IH]; [done|]. unfold replied in *. csimpl. by rewrite IH. Qed.

Lemma complete_batch_replied batch ks :
  replied (complete_batch batch ks).1 = (λ c, blocked_of (completed_context c)) <$> batch.
Proof.
  unfold complete_batch. rewrite <-(finish_all_clients batch ks).
  destruct (finish_all batch ks) as [pending ks']. cbn [fst].
  rewrite !replied_app, replied_finished, replied_sent. done.
Qed.

Lemma answer_all_replied l ks :
  replied (answer_all l ks).1 = l ≫= λ batch, (λ c, blocked_of (completed_context c)) <$> batch.
Proof.
  revert ks. induction l as [|batch l IH]; intros ks; [done|]. simpl.
  pose proof (complete_batch_replied batch ks) as Hb. destruct (complete_batch batch ks) as [events ks1].
  specialize (IH ks1). destruct (answer_all l ks1) as [more ks2]. simpl in *.
  unfold replied in *. by rewrite omap_app, Hb, IH.
Qed.

Lemma batches_delivered l :
  (batches l ≫= λ batch, (λ c, blocked_of (completed_context c)) <$> batch) = delivered (ident := blocked_of) l.
Proof.
  induction l as [|x l IH]; [done|]. unfold batches, delivered in *. destruct x; csimpl; try done.
  - by rewrite IH.
  - rewrite IH. f_equal. unfold crc_job. rewrite <-list_fmap_compose.
    apply list_fmap_ext. by intros _ [op r] _.
Qed.

(** Everything the workers have handed over. *)
Definition all_batches m : list (list (Completion OpToken)) :=
  services_of m ≫= λ s, batches (log (acc (thread (running s)))).

(** The handles still in some service. *)
Definition still_in_service m : list nat := services_of m ≫= λ s, in_service blocked_of (running s).

Lemma services_conserve (l : list (fabric_service E)) :
  Forall (λ s, ∃ rec, service_ok blocked_of (running s) rec) l →
  (l ≫= λ s, taken (running s)) ≡ₚ
  (l ≫= λ s, handed_back blocked_of (running s)) ++ (l ≫= λ s, in_service blocked_of (running s)).
Proof.
  induction 1 as [|s l [rec Hrec] _ IH]; csimpl; [done|].
  rewrite IH, (service_conserves _ _ _ Hrec). solve_Permutation.
Qed.

Lemma module_reachable_ok m0 m :
  FABRIC_SERVICES m0 = None → blocked_clients m0 = 0 → sent m0 = [] → rtc module_step m0 m → module_ok m.
Proof.
  intros Hf Hb Hs Hm. assert (module_ok m0) as Hok.
  { split; unfold all_taken, services_of; rewrite Hf; [by rewrite Hb, Hs|constructor]. }
  clear Hf Hb Hs. induction Hm as [|m1 m2 m3 Hstep _ IH]; [done|].
  apply IH. by eapply module_step_ok.
Qed.

(** Every handle given out, wherever it is now; the batches may complete in any order. *)
Lemma module_conserves m ks order :
  module_ok m → order ≡ₚ all_batches m →
  seq 0 (blocked_clients m) ≡ₚ (sent m).*1 ++ replied (answer_all order ks).1 ++ still_in_service m.
Proof.
  intros [Hb Hall] Horder. rewrite Hb. apply Permutation_app_head. unfold all_taken. rewrite (services_conserve _ Hall).
  apply Permutation_app_tail. rewrite answer_all_replied, Horder. unfold all_batches.
  clear. induction (services_of m) as [|s l IH]; csimpl; [done|].
  rewrite IH, bind_app. apply Permutation_app_tail. by rewrite batches_delivered.
Qed.

Definition rested m : Prop := Forall (λ s, status (running s) ≠ Running ∧ channel (running s) = []) (services_of m).

Lemma rested_none m : module_ok m → rested m → still_in_service m = [].
Proof.
  intros [_ Hall] Hrest. unfold still_in_service, rested in *.
  induction Hall as [|s l [rec Hrec] _ IH]; csimpl; [done|].
  apply Forall_cons in Hrest as [[Hst Hch] Hrest]. rewrite IH, app_nil_r by done.
  pose proof (so_settled _ _ _ Hrec Hst) as Hse. unfold in_service.
  by rewrite Hch, (st_boxes _ _ _ _ Hse), (st_completions _ _ _ _ Hse), map_to_list_empty.
Qed.

(** C12: Every blocked client is answered exactly once.  Whatever commands run, however
    the workers' turns fall between them: the handles given out are those answered inline,
    those answered by completing the batches the workers have handed over, in whatever
    order the batches complete, and those whose transfer is still in some service, each
    once; and when every worker has come to rest with an empty channel none is left. *)
Theorem every_blocked_client_answered m0 m ks order
  (H0 : FABRIC_SERVICES m0 = None ∧ blocked_clients m0 = 0 ∧ sent m0 = [])
  (Hm : rtc module_step m0 m) (Horder : order ≡ₚ all_batches m) :
  seq 0 (blocked_clients m) ≡ₚ (sent m).*1 ++ replied (answer_all order ks).1 ++ still_in_service m ∧
  (rested m → still_in_service m = []).
Proof.
  destruct H0 as (Hf & Hb0 & Hs0). pose proof (module_reachable_ok m0 m Hf Hb0 Hs0 Hm) as Hok.
  split; [by apply module_conserves|by apply rested_none].
Qed.

End module.

(** ** What is stored *)

Section stored.
  Context {V : Type} `{!Valkey V}.
  Variables (create_uninitialized : Z → OpToken → ValkeyString) (ensure_covered : Z → bool).
  (** A string object created of a length has that length. *)
  Hypothesis create_length : ∀ n token, vs_length (create_uninitialized n token) = n.
#[local] Instance stored_operands : Operands OpToken := token_operands create_uninitialized ensure_covered.

(** C13: Only a verified value is stored.  For a [DMA.SET] the worker prepared, whatever
    the fabric answers: the buffer the transfer reads into is the one that would be stored
    and has the length asked for; if the transfer succeeded and, where the client sent a
    checksum, that buffer's bytes have it, the buffer is moved into the key and the reply
    is the length, or an error if valkey refuses it; otherwise the keyspace is untouched
    and the reply is an error. *)
Theorem set_stores_only_verified client advertisement key n expected blocked quiesce place boxes p boxes' op crc r ks
  (Hp : prepare quiesce place (set_request client advertisement key n expected blocked) boxes = (Ok p, boxes'))
  (Hop : boxes' !! context p = Some op) :
  let c := into_completion crc op r in
  let '(reply, ks') := finish_under_gil (completed_context c) (outcome c) ks in
  ∃ d, p_pointer p = vs_pointer d ∧ p_length p = vs_length d ∧ vs_length d = n ∧ reply.1 = blocked ∧
    let verified := r = Ok tt ∧ ∀ x, expected = Some x → crc (Slice (vs_pointer d) n) = x in
    (verified → ks' = (vk_set_move ks key d).2 ∧
       reply.2 = if (vk_set_move ks key d).1 then Ok (Integer (as_i64 n)) else Err (ErrorText "ERR failed to store value")) ∧
    (¬ verified → ks' = ks ∧ ∃ error, reply.2 = Err error).
Proof.
  unfold prepare, resolve_operand, quiesce_read, set_request in Hp. simpl in Hp.
  set (d := create_uninitialized n _) in Hp. assert (vs_length d = n) as Hd by apply create_length.
  rewrite Hd, Z.ltb_irrefl in Hp. simplify_eq/=. rewrite lookup_insert_eq in Hop. simplify_eq/=.
  unfold into_completion. simpl. destruct r as [[]|error]; simpl.
  - destruct expected as [x|]; simpl.
    + destruct (Z.eqb_spec (crc (Slice (vs_pointer d) n)) x) as [Hx|Hx]; simpl.
      * destruct (vk_set_move ks key d) as [ok ks'] eqn:Ev. exists d. rewrite Ev.
        split_and!; try done. intros Hn. destruct Hn. split; [done|]. intros y. naive_solver.
      * exists d. split_and!; try done; [intros [_ Hy]; naive_solver|eauto].
    + destruct (vk_set_move ks key d) as [ok ks'] eqn:Ev. exists d. rewrite Ev.
      split_and!; try done. intros Hn. by destruct Hn.
  - exists d. split_and!; try done; [by intros [? _]|eauto].
Qed.

End stored.

(** ** Choosing a device *)

Section choosing.
  Context {E V X : Type} `{!Transport E, !Valkey V}.

Definition key_le (a b : Z * Z) : Prop := (a.1 < b.1)%Z ∨ (a.1 = b.1 ∧ (a.2 ≤ b.2)%Z).

Lemma min_by_key_spec {A} (key : A → Z * Z) (l : list A) :
  match min_by_key key l with
  | Some x => x ∈ l ∧ ∀ y, y ∈ l → key_le (key x) (key y)
  | None => l = []
  end.
Proof.
  induction l as [|x l IH]; simpl; [done|]. destruct (min_by_key key l) as [y|].
  - destruct IH as [Hy Hall]. unfold key_le in *.
    destruct (Z.ltb_spec (key x).1 (key y).1), (Z.eqb_spec (key x).1 (key y).1),
      (Z.leb_spec (key x).2 (key y).2); simpl;
      (split; [set_solver|]); intros z [->|Hz]%elem_of_cons; try specialize (Hall z Hz); lia.
  - subst l. split; [set_solver|]. intros y ->%list_elem_of_singleton. right. lia.
Qed.

(** Transfers go to the least loaded device, ties taking turns.  Once the services
    are up a device is always chosen; no other has fewer transfers outstanding, and among
    those with as few it is the next in rotation, so that while all are equally loaded,
    [n] calls in a row use each of the [n] devices once. *)
Lemma least_loaded_chosen discover start spawn_pool fabric (m : module E V X) servers
  (Hf : FABRIC_SERVICES m = Some servers) (Hne : servers ≠ []) (Hn : (0 ≤ NEXT m)%Z) :
  ∃ i s, least_loaded_server discover start spawn_pool fabric m =
      (Ok i, with_next (wrapping_add (NEXT m) 1) m) ∧ servers !! i = Some s ∧
    (∀ j s', servers !! j = Some s' →
       key_le (load_key (length servers) (NEXT m) (i, s)) (load_key (length servers) (NEXT m) (j, s'))) ∧
    ((∀ s', s' ∈ servers → service_outstanding (running s') = service_outstanding (running s)) →
     (Z.of_nat (length servers) + NEXT m < u64_end)%Z →
     ((Z.of_nat i + NEXT m) mod Z.of_nat (length servers) = 0)%Z).
Proof.
  unfold least_loaded_server, fabric_services. rewrite Hf.
  pose proof (min_by_key_spec (load_key (length servers) (NEXT m)) (imap (λ i s, (i, s)) servers)) as Hmin.
  destruct (min_by_key _ _) as [[i s]|]; cycle 1.
  { apply (f_equal length) in Hmin. rewrite length_imap in Hmin. by destruct servers. }
  destruct Hmin as [Hin Hall]. apply elem_of_lookup_imap in Hin as (j & s' & [= -> ->] & Hj).
  assert (∀ k t, servers !! k = Some t →
    key_le (load_key (length servers) (NEXT m) (j, s')) (load_key (length servers) (NEXT m) (k, t))) as Hle.
  { intros k t Hk. apply Hall. apply elem_of_lookup_imap. eauto. }
  exists j, s'. split_and!; [done|done|done|]. intros Heq Hsmall.
  set (n := Z.of_nat (length servers)) in *. assert (0 < n)%Z as Hpos by (destruct servers; [done|simpl in n; lia]).
  set (k := ((n - NEXT m mod n) mod n)%Z).
  assert (0 ≤ k < n)%Z as Hk by (apply Z.mod_pos_bound; lia).
  destruct (lookup_lt_is_Some_2 servers (Z.to_nat k)) as [t Ht]; [lia|].
  specialize (Hle _ _ Ht). unfold key_le, load_key in Hle. simpl in Hle.
  rewrite (Heq t) in Hle by (by eapply list_elem_of_lookup_2).
  assert ((k + NEXT m) mod n = 0)%Z as Hzero.
  { unfold k. rewrite Zplus_mod_idemp_l. replace (n - NEXT m mod n + NEXT m)%Z with
      (n + (NEXT m - NEXT m mod n))%Z by lia.
    pose proof (Z.div_mod (NEXT m) n ltac:(lia)).
    replace (n + (NEXT m - NEXT m mod n))%Z with ((1 + NEXT m / n) * n)%Z by lia.
    by apply Z.mod_mul; lia. }
  fold n in Hle. rewrite Z2Nat.id in Hle by lia.
  apply lookup_lt_Some in Hj.
  rewrite !wrapping_add_small, Hzero in Hle by lia.
  pose proof (Z.mod_pos_bound (Z.of_nat j + NEXT m) n Hpos). lia.
Qed.

End choosing.

(** ** Witnesses *)

Section witnesses.
#[local] Existing Instance example_libfabric.

(** A keyspace of string objects, each full of zero bytes; the server retains none. *)
#[local] Instance example_valkey : Valkey (list (list u8 * ValkeyString)) := {|
  vk_read ks key := Ok ((λ x, replicate (Z.to_nat (vs_length x.2)) Byte.x00) <$>
                        head (filter (λ x, x.1 = key) ks));
  vk_retained ks key := None;
  vk_set_move ks key value := (true, (key, value) :: ks);
|}.

Definition example_string (n : Z) (token : OpToken) : ValkeyString :=
  {| vs_pointer := 65536 * Z.of_nat (S (blocked_of token)); vs_length := n |}.

(** Two devices, everything opening on either. *)
#[local] Existing Instance example_flags.
#[local] Instance two_devices : FabricSetup := {|
  fi_allocinfo _ := true;
  fi_getinfo _ _ :=
    (0%Z, [example_info; {| info_domain_name := Some "rdmap84s0-rdm"; info_prov_name := Some "efa";
                            info_addr_format := 19; info_mr_mode := 20; info_caps := 6; info_tx_size := 256 |}]);
  fi_dupinfo _ i := Some i;
  fi_open ev _ _ := (0%Z, 1 + Z.of_nat (length ev))%Z;
  fi_ep_bind _ _ _ _ := 0%Z;
  fi_enable _ _ := 0%Z;
  fi_getname_length _ := 2%Z;
  fi_getname _ _ := (0%Z, [Byte.x01; Byte.x02], 2%Z) |}.

Definition example_discover (c : Configuration) (x : ()) : result (list string) DmaError * () :=
  ((discover_domains c []).1, x).

Definition example_start (c : Configuration) (x : ()) :
    result (list u8 * nat * service engine OpToken nat) DmaError * () :=
  let '(r, _, _, _) := start (Ok tt) c 4096 [] empty_cache [] in (r, x).

Lemma example_start_ready configuration x address cap s x' :
  example_start configuration x = (Ok (address, cap, s), x') → service_ok blocked_of s [] ∧ taken s = [].
Proof.
  unfold example_start. destruct (start _ _ _ _ _ _) as [[[r ev] c] tr] eqn:Es. intros; simplify_eq.
  edestruct (start_new (T := OpToken) (K := nat) (Ok tt)) as (e & -> & He); [apply empty_cache_ok| |exact Es|]; [done|].
  split; [by apply service_new_ok|done].
Qed.

Definition example_key (b : u8) : list u8 := [b].

Definition example_module : module engine (list (list u8 * ValkeyString)) () :=
  Build_module [(example_key Byte.x61, {| vs_pointer := 4096; vs_length := 5 |})] () None 0 0 [] false false [].

Definition example_advertisement : Advertisement :=
  {| address := replicate 32 Byte.x01; Wire.remote_key := 9; Wire.remote_address := 65536 |}.

(** A script of commands and workers' turns. *)
Inductive command : Type :=
  | RunGet (key : u8) (want : bool)
  | RunSet (key : u8) (length : Z) (expected : option Z)
  | RunLeave (client : Z)
  | RunWorker (index : nat).

Abbreviation example_crc := (λ _ : slice, 7%Z).
Abbreviation configuration := quiescing_configuration.
Abbreviation on f := (f example_discover example_start (λ _, Ok tt) configuration).

Definition run_command (c : command) (m : module engine (list (list u8 * ValkeyString)) ()) :
    module engine (list (list u8 * ValkeyString)) () :=
  match c with
  | RunGet key want =>
      (on dma_get 1%Z (λ _, 8192%Z) example_advertisement (example_key key) 64%Z want m).2
  | RunSet key length expected =>
      (on dma_set 1%Z example_advertisement (example_key key) length expected m).2
  | RunLeave client => on_client_change client Disconnected m
  | RunWorker index =>
      match FABRIC_SERVICES m with
      | None => m
      | Some servers =>
          match servers !! index with
          | None => m
          | Some s =>
              match thread_step (Operands0 := token_operands example_string (λ _, true))
                      (quiesce_writes configuration) (progress_deadline configuration)
                      (service_cap s) 64 Z.of_nat example_place example_crc (running s) with
              | None => m
              | Some r => with_services (Some (<[index := Build_fabric_service (service_address s) (service_cap s) r]> servers)) m
              end
          end
      end
  end.

Abbreviation stepping := (module_step example_string (λ _, true) example_discover example_start
  (λ _, Ok tt) configuration 64 Z.of_nat example_place example_crc).

Lemma run_commands l m : rtc stepping m (foldl (λ m c, run_command c m) m l).
Proof.
  revert m. induction l as [|c l IH]; intros m; [done|]. simpl.
  enough (rtc stepping m (run_command c m)) as Hc by (etrans; [exact Hc|apply IH]).
  destruct c as [key want|key n expected|client|index]; simpl.
  - eapply rtc_once, step_get, surjective_pairing.
  - eapply rtc_once, step_set, surjective_pairing.
  - eapply rtc_once, step_client with (subevent := Disconnected).
  - destruct (FABRIC_SERVICES m) as [servers|] eqn:Hf; [|done].
    destruct (servers !! index) as [s|] eqn:Hs; [|done].
    destruct (thread_step _ _ _ _ _ _ _ _) as [r|] eqn:Hr; [|done].
    by eapply rtc_once, step_worker.
Qed.

Definition example_commands : list command :=
  [RunGet Byte.x61 true; RunSet Byte.x62 8 (Some 7%Z); RunGet Byte.x7a false; RunSet Byte.x63 8 (Some 9%Z)] ++
  replicate 12 (RunWorker 0) ++ replicate 12 (RunWorker 1).

Definition example_run : module engine (list (list u8 * ValkeyString)) () :=
  foldl (λ m c, run_command c m) example_module example_commands.

Lemma example_run_reached : rtc stepping example_module example_run.
Proof. exact (run_commands example_commands example_module). Qed.

#[local] Opaque example_commands example_run.

Lemma every_blocked_client_answered_witness :
  blocked_clients example_run = 3 ∧ sent example_run = [] ∧
  seq 0 3 ≡ₚ replied (answer_all (all_batches example_crc example_run) []).1.
Proof.
  assert (blocked_clients example_run = 3) as Hb by (vm_compute; reflexivity).
  assert (sent example_run = []) as Hs by (vm_compute; reflexivity).
  split; [exact Hb|]. split; [exact Hs|].
  pose proof (every_blocked_client_answered example_string (λ _, true) example_discover example_start
    (λ _, Ok tt) configuration 64 Z.of_nat example_place example_crc
    example_place_fresh example_place_nonnull example_start_ready
    example_module example_run [] (all_batches example_crc example_run)
    (conj eq_refl (conj eq_refl eq_refl)) example_run_reached (Permutation_refl _)) as [Hp Hnone].
  rewrite Hb, Hs, Hnone, app_nil_r, fmap_nil, app_nil_l in Hp; [exact Hp|].
  clear Hp Hnone. apply (bool_decide_unpack _). by vm_compute.
Defined.

Abbreviation example_prepare :=
  (prepare (Operands0 := stored_operands example_string (λ _, true)) true example_place
     (set_request 1 example_advertisement (example_key Byte.x62) 8 (Some 7%Z) 0) ∅).

Lemma set_stores_only_verified_witness :
  ∃ p boxes op, example_prepare = (Ok p, boxes) ∧ boxes !! context p = Some op ∧
    let '(reply, ks) :=
      let c := into_completion example_crc op (Ok tt) in
      finish_under_gil (completed_context c) (outcome c) [] in
    reply.2 = Ok (Integer 8) ∧
    ks = [(example_key Byte.x62, {| vs_pointer := p_pointer p; vs_length := 8 |})].
Proof.
  destruct example_prepare as [[p|c] boxes] eqn:Hp; [|by vm_compute in Hp].
  destruct (boxes !! context p) as [op|] eqn:Hop; [|exfalso; vm_compute in Hp; simplify_eq; by vm_compute in Hop].
  exists p, boxes, op. split; [done|]. split; [done|].
  pose proof (set_stores_only_verified example_string (λ _, true) ltac:(done) 1%Z example_advertisement
    (example_key Byte.x62) 8 (Some 7%Z) 0 true example_place ∅ p boxes op example_crc (Ok ()) [] Hp Hop) as Hset.
  cbv zeta in Hset. destruct (finish_under_gil _ _ _) as [reply ks].
  destruct Hset as ([ptr n] & Hptr & _ & Hn & _ & Hv & _). simpl in *. subst n.
  destruct Hv as [-> ->]; [split; [done|by intros x [= <-]]|]. by rewrite Hptr.
Defined.

End witnesses.
