(* ===== verification/Devices.v ===== *)
(** * Every device's service

    The data commands of [module/src/transfer.rs] reach the fabric through several
    services, one per device.  A property of one service that its start gives and each of its
    operations keeps holds of every service of the module ([each]); so every one of them is
    in a state the theorems about one service speak of.  Left to themselves, with no more
    commands, the workers come to rest ([all_rest]). *)

From S2P Require Import Prelude Arc Wire Fabric RegionCache Operands PeerAddresses Config Endpoint.
From S2P Require Import Pool Worker FabricTransport Service Leases Lifecycle Rest Start DataCommands.

(** ** Each service *)

Section each.
  Context {E V X : Type} `{!Transport E, !Valkey V}.
  Variables (discover : Configuration → X → result (list string) DmaError * X)
    (start : Configuration → X → result (list u8 * nat * service E OpToken nat) DmaError * X)
    (spawn_pool : nat → result () string) (fabric : Configuration).
  (** What holds of each service, and what is asked of a request submitted to one. *)
  Variables (R : fabric_service E → Prop) (Q : TransferRequest OpToken → Prop).
  Implicit Types (m : module E V X) (s : fabric_service E).

Definition with_running (r : service E OpToken nat) s : fabric_service E :=
  Build_fabric_service (service_address s) (service_cap s) r.

Definition each m : Prop := Forall R (services_of m).

Definition starts_each : Prop := ∀ c x r x', start c x = (Ok r, x') → R (started r).

Definition submits_each : Prop := ∀ request s res r,
  Q request → R s → submit blocked_of request (running s) = (res, r) → R (with_running r s).

Definition removes_each : Prop := ∀ client s, R s → R (with_running (remove_peer client (running s)) s).

Lemma start_each_each domains x l x' :
  starts_each → start_each start fabric domains x = (Ok l, x') → Forall R l.
Proof.
  intros Hst. revert x l. induction domains as [|domain domains IH]; intros x l; simpl; [intros; simplify_eq; constructor|].
  destruct (start _ x) as [[r|error] x1] eqn:Es; [|done].
  destruct (start_each _ _ domains x1) as [[rest|[error dropped]] x2] eqn:Er; intros; simplify_eq.
  constructor; [by eapply Hst|by eapply IH].
Qed.

Lemma start_services_each m r m' :
  starts_each → start_services discover start spawn_pool fabric m = (r, m') →
  FABRIC_SERVICES m' = FABRIC_SERVICES m ∧ match r with Ok l => Forall R l | Err _ => True end.
Proof.
  intros Hst. unfold start_services. destruct (match head (providers fabric) with Some EfaDirect => _ | _ => _ end) as [domains x].
  destruct (pool_new _ _) as [pool|error]; [|intros; by simplify_eq].
  destruct domains as [|domain domains].
  - destruct (start fabric _) as [r1 x1] eqn:Es. intros; simplify_eq. split; [done|].
    destruct r1 as [r1|]; [|done]. constructor; [by eapply Hst|constructor].
  - destruct (start_each _ _ _ _) as [r1 x1] eqn:Es. intros; simplify_eq. split; [done|].
    destruct r1 as [l|[error dropped]]; [|done]. by eapply start_each_each.
Qed.

Lemma fabric_services_each m r m' :
  starts_each → each m → fabric_services discover start spawn_pool fabric m = (r, m') → each m'.
Proof.
  intros Hst He. unfold fabric_services. destruct (FABRIC_SERVICES m) as [servers|] eqn:Ef; [intros; by simplify_eq|].
  destruct (start_services _ _ _ _ m) as [[servers|error] m1] eqn:Es; apply start_services_each in Es; [|done| |done];
    destruct Es as [Hf Hl]; intros; simplify_eq; [exact Hl|].
  unfold each, services_of in *. by rewrite Hf.
Qed.

Lemma least_loaded_each m r m' :
  starts_each → each m → least_loaded_server discover start spawn_pool fabric m = (r, m') → each m'.
Proof.
  intros Hst He. unfold least_loaded_server. destruct (fabric_services _ _ _ _ m) as [[servers|error] m1] eqn:Ef;
    apply fabric_services_each in Ef; intros; by simplify_eq.
Qed.

Lemma each_insert m servers index s r :
  each m → FABRIC_SERVICES m = Some servers → R (with_running r s) →
  each (with_services (Some (<[index := with_running r s]> servers)) m).
Proof. unfold each, services_of. intros He Hf Hr. rewrite Hf in He. simpl. by apply Forall_insert. Qed.

Lemma each_lookup m servers index s :
  each m → FABRIC_SERVICES m = Some servers → servers !! index = Some s → R s.
Proof. unfold each, services_of. intros He Hf Hs. rewrite Hf in He. by eapply Forall_lookup_1. Qed.

Lemma submit_to_each index request m :
  submits_each → Q request → each m → each (submit_to index request m).
Proof.
  intros Hsub Hq He. unfold submit_to. destruct (FABRIC_SERVICES m) as [servers|] eqn:Hf; [|done].
  destruct (servers !! index) as [s|] eqn:Hs; [|done].
  destruct (submit blocked_of request (running s)) as [res r] eqn:Es.
  pose proof (each_insert m servers index s r He Hf (Hsub _ _ _ _ Hq (each_lookup _ _ _ _ He Hf Hs) Es)) as Hi.
  destruct res as [[]|back]; [exact Hi|]. by destruct (finish_under_gil (request_context back) _ _).
Qed.

Lemma release_client_each client m : removes_each → each m → each (release_client client m).
Proof.
  intros Hrem. unfold each, services_of, release_client. destruct (FABRIC_SERVICES m) as [servers|] eqn:Hf; simpl; [|by rewrite Hf].
  intros He. apply Forall_fmap. eapply Forall_impl; [exact He|]. intros s. apply Hrem.
Qed.

(** What [dma_get] holds of a key's value while it is sent. *)
Definition holding m (copied : list u8 → Z) (key : list u8) (bytes : list u8) : HeldValue :=
  match vk_retained (keyspace m) key with
  | Some value => Retained value
  | None => Copied {| buffer := copied bytes; bytes := bytes |}
  end.

Lemma dma_get_each client copied advertisement key capacity want m r m' :
  starts_each → submits_each → each m →
  (∀ bytes blocked, vk_read (keyspace m) key = Ok (Some bytes) → (Z.of_nat (length bytes) ≤ capacity)%Z →
     Q (get_request client advertisement (holding m copied key bytes) want blocked)) →
  dma_get discover start spawn_pool fabric client copied advertisement key capacity want m = (r, m') → each m'.
Proof.
  intros Hst Hsub He Hq. unfold dma_get. destruct (vk_read _ _) as [[bytes|]|] eqn:Hread; [|intros; by simplify_eq..].
  destruct (Z.ltb_spec capacity (Z.of_nat (length bytes))); [intros; by simplify_eq|].
  destruct (match vk_retained _ _ with Some _ => _ | None => _ end) as [held m1] eqn:Eh.
  assert (each m1 ∧ held = holding m copied key bytes) as [He1 ->].
  { unfold holding. unfold note_zero_copy, note_fallback in Eh. repeat (case_match; simplify_eq); done. }
  destruct (least_loaded_server _ _ _ _ m1) as [[i|error] m2] eqn:El; apply least_loaded_each in El; try done;
    intros; simplify_eq; [|done].
  apply (submit_to_each i (get_request client advertisement (holding m copied key bytes) want (blocked_clients m2))
    (with_blocked (S (blocked_clients m2)) m2)); [done|by apply Hq|done].
Qed.

Lemma dma_set_each client advertisement key n expected m r m' :
  starts_each → submits_each → each m →
  (∀ blocked, Q (set_request client advertisement key n expected blocked)) →
  dma_set discover start spawn_pool fabric client advertisement key n expected m = (r, m') → each m'.
Proof.
  intros Hst Hsub He Hq. unfold dma_set.
  destruct (least_loaded_server _ _ _ _ m) as [[i|error] m2] eqn:El; apply least_loaded_each in El; try done;
    intros; simplify_eq; [|done]. by apply submit_to_each.
Qed.

Lemma dma_hello_each m r m' :
  starts_each → each m → dma_hello discover start spawn_pool fabric m = (r, m') → each m'.
Proof.
  intros Hst He. unfold dma_hello. destruct (fabric_services _ _ _ _ m) as [[l|error] m1] eqn:Ef;
    apply fabric_services_each in Ef; intros; by simplify_eq.
Qed.

Lemma on_client_change_each client subevent m : removes_each → each m → each (on_client_change client subevent m).
Proof. destruct subevent; [done|]. apply release_client_each. Qed.

End each.

(** ** Every service is reached as the theorems on one service have it *)

Section module.
  Context {E V X : Type} `{!Transport E, !TransportLaws E, !Reports E, !Valkey V}.
  Variables (create_uninitialized : Z → OpToken → ValkeyString) (ensure_covered : Z → bool).
  Variables (discover : Configuration → X → result (list string) DmaError * X)
    (start : Configuration → X → result (list u8 * nat * service E OpToken nat) DmaError * X)
    (spawn_pool : nat → result () string) (fabric : Configuration).
  Variables (quiesce_pointer : Z) (clock : nat → Z) (place : gmap Z (InFlight OpToken) → Z) (crc : slice → Z).
#[local] Instance devices_operands : Operands OpToken := module_operands create_uninitialized ensure_covered.
#[local] Instance devices_laws : OperandsLaws OpToken nat blocked_of := module_operands_laws create_uninitialized ensure_covered.
  Hypothesis place_fresh : ∀ m, m !! place m = None.
  Hypothesis place_nonnull : ∀ m, place m ≠ 0%Z.
  (** What [Start] shows of a service that came up. *)
  Hypothesis start_new : ∀ c x address cap s x', start c x = (Ok (address, cap, s), x') →
    ∃ e, s = service_new e ∧ posted e = [].
  Implicit Types (m : module E V X) (s : fabric_service E).

  Abbreviation stepping := (module_step create_uninitialized ensure_covered discover start spawn_pool fabric
                              quiesce_pointer clock place crc).
  Abbreviation serving cap := (service_step blocked_of (quiesce_writes fabric) (progress_deadline fabric) cap
                                 quiesce_pointer clock place crc).
  Abbreviation worker_turn cap := (thread_step (quiesce_writes fabric) (progress_deadline fabric) cap
                                     quiesce_pointer clock place crc).

Definition reached s : Prop :=
  ∃ e, posted e = [] ∧ rtc (serving (service_cap s)) (service_new e) (running s).

Lemma reached_step s r : reached s → serving (service_cap s) (running s) r → reached (with_running r s).
Proof. intros (e & He & Hs) Hr. exists e. split; [done|]. by eapply rtc_r. Qed.

Lemma reached_starts : starts_each start reached.
Proof.
  intros c x [[address cap] s] x' Hs. apply start_new in Hs as (e & -> & He). by exists e.
Qed.

Lemma reached_submits : submits_each reached (λ _, True).
Proof. intros request s res r _ Hs Hr. apply reached_step; [done|]. by eapply step_submit. Qed.

Lemma reached_removes : removes_each reached.
Proof. intros client s Hs. apply reached_step; [done|]. apply step_remove_peer. Qed.

Lemma module_step_reached m m' : stepping m m' → each reached m → each reached m'.
Proof.
  intros Hstep He. pose proof reached_starts as Hst. pose proof reached_submits as Hsub. pose proof reached_removes as Hrem.
  destruct Hstep as [client copied adv key capacity want r m m' Hg|client adv key n expected r m m' Hg|r m m' Hg
    |client subevent m|index servers s r m Hf Hs Hr|ks m].
  - by eapply dma_get_each.
  - by eapply dma_set_each.
  - by eapply dma_hello_each.
  - by apply on_client_change_each.
  - apply (each_insert reached m servers index s r He Hf). apply reached_step; [by eapply each_lookup|].
    by apply step_thread.
  - exact He.
Qed.

Lemma module_reached m0 m : FABRIC_SERVICES m0 = None → rtc stepping m0 m → each reached m.
Proof.
  intros Hf Hm. assert (each reached m0) as He by (unfold each, services_of; rewrite Hf; constructor).
  clear Hf. induction Hm; [done|]. eauto using module_step_reached.
Qed.

(** ** Left to themselves *)

(** A worker's turn, or a change of the keyspace by some other command. *)
Inductive left_alone : option nat → module E V X → module E V X → Prop :=
  | alone_worker index servers s r m :
      FABRIC_SERVICES m = Some servers → servers !! index = Some s →
      worker_turn (service_cap s) (running s) = Some r →
      left_alone (Some index) m (with_services (Some (<[index := with_running r s]> servers)) m)
  | alone_keyspace ks m :
      left_alone None m (Build_module ks (world m) (FABRIC_SERVICES m) (NEXT m) (blocked_clients m) (sent m)
                           (zero_copy_logged m) (fallback_logged m) (notices m)).

Lemma left_alone_step o m m' : left_alone o m m' → stepping m m' ∧ blocked_clients m' = blocked_clients m ∧ sent m' = sent m.
Proof. intros Hs. destruct Hs; (split; [|done]); [by eapply step_worker|by apply step_keyspace]. Qed.

(** How many of the first [i] turns are the worker's at [j]. *)
Fixpoint turns (sched : nat → option nat) (j i : nat) : nat :=
  match i with
  | O => 0
  | S i => (if decide (sched i = Some j) then 1 else 0) + turns sched j i
  end.

Lemma turns_more sched j d i : ∃ e, turns sched j (d + i) = e + turns sched j i.
Proof. induction d as [|d [e IH]]; [by exists 0|]. simpl. rewrite IH. by eexists; rewrite Nat.add_assoc. Qed.

Lemma turns_all sched j n :
  (∀ i, ∃ d, sched (d + i) = Some j) → ∃ i, turns sched j i = n.
Proof.
  intros Hfair. induction n as [|n [i Hi]]; [by exists 0|]. destruct (Hfair i) as [d Hd].
  revert i Hi Hd. induction d as [|d IH]; intros i Hi Hd.
  - exists (S i). simpl in *. by rewrite decide_True, Hi.
  - destruct (decide (sched i = Some j)) as [Hj|Hj]; [exists (S i); simpl; by rewrite decide_True, Hi|].
    apply (IH (S i)); [simpl; by rewrite decide_False, Hi|]. by rewrite Nat.add_succ_r.
Qed.

(** A worker can always take its turn. *)
Lemma worker_goes_on m index s : each reached m → services_of m !! index = Some s → is_Some (worker_turn (service_cap s) (running s)).
Proof.
  intros He Hs. pose proof (Forall_lookup_1 _ _ _ _ He Hs) as (e & Hp & Hr).
  destruct (reachable_ok blocked_of (quiesce_writes fabric) (progress_deadline fabric) (service_cap s) quiesce_pointer
    clock place crc place_fresh place_nonnull e _ Hp Hr) as [rec Hok].
  destruct (thread_ok blocked_of (quiesce_writes fabric) (progress_deadline fabric) (service_cap s) quiesce_pointer
    clock place crc place_fresh place_nonnull _ rec Hok) as (s' & _ & Hs' & _). by eexists.
Qed.

(** At rest a worker stays at rest. *)
Lemma resting_stays cap (r r' : service E OpToken nat) : worker_turn cap r = Some r' → resting r → resting r'.
Proof.
  unfold thread_step, resting. intros H [Hst Hch]. rewrite Hch in H. destruct (status r) eqn:Hs; [done| |].
  - destruct (sender r); [simplify_eq; by rewrite Hs, Hch|]. by apply bind_Some in H as (w & _ & [= <-]).
  - simplify_eq. by rewrite Hs, Hch.
Qed.

Section run.
  Variables (run : nat → module E V X) (sched : nat → option nat).
  Hypothesis alone : ∀ i, left_alone (sched i) (run i) (run (S i)).
  Hypothesis fair : ∀ i j, j < length (services_of (run 0)) → ∃ d, sched (d + i) = Some j.
  Hypothesis reports : ∀ i j s b, services_of (run i) !! j = Some s → b ∈ posted (endpoint_of (thread (running s))) →
    ∃ d s', services_of (run (d + i)) !! j = Some s' ∧ b ∉ posted (endpoint_of (thread (running s'))).
  Hypothesis clock_goes_on : time_passes clock.
  Hypothesis start_reached : each reached (run 0).
  Hypothesis capped : each (λ s, 0 < service_cap s) (run 0).

Definition after (s : fabric_service E) (n : nat) : service E OpToken nat :=
  run_from (quiesce_writes fabric) (progress_deadline fabric) (service_cap s) quiesce_pointer clock place crc (running s) n.

(** Each service does what it would on its own. *)
Lemma service_at i j s :
  services_of (run 0) !! j = Some s →
  services_of (run i) !! j = Some (with_running (after s (turns sched j i)) s).
Proof.
  intros Hj. induction i as [|i IH]; [by destruct s|]. simpl.
  pose proof (alone i) as Ha. inversion Ha as [index servers s1 r m Hf Hs Hr Ho Hm Hm'|ks m Ho Hm Hm'].
  - subst m. unfold services_of in IH |- *. rewrite Hf in IH. simpl in *.
    destruct (decide (index = j)) as [->|Hne].
    + rewrite decide_True by done. rewrite list_lookup_insert_eq by (by eapply lookup_lt_Some).
      rewrite Hs in IH. injection IH as ->. f_equal. unfold with_running. simpl in *. f_equal.
      unfold after, run_from in *. simpl. by rewrite Hr.
    + rewrite decide_False by congruence. rewrite list_lookup_insert_ne by done. exact IH.
  - exact IH.
Qed.

Lemma service_rests j s :
  services_of (run 0) !! j = Some s → ∃ n, ∀ i, n ≤ i → resting (after s (turns sched j i)).
Proof.
  intros Hj. pose proof (lookup_lt_Some _ _ _ Hj) as Hlt.
  pose proof (Forall_lookup_1 _ _ _ _ start_reached Hj) as (e & He & Hs).
  pose proof (Forall_lookup_1 _ _ _ _ capped Hj) as Hcap.
  assert (∀ n, worker_turn (service_cap s) (after s n) = Some (after s (S n))) as Hturn.
  { intros n. by apply (run_from_reached blocked_of (quiesce_writes fabric) (progress_deadline fabric) (service_cap s)
      quiesce_pointer clock place crc place_fresh place_nonnull e (running s) n He Hs). }
  assert (∃ n, resting (after s n)) as [n Hn].
  { destruct (reachable_ok blocked_of (quiesce_writes fabric) (progress_deadline fabric) (service_cap s) quiesce_pointer
      clock place crc place_fresh place_nonnull e _ He Hs) as [rec Hok].
    destruct (reachable_tracks blocked_of (quiesce_writes fabric) (progress_deadline fabric) (service_cap s) quiesce_pointer
      clock place crc place_fresh place_nonnull e _ He Hs) as (a & _ & Ht).
    apply (left_alone_rests blocked_of (quiesce_writes fabric) (progress_deadline fabric) (service_cap s) quiesce_pointer
      clock place crc place_fresh place_nonnull (after s) Hturn) with (i := 0) (a := a); [|done|done|by exists rec].
    intros n b Hb. destruct (turns_all sched j n) as [i Hi]; [intros; by apply fair|].
    pose proof (service_at i j s Hj) as Hi'. rewrite Hi in Hi'.
    destruct (reports i j _ b Hi' Hb) as (d & s' & Hs' & Hb'). rewrite (service_at (d + i) j s Hj) in Hs'.
    injection Hs' as <-. destruct (turns_more sched j d i) as [x Hx]. exists x. by rewrite Hx, Hi in Hb'. }
  destruct (turns_all sched j n) as [i Hi]; [intros; by apply fair|]. exists i. intros k Hk.
  destruct (turns_more sched j (k - i) i) as [x Hx]. replace (k - i + i) with k in Hx by lia. rewrite Hx, Hi.
  clear Hx. induction x as [|x IH]; [done|]. exact (resting_stays _ _ _ (Hturn (x + n)) IH).
Qed.

(** Finitely many services are all at rest from some turn on. *)
Lemma all_rest : ∃ n, ∀ i, n ≤ i → rested (run i).
Proof.
  assert (∀ k, k ≤ length (services_of (run 0)) → ∃ n, ∀ i j s, n ≤ i → j < k →
    services_of (run 0) !! j = Some s → resting (after s (turns sched j i))) as Hall.
  { intros k. induction k as [|k IH]; intros Hk; [exists 0; intros; lia|]. destruct IH as [n Hn]; [lia|].
    destruct (lookup_lt_is_Some_2 (services_of (run 0)) k) as [s Hs]; [lia|].
    destruct (service_rests k s Hs) as [n' Hn']. exists (n + n'). intros i j s' Hi Hj Hs'.
    destruct (decide (j = k)) as [->|]; [|apply Hn; [lia|lia|done]].
    rewrite Hs in Hs'. injection Hs' as <-. apply Hn'. lia. }
  destruct (Hall _ (le_n _)) as [n Hn]. exists n. intros i Hi. apply Forall_lookup_2. intros j s Hs.
  assert (is_Some (services_of (run 0) !! j)) as [s0 Hs0].
  { apply lookup_lt_is_Some. apply lookup_lt_Some in Hs. enough (length (services_of (run i)) = length (services_of (run 0))) by lia.
    clear Hi Hs. induction i as [|i IH]; [done|]. rewrite <-IH. destruct (alone i) as [index servers s1 r m Hf _ _|ks m]; [|done].
    unfold services_of. rewrite Hf. apply length_insert. }
  rewrite (service_at i j s0 Hs0) in Hs. injection Hs as <-. apply (Hn i j s0); [done| |done]. by eapply lookup_lt_Some.
Qed.

End run.

End module.
