(* ===== verification/Answers.v ===== *)
(** * Every client has its answer

    The workers of the devices hand batches of finished transfers over in two ways: one they
    complete themselves, one whose checksums are to be taken goes to the shared pool of
    [pool.rs], which must still run it ([submit_crc_batch], [start_services]).  Here the
    module and its pool run together, turn by turn, and with no more commands every client has
    its answer in the end. *)

From S2P Require Import Prelude Arc Wire Fabric RegionCache Operands PeerAddresses Config Endpoint.
From S2P Require Import Pool Worker FabricTransport Service Leases Lifecycle Rest Start DataCommands Devices.

(** ** The module and its pool *)

(** A batch whose checksums are to be taken, as [submit_crc_batch] boxes it. *)
Definition crc_batch : Type := list (InFlight OpToken * result () DmaError).

#[export] Instance crc_batch_eq_dec : EqDecision crc_batch.
Proof.
  assert (EqDecision ValkeyString) by solve_decision. assert (EqDecision vec) by solve_decision.
  assert (EqDecision HeldValue) by solve_decision. assert (EqDecision OpToken) by solve_decision.
  assert (EqDecision QuiesceRead) by solve_decision. assert (EqDecision (InFlight OpToken)) by solve_decision.
  apply _.
Defined.

(** Whose turn it is: a device's worker, a thread of the pool, or some command that changes
    the keyspace. *)
Inductive mover : Type := AtWorker (index : nat) | AtPool (index : nat) | AtKeyspace.

Section answers.
  Context {E V X : Type} `{!Transport E, !TransportLaws E, !Reports E, !Valkey V}.
  Variables (create_uninitialized : Z → OpToken → ValkeyString) (ensure_covered : Z → bool).
  Variables (discover : Configuration → X → result (list string) DmaError * X)
    (start : Configuration → X → result (list u8 * nat * service E OpToken nat) DmaError * X)
    (spawn_pool : nat → result () string) (fabric : Configuration).
  Variables (quiesce_pointer : Z) (clock : nat → Z) (place : gmap Z (InFlight OpToken) → Z) (crc : slice → Z).
#[local] Instance answers_operands : Operands OpToken := module_operands create_uninitialized ensure_covered.
#[local] Instance answers_laws : OperandsLaws OpToken nat blocked_of := module_operands_laws create_uninitialized ensure_covered.
  Hypothesis place_fresh : ∀ m, m !! place m = None.
  Hypothesis place_nonnull : ∀ m, place m ≠ 0%Z.
  Hypothesis start_new : ∀ c x address cap s x', start c x = (Ok (address, cap, s), x') →
    ∃ e, s = service_new e ∧ posted e = [].
  Implicit Types (m : module E V X) (s : fabric_service E) (p : Pool crc_batch).

  Abbreviation stepping := (module_step create_uninitialized ensure_covered discover start spawn_pool fabric
                              quiesce_pointer clock place crc).
  Abbreviation worker_turn cap := (thread_step (quiesce_writes fabric) (progress_deadline fabric) cap
                                     quiesce_pointer clock place crc).
  Abbreviation left_alone' := (left_alone create_uninitialized ensure_covered fabric quiesce_pointer clock place crc).

(** What a worker gave the pool, and what it completed itself. *)
Definition handed_over (l : list (effect OpToken)) : list crc_batch :=
  omap (λ x, match x with PoolJob ops => Some ops | _ => None end) l.
Definition inline (l : list (effect OpToken)) : list (list (Completion OpToken)) :=
  omap (λ x, match x with CompleteBatch batch => Some batch | _ => None end) l.

Definition jobs m : list crc_batch := services_of m ≫= λ s, handed_over (log (acc (thread (running s)))).

(** The batches completed so far: inline, and by the pool's threads. *)
Definition completed m p : list (list (Completion OpToken)) :=
  (services_of m ≫= λ s, inline (log (acc (thread (running s))))) ++ (crc_job crc <$> jobs_run p).

(** One turn.  A worker's turn submits the jobs it hands over; a thread of the pool with
    nothing on its channel waits. *)
Inductive together : mover → module E V X * Pool crc_batch → module E V X * Pool crc_batch → Prop :=
  | together_worker index servers s r m p p' :
      FABRIC_SERVICES m = Some servers → servers !! index = Some s →
      worker_turn (service_cap s) (running s) = Some r →
      submit_all (handed_over (drop (length (log (acc (thread (running s))))) (log (acc (thread r))))) p = Some p' →
      together (AtWorker index) (m, p) (with_services (Some (<[index := with_running r s]> servers)) m, p')
  | together_pool index m p :
      together (AtPool index) (m, p) (m, default p (pool_turn index p))
  | together_keyspace ks m p :
      together AtKeyspace (m, p)
        (Build_module ks (world m) (FABRIC_SERVICES m) (NEXT m) (blocked_clients m) (sent m)
           (zero_copy_logged m) (fallback_logged m) (notices m), p).

Definition worker_of (t : mover) : option nat := match t with AtWorker index => Some index | _ => None end.

Lemma together_alone t x x' : together t x x' → left_alone' (worker_of t) x.1 x'.1.
Proof.
  destruct 1 as [index servers s r m p p' Hf Hs Hr _|index m p|ks m p]; [by eapply alone_worker| |by apply alone_keyspace].
  assert (m = Build_module (keyspace m) (world m) (FABRIC_SERVICES m) (NEXT m) (blocked_clients m) (sent m)
    (zero_copy_logged m) (fallback_logged m) (notices m)) as Hm by by destruct m.
  pose proof (alone_keyspace create_uninitialized ensure_covered fabric quiesce_pointer clock place crc (keyspace m) m) as Ha.
  by rewrite <-Hm in Ha.
Qed.

Lemma together_at_pool index x x' : together (AtPool index) x x' → x'.2 = default x.2 (pool_turn index x.2).
Proof. by inversion 1. Qed.

(** ** What has been handed over is either completed or with the pool *)

Lemma batches_split l : batches crc l ≡ₚ inline l ++ (crc_job crc <$> handed_over l).
Proof.
  induction l as [|x l IH]; [done|]. unfold batches, inline, handed_over in *. destruct x; csimpl; rewrite ?IH; try done.
  solve_Permutation.
Qed.

Lemma all_batches_split m :
  all_batches crc m ≡ₚ (services_of m ≫= λ s, inline (log (acc (thread (running s))))) ++ (crc_job crc <$> jobs m).
Proof.
  unfold all_batches, jobs. induction (services_of m) as [|s l IH]; csimpl; [done|].
  rewrite IH, batches_split, fmap_app. solve_Permutation.
Qed.

Lemma handed_over_app l l' : handed_over (l ++ l') = handed_over l ++ handed_over l'.
Proof. apply omap_app. Qed.

(** A worker's turn adds its jobs to those handed over. *)
Lemma worker_jobs m servers index s r :
  FABRIC_SERVICES m = Some servers → servers !! index = Some s → worker_turn (service_cap s) (running s) = Some r →
  jobs (with_services (Some (<[index := with_running r s]> servers)) m) ≡ₚ
  jobs m ++ handed_over (drop (length (log (acc (thread (running s))))) (log (acc (thread r)))).
Proof.
  intros Hf Hs Hr. unfold jobs, services_of. rewrite Hf. simpl.
  destruct (bind_insert (λ s, handed_over (log (acc (thread (running s))))) servers index s (with_running r s) Hs)
    as (l1 & l2 & -> & ->). simpl.
  destruct (thread_log (quiesce_writes fabric) (progress_deadline fabric) (service_cap s) quiesce_pointer clock place crc
    _ _ Hr) as [new Hnew]. rewrite Hnew, drop_app_length, handed_over_app. solve_Permutation.
Qed.

(** A worker at rest hands nothing over. *)
Lemma resting_log cap (r r' : service E OpToken nat) rec :
  service_ok blocked_of r rec → worker_turn cap r = Some r' → resting r → log (acc (thread r')) = log (acc (thread r)).
Proof.
  intros [_ _ _ Hse _ _] H [Hst Hch]. unfold thread_step in H. rewrite Hch in H. destruct (status r); [done| |].
  - destruct (sender r); [by simplify_eq|]. rewrite (settled_shutdown _ _ _ _ _ (Hse ltac:(done))) in H. by simplify_eq/=.
  - by simplify_eq.
Qed.

Section run.
  Variables (run : nat → module E V X * Pool crc_batch) (sched : nat → mover) (threads : nat) (born : Pool crc_batch).
  Hypothesis step : ∀ i, together (sched i) (run i) (run (S i)).
  Hypothesis born_new : pool_new spawn_pool threads = Ok born.
  Hypothesis pool_reached : rtc pool_step born (run 0).2.
  Hypothesis pool_open : senders (run 0).2 ≠ 0.
  Hypothesis pool_given : submitted (run 0).2 ≡ₚ jobs (run 0).1.

(** At every turn the pool has been given the jobs handed over, and nothing else. *)
Lemma pool_at i :
  pool_ok (threads `max` 1) (run i).2 ∧ senders (run i).2 ≠ 0 ∧ submitted (run i).2 ≡ₚ jobs (run i).1.
Proof.
  assert (rtc pool_step born (run i).2 ∧ senders (run i).2 ≠ 0 ∧ submitted (run i).2 ≡ₚ jobs (run i).1) as (Hr & ? & ?);
    [|split_and!; [by eapply pool_reachable|done..]].
  induction i as [|i (Hr & Ho & Hg)]; [done|].
  destruct (step i) as [index servers s r m p p' Hf Hs Ht Hp|index m p|ks m p]; simpl in *; [| |done].
  - apply submit_all_spec in Hp as (Hsteps & Hsub & Hse). rewrite Hse, Hsub. split_and!; [by etrans|done|].
    by rewrite Hg, (worker_jobs _ _ _ _ _ Hf Hs Ht).
  - destruct (pool_turn index p) as [p'|] eqn:Hp; simpl; [|done]. pose proof (pool_turn_kept _ _ _ Hp) as [-> ->].
    split_and!; [|done..]. eapply rtc_r; [exact Hr|by eapply step_turn].
Qed.

  Hypothesis start_ok : module_ok (run 0).1.
  Hypothesis ok_kept : ∀ i, module_ok (run i).1.
  Hypothesis fair : ∀ i index, index < threads `max` 1 → ∃ d, sched (d + i) = AtPool index.

(** Once the workers rest the pool runs what is left and there is nothing more. *)
Lemma pool_runs_all n :
  (∀ i, n ≤ i → rested (run i).1) → ∃ N, ∀ i, N ≤ i → n ≤ i ∧ submitted (run i).2 ≡ₚ jobs_run (run i).2.
Proof.
  intros Hrest.
  destruct (open_pool_drains (threads `max` 1) (λ i, (run (i + n)).2)) as [N HN].
  - intros i. by destruct (pool_at (i + n)) as (? & ? & _).
  - intros i. specialize (Hrest (i + n) ltac:(lia)). pose proof (ok_kept (i + n)) as [_ Hall].
    simpl. destruct (step (i + n)) as [index servers s r m p p' Hf Hs Ht Hp|index m p|ks m p]; simpl in *; [| |by left].
    + left. unfold rested, services_of in *. rewrite Hf in *. simpl in *.
      pose proof (Forall_lookup_1 _ _ _ _ Hrest Hs) as Hr. destruct (Forall_lookup_1 _ _ _ _ Hall Hs) as [rec Hok].
      rewrite (resting_log _ _ _ _ Hok Ht Hr), drop_all in Hp. simpl in Hp. by simplify_eq.
    + destruct (pool_turn index p) as [p'|] eqn:Hp; simpl; [right; by exists index|by left].
  - intros i index Hlt. destruct (fair (i + n) index Hlt) as [d Hd]. exists d. simpl.
    pose proof (step (d + (i + n))) as Hs. rewrite Hd in Hs. rewrite (Nat.add_assoc d i n) in Hs. simpl in Hs.
    by apply together_at_pool in Hs.
  - exists (N + n). intros i Hi. split; [lia|]. eapply drained_ran; [apply pool_at|].
    specialize (HN (i - n)). replace (i - n + n) with i in HN by lia. apply HN. lia.
Qed.

End run.

(** C7: Every client has its answer in the end.  Once commands stop coming, from any state
    the module can be in, with the pool given the jobs handed over so far, and in whatever
    order the workers, the pool's threads and changes of the keyspace take their turns, no
    worker or thread for ever left out, there comes a point from which every handle given out
    has been answered once: inline, by a batch a worker completed itself, or by one a thread of
    the pool has run, in whatever order those complete.  It is given only that time passes and
    that the fabric does not keep an operation for ever. *)
Theorem every_client_gets_its_answer m0 run sched threads born
  (H0 : FABRIC_SERVICES m0 = None ∧ blocked_clients m0 = 0 ∧ sent m0 = [])
  (Hm : rtc stepping m0 (run 0).1)
  (Hborn : pool_new spawn_pool threads = Ok born) (Hpool : rtc pool_step born (run 0).2)
  (Hopen : senders (run 0).2 ≠ 0) (Hgiven : submitted (run 0).2 ≡ₚ jobs (run 0).1)
  (Hstep : ∀ i, together (sched i) (run i) (run (S i)))
  (Hfair : ∀ i j, j < length (services_of (run 0).1) → ∃ d, sched (d + i) = AtWorker j)
  (Hturns : ∀ i k, k < threads `max` 1 → ∃ d, sched (d + i) = AtPool k)
  (Hreports : ∀ i j s b, services_of (run i).1 !! j = Some s → b ∈ posted (endpoint_of (thread (running s))) →
    ∃ d s', services_of (run (d + i)).1 !! j = Some s' ∧ b ∉ posted (endpoint_of (thread (running s'))))
  (Hclock : time_passes clock) (Hcap : each (λ s, 0 < service_cap s) (run 0).1) :
  ∃ n, ∀ i ks order, n ≤ i → order ≡ₚ completed (run i).1 (run i).2 →
    seq 0 (blocked_clients (run 0).1) ≡ₚ (sent (run 0).1).*1 ++ replied (answer_all order ks).1.
Proof.
  destruct H0 as (Hf & Hb & Hs).
  pose proof (module_reached create_uninitialized ensure_covered discover start spawn_pool fabric quiesce_pointer clock
    place crc start_new m0 _ Hf Hm) as Hreach.
  assert (∀ i, left_alone' (worker_of (sched i)) (run i).1 (run (S i)).1) as Halone
    by (intros i; by eapply together_alone).
  assert (∀ i, module_ok (run i).1 ∧ blocked_clients (run i).1 = blocked_clients (run 0).1 ∧ sent (run i).1 = sent (run 0).1)
    as Hok.
  { intros i. assert (rtc stepping m0 (run i).1 ∧ blocked_clients (run i).1 = blocked_clients (run 0).1 ∧
      sent (run i).1 = sent (run 0).1) as (Hi & <- & <-).
    { induction i as [|i (IH & <- & <-)]; [done|].
      destruct (left_alone_step create_uninitialized ensure_covered discover start spawn_pool fabric quiesce_pointer clock
        place crc _ _ _ (Halone i)) as (Hnext & -> & ->). split; [by eapply rtc_r|done]. }
    split; [|done]. eapply (module_reachable_ok create_uninitialized ensure_covered discover start spawn_pool fabric
      quiesce_pointer clock place crc place_fresh place_nonnull); [|exact Hf|exact Hb|exact Hs|exact Hi].
    intros c x address cap s x' (e & -> & He)%start_new. split; [by apply service_new_ok|done]. }
  destruct (all_rest create_uninitialized ensure_covered fabric quiesce_pointer clock place crc place_fresh place_nonnull
    (λ i, (run i).1) (λ i, worker_of (sched i)) Halone) as [n Hn]; [|exact Hreports|exact Hclock|exact Hreach|exact Hcap|].
  { intros i j Hj. destruct (Hfair i j Hj) as [d Hd]. exists d. by rewrite Hd. }
  destruct (pool_runs_all run sched threads born Hstep Hborn Hpool Hopen Hgiven (λ i, proj1 (Hok i)) Hturns n Hn) as [N HN].
  exists N. intros i ks order Hi Horder. destruct (HN i Hi) as [Hni Hran]. destruct (Hok i) as (Hmod & <- & <-).
  destruct (pool_at run sched threads born Hstep Hborn Hpool Hopen Hgiven i) as (_ & _ & Hsub).
  assert (order ≡ₚ all_batches crc (run i).1) as Hall.
  { rewrite Horder, all_batches_split. unfold completed. by rewrite <-Hran, Hsub. }
  rewrite (module_conserves crc (run i).1 ks order Hmod Hall), (rested_none (run i).1 Hmod (Hn i Hni)).
  by rewrite app_nil_r.
Qed.

End answers.

(** ** Witness: two devices with a read and two writes under way, each to be checksummed *)

Section witnesses.
#[local] Existing Instance example_libfabric.
#[local] Existing Instance example_valkey.
#[local] Existing Instance two_devices.
#[local] Existing Instance example_flags.

Definition busy_commands : list command :=
  [RunGet Byte.x61 true; RunSet Byte.x62 8 (Some 7%Z); RunSet Byte.x63 8 (Some 9%Z); RunLeave 1].

Abbreviation example_module_type := (module engine (list (list u8 * ValkeyString)) ()).

Definition busy_module : example_module_type := foldl (λ m c, run_command c m) example_module busy_commands.

Definition one_thread : Pool crc_batch := Build_Pool 1 0 [Build_pool_worker (worker_name 0) [] [] false] [].

Definition log_of (m : example_module_type) (j : nat) : list (effect OpToken) :=
  default [] ((λ s, log (acc (thread (running s)))) <$> services_of m !! j).

(** The two workers and the pool's thread in turn. *)
Definition next_turn (k : nat) (x : example_module_type * Pool crc_batch) : example_module_type * Pool crc_batch :=
  if k =? 2 then (x.1, default x.2 (pool_turn 0 x.2))
  else
    let m := run_command (RunWorker k) x.1 in
    (m, default x.2 (submit_all (handed_over (drop (length (log_of x.1 k)) (log_of m k))) x.2)).

Fixpoint busy_run (i : nat) : example_module_type * Pool crc_batch :=
  match i with
  | O => (busy_module, one_thread)
  | S i => next_turn (i mod 3) (busy_run i)
  end.

Definition busy_sched (i : nat) : mover := if i mod 3 =? 2 then AtPool 0 else AtWorker (i mod 3).

Abbreviation example_stepping := (module_step example_string (λ _, true) example_discover example_start
  (λ _, Ok tt) quiescing_configuration 64 Z.of_nat example_place (λ _, 7%Z)).

Lemma busy_run_reached i : rtc example_stepping example_module (busy_run i).1.
Proof.
  induction i as [|i IH]; [exact (run_commands busy_commands example_module)|].
  etrans; [exact IH|]. cbn [busy_run]. unfold next_turn. destruct (_ =? _); [done|].
  exact (run_commands [RunWorker (i mod 3)] (busy_run i).1).
Qed.

Lemma example_start_new c x address cap (s : service engine OpToken nat) x' :
  example_start c x = (Ok (address, cap, s), x') → ∃ e, s = service_new e ∧ posted e = [].
Proof.
  unfold example_start. destruct (Start.start _ _ _ _ _ _) as [[[r ev] c1] tr] eqn:Es. intros; simplify_eq.
  edestruct (Start.start_new (T := OpToken) (K := nat) (Ok tt)) as (e & -> & He); [apply empty_cache_ok| |exact Es|]; [done|].
  by exists e.
Qed.

Abbreviation example_reached_each := (each (reached example_string (λ _, true) quiescing_configuration 64 Z.of_nat
  example_place (λ _, 7%Z))).

Lemma run_worker_devices k (m : example_module_type) :
  length (services_of (run_command (RunWorker k) m)) = length (services_of m).
Proof.
  cbn [run_command]. unfold services_of. destruct (FABRIC_SERVICES m) as [servers|] eqn:Hf; [|by rewrite ?Hf].
  destruct (servers !! k) as [s|]; [|by rewrite ?Hf].
  destruct (thread_step _ _ _ _ _ _ _ _); [simpl; apply length_insert|by rewrite ?Hf].
Qed.

Lemma busy_run_devices i : example_reached_each (busy_run i).1 ∧ length (services_of (busy_run i).1) = 2.
Proof.
  split.
  - exact (module_reached example_string (λ _, true) example_discover example_start (λ _, Ok tt) quiescing_configuration
      64 Z.of_nat example_place (λ _, 7%Z) example_start_new example_module _ eq_refl (busy_run_reached i)).
  - induction i as [|i IH]; [by vm_compute|]. rewrite <-IH. cbn [busy_run]. unfold next_turn.
    destruct (_ =? _); [done|]. apply run_worker_devices.
Qed.

Lemma busy_run_open i : senders (busy_run i).2 ≠ 0.
Proof.
  induction i as [|i IH]; [done|]. cbn [busy_run]. unfold next_turn. destruct (_ =? _); simpl.
  - destruct (pool_turn _ _) as [p|] eqn:Hp; [|done]. simpl. by rewrite (proj2 (pool_turn_kept _ _ _ Hp)).
  - destruct (submit_all _ _) as [p|] eqn:Hp; [|done]. simpl. apply submit_all_spec in Hp as (_ & _ & ->). done.
Qed.

Lemma busy_run_steps i :
  together example_string (λ _, true) quiescing_configuration 64 Z.of_nat example_place (λ _, 7%Z)
    (busy_sched i) (busy_run i) (busy_run (S i)).
Proof.
  destruct (busy_run_devices i) as [He Hlen]. pose proof (busy_run_open i) as Ho.
  pose proof (Nat.mod_upper_bound i 3 ltac:(lia)) as Hi. cbn [busy_run]. unfold busy_sched.
  revert Hi He Hlen Ho. generalize (i mod 3) as k, (busy_run i) as x. intros k [m p] Hk He Hlen Ho. unfold next_turn.
  destruct (Nat.eqb_spec k 2) as [->|Hne]; [apply together_pool|]. cbn [fst snd run_command] in *.
  destruct (lookup_lt_is_Some_2 (services_of m) k) as [s Hs]; [lia|].
  destruct (worker_goes_on example_string (λ _, true) quiescing_configuration 64 Z.of_nat example_place (λ _, 7%Z)
    example_place_fresh example_place_nonnull _ _ _ He Hs) as [r Hr].
  pose proof Hs as Hs'. unfold services_of in Hs'. destruct (FABRIC_SERVICES m) as [servers|] eqn:Hf; [|done].
  change (servers !! k = Some s) in Hs'. rewrite Hs'. pose proof Hr as Hr'.
  unfold devices_operands, module_operands in Hr'. rewrite Hr'. set (m' := with_services _ m).
  assert (log_of m k = log (acc (thread (running s)))) as -> by (unfold log_of; by rewrite Hs).
  assert (log_of m' k = log (acc (thread r))) as ->.
  { unfold log_of, services_of, m'. simpl. by rewrite list_lookup_insert_eq by (by eapply lookup_lt_Some). }
  destruct (submit_all_open (handed_over (drop (length (log (acc (thread (running s))))) (log (acc (thread r))))) p Ho)
    as [p' Hp']. rewrite Hp'. by eapply together_worker.
Qed.

Lemma busy_run_over d : busy_run (d + 45) = busy_run 45.
Proof.
  induction d as [|d IH]; [done|]. cbn [Nat.add busy_run]. rewrite IH.
  pose proof (Nat.mod_upper_bound (d + 45) 3 ltac:(lia)) as Hd.
  destruct ((d + 45) mod 3) as [|[|[|k]]]; [vm_compute; reflexivity..|lia].
Qed.

Lemma busy_run_drained : Forall (λ s, flying (e_trace (endpoint_of (thread (running s)))) = []) (services_of (busy_run 45).1).
Proof. apply (bool_decide_unpack _). vm_compute. exact I. Qed.

Lemma busy_run_capped : each (λ s, 0 < service_cap s) (busy_run 0).1.
Proof. apply (bool_decide_unpack _). vm_compute. exact I. Qed.

Lemma busy_run_ran : length (jobs_run (busy_run 45).2) = 2.
Proof. vm_compute. reflexivity. Qed.

#[local] Opaque busy_module busy_run.

Lemma every_client_gets_its_answer_witness :
  blocked_clients (busy_run 0).1 = 3 ∧ length (still_in_service (busy_run 0).1) = 3 ∧ length (jobs_run (busy_run 45).2) = 2 ∧
  ∃ n, ∀ ks order, order ≡ₚ completed (λ _, 7%Z) (busy_run n).1 (busy_run n).2 → seq 0 3 ≡ₚ replied (answer_all order ks).1.
Proof.
  assert (blocked_clients (busy_run 0).1 = 3) as Hb by (vm_compute; reflexivity).
  assert (sent (busy_run 0).1 = []) as Hs by (vm_compute; reflexivity).
  split; [exact Hb|]. split; [vm_compute; reflexivity|]. split; [exact busy_run_ran|].
  destruct (every_client_gets_its_answer example_string (λ _, true) example_discover example_start (λ _, Ok tt)
    quiescing_configuration 64 Z.of_nat example_place (λ _, 7%Z) example_place_fresh example_place_nonnull example_start_new
    example_module busy_run busy_sched 1 one_thread (conj eq_refl (conj eq_refl eq_refl)) (busy_run_reached 0))
    as [n Hn].
  - vm_compute. reflexivity.
  - assert ((busy_run 0).2 = one_thread) as -> by (vm_compute; reflexivity). apply rtc_refl.
  - apply busy_run_open.
  - apply (bool_decide_unpack _). vm_compute. exact I.
  - exact busy_run_steps.
  - intros i j Hj. rewrite (proj2 (busy_run_devices 0)) in Hj. exists (j + (2 * (i mod 3))). unfold busy_sched.
    replace (j + 2 * (i mod 3) + i) with (j + (i / 3 + i mod 3) * 3) by (pose proof (Nat.div_mod_eq i 3); lia).
    rewrite Nat.Div0.mod_add, Nat.mod_small by lia. by destruct j as [|[|j]]; [..|lia].
  - intros i k Hk. exists (2 + (2 * (i mod 3))). unfold busy_sched.
    replace (2 + 2 * (i mod 3) + i) with (2 + (i / 3 + i mod 3) * 3) by (pose proof (Nat.div_mod_eq i 3); lia).
    rewrite Nat.Div0.mod_add. simpl in Hk. by destruct k; [|lia].
  - intros i j s b Hj _. exists 45.
    destruct (lookup_lt_is_Some_2 (services_of (busy_run (45 + i)).1) j) as [s' Hs'].
    { rewrite (proj2 (busy_run_devices (45 + i))). apply lookup_lt_Some in Hj. by rewrite (proj2 (busy_run_devices i)) in Hj. }
    exists s'. split; [exact Hs'|]. rewrite Nat.add_comm, busy_run_over in Hs'.
    pose proof (Forall_lookup_1 _ _ _ _ busy_run_drained Hs') as Hd. simpl in Hd |- *. rewrite Hd. apply not_elem_of_nil.
  - intros t. exists (Z.to_nat t). intros m Hm. lia.
  - exact busy_run_capped.
  - exists n. intros ks order Horder. specialize (Hn n ks order (le_n n) Horder). by rewrite Hb, Hs in Hn.
Defined.

End witnesses.
