(* ===== verification/Entry.v ===== *)
(** * The module's entry point

    [module/src/entry.rs], [session.rs], [static_state.rs] and [observability.rs]: the
    statics the module keeps, [init], and the four commands as valkey calls them, arguments
    unparsed.  What valkey, the file system and the tracing packages answer are
    parameters. *)

From S2P Require Import Prelude Arc Wire Fabric RegionCache Operands Memory PeerAddresses Config Endpoint.
From S2P Require Import Pool Worker FabricTransport Service Start DataCommands.

(** ** Observability *)

Definition CACHE_CAPACITY : Z := 16384.

Inductive tracing_event : Type :=
  | SpawnHost (host : ConsoleHostConfiguration)
  | SetGlobalDefault (capacity : Z)
  | Printed (text : string).

(** [observability::install]; [taken] is a subscriber installed before. *)
Definition observability_install (taken : option string) (o : ObservabilityConfiguration) :
    list tracing_event :=
  (SpawnHost <$> option_list (console_host o)) ++ [SetGlobalDefault CACHE_CAPACITY] ++
  ((λ error, Printed ("dma module: failed to install tracing subscriber (spans will be lost): " +:+ error))
     <$> option_list taken).

(** The host thread and [run]: what it prints, [served] being how serving ends if it
    does. *)
Definition host_thread (runtime : result () string) (served : option (result () string)) : list string :=
  match runtime with
  | Err error => ["dma module: failed to start tracing runtime: " +:+ error]
  | Ok _ =>
      match served with
      | Some (Err error) => ["dma module: tracing console host stopped: " +:+ error]
      | _ => []
      end
  end.

(** ** Arguments *)

(** [DataArgs] *)
Record DataArgs := {
  advertisement : Advertisement;
  data_length : Z;
  key : list u8;
  crc : option (list u8);
}.

(** [parse_length] *)
Definition parse_length (raw : list u8) : result Z ValkeyError :=
  ok_or (parse_ascii usize_max raw) (ErrorText "ERR length is not an integer or out of range").

(** [parse_crc] *)
Definition parse_crc (raw : list u8) : result Z ValkeyError :=
  ok_or (parse_ascii u32_max raw) (ErrorText "ERR crc is not an integer or out of range").

(** [args[i]]; every index used is in range once the arity is right. *)
Definition arg (i : nat) (args : list (list u8)) : list u8 := default [] (args !! i).

(** [parse_data_args] *)
Definition parse_data_args (args : list (list u8)) : result DataArgs ValkeyError :=
  let base := 3 + ARG_COUNT in
  let n := List.length args in
  if negb (n =? base) && negb (n =? base + 1) then Err WrongArity
  else
    let? a :=
      match from_fields [arg 1 args; arg 2 args; arg 3 args] with
      | Ok a => Ok a
      | Err error => Err (command_error (AdvertisementError_display error))
      end in
    let? n := parse_length (arg (base - 2) args) in
    Ok {| advertisement := a; data_length := n; key := arg (base - 1) args; crc := args !! base |}.

(** ** The module's statics *)

Inductive log_level : Type := Notice | Warning.

Inductive Status : Type := StatusOk | StatusErr.

(** [CONFIG_FILE] ([None] once poisoned), [CONFIGURATION], [ENDPOINT] with the calls it took
    to open, the allocator's statics, the log, and the data commands' part. *)
Record process (E V X : Type) := {
  CONFIG_FILE : option string;
  CONFIGURATION : option RootConfiguration;
  ENDPOINT : option Endpoint;
  setup : list setup_event;
  allocator : statics;
  logged : list (log_level * string);
  traced : list tracing_event;
  data : module E V X;
}.
Arguments Build_process {E V X} _ _ _ _ _ _ _ _.
Arguments CONFIG_FILE {E V X} _.
Arguments CONFIGURATION {E V X} _.
Arguments ENDPOINT {E V X} _.
Arguments setup {E V X} _.
Arguments allocator {E V X} _.
Arguments logged {E V X} _.
Arguments traced {E V X} _.
Arguments data {E V X} _.

Section entry.
  Context `{Libfabric, LibfabricFlags, FabricSetup, Jemalloc} {E V X : Type} `{!Transport E, !Valkey V}.
  (** [DataCommands]'s parameters; the build's id, reading a file, and [toml]. *)
  Variables (discover : Configuration → X → result (list string) DmaError * X)
    (start : Configuration → X → result (list u8 * nat * service E OpToken nat) DmaError * X)
    (spawn_pool : nat → result () string).
  Variables (VDMA_BUILD_ID : string) (read_to_string : string → result string string)
    (toml_parse : string → result document string) (subscriber_taken : option string).
  Implicit Types (p : process E V X).

Definition with_data (m : module E V X) p : process E V X :=
  Build_process (CONFIG_FILE p) (CONFIGURATION p) (ENDPOINT p) (setup p) (allocator p) (logged p) (traced p) m.
Definition with_endpoint_state (e : option Endpoint) (ev : list setup_event) p : process E V X :=
  Build_process (CONFIG_FILE p) (CONFIGURATION p) e ev (allocator p) (logged p) (traced p) (data p).
Definition with_allocator (st : statics) p : process E V X :=
  Build_process (CONFIG_FILE p) (CONFIGURATION p) (ENDPOINT p) (setup p) st (logged p) (traced p) (data p).
Definition trace_install (l : list tracing_event) p : process E V X :=
  Build_process (CONFIG_FILE p) (CONFIGURATION p) (ENDPOINT p) (setup p) (allocator p) (logged p) (traced p ++ l) (data p).

Definition log_message (level : log_level) (text : string) p : process E V X :=
  Build_process (CONFIG_FILE p) (CONFIGURATION p) (ENDPOINT p) (setup p) (allocator p)
    (logged p ++ [(level, text)]) (traced p) (data p).

(** [valkey_logger] *)
Definition lifecycle (text : string) p := log_message Notice text p.
Definition fatal (text : string) p := log_message Warning text p.
Definition warning (text : string) p := log_message Warning text p.

(** [config_file_path] *)
Definition config_file_path p : option string :=
  path ← CONFIG_FILE p; if decide (path = "") then None else Some path.

(** [set_configuration]: the first call wins. *)
Definition set_configuration (c : RootConfiguration) p : process E V X :=
  Build_process (CONFIG_FILE p) (Some (default c (CONFIGURATION p))) (ENDPOINT p) (setup p) (allocator p)
    (logged p) (traced p) (data p).

(** [static_state::configuration] *)
Definition configuration p : RootConfiguration := default default_root (CONFIGURATION p).

(** [load_configuration] *)
Definition load_configuration p : result RootConfiguration string :=
  match config_file_path p with
  | Some path =>
      match read_to_string path with
      | Err error => Err ("reading " +:+ path +:+ ": " +:+ error)
      | Ok text =>
          match from_toml toml_parse text with
          | Ok c => Ok c
          | Err error => Err (ConfigurationError_display error)
          end
      end
  | None => Ok default_root
  end.

(** [configure_allocator] *)
Definition configure_allocator (decay_ms oversize_threshold : Z) p : process E V X :=
  let '(report, st) := install decay_ms oversize_threshold (allocator p) in
  let p := with_allocator st p in
  match mode report with
  | PerOperation =>
      warning "valkey-dma: no jemalloc in the host, so RMA operands are registered per transfer and deregistered on completion. Correct, but fi_mr_reg runs on the fabric worker for every transfer — expect far lower throughput. Run against a jemalloc build for production." p
  | Cached =>
      let huge := match huge_arena report with Some index => pretty index | None => "none" end in
      lifecycle ("valkey-dma: tuned huge arena " +:+ huge +:+ " — decay window " +:+ pretty (report_decay_ms report) +:+
        "ms, oversize_threshold " +:+ pretty (report_oversize_threshold report / (1024 * 1024))%Z +:+
        " MiB; arenas are hooked lazily per registration (decay stays ON — hooks deregister covered pages before purge; freed values below the threshold recycle in place)") p
  end.

(** [Debug for Vec<Provider>] *)
Definition providers_debug (l : list Provider) : string :=
  "[" +:+ String.concat ", " ((λ provider, match provider with Tcp => "Tcp" | EfaDirect => "EfaDirect" end) <$> l) +:+ "]".

(** [init] *)
Definition init p : Status * process E V X :=
  let p := lifecycle ("valkey-dma module starting, build " +:+ VDMA_BUILD_ID) p in
  match load_configuration p with
  | Err error => (StatusErr, fatal ("failed to load configuration: " +:+ error) p)
  | Ok c =>
      let p := trace_install (observability_install subscriber_taken (observability c)) p in
      let p := configure_allocator (huge_arena_decay_ms (jemalloc c)) (huge_arena_oversize_threshold (jemalloc c)) p in
      let p := set_configuration c p in
      let active := configuration p in
      (StatusOk, lifecycle ("valkey-dma configuration loaded: dma-libfabric providers " +:+
                            providers_debug (providers (dma_libfabric active))) p)
  end.

(** ** [session.rs] *)

(** [with_endpoint] *)
Definition with_endpoint {R} (c : RootConfiguration) (body : Endpoint → result R DmaError) p :
    result R DmaError * process E V X :=
  match ENDPOINT p with
  | Some e => (body e, p)
  | None =>
      match open (dma_libfabric c) (Config.bind (dma_libfabric c)) (setup p) with
      | (Err error, ev) => (Err error, with_endpoint_state None ev p)
      | (Ok e, ev) => (body e, with_endpoint_state (Some e) ev p)
      end
  end.

(** [endpoint_info]; an open endpoint has its info. *)
Definition endpoint_info (c : RootConfiguration) p : result EndpointInfo DmaError * process E V X :=
  with_endpoint c (λ e, match info e with
                        | Some i => Ok (describe i e)
                        | None => Err (Fabric "endpoint unavailable")
                        end) p.

(** ** Commands *)

(** [dma_info_command] *)
Definition dma_info_command p : ValkeyResult * process E V X :=
  match endpoint_info (configuration p) p with
  | (Ok i, p) => (Ok (Array ((λ line, SimpleString (ascii line)) <$> lines i)), p)
  | (Err error, p) => (Err (command_error (DmaError_display error)), p)
  end.

Abbreviation on f p := (f discover start spawn_pool (dma_libfabric (configuration p))).

(** [dma_hello_command] *)
Definition dma_hello_command p : ValkeyResult * process E V X :=
  let '(r, m) := on dma_hello p (data p) in (r, with_data m p).

(** [dma_set_command]; [client] is the calling client's id. *)
Definition dma_set_command (client : Z) (args : list (list u8)) p : ValkeyResult * process E V X :=
  match parse_data_args args with
  | Err error => (Err error, p)
  | Ok parsed =>
      match (match crc parsed with
             | None => Ok None
             | Some raw => let? n := parse_crc raw in Ok (Some n)
             end) with
      | Err error => (Err error, p)
      | Ok expected_crc =>
          let '(r, m) := on dma_set p client (advertisement parsed) (key parsed) (data_length parsed) expected_crc (data p) in
          (r, with_data m p)
      end
  end.

(** [dma_get_command]; [copied] is where a copied value goes. *)
Definition dma_get_command (client : Z) (copied : list u8 → Z) (args : list (list u8)) p :
    ValkeyResult * process E V X :=
  match parse_data_args args with
  | Err error => (Err error, p)
  | Ok parsed =>
      let '(r, m) := on dma_get p client copied (advertisement parsed) (key parsed) (data_length parsed)
                       (bool_decide (is_Some (crc parsed))) (data p) in
      (r, with_data m p)
  end.

End entry.

(** ** What the arguments mean *)

(** C33: The data commands' arguments.  They parse exactly when there are five or six
    after the command's name and the first three are an advertisement and the fourth a
    [usize]; the key is then the fifth and the checksum the sixth, taken as they are.
    Otherwise the arity is reported first, then what is wrong with the advertisement, then
    the length. *)
Theorem data_args_cases args :
  match parse_data_args args with
  | Ok d =>
      ∃ command addr rkey raddr len, args = [command; addr; rkey; raddr; len; key d] ++ option_list (crc d) ∧
        decode_hex addr = Ok (address (advertisement d)) ∧
        parse_ascii u64_max rkey = Some (Wire.remote_key (advertisement d)) ∧
        parse_ascii u64_max raddr = Some (Wire.remote_address (advertisement d)) ∧
        parse_ascii usize_max len = Some (data_length d)
  | Err WrongArity => List.length args ≠ 6 ∧ List.length args ≠ 7
  | Err (ErrorText text) =>
      ∃ command addr rkey raddr len rest, args = command :: addr :: rkey :: raddr :: len :: rest ∧
        (List.length rest = 1 ∨ List.length rest = 2) ∧
        match from_fields [addr; rkey; raddr] with
        | Err error => text = "ERR " +:+ AdvertisementError_display error
        | Ok _ => parse_ascii usize_max len = None ∧ text = "ERR length is not an integer or out of range"
        end
  end.
Proof.
  unfold parse_data_args, ARG_COUNT. cbn [Nat.add Nat.sub].
  destruct (Nat.eqb_spec (List.length args) 6) as [H6|H6], (Nat.eqb_spec (List.length args) 7) as [H7|H7];
    cbn [negb andb]; try done; [lia|..].
  all: destruct args as [|command [|addr [|rkey [|raddr [|len rest]]]]]; try done; unfold arg;
    cbn [lookup list_lookup default id].
  all: simpl in H6, H7; destruct (from_fields [addr; rkey; raddr]) as [a|error] eqn:Ef;
    cbn [command_error]; [|exists command, addr, rkey, raddr, len, rest; rewrite Ef; split_and!; [done|lia|done]].
  all: unfold parse_length; destruct (parse_ascii usize_max len) as [n|] eqn:En;
    cbn [ok_or]; [|exists command, addr, rkey, raddr, len, rest; rewrite Ef; split_and!; [done|lia|done..]].
  all: unfold from_fields in Ef; destruct (decode_hex addr) as [bytes|] eqn:Ea; [|done]; cbn -[parse_ascii] in Ef.
  all: destruct (parse_ascii u64_max rkey) eqn:Ek; [|done]; destruct (parse_ascii u64_max raddr) eqn:Er; [|done];
    cbn in Ef; simplify_eq.
  all: exists command, addr, rkey, raddr, len; cbn.
  - destruct rest as [|k [|? ?]]; [done|by split_and!|done].
  - destruct rest as [|k [|x [|? ?]]]; [done|done|by split_and!|done].
Qed.

(** ** What the commands and [init] leave *)

Section effects.
  Context `{Libfabric, LibfabricFlags, FabricSetup, Jemalloc} {E V X : Type} `{!Transport E, !Valkey V}.
  Variables (discover : Configuration → X → result (list string) DmaError * X)
    (start : Configuration → X → result (list u8 * nat * service E OpToken nat) DmaError * X)
    (spawn_pool : nat → result () string).
  Variables (VDMA_BUILD_ID : string) (read_to_string : string → result string string)
    (toml_parse : string → result document string) (subscriber_taken : option string).
  Implicit Types (p : process E V X).

(** A command as valkey calls it. *)
Inductive invocation : Type :=
  | Info
  | Hello
  | Set_ (client : Z) (args : list (list u8))
  | Get (client : Z) (copied : list u8 → Z) (args : list (list u8)).

(** The commands [valkey_module!] registers. *)
Definition invoke (i : invocation) p : ValkeyResult * process E V X :=
  match i with
  | Info => dma_info_command p
  | Hello => dma_hello_command discover start spawn_pool p
  | Set_ client args => dma_set_command discover start spawn_pool client args p
  | Get client copied args => dma_get_command discover start spawn_pool client copied args p
  end.

(** C32: A command replies or blocks its client, never both and never neither.  Whatever it
    is given: it answers [NoReply] exactly when it blocked one client, for whom at most an
    error is sent at once; any other answer, error or not, blocks nobody and sends nothing;
    and in no case has the command itself changed the keyspace.  Arguments that do not
    parse leave the module as it was, no service started. *)
Theorem command_answers_or_blocks i p :
  let '(r, p') := invoke i p in
  answered_or_blocked r (data p) (data p') ∧
  CONFIGURATION p' = CONFIGURATION p ∧ allocator p' = allocator p ∧
  match i with
  | Set_ _ args | Get _ _ args => is_ok (parse_data_args args) = false → p' = p
  | _ => True
  end.
Proof.
  destruct (invoke i p) as [r p'] eqn:Hi. destruct i as [| |client args|client copied args]; simpl in Hi.
  - unfold dma_info_command, endpoint_info, with_endpoint in Hi. repeat (case_match; simplify_eq/=); by split_and!.
  - unfold dma_hello_command in Hi. destruct (dma_hello _ _ _ _ _) as [r' m] eqn:Eh.
    apply dma_hello_answers in Eh. by simplify_eq.
  - unfold dma_set_command in Hi. destruct (parse_data_args args) as [d|error]; [|by simplify_eq].
    destruct (match crc d with Some _ => _ | None => _ end) as [expected|]; [|by simplify_eq].
    destruct (dma_set _ _ _ _ _ _ _ _ _ _) as [r' m] eqn:Es. apply dma_set_answers in Es. by simplify_eq.
  - unfold dma_get_command in Hi. destruct (parse_data_args args) as [d|error]; [|by simplify_eq].
    destruct (dma_get _ _ _ _ _ _ _ _ _ _ _) as [r' m] eqn:Es. apply dma_get_answers in Es. by simplify_eq.
Qed.

(** [init] settles the configuration once and refuses a bad one.  Without a path the
    defaults are taken; with one, the file's sections over the defaults.  On success that
    configuration is what every later command sees, unless one was set before, the hooks
    are armed exactly where the host's arena gave its own up, and the commands' state is
    untouched; on failure nothing but the log has changed. *)
Lemma init_settles p :
  let '(status, p') := init VDMA_BUILD_ID read_to_string toml_parse subscriber_taken p in
  match status with
  | StatusOk =>
      ∃ c, configuration p' = default c (CONFIGURATION p) ∧ CONFIGURATION p' = Some (configuration p') ∧
        match config_file_path p with
        | None => c = default_root
        | Some path => ∃ text d, read_to_string path = Ok text ∧ toml_parse text = Ok d ∧ c = root_of_document d
        end ∧
        (ARMED (allocator p) = false →
         ARMED (allocator p') = bool_decide (is_Some (read_extent_hooks 0 (je_log (allocator p))).1))
  | StatusErr =>
      (∃ path, config_file_path p = Some path ∧
         match read_to_string path with Ok text => is_ok (toml_parse text) = false | Err _ => True end) ∧
      CONFIGURATION p' = CONFIGURATION p ∧ allocator p' = allocator p ∧ traced p' = traced p
  end ∧ data p' = data p ∧ ENDPOINT p' = ENDPOINT p ∧ CONFIG_FILE p' = CONFIG_FILE p.
Proof.
  destruct (init _ _ _ _ p) as [status p'] eqn:Hi. unfold init, load_configuration in Hi. change (config_file_path (lifecycle _ p)) with (config_file_path p) in Hi.
  assert (∀ c p1, status = StatusOk →
    p1 = trace_install (observability_install subscriber_taken (observability c)) (lifecycle ("valkey-dma module starting, build " +:+ VDMA_BUILD_ID) p) →
    (let p := configure_allocator (huge_arena_decay_ms (jemalloc c)) (huge_arena_oversize_threshold (jemalloc c)) p1 in
     let p := set_configuration c p in
     lifecycle ("valkey-dma configuration loaded: dma-libfabric providers " +:+
        providers_debug (providers (dma_libfabric (configuration p)))) p) = p' →
    configuration p' = default c (CONFIGURATION p) ∧ CONFIGURATION p' = Some (configuration p') ∧
    (ARMED (allocator p) = false →
     ARMED (allocator p') = bool_decide (is_Some (read_extent_hooks 0 (je_log (allocator p))).1)) ∧
    data p' = data p ∧ ENDPOINT p' = ENDPOINT p ∧ CONFIG_FILE p' = CONFIG_FILE p) as Hok.
  { intros c p1 _ -> <-. unfold configure_allocator, install. cbn [allocator trace_install lifecycle log_message].
    destruct (read_extent_hooks 0 (je_log (allocator p))) as [[hooks|] je].
    - destruct (tune _ _ je) as [arena je']. simpl. by split_and!.
    - simpl. by split_and!. }
  destruct (config_file_path p) as [path|] eqn:Ep; [destruct (read_to_string path) as [text|error] eqn:Er|].
  - unfold from_toml in Hi. destruct (toml_parse text) as [d|error] eqn:Et; simplify_eq.
    + destruct (Hok _ _ eq_refl eq_refl eq_refl) as (? & ? & ? & ?). split; [|done]. eauto 15.
    + split; [|done]. split; [|done]. exists path. split; [done|]. by rewrite Er, Et.
  - simplify_eq. split; [|done]. split; [|done]. exists path. split; [done|]. by rewrite Er.
  - simplify_eq. destruct (Hok _ _ eq_refl eq_refl eq_refl) as (? & ? & ? & ?). split; [|done]. eauto 15.
Qed.

(** [DMA.INFO] opens one endpoint and leaks none.  However often it is asked, every
    object and entry opened for it and not closed is the kept endpoint's; once it has
    succeeded nothing is opened again and every answer is the same, and where it failed
    nothing is kept and the next one tries afresh. *)
Lemma info_opens_one_endpoint c n p
  (Hnull : ∀ ev kind parent object, fi_open ev kind parent = (0%Z, object) → object ≠ 0%Z)
  (Hnew : ENDPOINT p = None ∧ setup p = []) :
  let p' := Nat.iter n (λ p, (endpoint_info c p).2) p in
  let kept := match ENDPOINT p' with Some e => holdings e | None => [] end in
  opened (setup p') ≡ₚ closed (setup p') ++ kept ∧
  infos (setup p') = (match ENDPOINT p' with Some _ => 1 | None => 0 end)%Z ∧ hints_live (setup p') = 0%Z ∧
  lists_live (setup p') = 0%Z ∧
  match ENDPOINT p' with
  | Some e => ∃ i, endpoint_info c p' = (Ok (describe i e), p') ∧ info e = Some i
  | None => n = 0 ∨ ∃ m error, n = S m ∧ (endpoint_info c (Nat.iter m (λ p, (endpoint_info c p).2) p)).1 = Err error
  end.
Proof.
  destruct Hnew as [He Hs]. cbv zeta. induction n as [|n IH]; simpl.
  { rewrite He, Hs. split_and!; auto. }
  set (q := Nat.iter n _ p) in *. destruct IH as (Ho & Hi & Hh & Hl & Hlast).
  destruct (ENDPOINT q) as [e|] eqn:Eq.
  { destruct Hlast as (i & Hq & Hinfo). rewrite Hq. simpl. rewrite Eq. eauto 10. }
  clear Hlast. destruct (endpoint_info c q) as [r q'] eqn:Hq. simpl. pose proof Hq as Hopen.
  unfold endpoint_info, with_endpoint in Hopen. rewrite Eq in Hopen.
  destruct (open _ _ (setup q)) as [[e|error] ev] eqn:Eo; apply open_cases in Eo; try done; simplify_eq/=.
  - destruct Eo as (Hb & _ & i & Hei). assert (info e = Some i) as Hinfo by (by rewrite Hei).
    rewrite (b_opened _ _ _ Hb), (b_closed _ _ _ Hb), (b_infos _ _ _ Hb), (b_hints _ _ _ Hb), (b_lists _ _ _ Hb),
      Ho, Hi, Hh, Hl, app_nil_r, Hinfo. split_and!; try done. exists i. split; [|done].
    unfold endpoint_info, with_endpoint. by cbn; rewrite Hinfo.
  - destruct Eo as (e0 & ev0 & Hb & ->). apply endpoint_drop_from in Hb as (Hc & Hop & Hin & Hhi & Hli).
    rewrite Hop, Hc, Hin, Hhi, Hli, Ho, Hi, Hh, Hl, !app_nil_r, reverse_Permutation. split_and!; try done.
    right. exists n, error. split; [done|]. fold q. by rewrite Hq.
Qed.

End effects.
