(* ===== verification/Advertised.v ===== *)
(** * What clients advertise, and what the fabric is asked for

    From the arguments of a command as valkey hands them over ([module/src/entry.rs]) down
    to the posts on every device.  A client's arguments name a buffer of its own: a key, an
    address and a length.  Whatever commands run and however they interleave with the workers,
    nothing outside what some client's command named is ever read or written at a peer, and
    every integer that gets there fits its machine width. *)

From S2P Require Import Prelude Arc Wire Fabric RegionCache Operands Memory PeerAddresses Config Endpoint.
From S2P Require Import Pool Worker FabricTransport Service Targets Addressed Start DataCommands Devices Entry.

(** ** Arguments *)

Lemma parse_data_args_fits args d :
  parse_data_args args = Ok d →
  in_u64 (Wire.remote_key (advertisement d)) ∧ in_u64 (Wire.remote_address (advertisement d)) ∧ in_u64 (data_length d).
Proof.
  unfold parse_data_args. destruct (negb _ && _); [done|]. unfold from_fields, parse_length.
  destruct (decode_hex _) as [addr|]; [|done]. simpl.
  destruct (parse_ascii u64_max (arg 2 args)) as [k|] eqn:Hk; [|done]. simpl.
  destruct (parse_ascii u64_max (arg 3 args)) as [a|] eqn:Ha; [|done]. simpl.
  destruct (parse_ascii usize_max _) as [n|] eqn:Hn; [|done]. simpl. intros [= <-]. simpl.
  split_and!; by eapply parse_ascii_u64.
Qed.

(** The client and the arguments of a data command, and whether it sends a value out. *)
Definition data_command (i : invocation) : option (Z * list (list u8) * bool) :=
  match i with
  | Set_ client args => Some (client, args, false)
  | Get client _ args => Some (client, args, true)
  | Info | Hello => None
  end.

Section advertised.
  Context `{Libfabric, !CompletionLaws, ∀ fmt, AddressVectorLaws fmt, LibfabricFlags, FabricSetup, Jemalloc}.
  Context {V X : Type} `{!Valkey V}.
  Variables (create_uninitialized : Z → OpToken → ValkeyString) (ensure_covered : Z → bool).
  Variables (discover : Configuration → X → result (list string) DmaError * X)
    (start : Configuration → X → result (list u8 * nat * service (recorded engine) OpToken nat) DmaError * X)
    (spawn_pool : nat → result () string).
  Variables (quiesce_pointer : Z) (clock : nat → Z) (place : gmap Z (InFlight OpToken) → Z) (crc : slice → Z).
#[local] Instance advertised_operands : Operands OpToken := module_operands create_uninitialized ensure_covered.
#[local] Instance advertised_laws : OperandsLaws OpToken nat blocked_of := module_operands_laws create_uninitialized ensure_covered.
  Hypothesis place_fresh : ∀ m, m !! place m = None.
  Hypothesis place_nonnull : ∀ m, place m ≠ 0%Z.
  Hypothesis start_recorded : ∀ c x address cap s x', start c x = (Ok (address, cap, s), x') →
    ∃ e, s = service_new (Build_recorded e ∅ []) ∧ unused e.
  (** A retained string is the value the key was read to have. *)
  Hypothesis retained_value : ∀ (ks : V) key bytes value,
    vk_read ks key = Ok (Some bytes) → vk_retained ks key = Some value → vs_length value = Z.of_nat (List.length bytes).
  Implicit Types (p : process (recorded engine) V X) (m : module (recorded engine) V X) (s : fabric_service (recorded engine)).
  Implicit Types (l : list invocation) (i : invocation) (g : posting) (r : TransferRequest OpToken).

(** A request one of the commands [l] makes. *)
Definition issued l r : Prop :=
  ∃ i args out d, i ∈ l ∧ data_command i = Some (client_id r, args, out) ∧ parse_data_args args = Ok d ∧
    peer_address r = address (advertisement d) ∧ Worker.remote_key r = Wire.remote_key (advertisement d) ∧
    Worker.remote_address r = Wire.remote_address (advertisement d) ∧
    match direction r with
    | ToPeer => out = true ∧ ∃ blocked held, request_context r = GetToken blocked held ∧
                  (0 ≤ len (as_bytes held) ≤ data_length d)%Z
    | FromPeer n => out = false ∧ n = data_length d
    end.

(** What a post may touch, for the commands [l]: part of the buffer one of them named.  A
    [DMA.GET]'s is read only to quiesce its write. *)
Definition within (quiesce : bool) l g : Prop :=
  ∃ i client args out d, i ∈ l ∧ data_command i = Some (client, args, out) ∧ parse_data_args args = Ok d ∧
    g_peer g = Some (client, address (advertisement d)) ∧ g_key g = Wire.remote_key (advertisement d) ∧
    (Wire.remote_address (advertisement d) ≤ g_remote g)%Z ∧
    (g_remote g + len (g_bytes g) ≤ Wire.remote_address (advertisement d) + data_length d)%Z ∧
    (g_out g = true → out = true) ∧ (g_out g = false → out = true → quiesce = true).

Lemma issued_more l l' r : (∀ i, i ∈ l → i ∈ l') → issued l r → issued l' r.
Proof. intros Hl (i & args & out & d & Hi & ?). exists i, args, out, d. auto. Qed.

(** The bytes a request resolves to are no more than its command named. *)
Lemma issued_bytes l r ptr n :
  issued l r → operand_bytes r = Ok (ptr, n) → ∃ i args out d,
    i ∈ l ∧ data_command i = Some (client_id r, args, out) ∧ parse_data_args args = Ok d ∧
    peer_address r = address (advertisement d) ∧ Worker.remote_key r = Wire.remote_key (advertisement d) ∧
    Worker.remote_address r = Wire.remote_address (advertisement d) ∧
    (0 ≤ n ≤ data_length d)%Z ∧ out = outward (direction r).
Proof.
  intros (i & args & out & d & Hi & Hc & Hd & Hp & Hk & Ha & Hdir) Ho. exists i, args, out, d.
  apply parse_data_args_fits in Hd as Hfit. destruct Hfit as (_ & _ & ? & _).
  unfold operand_bytes, resolve_operand in Ho. destruct (direction r) as [|n'].
  - destruct Hdir as (-> & blocked & held & Hctx & ? & ?). rewrite Hctx in Ho. simpl in Ho. injection Ho as _ <-. by split_and!.
  - destruct Hdir as (-> & ->). destruct (allocate _ _) as [[landing|] ctx]; simpl in Ho; [|done].
    destruct (_ <? _)%Z; [done|]. injection Ho as _ <-. by split_and!.
Qed.

Lemma justified_within quiesce l rs before g :
  Forall (issued l) rs → justified quiesce quiesce_pointer rs before g → within quiesce l g.
Proof.
  intros Hall (r & Hr & Hg). rewrite Forall_forall in Hall. specialize (Hall r Hr).
  destruct Hg as [(Hp & Ho & Hk & Ha & Hb)|(Hp & Ho & Hk & (Hq & _ & ptr & n & Hb & Hn & Hlast & _) & Hone & _)].
  - destruct (issued_bytes _ _ _ _ Hall Hb) as (i & args & out & d & ? & ? & ? & Hpa & Hrk & Hra & Hlen & ->).
    exists i, (client_id r), args, (outward (direction r)), d. rewrite <-Hpa, <-Hrk, <-Hra, Ha, Ho.
    split_and!; try done; [lia|by intros ->].
  - destruct (issued_bytes _ _ _ _ Hall Hb) as (i & args & out & d & ? & ? & ? & Hpa & Hrk & Hra & Hlen & ->).
    exists i, (client_id r), args, (outward (direction r)), d. rewrite <-Hpa, <-Hrk, <-Hra, Hlast, Hone, Ho. cbn.
    split_and!; try done; lia.
Qed.

(** Hence everything a worker whose requests are all a command's has posted. *)
Lemma aims_within quiesce l rs (w : worker (recorded engine) OpToken) :
  Forall (issued l) rs → aims quiesce quiesce_pointer rs [] w → Forall (within quiesce l) (record_of w).
Proof.
  intros Hrs Ha. apply Forall_forall. intros g (l1 & l2 & Hg)%list_elem_of_split.
  eapply justified_within; [exact Hrs|]. exact (am_sent _ _ _ _ _ Ha l1 g l2 Hg).
Qed.

(** ** Every service's requests are the commands' *)

Section services.
  Variable fabric : Configuration.

  Abbreviation requesting cap := (request_step blocked_of (quiesce_writes fabric) (progress_deadline fabric) cap
                                    quiesce_pointer clock place crc).

(** A service reached with the requests it took, each of them some command's. *)
Definition asked_by l s : Prop :=
  ∃ e rs, unused e ∧ Forall (issued l) rs ∧
    rtc (requesting (service_cap s)) ([], service_new (Build_recorded e ∅ [])) (rs, running s).

Lemma asked_by_more l l' s : (∀ i, i ∈ l → i ∈ l') → asked_by l s → asked_by l' s.
Proof.
  intros Hl (e & rs & He & Hrs & Hs). exists e, rs. split_and!; [done| |done].
  eapply Forall_impl; [exact Hrs|]. intros r. by apply issued_more.
Qed.

Lemma asked_by_step l s v :
  asked_by l s →
  service_step blocked_of (quiesce_writes fabric) (progress_deadline fabric) (service_cap s) quiesce_pointer clock place crc
    (running s) v →
  taken v = taken (running s) → asked_by l (with_running v s).
Proof.
  intros (e & rs & He & Hrs & Hs) Hstep Ht. exists e, rs. split_and!; [done|done|].
  eapply rtc_r; [exact Hs|]. by apply by_other.
Qed.

Lemma asked_by_starts l : starts_each start (asked_by l).
Proof.
  intros c x [[address cap] s] x' Hs. apply start_recorded in Hs as (e & -> & He). by exists e, [].
Qed.

Lemma asked_by_submits l : submits_each (asked_by l) (issued l).
Proof.
  intros request s res v Hq Hs Hr. destruct (submit_taken _ _ _ _ _ Hr) as [->|Ht].
  - destruct Hs as (e & rs & He & Hrs & Hs). exists e, (rs ++ [request]). split_and!; [done| |].
    + apply Forall_app. auto.
    + eapply rtc_r; [exact Hs|]. by apply by_submit.
  - apply asked_by_step; [done|by eapply step_submit|done].
Qed.

Lemma asked_by_removes l : removes_each (asked_by l).
Proof.
  intros client s Hs. apply asked_by_step; [done|apply step_remove_peer|apply remove_peer_taken].
Qed.

Lemma asked_by_alone l o m m' :
  left_alone create_uninitialized ensure_covered fabric quiesce_pointer clock place crc o m m' →
  each (asked_by l) m → each (asked_by l) m'.
Proof.
  intros Ha He. destruct Ha as [index servers s v m Hf Hs Hr|ks m]; [|exact He].
  apply (each_insert (asked_by l) m servers index s v He Hf).
  apply asked_by_step; [by eapply each_lookup|by apply step_thread|by eapply thread_taken].
Qed.

End services.

(** ** The process *)

  Abbreviation fabric_of p := (dma_libfabric (configuration p)).
  Abbreviation invoked := (invoke discover start spawn_pool).

(** Commands, with those run so far; disconnections, workers' turns and other changes of the
    keyspace between them. *)
Inductive process_step :
    list invocation * process (recorded engine) V X → list invocation * process (recorded engine) V X → Prop :=
  | step_invoke i l res p p' : invoked i p = (res, p') → process_step (l, p) (l ++ [i], p')
  | step_leave client subevent l p :
      process_step (l, p) (l, with_data (on_client_change client subevent (data p)) p)
  | step_between o l p m :
      left_alone create_uninitialized ensure_covered (fabric_of p) quiesce_pointer clock place crc o (data p) m →
      process_step (l, p) (l, with_data m p).

Lemma invoke_configuration i res p p' : invoked i p = (res, p') → CONFIGURATION p' = CONFIGURATION p.
Proof.
  destruct i; simpl; unfold dma_info_command, endpoint_info, with_endpoint, dma_hello_command, dma_set_command, dma_get_command.
  all: intros Hi; repeat (case_match; simplify_eq/=); done.
Qed.

Lemma held_length (ks : V) key bytes copied (m : module (recorded engine) V X) :
  keyspace m = ks → vk_read ks key = Ok (Some bytes) →
  len (as_bytes (holding m copied key bytes)) = Z.of_nat (List.length bytes).
Proof.
  intros <- Hr. unfold holding. destruct (vk_retained _ _) as [value|] eqn:Hv; [|done]. simpl. by eapply retained_value.
Qed.

Lemma invoke_asked_by i l res p p' :
  invoked i p = (res, p') → i ∈ l → each (asked_by (fabric_of p) l) (data p) → each (asked_by (fabric_of p) l) (data p').
Proof.
  intros Hi Hl He. pose proof (asked_by_starts (fabric_of p) l) as Hst. pose proof (asked_by_submits (fabric_of p) l) as Hsub.
  destruct i as [| |client args|client copied args]; simpl in Hi.
  - unfold dma_info_command, endpoint_info, with_endpoint in Hi. repeat (case_match; simplify_eq/=); done.
  - unfold dma_hello_command in Hi. destruct (dma_hello _ _ _ _ _) as [r' m] eqn:Eh. simplify_eq. by eapply dma_hello_each.
  - unfold dma_set_command in Hi. destruct (parse_data_args args) as [d|error] eqn:Hd; [|by simplify_eq].
    destruct (match Entry.crc d with Some _ => _ | None => _ end) as [expected|]; [|by simplify_eq].
    destruct (dma_set _ _ _ _ _ _ _ _ _ _) as [r' m] eqn:Es. simplify_eq.
    eapply dma_set_each; [exact Hst|exact Hsub|exact He| |exact Es]. intros blocked.
    exists (Set_ client args), args, false, d. by split_and!.
  - unfold dma_get_command in Hi. destruct (parse_data_args args) as [d|error] eqn:Hd; [|by simplify_eq].
    destruct (dma_get _ _ _ _ _ _ _ _ _ _ _) as [r' m] eqn:Es. simplify_eq.
    eapply dma_get_each; [exact Hst|exact Hsub|exact He| |exact Es]. intros bytes blocked Hr Hlen.
    exists (Get client copied args), args, true, d. split_and!; try done. split; [done|].
    eexists _, _. split; [done|]. rewrite (held_length (keyspace (data p))) by done. lia.
Qed.

Lemma process_step_asked fabric x y :
  process_step x y → fabric_of x.2 = fabric → each (asked_by fabric x.1) (data x.2) →
  fabric_of y.2 = fabric ∧ each (asked_by fabric y.1) (data y.2).
Proof.
  intros Hs <- He. destruct Hs as [i l res p p' Hi|client subevent l p|o l p m Ha]; simpl in *.
  - split; [unfold configuration; by rewrite (invoke_configuration _ _ _ _ Hi)|].
    eapply invoke_asked_by; [exact Hi|set_solver|]. eapply Forall_impl; [exact He|].
    intros s. apply asked_by_more. set_solver.
  - split; [done|]. by apply on_client_change_each; [apply asked_by_removes|].
  - split; [done|]. by eapply asked_by_alone.
Qed.

Lemma process_asked p0 l p :
  FABRIC_SERVICES (data p0) = None → rtc process_step ([], p0) (l, p) →
  each (asked_by (fabric_of p0) l) (data p).
Proof.
  intros Hf Hs. assert (∀ x y, rtc process_step x y → fabric_of x.2 = fabric_of p0 →
    each (asked_by (fabric_of p0) x.1) (data x.2) → each (asked_by (fabric_of p0) y.1) (data y.2)) as Hall.
  { induction 1 as [x|x y z Hxy _ IH]; [done|]. intros Hx He.
    destruct (process_step_asked _ _ _ Hxy Hx He). by apply IH. }
  apply (Hall _ _ Hs); [done|]. unfold each, services_of. simpl. rewrite Hf. constructor.
Qed.

(** The endpoint's calls and address vector, of a service. *)
Definition calls_of s : trace := e_trace (wrapped (endpoint_of (thread (running s)))).

Definition vector_of s : Z := address_vector (peer_addresses (e_endpoint (wrapped (endpoint_of (thread (running s)))))).

Lemma asked_by_aims fabric l s :
  asked_by fabric l s → ∃ rs, Forall (issued l) rs ∧
    aims (quiesce_writes fabric) quiesce_pointer rs [] (thread (running s)) ∧
    (deliveries (vector_of s) (calls_of s)).2 = of_posting <$> record_of (thread (running s)).
Proof.
  intros (e & rs & He & Hrs & Hs). exists rs. pose proof (unused_posted _ He) as Hp. split; [done|]. split.
  - apply (request_steps_aims blocked_of (quiesce_writes fabric) (progress_deadline fabric) (service_cap s) quiesce_pointer
      clock place crc place_fresh place_nonnull) in Hs; [apply Hs|..].
    + exists []. by apply (service_new_ok blocked_of (Build_recorded e ∅ [])).
    + by apply service_new_aims.
  - apply request_steps_service in Hs. exact (posts_reach_peers _ _ _ _ _ _ _ _ _ _ He Hs).
Qed.

Lemma process_aims p0 l p s :
  FABRIC_SERVICES (data p0) = None → rtc process_step ([], p0) (l, p) → s ∈ services_of (data p) →
  ∃ rs, Forall (issued l) rs ∧
    aims (quiesce_writes (fabric_of p0)) quiesce_pointer rs [] (thread (running s)) ∧
    (deliveries (vector_of s) (calls_of s)).2 = of_posting <$> record_of (thread (running s)).
Proof.
  intros Hf Hs Hin. pose proof (process_asked _ _ _ Hf Hs) as He. unfold each in He. rewrite Forall_forall in He.
  apply asked_by_aims. by apply He.
Qed.

(** C3: Only advertised memory.  Whatever commands run, with whatever arguments, and however
    they fall between the workers' turns, every [fi_writemsg] and [fi_read] that any device
    makes is to part of the buffer that the arguments of some command run before named: on
    behalf of the client that ran it, under a handle for which the device's address vector
    holds, at that moment, the address they named, and with their key; a buffer is
    written only for a [DMA.GET], and one that was named for a [DMA.GET] is read only where
    writes are quiesced. *)
Theorem only_advertised_memory p0 l p s
  (Hf : FABRIC_SERVICES (data p0) = None) (Hs : rtc process_step ([], p0) (l, p)) (Hin : s ∈ services_of (data p)) :
  (deliveries (vector_of s) (calls_of s)).2 = of_posting <$> record_of (thread (running s)) ∧
  Forall (within (quiesce_writes (fabric_of p0)) l) (record_of (thread (running s))).
Proof.
  destruct (process_aims _ _ _ _ Hf Hs Hin) as (rs & Hrs & Ha & Hd). split; [done|]. by eapply aims_within.
Qed.

(** ** Widths *)

Lemma issued_fits l r :
  issued l r → in_u64 (Worker.remote_key r) ∧ in_u64 (Worker.remote_address r) ∧
  ∀ ptr n, operand_bytes r = Ok (ptr, n) → in_u64 n.
Proof.
  intros Hr. pose proof Hr as (i & args & out & d & _ & _ & Hd & _ & -> & -> & _).
  destruct (parse_data_args_fits _ _ Hd) as (Hk & Ha & _). split; [done|]. split; [done|].
  intros ptr n Ho. destruct (issued_bytes _ _ _ _ Hr Ho) as (i' & args' & out' & d' & _ & _ & Hd' & _ & _ & _ & ? & _).
  destruct (parse_data_args_fits _ _ Hd') as (_ & _ & Hn). unfold in_u64 in *. lia.
Qed.

(** Every integer of a request's that the worker keeps or hands on. *)
Record fits (w : worker (recorded engine) OpToken) : Prop := {
  fit_pending q : q ∈ pending w → in_u64 (p_remote_key q) ∧ in_u64 (p_remote_address q) ∧ in_u64 (p_length q);
  fit_quiescing x : x ∈ quiescing w → in_u64 (q_remote_key (read x)) ∧ in_u64 (q_remote_address (read x));
  fit_sent g : g ∈ record_of w → in_u64 (g_key g) ∧ in_u64 (g_remote g) ∧ in_u64 (len (g_bytes g));
}.

Lemma last_byte_fits quiesce l r last :
  issued l r → last_byte quiesce r last → in_u64 last.
Proof.
  intros Hr (_ & _ & ptr & n & _ & Hn & -> & Hlt). destruct (issued_fits _ _ Hr) as (_ & Ha & _). unfold in_u64 in *. lia.
Qed.

(** C8: Integers keep their types.  In every state of every worker, whatever the arguments
    of the commands were, each remote key, remote address and length that is queued, kept for
    a quiesce read or handed to the fabric is a [u64]: the arithmetic on them never left it. *)
Theorem integers_fit p0 l p s
  (Hf : FABRIC_SERVICES (data p0) = None) (Hs : rtc process_step ([], p0) (l, p))
  (Hin : s ∈ services_of (data p)) : fits (thread (running s)).
Proof.
  destruct (process_aims _ _ _ _ Hf Hs Hin) as (rs & Hrs & Ha & _). rewrite Forall_forall in Hrs. split.
  - intros q Hq. destruct (am_queued _ _ _ _ _ Ha q Hq) as (r & op & Hr & _ & (_ & _ & -> & -> & _ & Hb) & _).
    destruct (issued_fits _ _ (Hrs r Hr)) as (? & ? & Hn). split; [done|]. split; [done|by eapply Hn].
  - intros x Hx. destruct (am_waiting _ _ _ _ _ Ha x Hx) as (r & op & Hr & _ & _ & _ & (-> & Hl) & _).
    split; [by apply (issued_fits l r (Hrs r Hr))|]. by eapply last_byte_fits; [apply Hrs|].
  - intros g Hg. apply list_elem_of_split in Hg as (l1 & l2 & Hg).
    destruct (am_sent _ _ _ _ _ Ha l1 g l2 Hg) as (r & Hr & Hcase).
    destruct (issued_fits _ _ (Hrs r Hr)) as (Hk & Hra & Hn).
    destruct Hcase as [(_ & _ & -> & -> & Hb)|(_ & _ & -> & Hl & -> & _)].
    + split; [done|]. split; [done|by eapply Hn].
    + split; [done|]. split; [by eapply last_byte_fits; [apply Hrs|]|done].
Qed.

End advertised.

(** ** Witnesses: a read and a write of two clients, on two devices *)

Section witnesses.
#[local] Existing Instance example_libfabric.
#[local] Existing Instance example_valkey.
#[local] Existing Instance two_devices.
#[local] Existing Instance example_flags.

Abbreviation string_module := (module (recorded engine) (list (list u8 * ValkeyString)) ()).
Abbreviation string_process := (process (recorded engine) (list (list u8 * ValkeyString)) ()).

Definition recorded_start (c : Configuration) (x : ()) :
    result (list u8 * nat * service (recorded engine) OpToken nat) DmaError * () :=
  let '(r, x) := example_start c x in
  (let? started := r in
   Ok (started.1, service_new (Build_recorded (endpoint_of (thread started.2)) ∅ [])), x).

Lemma recorded_start_recorded c x address cap s x' :
  recorded_start c x = (Ok (address, cap, s), x') → ∃ e, s = service_new (Build_recorded e ∅ []) ∧ unused e.
Proof.
  unfold recorded_start, example_start. destruct (Start.start _ _ _ _ _ _) as [[[r ev] c1] tr] eqn:Es.
  destruct r as [[[a n] s0]|error]; intros; simplify_eq/=.
  edestruct (Start.start_unused (T := OpToken) (K := nat) (Ok tt)) as (e & av & fmt & -> & Hm & Hp);
    [|apply empty_cache_ok|exact Es|]; [by cbn; intros; simplify_eq; lia|].
  exists e. split; [done|]. by exists av, fmt.
Qed.

Lemma example_retained (ks : list (list u8 * ValkeyString)) key bytes value :
  vk_read ks key = Ok (Some bytes) → vk_retained ks key = Some value → vs_length value = Z.of_nat (List.length bytes).
Proof. done. Qed.

Definition data_args (key : string) : list (list u8) :=
  [ascii "DMA"; encode_hex (replicate 32 Byte.x01); ascii "9"; ascii "65536"; ascii "64"; ascii key].

(** A command, or a turn of a worker. *)
Inductive process_op : Type :=
  | Command (i : invocation)
  | WorkerTurn (index : nat).

Abbreviation example_turn := (thread_step (Operands0 := module_operands example_string (λ _, true)) true
  default_progress_deadline).

Definition process_run (op : process_op) (x : list invocation * string_process) : list invocation * string_process :=
  match op with
  | Command i => (x.1 ++ [i], (invoke example_discover recorded_start (λ _, Ok tt) i x.2).2)
  | WorkerTurn index =>
      match FABRIC_SERVICES (data x.2) with
      | None => x
      | Some servers =>
          match servers !! index with
          | None => x
          | Some s =>
              match example_turn (service_cap s) 64 Z.of_nat example_place (λ _, 7%Z) (running s) with
              | None => x
              | Some v => (x.1, with_data (with_services (Some (<[index := with_running v s]> servers)) (data x.2)) x.2)
              end
          end
      end
  end.

Definition string_root : RootConfiguration :=
  Build_RootConfiguration quiescing_configuration (jemalloc default_root) (observability default_root).

Definition string_process_new : string_process :=
  Build_process None (Some string_root) None [] statics_new [] []
    (Build_module [(ascii "a", {| vs_pointer := 4096; vs_length := 5 |})] () None 0 0 [] false false []).

Abbreviation stepping := (process_step example_string (λ _, true) example_discover recorded_start (λ _, Ok tt)
  64 Z.of_nat example_place (λ _, 7%Z)).

Lemma process_runs ops x :
  dma_libfabric (configuration x.2) = quiescing_configuration → rtc stepping x (foldl (λ x op, process_run op x) x ops).
Proof.
  revert x. induction ops as [|op ops IH]; intros x Hx; [done|]. simpl.
  enough (rtc stepping x (process_run op x) ∧ dma_libfabric (configuration (process_run op x).2) = quiescing_configuration) as [Hs Hc]
    by (etrans; [exact Hs|by apply IH]).
  destruct x as [l p]. destruct op as [i|index]; simpl in *.
  - destruct (invoke _ _ _ i p) as [res p'] eqn:Hi. split; [by eapply rtc_once, step_invoke|].
    unfold configuration in *. simpl. by rewrite (invoke_configuration _ _ _ _ _ _ _ Hi).
  - destruct (FABRIC_SERVICES (data p)) as [servers|] eqn:Hf; [|done].
    destruct (servers !! index) as [s|] eqn:Hs; [|done].
    destruct (example_turn _ _ _ _ _ _) as [v|] eqn:Hv; [|done]. split; [|done].
    eapply rtc_once, step_between. rewrite Hx. by eapply alone_worker.
Qed.

(** A value sent out with its quiesce read on one device, a value read on the other. *)
Definition both_clients : list invocation * string_process :=
  foldl (λ x op, process_run op x) ([], string_process_new)
    [Command (Get 1 (λ _, 8192%Z) (data_args "a")); Command (Set_ 2 (data_args "b")); WorkerTurn 0; WorkerTurn 1].

Lemma both_clients_reached : rtc stepping ([], string_process_new) (both_clients.1, both_clients.2).
Proof. rewrite <-surjective_pairing. exact (process_runs _ ([], string_process_new) eq_refl). Qed.

Definition delivered_on (s : fabric_service (recorded engine)) : list delivery := (deliveries (vector_of s) (calls_of s)).2.

Lemma only_advertised_memory_witness :
  ((λ s, (λ d, (d_address d, d_out d, d_remote d, len (d_bytes d))) <$> delivered_on s) <$> services_of (data both_clients.2)) =
    [[(Some (replicate 32 Byte.x01), true, 65536, 5); (Some (replicate 32 Byte.x01), false, 65540, 1)];
     [(Some (replicate 32 Byte.x01), false, 65536, 64)]]%Z ∧
  Forall (λ s, delivered_on s = of_posting <$> record_of (thread (running s)) ∧
    Forall (within true both_clients.1) (record_of (thread (running s)))) (services_of (data both_clients.2)).
Proof.
  split; [vm_compute; reflexivity|]. apply Forall_forall. pose proof both_clients_reached as Hr.
  revert Hr. generalize both_clients. intros x Hr s Hs.
  exact (only_advertised_memory example_string (λ _, true) example_discover recorded_start (λ _, Ok tt)
    64 Z.of_nat example_place (λ _, 7%Z) example_place_fresh example_place_nonnull recorded_start_recorded example_retained
    string_process_new x.1 x.2 s eq_refl Hr Hs).
Defined.

(** Keys, addresses and lengths at the end of their ranges. *)
Definition extreme_args (remote_address length : string) : list (list u8) :=
  [ascii "DMA"; encode_hex (replicate 32 Byte.x01); ascii "18446744073709551615"; ascii remote_address; ascii length; ascii "a"].

Definition extreme_clients : list invocation * string_process :=
  foldl (λ x op, process_run op x) ([], string_process_new)
    [Command (Get 1 (λ _, 8192%Z) (extreme_args "18446744073709551611" "5"));
     Command (Get 2 (λ _, 8192%Z) (extreme_args "18446744073709551612" "5")); WorkerTurn 0; WorkerTurn 1].

Lemma extreme_clients_reached : rtc stepping ([], string_process_new) (extreme_clients.1, extreme_clients.2).
Proof. rewrite <-surjective_pairing. exact (process_runs _ ([], string_process_new) eq_refl). Qed.

Lemma integers_fit_witness :
  ((λ s, (λ g, (g_key g, g_remote g)) <$> record_of (thread (running s))) <$> services_of (data extreme_clients.2)) =
    [[(u64_max, u64_max - 4); (u64_max, u64_max)]; []]%Z ∧
  Forall (λ s, fits (thread (running s))) (services_of (data extreme_clients.2)).
Proof.
  split; [vm_compute; reflexivity|]. apply Forall_forall. pose proof extreme_clients_reached as Hr.
  revert Hr. generalize extreme_clients. intros x Hr s Hs.
  exact (integers_fit example_string (λ _, true) example_discover recorded_start (λ _, Ok tt)
    64 Z.of_nat example_place (λ _, 7%Z) example_place_fresh example_place_nonnull recorded_start_recorded example_retained
    string_process_new x.1 x.2 s eq_refl Hr Hs).
Defined.

End witnesses.
