(* ===== verification/Exposed.v ===== *)
(** * A client's buffer, end to end

    From the buffer a target exposes ([examples/passive_target]) through the line it prints
    ([examples/one_target.rs]) and the commands that carry its fields to the posts of every
    device: nothing outside the buffer is touched, and nothing is asked of it that its
    registration does not grant. *)

From S2P Require Import Prelude Arc Wire Fabric RegionCache Operands Memory PeerAddresses Config Endpoint PassiveTarget Client.
From S2P Require Import Pool Worker FabricTransport Service Targets Addressed Start DataCommands Devices Entry Advertised.

(** ** What reaches the buffer *)

Section buffer.
  Context `{Libfabric, LibfabricFlags, FabricSetup}.

(** Where in the target's memory a post lands, of a region that starts at [pointer]. *)
Definition landing_pointer (t : Target) (pointer : Z) (d : delivery) : Z :=
  if virtual_addressing t then d_remote d else (pointer + d_remote d)%Z.

(** The access a post needs of the region it is to. *)
Definition access_needed (d : delivery) : Z := if d_out d then FI_REMOTE_WRITE else FI_REMOTE_READ.

(** A [DMA.SET] named the endpoint: somebody asked for what its buffers hold. *)
Definition asked_to_read (l : list invocation) (address : list u8) : Prop :=
  ∃ i client args d, i ∈ l ∧ data_command i = Some (client, args, false) ∧ parse_data_args args = Ok d ∧
    Wire.address (advertisement d) = address.

(** Inside the region and under its key.  A write is within the access it was registered with, and
    so is a read if it was registered for reads; and a read is made only for a command that asked
    for one, or by a server that quiesces its writes. *)
Definition respects (quiesce : bool) (l : list invocation) (address : list u8)
    (t : Target) (pointer length : Z) (remote_read : bool) (exposed : Exposed) (d : delivery) : Prop :=
  d_key d = exposed_key exposed ∧ (pointer ≤ landing_pointer t pointer d)%Z ∧
  (landing_pointer t pointer d + len (d_bytes d) ≤ pointer + length)%Z ∧
  (d_out d = true ∨ remote_read = true → has_flag (exposed_access remote_read) (access_needed d) = true) ∧
  (d_out d = false → quiesce = true ∨ asked_to_read l address).

(** A command carries the advertisement as it was printed, with no more length than was exposed. *)
Definition carries (address : list u8) (length : Z) (exposed : Exposed) (i : invocation) : Prop :=
  ∀ client args out d, data_command i = Some (client, args, out) → parse_data_args args = Ok d →
    Wire.address (advertisement d) = address →
    [arg 1 args; arg 2 args; arg 3 args] = advertisement_fields address exposed ∧ (data_length d ≤ length)%Z.

Lemma has_flag_lor_l a b flag : has_flag a flag = true → has_flag (Z.lor a b) flag = true.
Proof.
  unfold has_flag. rewrite !negb_true_iff, !Z.eqb_neq. intros Hne Hz. apply Hne. apply Z.bits_inj'. intros n Hn.
  apply (f_equal (λ z, Z.testbit z n)) in Hz. rewrite Z.land_spec, Z.lor_spec in Hz. rewrite Z.land_spec, Z.bits_0 in *.
  destruct (Z.testbit a n), (Z.testbit flag n); done.
Qed.

Lemma has_flag_same flag : flag ≠ 0%Z → has_flag flag flag = true.
Proof. intros Hne. unfold has_flag. rewrite Z.land_diag. by apply negb_true_iff, Z.eqb_neq. Qed.

(** What a registration grants. *)
Lemma exposed_access_grants remote_read :
  FI_REMOTE_READ ≠ 0%Z → FI_REMOTE_WRITE ≠ 0%Z →
  has_flag (exposed_access remote_read) FI_REMOTE_WRITE = true ∧
  (remote_read = true → has_flag (exposed_access remote_read) FI_REMOTE_READ = true).
Proof.
  intros Hr Hw. unfold exposed_access. split; [|intros ->; do 3 apply has_flag_lor_l; by apply has_flag_same].
  do 2 apply has_flag_lor_l. destruct remote_read; [rewrite Z.lor_comm; apply has_flag_lor_l|]; by apply has_flag_same.
Qed.

(** A buffer exposed for writes only cannot be read back, so a server that quiesces its writes
    is refused there. *)
Lemma exposed_access_denies :
  Z.land FI_REMOTE_WRITE FI_REMOTE_READ = 0%Z → Z.land FI_READ FI_REMOTE_READ = 0%Z →
  Z.land FI_WRITE FI_REMOTE_READ = 0%Z → has_flag (exposed_access false) FI_REMOTE_READ = false.
Proof. intros Hrw Hr Hw. unfold has_flag, exposed_access. by rewrite !Z.land_lor_distr_l, Hrw, Hr, Hw. Qed.

(** What [expose] gives: a key, and the address by which the provider counts. *)
Lemma target_expose_at `{!TargetFabric} pointer length remote_read t tr exposed t' tr' :
  target_expose pointer length remote_read t tr = (Ok exposed, t', tr') →
  exposed_address exposed = (if virtual_addressing t then pointer else 0)%Z ∧
  virtual_addressing t' = virtual_addressing t ∧
  tr' = tr ++ [RegisterRemote (t_domain t) pointer length (exposed_access remote_read)].
Proof.
  unfold target_expose. destruct (remote_mr_reg _ _ _ _ _) as [code region]. destruct (target_check _ _); [|done].
  by intros [= <- <- <-].
Qed.

(** Arguments that spell an advertisement parse to it. *)
Lemma carried_parse args address exposed d :
  [arg 1 args; arg 2 args; arg 3 args] = advertisement_fields address exposed → parse_data_args args = Ok d →
  in_u64 (exposed_key exposed) → in_u64 (exposed_address exposed) →
  Wire.remote_key (advertisement d) = exposed_key exposed ∧ Wire.remote_address (advertisement d) = exposed_address exposed.
Proof.
  unfold parse_data_args. intros -> Hp Hk Ha. rewrite from_fields_advertised in Hp by done.
  destruct (negb _ && _); [done|]. simpl in Hp. destruct (parse_length _); [|done]. simpl in Hp. by simplify_eq.
Qed.

(** A post a command named stays in the buffer if the command carries what was printed. *)
Lemma within_respects `{!TargetFabric} quiesce l g t tr pointer length remote_read exposed t' tr' address :
  FI_REMOTE_READ ≠ 0%Z → FI_REMOTE_WRITE ≠ 0%Z →
  target_expose pointer length remote_read t tr = (Ok exposed, t', tr') →
  in_u64 (exposed_key exposed) → in_u64 (exposed_address exposed) →
  Forall (carries address length exposed) l → within quiesce l g →
  d_address (of_posting g) = Some address → respects quiesce l address t' pointer length remote_read exposed (of_posting g).
Proof.
  intros Hr Hw (Hat & Hv & _)%target_expose_at Hk Ha Hl (i & client & args & out & d & Hi & Hc & Hd & Hp & Hgk & Hlo & Hhi & Ho & Hq) Haddr.
  rewrite Forall_forall in Hl. unfold d_address, of_posting in Haddr. rewrite Hp in Haddr. simpl in Haddr. injection Haddr as Haddr.
  destruct (Hl i Hi client args out d Hc Hd Haddr) as (Hf & Hlen).
  destruct (carried_parse _ _ _ _ Hf Hd Hk Ha) as [Hkey Haddress]. rewrite Haddress, Hat in Hlo, Hhi.
  destruct (exposed_access_grants remote_read Hr Hw) as [Hgw Hgr].
  unfold respects, landing_pointer, access_needed, of_posting. rewrite Hv. cbn [d_key d_remote d_bytes d_out].
  split; [congruence|]. split; [destruct (virtual_addressing t); lia|]. split; [destruct (virtual_addressing t); lia|].
  split; [destruct (g_out g); [done|intros [?|?]; [done|by apply Hgr]]|]. intros Hg.
  destruct out; [left; by apply Hq|right]. by exists i, client, args, d.
Qed.

End buffer.

(** ** The process and the buffer *)

Section exposed.
  Context `{Libfabric, !CompletionLaws, ∀ fmt, AddressVectorLaws fmt, LibfabricFlags, FabricSetup, Jemalloc, TargetFabric}.
  Context {V X : Type} `{!Valkey V}.
  Variables (create_uninitialized : Z → OpToken → ValkeyString) (ensure_covered : Z → bool).
  Variables (discover : Configuration → X → result (list string) DmaError * X)
    (start : Configuration → X → result (list u8 * nat * service (recorded engine) OpToken nat) DmaError * X)
    (spawn_pool : nat → result () string).
  Variables (quiesce_pointer : Z) (clock : nat → Z) (place : gmap Z (InFlight OpToken) → Z) (crc : slice → Z).
#[local] Instance exposed_operands : Operands OpToken := module_operands create_uninitialized ensure_covered.
#[local] Instance exposed_laws : OperandsLaws OpToken nat blocked_of := module_operands_laws create_uninitialized ensure_covered.
  Hypothesis place_fresh : ∀ m, m !! place m = None.
  Hypothesis place_nonnull : ∀ m, place m ≠ 0%Z.
  Hypothesis start_recorded : ∀ c x address cap s x', start c x = (Ok (address, cap, s), x') →
    ∃ e, s = service_new (Build_recorded e ∅ []) ∧ unused e.
  Hypothesis retained_value : ∀ (ks : V) key bytes value,
    vk_read ks key = Ok (Some bytes) → vk_retained ks key = Some value → vs_length value = Z.of_nat (List.length bytes).
  (** The header gives the two flags bits. *)
  Hypothesis remote_read_bit : FI_REMOTE_READ ≠ 0%Z.
  Hypothesis remote_write_bit : FI_REMOTE_WRITE ≠ 0%Z.
  Implicit Types (p : process (recorded engine) V X) (l : list invocation).

  Abbreviation reached := (rtc (process_step create_uninitialized ensure_covered discover start spawn_pool
                                 quiesce_pointer clock place crc)).

(** C9: A client's buffer.  A client exposes a buffer and every command that names its
    endpoint carries the three fields it printed and a length within the buffer; then whatever
    else runs, each post of any device that goes to that endpoint is under the buffer's key and
    lies inside it by the way the client's provider addresses it.  Its registration grants every
    write, and, if the buffer was exposed for reads too, every read; and reads there are only if
    the server quiesces its writes or some [DMA.SET] named the endpoint, so a buffer exposed for
    writes only that no [DMA.SET] names, at a server that does not quiesce, is asked for nothing
    it does not grant. *)
Theorem exposed_buffer_respected t tr pointer length remote_read exposed t' tr' address p0 l p s
  (Hexpose : target_expose pointer length remote_read t tr = (Ok exposed, t', tr'))
  (Hkey : in_u64 (exposed_key exposed)) (Hat : in_u64 (exposed_address exposed))
  (Hf : FABRIC_SERVICES (data p0) = None) (Hs : reached ([], p0) (l, p)) (Hin : s ∈ services_of (data p))
  (Hcarry : Forall (carries address length exposed) l) :
  Forall (λ d, d_address d = Some address →
      respects (quiesce_writes (dma_libfabric (configuration p0))) l address t' pointer length remote_read exposed d)
    (deliveries (vector_of s) (calls_of s)).2.
Proof.
  edestruct (process_aims create_uninitialized ensure_covered discover start spawn_pool) as (rs & Hrs & Ha & ->);
    [exact place_fresh|exact place_nonnull|exact start_recorded|exact retained_value|exact Hf|exact Hs|exact Hin|].
  apply Forall_fmap, Forall_forall. intros g Hg Hd. eapply aims_within in Ha; [|exact Hrs]. rewrite Forall_forall in Ha.
  eapply within_respects; eauto.
Qed.

End exposed.

(** ** Witness: a value sent out to the buffer and one read back from it, on two devices *)

Section witnesses.
#[local] Existing Instance example_libfabric.
#[local] Existing Instance example_valkey.
#[local] Existing Instance two_devices.
#[local] Existing Instance example_flags.

Definition example_remote : TargetFabric :=
  {| remote_mr_reg _ _ _ _ _ := (0, 77)%Z; fi_mr_key _ := 9%Z; insert_one _ _ _ := 1%Z |}.
#[local] Existing Instance example_remote.

Definition virtual_target : Target := set_info [example_info] target_null.

Lemma both_clients_carry :
  Forall (carries (replicate 32 Byte.x01) 64 {| exposed_key := 9; exposed_address := 65536 |}) both_clients.1.
Proof.
  assert (both_clients.1 = [Get 1 (λ _, 8192%Z) (data_args "a"); Set_ 2 (data_args "b")]) as -> by (vm_compute; reflexivity).
  apply Forall_cons_2; [|apply Forall_singleton]; intros client args out d [= <- <- <-] Hd _.
  all: split; [vm_compute; reflexivity|].
  all: vm_compute in Hd; injection Hd as <-; vm_compute; discriminate.
Qed.

Lemma exposed_buffer_respected_witness :
  ((λ s, (λ d, (landing_pointer virtual_target 65536 d, len (d_bytes d))) <$> delivered_on s) <$> services_of (data both_clients.2)) =
    [[(65536, 5); (65540, 1)]; [(65536, 64)]]%Z ∧
  Forall (λ s, Forall (λ d, d_address d = Some (replicate 32 Byte.x01) →
      respects true both_clients.1 (replicate 32 Byte.x01) (set_memory_region 77 virtual_target) 65536 64 true {| exposed_key := 9; exposed_address := 65536 |} d)
    (delivered_on s)) (services_of (data both_clients.2)).
Proof.
  split; [vm_compute; reflexivity|]. apply Forall_forall. pose proof both_clients_reached as Hr. pose proof both_clients_carry as Hc.
  assert (FI_REMOTE_READ ≠ 0%Z ∧ FI_REMOTE_WRITE ≠ 0%Z) as [Hread Hwrite] by (split; discriminate).
  assert (in_u64 9 ∧ in_u64 65536) as [Hkey Hat] by (split; by vm_compute).
  revert Hr Hc. generalize both_clients. intros x Hr Hc s Hs.
  exact (exposed_buffer_respected example_string (λ _, true) example_discover recorded_start (λ _, Ok tt)
    64 Z.of_nat example_place (λ _, 7%Z) example_place_fresh example_place_nonnull recorded_start_recorded example_retained
    Hread Hwrite virtual_target [] 65536 64 true {| exposed_key := 9; exposed_address := 65536 |} _ _
    (replicate 32 Byte.x01) string_process_new x.1 x.2 s eq_refl Hkey Hat eq_refl Hr Hs Hc).
Defined.

End witnesses.
